(* ===== verification/_CoqProject ===== *)
-Q . S2P
Prelude.v
Instr.v
Machine.v
MachineFacts.v
Decoder.v
Instrumented.v
Optimizer.v
OptBase.v
OptJumps.v
OptRemove.v
OptDead.v
OptLoads.v
OptReturns.v
OptFacts.v
Builder.v
BuilderFacts.v
SeccompAbi.v
TaskSeccomp.v
TaskSeccompFacts.v
SeccompRules.v
Labels.v
Fragments.v
RuleFacts.v
RuleOpt.v
ReprFacts.v
RuleOptBase.v
ExtractFacts.v
ExtractLoop.v
RuleOptFacts.v
SyscallRulesFacts.v
SeccompAction.v
SeccompProgram.v
SingleFacts.v
LinearFacts.v
SearchTree.v
TreeFacts.v
RenderFacts.v
OrderFacts.v
Closed.v
DataLayout.v
BuildFacts.v
Bytecode.v
Precompile.v
PrecompileFacts.v
SegSet.v
SegHeap.v
SegTree.v
SegIter.v
SegChange.v
SegInsert.v
SegRemove.v
SegView.v
SegOps.v
SegLoops.v
SegMeaning.v
IdMapFunctions.v
SegProps.v
IdMapSet.v
IdMapBtree.v
Capability.v
FileMode.v
UserNs.v
Credentials.v
ExecCreds.v
TaskIdentity.v
IdentitySyscalls.v
NsFacts.v
NsProps.v
Privileges.v
CapFacts.v
CredFacts.v
ExecFacts.v
PrivFacts.v
Confinement.v
FileCaps.v
PrivProps.v
PosixACL.v
Permissions.v
AclFacts.v
PermProps.v
