(* ===== verification/Prelude.v ===== *)
(** * Verification of the seccomp stack and of privileges

    A sandboxed application of this repository is confined twice by seccomp-BPF: the sentry runs
    the filters its application installs (src/pkg/sentry/kernel/seccomp.go), and the sandbox
    process installs filters of its own that are made from tables of rules (src/pkg/seccomp).
    Both rest on the BPF library (src/pkg/bpf).  This development models the three and proves
    that they do what they are for: a filter runs safely and is optimized without a change of
    meaning, a table of rules becomes a filter that decides as the table says, and the sentry
    lets exactly those system calls through that all filters allow.

    What gets through the filters is decided by the privileges of the calling task, which the
    sentry implements itself.  The second part models credentials, capabilities and user
    namespaces (src/pkg/sentry/kernel/auth), the system calls that change them, and the
    permission checks of file systems (src/pkg/sentry/vfs).  It proves that tasks without
    privileges do not get any, and that checks decide as documented.  User namespaces keep
    their ID mappings in segment sets (src/pkg/segment), which are verified down to the
    pointers of their B-trees.  The two parts meet in
    no_new_privs, which a task without CAP_SYS_ADMIN has to set before it installs a filter.

    ** Files

    The BPF library:
    - [Prelude]: machine-width integers, results with errors and panics, sorting, list lemmas.
    - [Instr] (bpf.go): opcodes, instructions and their predicates.
    - [Machine] (interpreter.go, input_bytes.go): [Exec] and the validation of [Compile];
      [MachineFacts] gives the run of a program as an evaluation function and proves that
      validation accepts exactly the well-formed programs and that these run safely.
    - [Decoder] (decoder.go): the text of instructions.
    - [Instrumented] (interpreter.go): [InstrumentedExec], with its own model of the switch, and
      what its coverage and input metrics mean.
    - [Optimizer] (optimizer.go): the passes, [Optimize] and [Compile]; [OptBase], [OptJumps],
      [OptRemove], [OptDead], [OptLoads] and [OptReturns] prove each pass, [OptFacts] the whole.
    - [Builder] (program_builder.go): the program builder with its labels, and the outcomes of
      fragments; [BuilderFacts] has its invariant [builder_ok], which all operations keep.
    - [Bytecode] (bpf_unsafe.go): programs as raw bytes.

    The sentry:
    - [SeccompAbi] (abi/linux/seccomp.go): actions and the data of a system call.
    - [TaskSeccomp] (sentry/kernel/seccomp.go, syscalls/linux/sys_seccomp.go): tasks with their
      filters and action caches, installation, seccomp(2) and the dispatch of system calls, as
      steps on a thread group; [TaskSeccompFacts] has the invariants of reachable thread groups.

    The seccomp library:
    - [SeccompRules] (seccomp_rules.go, seccomp.go): matchers, rules, label sets and the code
      they render.  Code that adds to a builder is a function on builders that may panic.
    - [Labels] shows that labels with different prefixes are different.  [Fragments] is a logic
      for rendered code: [renders e inp open f reg L R sem] says that [f] adds code that places
      the labels [reg], leaves by [L], by returning one of [R] or, if [open], at its end, and
      relates the accumulator to the exit by [sem], in every program the code ends up in.
      [RuleFacts] proves the code of rules in it.
    - [RuleOpt] (seccomp_optimizer.go): the rule optimizer.  [ReprFacts] shows that the textual
      representations by which it compares matchers determine their meaning; [RuleOptBase],
      [ExtractFacts] and [ExtractLoop] prove its functions, [RuleOptFacts] the whole.
      [SyscallRulesFacts] is about the operations on tables of rules.
    - [SeccompAction] (seccomp.go): actions as strings and their kernel values.
    - [SeccompProgram] (seccomp.go): ordering of rule sets, linear and binary search, [Build].
      [SingleFacts], [LinearFacts], [SearchTree], [TreeFacts] and [RenderFacts] prove the code
      of each part, [OrderFacts] the ordering, [Closed] turns a specification in the logic of
      [Fragments] into one of runs, [DataLayout] states where a filter finds the data, and
      [BuildFacts] has the theorems about [Build].
    - [Precompile] (precompiledseccomp/precompiledseccomp.go): programs with variables, built
      ahead of time and rendered in place; [PrecompileFacts] has the theorems about them.

    Segment sets (pkg/segment/set.go, range.go), the template from which the sets of ID ranges
    are generated:
    - [SegSet]: ranges, and the set as a heap of B-tree nodes that point to their parents; every
      operation is a program on the heap.  The parameters of the template are a class.
    - [SegHeap] has the logic of such programs, [SegTree] the trees that heaps represent,
      [SegIter] the iterators and the search, [SegChange] how a change of some nodes changes
      the tree, [SegInsert] and [SegRemove] the rebalancing, insertion and removal.
    - [SegView] is the interface to what follows: the list of segments with an iterator for
      each segment and each gap.  [SegOps] and [SegLoops] prove the operations against it,
      [SegMeaning] what a set stands for, [SegProps] the claims.
    - [IdMapFunctions] (auth/id_map_functions.go): the parameters for ID mappings.

    Identities and privileges:
    - [IdMapSet]: what user namespaces rely on in sets of ID ranges, as a class with its laws,
      and an instance with lists.  [IdMapBtree]: the instance that the program has, the
      segment set with the functions of ID mappings; it agrees with the one with lists, and
      the samples of the claims about namespaces, credentials and files run on it.
    - [Capability] (abi/linux/capability.go, auth/capability_set.go): capabilities,
      sets of them, file capabilities.  [FileMode] (abi/linux/file.go): modes and flags.
    - [UserNs] (auth/id.go, id_map.go, user_namespace.go): the tree of namespaces, whose mutable
      state is in a store, and translation of IDs.  [Credentials] (auth/credentials.go):
      credentials, their checks, and the operations on namespaces that depend on them.
      [NsFacts] has the invariant of reachable stores, [NsProps] the claims.
    - [ExecCreds] (auth/capability_set.go): credentials across execve.  [TaskIdentity]
      (sentry/kernel/task_identity.go): the methods that change the identity of a task.
      [IdentitySyscalls] (syscalls/linux/sys_identity.go, sys_capability.go, sys_prctl.go):
      the system calls.  [Privileges] (sentry/kernel/task_exec.go, task_clone.go): execve,
      clone, unshare and setns, and the steps of a group of tasks.
    - [CapFacts], [CredFacts], [ExecFacts], [PrivFacts] and [Confinement] prove what each call
      does to capabilities and IDs; [FileCaps] is about file capabilities in namespaces;
      [PrivProps] has the claims.
    - [PosixACL] (vfs/posix_acl.go, abi/linux/xattr.go) and [Permissions] (vfs/permissions.go):
      access control lists and permission checks; [AclFacts] and [PermProps] prove them.

    ** How code is modelled

    A pure function is a function; a method that changes its receiver returns the new receiver.
    Go panics are [None], or [Panic] of [result] where there are errors as well; errors are
    values of an inductive type with a constructor per error.  Unsigned integers are [Z] with
    their wrap-around written out.  Maps are [gmap]; where the order in which Go goes through a
    map can matter it is an argument, and the theorems hold for every order that lists each
    entry once.  Loops that do not recurse structurally have fuel: [Exec] one more than the
    number of instructions (every step moves forward), the optimizers a measure that every
    change decreases ([measure], [bulk], [spread]), [createBST] the length of the slice, the
    loops of [knownRange] one more than the number of system calls checked before, walks in a
    segment set the number of nodes ever allocated, and loops over its segments that number
    times the most segments of a node.  That this
    is enough is part of what the theorems say: they assert results, not only properties of
    results.

    Constants of the code that are plain numbers are abbreviations.  Credentials are immutable
    objects in the code and values here.  User namespaces are immutable trees with a number, by
    which a store [ns_store] has their ID maps; the code compares them by address, the model by
    number.  What a system call reads from or writes to the memory of the application is an
    argument or a list of writes.  Of execve, the model has what depends on privileges; the
    file, the tracer and the sharing of directories are arguments, so the theorems hold for
    all of them.

    ** What the theorems show

    - [Compile] accepts exactly the well-formed programs; these run to a value or to one of two
      errors, and optimizing keeps the value of every run unless the program reads scratch
      memory or input at an index register into the accumulator (there is a counterexample for
      these).  The optimizer ends, at a fixed point.
    - Instrumented runs agree with plain ones, and only depend on the bytes they mark.
    - A builder resolves its labels exactly when it can, and the outcomes of fragments
      are sound for the final program.
    - The rule optimizer ends, at a fixed point that matches the same system calls.
    - [Build] returns a program that gives each system call the action of the first rule set
      that applies to it, and reports exactly the conflicts of rule sets.  Its search trees are
      balanced and the ranges it uses to leave out comparisons are exact.
    - A precompiled program rendered with the values it was checked with is the program built
      with them, and rendering it repeatedly leaves no trace of earlier values.  That it is so
      for other values as well depends on the function that makes the program, which may treat
      them differently; [Precompile] does not rule that out, so no theorem claims it.
    - The sentry's action cache is transparent, filters only restrict, and system calls enter
      exactly when all filters allow them.
    - A segment set implements a partial map from keys: no operation panics but as documented,
      all give the answers of the map, and merging, splitting and rebalancing never change it;
      the tree is balanced.  Mutation changes exactly the keys of a range, the operations on
      full ranges panic exactly if a key is missing, and slices are a faithful representation.
      What the theorems assume of the parameters of the template ([FunctionsLaws],
      [FunctionsMeaning]) is what set.go documents of them, and holds for ID mappings.
    - ID maps are written once, by those who may, and translation of IDs is a bijection
      between the mapped IDs of a namespace and the root.
    - Credentials stay well formed.  A group of tasks with no_new_privs and no capabilities
      keeps its user, does not gain groups, and has no capability in a namespace that it did
      not create, whatever it does; so capabilities in namespaces of its own open no file
      that its user and groups could not.
    - execve follows the rules of capabilities(7); access is granted exactly by the algorithm of
      acl(5) and the overriding capabilities; setting and getting of IDs, capabilities, file
      capabilities and access control lists are inverse to each other.

    ** Not modelled

    Saving and restoring, logging, statistics and timing; the installation of filters in the
    host kernel ([Program.Install], seccomp_unsafe.go), which is system calls; generated
    marshalling code, which is the class [SeccompMarshal] with the layout it documents; ptrace
    and signals beyond the effect of a filter's action on a task.  The rule optimizer changes
    compound rules of its argument in place; the model gives its result.  Printing programs as
    Go code ([Program.Expr]) and the textual forms of rules are left out.  Of segment
    sets, the tracking of gap sizes is left out, which the constant [trackGaps] turns off (the
    memory manager turns it on in its instances), as are [MoveFrom], which hands the nodes of
    one set over to another (a set has a heap of its own here), and the printing of trees.  The marshalling of file capabilities is the
    class [CapMarshal].  Of prctl(2), clone(2), unshare(2), setns(2) and execve(2), only what changes
    identities is modelled; reference counts, locks and keys are left out.  The other parts of
    the repository (memory, file systems, networking, runsc) are outside this development. *)

From stdpp Require Import base numbers strings pretty gmap sorting list.

(** ** Notations and scopes *)

Declare Scope bits_scope.
Delimit Scope bits_scope with bits.

(** Go's [|] and [&] on unsigned integers. *)
Notation "a .| b" := (Z.lor a b) (at level 50, left associativity) : bits_scope.
Notation "a .& b" := (Z.land a b) (at level 40, left associativity) : bits_scope.

(** ** Machine-width integers

    A Go [uintN] is a [Z] in [0, 2^N); arithmetic wraps explicitly. *)

Definition wrap8 (z : Z) : Z := z mod 2 ^ 8.

Definition wrap16 (z : Z) : Z := z mod 2 ^ 16.

Definition wrap32 (z : Z) : Z := z mod 2 ^ 32.

Definition wrap64 (z : Z) : Z := z mod 2 ^ 64.

Definition in_u8 (z : Z) : Prop := (0 <= z < 2 ^ 8)%Z.

Definition in_u16 (z : Z) : Prop := (0 <= z < 2 ^ 16)%Z.

Definition in_u32 (z : Z) : Prop := (0 <= z < 2 ^ 32)%Z.

Definition in_u64 (z : Z) : Prop := (0 <= z < 2 ^ 64)%Z.

(** A Go shift on [uint32] by an unsigned amount: amounts of 32 and more give 0. *)
Definition shl32 (a s : Z) : Z := if (s <? 32)%Z then wrap32 (Z.shiftl a s) else 0%Z.

Definition shr32 (a s : Z) : Z := if (s <? 32)%Z then Z.shiftr a s else 0%Z.

(** ** Bounded loops

    [range_loop body n pc s] is a Go [for pc := ...; pc < ...; pc++] over [n] indexes
    starting at [pc], threading the state [s]; [None] is a run-time panic of the body. *)
Fixpoint range_loop {St} (body : nat → St → option St) (n pc : nat) (s : St) : option St :=
  match n with
  | O => Some s
  | S n' => s' ← body pc s; range_loop body n' (S pc) s'
  end.

(** ** Sorting

    [sort.Ints] and [sort.Slice] with a comparison that is a total order: insertion sort
    gives the same (unique) sorted permutation. *)
Fixpoint sort_insert {T} (le : T → T → bool) (x : T) (l : list T) : list T :=
  match l with
  | [] => [x]
  | y :: l' => if le x y then x :: y :: l' else y :: sort_insert le x l'
  end.

Fixpoint sort_slice {T} (le : T → T → bool) (l : list T) : list T :=
  match l with
  | [] => []
  | x :: l' => sort_insert le x (sort_slice le l')
  end.

(** ** Bytes *)

(** The [n] low bytes of [v], least significant first. *)
Fixpoint le_bytes (n : nat) (v : Z) : list Z :=
  match n with
  | O => []
  | S n' => wrap8 v :: le_bytes n' (Z.shiftr v 8)
  end.

(** The number with the bytes [l], least significant first. *)
Fixpoint le_value (l : list Z) : Z :=
  match l with
  | [] => 0
  | b :: l' => b + 2 ^ 8 * le_value l'
  end.

(** ** Results

    A Go function that returns a value and an error, and that may panic. *)
Inductive result (E A : Type) : Type :=
  | Ok (a : A)
  | Err (err : E)
  | Panic.
Arguments Ok {E A}.
Arguments Err {E A}.
Arguments Panic {E A}.

#[export] Instance result_ret E : MRet (result E) := λ A a, Ok a.

#[export] Instance result_bind E : MBind (result E) := λ A B f r,
  match r with Ok a => f a | Err err => Err err | Panic => Panic end.

(** The errors that system calls return. *)
Inductive Errno : Type :=
  | EPERM | ESRCH | ENOMEM | EACCES | EFAULT | EINVAL | EFBIG | ENODATA | EOVERFLOW | EUSERS | EOPNOTSUPP.

#[export] Instance Errno_eq_dec : EqDecision Errno.
Proof. solve_decision. Defined.

(** A computation that may only panic. *)
Definition or_panic {E A} (o : option A) : result E A :=
  match o with Some a => Ok a | None => Panic end.

(** ** Tactics *)

Create HintDb bpf.

(** Case analysis on the first boolean test of the goal. *)
Ltac case_if :=
  match goal with
  | |- context [if ?b then _ else _] => destruct b eqn:?
  end.

(** Case analysis on the first boolean test of a hypothesis. *)
Ltac case_if_in H :=
  match type of H with
  | context [if ?b then _ else _] => destruct b eqn:?
  end.

(** Turn boolean comparisons on [Z] and [nat] into propositions. *)
Ltac to_prop :=
  repeat match goal with
  | H : (_ && _) = true |- _ => apply andb_prop in H; destruct H
  | H : (_ || _) = false |- _ => apply orb_false_elim in H; destruct H
  | H : negb _ = true |- _ => apply negb_true_iff in H
  | H : negb _ = false |- _ => apply negb_false_iff in H
  | H : (_ =? _)%Z = true |- _ => apply Z.eqb_eq in H
  | H : (_ =? _)%Z = false |- _ => apply Z.eqb_neq in H
  | H : (_ <? _)%Z = true |- _ => apply Z.ltb_lt in H
  | H : (_ <? _)%Z = false |- _ => apply Z.ltb_ge in H
  | H : (_ <=? _)%Z = true |- _ => apply Z.leb_le in H
  | H : (_ <=? _)%Z = false |- _ => apply Z.leb_gt in H
  | H : (_ >? _)%Z = _ |- _ => rewrite Z.gtb_ltb in H
  | H : (_ >=? _)%Z = _ |- _ => rewrite Z.geb_leb in H
  | H : (_ =? _)%nat = true |- _ => apply Nat.eqb_eq in H
  | H : (_ =? _)%nat = false |- _ => apply Nat.eqb_neq in H
  | H : (_ <? _)%nat = true |- _ => apply Nat.ltb_lt in H
  | H : (_ <? _)%nat = false |- _ => apply Nat.ltb_ge in H
  | H : (_ <=? _)%nat = true |- _ => apply Nat.leb_le in H
  | H : (_ <=? _)%nat = false |- _ => apply Nat.leb_gt in H
  end.

(** ** Lemmas on loops *)

Section RangeLoop.
Context {St : Type} (body : nat → St → option St).

(** The loop rule: an invariant the body keeps without panicking holds at the end, and the
    loop does not panic. *)
Lemma range_loop_inv (I : nat → St → Prop) n pc s :
  I pc s →
  (∀ k s, pc ≤ k < pc + n → I k s → ∃ s', body k s = Some s' ∧ I (S k) s') →
  ∃ s', range_loop body n pc s = Some s' ∧ I (pc + n) s'.
Proof.
  revert pc s. induction n as [|n IH]; intros pc s HI Hbody; simpl.
  - exists s. split; [done|]. by rewrite Nat.add_0_r.
  - destruct (Hbody pc s) as (s' & Hs' & HI'); [lia|done|].
    rewrite Hs'. simpl.
    replace (pc + S n) with (S pc + n) by lia.
    apply IH; [done|]. intros k s0 Hk. apply Hbody. lia.
Qed.

(** The partial-correctness form, for a loop known to have returned. *)
Lemma range_loop_post (I : nat → St → Prop) n pc s s' :
  range_loop body n pc s = Some s' →
  I pc s →
  (∀ k s s1, pc ≤ k < pc + n → I k s → body k s = Some s1 → I (S k) s1) →
  I (pc + n) s'.
Proof.
  revert pc s. induction n as [|n IH]; intros pc s Hl HI Hbody; simpl in Hl.
  - injection Hl as <-. by rewrite Nat.add_0_r.
  - destruct (body pc s) as [s1|] eqn:Hs1; simplify_eq/=.
    replace (pc + S n) with (S pc + n) by lia.
    apply (IH (S pc) s1); [done| |].
    + apply (Hbody pc s); [lia|done|done].
    + intros k s2 s3 Hk. apply Hbody. lia.
Qed.

End RangeLoop.

(** ** Lemmas on sorting *)

Section Sorting.
Context {T : Type} (le : T → T → bool).

Lemma sort_insert_perm x l : sort_insert le x l ≡ₚ x :: l.
Proof.
  induction l as [|y l IH]; simpl; [done|].
  case_if; [done|]. rewrite IH. constructor.
Qed.

Lemma sort_slice_perm l : sort_slice le l ≡ₚ l.
Proof.
  induction l as [|x l IH]; simpl; [done|].
  by rewrite sort_insert_perm, IH.
Qed.

Hypothesis le_total : ∀ x y, le x y = false → le y x = true.
Hypothesis le_trans : ∀ x y z, le x y = true → le y z = true → le x z = true.

Lemma sort_insert_sorted x l :
  StronglySorted (λ a b, le a b = true) l →
  StronglySorted (λ a b, le a b = true) (sort_insert le x l).
Proof.
  induction 1 as [|y l Hs IH Hf]; simpl.
  - repeat constructor.
  - case_if; constructor; try done.
    + by constructor.
    + constructor; [done|]. eapply List.Forall_impl; [|exact Hf]. simpl. eauto.
    + rewrite sort_insert_perm. constructor; [by apply le_total|done].
Qed.

Lemma sort_slice_sorted l : StronglySorted (λ a b, le a b = true) (sort_slice le l).
Proof. induction l; simpl; [constructor|by apply sort_insert_sorted]. Qed.

End Sorting.

(** ** Lemmas on machine integers *)

(** A computation that succeeds does so step by step. *)
Lemma bind_Ok {E A B} (r : result E A) (f : A → result E B) b :
  r ≫= f = Ok b → ∃ a, r = Ok a ∧ f a = Ok b.
Proof. destruct r; [by eauto|done|done]. Qed.

Lemma wrap32_range z : in_u32 (wrap32 z).
Proof. apply Z.mod_pos_bound. lia. Qed.

Lemma wrap32_small z : in_u32 z → wrap32 z = z.
Proof. apply Z.mod_small. Qed.

Lemma wrap8_small z : in_u8 z → wrap8 z = z.
Proof. apply Z.mod_small. Qed.

#[export] Hint Resolve wrap32_range : bpf.

Lemma u32_ones z : in_u32 z ↔ Z.land z (Z.ones 32) = z.
Proof.
  rewrite Z.land_ones by lia. unfold in_u32. split; intros H.
  - by apply Z.mod_small.
  - rewrite <- H. apply Z.mod_pos_bound. lia.
Qed.

Lemma u32_lor a b : in_u32 a → in_u32 b → in_u32 (Z.lor a b).
Proof. rewrite !u32_ones. intros Ha Hb. by rewrite Z.land_lor_distr_l, Ha, Hb. Qed.

Lemma land_le_r a b : (0 <= b → Z.land a b <= b)%Z.
Proof.
  intros Hb. assert (Z.ldiff (Z.land a b) b = 0)%Z as H.
  { apply Z.bits_inj'. intros n Hn. rewrite Z.ldiff_spec, Z.land_spec, Z.bits_0.
    by destruct (Z.testbit a n), (Z.testbit b n). }
  apply Z.sub_nocarry_ldiff in H. pose proof (proj2 (Z.ldiff_nonneg b (Z.land a b))). lia.
Qed.

Lemma u32_land a b : in_u32 a → in_u32 (Z.land a b).
Proof.
  rewrite !u32_ones. intros Ha.
  by rewrite <- Z.land_assoc, (Z.land_comm b), Z.land_assoc, Ha.
Qed.

Lemma u32_lxor a b : in_u32 a → in_u32 b → in_u32 (Z.lxor a b).
Proof.
  rewrite !u32_ones. intros Ha Hb. apply Z.bits_inj. intros n.
  rewrite Z.land_spec, !Z.lxor_spec, <- Ha, <- Hb, !Z.land_spec.
  by destruct (Z.testbit a n), (Z.testbit b n), (Z.testbit (Z.ones 32) n).
Qed.

Lemma u32_shl a s : in_u32 (shl32 a s).
Proof. unfold shl32. case_if; [apply wrap32_range|]. unfold in_u32. lia. Qed.

Lemma u32_shr a s : in_u32 a → (0 <= s)%Z → in_u32 (shr32 a s).
Proof.
  unfold shr32, in_u32. intros Ha Hs. case_if; [|lia].
  rewrite Z.shiftr_div_pow2 by done. split; [apply Z.div_pos; lia|].
  apply Z.div_lt_upper_bound; [lia|]. nia.
Qed.

Lemma u32_div a b : in_u32 a → (0 <= b)%Z → in_u32 (a / b).
Proof.
  unfold in_u32. intros Ha Hb. destruct (decide (b = 0)%Z) as [->|].
  - rewrite Z.div_0_r. lia.
  - split; [apply Z.div_pos; lia|]. apply Z.div_lt_upper_bound; nia.
Qed.

Lemma u32_mod a b : in_u32 a → (0 <= b)%Z → in_u32 (a mod b).
Proof.
  unfold in_u32. intros Ha Hb. destruct (decide (b = 0)%Z) as [->|].
  - by rewrite Z.mod_0_r.
  - pose proof (Z.mod_pos_bound a b). pose proof (Z.mod_le a b). lia.
Qed.

#[export] Hint Resolve u32_lor u32_land u32_lxor u32_shl u32_shr u32_div u32_mod : bpf.

(** ** Lemmas on lists and sets *)

(** A set covered by the image of another is not larger. *)
Lemma size_le_image (f : nat → nat) (X Y : gset nat) :
  (∀ y, y ∈ Y → ∃ x, x ∈ X ∧ f x = y) → size Y ≤ size X.
Proof.
  intros H. unfold size, set_size. simpl.
  rewrite <- (length_fmap f (elements X)). apply submseteq_length, NoDup_submseteq.
  - apply NoDup_elements.
  - intros y Hy. apply elem_of_elements in Hy. destruct (H y Hy) as (x & Hx & <-).
    apply list_elem_of_fmap. exists x. split; [done|]. by apply elem_of_elements.
Qed.

Lemma sort_slice_id {T} (le : T → T → bool) l :
  StronglySorted (λ a b, le a b = true) l → sort_slice le l = l.
Proof.
  induction 1 as [|x l Hs IH Hf]; simpl; [done|]. rewrite IH.
  destruct Hf as [|y l Hy Hf]; simpl; [done|]. by rewrite Hy.
Qed.

Lemma le_bytes_length n v : length (le_bytes n v) = n.
Proof. revert v. induction n as [|n IH]; intros v; simpl; [done|]. by rewrite IH. Qed.

Lemma le_bytes_range n v : Forall in_u8 (le_bytes n v).
Proof.
  revert v. induction n as [|n IH]; intros v; simpl; [by constructor|]. constructor; [|apply IH].
  unfold in_u8, wrap8. apply Z.mod_pos_bound. lia.
Qed.

Lemma le_value_bytes n v : le_value (le_bytes n v) = (v mod 2 ^ (8 * Z.of_nat n))%Z.
Proof.
  revert v. induction n as [|n IH]; intros v; [by rewrite Z.mod_1_r|]. cbn [le_bytes le_value].
  rewrite IH, Z.shiftr_div_pow2 by lia. unfold wrap8.
  replace (8 * Z.of_nat (S n))%Z with (8 + 8 * Z.of_nat n)%Z by lia. rewrite Z.pow_add_r by lia.
  rewrite Z.rem_mul_r by (try apply Z.pow_nonzero; lia). lia.
Qed.

Lemma le_bytes_value l : Forall in_u8 l → le_bytes (length l) (le_value l) = l.
Proof.
  induction 1 as [|b l Hb _ IH]; [done|]. cbn [length le_bytes le_value]. unfold in_u8 in Hb.
  rewrite Z.mul_comm, Z.shiftr_div_pow2, Z.div_add, Z.div_small, Z.add_0_l, IH by lia.
  unfold wrap8. by rewrite Z.mod_add, Z.mod_small by lia.
Qed.

(** Collecting the indexes that satisfy a test, in order. *)
Lemma range_loop_collect (body : nat → list nat → option (list nat)) (b : nat → bool) n pc acc :
  (∀ k l, pc ≤ k < pc + n → body k l = Some (if b k then l ++ [k] else l)) →
  range_loop body n pc acc = Some (acc ++ filter (λ k, b k = true) (seq pc n)).
Proof.
  revert pc acc. induction n as [|n IH]; intros pc acc Hb; simpl.
  - by rewrite app_nil_r.
  - rewrite Hb by lia. simpl. rewrite IH by (intros; apply Hb; lia).
    rewrite filter_cons. destruct (b pc) eqn:E; case_decide; try done.
    by rewrite <- app_assoc.
Qed.

Lemma filter_seq_sorted (P : nat → Prop) `{∀ k, Decision (P k)} pc n :
  StronglySorted lt (filter P (seq pc n)).
Proof.
  revert pc. induction n as [|n IH]; intros pc; simpl; [constructor|].
  rewrite filter_cons. case_decide; [|apply IH]. constructor; [apply IH|].
  apply Forall_forall. intros k Hk. apply list_elem_of_filter in Hk as [_ Hk].
  apply elem_of_seq in Hk. lia.
Qed.

Lemma StronglySorted_reverse {T} (R : T → T → Prop) l :
  StronglySorted R l → StronglySorted (flip R) (reverse l).
Proof.
  induction 1 as [|x l Hs IH Hf]; [constructor|]. rewrite reverse_cons.
  apply StronglySorted_app_2; [|done|repeat constructor].
  intros a b Ha Hb. apply list_elem_of_singleton in Hb as ->. rewrite reverse_Permutation in Ha.
  exact (proj1 (Forall_forall _ _) Hf _ Ha).
Qed.

(** ** Counting *)

Lemma length_filter_ext {A} (P Q : A → Prop) `{∀ x, Decision (P x), ∀ x, Decision (Q x)} (l : list A) :
  (∀ x, P x ↔ Q x) → length (filter P l) = length (filter Q l).
Proof. intros HPQ. f_equal. by apply list_filter_iff. Qed.

Lemma length_filter_or {A} (P Q : A → Prop) `{∀ x, Decision (P x), ∀ x, Decision (Q x)} (l : list A) :
  (∀ x, P x → Q x → False) →
  length (filter (λ x, P x ∨ Q x) l) = (length (filter P l) + length (filter Q l))%nat.
Proof.
  intros Hd. induction l as [|x l IH]; [done|]. rewrite !filter_cons.
  repeat case_decide; simpl; rewrite ?IH; naive_solver lia.
Qed.

Lemma count_range (lo hi a : Z) (n : nat) :
  (Z.of_nat (length (filter (λ key, lo <= key < hi) (seqZ a (Z.of_nat n)))) =
   Z.max 0 (Z.min hi (a + Z.of_nat n) - Z.max lo a))%Z.
Proof.
  revert a. induction n as [|n IH]; intros a; [simpl; lia|].
  rewrite seqZ_cons by lia. rewrite filter_cons. replace (Z.pred (Z.of_nat (S n))) with (Z.of_nat n) by lia.
  specialize (IH (Z.succ a)). case_decide; simpl length; rewrite ?Nat2Z.inj_succ, IH; lia.
Qed.
