(* ===== verification/Instr.v ===== *)
(** * BPF instructions (src/pkg/bpf/bpf.go)

    The opcode constants, the instruction record, its constructors and the predicates the
    interpreter, the optimizer and the program builder use.  An instruction's fields are [Z]
    with their Go widths stated by [ins_range]. *)

From stdpp Require Import base numbers decidable list.
From S2P Require Import Prelude.

Local Open Scope Z_scope.
Local Open Scope bits_scope.

Definition MaxInstructions : nat := Z.to_nat 4096.

Definition ScratchMemRegisters : Z := 16.

(** The parts of an opcode.  The names are the Go constants'. *)
Module Op.

Abbreviation Ld := (0x00)%Z (only parsing).
Abbreviation Ldx := (0x01)%Z (only parsing).
Abbreviation St := (0x02)%Z (only parsing).
Abbreviation Stx := (0x03)%Z (only parsing).
Abbreviation Alu := (0x04)%Z (only parsing).
Abbreviation Jmp := (0x05)%Z (only parsing).
Abbreviation Ret := (0x06)%Z (only parsing).
Abbreviation Misc := (0x07)%Z (only parsing).
Abbreviation instructionClassMask := (0x07)%Z (only parsing).

Abbreviation W := (0x00)%Z (only parsing).
Abbreviation H := (0x08)%Z (only parsing).
Abbreviation B := (0x10)%Z (only parsing).
Abbreviation loadSizeMask := (0x18)%Z (only parsing).

Abbreviation Imm := (0x00)%Z (only parsing).
Abbreviation Abs := (0x20)%Z (only parsing).
Abbreviation Ind := (0x40)%Z (only parsing).
Abbreviation Mem := (0x60)%Z (only parsing).
Abbreviation Len := (0x80)%Z (only parsing).
Abbreviation Msh := (0xa0)%Z (only parsing).
Abbreviation loadModeMask := (0xe0)%Z (only parsing).

Abbreviation K := (0x00)%Z (only parsing).
Abbreviation X := (0x08)%Z (only parsing).
Abbreviation A := (0x10)%Z (only parsing).
Abbreviation operandMask := (K .| X .| A)%Z (only parsing).
Abbreviation srcAluJmpMask := (0x08)%Z (only parsing).
Abbreviation srcRetMask := (0x18)%Z (only parsing).

Abbreviation Add := (0x00)%Z (only parsing).
Abbreviation Sub := (0x10)%Z (only parsing).
Abbreviation Mul := (0x20)%Z (only parsing).
Abbreviation Div := (0x30)%Z (only parsing).
Abbreviation Or := (0x40)%Z (only parsing).
Abbreviation And := (0x50)%Z (only parsing).
Abbreviation Lsh := (0x60)%Z (only parsing).
Abbreviation Rsh := (0x70)%Z (only parsing).
Abbreviation Neg := (0x80)%Z (only parsing).
Abbreviation Mod := (0x90)%Z (only parsing).
Abbreviation Xor := (0xa0)%Z (only parsing).
Abbreviation aluMask := (0xf0)%Z (only parsing).

Abbreviation Ja := (0x00)%Z (only parsing).
Abbreviation Jeq := (0x10)%Z (only parsing).
Abbreviation Jgt := (0x20)%Z (only parsing).
Abbreviation Jge := (0x30)%Z (only parsing).
Abbreviation Jset := (0x40)%Z (only parsing).
Abbreviation jmpMask := (0xf0)%Z (only parsing).

Abbreviation Tax := (0x00)%Z (only parsing).
Abbreviation Txa := (0x80)%Z (only parsing).
Abbreviation miscMask := (0xf8)%Z (only parsing).

Abbreviation unusedBitsMask := (0xff00)%Z (only parsing).
Abbreviation storeUnusedBitsMask := (0xf8)%Z (only parsing).
Abbreviation retUnusedBitsMask := (0xe0)%Z (only parsing).

End Op.

(** [linux.BPFInstruction]: the fields are a [uint16], two [uint8] and a [uint32]. *)
Record Instruction : Type := mkIns {
  OpCode : Z;
  JumpIfTrue : Z;
  JumpIfFalse : Z;
  KVal : Z
}.

#[export] Instance Instruction_eq_dec : EqDecision Instruction.
Proof. solve_decision. Defined.

(** The widths of the fields. *)
Definition ins_range (i : Instruction) : Prop :=
  in_u16 (OpCode i) ∧ in_u8 (JumpIfTrue i) ∧ in_u8 (JumpIfFalse i) ∧ in_u32 (KVal i).

Definition set_JumpIfTrue (i : Instruction) (jt : Z) : Instruction :=
  mkIns (OpCode i) jt (JumpIfFalse i) (KVal i).

Definition set_JumpIfFalse (i : Instruction) (jf : Z) : Instruction :=
  mkIns (OpCode i) (JumpIfTrue i) jf (KVal i).

Definition set_K (i : Instruction) (k : Z) : Instruction :=
  mkIns (OpCode i) (JumpIfTrue i) (JumpIfFalse i) k.

Definition RawInstruction (opCode jumpIfTrue jumpIfFalse k : Z) : Instruction :=
  mkIns opCode jumpIfTrue jumpIfFalse k.

Definition Stmt (code k : Z) : Instruction := mkIns code 0 0 k.

Definition Jump (code k jt jf : Z) : Instruction := mkIns code jt jf k.

Definition class (i : Instruction) : Z := OpCode i .& Op.instructionClassMask.

Definition IsReturn (i : Instruction) : bool := class i =? Op.Ret.

Definition IsJump (i : Instruction) : bool := class i =? Op.Jmp.

Definition IsConditionalJump (i : Instruction) : bool :=
  IsJump i && negb (OpCode i .& Op.jmpMask =? Op.Ja).

Definition IsUnconditionalJump (i : Instruction) : bool :=
  IsJump i && (OpCode i .& Op.jmpMask =? Op.Ja).

(** [Equal]: whether two instructions are equivalent (not necessarily bit-for-bit). *)
Definition Equal (ins other : Instruction) : bool :=
  if negb (OpCode ins =? OpCode other) then false
  else
    let op := OpCode ins in
    let same_k := KVal ins =? KVal other in
    let same := bool_decide (ins = other) in
    if (class ins =? Op.Ld) || (class ins =? Op.Ldx) then
      if op .& Op.loadModeMask =? Op.Len then true else same_k
    else if (class ins =? Op.St) || (class ins =? Op.Stx) then same_k
    else if class ins =? Op.Alu then
      if op =? Op.Alu .| Op.Neg then true
      else if op .& Op.operandMask =? Op.X then true
      else if op .& Op.operandMask =? Op.K then same_k
      else same
    else if class ins =? Op.Ret then
      if op =? Op.Ret .| Op.A then true
      else if op =? Op.Ret .| Op.K then same_k
      else same
    else if class ins =? Op.Jmp then
      if IsUnconditionalJump ins then same_k
      else if op .& Op.operandMask =? Op.X then
        (JumpIfTrue ins =? JumpIfTrue other) && (JumpIfFalse ins =? JumpIfFalse other)
      else same
    else if class ins =? Op.Misc then
      if (op =? Op.Misc .| Op.Tax) || (op =? Op.Misc .| Op.Txa) then true else same
    else same.

(** The kinds of jump target ([JumpType] of program_builder.go). *)
Inductive JumpType : Type := JumpDirect | JumpTrue | JumpFalse.

#[export] Instance JumpType_eq_dec : EqDecision JumpType.
Proof. solve_decision. Defined.

Record JumpOffset : Type := mkJumpOffset { Type_ : JumpType; Offset : Z }.

Definition JumpOffsets (i : Instruction) : list JumpOffset :=
  if negb (IsJump i) then []
  else if IsConditionalJump i then
    [mkJumpOffset JumpTrue (JumpIfTrue i); mkJumpOffset JumpFalse (JumpIfFalse i)]
  else [mkJumpOffset JumpDirect (KVal i)].

Definition ModifiesRegisterA (i : Instruction) : bool :=
  if class i =? Op.Ld then true
  else if class i =? Op.Alu then true
  else if class i =? Op.Misc then OpCode i =? Op.Misc .| Op.Tax
  else false.

(** ** Reflection on opcodes

    An opcode of a validated instruction is below 256, so a decidable statement about opcodes
    is checked by evaluating it on all of them. *)

Definition all_opcodes : list Z := seqZ 0 256.

Lemma opcode_enum (P : Z → bool) op :
  0 <= op < 256 → forallb P all_opcodes = true → P op = true.
Proof.
  intros Hop Hall. rewrite forallb_forall in Hall. apply Hall.
  apply list_elem_of_In, elem_of_seqZ. lia.
Qed.

Lemma opcode_below_256 op : in_u16 op → op .& Op.unusedBitsMask = 0 → 0 <= op < 256.
Proof.
  intros [H0 H1] Hz. split; [done|].
  destruct (decide (op < 256)) as [|Hge]; [done|exfalso].
  assert (Hl : 8 <= Z.log2 op) by (apply Z.log2_le_pow2; lia).
  assert (Hu : Z.log2 op < 16) by (apply Z.log2_lt_pow2; lia).
  assert (Hb : Z.testbit (op .& Op.unusedBitsMask) (Z.log2 op) = true).
  { rewrite Z.land_spec, Z.bit_log2 by lia. simpl.
    assert (Hm : forallb (Z.testbit Op.unusedBitsMask) (seqZ 8 8) = true) by reflexivity.
    rewrite forallb_forall in Hm. apply Hm, list_elem_of_In, elem_of_seqZ. lia. }
  by rewrite Hz, Z.bits_0 in Hb.
Qed.

Lemma set_JumpIfTrue_op i jt : OpCode (set_JumpIfTrue i jt) = OpCode i.
Proof. done. Qed.

Lemma cond_jump_is_jump i : IsConditionalJump i = true → IsJump i = true.
Proof. unfold IsConditionalJump. intros H. by apply andb_prop in H as [? _]. Qed.

Lemma uncond_jump_is_jump i : IsUnconditionalJump i = true → IsJump i = true.
Proof. unfold IsUnconditionalJump. intros H. by apply andb_prop in H as [? _]. Qed.

Lemma jump_cases i :
  IsJump i = true → IsConditionalJump i = negb (IsUnconditionalJump i).
Proof. unfold IsConditionalJump, IsUnconditionalJump. intros ->. done. Qed.

Lemma return_not_jump i : IsReturn i = true → IsJump i = false.
Proof. unfold IsReturn, IsJump. intros H. to_prop. by rewrite H. Qed.

#[export] Hint Resolve cond_jump_is_jump uncond_jump_is_jump return_not_jump : bpf.
