(* ===== verification/Machine.v ===== *)
(** * The BPF virtual machine (src/pkg/bpf/interpreter.go, input_bytes.go)

    Input loads, the machine state, [Exec] and the validation loop of [Compile].  The
    [switch] of [Exec] is [exec_ins], whose result [effect] says how the loop goes on:
    fall through with a new machine state, add an offset to the program counter, return a
    value, return an error, or panic (a slice index out of range, a division by zero).

    The loop of [Exec] is [exec_loop] on a fuel that bounds the number of instructions
    executed; [Exec] gives it one more than the program's length, which always suffices
    because a BPF program counter only grows (see MachineFacts.v). *)

From stdpp Require Import base numbers decidable list.
From S2P Require Import Prelude Instr.

Local Open Scope Z_scope.
Local Open Scope bits_scope.

(** ** Errors *)

Inductive ErrCode : Type :=
  | DivisionByZero
  | InvalidEndOfProgram
  | InvalidInstructionCount
  | InvalidJumpTarget
  | InvalidLoad
  | InvalidOpcode
  | InvalidRegister.

#[export] Instance ErrCode_eq_dec : EqDecision ErrCode.
Proof. solve_decision. Defined.

Record Error : Type := mkError { Code : ErrCode; PC : nat }.

(** ** Input *)

(** The bytes of the input, each in [0, 256). *)
Abbreviation Input := (list Z) (only parsing).

Inductive Endianness : Type := BigEndian | LittleEndian | NativeEndian.

Definition byte_at (inp : Input) (off : nat) : Z := default 0 (inp !! off).

(** [binary.BigEndian.Uint32] and its siblings on the bytes at [off].  The byte order
    [binary.NativeEndian] of the supported architectures (amd64, arm64) is little endian. *)
Definition uint32_at (e : Endianness) (inp : Input) (off : nat) : Z :=
  let b := fun k => byte_at inp (off + k)%nat in
  match e with
  | BigEndian => b 3%nat + 2 ^ 8 * b 2%nat + 2 ^ 16 * b 1%nat + 2 ^ 24 * b 0%nat
  | LittleEndian | NativeEndian =>
      b 0%nat + 2 ^ 8 * b 1%nat + 2 ^ 16 * b 2%nat + 2 ^ 24 * b 3%nat
  end.

Definition uint16_at (e : Endianness) (inp : Input) (off : nat) : Z :=
  let b := fun k => byte_at inp (off + k)%nat in
  match e with
  | BigEndian => b 1%nat + 2 ^ 8 * b 0%nat
  | LittleEndian | NativeEndian => b 0%nat + 2 ^ 8 * b 1%nat
  end.

Definition load32 (e : Endianness) (inp : Input) (off : Z) : option Z :=
  if off + 4 >? Z.of_nat (length inp) then None else Some (uint32_at e inp (Z.to_nat off)).

Definition load16 (e : Endianness) (inp : Input) (off : Z) : option Z :=
  if off + 2 >? Z.of_nat (length inp) then None else Some (uint16_at e inp (Z.to_nat off)).

Definition load8 (inp : Input) (off : Z) : option Z :=
  if off + 1 >? Z.of_nat (length inp) then None else Some (byte_at inp (Z.to_nat off)).

(** ** The machine *)

Record machine : Type := mkMachine { mA : Z; mX : Z; mM : list Z }.

Definition machine0 : machine := mkMachine 0 0 (replicate (Z.to_nat ScratchMemRegisters) 0).

Definition set_A (m : machine) (a : Z) : machine := mkMachine a (mX m) (mM m).

Definition set_X (m : machine) (x : Z) : machine := mkMachine (mA m) x (mM m).

Definition set_M (m : machine) (k : nat) (v : Z) : machine :=
  mkMachine (mA m) (mX m) (<[k := v]> (mM m)).

(** What executing one instruction does. *)
Inductive effect : Type :=
  | Cont (m : machine)      (* falls through to the next instruction *)
  | JumpBy (off : nat)      (* pc += off, then pc++; the machine is unchanged *)
  | Return (v : Z)
  | Fault (c : ErrCode)
  | Crash.                  (* a Go run-time panic *)

Definition conditionalJumpOffset (i : Instruction) (cond : bool) : effect :=
  if cond then JumpBy (Z.to_nat (JumpIfTrue i)) else JumpBy (Z.to_nat (JumpIfFalse i)).

(** A load result goes to a register, or is an [InvalidLoad] error. *)
Definition load_to (set : Z → machine) (r : option Z) : effect :=
  match r with
  | Some v => Cont (set v)
  | None => Fault InvalidLoad
  end.

(** [m.M[int(i.K)]], which panics out of range. *)
Definition mem_to (set : Z → machine) (m : machine) (k : Z) : effect :=
  match mM m !! Z.to_nat k with
  | Some v => Cont (set v)
  | None => Crash
  end.

Definition mem_store (m : machine) (k v : Z) : effect :=
  if (Z.to_nat k <? length (mM m))%nat then Cont (set_M m (Z.to_nat k) v) else Crash.

(** The [switch i.OpCode] of [Exec]. *)
Definition exec_ins (e : Endianness) (inp : Input) (i : Instruction) (m : machine) : effect :=
  let op := OpCode i in
  let k := KVal i in
  if op =? Op.Ld .| Op.Imm .| Op.W then Cont (set_A m k)
  else if op =? Op.Ld .| Op.Abs .| Op.W then load_to (set_A m) (load32 e inp k)
  else if op =? Op.Ld .| Op.Abs .| Op.H then load_to (set_A m) (load16 e inp k)
  else if op =? Op.Ld .| Op.Abs .| Op.B then load_to (set_A m) (load8 inp k)
  else if op =? Op.Ld .| Op.Ind .| Op.W then
    load_to (set_A m) (load32 e inp (wrap32 (mX m + k)))
  else if op =? Op.Ld .| Op.Ind .| Op.H then
    load_to (set_A m) (load16 e inp (wrap32 (mX m + k)))
  else if op =? Op.Ld .| Op.Ind .| Op.B then load_to (set_A m) (load8 inp (wrap32 (mX m + k)))
  else if op =? Op.Ld .| Op.Mem .| Op.W then mem_to (set_A m) m k
  else if op =? Op.Ld .| Op.Len .| Op.W then Cont (set_A m (wrap32 (Z.of_nat (length inp))))
  else if op =? Op.Ldx .| Op.Imm .| Op.W then Cont (set_X m k)
  else if op =? Op.Ldx .| Op.Mem .| Op.W then mem_to (set_X m) m k
  else if op =? Op.Ldx .| Op.Len .| Op.W then Cont (set_X m (wrap32 (Z.of_nat (length inp))))
  else if op =? Op.Ldx .| Op.Msh .| Op.B then
    load_to (λ v, set_X m (wrap32 (4 * (v .& 0xf)))) (load8 inp k)
  else if op =? Op.St then mem_store m k (mA m)
  else if op =? Op.Stx then mem_store m k (mX m)
  else if op =? Op.Alu .| Op.Add .| Op.K then Cont (set_A m (wrap32 (mA m + k)))
  else if op =? Op.Alu .| Op.Add .| Op.X then Cont (set_A m (wrap32 (mA m + mX m)))
  else if op =? Op.Alu .| Op.Sub .| Op.K then Cont (set_A m (wrap32 (mA m - k)))
  else if op =? Op.Alu .| Op.Sub .| Op.X then Cont (set_A m (wrap32 (mA m - mX m)))
  else if op =? Op.Alu .| Op.Mul .| Op.K then Cont (set_A m (wrap32 (mA m * k)))
  else if op =? Op.Alu .| Op.Mul .| Op.X then Cont (set_A m (wrap32 (mA m * mX m)))
  else if op =? Op.Alu .| Op.Div .| Op.K then
    if k =? 0 then Crash else Cont (set_A m (mA m / k))
  else if op =? Op.Alu .| Op.Div .| Op.X then
    if mX m =? 0 then Fault DivisionByZero else Cont (set_A m (mA m / mX m))
  else if op =? Op.Alu .| Op.Or .| Op.K then Cont (set_A m (mA m .| k))
  else if op =? Op.Alu .| Op.Or .| Op.X then Cont (set_A m (mA m .| mX m))
  else if op =? Op.Alu .| Op.And .| Op.K then Cont (set_A m (mA m .& k))
  else if op =? Op.Alu .| Op.And .| Op.X then Cont (set_A m (mA m .& mX m))
  else if op =? Op.Alu .| Op.Lsh .| Op.K then Cont (set_A m (shl32 (mA m) k))
  else if op =? Op.Alu .| Op.Lsh .| Op.X then Cont (set_A m (shl32 (mA m) (mX m)))
  else if op =? Op.Alu .| Op.Rsh .| Op.K then Cont (set_A m (shr32 (mA m) k))
  else if op =? Op.Alu .| Op.Rsh .| Op.X then Cont (set_A m (shr32 (mA m) (mX m)))
  else if op =? Op.Alu .| Op.Neg then Cont (set_A m (wrap32 (- mA m)))
  else if op =? Op.Alu .| Op.Mod .| Op.K then
    if k =? 0 then Crash else Cont (set_A m (mA m mod k))
  else if op =? Op.Alu .| Op.Mod .| Op.X then
    if mX m =? 0 then Fault DivisionByZero else Cont (set_A m (mA m mod mX m))
  else if op =? Op.Alu .| Op.Xor .| Op.K then Cont (set_A m (Z.lxor (mA m) k))
  else if op =? Op.Alu .| Op.Xor .| Op.X then Cont (set_A m (Z.lxor (mA m) (mX m)))
  else if op =? Op.Jmp .| Op.Ja then JumpBy (Z.to_nat k)
  else if op =? Op.Jmp .| Op.Jeq .| Op.K then conditionalJumpOffset i (mA m =? k)
  else if op =? Op.Jmp .| Op.Jeq .| Op.X then conditionalJumpOffset i (mA m =? mX m)
  else if op =? Op.Jmp .| Op.Jgt .| Op.K then conditionalJumpOffset i (mA m >? k)
  else if op =? Op.Jmp .| Op.Jgt .| Op.X then conditionalJumpOffset i (mA m >? mX m)
  else if op =? Op.Jmp .| Op.Jge .| Op.K then conditionalJumpOffset i (mA m >=? k)
  else if op =? Op.Jmp .| Op.Jge .| Op.X then conditionalJumpOffset i (mA m >=? mX m)
  else if op =? Op.Jmp .| Op.Jset .| Op.K then
    conditionalJumpOffset i (negb (mA m .& k =? 0))
  else if op =? Op.Jmp .| Op.Jset .| Op.X then
    conditionalJumpOffset i (negb (mA m .& mX m =? 0))
  else if op =? Op.Ret .| Op.K then Return k
  else if op =? Op.Ret .| Op.A then Return (mA m)
  else if op =? Op.Misc .| Op.Tax then Cont (set_A m (mX m))
  else if op =? Op.Misc .| Op.Txa then Cont (set_X m (mA m))
  else Fault InvalidOpcode.

(** ** Exec *)

(** What [Exec] returns: a value, an error, a Go panic, or no answer within the fuel. *)
Inductive exec_result : Type :=
  | Value (v : Z)
  | Err (err : Error)
  | Panicked
  | OutOfFuel.

(** The loop of [Exec], from [pc] and [m] on. *)
Fixpoint exec_loop (e : Endianness) (inp : Input) (p : list Instruction)
    (fuel : nat) (pc : nat) (m : machine) : exec_result :=
  match fuel with
  | O => OutOfFuel
  | S fuel' =>
      match p !! pc with
      | None => Err (mkError InvalidEndOfProgram pc)
      | Some i =>
          match exec_ins e inp i m with
          | Cont m' => exec_loop e inp p fuel' (S pc) m'
          | JumpBy off => exec_loop e inp p fuel' (S (pc + off)) m
          | Return v => Value v
          | Fault c => Err (mkError c pc)
          | Crash => Panicked
          end
      end
  end.

Definition Exec (e : Endianness) (p : list Instruction) (inp : Input) : exec_result :=
  exec_loop e inp p (S (length p)) 0 machine0.

(** ** Validation *)

(** The body of the validation loop of [Compile] for the instruction [i] at [pc] of a
    program of [n] instructions: [None] accepts it. *)
Definition validate_ins (n pc : nat) (i : Instruction) : option ErrCode :=
  let op := OpCode i in
  let k := KVal i in
  let mode := op .& Op.loadModeMask in
  let size := op .& Op.loadSizeMask in
  if negb (op .& Op.unusedBitsMask =? 0) then Some InvalidOpcode
  else if class i =? Op.Ld then
    if size =? Op.W then
      if negb (mode =? Op.Imm) && negb (mode =? Op.Abs) && negb (mode =? Op.Ind)
         && negb (mode =? Op.Mem) && negb (mode =? Op.Len) then Some InvalidOpcode
      else if (mode =? Op.Mem) && (k >=? ScratchMemRegisters) then Some InvalidRegister
      else None
    else if (size =? Op.H) || (size =? Op.B) then
      if negb (mode =? Op.Abs) && negb (mode =? Op.Ind) then Some InvalidOpcode else None
    else Some InvalidOpcode
  else if class i =? Op.Ldx then
    if size =? Op.W then
      if negb (mode =? Op.Imm) && negb (mode =? Op.Mem) && negb (mode =? Op.Len)
      then Some InvalidOpcode
      else if (mode =? Op.Mem) && (k >=? ScratchMemRegisters) then Some InvalidRegister
      else None
    else if size =? Op.B then
      if negb (mode =? Op.Msh) then Some InvalidOpcode else None
    else Some InvalidOpcode
  else if (class i =? Op.St) || (class i =? Op.Stx) then
    if negb (op .& Op.storeUnusedBitsMask =? 0) then Some InvalidOpcode
    else if k >=? ScratchMemRegisters then Some InvalidRegister
    else None
  else if class i =? Op.Alu then
    let alu := op .& Op.aluMask in
    if (alu =? Op.Add) || (alu =? Op.Sub) || (alu =? Op.Mul) || (alu =? Op.Or)
       || (alu =? Op.And) || (alu =? Op.Lsh) || (alu =? Op.Rsh) || (alu =? Op.Xor) then None
    else if (alu =? Op.Div) || (alu =? Op.Mod) then
      if (op .& Op.srcAluJmpMask =? Op.K) && (k =? 0) then Some DivisionByZero else None
    else if alu =? Op.Neg then
      if negb (op .& Op.srcAluJmpMask =? 0) then Some InvalidOpcode else None
    else Some InvalidOpcode
  else if class i =? Op.Jmp then
    let jmp := op .& Op.jmpMask in
    if jmp =? Op.Ja then
      if negb (op .& Op.srcAluJmpMask =? 0) then Some InvalidOpcode
      else if Z.of_nat pc + k + 1 >=? Z.of_nat n then Some InvalidJumpTarget
      else None
    else if (jmp =? Op.Jeq) || (jmp =? Op.Jgt) || (jmp =? Op.Jge) || (jmp =? Op.Jset) then
      if Z.of_nat pc + JumpIfTrue i + 1 >=? Z.of_nat n then Some InvalidJumpTarget
      else if Z.of_nat pc + JumpIfFalse i + 1 >=? Z.of_nat n then Some InvalidJumpTarget
      else None
    else Some InvalidOpcode
  else if class i =? Op.Ret then
    if negb (op .& Op.retUnusedBitsMask =? 0) then Some InvalidOpcode
    else
      let src := op .& Op.srcRetMask in
      if negb (src =? Op.K) && negb (src =? Op.A) then Some InvalidOpcode else None
  else if class i =? Op.Misc then
    let misc := op .& Op.miscMask in
    if negb (misc =? Op.Tax) && negb (misc =? Op.Txa) then Some InvalidOpcode else None
  else None.

(** The validation loop: the first rejected instruction gives the error. *)
Fixpoint validate_from (n pc : nat) (insns : list Instruction) : option Error :=
  match insns with
  | [] => None
  | i :: rest =>
      match validate_ins n pc i with
      | Some c => Some (mkError c pc)
      | None => validate_from n (S pc) rest
      end
  end.

(** Everything [Compile] checks before it optimizes. *)
Definition validate (insns : list Instruction) : option Error :=
  let n := length insns in
  if (n =? 0)%nat || (MaxInstructions <? n)%nat then Some (mkError InvalidInstructionCount n)
  else
    match insns !! (n - 1)%nat with
    | None => Some (mkError InvalidInstructionCount n)
    | Some l =>
        if negb (OpCode l =? Op.Ret .| Op.K) && negb (OpCode l =? Op.Ret .| Op.A)
        then Some (mkError InvalidEndOfProgram (n - 1)%nat)
        else validate_from n 0 insns
    end.
