(* ===== verification/MachineFacts.v ===== *)
(** * The BPF machine: termination, validation and safety

    [eval] is the run of a program from any program point with the program counter of an
    error forgotten.  It satisfies a one-step unfolding equation and is the only function
    that does ([eval_unique]); the optimizer proofs are built on that.  [wf_prog] is what
    the validation of [Compile] establishes for each instruction and each successor. *)

From stdpp Require Import base numbers decidable list.
From S2P Require Import Prelude Instr Machine.

Local Open Scope bits_scope.

(** ** Outcomes *)

(** A result without the program counter of its error. *)
Inductive outcome : Type :=
  | OValue (v : Z)
  | OErr (c : ErrCode)
  | OPanic
  | OFuel.

Definition erase (r : exec_result) : outcome :=
  match r with
  | Value v => OValue v
  | Err err => OErr (Code err)
  | Panicked => OPanic
  | OutOfFuel => OFuel
  end.

(** One step of the loop with the rest of the run given by [k]. *)
Definition step_with (e : Endianness) (inp : Input) (p : list Instruction)
    (k : nat → machine → outcome) (pc : nat) (m : machine) : outcome :=
  match p !! pc with
  | None => OErr InvalidEndOfProgram
  | Some i =>
      match exec_ins e inp i m with
      | Cont m' => k (S pc) m'
      | JumpBy off => k (S (pc + off)) m
      | Return v => OValue v
      | Fault c => OErr c
      | Crash => OPanic
      end
  end.

Definition eval (e : Endianness) (inp : Input) (p : list Instruction)
    (pc : nat) (m : machine) : outcome :=
  erase (exec_loop e inp p (S (length p - pc)) pc m).

(** ** Control flow *)

(** The program points an instruction at [pc] may pass control to. *)
Definition succs (pc : nat) (i : Instruction) : list nat :=
  if IsReturn i then []
  else if IsJump i then
    if IsUnconditionalJump i then [S (pc + Z.to_nat (KVal i))]
    else [S (pc + Z.to_nat (JumpIfTrue i)); S (pc + Z.to_nat (JumpIfFalse i))]
  else [S pc].

(** ** Well-formed instructions and programs *)

(** The opcodes [Exec] implements. *)
Definition known_opcodes : list Z :=
  [ Op.Ld .| Op.Imm .| Op.W; Op.Ld .| Op.Abs .| Op.W; Op.Ld .| Op.Abs .| Op.H;
    Op.Ld .| Op.Abs .| Op.B; Op.Ld .| Op.Ind .| Op.W; Op.Ld .| Op.Ind .| Op.H;
    Op.Ld .| Op.Ind .| Op.B; Op.Ld .| Op.Mem .| Op.W; Op.Ld .| Op.Len .| Op.W;
    Op.Ldx .| Op.Imm .| Op.W; Op.Ldx .| Op.Mem .| Op.W; Op.Ldx .| Op.Len .| Op.W;
    Op.Ldx .| Op.Msh .| Op.B; Op.St; Op.Stx;
    Op.Alu .| Op.Add .| Op.K; Op.Alu .| Op.Add .| Op.X;
    Op.Alu .| Op.Sub .| Op.K; Op.Alu .| Op.Sub .| Op.X;
    Op.Alu .| Op.Mul .| Op.K; Op.Alu .| Op.Mul .| Op.X;
    Op.Alu .| Op.Div .| Op.K; Op.Alu .| Op.Div .| Op.X;
    Op.Alu .| Op.Or .| Op.K; Op.Alu .| Op.Or .| Op.X;
    Op.Alu .| Op.And .| Op.K; Op.Alu .| Op.And .| Op.X;
    Op.Alu .| Op.Lsh .| Op.K; Op.Alu .| Op.Lsh .| Op.X;
    Op.Alu .| Op.Rsh .| Op.K; Op.Alu .| Op.Rsh .| Op.X; Op.Alu .| Op.Neg;
    Op.Alu .| Op.Mod .| Op.K; Op.Alu .| Op.Mod .| Op.X;
    Op.Alu .| Op.Xor .| Op.K; Op.Alu .| Op.Xor .| Op.X;
    Op.Jmp .| Op.Ja;
    Op.Jmp .| Op.Jeq .| Op.K; Op.Jmp .| Op.Jeq .| Op.X;
    Op.Jmp .| Op.Jgt .| Op.K; Op.Jmp .| Op.Jgt .| Op.X;
    Op.Jmp .| Op.Jge .| Op.K; Op.Jmp .| Op.Jge .| Op.X;
    Op.Jmp .| Op.Jset .| Op.K; Op.Jmp .| Op.Jset .| Op.X;
    Op.Ret .| Op.K; Op.Ret .| Op.A; Op.Misc .| Op.Tax; Op.Misc .| Op.Txa ].

(** The opcodes that index the scratch memory by [K]. *)
Definition mem_opcodes : list Z :=
  [ Op.Ld .| Op.Mem .| Op.W; Op.Ldx .| Op.Mem .| Op.W; Op.St; Op.Stx ].

(** The opcodes that divide by [K]. *)
Definition divK_opcodes : list Z := [ Op.Alu .| Op.Div .| Op.K; Op.Alu .| Op.Mod .| Op.K ].

Record ins_ok (i : Instruction) : Prop := mkInsOk {
  ok_range : ins_range i;
  ok_known : OpCode i ∈ known_opcodes;
  ok_mem : OpCode i ∈ mem_opcodes → (KVal i < ScratchMemRegisters)%Z;
  ok_div : OpCode i ∈ divK_opcodes → KVal i ≠ 0%Z
}.

Record wf_prog (p : list Instruction) : Prop := mkWf {
  wf_nonempty : p ≠ [];
  wf_ins : ∀ pc i, p !! pc = Some i → ins_ok i;
  wf_succs : ∀ pc i s, p !! pc = Some i → s ∈ succs pc i → s < length p
}.

(** The machine states [Exec] goes through. *)
Definition machine_ok (m : machine) : Prop :=
  in_u32 (mA m) ∧ in_u32 (mX m) ∧ length (mM m) = 16 ∧ Forall in_u32 (mM m).

(** Split on a known opcode and compute. *)
Ltac by_opcode H :=
  unfold known_opcodes, mem_opcodes, divK_opcodes in H;
  repeat (apply elem_of_cons in H as [->|H]); [..|exfalso; by apply elem_of_nil in H].

(** Membership in a literal list. *)
Ltac solve_elem := refine (bool_decide_unpack _ _); vm_compute; exact I.

(** A hypothesis of membership in a literal list, which computes to false. *)
Ltac not_elem H :=
  exfalso; revert H; match goal with |- ?P → False => change (¬ P) end;
  refine (bool_decide_unpack _ _); vm_compute; exact I.

(** ** Fuel *)

Section Eval.
Context (e : Endianness) (inp : Input).

(** Enough fuel is enough: the number of instructions from [pc] to the end. *)
Lemma exec_loop_fuel p f1 f2 pc m :
  length p - pc < f1 → length p - pc < f2 →
  exec_loop e inp p f1 pc m = exec_loop e inp p f2 pc m.
Proof.
  revert f2 pc m. induction f1 as [|f1 IH]; intros f2 pc m H1 H2; [lia|].
  destruct f2 as [|f2]; [lia|]. simpl.
  destruct (p !! pc) as [i|] eqn:Hi; [|done].
  apply lookup_lt_Some in Hi.
  destruct (exec_ins e inp i m); try done; apply IH; lia.
Qed.

Lemma exec_loop_total p f pc m :
  length p - pc < f → exec_loop e inp p f pc m ≠ OutOfFuel.
Proof.
  revert pc m. induction f as [|f IH]; intros pc m Hf; [lia|]. simpl.
  destruct (p !! pc) as [i|] eqn:Hi; [|done].
  apply lookup_lt_Some in Hi.
  destruct (exec_ins e inp i m); try done; apply IH; lia.
Qed.

Lemma eval_unfold p pc m : eval e inp p pc m = step_with e inp p (eval e inp p) pc m.
Proof.
  unfold eval at 1, step_with. simpl.
  destruct (p !! pc) as [i|] eqn:Hi; [|done].
  apply lookup_lt_Some in Hi.
  destruct (exec_ins e inp i m); simpl; try done;
    unfold eval; f_equal; apply exec_loop_fuel; lia.
Qed.

(** [eval] is the only function that satisfies the unfolding equation of a program. *)
Lemma eval_unique p (f : nat → machine → outcome) :
  (∀ pc m, f pc m = step_with e inp p f pc m) →
  ∀ pc m, f pc m = eval e inp p pc m.
Proof.
  intros Hf.
  assert (∀ n pc m, length p - pc < n → f pc m = eval e inp p pc m) as Hn; [|eauto].
  induction n as [|n IH]; intros pc m Hlt; [lia|].
  rewrite Hf, eval_unfold. unfold step_with.
  destruct (p !! pc) as [i|] eqn:Hi; [|done].
  apply lookup_lt_Some in Hi.
  destruct (exec_ins e inp i m); try done; apply IH; lia.
Qed.

Lemma Exec_eval p : erase (Exec e p inp) = eval e inp p 0 machine0.
Proof. unfold Exec, eval. by rewrite Nat.sub_0_r. Qed.

End Eval.

(** ** The effect of each class of instruction *)

Section Effects.
Context (e : Endianness) (inp : Input).

Lemma effect_uncond i m :
  ins_ok i → IsUnconditionalJump i = true →
  exec_ins e inp i m = JumpBy (Z.to_nat (KVal i)).
Proof.
  intros [_ Hk _ _] Hj. destruct i as [op jt jf k]. simpl in Hk.
  by_opcode Hk; try discriminate Hj; reflexivity.
Qed.

(** A conditional jump's condition does not depend on its targets. *)
Lemma effect_cond i m :
  ins_ok i → IsConditionalJump i = true →
  ∃ c : bool, ∀ jt jf,
    exec_ins e inp (mkIns (OpCode i) jt jf (KVal i)) m =
    JumpBy (Z.to_nat (if c then jt else jf)).
Proof.
  intros [_ Hk _ _] Hj. destruct i as [op jt0 jf0 k]. simpl in Hk.
  by_opcode Hk; try discriminate Hj;
    unfold exec_ins, conditionalJumpOffset; simpl;
    match goal with
    | |- ∃ _, ∀ jt jf, (if ?b then _ else _) = _ => exists b; intros; by destruct b
    end.
Qed.

Lemma effect_return i m :
  ins_ok i → IsReturn i = true →
  exec_ins e inp i m = Return (if (OpCode i =? Op.Ret .| Op.K)%Z then KVal i else mA m).
Proof.
  intros [_ Hk _ _] Hj. destruct i as [op jt jf k]. simpl in Hk.
  by_opcode Hk; try discriminate Hj; reflexivity.
Qed.

(** The other instructions fall through, or fault. *)
Lemma effect_other i m :
  ins_ok i → IsReturn i = false → IsJump i = false → length (mM m) = 16 →
  (∃ m', exec_ins e inp i m = Cont m' ∧ length (mM m') = 16) ∨
  exec_ins e inp i m = Fault InvalidLoad ∨ exec_ins e inp i m = Fault DivisionByZero.
Proof.
  intros [[_ [_ [_ Hr]]] Hk Hm Hd] Hret Hj Hlen.
  destruct i as [op jt jf k]. simpl in *.
  assert (Hmem : op ∈ mem_opcodes → Z.to_nat k < length (mM m)).
  { intros Ho. specialize (Hm Ho). unfold ScratchMemRegisters in Hm. rewrite Hlen.
    destruct Hr. lia. }
  by_opcode Hk; try discriminate Hret; try discriminate Hj;
    unfold exec_ins; simpl;
    try (left; eexists; split; [reflexivity|done]);
    unfold load_to, mem_to, mem_store;
    try (destruct (load32 _ _ _)); try (destruct (load16 _ _ _)); try (destruct (load8 _ _));
    try (left; eexists; split; [reflexivity|done]); try (right; left; reflexivity);
    try (destruct (mX m =? 0)%Z; [right; right; reflexivity|left; eexists; split; [reflexivity|done]]).
  all: try (destruct (k =? 0)%Z eqn:Hz;
    [apply Z.eqb_eq in Hz; exfalso; apply Hd; [solve_elem|done]
    |left; eexists; split; [reflexivity|done]]).
  all: left.
  1-2: destruct (lookup_lt_is_Some_2 (mM m) (Z.to_nat k)) as [v Hv];
    [apply Hmem; unfold mem_opcodes; solve_elem|];
    rewrite Hv; eexists; split; [reflexivity|done].
  all: assert (Hlt : Z.to_nat k < length (mM m)) by (apply Hmem; unfold mem_opcodes; solve_elem);
    apply Nat.ltb_lt in Hlt; rewrite Hlt; eexists; split; [reflexivity|];
    simpl; by rewrite length_insert.
Qed.

Lemma effect_jump i m off :
  ins_ok i → exec_ins e inp i m = JumpBy off → IsJump i = true.
Proof.
  intros [_ Hk _ _]. destruct i as [op jt jf k]. simpl in Hk.
  by_opcode Hk; try done; unfold exec_ins, load_to, mem_to, mem_store; simpl; intros;
    repeat case_match; done.
Qed.

Lemma effect_returns i m v :
  ins_ok i → exec_ins e inp i m = Return v → IsReturn i = true.
Proof.
  intros [_ Hk _ _]. destruct i as [op jt jf k]. simpl in Hk.
  by_opcode Hk; try done; unfold exec_ins, conditionalJumpOffset, load_to, mem_to, mem_store;
    simpl; intros;
    repeat case_match; done.
Qed.

Lemma effect_is_jump i m : ins_ok i → IsJump i = true → ∃ off, exec_ins e inp i m = JumpBy off.
Proof.
  intros Hok Hj. destruct (IsUnconditionalJump i) eqn:Hu.
  - eexists. by apply effect_uncond.
  - assert (Hc : IsConditionalJump i = true) by (rewrite jump_cases, Hu; done).
    destruct (effect_cond i m Hok Hc) as [c He].
    specialize (He (JumpIfTrue i) (JumpIfFalse i)).
    replace (mkIns _ _ _ _) with i in He by (by destruct i). by eexists.
Qed.

(** Control goes to one of the successors. *)
Lemma exec_ins_flow i m :
  ins_ok i →
  match exec_ins e inp i m with
  | Cont _ => ∀ pc, S pc ∈ succs pc i
  | JumpBy off => ∀ pc, S (pc + off) ∈ succs pc i
  | _ => True
  end.
Proof.
  intros Hok. destruct (IsReturn i) eqn:Hr; [by rewrite effect_return|].
  unfold succs. rewrite Hr. destruct (IsJump i) eqn:Hj; cycle 1.
  { destruct (exec_ins e inp i m) as [m'|off| | |] eqn:He; try done.
    - intros pc. apply list_elem_of_here.
    - by rewrite (effect_jump i m off Hok He) in Hj. }
  destruct (IsUnconditionalJump i) eqn:Hu.
  - rewrite effect_uncond by done. intros pc. apply list_elem_of_here.
  - assert (Hc : IsConditionalJump i = true) by (rewrite jump_cases, Hu; done).
    destruct (effect_cond i m Hok Hc) as [c He].
    specialize (He (JumpIfTrue i) (JumpIfFalse i)).
    replace (mkIns _ _ _ _) with i in He by (by destruct i). rewrite He.
    intros pc. destruct c; [apply list_elem_of_here|].
    apply list_elem_of_further, list_elem_of_here.
Qed.

End Effects.

(** ** What validation establishes *)

(** An opcode outside [known_opcodes] is rejected whatever the other fields are. *)
Lemma validate_unknown :
  Forall (λ op, op ∈ known_opcodes ∨
    ∀ n pc jt jf k, validate_ins n pc (mkIns op jt jf k) = Some InvalidOpcode) all_opcodes.
Proof.
  let l := eval vm_compute in all_opcodes in change all_opcodes with l.
  repeat (apply Forall_cons_2;
    [first [left; refine (bool_decide_unpack _ _); vm_compute; exact I
           |right; intros; reflexivity]|]).
  by apply Forall_nil.
Qed.

Lemma validate_ins_known n pc i :
  ins_range i → validate_ins n pc i = None → OpCode i ∈ known_opcodes.
Proof.
  intros [Hop _] Hv. destruct i as [op jt jf k]. simpl in *.
  assert (Hlt : (0 <= op < 256)%Z).
  { apply opcode_below_256; [done|]. unfold validate_ins in Hv. cbn [OpCode] in Hv.
    destruct (op .& Op.unusedBitsMask =? 0)%Z eqn:Hz; [by apply Z.eqb_eq in Hz|done]. }
  pose proof validate_unknown as Hall. rewrite Forall_forall in Hall.
  destruct (Hall op) as [?|Hbad]; [apply elem_of_seqZ; lia|done|].
  by rewrite Hbad in Hv.
Qed.

(** The targets of a jump instruction. *)
Definition jump_targets (pc : nat) (i : Instruction) : list nat :=
  if IsJump i then succs pc i else [].

Lemma validate_ins_iff n pc i :
  ins_range i →
  validate_ins n pc i = None ↔ ins_ok i ∧ Forall (λ t, t < n) (jump_targets pc i).
Proof.
  intros Hr. split.
  - intros Hv. pose proof (validate_ins_known _ _ _ Hr Hv) as Hk.
    assert (ins_ok i ∧ Forall (λ t, t < n) (jump_targets pc i)) as [? ?]; [|done].
    destruct i as [op jt jf k]. destruct Hr as (? & Hjt & Hjf & Hkr). simpl in *.
    unfold in_u8, in_u32 in *.
    split; [split; [done|done|..]|]; simpl.
    + intros Hm. by_opcode Hm; unfold validate_ins in Hv; simpl in Hv;
        case_if_in Hv; to_prop; (done || lia).
    + intros Hd. by_opcode Hd; unfold validate_ins in Hv; simpl in Hv;
        case_if_in Hv; to_prop; (done || lia).
    + by_opcode Hk; unfold jump_targets, succs; simpl; try (by apply Forall_nil);
        unfold validate_ins in Hv; simpl in Hv; repeat (case_if_in Hv; [done|]); to_prop;
        repeat (apply Forall_cons_2; [lia|]); by apply Forall_nil.
  - intros [[_ Hk Hm Hd] Ht]. destruct i as [op jt jf k]. simpl in *.
    destruct Hr as (? & Hjt & Hjf & Hkr). simpl in *. unfold in_u8, in_u32 in *.
    by_opcode Hk; unfold validate_ins; simpl; try reflexivity;
      unfold jump_targets, succs in Ht; simpl in Ht;
      repeat (apply Forall_cons_1 in Ht as [? Ht]);
      repeat (case_if; to_prop; try lia); try reflexivity.
    all: exfalso.
    all: try (apply Hd; [solve_elem|done]).
    all: assert (k < ScratchMemRegisters)%Z by (apply Hm; solve_elem); unfold ScratchMemRegisters in *; lia.
Qed.

Lemma validate_from_iff n pc insns :
  validate_from n pc insns = None ↔
  ∀ k i, insns !! k = Some i → validate_ins n (pc + k) i = None.
Proof.
  revert pc. induction insns as [|i insns IH]; intros pc; simpl.
  - split; [|done]. intros _ k i Hk. by rewrite lookup_nil in Hk.
  - destruct (validate_ins n pc i) as [c|] eqn:Hi.
    + split; [done|]. intros H. specialize (H 0 i eq_refl).
      rewrite Nat.add_0_r in H. congruence.
    + rewrite IH. split.
      * intros H [|k] j Hk; simpl in Hk; [simplify_eq; by rewrite Nat.add_0_r|].
        rewrite Nat.add_succ_r. by apply (H k).
      * intros H k j Hk. specialize (H (S k) j Hk). by rewrite Nat.add_succ_r in H.
Qed.

Lemma known_return i :
  OpCode i ∈ known_opcodes → IsReturn i = true →
  OpCode i = Op.Ret .| Op.K ∨ OpCode i = Op.Ret .| Op.A.
Proof.
  destruct i as [op jt jf k]. simpl. intros Hk Hr.
  by_opcode Hk; try discriminate Hr; auto.
Qed.

(** [Compile] accepts a program exactly when it is well formed and not too long. *)
Lemma validate_wf insns :
  Forall ins_range insns → validate insns = None → wf_prog insns.
Proof.
  intros Hr Hv. unfold validate in Hv. case_if_in Hv; [done|]. to_prop.
  destruct (insns !! (length insns - 1)) as [l|] eqn:Hl; [|done].
  match type of Hv with context [if ?b then _ else _] => destruct b eqn:Hlast end; [done|].
  assert (Hins : ∀ k i, insns !! k = Some i →
    ins_ok i ∧ Forall (λ t, t < length insns) (jump_targets k i)).
  { intros k i Hk. apply validate_ins_iff; [by eapply Forall_lookup_1|].
    by apply (proj1 (validate_from_iff _ _ _) Hv k i Hk). }
  split.
  - by intros ->.
  - intros pc i Hi. by apply (Hins pc).
  - intros pc i s Hi Hs. destruct (Hins pc i Hi) as [Hok Ht].
    pose proof (lookup_lt_Some _ _ _ Hi) as Hlt.
    unfold jump_targets in Ht. destruct (IsJump i) eqn:Hj.
    + by eapply Forall_forall in Ht.
    + unfold succs in Hs. rewrite Hj in Hs. destruct (IsReturn i) eqn:Hret.
      * by apply elem_of_nil in Hs.
      * apply list_elem_of_singleton in Hs as ->.
        destruct (decide (S pc = length insns)) as [Heq|]; [exfalso|lia].
        replace (length insns - 1) with pc in Hl by lia.
        assert (l = i) as -> by congruence.
        unfold IsReturn, class in Hret.
        apply andb_false_iff in Hlast as [Hb|Hb]; to_prop; rewrite Hb in Hret; done.
Qed.

Lemma wf_last_return p i :
  wf_prog p → p !! (length p - 1) = Some i → IsReturn i = true.
Proof.
  intros [_ _ Hs] Hi. pose proof (lookup_lt_Some _ _ _ Hi) as Hlt.
  destruct (IsReturn i) eqn:Hr; [done|exfalso].
  assert (∃ s, s ∈ succs (length p - 1) i ∧ length p ≤ s) as (s & Hin & Hge).
  { unfold succs. rewrite Hr.
    destruct (IsJump i); [destruct (IsUnconditionalJump i)|];
      eexists; (split; [apply list_elem_of_here|lia]). }
  specialize (Hs _ _ s Hi Hin). lia.
Qed.

Lemma wf_validate insns :
  wf_prog insns → length insns ≤ MaxInstructions → validate insns = None.
Proof.
  intros Hwf Hlen. pose proof Hwf as [Hne Hins Hsuc]. unfold validate.
  destruct insns as [|i0 rest] eqn:Hi0; [done|]. rewrite <- Hi0 in *.
  assert (Hpos : 0 < length insns) by (rewrite Hi0; simpl; lia).
  destruct (length insns =? 0) eqn:H0; [to_prop; lia|].
  destruct (MaxInstructions <? length insns) eqn:H1; [to_prop; lia|]. simpl.
  destruct (lookup_lt_is_Some_2 insns (length insns - 1)) as [l Hl]; [lia|].
  rewrite Hl.
  destruct (known_return l) as [E|E];
    [by apply (ok_known _ (Hins _ _ Hl))|by eapply wf_last_return| |];
    rewrite E; simpl; apply validate_from_iff; intros k i Hi;
    (apply validate_ins_iff; [by apply ok_range, (Hins k)|]);
    (split; [by apply (Hins k)|]); apply Forall_forall; intros s Hs;
    unfold jump_targets in Hs; (destruct (IsJump i); [|by apply elem_of_nil in Hs]);
    by eapply Hsuc.
Qed.

Lemma validate_length insns : validate insns = None → length insns ≤ MaxInstructions.
Proof.
  unfold validate. intros Hv.
  destruct ((length insns =? 0) || (MaxInstructions <? length insns)) eqn:E; [done|].
  to_prop. lia.
Qed.

(** ** Safety of validated programs *)

Lemma byte_at_range inp off : Forall in_u8 inp → in_u8 (byte_at inp off).
Proof.
  intros Hb. unfold byte_at. destruct (inp !! off) as [b|] eqn:Hl; simpl.
  - exact (Forall_lookup_1 _ _ _ _ Hb Hl).
  - by vm_compute.
Qed.

Lemma load32_range e inp off v : Forall in_u8 inp → load32 e inp off = Some v → in_u32 v.
Proof.
  intros Hb H. pose proof (λ k, byte_at_range inp k Hb) as B. unfold in_u8 in B.
  unfold load32, in_u32 in *. case_if_in H; simplify_eq. unfold uint32_at.
  pose proof (B (Z.to_nat off + 0)). pose proof (B (Z.to_nat off + 1)).
  pose proof (B (Z.to_nat off + 2)). pose proof (B (Z.to_nat off + 3)). destruct e; lia.
Qed.

Lemma load16_range e inp off v : Forall in_u8 inp → load16 e inp off = Some v → in_u32 v.
Proof.
  intros Hb H. pose proof (λ k, byte_at_range inp k Hb) as B. unfold in_u8 in B.
  unfold load16, in_u32 in *. case_if_in H; simplify_eq. unfold uint16_at.
  pose proof (B (Z.to_nat off + 0)). pose proof (B (Z.to_nat off + 1)). destruct e; lia.
Qed.

Lemma load8_range inp off v : Forall in_u8 inp → load8 inp off = Some v → in_u32 v.
Proof.
  intros Hb H. pose proof (byte_at_range inp (Z.to_nat off) Hb) as B. unfold in_u8 in B.
  unfold load8, in_u32 in *. case_if_in H; simplify_eq. lia.
Qed.

#[export] Hint Resolve load32_range load16_range load8_range : bpf.

Lemma machine0_ok : machine_ok machine0.
Proof. unfold machine_ok, machine0. simpl. repeat split; try lia. repeat constructor; lia. Qed.

Lemma set_A_ok m a : machine_ok m → in_u32 a → machine_ok (set_A m a).
Proof. intros (? & ? & ? & ?) ?. done. Qed.

Lemma set_X_ok m x : machine_ok m → in_u32 x → machine_ok (set_X m x).
Proof. intros (? & ? & ? & ?) ?. done. Qed.

Lemma set_M_ok m k v : machine_ok m → in_u32 v → machine_ok (set_M m k v).
Proof.
  intros (? & ? & ? & ?) ?. split; [done|split; [done|split]]; simpl.
  - by rewrite length_insert.
  - by apply Forall_insert.
Qed.

Lemma machine_ok_A m : machine_ok m → in_u32 (mA m).
Proof. by intros (? & ? & ? & ?). Qed.

Lemma machine_ok_X m : machine_ok m → in_u32 (mX m).
Proof. by intros (? & ? & ? & ?). Qed.

#[export] Hint Resolve set_A_ok set_X_ok set_M_ok machine_ok_A machine_ok_X : bpf.

Lemma exec_ins_keeps_ok e inp i m m' :
  ins_ok i → Forall in_u8 inp → machine_ok m → exec_ins e inp i m = Cont m' → machine_ok m'.
Proof.
  intros Hok Hb Hm He.
  assert (HX : (0 <= mX m)%Z) by apply (machine_ok_X m Hm).
  destruct Hok as [[_ [_ [_ Hk0]]] Hk _ _]. destruct i as [op jt jf k]. simpl in *.
  assert (HK : (0 <= k)%Z) by apply Hk0.
  assert (Hmem : ∀ j v, mM m !! j = Some v → in_u32 v).
  { intros j v Hj. destruct Hm as (_ & _ & _ & Hf). exact (Forall_lookup_1 _ _ _ _ Hf Hj). }
  by_opcode Hk; unfold exec_ins, load_to, mem_to, mem_store, conditionalJumpOffset in He;
    simpl in He; try (repeat case_match; simplify_eq; eauto 6 with bpf; fail).
Qed.

(** The effects of a well-formed instruction on a proper machine state. *)
Lemma exec_ins_safe e inp i m :
  ins_ok i → Forall in_u8 inp → machine_ok m →
  match exec_ins e inp i m with
  | Cont m' => machine_ok m' ∧ IsReturn i = false ∧ IsJump i = false
  | JumpBy off => ∀ pc, S (pc + off) ∈ succs pc i
  | Return v => in_u32 v
  | Fault c => c = InvalidLoad ∨ c = DivisionByZero
  | Crash => False
  end.
Proof.
  intros Hok Hb Hm.
  destruct (IsReturn i) eqn:Hr.
  { rewrite effect_return by done. case_if; [apply Hok|by apply machine_ok_A]. }
  pose proof (exec_ins_flow e inp i m Hok) as Hfl.
  destruct (IsJump i) eqn:Hj.
  { destruct (effect_is_jump e inp i m Hok Hj) as [off He]. by rewrite He in Hfl |- *. }
  destruct (effect_other e inp i m Hok Hr Hj) as [(m' & He & _)|[He|He]];
    [apply Hm|rewrite He..]; auto.
  split; [|done]. by eapply exec_ins_keeps_ok.
Qed.

(** A run of a well-formed program ends with a [uint32], or with a load out of bounds or a
    division by a zero register at one of its instructions. *)
Lemma exec_loop_safe e inp p f pc m :
  wf_prog p → Forall in_u8 inp → machine_ok m → pc < length p → length p - pc < f →
  match exec_loop e inp p f pc m with
  | Value v => in_u32 v
  | Err err => (Code err = InvalidLoad ∨ Code err = DivisionByZero) ∧ PC err < length p
  | Panicked | OutOfFuel => False
  end.
Proof.
  intros Hwf Hb. revert pc m. induction f as [|f IH]; intros pc m Hm Hpc Hf; [lia|]. simpl.
  destruct (lookup_lt_is_Some_2 p pc Hpc) as [i Hi]. rewrite Hi.
  pose proof (exec_ins_safe e inp i m (wf_ins _ Hwf _ _ Hi) Hb Hm) as Hs.
  destruct (exec_ins e inp i m) as [m'|off|v|c|]; try done.
  - destruct Hs as (Hm' & Hr & Hj).
    assert (S pc < length p).
    { apply (wf_succs _ Hwf pc i (S pc) Hi). unfold succs. rewrite Hr, Hj.
      apply list_elem_of_here. }
    apply IH; [done..|lia].
  - pose proof (wf_succs _ Hwf pc i _ Hi (Hs pc)). apply IH; [done..|lia].
Qed.

(** ** Properties *)

(** A filter that checks the architecture and one system call number. *)
Definition sample_filter : list Instruction :=
  [ Stmt (Op.Ld .| Op.Abs .| Op.W) 4; Jump (Op.Jmp .| Op.Jeq .| Op.K) 0xc000003e 1 0;
    Stmt (Op.Ret .| Op.K) 0; Stmt (Op.Ld .| Op.Abs .| Op.W) 0;
    Jump (Op.Jmp .| Op.Jeq .| Op.K) 59 0 1; Stmt (Op.Ret .| Op.K) 0x50001;
    Stmt (Op.Ret .| Op.K) 0x7fff0000 ].

Lemma sample_filter_range : Forall ins_range sample_filter.
Proof. repeat constructor; vm_compute; done. Defined.

(** C9. A program that passes the validation of [Compile] runs safely on every input: [Exec]
    ends (its loop never runs out of instructions to execute, jumps out of the program or
    meets an opcode it does not know, and never indexes out of range), with a 32-bit value or
    with one of the two errors validation cannot exclude, an out-of-bounds load or a division
    by a zero register, at an instruction of the program. *)
Theorem Exec_safe e insns inp :
  Forall ins_range insns → Forall in_u8 inp → validate insns = None →
  match Exec e insns inp with
  | Value v => in_u32 v
  | Err err => (Code err = InvalidLoad ∨ Code err = DivisionByZero) ∧ PC err < length insns
  | Panicked | OutOfFuel => False
  end.
Proof.
  intros Hr Hb Hv. pose proof (validate_wf insns Hr Hv) as Hwf.
  apply exec_loop_safe; [done|done|apply machine0_ok| |lia].
  destruct Hwf as [Hne _ _]. destruct insns; [done|simpl; lia].
Qed.

Lemma Exec_safe_witness :
  validate sample_filter = None ∧
  match Exec LittleEndian sample_filter [59; 0; 0; 0; 62; 0; 0; 192]%Z with
  | Value v => in_u32 v
  | Err err => (Code err = InvalidLoad ∨ Code err = DivisionByZero) ∧
      PC err < length sample_filter
  | Panicked | OutOfFuel => False
  end.
Proof.
  split; [reflexivity|]. apply (Exec_safe LittleEndian sample_filter).
  - apply sample_filter_range.
  - repeat constructor; vm_compute; done.
  - reflexivity.
Defined.

(** C22. The validation of [Compile] accepts exactly the programs of at most [MaxInstructions]
    instructions that are well formed: not empty, every instruction has an opcode [Exec]
    implements, an index in the scratch memory and no division by the constant zero, and all
    the instructions control can go to are in the program (so the last one is a return). *)
Theorem validate_accepts_iff insns :
  Forall ins_range insns →
  validate insns = None ↔ wf_prog insns ∧ length insns ≤ MaxInstructions.
Proof.
  intros Hr. split.
  - intros Hv. split; [by apply validate_wf|by apply validate_length].
  - intros [Hwf Hlen]. by apply wf_validate.
Qed.

Lemma validate_accepts_iff_witness :
  (validate sample_filter = None ↔
   wf_prog sample_filter ∧ length sample_filter ≤ MaxInstructions) ∧
  wf_prog sample_filter.
Proof.
  pose proof (validate_accepts_iff sample_filter sample_filter_range) as H.
  split; [exact H|]. by apply H.
Defined.
