(* ===== verification/Decoder.v ===== *)
(** * The decoder (src/pkg/bpf/decoder.go)

    The text of instructions.  A function that writes to a buffer and may fail returns what it
    wrote and its error. *)

From stdpp Require Import base numbers decidable strings pretty list.
From S2P Require Import Prelude Instr Machine MachineFacts.

Local Open Scope Z_scope.
Local Open Scope bits_scope.

(** ** Writers *)

Inductive DecodeError : Type :=
  | InvalidInstruction (inst : Instruction)
  | InvalidLd (inst : Instruction)
  | InvalidLdSize (inst : Instruction)
  | InvalidLdx (inst : Instruction)
  | InvalidAlu (inst : Instruction)
  | InvalidSource (inst : Instruction)
  | InvalidRet (inst : Instruction).

Definition writer : Type := string * option DecodeError.

Definition write (s : string) : writer := (s, None).

Definition fails (err : DecodeError) : writer := ("", Some err).

(** Writing more, unless there was an error. *)
Definition write_seq (w1 w2 : writer) : writer :=
  match w1.2 with Some _ => w1 | None => (w1.1 +:+ w2.1, w2.2) end.

Declare Scope writer_scope.
Delimit Scope writer_scope with writer.
Infix ";+" := write_seq (at level 65, right associativity) : writer_scope.
Local Open Scope writer_scope.

(** ** Instructions *)

Definition decodeLdSize (inst : Instruction) : writer :=
  let size := OpCode inst .& Op.loadSizeMask in
  if size =? Op.W then write "4"
  else if size =? Op.H then write "2"
  else if size =? Op.B then write "1"
  else fails (InvalidLdSize inst).

Definition decodeLd (inst : Instruction) : writer :=
  write "A <- " ;+
  let mode := OpCode inst .& Op.loadModeMask in
  if mode =? Op.Imm then write (pretty (KVal inst))
  else if mode =? Op.Abs then write ("P[" +:+ pretty (KVal inst) +:+ ":") ;+ decodeLdSize inst ;+ write "]"
  else if mode =? Op.Ind then write ("P[X+" +:+ pretty (KVal inst) +:+ ":") ;+ decodeLdSize inst ;+ write "]"
  else if mode =? Op.Mem then write ("M[" +:+ pretty (KVal inst) +:+ "]")
  else if mode =? Op.Len then write "len"
  else fails (InvalidLd inst).

Definition decodeLdx (inst : Instruction) : writer :=
  write "X <- " ;+
  let mode := OpCode inst .& Op.loadModeMask in
  if mode =? Op.Imm then write (pretty (KVal inst))
  else if mode =? Op.Mem then write ("M[" +:+ pretty (KVal inst) +:+ "]")
  else if mode =? Op.Len then write "len"
  else if mode =? Op.Msh then write ("4*(P[" +:+ pretty (KVal inst) +:+ ":1]&0xf)")
  else fails (InvalidLdx inst).

Definition decodeSource (inst : Instruction) : writer :=
  let src := OpCode inst .& Op.srcAluJmpMask in
  if src =? Op.K then write (pretty (KVal inst))
  else if src =? Op.X then write "X"
  else fails (InvalidSource inst).

Definition decodeAlu (inst : Instruction) : writer :=
  let code := OpCode inst .& Op.aluMask in
  if code =? Op.Neg then write "A <- -A"
  else
    write "A <- A " ;+
    (if code =? Op.Add then write "+ "
     else if code =? Op.Sub then write "- "
     else if code =? Op.Mul then write "* "
     else if code =? Op.Div then write "/ "
     else if code =? Op.Or then write "| "
     else if code =? Op.And then write "& "
     else if code =? Op.Lsh then write "<< "
     else if code =? Op.Rsh then write ">> "
     else if code =? Op.Mod then write "% "
     else if code =? Op.Xor then write "^ "
     else fails (InvalidAlu inst)) ;+
    decodeSource inst.

(** The line is -1 where there is none. *)
Definition printJmpTarget (target line : Z) : string :=
  if line =? -1 then pretty target
  else pretty target +:+ " [" +:+ pretty (target + line + 1) +:+ "]".

Definition decodeJmp (inst : Instruction) (line : Z) : writer :=
  let code := OpCode inst .& Op.jmpMask in
  write "pc += " ;+
  if code =? Op.Ja then write (printJmpTarget (KVal inst) line)
  else
    write "(A " ;+
    (if code =? Op.Jeq then write "== "
     else if code =? Op.Jgt then write "> "
     else if code =? Op.Jge then write ">= "
     else if code =? Op.Jset then write "& "
     else fails (InvalidAlu inst)) ;+
    decodeSource inst ;+
    write (") ? " +:+ printJmpTarget (JumpIfTrue inst) line +:+ " : " +:+ printJmpTarget (JumpIfFalse inst) line).

Definition decodeRet (inst : Instruction) : writer :=
  write "ret " ;+
  let code := OpCode inst .& Op.srcRetMask in
  if code =? Op.K then write (pretty (KVal inst))
  else if code =? Op.A then write "A"
  else fails (InvalidRet inst).

Definition decodeMisc (inst : Instruction) : writer :=
  let code := OpCode inst .& Op.miscMask in
  if code =? Op.Tax then write "X <- A"
  else if code =? Op.Txa then write "A <- X"
  else fails (InvalidSource inst).

Definition decode (inst : Instruction) (line : Z) : writer :=
  let class := OpCode inst .& Op.instructionClassMask in
  if class =? Op.Ld then decodeLd inst
  else if class =? Op.Ldx then decodeLdx inst
  else if class =? Op.St then write ("M[" +:+ pretty (KVal inst) +:+ "] <- A")
  else if class =? Op.Stx then write ("M[" +:+ pretty (KVal inst) +:+ "] <- X")
  else if class =? Op.Alu then decodeAlu inst
  else if class =? Op.Jmp then decodeJmp inst line
  else if class =? Op.Ret then decodeRet inst
  else if class =? Op.Misc then decodeMisc inst
  else fails (InvalidInstruction inst).

Definition Decode (ins : Instruction) : writer := decode ins (-1).

Definition newline : string := String (Ascii.ascii_of_nat 10) EmptyString.

(** The loop of [DecodeInstructions] from [line] on. *)
Fixpoint decode_lines (line : nat) (instns : list Instruction) : writer :=
  match instns with
  | [] => write ""
  | s :: instns' =>
      write (pretty line +:+ ": ") ;+ decode s (Z.of_nat line) ;+ write newline ;+ decode_lines (S line) instns'
  end.

Definition DecodeInstructions (instns : list Instruction) : string + DecodeError :=
  match decode_lines 0 instns with
  | (ret, None) => inl ret
  | (_, Some err) => inr err
  end.

(** The program is the list of its instructions. *)
Definition DecodeProgram (p : list Instruction) : string + DecodeError := DecodeInstructions p.

(** ** Facts *)

Lemma write_seq_ok w1 w2 : (w1 ;+ w2).2 = None ↔ w1.2 = None ∧ w2.2 = None.
Proof. unfold write_seq. destruct w1 as [s1 [e|]]; simpl; naive_solver. Qed.

Lemma decode_known i line : OpCode i ∈ known_opcodes → (decode i line).2 = None.
Proof.
  destruct i as [op jt jf k]. cbn [OpCode]. intros Hk. by_opcode Hk;
    cbv -[pretty printJmpTarget String.app]; reflexivity.
Qed.

Lemma decode_lines_known line p : Forall (λ i, OpCode i ∈ known_opcodes) p → (decode_lines line p).2 = None.
Proof.
  intros Hp. revert line. induction Hp as [|i p Hi _ IH]; intros line; [done|]. cbn [decode_lines].
  rewrite !write_seq_ok. split_and!; [done|by apply decode_known|done|apply IH].
Qed.

(** ** Properties *)

(** C36. Every program that passes the validation of [Compile] can be decoded: no instruction
    of it is an error for the decoder. *)
Theorem DecodeInstructions_valid insns :
  Forall ins_range insns → validate insns = None → ∃ text, DecodeInstructions insns = inl text.
Proof.
  intros Hr Hv. pose proof (validate_wf insns Hr Hv) as Hwf.
  assert (H : (decode_lines 0 insns).2 = None).
  { apply decode_lines_known, Forall_lookup. intros pc i Hi. apply (wf_ins _ Hwf _ _ Hi). }
  unfold DecodeInstructions. destruct (decode_lines 0 insns) as [text [err|]]; [done|by eexists].
Qed.

Lemma DecodeInstructions_valid_witness :
  validate sample_filter = None ∧ ∃ text, DecodeInstructions sample_filter = inl text.
Proof.
  split; [by vm_compute|]. apply DecodeInstructions_valid; [exact sample_filter_range|by vm_compute].
Defined.

(** The decoder and the interpreter disagree on the two transfers between the registers:
    what is printed as an assignment to [X] changes [A] in a run, and the other way round. *)
Theorem transfers_disagree e inp m :
  let tax := Stmt (Op.Misc .| Op.Tax) 0 in
  let txa := Stmt (Op.Misc .| Op.Txa) 0 in
  Decode tax = write "X <- A" ∧ exec_ins e inp tax m = Cont (set_A m (mX m)) ∧
  Decode txa = write "A <- X" ∧ exec_ins e inp txa m = Cont (set_X m (mA m)).
Proof. done. Qed.
