(* ===== verification/Instrumented.v ===== *)
(** * Instrumented execution (src/pkg/bpf/interpreter.go)

    [InstrumentedExec] is a second interpreter that also records the executed instructions and
    the input bytes read.  It is translated on its own, from its own [switch], and proved to
    agree with [Exec]; the recorded bytes are shown to be all that the result depends on. *)

From stdpp Require Import base numbers decidable pretty strings list.
From S2P Require Import Prelude Instr Machine MachineFacts.

Local Open Scope Z_scope.
Local Open Scope bits_scope.

Record ExecutionMetrics : Type := mkMetrics {
  ReturnValue : Z;
  Coverage : list bool;
  InputAccessed : list bool
}.

Definition set_ReturnValue (r : ExecutionMetrics) (v : Z) : ExecutionMetrics :=
  mkMetrics v (Coverage r) (InputAccessed r).

(** [ret.Coverage[pc] = true], with [pc] in range. *)
Definition cover (r : ExecutionMetrics) (pc : nat) : ExecutionMetrics :=
  mkMetrics (ReturnValue r) (<[pc := true]> (Coverage r)) (InputAccessed r).

(** The loop of [markInputRead]. *)
Fixpoint mark_bytes (accessed : list bool) (offset n : nat) : list bool :=
  match n with
  | O => accessed
  | S n' => mark_bytes (<[offset := true]> accessed) (S offset) n'
  end.

(** [None] is the explicit panic. *)
Definition markInputRead (r : ExecutionMetrics) (offset : Z) (bytesRead : nat)
    : option ExecutionMetrics :=
  if offset + Z.of_nat bytesRead >? Z.of_nat (length (InputAccessed r)) then None
  else Some (mkMetrics (ReturnValue r) (Coverage r)
               (mark_bytes (InputAccessed r) (Z.to_nat offset) bytesRead)).

(** What an instruction does; the metrics only change when input is read. *)
Inductive instr_effect : Type :=
  | ICont (r : ExecutionMetrics) (m : machine)
  | IJumpBy (off : nat)
  | IReturn (v : Z)
  | IFault (c : ErrCode)
  | ICrash.

Definition ijump (i : Instruction) (cond : bool) : instr_effect :=
  if cond then IJumpBy (Z.to_nat (JumpIfTrue i)) else IJumpBy (Z.to_nat (JumpIfFalse i)).

(** [val, ok := load(in, off); if !ok {..}; ret.markInputRead(off, n); set val] *)
Definition imark (r : ExecutionMetrics) (off : Z) (n : nat) (val : option Z)
    (set : Z → machine) : instr_effect :=
  match val with
  | None => IFault InvalidLoad
  | Some v =>
      match markInputRead r off n with
      | Some r' => ICont r' (set v)
      | None => ICrash
      end
  end.

Definition imem_to (r : ExecutionMetrics) (set : Z → machine) (m : machine) (k : Z)
    : instr_effect :=
  match mM m !! Z.to_nat k with
  | Some v => ICont r (set v)
  | None => ICrash
  end.

Definition imem_store (r : ExecutionMetrics) (m : machine) (k v : Z) : instr_effect :=
  if (Z.to_nat k <? length (mM m))%nat then ICont r (set_M m (Z.to_nat k) v) else ICrash.

(** The [switch i.OpCode] of [InstrumentedExec]. *)
Definition instr_ins (e : Endianness) (inp : Input) (i : Instruction) (r : ExecutionMetrics)
    (m : machine) : instr_effect :=
  let op := OpCode i in
  let k := KVal i in
  let ind := wrap32 (mX m + k) in
  if op =? Op.Ld .| Op.Imm .| Op.W then ICont r (set_A m k)
  else if op =? Op.Ld .| Op.Abs .| Op.W then imark r k 4 (load32 e inp k) (set_A m)
  else if op =? Op.Ld .| Op.Abs .| Op.H then imark r k 2 (load16 e inp k) (set_A m)
  else if op =? Op.Ld .| Op.Abs .| Op.B then imark r k 1 (load8 inp k) (set_A m)
  else if op =? Op.Ld .| Op.Ind .| Op.W then imark r ind 4 (load32 e inp ind) (set_A m)
  else if op =? Op.Ld .| Op.Ind .| Op.H then imark r ind 2 (load16 e inp ind) (set_A m)
  else if op =? Op.Ld .| Op.Ind .| Op.B then imark r ind 1 (load8 inp ind) (set_A m)
  else if op =? Op.Ld .| Op.Mem .| Op.W then imem_to r (set_A m) m k
  else if op =? Op.Ld .| Op.Len .| Op.W then ICont r (set_A m (wrap32 (Z.of_nat (length inp))))
  else if op =? Op.Ldx .| Op.Imm .| Op.W then ICont r (set_X m k)
  else if op =? Op.Ldx .| Op.Mem .| Op.W then imem_to r (set_X m) m k
  else if op =? Op.Ldx .| Op.Len .| Op.W then ICont r (set_X m (wrap32 (Z.of_nat (length inp))))
  else if op =? Op.Ldx .| Op.Msh .| Op.B then
    imark r k 1 (load8 inp k) (λ v, set_X m (wrap32 (4 * (v .& 0xf))))
  else if op =? Op.St then imem_store r m k (mA m)
  else if op =? Op.Stx then imem_store r m k (mX m)
  else if op =? Op.Alu .| Op.Add .| Op.K then ICont r (set_A m (wrap32 (mA m + k)))
  else if op =? Op.Alu .| Op.Add .| Op.X then ICont r (set_A m (wrap32 (mA m + mX m)))
  else if op =? Op.Alu .| Op.Sub .| Op.K then ICont r (set_A m (wrap32 (mA m - k)))
  else if op =? Op.Alu .| Op.Sub .| Op.X then ICont r (set_A m (wrap32 (mA m - mX m)))
  else if op =? Op.Alu .| Op.Mul .| Op.K then ICont r (set_A m (wrap32 (mA m * k)))
  else if op =? Op.Alu .| Op.Mul .| Op.X then ICont r (set_A m (wrap32 (mA m * mX m)))
  else if op =? Op.Alu .| Op.Div .| Op.K then
    if k =? 0 then ICrash else ICont r (set_A m (mA m / k))
  else if op =? Op.Alu .| Op.Div .| Op.X then
    if mX m =? 0 then IFault DivisionByZero else ICont r (set_A m (mA m / mX m))
  else if op =? Op.Alu .| Op.Or .| Op.K then ICont r (set_A m (mA m .| k))
  else if op =? Op.Alu .| Op.Or .| Op.X then ICont r (set_A m (mA m .| mX m))
  else if op =? Op.Alu .| Op.And .| Op.K then ICont r (set_A m (mA m .& k))
  else if op =? Op.Alu .| Op.And .| Op.X then ICont r (set_A m (mA m .& mX m))
  else if op =? Op.Alu .| Op.Lsh .| Op.K then ICont r (set_A m (shl32 (mA m) k))
  else if op =? Op.Alu .| Op.Lsh .| Op.X then ICont r (set_A m (shl32 (mA m) (mX m)))
  else if op =? Op.Alu .| Op.Rsh .| Op.K then ICont r (set_A m (shr32 (mA m) k))
  else if op =? Op.Alu .| Op.Rsh .| Op.X then ICont r (set_A m (shr32 (mA m) (mX m)))
  else if op =? Op.Alu .| Op.Neg then ICont r (set_A m (wrap32 (- mA m)))
  else if op =? Op.Alu .| Op.Mod .| Op.K then
    if k =? 0 then ICrash else ICont r (set_A m (mA m mod k))
  else if op =? Op.Alu .| Op.Mod .| Op.X then
    if mX m =? 0 then IFault DivisionByZero else ICont r (set_A m (mA m mod mX m))
  else if op =? Op.Alu .| Op.Xor .| Op.K then ICont r (set_A m (Z.lxor (mA m) k))
  else if op =? Op.Alu .| Op.Xor .| Op.X then ICont r (set_A m (Z.lxor (mA m) (mX m)))
  else if op =? Op.Jmp .| Op.Ja then IJumpBy (Z.to_nat k)
  else if op =? Op.Jmp .| Op.Jeq .| Op.K then ijump i (mA m =? k)
  else if op =? Op.Jmp .| Op.Jeq .| Op.X then ijump i (mA m =? mX m)
  else if op =? Op.Jmp .| Op.Jgt .| Op.K then ijump i (mA m >? k)
  else if op =? Op.Jmp .| Op.Jgt .| Op.X then ijump i (mA m >? mX m)
  else if op =? Op.Jmp .| Op.Jge .| Op.K then ijump i (mA m >=? k)
  else if op =? Op.Jmp .| Op.Jge .| Op.X then ijump i (mA m >=? mX m)
  else if op =? Op.Jmp .| Op.Jset .| Op.K then ijump i (negb (mA m .& k =? 0))
  else if op =? Op.Jmp .| Op.Jset .| Op.X then ijump i (negb (mA m .& mX m =? 0))
  else if op =? Op.Ret .| Op.K then IReturn k
  else if op =? Op.Ret .| Op.A then IReturn (mA m)
  else if op =? Op.Misc .| Op.Tax then ICont r (set_A m (mX m))
  else if op =? Op.Misc .| Op.Txa then ICont r (set_X m (mA m))
  else IFault InvalidOpcode.

(** The returned pair of metrics and error, a panic, or no answer within the fuel. *)
Inductive instr_result : Type :=
  | IResult (r : ExecutionMetrics) (err : option Error)
  | IPanicked
  | IOutOfFuel.

Fixpoint instr_loop (e : Endianness) (inp : Input) (p : list Instruction)
    (fuel : nat) (pc : nat) (r : ExecutionMetrics) (m : machine) : instr_result :=
  match fuel with
  | O => IOutOfFuel
  | S fuel' =>
      match p !! pc with
      | None => IResult r (Some (mkError InvalidEndOfProgram pc))
      | Some i =>
          let r := cover r pc in
          match instr_ins e inp i r m with
          | ICont r' m' => instr_loop e inp p fuel' (S pc) r' m'
          | IJumpBy off => instr_loop e inp p fuel' (S (pc + off)) r m
          | IReturn v => IResult (set_ReturnValue r v) None
          | IFault c => IResult r (Some (mkError c pc))
          | ICrash => IPanicked
          end
      end
  end.

Definition metrics0 (p : list Instruction) (inp : Input) : ExecutionMetrics :=
  mkMetrics 0 (replicate (length p) false) (replicate (length inp) false).

Definition InstrumentedExec (e : Endianness) (p : list Instruction) (inp : Input) : instr_result :=
  instr_loop e inp p (S (length p)) 0 (metrics0 p inp) machine0.

(** ** The text of the metrics *)

Record intRange : Type := mkRange { from : Z; to : Z }.

(** The loop of [getRanges]: [i] is the index of the head of [s]; [-1] is no open range. *)
Fixpoint ranges_loop (s : list bool) (i firstTrueIndex : Z) (acc : list intRange)
    : list intRange * Z :=
  match s with
  | [] => (acc, firstTrueIndex)
  | true :: s' => ranges_loop s' (i + 1) (if firstTrueIndex =? -1 then i else firstTrueIndex) acc
  | false :: s' =>
      if negb (firstTrueIndex =? -1)
      then ranges_loop s' (i + 1) (-1) (acc ++ [mkRange firstTrueIndex (i - 1)])
      else ranges_loop s' (i + 1) firstTrueIndex acc
  end.

Definition getRanges (s : list bool) : list intRange :=
  let '(acc, firstTrueIndex) := ranges_loop s 0 (-1) [] in
  if negb (firstTrueIndex =? -1)
  then acc ++ [mkRange firstTrueIndex (Z.of_nat (length s) - 1)] else acc.

Local Open Scope string_scope.

Definition addRangeString (sb : string) (rng : intRange) : string :=
  if (from rng =? to rng)%Z then sb +:+ pretty (from rng)
  else sb +:+ pretty (from rng) +:+ "-" +:+ pretty (to rng).

Definition ranges (s : list bool) : string :=
  match s with
  | [] => "empty"
  | _ =>
      if negb (existsb id s) then "none"
      else if forallb id s then "all"
      else
        (foldl (λ '(sb, i) rng,
           (addRangeString (if negb (i =? 0)%nat then sb +:+ "," else sb) rng, S i))
           ("", 0%nat) (getRanges s)).1
  end.

Definition metrics_String (r : ExecutionMetrics) : string :=
  let executedInstructions := Z.of_nat (length (filter (λ c, c = true) (Coverage r))) in
  "returned " +:+ pretty (ReturnValue r) +:+ ", covered " +:+ pretty executedInstructions +:+
  "/" +:+ pretty (Z.of_nat (length (Coverage r))) +:+ " instructions (" +:+
  ranges (Coverage r) +:+ "), read input bytes " +:+ ranges (InputAccessed r) +:+ " (" +:+
  pretty (Z.of_nat (length (InputAccessed r))) +:+ " total input bytes)".

Local Close Scope string_scope.

(** ** Marked bytes *)

Local Open Scope nat_scope.

Lemma mark_bytes_length l off n : length (mark_bytes l off n) = length l.
Proof. revert l off. induction n as [|n IH]; intros l off; simpl; [done|]. by rewrite IH, length_insert. Qed.

Lemma mark_bytes_mono l off n k : l !! k = Some true → mark_bytes l off n !! k = Some true.
Proof.
  revert l off. induction n as [|n IH]; intros l off Hk; simpl; [done|]. apply IH.
  destruct (decide (off = k)) as [->|]; [|by rewrite list_lookup_insert_ne].
  rewrite list_lookup_insert_eq; [done|by eapply lookup_lt_Some].
Qed.

Lemma mark_bytes_marked l off n k :
  off ≤ k < off + n → off + n ≤ length l → mark_bytes l off n !! k = Some true.
Proof.
  revert l off. induction n as [|n IH]; intros l off Hk Hl; simpl; [lia|].
  destruct (decide (k = off)) as [->|].
  - apply mark_bytes_mono. rewrite list_lookup_insert_eq; [done|lia].
  - apply IH; [lia|]. rewrite length_insert. lia.
Qed.

(** [r'] has all the marks of [r]. *)
Definition marks_le (r r' : ExecutionMetrics) : Prop :=
  length (InputAccessed r') = length (InputAccessed r) ∧
  ∀ k, InputAccessed r !! k = Some true → InputAccessed r' !! k = Some true.

#[export] Instance marks_le_preorder : PreOrder marks_le.
Proof.
  split; [by intros r; split|]. intros r1 r2 r3 [L1 H1] [L2 H2]. split; [congruence|auto].
Qed.

(** The inputs agree on the marked bytes. *)
Definition agree (r : ExecutionMetrics) (inp inp' : Input) : Prop :=
  length inp' = length inp ∧ ∀ k, InputAccessed r !! k = Some true → inp' !! k = inp !! k.

Lemma agree_le r r' inp inp' : marks_le r r' → agree r' inp inp' → agree r inp inp'.
Proof. intros [_ H] [L A]. split; auto. Qed.

Lemma markInputRead_spec r off n (len : nat) :
  (0 <= off)%Z → length (InputAccessed r) = len → (off + Z.of_nat n <= Z.of_nat len)%Z →
  ∃ r', markInputRead r off n = Some r' ∧ Coverage r' = Coverage r ∧ marks_le r r' ∧
    ∀ inp inp', agree r' inp inp' → ∀ k, k < n →
      byte_at inp' (Z.to_nat off + k) = byte_at inp (Z.to_nat off + k).
Proof.
  intros Ho Hl Hn. unfold markInputRead.
  destruct (off + Z.of_nat n >? Z.of_nat (length (InputAccessed r)))%Z eqn:E; [to_prop; lia|].
  eexists. split; [done|]. split; [done|]. split.
  - split; simpl; [by rewrite mark_bytes_length|]. intros k. apply mark_bytes_mono.
  - intros inp inp' [_ HA] k Hk. unfold byte_at. f_equal. apply HA. simpl.
    apply mark_bytes_marked; lia.
Qed.

(** ** One instruction *)

Section InstrIns.
Context (e : Endianness) (inp : Input) (i : Instruction) (m : machine).

(** The instrumented instruction has the effect of the plain one, on every input that agrees
    on the bytes marked so far, keeps the coverage and adds to the marks. *)
Definition same_effect (r : ExecutionMetrics) (eff : instr_effect) (plain : Input → effect) : Prop :=
  match eff with
  | ICont r' m' => Coverage r' = Coverage r ∧ marks_le r r' ∧
      ∀ inp', agree r' inp inp' → plain inp' = Cont m'
  | IJumpBy off => ∀ inp', agree r inp inp' → plain inp' = JumpBy off
  | IReturn v => ∀ inp', agree r inp inp' → plain inp' = Return v
  | IFault c => ∀ inp', agree r inp inp' → plain inp' = Fault c
  | ICrash => ∀ inp', agree r inp inp' → plain inp' = Crash
  end.

Lemma same_cont r m' : same_effect r (ICont r m') (λ _, Cont m').
Proof. by simpl. Qed.

Lemma same_jump r cond : same_effect r (ijump i cond) (λ _, conditionalJumpOffset i cond).
Proof. by destruct cond. Qed.

Lemma same_mem r set k : same_effect r (imem_to r set m k) (λ _, mem_to set m k).
Proof. unfold imem_to, mem_to. by destruct (mM m !! Z.to_nat k). Qed.

Lemma same_store r k v : same_effect r (imem_store r m k v) (λ _, mem_store m k v).
Proof. unfold imem_store, mem_store. by case_if. Qed.

(** A load of [n] bytes that only depends on them and on the length of the input. *)
Definition loads (load : Input → Z → option Z) (n : nat) : Prop :=
  ∀ i1 off, match load i1 off with
    | None => ∀ i2, length i2 = length i1 → load i2 off = None
    | Some v => (off + Z.of_nat n <= Z.of_nat (length i1))%Z ∧
        ∀ i2, length i2 = length i1 →
          (∀ k, k < n → byte_at i2 (Z.to_nat off + k) = byte_at i1 (Z.to_nat off + k)) →
          load i2 off = Some v
    end.

Lemma same_load r load n off set :
  loads load n → (0 <= off)%Z → length (InputAccessed r) = length inp →
  same_effect r (imark r off n (load inp off) set) (λ inp', load_to set (load inp' off)).
Proof.
  intros HL Ho Hl. unfold imark. specialize (HL inp off).
  destruct (load inp off) as [v|]; simpl.
  - destruct HL as [Hb Hv]. destruct (markInputRead_spec r off n _ Ho Hl Hb) as (r' & -> & Hc & Hm & HA).
    split; [done|]. split; [done|]. intros inp' Hag. rewrite (Hv inp'); [done|apply Hag|].
    by apply HA.
  - intros inp' [Hlen _]. by rewrite HL.
Qed.

End InstrIns.

Lemma loads_32 e : loads (load32 e) 4.
Proof.
  intros i1 off. unfold load32. destruct (_ >? _)%Z eqn:E; to_prop.
  - intros i2 ->. by rewrite Z.gtb_ltb, (proj2 (Z.ltb_lt _ _)) by lia.
  - split; [lia|]. intros i2 -> Hb. rewrite Z.gtb_ltb, (proj2 (Z.ltb_ge _ _)) by lia.
    unfold uint32_at. by destruct e; rewrite !Hb by lia.
Qed.

Lemma loads_16 e : loads (load16 e) 2.
Proof.
  intros i1 off. unfold load16. destruct (_ >? _)%Z eqn:E; to_prop.
  - intros i2 ->. by rewrite Z.gtb_ltb, (proj2 (Z.ltb_lt _ _)) by lia.
  - split; [lia|]. intros i2 -> Hb. rewrite Z.gtb_ltb, (proj2 (Z.ltb_ge _ _)) by lia.
    unfold uint16_at. by destruct e; rewrite !Hb by lia.
Qed.

Lemma loads_8 : loads load8 1.
Proof.
  intros i1 off. unfold load8. destruct (_ >? _)%Z eqn:E; to_prop.
  - intros i2 ->. by rewrite Z.gtb_ltb, (proj2 (Z.ltb_lt _ _)) by lia.
  - split; [lia|]. intros i2 -> Hb. rewrite Z.gtb_ltb, (proj2 (Z.ltb_ge _ _)) by lia.
    specialize (Hb 0 ltac:(lia)). rewrite !Nat.add_0_r in Hb. by rewrite Hb.
Qed.

#[export] Hint Resolve same_cont same_jump same_mem same_store loads_32 loads_16 loads_8 : bpf.

Lemma instr_ins_spec e inp i r m :
  (0 <= KVal i)%Z → length (InputAccessed r) = length inp →
  same_effect inp r (instr_ins e inp i r m) (λ inp', exec_ins e inp' i m).
Proof.
  intros Hk Hl. assert (Hind : (0 <= wrap32 (mX m + KVal i))%Z) by apply wrap32_range.
  unfold instr_ins, exec_ins. cbv zeta.
  repeat match goal with
  | |- same_effect _ _ (if ?c then _ else _) _ =>
      destruct c; [solve [eauto using same_load with bpf
        | by apply (same_load inp r (load32 e) 4); auto with bpf
        | by apply (same_load inp r (load16 e) 2); auto with bpf
        | by apply (same_load inp r load8 1); auto with bpf
        | done
        | case_if; done
        | intros inp' [-> _]; done
        | split_and!; [done|done|intros inp' [-> _]; done] ]|]
  end; done.
Qed.

(** ** Whole runs *)

Definition plain_result (r : ExecutionMetrics) (err : option Error) : exec_result :=
  match err with
  | None => Value (ReturnValue r)
  | Some err => Err err
  end.

Definition nonneg (p : list Instruction) : Prop := Forall (λ i, (0 <= KVal i)%Z) p.

Lemma agree_refl r inp : agree r inp inp.
Proof. by split. Qed.

Lemma marks_le_cover r pc : marks_le (cover r pc) r ∧ marks_le r (cover r pc).
Proof. by repeat split. Qed.

Lemma instr_loop_spec e inp p fuel pc r m :
  nonneg p → length (InputAccessed r) = length inp →
  match instr_loop e inp p fuel pc r m with
  | IResult r' err => marks_le r r' ∧
      ∀ inp', agree r' inp inp' → exec_loop e inp' p fuel pc m = plain_result r' err
  | IPanicked => exec_loop e inp p fuel pc m = Panicked
  | IOutOfFuel => exec_loop e inp p fuel pc m = OutOfFuel
  end.
Proof.
  intros Hp. revert pc r m. induction fuel as [|fuel IH]; intros pc r m Hl; [done|]. simpl.
  destruct (p !! pc) as [i|] eqn:Hi; [|done].
  assert (Hk : (0 <= KVal i)%Z) by exact (Forall_lookup_1 _ _ _ _ Hp Hi).
  pose proof (instr_ins_spec e inp i (cover r pc) m Hk Hl) as Hs.
  destruct (marks_le_cover r pc) as [_ Hc].
  destruct (instr_ins e inp i (cover r pc) m) as [r1 m1|off|v|c|]; simpl in Hs.
  - destruct Hs as (_ & Hm & Hs). assert (Hl1 : length (InputAccessed r1) = length inp)
      by (rewrite (proj1 Hm); done).
    specialize (IH (S pc) r1 m1 Hl1). pose proof (Hs inp (agree_refl _ _)) as Hs0.
    destruct (instr_loop e inp p fuel (S pc) r1 m1) as [r' err| |]; [|by rewrite Hs0..].
    destruct IH as [Hm' Hr]. split; [by etrans; [|exact Hm']; etrans|].
    intros inp' HA. rewrite (Hs inp'); [by apply Hr|exact (agree_le _ _ _ _ Hm' HA)].
  - specialize (IH (S (pc + off)) (cover r pc) m Hl). pose proof (Hs inp (agree_refl _ _)) as Hs0.
    destruct (instr_loop e inp p fuel (S (pc + off)) (cover r pc) m) as [r' err| |];
      [|by rewrite Hs0..].
    destruct IH as [Hm' Hr]. split; [by etrans|].
    intros inp' HA. rewrite (Hs inp'); [by apply Hr|exact (agree_le _ _ _ _ Hm' HA)].
  - split; [done|]. intros inp' HA. by rewrite (Hs inp').
  - split; [done|]. intros inp' HA. by rewrite (Hs inp').
  - by rewrite (Hs inp (agree_refl _ _)).
Qed.

(** The program counters of the instructions a run executes. *)
Fixpoint trace (e : Endianness) (inp : Input) (p : list Instruction)
    (fuel : nat) (pc : nat) (m : machine) : list nat :=
  match fuel with
  | O => []
  | S fuel' =>
      match p !! pc with
      | None => []
      | Some i =>
          pc :: match exec_ins e inp i m with
                | Cont m' => trace e inp p fuel' (S pc) m'
                | JumpBy off => trace e inp p fuel' (S (pc + off)) m
                | _ => []
                end
      end
  end.

Lemma trace_bounds e inp p fuel pc m k : k ∈ trace e inp p fuel pc m → pc ≤ k < length p.
Proof.
  revert pc m. induction fuel as [|fuel IH]; intros pc m; simpl; [by intros ?%elem_of_nil|].
  destruct (p !! pc) as [i|] eqn:Hi; [|by intros ?%elem_of_nil]. apply lookup_lt_Some in Hi.
  intros [->|Hk]%elem_of_cons; [lia|].
  destruct (exec_ins e inp i m) as [m'|off| | |]; try (by apply elem_of_nil in Hk);
    apply IH in Hk; lia.
Qed.

Lemma trace_NoDup e inp p fuel pc m : NoDup (trace e inp p fuel pc m).
Proof.
  revert pc m. induction fuel as [|fuel IH]; intros pc m; simpl; [constructor|].
  destruct (p !! pc) as [i|] eqn:Hi; [|constructor]. constructor.
  - destruct (exec_ins e inp i m) as [m'|off| | |]; try apply not_elem_of_nil;
      intros Hk%trace_bounds; lia.
  - destruct (exec_ins e inp i m) as [m'|off| | |]; (constructor || apply IH).
Qed.

(** Marking some indexes of a list of flags. *)
Definition set_flags (l : list bool) (ks : list nat) : list bool :=
  foldl (λ c k, <[k := true]> c) l ks.

Lemma instr_loop_coverage e inp p fuel pc r m :
  nonneg p → length (InputAccessed r) = length inp →
  match instr_loop e inp p fuel pc r m with
  | IResult r' _ => Coverage r' = set_flags (Coverage r) (trace e inp p fuel pc m)
  | _ => True
  end.
Proof.
  intros Hp. revert pc r m. induction fuel as [|fuel IH]; intros pc r m Hl; [done|]. simpl.
  destruct (p !! pc) as [i|] eqn:Hi; [|done].
  assert (Hk : (0 <= KVal i)%Z) by exact (Forall_lookup_1 _ _ _ _ Hp Hi).
  pose proof (instr_ins_spec e inp i (cover r pc) m Hk Hl) as Hs.
  destruct (instr_ins e inp i (cover r pc) m) as [r1 m1|off|v|c|]; simpl in Hs; [| | | |done].
  - destruct Hs as (Hc & Hm & Hs). rewrite (Hs inp (agree_refl _ _)).
    assert (Hl1 : length (InputAccessed r1) = length inp) by (rewrite (proj1 Hm); done).
    specialize (IH (S pc) r1 m1 Hl1). by rewrite Hc in IH.
  - rewrite (Hs inp (agree_refl _ _)). by apply (IH _ (cover r pc)).
  - by rewrite (Hs inp (agree_refl _ _)).
  - by rewrite (Hs inp (agree_refl _ _)).
Qed.

Lemma set_flags_length l ks : length (set_flags l ks) = length l.
Proof. revert l. induction ks as [|k ks IH]; intros l; simpl; [done|]. by rewrite IH, length_insert. Qed.

Lemma set_flags_lookup l ks k :
  (∀ j, j ∈ ks → j < length l) →
  set_flags l ks !! k = Some true ↔ l !! k = Some true ∨ k ∈ ks.
Proof.
  revert l. induction ks as [|j ks IH]; intros l Hb; simpl.
  - rewrite elem_of_nil. naive_solver.
  - assert (j < length l) by (apply Hb, list_elem_of_here).
    rewrite IH by (intros t Ht; rewrite length_insert; by apply Hb, list_elem_of_further).
    rewrite elem_of_cons. destruct (decide (k = j)) as [->|].
    + rewrite list_lookup_insert_eq by done. naive_solver.
    + rewrite list_lookup_insert_ne by done. naive_solver.
Qed.

Definition covered (l : list bool) : nat := length (filter (λ c, c = true) l).

Lemma covered_insert l k :
  k < length l → l !! k ≠ Some true → covered (<[k := true]> l) = S (covered l).
Proof.
  unfold covered. revert k. induction l as [|b l IH]; intros [|k] Hk Hn; simpl in *; try lia.
  - destruct b; [done|]. done.
  - rewrite !filter_cons. case_decide; simpl; rewrite IH by (done || lia); done.
Qed.

Lemma covered_set_flags l ks :
  NoDup ks → (∀ k, k ∈ ks → k < length l ∧ l !! k ≠ Some true) →
  covered (set_flags l ks) = covered l + length ks.
Proof.
  revert l. induction ks as [|k ks IH]; intros l Hnd Hk; simpl; [lia|].
  apply NoDup_cons in Hnd as [Hn Hnd]. destruct (Hk k (list_elem_of_here _ _)).
  rewrite IH; [rewrite covered_insert by done; lia|done|].
  intros j Hj. destruct (Hk j) as [? ?]; [by apply list_elem_of_further|].
  rewrite length_insert, list_lookup_insert_ne; [done|]. by intros ->.
Qed.

Lemma covered_replicate n : covered (replicate n false) = 0.
Proof. unfold covered. by induction n. Qed.

Lemma nonneg_range p : Forall ins_range p → nonneg p.
Proof. intros H. eapply Forall_impl; [done|]. intros i (_ & _ & _ & [? _]). done. Qed.

Lemma InstrumentedExec_spec e p inp :
  Forall ins_range p →
  match InstrumentedExec e p inp with
  | IResult r err => length (InputAccessed r) = length inp ∧
      ∀ inp', agree r inp inp' → Exec e p inp' = plain_result r err
  | IPanicked => Exec e p inp = Panicked
  | IOutOfFuel => Exec e p inp = OutOfFuel
  end.
Proof.
  intros Hr. unfold InstrumentedExec, Exec.
  pose proof (instr_loop_spec e inp p (S (length p)) 0 (metrics0 p inp) machine0
    (nonneg_range p Hr) (length_replicate _ _)) as H.
  destruct (instr_loop _ _ _ _ _ _ _) as [r err| |]; [|done..].
  destruct H as [[Hl _] H]. split; [by rewrite Hl; apply length_replicate|done].
Qed.

(** ** Ranges *)

Definition in_ranges (l : list intRange) (k : Z) : Prop := ∃ r, r ∈ l ∧ (from r <= k <= to r)%Z.

Lemma in_ranges_app l1 l2 k : in_ranges (l1 ++ l2) k ↔ in_ranges l1 k ∨ in_ranges l2 k.
Proof. unfold in_ranges. setoid_rewrite elem_of_app. naive_solver. Qed.

Lemma in_ranges_one a b k : in_ranges [mkRange a b] k ↔ (a <= k <= b)%Z.
Proof.
  unfold in_ranges. setoid_rewrite list_elem_of_singleton. split; [naive_solver|].
  intros H. by exists (mkRange a b).
Qed.

(** The open range, closed at [last]. *)
Definition close_range (first last : Z) : list intRange :=
  if negb (first =? -1)%Z then [mkRange first last] else [].

(** The indexes from [i] on of the flags that are set. *)
Definition flag_at (s : list bool) (i k : Z) : Prop :=
  ∃ j : nat, s !! j = Some true ∧ k = (i + Z.of_nat j)%Z.

Lemma flag_at_cons b s i k : flag_at (b :: s) i k ↔ (b = true ∧ k = i) ∨ flag_at s (i + 1) k.
Proof.
  unfold flag_at. split.
  - intros ([|j] & Hj & ->); simpl in Hj; [left; split; [congruence|lia]|right].
    exists j. split; [done|lia].
  - intros [[-> ->]|(j & Hj & ->)]; [exists 0; split; [done|lia]|exists (S j); split; [done|lia]].
Qed.

Lemma ranges_loop_spec s i first acc k :
  (first = -1 ∨ 0 <= first < i)%Z → (0 <= i)%Z →
  let '(out, f) := ranges_loop s i first acc in
  in_ranges (out ++ close_range f (i + Z.of_nat (length s) - 1)) k ↔
  in_ranges acc k ∨ (first ≠ -1 ∧ first <= k < i)%Z ∨ flag_at s i k.
Proof.
  revert i first acc. induction s as [|b s IH]; intros i first acc Hf Hi; simpl.
  - rewrite in_ranges_app. unfold close_range.
    assert (¬ flag_at [] i k) by (intros (j & Hj & _); by rewrite lookup_nil in Hj).
    destruct (first =? -1)%Z eqn:E; to_prop; simpl.
    + unfold in_ranges at 2. setoid_rewrite elem_of_nil. naive_solver.
    + rewrite in_ranges_one. split; [intros [?|?]|intros [?|[?|?]]]; auto; try done; right; lia.
  - assert (Hn : (i + Z.of_nat (S (length s)) - 1 =
      i + 1 + Z.of_nat (length s) - 1)%Z) by lia.
    destruct b.
    + specialize (IH (i + 1)%Z (if (first =? -1)%Z then i else first) acc).
      destruct (ranges_loop _ _ _ _) as [out f].
      rewrite flag_at_cons, Hn, IH; [|case_if; to_prop; lia|lia].
      destruct (first =? -1)%Z eqn:E; to_prop.
      * split; [intros [?|[?|?]]|intros [?|[?|[[_ ?]|?]]]]; auto; try lia.
      * split; [intros [?|[?|?]]|intros [?|[?|[[_ ?]|?]]]]; auto; try (right; left; lia).
        destruct (decide (k = i)) as [->|]; [auto|]. right. left. lia.
    + destruct (first =? -1)%Z eqn:E; to_prop; simpl.
      * specialize (IH (i + 1)%Z first acc). destruct (ranges_loop _ _ _ _) as [out f].
        rewrite flag_at_cons, Hn, IH by lia. naive_solver lia.
      * specialize (IH (i + 1)%Z (-1)%Z (acc ++ [mkRange first (i - 1)])).
        destruct (ranges_loop _ _ _ _) as [out f].
        rewrite flag_at_cons, Hn, IH by lia. rewrite in_ranges_app, in_ranges_one.
        split; [intros [[?|?]|[?|?]]|intros [?|[?|[[? _]|?]]]]; auto; try done; lia.
Qed.

(** ** Properties *)

(** [InstrumentedExec] gives the result of [Exec], error included: the comment on it says it
    should return equivalent results.  It panics or runs on exactly when [Exec] does, and its
    range check on marked bytes never fires. *)
Theorem InstrumentedExec_Exec e p inp :
  Forall ins_range p →
  Exec e p inp =
  match InstrumentedExec e p inp with
  | IResult r None => Value (ReturnValue r)
  | IResult _ (Some err) => Err err
  | IPanicked => Panicked
  | IOutOfFuel => OutOfFuel
  end.
Proof.
  intros Hr. pose proof (InstrumentedExec_spec e p inp Hr) as H.
  destruct (InstrumentedExec e p inp) as [r [err|]| |]; [..|done|done];
    destruct H as [_ H]; by rewrite (H inp (agree_refl _ _)).
Qed.

Lemma InstrumentedExec_Exec_witness :
  Exec LittleEndian sample_filter [59; 0; 0; 0; 62; 0; 0; 192]%Z =
  match InstrumentedExec LittleEndian sample_filter [59; 0; 0; 0; 62; 0; 0; 192]%Z with
  | IResult r None => Value (ReturnValue r)
  | IResult _ (Some err) => Err err
  | IPanicked => Panicked
  | IOutOfFuel => OutOfFuel
  end.
Proof. apply InstrumentedExec_Exec, sample_filter_range. Defined.

(** C25. The recorded input bytes are all that matters: if [InstrumentedExec] ends on [inp] with
    the metrics [r], then [Exec] has the same result (value, or error with its program counter)
    on every input of the same length that agrees with [inp] on the bytes [r] marks as read. *)
Theorem InstrumentedExec_input_dependence e p inp inp' r err :
  Forall ins_range p → InstrumentedExec e p inp = IResult r err →
  length inp' = length inp → (∀ k, InputAccessed r !! k = Some true → inp' !! k = inp !! k) →
  Exec e p inp' = match err with None => Value (ReturnValue r) | Some err => Err err end.
Proof.
  intros Hr HI Hl HA. pose proof (InstrumentedExec_spec e p inp Hr) as H. rewrite HI in H.
  destruct H as [_ H]. by apply H.
Qed.

Lemma InstrumentedExec_input_dependence_witness :
  Exec LittleEndian sample_filter [59; 0; 0; 0; 62; 0; 0; 192; 5]%Z = Value 0x50001.
Proof.
  refine (InstrumentedExec_input_dependence LittleEndian sample_filter
    [59; 0; 0; 0; 62; 0; 0; 192; 4]%Z [59; 0; 0; 0; 62; 0; 0; 192; 5]%Z
    (mkMetrics 0x50001 [true; true; false; true; true; true; false]
       [true; true; true; true; true; true; true; true; false]) None
    sample_filter_range _ _ _); [vm_compute; reflexivity|reflexivity|].
  intros k Hk. do 8 (destruct k as [|k]; [reflexivity|]). destruct k as [|k]; discriminate Hk.
Defined.

(** The coverage marks exactly the executed instructions, and the number of marks is the
    number of instructions executed, since none runs twice. *)
Theorem InstrumentedExec_coverage e p inp r err :
  Forall ins_range p → InstrumentedExec e p inp = IResult r err →
  let executed := trace e inp p (S (length p)) 0 machine0 in
  length (Coverage r) = length p ∧ (∀ k, Coverage r !! k = Some true ↔ k ∈ executed) ∧
  covered (Coverage r) = length executed.
Proof.
  intros Hr HI executed.
  pose proof (instr_loop_coverage e inp p (S (length p)) 0 (metrics0 p inp) machine0
    (nonneg_range p Hr) (length_replicate _ _)) as H.
  unfold InstrumentedExec in HI. rewrite HI in H. cbn [Coverage metrics0] in H.
  fold executed in H. rewrite H, set_flags_length, length_replicate. split; [done|].
  assert (Hb : ∀ k, k ∈ executed → k < length (replicate (length p) false))
    by (intros k Hk; rewrite length_replicate; apply trace_bounds in Hk; lia).
  assert (Hf : ∀ k, replicate (length p) false !! k ≠ Some true)
    by (intros k [? _]%lookup_replicate_1; done).
  split.
  - intros k. rewrite set_flags_lookup by done. naive_solver.
  - rewrite covered_set_flags; [by rewrite covered_replicate|apply trace_NoDup|naive_solver].
Qed.

Lemma InstrumentedExec_coverage_witness :
  let executed := trace LittleEndian [59; 0; 0; 0; 62; 0; 0; 192]%Z sample_filter 8 0 machine0 in
  covered [true; true; false; true; true; true; false] = length executed.
Proof.
  refine (proj2 (proj2 (InstrumentedExec_coverage LittleEndian sample_filter
    [59; 0; 0; 0; 62; 0; 0; 192]%Z
    (mkMetrics 0x50001 [true; true; false; true; true; true; false]
       [true; true; true; true; true; true; true; true]) None sample_filter_range _))).
  vm_compute. reflexivity.
Defined.

(** The ranges printed by [ExecutionMetrics.String] cover exactly the flags that are set. *)
Theorem getRanges_exact s (k : nat) :
  in_ranges (getRanges s) (Z.of_nat k) ↔ s !! k = Some true.
Proof.
  unfold getRanges. pose proof (ranges_loop_spec s 0 (-1) [] (Z.of_nat k)) as H.
  destruct (ranges_loop s 0 (-1) []) as [acc f]. simpl in H.
  unfold close_range in H. transitivity (flag_at s 0 (Z.of_nat k)).
  - assert (Hn : ¬ in_ranges [] (Z.of_nat k)) by (intros (r & Hr & _); by apply elem_of_nil in Hr).
    destruct (f =? -1)%Z; simpl in *; rewrite ?app_nil_r in H; rewrite H by lia; naive_solver.
  - unfold flag_at. split; [|by exists k].
    intros (j & Hj & Ek). by replace k with j by lia.
Qed.
