(* ===== verification/Optimizer.v ===== *)
(** * The BPF bytecode optimizer (src/pkg/bpf/optimizer.go)

    Each pass returns the new instructions and whether it changed anything; [None] is a Go
    run-time panic (an index out of range, an explicit [panic]) or an exhausted loop fuel,
    which OptFacts.v shows never happens on a well-formed program.

    Go iterates over a map in an unspecified order.  The pass
    [optimizeJumpsToSmallestSetOfReturns] does so once, and takes the order as an argument:
    a function that lists the entries of the map. *)

From stdpp Require Import base numbers decidable gmap list.
From S2P Require Import Prelude Instr Machine.

Local Open Scope Z_scope.
Local Open Scope bits_scope.

Definition maxConditionalJumpOffset : Z := Z.shiftl 1 8 - 1.

Definition maxUnconditionalJumpOffset : Z := Z.shiftl 1 16 - 1.

(** The type of a pass. *)
Definition optimizerFunc : Type := list Instruction → option (list Instruction * bool).

(** [pc + int(off) + 1] *)
Definition target_of (pc : nat) (off : Z) : nat := S (pc + Z.to_nat off).

(** [for pc, ins := range insns { body }] where the body may overwrite [insns[pc]] and says
    whether it did. *)
Definition range_pass
    (body : nat → Instruction → list Instruction → option (list Instruction * bool))
    (insns : list Instruction) : option (list Instruction * bool) :=
  range_loop
    (λ pc '(l, changed),
      ins ← l !! pc; '(l', c) ← body pc ins l; Some (l', changed || c))
    (length insns) 0%nat (insns, false).

(** ** Jump rewriting *)

Definition optimizeConditionalJumps : optimizerFunc :=
  range_pass (λ pc ins insns,
    if negb (IsConditionalJump ins) then Some (insns, false)
    else
      jumpTrueIns ← insns !! target_of pc (JumpIfTrue ins);
      let finalJumpTrueOffset := JumpIfTrue ins + 1 + KVal jumpTrueIns in
      let '(ins, c1) :=
        if IsUnconditionalJump jumpTrueIns
           && (finalJumpTrueOffset <=? maxConditionalJumpOffset)
        then (set_JumpIfTrue ins (wrap8 finalJumpTrueOffset), true) else (ins, false) in
      jumpFalseIns ← insns !! target_of pc (JumpIfFalse ins);
      let finalJumpFalseOffset := JumpIfFalse ins + 1 + KVal jumpFalseIns in
      let '(ins, c2) :=
        if IsUnconditionalJump jumpFalseIns
           && (finalJumpFalseOffset <=? maxConditionalJumpOffset)
        then (set_JumpIfFalse ins (wrap8 finalJumpFalseOffset), true) else (ins, false) in
      Some (<[pc := ins]> insns, c1 || c2)).

Definition optimizeSameTargetConditionalJumps : optimizerFunc :=
  range_pass (λ pc ins insns,
    if negb (IsConditionalJump ins) then Some (insns, false)
    else if negb (JumpIfTrue ins =? JumpIfFalse ins) then Some (insns, false)
    else Some (<[pc := Jump (Op.Jmp .| Op.Ja) (JumpIfTrue ins) 0 0]> insns, true)).

Definition optimizeUnconditionalJumps : optimizerFunc :=
  range_pass (λ pc ins insns,
    if negb (IsUnconditionalJump ins) then Some (insns, false)
    else
      jumpIns ← insns !! target_of pc (KVal ins);
      if negb (IsUnconditionalJump jumpIns) then Some (insns, false)
      else
        let finalJumpOffset := KVal ins + 1 + KVal jumpIns in
        if finalJumpOffset >? maxUnconditionalJumpOffset then Some (insns, false)
        else Some (<[pc := set_K ins (wrap32 finalJumpOffset)]> insns, true)).

Definition optimizeJumpsToReturn : optimizerFunc :=
  range_pass (λ pc ins insns,
    if negb (IsUnconditionalJump ins) then Some (insns, false)
    else
      targetIns ← insns !! target_of pc (KVal ins);
      if negb (class targetIns =? Op.Ret) then Some (insns, false)
      else Some (<[pc := targetIns]> insns, true)).

(** ** Code removal *)

(** The new value of the instruction at [pc] once the instruction at [target] is gone. *)
Definition decrement_ins (pc target : nat) (ins : Instruction) : Instruction :=
  let beyond := λ off, (target <? target_of pc off)%nat in
  if negb (IsJump ins) then ins
  else if IsUnconditionalJump ins then
    if beyond (KVal ins) then set_K ins (wrap32 (KVal ins - 1)) else ins
  else
    let ins := if beyond (JumpIfTrue ins)
               then set_JumpIfTrue ins (wrap8 (JumpIfTrue ins - 1)) else ins in
    if beyond (JumpIfFalse ins)
    then set_JumpIfFalse ins (wrap8 (JumpIfFalse ins - 1)) else ins.

Definition decrementJumps (insns : list Instruction) (target : nat)
    : option (list Instruction) :=
  range_loop (λ pc l, ins ← l !! pc; Some (<[pc := decrement_ins pc target ins]> l))
    target 0%nat insns.

(** One iteration of [codeRemoval.Apply]. *)
Definition remove_one (insns : list Instruction) (pc : nat) : option (list Instruction) :=
  if (pc <? length insns)%nat then decrementJumps (delete pc insns) pc else None.

Fixpoint remove_all (insns : list Instruction) (pcs : list nat) : option (list Instruction) :=
  match pcs with
  | [] => Some insns
  | pc :: pcs' => insns' ← remove_one insns pc; remove_all insns' pcs'
  end.

(** [codeRemoval.Apply], with the marked indexes [toRemove]: they are removed from the
    last to the first. *)
Definition removal_Apply (insns : list Instruction) (toRemove : list nat)
    : option (list Instruction * bool) :=
  match toRemove with
  | [] => Some (insns, false)
  | _ =>
      insns' ← remove_all insns (reverse (sort_slice Nat.leb toRemove));
      Some (insns', true)
  end.

Definition removeZeroInstructionJumps : optimizerFunc := λ insns,
  toRemove ← range_loop
    (λ pc marked,
      ins ← insns !! pc;
      if negb (IsUnconditionalJump ins) || negb (KVal ins =? 0) then Some marked
      else Some (marked ++ [pc]))
    (length insns) 0%nat [];
  removal_Apply insns toRemove.

(** The worklist loop of [removeDeadCode]: [cursors] is the queue. *)
Fixpoint mark_reachable (fuel : nat) (insns : list Instruction)
    (reachable : list bool) (cursors : list nat) : option (list bool) :=
  match cursors with
  | [] => Some reachable
  | cursor :: cursors =>
      match fuel with
      | O => None
      | S fuel' =>
          r ← reachable !! cursor;
          if (r : bool) then mark_reachable fuel' insns reachable cursors
          else
            ins ← insns !! cursor;
            let reachable := <[cursor := true]> reachable in
            let next :=
              if class ins =? Op.Ret then []
              else if class ins =? Op.Jmp then
                if IsUnconditionalJump ins then [target_of cursor (KVal ins)]
                else [target_of cursor (JumpIfTrue ins); target_of cursor (JumpIfFalse ins)]
              else [S cursor] in
            mark_reachable fuel' insns reachable (cursors ++ next)
      end
  end.

(** Every instruction is marked once and adds at most two cursors. *)
Definition reachable_fuel (insns : list Instruction) : nat := S (3 * length insns).

Definition removeDeadCode : optimizerFunc := λ insns,
  match insns with
  | [] => Some (insns, false)
  | _ =>
      reachable ← mark_reachable (reachable_fuel insns) insns
                    (replicate (length insns) false) [0%nat];
      toRemove ← range_loop
        (λ pc marked,
          r ← reachable !! pc; if (r : bool) then Some marked else Some (marked ++ [pc]))
        (length insns) 0%nat [];
      removal_Apply insns toRemove
  end.

(** ** Redundant loads *)

Definition add_edge (reverseWalk : list (gset nat)) (to from : nat)
    : option (list (gset nat)) :=
  s ← reverseWalk !! to; Some (<[to := {[ from ]} ∪ s]> reverseWalk).

Fixpoint add_edges (reverseWalk : list (gset nat)) (pc : nat) (offs : list JumpOffset)
    : option (list (gset nat)) :=
  match offs with
  | [] => Some reverseWalk
  | o :: offs' =>
      rw ← add_edge reverseWalk (target_of pc (Offset o)) pc; add_edges rw pc offs'
  end.

(** [reverseWalk]: for each instruction, the instructions that may pass control to it. *)
Definition reverse_walk (insns : list Instruction) : option (list (gset nat)) :=
  range_loop
    (λ pc rw,
      ins ← insns !! pc;
      if IsReturn ins then Some rw
      else if IsJump ins then add_edges rw pc (JumpOffsets ins)
      else add_edge rw (S pc) pc)
    (length insns) 0%nat (replicate (length insns) ∅).

(** The [walk] loop: the instruction that last modified [A], if it is unique. *)
Fixpoint walk_back (fuel : nat) (insns : list Instruction) (reverseWalk : list (gset nat))
    (beforePCs : gset nat) : option (option nat) :=
  match fuel with
  | O => None
  | S fuel' =>
      match elements beforePCs with
      | [] => Some None
      | [beforePC] =>
          ins ← insns !! beforePC;
          if negb (ModifiesRegisterA ins) then
            before ← reverseWalk !! beforePC; walk_back fuel' insns reverseWalk before
          else Some (Some beforePC)
      | _ => Some None
      end
  end.

Definition removeRedundantLoads : optimizerFunc := λ insns,
  reverseWalk ← reverse_walk insns;
  toRemove ← range_loop
    (λ pc marked,
      ins ← insns !! pc;
      if negb (class ins =? Op.Ld) then Some marked
      else
        before ← reverseWalk !! pc;
        lastModifiedA ← walk_back (S (length insns)) insns reverseWalk before;
        match lastModifiedA with
        | None => Some marked
        | Some b =>
            last ← insns !! b;
            if Equal ins last then Some (marked ++ [pc]) else Some marked
        end)
    (length insns) 0%nat [];
  removal_Apply insns toRemove.

(** ** Merging returns *)

Record jumpRewriteOperation : Type := mkRewriteOp {
  rw_pc : nat;
  rw_jumpType : JumpType;
  rw_rewriteTo : Z
}.

(** The rewrites one jump of the instruction at [pc] needs, when it goes to [fromPC];
    [None] when it cannot be rewritten. *)
Definition rewrite_target (pc fromPC : nat) (neededOffset off limit : Z) (jt : JumpType)
    : option (list jumpRewriteOperation) :=
  if (target_of pc off =? fromPC)%nat then
    if (neededOffset <? 0) || (neededOffset >? limit) then None
    else Some [mkRewriteOp pc jt neededOffset]
  else Some [].

Definition rewrites_at (pc fromPC toPC : nat) (ins : Instruction)
    : option (list jumpRewriteOperation) :=
  let neededOffset := Z.of_nat toPC - Z.of_nat pc - 1 in
  if IsConditionalJump ins then
    ops1 ← rewrite_target pc fromPC neededOffset (JumpIfTrue ins)
             maxConditionalJumpOffset JumpTrue;
    ops2 ← rewrite_target pc fromPC neededOffset (JumpIfFalse ins)
             maxConditionalJumpOffset JumpFalse;
    Some (ops1 ++ ops2)
  else if IsUnconditionalJump ins then
    rewrite_target pc fromPC neededOffset (KVal ins) maxUnconditionalJumpOffset JumpDirect
  else Some [].

(** The scan: [Some None] is the early [return false]. *)
Definition scan_rewrites (insns : list Instruction) (fromPC toPC : nat)
    : option (option (list jumpRewriteOperation)) :=
  range_loop
    (λ pc acc,
      match acc with
      | None => Some None
      | Some ops =>
          ins ← insns !! pc;
          match rewrites_at pc fromPC toPC ins with
          | None => Some None
          | Some new => Some (Some (ops ++ new))
          end
      end)
    fromPC 0%nat (Some []).

Definition apply_rewrite (insns : list Instruction) (op : jumpRewriteOperation)
    : option (list Instruction) :=
  ins ← insns !! rw_pc op;
  Some (<[rw_pc op :=
    match rw_jumpType op with
    | JumpTrue => set_JumpIfTrue ins (wrap8 (rw_rewriteTo op))
    | JumpFalse => set_JumpIfFalse ins (wrap8 (rw_rewriteTo op))
    | JumpDirect => set_K ins (wrap32 (rw_rewriteTo op))
    end]> insns).

Fixpoint apply_rewrites (insns : list Instruction) (ops : list jumpRewriteOperation)
    : option (list Instruction) :=
  match ops with
  | [] => Some insns
  | op :: ops' => insns' ← apply_rewrite insns op; apply_rewrites insns' ops'
  end.

Definition rewriteAllJumpsToReturn (insns : list Instruction) (fromPC toPC : nat)
    : option (list Instruction * bool) :=
  fromIns ← insns !! fromPC;
  toIns ← insns !! toPC;
  if negb (IsReturn fromIns) then None
  else if negb (IsReturn toIns) then None
  else if negb (Equal fromIns toIns) then None
  else
    scan ← scan_rewrites insns fromPC toPC;
    match scan with
    | None => Some (insns, false)
    | Some [] => Some (insns, false)
    | Some ops => insns' ← apply_rewrites insns ops; Some (insns', true)
    end.

Definition retRegisterA : Z := 0xaaaaaaaaaaaaaaaa.

(** The popularity of the return instruction at [pc], and whether it can be fallen
    through to. *)
Definition ret_popularity (insns : list Instruction) (pc : nat) : option (nat * bool) :=
  range_loop
    (λ pc2 '(popularity, fall),
      ins2 ← insns !! pc2;
      let hit := λ off, if (target_of pc2 off =? pc)%nat then 1%nat else 0%nat in
      if class ins2 =? Op.Ret then Some (popularity, fall)
      else if class ins2 =? Op.Jmp then
        if IsConditionalJump ins2 then
          Some ((popularity + hit (JumpIfTrue ins2) + hit (JumpIfFalse ins2))%nat, fall)
        else Some ((popularity + hit (KVal ins2))%nat, fall)
      else if (pc2 =? pc - 1)%nat then Some ((popularity + length insns)%nat, true)
      else Some (popularity, fall))
    pc 0%nat (0%nat, false).

Record returns : Type := mkReturns {
  retPopularity : list nat;
  retCanBeFallenThrough : list bool;
  retValueToPC : gmap Z (list nat)
}.

(** The first loop of [optimizeJumpsToSmallestSetOfReturns]. *)
Definition collect_returns (insns : list Instruction) : option returns :=
  range_loop
    (λ pc r,
      ins ← insns !! pc;
      if negb (IsReturn ins) then Some r
      else
        retValue ← (if OpCode ins - Op.Ret =? Op.A then Some retRegisterA
                    else if OpCode ins - Op.Ret =? Op.K then Some (KVal ins)
                    else None);
        '(popularity, fall) ← ret_popularity insns pc;
        let pcs := default [] (retValueToPC r !! retValue) in
        Some (mkReturns (<[pc := popularity]> (retPopularity r))
                        (<[pc := fall]> (retCanBeFallenThrough r))
                        (<[retValue := pcs ++ [pc]]> (retValueToPC r))))
    (length insns) 0%nat
    (mkReturns (replicate (length insns) 0%nat) (replicate (length insns) false) ∅).

(** The order of [sort.Slice]: ascending popularity, then program counter. *)
Definition popularity_le (popularity : list nat) (pc1 pc2 : nat) : bool :=
  let p1 := default 0%nat (popularity !! pc1) in
  let p2 := default 0%nat (popularity !! pc2) in
  if (p1 =? p2)%nat then (pc1 <=? pc2)%nat else (p1 <? p2)%nat.

(** The [for j := len(pcs) - 1; j > i; j--] loop on the candidates, most popular first. *)
Fixpoint try_rewrites (insns : list Instruction) (unpopularPC : nat) (candidates : list nat)
    : option (list Instruction * bool) :=
  match candidates with
  | [] => Some (insns, false)
  | popularPC :: rest =>
      '(insns', rewritten) ← rewriteAllJumpsToReturn insns unpopularPC popularPC;
      if (rewritten : bool) then Some (insns', true) else try_rewrites insns' unpopularPC rest
  end.

(** The [for i, unpopularPC := range pcs] loop. *)
Fixpoint merge_group (fall : list bool) (insns : list Instruction) (changed : bool)
    (pcs : list nat) : option (list Instruction * bool) :=
  match pcs with
  | [] => Some (insns, changed)
  | unpopularPC :: rest =>
      f ← fall !! unpopularPC;
      if (f : bool) then merge_group fall insns changed rest
      else
        '(insns', c) ← try_rewrites insns unpopularPC (reverse rest);
        merge_group fall insns' (changed || c) rest
  end.

Fixpoint merge_groups (r : returns) (insns : list Instruction) (changed : bool)
    (groups : list (Z * list nat)) : option (list Instruction * bool) :=
  match groups with
  | [] => Some (insns, changed)
  | (_, pcs) :: groups' =>
      '(insns', changed') ← merge_group (retCanBeFallenThrough r) insns changed
        (sort_slice (popularity_le (retPopularity r)) pcs);
      merge_groups r insns' changed' groups'
  end.

(** How Go lists the entries of the map. *)
Definition map_order : Type := gmap Z (list nat) → list (Z * list nat).

Definition optimizeJumpsToSmallestSetOfReturns (order : map_order) : optimizerFunc := λ insns,
  r ← collect_returns insns;
  merge_groups r insns false (order (retValueToPC r)).

(** ** The driver *)

(** The inner loop of [optimize]: the first pass that changes something ends it. *)
Fixpoint first_change (funcs : list optimizerFunc) (insns : list Instruction)
    : option (list Instruction * bool) :=
  match funcs with
  | [] => Some (insns, false)
  | fn :: funcs' =>
      '(insns', changed) ← fn insns;
      if (changed : bool) then Some (insns', true) else first_change funcs' insns'
  end.

(** [optimize] with a bound on its iterations.  The passes of each iteration may use a
    different map order. *)
Fixpoint optimize (fuel : nat) (funcs : nat → list optimizerFunc)
    (insns : list Instruction) : option (list Instruction) :=
  match fuel with
  | O => None
  | S fuel' =>
      '(insns', changed) ← first_change (funcs fuel) insns;
      if (changed : bool) then optimize fuel' funcs insns' else Some insns'
  end.

Definition passes (order : map_order) : list optimizerFunc :=
  [ optimizeConditionalJumps;
    optimizeSameTargetConditionalJumps;
    optimizeUnconditionalJumps;
    optimizeJumpsToReturn;
    removeZeroInstructionJumps;
    removeDeadCode;
    removeRedundantLoads;
    optimizeJumpsToSmallestSetOfReturns order ].

(** A bound on the iterations that suffices (OptFacts.v): cubic in the program's length. *)
Definition optimize_fuel (insns : list Instruction) : nat :=
  let n := length insns in (S (4 * n) * S (2 * n * n))%nat.

Definition Optimize (order : nat → map_order) (insns : list Instruction)
    : option (list Instruction) :=
  optimize (optimize_fuel insns) (λ k, passes (order k)) insns.

(** ** Compile *)

(** [Compile]: the program, or the error of the validation; [None] is a panic. *)
Definition Compile (order : nat → map_order) (insns : list Instruction) (opt : bool)
    : option (list Instruction + Error) :=
  match validate insns with
  | Some err => Some (inr err)
  | None => if opt then p ← Optimize order insns; Some (inl p) else Some (inl insns)
  end.
