(* ===== verification/OptBase.v ===== *)
(** * What an optimizer pass must do

    [improves p p'] is what every change made by a pass satisfies: [p'] is again well
    formed, it has the same outcomes as [p] on every input, and it is smaller in the
    lexicographic measure that makes [optimize] terminate. *)

From stdpp Require Import base numbers decidable gmap list.
From S2P Require Import Prelude Instr Machine MachineFacts Optimizer.

Local Open Scope bits_scope.

(** Same outcome from the start, whatever the byte order, the input and the registers. *)
Definition equivalent (p p' : list Instruction) : Prop :=
  ∀ e inp m, eval e inp p' 0 m = eval e inp p 0 m.

(** A load whose value does not depend on the registers or on the scratch memory. *)
Definition stable_load (i : Instruction) : bool :=
  let mode := OpCode i .& Op.loadModeMask in
  negb (class i =? Op.Ld)%Z || (mode =? Op.Imm)%Z || (mode =? Op.Abs)%Z || (mode =? Op.Len)%Z.

Definition stable_loads (p : list Instruction) : Prop := Forall (λ i, stable_load i = true) p.

(** ** The measure *)

Definition count (f : Instruction → bool) (p : list Instruction) : nat :=
  length (filter (λ i, f i = true) p).

(** The program points with a predecessor, and the entry. *)
Definition entered (p : list Instruction) : gset nat := list_to_set (0 :: concat (imap succs p)).

Definition weight (n pc : nat) (i : Instruction) : nat :=
  sum_list ((λ s, n - s) <$> jump_targets pc i).

(** How far jumps are from the end of the program. *)
Definition potential (p : list Instruction) : nat := sum_list (imap (weight (length p)) p).

Definition extent (p : list Instruction) : nat :=
  length p + count IsJump p + count IsConditionalJump p + size (entered p).

Definition smaller (p' p : list Instruction) : Prop :=
  extent p' < extent p ∨ (extent p' = extent p ∧ potential p' < potential p).

Record improves (p p' : list Instruction) : Prop := mkImproves {
  imp_wf : wf_prog p';
  imp_equiv : stable_loads p → equivalent p p';
  imp_stable : stable_loads p → stable_loads p';
  imp_length : length p' ≤ length p;
  imp_smaller : smaller p' p
}.

(** The result of a pass on [p]: nothing changed, or an improvement. *)
Definition pass_result (p p' : list Instruction) (changed : bool) : Prop :=
  if changed then improves p p' else p' = p.

(** ** Basic facts *)

Lemma equivalent_trans p q r : equivalent p q → equivalent q r → equivalent p r.
Proof. intros H1 H2 e inp m. by rewrite H2, H1. Qed.

Lemma improves_trans p q r : improves p q → improves q r → improves p r.
Proof.
  intros [] []. split; try done; eauto using equivalent_trans.
  - lia.
  - unfold smaller in *. lia.
Qed.

Lemma pass_result_trans p q r c1 c2 :
  pass_result p q c1 → pass_result q r c2 → pass_result p r (c1 || c2).
Proof.
  destruct c1, c2; simpl; intros; subst; try done. by eapply improves_trans.
Qed.

Lemma pass_result_wf p q c : wf_prog p → pass_result p q c → wf_prog q.
Proof. destruct c; simpl; [by intros _ []|by intros ? ->]. Qed.

Lemma elem_of_entered p s :
  s ∈ entered p ↔ s = 0 ∨ ∃ q i, p !! q = Some i ∧ s ∈ succs q i.
Proof.
  unfold entered. rewrite list_to_set_cons, elem_of_union, elem_of_singleton, elem_of_list_to_set.
  rewrite list_elem_of_In, in_concat. split.
  - intros [->|(l & Hl & Hs)]; [by left|right].
    apply list_elem_of_In, list_elem_of_lookup in Hl as [q Hq].
    rewrite list_lookup_imap in Hq. apply fmap_Some in Hq as (i & Hi & ->).
    apply list_elem_of_In in Hs. eauto.
  - intros [->|(q & i & Hi & Hs)]; [by left|right].
    exists (succs q i). split; [|by apply list_elem_of_In].
    apply list_elem_of_In, list_elem_of_lookup. exists q.
    by rewrite list_lookup_imap, Hi.
Qed.

Lemma succs_entered p pc i s : p !! pc = Some i → s ∈ succs pc i → s ∈ entered p.
Proof. intros Hi Hs. apply elem_of_entered. eauto. Qed.

Lemma entered_bound p s : wf_prog p → s ∈ entered p → s < length p.
Proof.
  intros Hwf Hs. apply elem_of_entered in Hs as [->|(q & i & Hi & Hs)].
  - destruct p; [by destruct (wf_nonempty _ Hwf)|simpl; lia].
  - by eapply wf_succs.
Qed.

Lemma succs_gt pc i s : s ∈ succs pc i → pc < s.
Proof.
  unfold succs. repeat case_match; rewrite ?elem_of_cons, ?elem_of_nil; intros;
    destruct_or?; lia || done.
Qed.

Lemma jump_targets_succs pc i s : s ∈ jump_targets pc i → s ∈ succs pc i.
Proof. unfold jump_targets. case_match; [done|]. by intros ?%elem_of_nil. Qed.

(** ** Replacing one instruction *)

Lemma count_insert f p pc i i' :
  p !! pc = Some i →
  count f (<[pc := i']> p) + Nat.b2n (f i) = count f p + Nat.b2n (f i').
Proof.
  unfold count. revert pc. induction p as [|j p IH]; intros pc Hi; [done|].
  destruct pc as [|pc]; simpl in Hi; simplify_eq/=.
  - rewrite !filter_cons. destruct (f i'), (f i); simpl; repeat case_decide; simpl; congruence || lia.
  - specialize (IH pc Hi). rewrite !filter_cons. case_decide; simpl; lia.
Qed.

Lemma sum_imap_insert (f : nat → Instruction → nat) p pc i i' :
  p !! pc = Some i →
  sum_list (imap f (<[pc := i']> p)) + f pc i = sum_list (imap f p) + f pc i'.
Proof.
  revert f pc. induction p as [|j p IH]; intros f pc Hi; [done|].
  destruct pc as [|pc]; simpl in Hi; simplify_eq/=; [lia|].
  specialize (IH (f ∘ S) pc Hi). simpl in IH. lia.
Qed.

Lemma eval_replace e inp p pc i i' :
  p !! pc = Some i →
  (∀ m, step_with e inp (<[pc := i']> p) (eval e inp p) pc m = eval e inp p pc m) →
  ∀ q m, eval e inp (<[pc := i']> p) q m = eval e inp p q m.
Proof.
  intros Hi Hstep q m. symmetry. revert q m. apply eval_unique. intros q m.
  destruct (decide (q = pc)) as [->|Hne]; [by rewrite Hstep|].
  rewrite eval_unfold at 1. unfold step_with. by rewrite list_lookup_insert_ne.
Qed.

(** What makes it an improvement to put [i'] in the place of [i] at [pc]. *)
Record better (p : list Instruction) (pc : nat) (i i' : Instruction) : Prop := mkBetter {
  bt_ok : ins_ok i';
  bt_step : ∀ e inp m,
    step_with e inp (<[pc := i']> p) (eval e inp p) pc m = eval e inp p pc m;
  bt_succs : ∀ s, s ∈ succs pc i' → s ∈ entered p;
  bt_stable : stable_load i = true → stable_load i' = true;
  bt_measure :
    Nat.b2n (IsJump i') + Nat.b2n (IsConditionalJump i') <
      Nat.b2n (IsJump i) + Nat.b2n (IsConditionalJump i) ∨
    (Nat.b2n (IsJump i') + Nat.b2n (IsConditionalJump i') ≤
       Nat.b2n (IsJump i) + Nat.b2n (IsConditionalJump i) ∧
     weight (length p) pc i' < weight (length p) pc i)
}.

Lemma replace_entered p pc i i' :
  p !! pc = Some i → (∀ s, s ∈ succs pc i' → s ∈ entered p) →
  entered (<[pc := i']> p) ⊆ entered p.
Proof.
  intros Hi Hs s. rewrite elem_of_entered.
  intros [->|(q & j & Hj & Hin)]; [apply elem_of_entered; by left|].
  apply list_lookup_insert_Some in Hj as [(-> & -> & _)|[_ Hj]]; [by apply Hs|].
  by eapply succs_entered.
Qed.

Lemma replace_wf p pc i i' :
  wf_prog p → p !! pc = Some i → ins_ok i' → (∀ s, s ∈ succs pc i' → s ∈ entered p) →
  wf_prog (<[pc := i']> p).
Proof.
  intros Hwf Hi Hok Hs. split.
  - intros Hnil. apply (wf_nonempty _ Hwf). apply (f_equal length) in Hnil.
    rewrite length_insert in Hnil. by apply length_zero_iff_nil.
  - intros q j Hj. apply list_lookup_insert_Some in Hj as [(_ & -> & _)|[_ Hj]]; [done|].
    by eapply wf_ins.
  - intros q j s Hj Hin. rewrite length_insert.
    apply (entered_bound p s Hwf), (replace_entered p pc i i' Hi Hs).
    by eapply succs_entered.
Qed.

Lemma replace_improves p pc i i' :
  wf_prog p → p !! pc = Some i → better p pc i i' → improves p (<[pc := i']> p).
Proof.
  intros Hwf Hi [Hok Hstep Hs Hst Hm]. split.
  - by eapply replace_wf.
  - intros _ e inp m. by eapply eval_replace.
  - intros Hall. apply Forall_insert; [done|]. apply Hst. exact (Forall_lookup_1 _ _ _ _ Hall Hi).
  - by rewrite length_insert.
  - pose proof (replace_entered p pc i i' Hi Hs) as Hsub.
    apply subseteq_size in Hsub.
    pose proof (count_insert IsJump p pc i i' Hi).
    pose proof (count_insert IsConditionalJump p pc i i' Hi).
    pose proof (sum_imap_insert (weight (length p)) p pc i i' Hi).
    unfold smaller, extent, potential. rewrite length_insert. lia.
Qed.

(** ** Passes over the instructions *)

Lemma no_change (p : list Instruction) :
  ∃ p' c, Some (p, false) = Some (p', c) ∧ length p' = length p ∧ pass_result p p' c.
Proof. by exists p, false. Qed.

Lemma range_pass_result body p :
  wf_prog p →
  (∀ pc ins l, wf_prog l → l !! pc = Some ins →
    ∃ l' c, body pc ins l = Some (l', c) ∧ length l' = length l ∧ pass_result l l' c) →
  ∃ p' c, range_pass body p = Some (p', c) ∧ pass_result p p' c.
Proof.
  intros Hwf Hbody. unfold range_pass.
  match goal with |- context [range_loop ?b ?n ?pc ?s] =>
    destruct (range_loop_inv b (λ _ '(l, c), length l = length p ∧ pass_result p l c) n pc s)
      as ([p' c] & Hl & _ & Hr)
  end; [done| |by eauto].
  intros k [l c] Hk [Hlen Hres].
  destruct (lookup_lt_is_Some_2 l k) as [ins Hins]; [lia|]. rewrite Hins. simpl.
  destruct (Hbody k ins l) as (l' & c' & -> & Hlen' & Hres');
    [by eapply pass_result_wf|done|]. simpl.
  eexists (_, _). split; [done|]. split; [lia|]. by eapply pass_result_trans.
Qed.
