(* ===== verification/OptJumps.v ===== *)
(** * The jump-rewriting passes are improvements

    [optimizeConditionalJumps], [optimizeSameTargetConditionalJumps],
    [optimizeUnconditionalJumps] and [optimizeJumpsToReturn]. *)

From stdpp Require Import base numbers decidable gmap list.
From S2P Require Import Prelude Instr Machine MachineFacts Optimizer OptBase.

Local Open Scope bits_scope.

(** ** One step at a jump *)

Lemma eval_uncond e inp p pc i m :
  wf_prog p → p !! pc = Some i → IsUnconditionalJump i = true →
  eval e inp p pc m = eval e inp p (target_of pc (KVal i)) m.
Proof.
  intros Hwf Hi Hu. rewrite eval_unfold. unfold step_with. rewrite Hi.
  by rewrite effect_uncond by eauto using wf_ins.
Qed.

Lemma uncond_succs pc i : IsUnconditionalJump i = true → succs pc i = [target_of pc (KVal i)].
Proof.
  intros Hu. unfold succs. pose proof (uncond_jump_is_jump i Hu) as Hj.
  assert (IsReturn i = false) as ->.
  { destruct (IsReturn i) eqn:Hr; [|done]. by rewrite return_not_jump in Hj. }
  by rewrite Hj, Hu.
Qed.

Lemma cond_succs pc i :
  IsConditionalJump i = true →
  succs pc i = [target_of pc (JumpIfTrue i); target_of pc (JumpIfFalse i)].
Proof.
  intros Hc. unfold succs. pose proof (cond_jump_is_jump i Hc) as Hj.
  assert (IsReturn i = false) as ->.
  { destruct (IsReturn i) eqn:Hr; [|done]. by rewrite return_not_jump in Hj. }
  rewrite Hj. rewrite jump_cases in Hc by done. by destruct (IsUnconditionalJump i).
Qed.

Lemma cond_targets pc i :
  IsConditionalJump i = true →
  jump_targets pc i = [target_of pc (JumpIfTrue i); target_of pc (JumpIfFalse i)].
Proof.
  intros Hc. unfold jump_targets. by rewrite (cond_jump_is_jump i Hc), cond_succs.
Qed.

Lemma uncond_targets pc i :
  IsUnconditionalJump i = true → jump_targets pc i = [target_of pc (KVal i)].
Proof.
  intros Hu. unfold jump_targets. by rewrite (uncond_jump_is_jump i Hu), uncond_succs.
Qed.

Lemma ins_ok_retarget i jt jf :
  ins_ok i → in_u8 jt → in_u8 jf → ins_ok (mkIns (OpCode i) jt jf (KVal i)).
Proof. intros [(? & ? & ? & ?) ? ? ?] ??. by split. Qed.

Lemma known_uncond i : ins_ok i → IsUnconditionalJump i = true → OpCode i = Op.Jmp .| Op.Ja.
Proof.
  intros [_ Hk _ _] Hu. destruct i as [op jt jf k]. simpl in *.
  by_opcode Hk; try discriminate Hu; reflexivity.
Qed.

Lemma ins_ok_set_K i k :
  ins_ok i → IsUnconditionalJump i = true → in_u32 k → ins_ok (set_K i k).
Proof.
  intros Hok Hu Hk. pose proof (known_uncond i Hok Hu) as E.
  destruct Hok as [(? & ? & ? & ?) ? _ _]. split; simpl; [done|done|..]; rewrite E; intros Hin;
    not_elem Hin.
Qed.

Lemma ins_ok_ja k : in_u32 k → ins_ok (Jump (Op.Jmp .| Op.Ja) k 0 0).
Proof.
  intros Hk. split; simpl; [|by solve_elem|..]; [|intros Hin; not_elem Hin..].
  unfold ins_range, in_u16, in_u8. simpl. change (Op.Jmp .| Op.Ja) with 5%Z. split_and!; done || lia.
Qed.

(** ** Conditional jumps *)

Lemma cond_better p pc i jt jf :
  wf_prog p → p !! pc = Some i → IsConditionalJump i = true → in_u8 jt → in_u8 jf →
  (∀ e inp m, eval e inp p (target_of pc jt) m = eval e inp p (target_of pc (JumpIfTrue i)) m) →
  (∀ e inp m, eval e inp p (target_of pc jf) m = eval e inp p (target_of pc (JumpIfFalse i)) m) →
  target_of pc jt ∈ entered p → target_of pc jf ∈ entered p →
  (JumpIfTrue i <= jt)%Z → (JumpIfFalse i <= jf)%Z →
  (JumpIfTrue i + JumpIfFalse i < jt + jf)%Z →
  better p pc i (mkIns (OpCode i) jt jf (KVal i)).
Proof.
  intros Hwf Hi Hc Hjt Hjf Et Ef Ht Hf Let Lef Lt.
  pose proof (wf_ins _ Hwf _ _ Hi) as Hok.
  assert (Hc' : IsConditionalJump (mkIns (OpCode i) jt jf (KVal i)) = true) by done.
  split.
  - by apply ins_ok_retarget.
  - intros e inp m. rewrite (eval_unfold e inp p pc). unfold step_with.
    rewrite Hi, list_lookup_insert_eq by (by eapply lookup_lt_Some).
    destruct (effect_cond e inp i m Hok Hc) as [c He].
    rewrite He. pose proof (He (JumpIfTrue i) (JumpIfFalse i)) as Hei.
    replace (mkIns _ _ _ _) with i in Hei by (by destruct i). rewrite Hei.
    destruct c; [apply Et|apply Ef].
  - intros s. rewrite cond_succs by done. simpl.
    rewrite !elem_of_cons, elem_of_nil. by intros [->|[->|[]]].
  - done.
  - right. split; [done|]. unfold weight. rewrite !cond_targets by done. simpl.
    pose proof (entered_bound p _ Hwf Ht). pose proof (entered_bound p _ Hwf Hf).
    destruct Hok as [(_ & Ha & Hb & _) _ _ _]. unfold in_u8, target_of in *. lia.
Qed.

(** The target of a conditional jump, followed through an unconditional jump. *)
Lemma follow_uncond p pc off j :
  wf_prog p → (0 <= off)%Z → p !! target_of pc off = Some j → IsUnconditionalJump j = true →
  target_of pc (off + 1 + KVal j) ∈ entered p ∧
  ∀ e inp m, eval e inp p (target_of pc (off + 1 + KVal j)) m = eval e inp p (target_of pc off) m.
Proof.
  intros Hwf Hoff Hj Hu.
  assert (0 <= KVal j)%Z by apply (ok_range _ (wf_ins _ Hwf _ _ Hj)).
  assert (target_of pc (off + 1 + KVal j) = target_of (target_of pc off) (KVal j)) as ->
    by (unfold target_of; lia).
  split.
  - eapply succs_entered; [exact Hj|]. rewrite uncond_succs by done. apply list_elem_of_here.
  - intros e inp m. symmetry. by apply eval_uncond.
Qed.

(** One side of [optimizeConditionalJumps]: the new offset and whether it changed. *)
Lemma follow_side p pc off j :
  wf_prog p → in_u8 off → target_of pc off ∈ entered p → p !! target_of pc off = Some j →
  let final := (off + 1 + KVal j)%Z in
  let c := IsUnconditionalJump j && (final <=? maxConditionalJumpOffset)%Z in
  let off' := if c then wrap8 final else off in
  in_u8 off' ∧ target_of pc off' ∈ entered p ∧
  (∀ e inp m, eval e inp p (target_of pc off') m = eval e inp p (target_of pc off) m) ∧
  (if c then off < off' else off' = off)%Z.
Proof.
  intros Hwf Hoff Hent Hj final c off'. subst c off'.
  destruct (IsUnconditionalJump j && (final <=? maxConditionalJumpOffset)%Z) eqn:Hc; [|done].
  to_prop. assert (Hk : (0 <= KVal j)%Z) by apply (ok_range _ (wf_ins _ Hwf _ _ Hj)).
  assert (Hw : in_u8 final).
  { change maxConditionalJumpOffset with 255%Z in *. subst final. unfold in_u8 in *. lia. }
  rewrite wrap8_small by done.
  destruct (follow_uncond p pc off j) as [? ?]; [done|apply Hoff|done|done|].
  repeat split; try done; try apply Hw. subst final. lia.
Qed.

Lemma optimizeConditionalJumps_result p :
  wf_prog p →
  ∃ p' c, optimizeConditionalJumps p = Some (p', c) ∧ pass_result p p' c.
Proof.
  intros Hwf. apply range_pass_result; [done|]. clear p Hwf. intros pc i p Hwf Hi.
  destruct (IsConditionalJump i) eqn:Hc; simpl; [|apply no_change].
  pose proof (wf_ins _ Hwf _ _ Hi) as Hok.
  destruct (ok_range _ Hok) as (_ & Hrt & Hrf & _).
  assert (Ht : target_of pc (JumpIfTrue i) ∈ entered p)
    by (eapply succs_entered; [done|]; rewrite cond_succs by done; apply list_elem_of_here).
  assert (Hf : target_of pc (JumpIfFalse i) ∈ entered p)
    by (eapply succs_entered; [done|]; rewrite cond_succs by done;
        apply list_elem_of_further, list_elem_of_here).
  destruct (lookup_lt_is_Some_2 p _ (entered_bound p _ Hwf Ht)) as [jt Hjt].
  destruct (lookup_lt_is_Some_2 p _ (entered_bound p _ Hwf Hf)) as [jf Hjf].
  rewrite Hjt. simpl.
  pose proof (follow_side p pc _ jt Hwf Hrt Ht Hjt) as (Rt & Et & Vt & Ct). simpl in *.
  pose proof (follow_side p pc _ jf Hwf Hrf Hf Hjf) as (Rf & Ef & Vf & Cf). simpl in *.
  assert (Hid : <[pc := i]> p = p) by (by apply list_insert_id).
  destruct (IsUnconditionalJump jt && _) eqn:Bt; simpl; rewrite Hjf; simpl;
    destruct (IsUnconditionalJump jf && _) eqn:Bf; simpl;
    (eexists _, _; split; [reflexivity|]; rewrite ?length_insert; split; [done|]);
    simpl; try exact Hid; (eapply replace_improves; [done|done|]);
    unfold set_JumpIfTrue, set_JumpIfFalse; simpl; apply cond_better; try done; lia.
Qed.

(** ** Equal targets *)

Lemma optimizeSameTargetConditionalJumps_result p :
  wf_prog p →
  ∃ p' c, optimizeSameTargetConditionalJumps p = Some (p', c) ∧ pass_result p p' c.
Proof.
  intros Hwf. apply range_pass_result; [done|]. clear p Hwf. intros pc i p Hwf Hi.
  destruct (IsConditionalJump i) eqn:Hc; simpl; [|apply no_change].
  destruct (JumpIfTrue i =? JumpIfFalse i)%Z eqn:Hs; simpl; [|apply no_change]. to_prop.
  pose proof (wf_ins _ Hwf _ _ Hi) as Hok.
  assert (Hr : in_u32 (JumpIfTrue i)).
  { destruct (ok_range _ Hok) as (_ & ? & _). unfold in_u8, in_u32 in *. lia. }
  eexists _, _. split; [done|]. rewrite length_insert. split; [done|].
  eapply replace_improves; [done|done|]. split.
  - by apply ins_ok_ja.
  - intros e inp m. rewrite (eval_unfold e inp p pc). unfold step_with.
    rewrite Hi, list_lookup_insert_eq by (by eapply lookup_lt_Some).
    rewrite effect_uncond by (done || by apply ins_ok_ja). simpl.
    destruct (effect_cond e inp i m Hok Hc) as [c He].
    specialize (He (JumpIfTrue i) (JumpIfFalse i)).
    replace (mkIns _ _ _ _) with i in He by (by destruct i). rewrite He, <- Hs.
    by destruct c.
  - intros s. rewrite uncond_succs by done. intros ->%list_elem_of_singleton.
    eapply succs_entered; [done|]. rewrite cond_succs by done. apply list_elem_of_here.
  - done.
  - left. rewrite Hc, (cond_jump_is_jump i Hc). simpl. lia.
Qed.

(** ** Unconditional jumps *)

Lemma optimizeUnconditionalJumps_result p :
  wf_prog p →
  ∃ p' c, optimizeUnconditionalJumps p = Some (p', c) ∧ pass_result p p' c.
Proof.
  intros Hwf. apply range_pass_result; [done|]. clear p Hwf. intros pc i p Hwf Hi.
  destruct (IsUnconditionalJump i) eqn:Hu; simpl; [|apply no_change].
  pose proof (wf_ins _ Hwf _ _ Hi) as Hok.
  assert (Hr : in_u32 (KVal i)) by apply (ok_range _ Hok).
  assert (Ht : target_of pc (KVal i) ∈ entered p)
    by (eapply succs_entered; [done|]; rewrite uncond_succs by done; apply list_elem_of_here).
  destruct (lookup_lt_is_Some_2 p _ (entered_bound p _ Hwf Ht)) as [j Hj].
  rewrite Hj. simpl.
  destruct (IsUnconditionalJump j) eqn:Huj; simpl; [|apply no_change].
  case_if; simpl; [apply no_change|]. to_prop.
  assert (Hk : (0 <= KVal j)%Z) by apply (ok_range _ (wf_ins _ Hwf _ _ Hj)).
  assert (Hw : in_u32 (KVal i + 1 + KVal j)).
  { change maxUnconditionalJumpOffset with 65535%Z in *. unfold in_u32 in *. lia. }
  rewrite wrap32_small by done.
  destruct (follow_uncond p pc (KVal i) j) as [Hent Hev]; [done|apply Hr|done|done|].
  assert (Hu' : IsUnconditionalJump (set_K i (KVal i + 1 + KVal j)) = true) by done.
  eexists _, _. split; [done|]. rewrite length_insert. split; [done|].
  eapply replace_improves; [done|done|]. split.
  - by apply ins_ok_set_K.
  - intros e inp m. rewrite (eval_uncond e inp p pc i) by done. unfold step_with.
    rewrite list_lookup_insert_eq by (by eapply lookup_lt_Some).
    rewrite effect_uncond by (done || by apply ins_ok_set_K). apply Hev.
  - intros s. rewrite uncond_succs by done. by intros ->%list_elem_of_singleton.
  - done.
  - right. split; [done|]. unfold weight. rewrite !uncond_targets by done. simpl.
    pose proof (entered_bound p _ Hwf Hent). unfold in_u32, target_of in *. lia.
Qed.

(** ** Jumps to returns *)

Lemma return_succs pc i : IsReturn i = true → succs pc i = [].
Proof. unfold succs. by intros ->. Qed.

Lemma return_stable i : IsReturn i = true → stable_load i = true.
Proof. unfold IsReturn, stable_load. intros H. to_prop. by rewrite H. Qed.

Lemma optimizeJumpsToReturn_result p :
  wf_prog p →
  ∃ p' c, optimizeJumpsToReturn p = Some (p', c) ∧ pass_result p p' c.
Proof.
  intros Hwf. apply range_pass_result; [done|]. clear p Hwf. intros pc i p Hwf Hi.
  destruct (IsUnconditionalJump i) eqn:Hu; simpl; [|apply no_change].
  pose proof (wf_ins _ Hwf _ _ Hi) as Hok.
  assert (Ht : target_of pc (KVal i) ∈ entered p)
    by (eapply succs_entered; [done|]; rewrite uncond_succs by done; apply list_elem_of_here).
  destruct (lookup_lt_is_Some_2 p _ (entered_bound p _ Hwf Ht)) as [j Hj].
  rewrite Hj. simpl. change (class j =? Op.Ret)%Z with (IsReturn j).
  destruct (IsReturn j) eqn:Hr; simpl; [|apply no_change].
  pose proof (wf_ins _ Hwf _ _ Hj) as Hokj.
  eexists _, _. split; [done|]. rewrite length_insert. split; [done|].
  eapply replace_improves; [done|done|]. split.
  - done.
  - intros e inp m. rewrite (eval_uncond e inp p pc i) by done.
    rewrite (eval_unfold e inp p (target_of pc (KVal i))). unfold step_with.
    rewrite Hj, list_lookup_insert_eq by (by eapply lookup_lt_Some).
    by rewrite effect_return.
  - intros s. rewrite return_succs by done. by intros ?%elem_of_nil.
  - intros _. by apply return_stable.
  - left. rewrite (uncond_jump_is_jump i Hu).
    unfold IsConditionalJump. rewrite (return_not_jump j Hr). simpl. lia.
Qed.
