(* ===== verification/OptRemove.v ===== *)
(** * Removing instructions

    [codeRemoval.Apply] deletes the marked instructions from the last to the first and
    renumbers the jumps.  [removal_improves] states when this is an improvement: there is an
    invariant of the run under which every marked instruction does nothing (or is never
    reached). *)

From stdpp Require Import base numbers decidable gmap sorting list.
From S2P Require Import Prelude Instr Machine MachineFacts Optimizer OptBase OptJumps.

Local Open Scope bits_scope.

(** Where a program point goes when the instruction at [i] is removed. *)
Definition shift (i pc : nat) : nat := if (i <? pc) then pc - 1 else pc.

(** The instruction that was at [pc], after the removal. *)
Definition shifted (i pc : nat) (j : Instruction) : Instruction :=
  if pc <? i then decrement_ins pc i j else j.

Ltac shift_lia := unfold shift in *; repeat case_match; to_prop; lia.

(** ** The renumbered instructions *)

Lemma decrement_op pc i j : OpCode (decrement_ins pc i j) = OpCode j.
Proof. unfold decrement_ins. repeat case_match; done. Qed.

Lemma shifted_op pc i j : OpCode (shifted i pc j) = OpCode j.
Proof. unfold shifted. case_match; [apply decrement_op|done]. Qed.

(** A target beyond the removed instruction moves down by one. *)
Lemma target_shift_u8 i pc off :
  pc < i → in_u8 off →
  let off' := if i <? target_of pc off then wrap8 (off - 1) else off in
  in_u8 off' ∧ target_of pc off' = shift i (target_of pc off).
Proof.
  intros Hpc Ho off'. subst off'. unfold in_u8 in *.
  destruct (i <? target_of pc off) eqn:E; unfold shift; rewrite E; to_prop; [|done].
  unfold target_of in *. rewrite wrap8_small by (unfold in_u8; lia). lia.
Qed.

Lemma target_shift_u32 i pc off :
  pc < i → in_u32 off →
  let off' := if i <? target_of pc off then wrap32 (off - 1) else off in
  in_u32 off' ∧ target_of pc off' = shift i (target_of pc off).
Proof.
  intros Hpc Ho off'. subst off'. unfold in_u32 in *.
  destruct (i <? target_of pc off) eqn:E; unfold shift; rewrite E; to_prop; [|done].
  unfold target_of in *. rewrite wrap32_small by (unfold in_u32; lia). lia.
Qed.

(** A jump after the removed instruction moves with its targets. *)
Lemma target_shift_after i pc off :
  i < pc → target_of (shift i pc) off = shift i (target_of pc off).
Proof. intros. unfold target_of. shift_lia. Qed.

Lemma decrement_cond pc i j :
  IsConditionalJump j = true →
  decrement_ins pc i j =
  mkIns (OpCode j)
    (if i <? target_of pc (JumpIfTrue j) then wrap8 (JumpIfTrue j - 1) else JumpIfTrue j)
    (if i <? target_of pc (JumpIfFalse j) then wrap8 (JumpIfFalse j - 1) else JumpIfFalse j)
    (KVal j).
Proof.
  intros Hc. unfold decrement_ins. pose proof (cond_jump_is_jump j Hc) as Hj.
  rewrite jump_cases in Hc by done. apply negb_true_iff in Hc. rewrite Hj, Hc. simpl.
  destruct (i <? target_of pc (JumpIfTrue j)); simpl;
    destruct (i <? target_of pc (JumpIfFalse j)); by destruct j.
Qed.

Lemma decrement_uncond pc i j :
  IsUnconditionalJump j = true →
  decrement_ins pc i j =
  set_K j (if i <? target_of pc (KVal j) then wrap32 (KVal j - 1) else KVal j).
Proof.
  intros Hu. unfold decrement_ins. rewrite (uncond_jump_is_jump j Hu), Hu. simpl.
  case_match; by destruct j.
Qed.

Lemma shifted_not_jump i pc j : IsJump j = false → shifted i pc j = j.
Proof. intros Hj. unfold shifted, decrement_ins. rewrite Hj. by case_match. Qed.

Lemma shifted_ok i pc j : ins_ok j → ins_ok (shifted i pc j).
Proof.
  intros Hok. unfold shifted. case_match; [|done]. to_prop.
  destruct (ok_range _ Hok) as (_ & Ht & Hf & Hk).
  destruct (IsJump j) eqn:Hj; [|unfold decrement_ins; by rewrite Hj].
  destruct (IsUnconditionalJump j) eqn:Hu.
  - rewrite decrement_uncond by done. apply ins_ok_set_K; [done|done|].
    by apply target_shift_u32.
  - rewrite decrement_cond by (rewrite jump_cases, Hu; done).
    apply ins_ok_retarget; [done|..]; by apply target_shift_u8.
Qed.

(** The successors are renumbered. *)
Lemma shifted_succs i pc j :
  ins_ok j → pc ≠ i → succs (shift i pc) (shifted i pc j) = shift i <$> succs pc j.
Proof.
  intros Hok Hne. destruct (ok_range _ Hok) as (_ & Ht & Hf & Hk).
  destruct (IsJump j) eqn:Hj; cycle 1.
  { rewrite shifted_not_jump by done. unfold succs. rewrite Hj.
    destruct (IsReturn j); simpl; [done|]. f_equal. shift_lia. }
  unfold shifted. destruct (pc <? i) eqn:Hlt; to_prop.
  - replace (shift i pc) with pc by shift_lia.
    destruct (IsUnconditionalJump j) eqn:Hu.
    + rewrite decrement_uncond, !uncond_succs by done. simpl.
      f_equal. by apply target_shift_u32.
    + assert (Hc : IsConditionalJump j = true) by (rewrite jump_cases, Hu; done).
      rewrite decrement_cond, !cond_succs by done. simpl.
      f_equal; [by apply target_shift_u8|f_equal; by apply target_shift_u8].
  - destruct (IsUnconditionalJump j) eqn:Hu.
    + rewrite !uncond_succs by done. simpl. f_equal. apply target_shift_after. lia.
    + assert (Hc : IsConditionalJump j = true) by (rewrite jump_cases, Hu; done).
      rewrite !cond_succs by done. simpl. rewrite !target_shift_after by lia. done.
Qed.

(** The effects are the same, with the jumps renumbered. *)
Lemma shifted_effect e inp i pc j m :
  ins_ok j → pc ≠ i →
  match exec_ins e inp j m with
  | JumpBy off => ∃ off', exec_ins e inp (shifted i pc j) m = JumpBy off' ∧
      S (shift i pc + off') = shift i (S (pc + off))
  | r => exec_ins e inp (shifted i pc j) m = r
  end.
Proof.
  intros Hok Hne. destruct (IsJump j) eqn:Hj; cycle 1.
  { rewrite shifted_not_jump by done.
    destruct (exec_ins e inp j m) eqn:He; try done.
    by rewrite (effect_jump e inp j m off Hok He) in Hj. }
  destruct (ok_range _ Hok) as (_ & Ht & Hf & Hk).
  pose proof (shifted_ok i pc j Hok) as Hok'.
  destruct (IsUnconditionalJump j) eqn:Hu.
  - rewrite (effect_uncond e inp j) by done.
    assert (Hu' : IsUnconditionalJump (shifted i pc j) = true)
      by (unfold IsUnconditionalJump, IsJump, class; by rewrite shifted_op).
    rewrite effect_uncond by done. eexists. split; [done|].
    pose proof (shifted_succs i pc j Hok Hne) as Hs. rewrite !uncond_succs in Hs by done.
    simpl in Hs. by injection Hs.
  - assert (Hc : IsConditionalJump j = true) by (rewrite jump_cases, Hu; done).
    assert (Hc' : IsConditionalJump (shifted i pc j) = true)
      by (unfold IsConditionalJump, IsJump, class; by rewrite shifted_op).
    destruct (effect_cond e inp j m Hok Hc) as [c He].
    pose proof (He (JumpIfTrue j) (JumpIfFalse j)) as Hej.
    pose proof (He (JumpIfTrue (shifted i pc j)) (JumpIfFalse (shifted i pc j))) as Hes.
    assert (HK : KVal (shifted i pc j) = KVal j).
    { unfold shifted. case_if; [by rewrite decrement_cond|done]. }
    rewrite <- HK, <- (shifted_op pc i) in Hes at 1.
    replace (mkIns _ _ _ _) with j in Hej by (by destruct j).
    replace (mkIns _ _ _ _) with (shifted i pc j) in Hes by (by destruct (shifted i pc j)).
    rewrite Hej, Hes. eexists. split; [done|].
    pose proof (shifted_succs i pc j Hok Hne) as Hs. rewrite !cond_succs in Hs by done.
    simpl in Hs. injection Hs as H1 H2. by destruct c.
Qed.

(** ** The program after one removal *)

Lemma decrementJumps_spec l t :
  t ≤ length l →
  ∃ l', decrementJumps l t = Some l' ∧ length l' = length l ∧
    ∀ q, l' !! q = (if q <? t then decrement_ins q t else id) <$> l !! q.
Proof.
  intros Ht. unfold decrementJumps.
  match goal with |- context [range_loop ?b ?n ?pc ?s] =>
    destruct (range_loop_inv b (λ k l', length l' = length l ∧
      ∀ q, l' !! q = (if q <? k then decrement_ins q t else id) <$> l !! q) n pc s)
      as (l' & Hl & Hlen & Hq)
  end.
  - split; [done|]. intros q. simpl. by destruct (l !! q).
  - intros k l' Hk [Hlen Hq].
    destruct (lookup_lt_is_Some_2 l k) as [j Hj]; [lia|].
    assert (Hk' : l' !! k = Some j) by (rewrite Hq, Hj, Nat.ltb_irrefl; done).
    rewrite Hk'. simpl. eexists. split; [done|]. split; [by rewrite length_insert|].
    intros q. destruct (decide (q = k)) as [->|Hne].
    + rewrite list_lookup_insert_eq by lia. rewrite Hj. simpl.
      replace (k <? S k) with true by (symmetry; apply Nat.ltb_lt; lia). done.
    + rewrite list_lookup_insert_ne by done. rewrite Hq.
      replace (q <? S k) with (q <? k); [done|].
      destruct (q <? k) eqn:E; symmetry; to_prop; [apply Nat.ltb_lt|apply Nat.ltb_ge]; lia.
  - by exists l'.
Qed.

Lemma remove_one_spec p i :
  i < length p →
  ∃ p', remove_one p i = Some p' ∧ length p' = length p - 1 ∧
    (∀ pc, pc ≠ i → p' !! shift i pc = shifted i pc <$> p !! pc) ∧
    (OpCode <$> p') = delete i (OpCode <$> p).
Proof.
  intros Hi. unfold remove_one. assert (Hlt : (i <? length p) = true) by (by apply Nat.ltb_lt).
  rewrite Hlt.
  assert (Hlen : length (delete i p) = length p - 1)
    by (apply length_delete, lookup_lt_is_Some_2; done).
  destruct (decrementJumps_spec (delete i p) i) as (p' & -> & Hlen' & Hq); [lia|].
  exists p'. split; [done|]. split; [lia|]. split.
  - intros pc Hne. rewrite Hq. unfold shift, shifted.
    destruct (i <? pc) eqn:E1, (pc <? i) eqn:E2; to_prop; try lia.
    + rewrite list_lookup_delete_ge by lia. replace (S (pc - 1)) with pc by lia.
      replace (pc - 1 <? i) with false by (symmetry; apply Nat.ltb_ge; lia).
      by destruct (p !! pc).
    + by rewrite list_lookup_delete_lt by lia.
  - apply list_eq. intros q. rewrite list_lookup_delete, !list_lookup_fmap, Hq.
    rewrite list_lookup_delete. destruct (p !! _) as [j|]; simpl; [|done].
    case_match; simpl; [by rewrite decrement_op|done].
Qed.

(** ** Removal and runs *)

(** [Inv] holds along the runs of [p]. *)
Definition run_invariant (e : Endianness) (inp : Input) (p : list Instruction)
    (Inv : nat → machine → Prop) : Prop :=
  ∀ pc m j, Inv pc m → p !! pc = Some j →
    match exec_ins e inp j m with
    | Cont m' => Inv (S pc) m'
    | JumpBy off => Inv (S (pc + off)) m
    | _ => True
    end.

(** Under [Inv], the instruction at [i] only passes control to the next one. *)
Definition skippable (e : Endianness) (inp : Input) (p : list Instruction)
    (Inv : nat → machine → Prop) (i : nat) : Prop :=
  ∀ m j, Inv i m → p !! i = Some j → exec_ins e inp j m = Cont m ∨ exec_ins e inp j m = JumpBy 0.

Section RemoveOne.
Context (e : Endianness) (inp : Input) (p p' : list Instruction) (i : nat).
Context (Hok : ∀ pc j, p !! pc = Some j → ins_ok j).
Context (Hi : i < length p) (Hlen : length p' = length p - 1).
Context (Hp' : ∀ pc, pc ≠ i → p' !! shift i pc = shifted i pc <$> p !! pc).
Context (Inv : nat → machine → Prop).
Context (Hinv : run_invariant e inp p Inv) (Hskip : skippable e inp p Inv i).

Lemma skip_step m : Inv i m → Inv (S i) m ∧ eval e inp p i m = eval e inp p (S i) m.
Proof.
  intros HI. destruct (lookup_lt_is_Some_2 p i Hi) as [j Hj].
  specialize (Hinv i m j HI Hj). specialize (Hskip m j HI Hj).
  rewrite eval_unfold. unfold step_with. rewrite Hj.
  destruct Hskip as [He|He]; rewrite He in Hinv |- *; [done|]. by rewrite Nat.add_0_r in *.
Qed.

Lemma remove_one_eval pc m : Inv pc m → eval e inp p' (shift i pc) m = eval e inp p pc m.
Proof.
  assert (∀ n pc m, length p - pc < n → Inv pc m →
    eval e inp p' (shift i pc) m = eval e inp p pc m) as H; [|eauto].
  clear pc m. induction n as [|n IH]; intros pc m Hn HI; [lia|].
  destruct (decide (pc = i)) as [->|Hne].
  { destruct (skip_step m HI) as [HS ->]. replace (shift i i) with (shift i (S i)) by shift_lia.
    apply IH; [lia|done]. }
  rewrite !eval_unfold. unfold step_with. rewrite Hp' by done.
  destruct (p !! pc) as [j|] eqn:Hj; simpl; [|done].
  pose proof (lookup_lt_Some _ _ _ Hj).
  pose proof (shifted_effect e inp i pc j m (Hok _ _ Hj) Hne) as Heff.
  specialize (Hinv pc m j HI Hj).
  destruct (exec_ins e inp j m) as [m'|off|v|c|]; [| |by rewrite Heff..].
  - rewrite Heff. replace (S (shift i pc)) with (shift i (S pc)) by shift_lia. apply IH; [lia|done].
  - destruct Heff as (off' & -> & ->). apply IH; [lia|done].
Qed.

(** The invariant, renumbered. *)
Definition shift_inv (pc' : nat) (m : machine) : Prop := ∃ pc, shift i pc = pc' ∧ Inv pc m.

Lemma shift_inv_run : run_invariant e inp p' shift_inv.
Proof.
  intros pc' m j' (pc0 & Hpc0 & HI0) Hj'.
  assert (∃ pc, pc ≠ i ∧ shift i pc = pc' ∧ Inv pc m) as (pc & Hne & Hpc & HI).
  { destruct (decide (pc0 = i)) as [->|]; [|by eauto].
    exists (S i). split; [lia|]. split; [subst; shift_lia|]. by apply skip_step. }
  clear pc0 Hpc0 HI0. subst pc'. rewrite Hp' in Hj' by done.
  destruct (p !! pc) as [j|] eqn:Hj; simplify_eq/=.
  pose proof (shifted_effect e inp i pc j m (Hok _ _ Hj) Hne) as Heff.
  specialize (Hinv pc m j HI Hj).
  destruct (exec_ins e inp j m) as [m'|off|v|c|]; [| |by rewrite Heff..].
  - rewrite Heff. exists (S pc). split; [shift_lia|done].
  - destruct Heff as (off' & -> & ->). by exists (S (pc + off)).
Qed.

Lemma shift_inv_skip k : k < i → skippable e inp p Inv k → skippable e inp p' shift_inv k.
Proof.
  intros Hk Hs m j' (pc & Hpc & HI) Hj'.
  assert (pc = k) as -> by shift_lia. rewrite <- Hpc, Hp' in Hj' by lia.
  destruct (p !! k) as [j|] eqn:Hj; simplify_eq/=.
  pose proof (shifted_effect e inp i k j m (Hok _ _ Hj)) as Heff.
  destruct (Hs m j HI Hj) as [He|He]; rewrite He in Heff; [left; apply Heff; lia|right].
  destruct Heff as (off' & -> & Hoff); [lia|]. f_equal. shift_lia.
Qed.

End RemoveOne.

(** ** Well-formedness under removal *)

(** Instructions that stay only pass control to places from where an instruction stays. *)
Definition kept_flow (p : list Instruction) (marked : list nat) : Prop :=
  ∀ pc j s, p !! pc = Some j → pc ∉ marked → s ∈ succs pc j →
    ∃ k, s ≤ k < length p ∧ k ∉ marked.

Section KeptFlow.
Context (p p' : list Instruction) (i : nat) (rest : list nat).
Context (Hok : ∀ pc j, p !! pc = Some j → ins_ok j).
Context (Hi : i < length p) (Hlen : length p' = length p - 1).
Context (Hp' : ∀ pc, pc ≠ i → p' !! shift i pc = shifted i pc <$> p !! pc).
Context (Hrest : ∀ k, k ∈ rest → k < i).

(** Every instruction of the new program was at some other place of the old one. *)
Lemma remove_one_origin q j' :
  p' !! q = Some j' → ∃ pc j, pc ≠ i ∧ q = shift i pc ∧ p !! pc = Some j ∧ j' = shifted i pc j.
Proof.
  intros Hj'. pose proof (lookup_lt_Some _ _ _ Hj').
  set (pc := if (q <? i) then q else S q).
  assert (Hpc : pc ≠ i ∧ shift i pc = q) by (subst pc; case_if; to_prop; shift_lia).
  destruct Hpc as [Hne Hpc]. rewrite <- Hpc, Hp' in Hj' by done.
  destruct (p !! pc) as [j|] eqn:Hj; simplify_eq/=. eauto 6.
Qed.

Lemma kept_marked k : k ≠ i → k ∉ rest → k ∉ i :: rest.
Proof. intros ?? [?|?]%elem_of_cons; done. Qed.

Lemma kept_shift k : k < length p → k ∉ i :: rest → shift i k < length p' ∧ shift i k ∉ rest.
Proof.
  intros Hk Hn. rewrite not_elem_of_cons in Hn. destruct Hn as [Hne Hn].
  split; [shift_lia|]. intros Hin. pose proof (Hrest _ Hin).
  apply Hn. by replace (shift i k) with k in Hin by shift_lia.
Qed.

Lemma remove_one_kept : kept_flow p (i :: rest) → kept_flow p' rest.
Proof.
  intros Hkf q j' s Hj' Hq Hs.
  destruct (remove_one_origin q j' Hj') as (pc & j & Hne & -> & Hj & ->).
  rewrite shifted_succs in Hs by eauto. apply list_elem_of_fmap in Hs as (s0 & -> & Hs0).
  assert (Hpc : pc ∉ i :: rest).
  { apply kept_marked; [done|]. intros Hin. pose proof (Hrest _ Hin).
    apply Hq. by replace (shift i pc) with pc by shift_lia. }
  destruct (Hkf pc j s0 Hj Hpc Hs0) as (k & Hk & Hnk).
  exists (shift i k). destruct (kept_shift k) as [? ?]; [lia|done|].
  split; [|done]. split; [|done]. rewrite not_elem_of_cons in Hnk. shift_lia.
Qed.

Lemma remove_one_ok q j' : p' !! q = Some j' → ins_ok j'.
Proof.
  intros Hj'. destruct (remove_one_origin q j' Hj') as (pc & j & _ & _ & Hj & ->).
  apply shifted_ok. by eapply Hok.
Qed.

Lemma remove_one_entered : size (entered p') ≤ size (entered p).
Proof.
  apply (size_le_image (shift i)). intros s Hs.
  apply elem_of_entered in Hs as [->|(q & j' & Hj' & Hs)].
  - exists 0. split; [apply elem_of_entered; by left|shift_lia].
  - destruct (remove_one_origin q j' Hj') as (pc & j & Hne & -> & Hj & ->).
    rewrite shifted_succs in Hs by eauto. apply list_elem_of_fmap in Hs as (s0 & -> & Hs0).
    exists s0. split; [by eapply succs_entered|done].
Qed.

End KeptFlow.

(** ** Removing all marked instructions *)

Lemma filter_sublist_length {T} (P : T → Prop) `{∀ x, Decision (P x)} (l k : list T) :
  sublist l k → length (filter P l) ≤ length (filter P k).
Proof.
  induction 1 as [|x l k Hs IH|x l k Hs IH]; rewrite ?filter_cons; [done|..];
    case_decide; simpl; lia.
Qed.

(** A test on instructions that only looks at the opcode. *)
Definition on_opcode (f : Instruction → bool) : Prop := ∀ i, f i = f (mkIns (OpCode i) 0 0 0).

Lemma count_ops f p :
  on_opcode f → count f p = length (filter (λ op, f (mkIns op 0 0 0) = true) (OpCode <$> p)).
Proof.
  intros Hf. unfold count. induction p as [|i p IH]; [done|].
  rewrite fmap_cons, !filter_cons. rewrite (Hf i). case_decide; simpl; by rewrite IH.
Qed.

Lemma count_sublist f p p' :
  on_opcode f → sublist (OpCode <$> p') (OpCode <$> p) → count f p' ≤ count f p.
Proof. intros Hf Hs. rewrite !count_ops by done. by apply filter_sublist_length. Qed.

Lemma stable_sublist p p' :
  sublist (OpCode <$> p') (OpCode <$> p) → stable_loads p → stable_loads p'.
Proof.
  intros Hs Hst. unfold stable_loads in *. rewrite Forall_forall in *. intros i Hi.
  assert (Ho : OpCode i ∈ OpCode <$> p')
    by (apply list_elem_of_fmap; by exists i).
  apply (elem_of_sublist _ _ _ Ho), list_elem_of_fmap in Hs as (j & Hop & Hj).
  specialize (Hst j Hj). unfold stable_load, class in *. by rewrite Hop.
Qed.

Record removed (p p' : list Instruction) (marked : list nat) : Prop := mkRemoved {
  rem_ok : ∀ pc j, p' !! pc = Some j → ins_ok j;
  rem_flow : kept_flow p' [];
  rem_length : length p' + length marked = length p;
  rem_ops : sublist (OpCode <$> p') (OpCode <$> p);
  rem_entered : size (entered p') ≤ size (entered p);
  rem_eval : ∀ e inp Inv m,
    run_invariant e inp p Inv → (∀ k, k ∈ marked → skippable e inp p Inv k) → Inv 0 m →
    eval e inp p' 0 m = eval e inp p 0 m
}.

Lemma remove_all_spec p marked :
  StronglySorted gt marked → (∀ k, k ∈ marked → k < length p) →
  (∀ pc j, p !! pc = Some j → ins_ok j) → kept_flow p marked →
  ∃ p', remove_all p marked = Some p' ∧ removed p p' marked.
Proof.
  revert p. induction marked as [|i rest IH]; intros p Hsort Hlt Hok Hkf; simpl.
  { exists p. split; [done|]. split; simpl; try done; lia. }
  apply StronglySorted_inv in Hsort as [Hsort Hall]. rewrite Forall_forall in Hall.
  assert (Hi : i < length p) by (apply Hlt, list_elem_of_here).
  destruct (remove_one_spec p i Hi) as (q & Hq & Hlen & Hlook & Hops). rewrite Hq. simpl.
  destruct (IH q) as (p' & Hp' & R).
  - done.
  - intros k Hk. specialize (Hall k Hk). simpl in Hall. lia.
  - intros pc j Hj. by eapply remove_one_ok.
  - by eapply remove_one_kept.
  - exists p'. split; [done|]. destruct R as [R1 R2 R3 R4 R5 R6]. split; [done|done|..].
    + simpl. lia.
    + etrans; [exact R4|]. rewrite Hops. apply sublist_delete.
    + etrans; [exact R5|]. by eapply remove_one_entered.
    + intros e inp Inv m Hinv Hskip H0.
      assert (Hski : skippable e inp p Inv i) by apply Hskip, list_elem_of_here.
      pose proof (remove_one_eval e inp p q i Hok Hi Hlen Hlook Inv Hinv Hski 0 m H0) as E.
      replace (shift i 0) with 0 in E by shift_lia. rewrite <- E.
      apply (R6 e inp (shift_inv i Inv)).
      * exact (shift_inv_run e inp p q i Hok Hi Hlen Hlook Inv Hinv Hski).
      * intros k Hk. apply (shift_inv_skip e inp p q i Hok Hi Hlen Hlook); [by apply Hall|].
        by apply Hskip, list_elem_of_further.
      * exists 0. split; [shift_lia|done].
Qed.

(** When the instructions that stay only lead to instructions that stay, and on every input an
    invariant of the run makes the marked ones do nothing, [codeRemoval.Apply] is an
    improvement. *)
Lemma removal_improves p (b : nat → bool) :
  let marked := filter (λ k, b k = true) (seq 0 (length p)) in
  wf_prog p → kept_flow p marked → (∃ k, k < length p ∧ b k = false) →
  (stable_loads p → ∀ e inp, ∃ Inv, run_invariant e inp p Inv ∧ (∀ m, Inv 0 m) ∧
    ∀ k, k ∈ marked → skippable e inp p Inv k) →
  ∃ p' c, removal_Apply p marked = Some (p', c) ∧ pass_result p p' c.
Proof.
  intros marked Hwf Hkf (k0 & Hk0 & Hb0) Hinv. unfold removal_Apply.
  destruct (decide (marked = [])) as [->|Hne]; [by exists p, false|].
  assert (Hsort : StronglySorted lt marked) by apply filter_seq_sorted.
  assert (Hmem : ∀ k, k ∈ reverse marked ↔ k ∈ marked) by (intros k; by rewrite reverse_Permutation).
  rewrite sort_slice_id; cycle 1.
  { rewrite <- (list_fmap_id marked). eapply StronglySorted_fmap; [|exact Hsort].
    intros x y. simpl. rewrite Nat.leb_le. lia. }
  destruct (remove_all_spec p (reverse marked)) as (p' & Hp' & [R1 R2 R3 R4 R5 R6]).
  - by apply StronglySorted_reverse.
  - intros k Hk. apply Hmem, list_elem_of_filter in Hk as [_ Hk]. apply elem_of_seq in Hk. lia.
  - apply (wf_ins _ Hwf).
  - intros pc j s Hj Hn Hs. rewrite Hmem in Hn. destruct (Hkf pc j s Hj Hn Hs) as (k & Hk & Hnk).
    exists k. by rewrite Hmem.
  - exists p', true. split; [destruct marked; [done|by rewrite Hp']|].
    rewrite length_reverse in R3.
    assert (Hlen : length marked < length p).
    { unfold marked. rewrite <- (length_seq (length p) 0) at 2.
      apply length_filter_lt with k0; [apply elem_of_seq; lia|by rewrite Hb0]. }
    assert (0 < length marked) by (destruct marked; [done|simpl; lia]).
    split.
    + split; [by intros ->; simpl in *; lia|done|]. intros pc j s Hj Hs.
      destruct (R2 pc j s Hj) as (k & Hk & _); [apply not_elem_of_nil|done|lia].
    + intros Hst e inp m. destruct (Hinv Hst e inp) as (Inv & H1 & H2 & H3).
      apply (R6 e inp Inv); [done| |done]. intros k Hk. by apply H3, Hmem.
    + by apply stable_sublist.
    + lia.
    + left. unfold extent. assert (count IsJump p' ≤ count IsJump p) by (by apply count_sublist).
      assert (count IsConditionalJump p' ≤ count IsConditionalJump p) by (by apply count_sublist).
      lia.
Qed.

(** ** Jumps over nothing *)

(** The marked instructions fall through, so what follows stays. *)
Lemma kept_after p (b : nat → bool) s :
  wf_prog p → s < length p →
  (∀ k j, p !! k = Some j → b k = true → S k ∈ succs k j) →
  ∃ k, s ≤ k < length p ∧ b k = false.
Proof.
  intros Hwf Hs Hb. remember (length p - s) as n eqn:Hn. revert s Hs Hn.
  induction n as [|n IH]; intros s Hs Hn; [lia|].
  destruct (b s) eqn:E; [|by exists s].
  destruct (lookup_lt_is_Some_2 p s Hs) as [j Hj].
  pose proof (wf_succs _ Hwf s j (S s) Hj (Hb s j Hj E)).
  destruct (IH (S s)) as (k & ? & ?); [lia..|]. exists k. split; [lia|done].
Qed.

Lemma not_marked (b : nat → bool) n k : b k = false → k ∉ filter (λ k, b k = true) (seq 0 n).
Proof. intros Hb Hk. apply list_elem_of_filter in Hk as [Hk _]. congruence. Qed.

Lemma marked_test (b : nat → bool) n k : k ∈ filter (λ k, b k = true) (seq 0 n) → b k = true.
Proof. intros Hk. by apply list_elem_of_filter in Hk as [Hk _]. Qed.

Lemma kept_flow_fallthrough p (b : nat → bool) :
  wf_prog p → (∀ k j, p !! k = Some j → b k = true → S k ∈ succs k j) →
  kept_flow p (filter (λ k, b k = true) (seq 0 (length p))).
Proof.
  intros Hwf Hb pc j s Hj _ Hs.
  destruct (kept_after p b s Hwf (wf_succs _ Hwf _ _ _ Hj Hs) Hb) as (k & Hk & E).
  exists k. split; [done|]. by apply not_marked.
Qed.

Lemma removeZeroInstructionJumps_result p :
  wf_prog p →
  ∃ p' c, removeZeroInstructionJumps p = Some (p', c) ∧ pass_result p p' c.
Proof.
  intros Hwf. unfold removeZeroInstructionJumps.
  set (b := λ pc, match p !! pc with
                  | Some i => IsUnconditionalJump i && (KVal i =? 0)%Z | None => false end).
  rewrite (range_loop_collect _ b); cycle 1.
  { intros k l Hk. unfold b. destruct (lookup_lt_is_Some_2 p k) as [j Hj]; [lia|].
    rewrite Hj. simpl. by destruct (IsUnconditionalJump j), (KVal j =? 0)%Z. }
  assert (Hbt : ∀ k j, p !! k = Some j → b k = true → IsUnconditionalJump j = true ∧ KVal j = 0%Z).
  { intros k j Hj. unfold b. rewrite Hj. intros [? ?]%andb_true_iff. by to_prop. }
  assert (Hfall : ∀ k j, p !! k = Some j → b k = true → S k ∈ succs k j).
  { intros k j Hj E. destruct (Hbt k j Hj E) as [Hu Hk]. rewrite uncond_succs by done.
    unfold target_of. rewrite Hk. replace (k + Z.to_nat 0) with k by lia. apply list_elem_of_here. }
  apply removal_improves; [done|by apply kept_flow_fallthrough| |].
  - destruct (kept_after p b 0) as (k & ? & ?); [done| |done|by exists k; split; [lia|]].
    destruct Hwf as [Hne _ _]. destruct p; [done|simpl; lia].
  - intros _ e inp. exists (λ _ _, True). split; [|split; [done|]].
    + intros pc m j _ _. by destruct (exec_ins e inp j m).
    + intros k Hk m j _ Hj. destruct (Hbt k j Hj (marked_test _ _ _ Hk)) as [Hu HK].
      right. rewrite effect_uncond by (done || by apply (wf_ins _ Hwf k)). by rewrite HK.
Qed.
