(* ===== verification/OptDead.v ===== *)
(** * Dead code

    The worklist of [removeDeadCode] terminates and marks a set of instructions that contains
    the first one and is closed under the control flow; the rest can be removed. *)

From stdpp Require Import base numbers decidable gmap sorting list.
From S2P Require Import Prelude Instr Machine MachineFacts Optimizer OptBase OptJumps OptRemove.

Local Open Scope bits_scope.

Definition unmarked (r : list bool) : nat := length (filter (λ b, b = false) r).

Lemma unmarked_insert r c : r !! c = Some false → unmarked r = S (unmarked (<[c := true]> r)).
Proof.
  unfold unmarked. revert c. induction r as [|x r IH]; intros [|c] Hc; simplify_eq/=.
  - done.
  - specialize (IH c Hc). rewrite !filter_cons. case_decide; simpl; by rewrite IH.
Qed.

Lemma unmarked_replicate n : unmarked (replicate n false) = n.
Proof. unfold unmarked. induction n as [|n IH]; simpl; [done|]. by f_equal. Qed.

(** What the worklist maintains: marked instructions have marked or pending successors, and
    only entered instructions are marked or pending. *)
Record worklist_inv (p : list Instruction) (r : list bool) (cursors : list nat) : Prop := {
  wl_length : length r = length p;
  wl_bound : ∀ c, c ∈ cursors → c < length p;
  wl_start : r !! 0 = Some true ∨ 0 ∈ cursors;
  wl_closed : ∀ pc j s, r !! pc = Some true → p !! pc = Some j → s ∈ succs pc j →
    r !! s = Some true ∨ s ∈ cursors;
  wl_entered : ∀ c, r !! c = Some true ∨ c ∈ cursors → c ∈ entered p
}.

Lemma worklist_skip p r c cursors :
  r !! c = Some true → worklist_inv p r (c :: cursors) → worklist_inv p r cursors.
Proof.
  intros Hc [H1 H2 H3 H4 H5]. split; [done|..].
  - intros k Hk. by apply H2, list_elem_of_further.
  - destruct H3 as [?|[->|?]%elem_of_cons]; auto.
  - intros pc j s Hr Hj Hs. destruct (H4 pc j s Hr Hj Hs) as [?|[->|?]%elem_of_cons]; auto.
  - intros k [?|?]; apply H5; [by left|right; by apply list_elem_of_further].
Qed.

Lemma worklist_mark p r c cursors j :
  wf_prog p → p !! c = Some j → worklist_inv p r (c :: cursors) →
  worklist_inv p (<[c := true]> r) (cursors ++ succs c j).
Proof.
  intros Hwf Hj [H1 H2 H3 H4 H5].
  assert (Hlt : c < length r) by (rewrite H1; by eapply lookup_lt_Some).
  assert (Hmark : ∀ k, r !! k = Some true → <[c := true]> r !! k = Some true).
  { intros k Hk. destruct (decide (c = k)) as [->|]; [by rewrite list_lookup_insert_eq|].
    by rewrite list_lookup_insert_ne. }
  assert (Hpend : ∀ k, r !! k = Some true ∨ k ∈ c :: cursors →
    <[c := true]> r !! k = Some true ∨ k ∈ cursors ++ succs c j).
  { intros k [Hk|[->|Hk]%elem_of_cons]; [by left; apply Hmark| |].
    - left. by rewrite list_lookup_insert_eq.
    - right. apply elem_of_app. by left. }
  split.
  - by rewrite length_insert.
  - intros k [Hk|Hk]%elem_of_app; [by apply H2, list_elem_of_further|by eapply wf_succs].
  - by apply Hpend.
  - intros pc i s Hr Hi Hs. destruct (decide (c = pc)) as [->|Hne].
    + simplify_eq. right. apply elem_of_app. by right.
    + rewrite list_lookup_insert_ne in Hr by done. by apply Hpend, (H4 pc i s).
  - intros k [Hk|[Hk|Hk]%elem_of_app].
    + destruct (decide (c = k)) as [->|Hne]; [apply H5; right; apply list_elem_of_here|].
      rewrite list_lookup_insert_ne in Hk by done. apply H5. by left.
    + apply H5. right. by apply list_elem_of_further.
    + by eapply succs_entered.
Qed.

Lemma succs_length pc i : length (succs pc i) ≤ 2.
Proof. unfold succs. repeat case_match; simpl; lia. Qed.

Lemma mark_reachable_result p fuel r cursors :
  wf_prog p → worklist_inv p r cursors → 2 * unmarked r + length cursors ≤ fuel →
  ∃ r', mark_reachable fuel p r cursors = Some r' ∧ worklist_inv p r' [].
Proof.
  intros Hwf. revert r cursors. induction fuel as [|fuel IH]; intros r cursors HI Hf.
  { destruct cursors; simpl in *; [by exists r|lia]. }
  destruct cursors as [|c cursors]; simpl in *; [by exists r|].
  assert (Hc : c < length p) by (apply (wl_bound _ _ _ HI), list_elem_of_here).
  destruct (lookup_lt_is_Some_2 r c) as [x Hx]; [by rewrite (wl_length _ _ _ HI)|].
  rewrite Hx. simpl. destruct x.
  { apply IH; [by eapply worklist_skip|lia]. }
  destruct (lookup_lt_is_Some_2 p c Hc) as [j Hj]. rewrite Hj. simpl.
  match goal with |- context [mark_reachable _ _ _ (_ ++ ?l)] => change l with (succs c j) end.
  apply IH; [by apply worklist_mark|].
  pose proof (succs_length c j). pose proof (unmarked_insert r c Hx). rewrite length_app. lia.
Qed.

(** The whole search, from the first instruction. *)
Lemma reachable_result p :
  wf_prog p →
  ∃ r, mark_reachable (reachable_fuel p) p (replicate (length p) false) [0] = Some r ∧
    worklist_inv p r [].
Proof.
  intros Hwf. apply mark_reachable_result; [done| |].
  - split.
    + by rewrite length_replicate.
    + intros c Hc. apply list_elem_of_singleton in Hc as ->. destruct Hwf as [? _ _]. destruct p; [done|simpl; lia].
    + right. apply list_elem_of_here.
    + intros pc j s Hr. by apply lookup_replicate_1 in Hr as [? _].
    + intros c [Hr|Hc]; [by apply lookup_replicate_1 in Hr as [? _]|].
      apply list_elem_of_singleton in Hc as ->.
      apply elem_of_entered. by left.
  - rewrite unmarked_replicate. unfold reachable_fuel. simpl. lia.
Qed.

(** [removeDeadCode] as the removal of the unmarked instructions. *)
Lemma removeDeadCode_unfold p :
  wf_prog p →
  ∃ r, worklist_inv p r [] ∧
    removeDeadCode p = removal_Apply p
      (filter (λ k, bool_decide (r !! k = Some true) = false) (seq 0 (length p))).
Proof.
  intros Hwf. destruct (reachable_result p Hwf) as (r & Hr & HI). exists r. split; [done|].
  unfold removeDeadCode. rewrite Hr. destruct p as [|i0 p0] eqn:Hp; [by destruct Hwf|].
  rewrite <- Hp in *. cbn [mbind option_bind].
  rewrite (range_loop_collect _ (λ k, negb (bool_decide (r !! k = Some true)))).
  - simpl. f_equal. apply list_filter_iff. intros k. by rewrite negb_true_iff.
  - intros k l Hk. destruct (lookup_lt_is_Some_2 r k) as [x Hx]; [rewrite (wl_length _ _ _ HI); lia|].
    rewrite Hx. by destruct x.
Qed.

Lemma removeDeadCode_result p :
  wf_prog p → ∃ p' c, removeDeadCode p = Some (p', c) ∧ pass_result p p' c.
Proof.
  intros Hwf. destruct (removeDeadCode_unfold p Hwf) as (r & [H1 H2 H3 H4 H5] & ->).
  assert (Hnil : ∀ k, k ∉ @nil nat) by (intros k; apply not_elem_of_nil).
  assert (Hcl : ∀ pc j s, r !! pc = Some true → p !! pc = Some j → s ∈ succs pc j →
    r !! s = Some true).
  { intros pc j s Hr Hj Hs. destruct (H4 pc j s Hr Hj Hs) as [?|Hn]; [done|by apply Hnil in Hn]. }
  assert (Hr0 : r !! 0 = Some true) by (destruct H3 as [?|Hn]; [done|by apply Hnil in Hn]).
  set (b := λ k, negb (bool_decide (r !! k = Some true))).
  erewrite (list_filter_iff _ (λ k, b k = true)); cycle 1.
  { intros k. unfold b. by rewrite negb_true_iff. }
  assert (Hbf : ∀ k, b k = false ↔ r !! k = Some true)
    by (intros k; unfold b; by rewrite negb_false_iff, bool_decide_eq_true).
  apply removal_improves; [done|..].
  - intros pc j s Hj Hn Hs. exists s. split; [split; [done|by eapply wf_succs]|].
    apply not_marked, Hbf. apply (Hcl pc j); [|done..]. apply Hbf.
    destruct (b pc) eqn:E; [|done]. exfalso. apply Hn, list_elem_of_filter. split; [done|].
    apply elem_of_seq. apply lookup_lt_Some in Hj. lia.
  - exists 0. split; [|by apply Hbf]. rewrite <- H1. by eapply lookup_lt_Some.
  - intros _ e inp. exists (λ pc m, r !! pc = Some true). split; [|split; [done|]].
    + intros pc m j Hr Hj. pose proof (exec_ins_flow e inp j m (wf_ins _ Hwf _ _ Hj)) as Hfl.
      destruct (exec_ins e inp j m); try done; eauto.
    + intros k Hk m j Hr Hj. apply marked_test in Hk. apply Hbf in Hr. congruence.
Qed.

(** When nothing is removed, every instruction is entered. *)
Lemma removeDeadCode_entered p p' :
  wf_prog p → removeDeadCode p = Some (p', false) → ∀ pc, pc < length p → pc ∈ entered p.
Proof.
  intros Hwf Hrun pc Hpc. destruct (removeDeadCode_unfold p Hwf) as (r & [H1 _ _ _ H5] & E).
  rewrite E in Hrun. apply H5. left.
  destruct (decide (r !! pc = Some true)) as [|Hne]; [done|exfalso].
  assert (Hin : pc ∈ filter (λ k, bool_decide (r !! k = Some true) = false) (seq 0 (length p))).
  { apply list_elem_of_filter. split; [by apply bool_decide_eq_false|apply elem_of_seq; lia]. }
  unfold removal_Apply in Hrun. destruct (filter _ _); [by apply elem_of_nil in Hin|].
  by destruct (remove_all _ _).
Qed.
