(* ===== verification/OptLoads.v ===== *)
(** * Redundant loads

    [removeRedundantLoads] looks for a load of [A] that the unique path before it has already
    done.  The pass is an improvement of every well-formed program, and keeps the outcomes of
    those whose loads into [A] do not depend on registers. *)

From stdpp Require Import base numbers decidable gmap sorting list.
From S2P Require Import Prelude Instr Machine MachineFacts Optimizer OptBase OptJumps OptRemove.

Local Open Scope bits_scope.

(** ** The reverse walk *)

(** [from] may pass control to [to]. *)
Definition edge (p : list Instruction) (from to : nat) : Prop :=
  ∃ j, p !! from = Some j ∧ to ∈ succs from j.

(** [rw] holds the predecessors below [k] of every instruction. *)
Definition preds_below (p : list Instruction) (k : nat) (rw : list (gset nat)) : Prop :=
  length rw = length p ∧
  ∀ to s, rw !! to = Some s → ∀ from, from ∈ s ↔ from < k ∧ edge p from to.

Lemma jump_offsets_succs pc j :
  IsJump j = true → succs pc j = (λ o, target_of pc (Offset o)) <$> JumpOffsets j.
Proof.
  intros Hj. unfold JumpOffsets. rewrite Hj. simpl. destruct (IsConditionalJump j) eqn:Hc.
  - by rewrite cond_succs.
  - rewrite jump_cases in Hc by done. apply negb_false_iff in Hc. by rewrite uncond_succs.
Qed.

(** [pc] is added to the predecessors of each of the [ts]. *)
Definition edges_added (pc : nat) (ts : list nat) (rw rw' : list (gset nat)) : Prop :=
  length rw' = length rw ∧
  ∀ to s', rw' !! to = Some s' → ∃ s, rw !! to = Some s ∧
    ∀ from, from ∈ s' ↔ from ∈ s ∨ (from = pc ∧ to ∈ ts).

Lemma add_edge_spec rw to pc :
  to < length rw → ∃ rw', add_edge rw to pc = Some rw' ∧ edges_added pc [to] rw rw'.
Proof.
  intros Hto. destruct (lookup_lt_is_Some_2 rw to Hto) as [s Hs].
  unfold add_edge. rewrite Hs. simpl. eexists. split; [done|].
  split; [by rewrite length_insert|]. intros t s' Ht.
  destruct (decide (to = t)) as [->|Hne].
  - rewrite list_lookup_insert_eq in Ht by done. simplify_eq. exists s. split; [done|].
    intros from. rewrite elem_of_union, elem_of_singleton, list_elem_of_singleton. naive_solver.
  - rewrite list_lookup_insert_ne in Ht by done. exists s'. split; [done|].
    intros from. rewrite list_elem_of_singleton. naive_solver.
Qed.

Lemma add_edges_spec rw pc offs :
  (∀ o, o ∈ offs → target_of pc (Offset o) < length rw) →
  ∃ rw', add_edges rw pc offs = Some rw' ∧
    edges_added pc ((λ o, target_of pc (Offset o)) <$> offs) rw rw'.
Proof.
  revert rw. induction offs as [|o offs IH]; intros rw Hlt; simpl.
  { exists rw. split; [done|]. split; [done|]. intros to s' Hs. exists s'. split; [done|].
    intros from. rewrite elem_of_nil. naive_solver. }
  destruct (add_edge_spec rw (target_of pc (Offset o)) pc) as (rw1 & -> & Hlen1 & H1);
    [apply Hlt, list_elem_of_here|]. simpl.
  destruct (IH rw1) as (rw2 & -> & Hlen2 & H2).
  { intros o' Ho. rewrite Hlen1. by apply Hlt, list_elem_of_further. }
  exists rw2. split; [done|]. split; [lia|]. intros to s2 Hs2.
  destruct (H2 to s2 Hs2) as (s1 & Hs1 & E2). destruct (H1 to s1 Hs1) as (s & Hs & E1).
  exists s. split; [done|]. intros from. rewrite E2, E1, list_elem_of_singleton, elem_of_cons.
  naive_solver.
Qed.

(** Adding the successors of the instruction at [k] extends [preds_below]. *)
Lemma preds_below_step p k j rw rw' :
  p !! k = Some j → preds_below p k rw → edges_added k (succs k j) rw rw' →
  preds_below p (S k) rw'.
Proof.
  intros Hj [Hlen Hp] [Hlen' Ha]. split; [lia|]. intros to s' Hs' from.
  destruct (Ha to s' Hs') as (s & Hs & ->). rewrite (Hp to s Hs). unfold edge. split.
  - intros [[Hlt HE]|[-> Hin]]; [split; [lia|done]|]. split; [lia|by exists j].
  - intros [Hlt (j' & Hj' & Hin)]. destruct (decide (from = k)) as [->|].
    + simplify_eq. by right.
    + left. split; [lia|by exists j'].
Qed.

Lemma reverse_walk_spec p :
  wf_prog p → ∃ rw, reverse_walk p = Some rw ∧ preds_below p (length p) rw.
Proof.
  intros Hwf. unfold reverse_walk.
  match goal with |- context [range_loop ?b ?n ?pc ?s] =>
    destruct (range_loop_inv b (preds_below p) n pc s) as (rw & Hrw & HI) end.
  - split; [by rewrite length_replicate|]. intros to s [-> _]%lookup_replicate_1 from.
    rewrite elem_of_empty. split; [done|lia].
  - intros k rw Hk HI. destruct (lookup_lt_is_Some_2 p k) as [j Hj]; [lia|]. rewrite Hj. simpl.
    pose proof HI as [Hlen _].
    assert (Hb : ∀ s, s ∈ succs k j → s < length rw)
      by (intros s Hs; rewrite Hlen; by eapply wf_succs).
    destruct (IsReturn j) eqn:Hr; [|destruct (IsJump j) eqn:Hjmp].
    + exists rw. split; [done|]. apply (preds_below_step p k j rw); [done..|].
      split; [done|]. intros to s Hs. exists s. split; [done|]. intros from.
      unfold succs. rewrite Hr, elem_of_nil. naive_solver.
    + destruct (add_edges_spec rw k (JumpOffsets j)) as (rw' & -> & Ha).
      { intros o Ho. apply Hb. rewrite jump_offsets_succs by done.
        apply list_elem_of_fmap. by exists o. }
      exists rw'. split; [done|]. apply (preds_below_step p k j rw); [done..|].
      by rewrite jump_offsets_succs.
    + assert (E : succs k j = [S k]) by (unfold succs; by rewrite Hr, Hjmp).
      destruct (add_edge_spec rw (S k) k) as (rw' & -> & Ha);
        [apply Hb; rewrite E; apply list_elem_of_here|].
      exists rw'. split; [done|]. apply (preds_below_step p k j rw); [done..|]. by rewrite E.
  - by exists rw.
Qed.

(** ** The last modification of [A] *)

(** [b] is the last instruction to modify [A] before [pc], on the only path to [pc]. *)
Inductive last_write (p : list Instruction) (b : nat) : nat → Prop :=
  | last_here pc jb :
      (∀ q, edge p q pc ↔ q = b) → p !! b = Some jb → ModifiesRegisterA jb = true →
      last_write p b pc
  | last_before pc q j :
      (∀ q', edge p q' pc ↔ q' = q) → p !! q = Some j → ModifiesRegisterA j = false →
      last_write p b q → last_write p b pc.

Lemma edge_lt p q pc : edge p q pc → q < pc.
Proof. intros (j & _ & Hs). by apply succs_gt in Hs. Qed.

Lemma walk_back_spec p rw fuel pc before :
  preds_below p (length p) rw → rw !! pc = Some before → pc < fuel →
  ∃ res, walk_back fuel p rw before = Some res ∧
    ∀ b, res = Some b → b < length p ∧ last_write p b pc.
Proof.
  intros Hpre. pose proof Hpre as [Hlen Hp]. revert pc before.
  induction fuel as [|fuel IH]; intros pc before Hpc Hf; [lia|]. simpl.
  assert (Hmem : ∀ q, q ∈ elements before ↔ edge p q pc).
  { intros q. rewrite elem_of_elements, (Hp pc before Hpc). split; [naive_solver|].
    intros HE. split; [|done]. destruct HE as (j & Hj & _). by eapply lookup_lt_Some. }
  destruct (elements before) as [|q [|q' l]]; [by exists None| |by exists None].
  assert (Hq : ∀ q', edge p q' pc ↔ q' = q)
    by (intros q'; by rewrite <- Hmem, list_elem_of_singleton).
  assert (HE : edge p q pc) by (by apply Hq). pose proof (edge_lt _ _ _ HE).
  destruct HE as (j & Hj & _). pose proof (lookup_lt_Some _ _ _ Hj). rewrite Hj. simpl.
  destruct (ModifiesRegisterA j) eqn:HA; simpl.
  - exists (Some q). split; [done|]. intros b ?. simplify_eq. split; [done|].
    by eapply last_here.
  - destruct (lookup_lt_is_Some_2 rw q) as [bq Hbq]; [lia|]. rewrite Hbq. simpl.
    destruct (IH q bq Hbq) as (res & -> & Hres); [lia|]. exists res. split; [done|].
    intros b Hb. destruct (Hres b Hb). split; [done|]. by eapply last_before.
Qed.

(** ** Repeating a load *)

Section Loads.
Context (e : Endianness) (inp : Input).

(** A stable load always loads the same value. *)
Lemma stable_load_effect j :
  ins_ok j → class j = Op.Ld → stable_load j = true →
  (∃ v, ∀ m, exec_ins e inp j m = Cont (set_A m v)) ∨ (∃ c, ∀ m, exec_ins e inp j m = Fault c).
Proof.
  intros [_ Hk _ _] Hc Hs. destruct j as [op jt jf k]. simpl in Hk.
  by_opcode Hk; try discriminate Hc; try discriminate Hs; unfold exec_ins; simpl;
    try (left; eexists; intros m; reflexivity).
  - destruct (load32 e inp k); [left|right]; eexists; intros m; reflexivity.
  - destruct (load16 e inp k); [left|right]; eexists; intros m; reflexivity.
  - destruct (load8 inp k); [left|right]; eexists; intros m; reflexivity.
Qed.

Lemma keeps_A j m m' :
  ins_ok j → ModifiesRegisterA j = false → exec_ins e inp j m = Cont m' → mA m' = mA m.
Proof.
  intros [_ Hk _ _] Ha. destruct j as [op jt jf k]. simpl in Hk.
  by_opcode Hk; try discriminate Ha; unfold exec_ins, load_to, mem_to, mem_store, conditionalJumpOffset; simpl; intros;
    repeat case_match; by simplify_eq/=.
Qed.

Lemma set_A_same m v : set_A m v = m ↔ v = mA m.
Proof. destruct m; unfold set_A; simpl. split; [by intros [=]|by intros ->]. Qed.

(** Doing a load again changes nothing as long as [A] is the same. *)
Lemma reload j m m' :
  ins_ok j → class j = Op.Ld → stable_load j = true →
  exec_ins e inp j m = Cont m → mA m' = mA m → exec_ins e inp j m' = Cont m'.
Proof.
  intros Hok Hc Hs He Ha.
  destruct (stable_load_effect j Hok Hc Hs) as [[v Hv]|[c Hf]]; [|congruence].
  rewrite Hv in He |- *. injection He as Hm. apply set_A_same in Hm.
  f_equal. apply set_A_same. congruence.
Qed.

Lemma load_again j m m' :
  ins_ok j → class j = Op.Ld → stable_load j = true →
  exec_ins e inp j m = Cont m' → exec_ins e inp j m' = Cont m'.
Proof.
  intros Hok Hc Hs He.
  destruct (stable_load_effect j Hok Hc Hs) as [[v Hv]|[c Hf]]; [|congruence].
  rewrite Hv in He |- *. by injection He as <-.
Qed.

Lemma Equal_load j j' m :
  ins_ok j → class j = Op.Ld → Equal j j' = true →
  class j' = Op.Ld ∧ exec_ins e inp j m = exec_ins e inp j' m.
Proof.
  intros [_ Hk _ _] Hc He. destruct j as [op jt jf k], j' as [op' jt' jf' k'].
  unfold Equal in He. cbn [OpCode KVal] in He.
  destruct (op =? op')%Z eqn:E; [|done]. apply Z.eqb_eq in E as <-.
  split; [exact Hc|]. simpl in Hk.
  by_opcode Hk; try discriminate Hc; simpl in He; try (apply Z.eqb_eq in He as <-); reflexivity.
Qed.

(** The value last loaded into [A] is still there. *)
Definition loaded (p : list Instruction) (pc : nat) (m : machine) : Prop :=
  ∀ b jb, last_write p b pc → p !! b = Some jb → class jb = Op.Ld → exec_ins e inp jb m = Cont m.

Lemma loaded_step p pc j s m m' :
  wf_prog p → stable_loads p → loaded p pc m → p !! pc = Some j → s ∈ succs pc j →
  exec_ins e inp j m = Cont m' ∨ (m' = m ∧ IsJump j = true) → loaded p s m'.
Proof.
  intros Hwf Hst HL Hj Hs Hstep b jb Hb Hjb Hc.
  assert (Hokb : ins_ok jb) by (by eapply wf_ins).
  assert (Hstb : stable_load jb = true) by exact (Forall_lookup_1 _ _ _ _ Hst Hjb).
  assert (HE : edge p pc s) by (by exists j).
  destruct Hb as [s jb' Hq Hjb' HA|s q jq Hq Hjq HA Hb]; apply Hq in HE; subst.
  - simplify_eq. destruct Hstep as [Hstep|[_ Hjmp]]; [by eapply load_again|].
    unfold IsJump in Hjmp. rewrite Hc in Hjmp. discriminate Hjmp.
  - simplify_eq. apply (reload jb m); [done..|by apply (HL b jb)|].
    destruct Hstep as [Hstep|[-> _]]; [by eapply keeps_A, Hstep; [eapply wf_ins|]|done].
Qed.

Lemma loaded_invariant p : wf_prog p → stable_loads p → run_invariant e inp p (loaded p).
Proof.
  intros Hwf Hst pc m j HL Hj. pose proof (wf_ins _ Hwf _ _ Hj) as Hok.
  pose proof (exec_ins_flow e inp j m Hok) as Hfl.
  destruct (exec_ins e inp j m) as [m'|off| | |] eqn:He; try done.
  - apply (loaded_step p pc j _ m); auto.
  - apply (loaded_step p pc j _ m); [done..|apply Hfl|right]. split; [done|].
    by eapply effect_jump.
Qed.

Lemma loaded_start p m : loaded p 0 m.
Proof.
  intros b jb Hb. exfalso.
  inversion Hb as [? ? Hq|? q ? Hq]; subst;
    [pose proof (proj2 (Hq b) eq_refl) as HE|pose proof (proj2 (Hq q) eq_refl) as HE];
    apply edge_lt in HE; lia.
Qed.

End Loads.

(** ** The pass *)

Local Arguments walk_back : simpl never.

Lemma load_falls_through k j : class j = Op.Ld → S k ∈ succs k j.
Proof. intros Hc. unfold succs, IsReturn, IsJump. rewrite Hc. apply list_elem_of_here. Qed.

(** What it means for an instruction to be marked. *)
Definition redundant (p : list Instruction) (k : nat) : Prop :=
  ∃ j b jb, p !! k = Some j ∧ class j = Op.Ld ∧ last_write p b k ∧ p !! b = Some jb ∧
    Equal j jb = true.

Lemma removeRedundantLoads_unfold p :
  wf_prog p →
  ∃ b : nat → bool, (∀ k, b k = true → redundant p k) ∧
    removeRedundantLoads p = removal_Apply p (filter (λ k, b k = true) (seq 0 (length p))).
Proof.
  intros Hwf. unfold removeRedundantLoads.
  destruct (reverse_walk_spec p Hwf) as (rw & -> & Hpre). simpl. pose proof Hpre as [Hlen _].
  set (b := λ k, match (j ← p !! k; before ← rw !! k;
                        res ← walk_back (S (length p)) p rw before; lastA ← res;
                        jb ← p !! lastA;
                        Some ((class j =? Op.Ld)%Z && Equal j jb)) with
                 | Some x => x | None => false end).
  exists b. split.
  - intros k Hb. unfold b in Hb. destruct (p !! k) as [j|] eqn:Hj; [|done]. cbn [mbind option_bind] in Hb.
    destruct (rw !! k) as [before|] eqn:Hbe; [|done]. cbn [mbind option_bind] in Hb.
    destruct (walk_back_spec p rw (S (length p)) k before) as (res & Hres & Hlw); [done..| |].
    { apply lookup_lt_Some in Hj. lia. }
    rewrite Hres in Hb. cbn [mbind option_bind] in Hb. destruct res as [a|]; [|done].
    destruct (Hlw a eq_refl) as [_ Hla]. simpl in Hb.
    destruct (p !! a) as [ja|] eqn:Hja; [|done]. simpl in Hb.
    apply andb_true_iff in Hb as [Hc Heq]. apply Z.eqb_eq in Hc. by exists j, a, ja.
  - rewrite (range_loop_collect _ b); [done|]. intros k l Hk. unfold b.
    destruct (lookup_lt_is_Some_2 p k) as [j Hj]; [lia|]. rewrite Hj.
    destruct (lookup_lt_is_Some_2 rw k) as [before Hbe]; [lia|]. rewrite Hbe. cbn [mbind option_bind].
    destruct (walk_back_spec p rw (S (length p)) k before) as (res & Hres & Hlw); [done..|lia|].
    destruct (class j =? Op.Ld)%Z; simpl; rewrite Hres; simpl.
    + destruct res as [a|]; [|done]. destruct (Hlw a eq_refl) as [Ha _].
      destruct (lookup_lt_is_Some_2 p a Ha) as [ja Hja]. simpl. rewrite Hja. simpl.
      by destruct (Equal j ja).
    + destruct res as [a|]; [|done]. simpl. by destruct (p !! a).
Qed.

Lemma removeRedundantLoads_result p :
  wf_prog p → ∃ p' c, removeRedundantLoads p = Some (p', c) ∧ pass_result p p' c.
Proof.
  intros Hwf. destruct (removeRedundantLoads_unfold p Hwf) as (b & Hb & ->).
  assert (Hfall : ∀ k j, p !! k = Some j → b k = true → S k ∈ succs k j).
  { intros k j Hj E. destruct (Hb k E) as (j' & a & ja & Hj' & Hc & _). simplify_eq.
    by apply load_falls_through. }
  apply removal_improves; [done|by apply kept_flow_fallthrough| |].
  - destruct (kept_after p b 0) as (k & ? & ?); [done| |done|by exists k; split; [lia|]].
    destruct Hwf as [Hne _ _]. destruct p; [done|simpl; lia].
  - intros Hst e inp. exists (loaded e inp p).
    split; [by apply loaded_invariant|]. split; [apply loaded_start|].
    intros k Hk m j HL Hj. left.
    destruct (Hb k (marked_test _ _ _ Hk)) as (j' & a & ja & Hj' & Hc & Hla & Hja & Heq).
    simplify_eq. destruct (Equal_load e inp j ja m) as [Hca ->]; [by eapply wf_ins|done..|].
    by apply (HL a ja).
Qed.
