(* ===== verification/OptReturns.v ===== *)
(** * Merging returns

    [rewriteAllJumpsToReturn] redirects all jumps from one return instruction to an equal one.
    When every instruction is entered, as it is once [removeDeadCode] has nothing to remove,
    each success leaves one more instruction without predecessor, so
    [optimizeJumpsToSmallestSetOfReturns] is an improvement. *)

From stdpp Require Import base numbers decidable gmap sorting list.
From S2P Require Import Prelude Instr Machine MachineFacts Optimizer OptBase OptJumps OptRemove.

Local Open Scope bits_scope.

(** ** Redirecting the jumps to one instruction *)

Definition redirect (from to s : nat) : nat := if s =? from then to else s.

(** The offset, from [pc], of the new target. *)
Definition redirect_off (from to pc : nat) (off : Z) : Z :=
  if target_of pc off =? from then (Z.of_nat to - Z.of_nat pc - 1)%Z else off.

Definition retarget (from to pc : nat) (j : Instruction) : Instruction :=
  if IsConditionalJump j then
    mkIns (OpCode j) (redirect_off from to pc (JumpIfTrue j))
      (redirect_off from to pc (JumpIfFalse j)) (KVal j)
  else if IsUnconditionalJump j then
    mkIns (OpCode j) (JumpIfTrue j) (JumpIfFalse j) (redirect_off from to pc (KVal j))
  else j.

(** The new offset fits. *)
Definition redirectable (from to pc : nat) (j : Instruction) : Prop :=
  from ∈ jump_targets pc j →
  (0 <= Z.of_nat to - Z.of_nat pc - 1 <=
   if IsConditionalJump j then maxConditionalJumpOffset else maxUnconditionalJumpOffset)%Z.

Section Retarget.
Context (from to pc : nat) (j : Instruction).
Context (Hok : ins_ok j) (Hr : redirectable from to pc j).

Lemma retarget_op : OpCode (retarget from to pc j) = OpCode j.
Proof. unfold retarget. repeat case_if; done. Qed.

Lemma retarget_not_jump : IsJump j = false → retarget from to pc j = j.
Proof.
  intros Hj. unfold retarget. destruct (IsConditionalJump j) eqn:Hc.
  - by rewrite cond_jump_is_jump in Hj.
  - destruct (IsUnconditionalJump j) eqn:Hu; [by rewrite uncond_jump_is_jump in Hj|done].
Qed.

Lemma redirect_off_target off :
  (target_of pc off = from → (0 <= Z.of_nat to - Z.of_nat pc - 1)%Z) →
  target_of pc (redirect_off from to pc off) = redirect from to (target_of pc off).
Proof.
  intros Hn. unfold redirect_off, redirect. case_if; to_prop; [|done].
  specialize (Hn ltac:(done)). unfold target_of. lia.
Qed.

Lemma retarget_succs :
  IsJump j = true → succs pc (retarget from to pc j) = redirect from to <$> succs pc j.
Proof.
  intros Hj. unfold redirectable in Hr. unfold retarget.
  destruct (IsConditionalJump j) eqn:Hc.
  - rewrite cond_targets in Hr by done. rewrite !cond_succs by done. simpl.
    rewrite !redirect_off_target; [done|intros E; apply Hr; rewrite E; set_solver..].
  - rewrite jump_cases in Hc by done. apply negb_false_iff in Hc. rewrite Hc.
    rewrite uncond_targets in Hr by done. rewrite !uncond_succs by done. simpl.
    rewrite redirect_off_target; [done|intros E; apply Hr; rewrite E; set_solver].
Qed.

Lemma retarget_ok : ins_ok (retarget from to pc j).
Proof.
  destruct (ok_range _ Hok) as (? & Ht & Hf & Hk). unfold retarget, redirectable in *.
  destruct (IsConditionalJump j) eqn:Hc.
  - rewrite cond_targets in Hr by done. change maxConditionalJumpOffset with 255%Z in Hr.
    apply ins_ok_retarget; [done|..]; unfold redirect_off; case_if; to_prop; try done;
      unfold in_u8; (assert (_ ∧ _) as [??] by (apply Hr; set_solver)); lia.
  - destruct (IsUnconditionalJump j) eqn:Hu; [|done].
    rewrite uncond_targets in Hr by done. change maxUnconditionalJumpOffset with 65535%Z in Hr.
    apply (ins_ok_set_K j); [done..|]. unfold redirect_off. case_if; to_prop; [|done].
    unfold in_u32. assert (_ ∧ _) as [??] by (apply Hr; set_solver). lia.
Qed.

(** The same effect, with the jump redirected. *)
Lemma retarget_effect e inp m :
  match exec_ins e inp j m with
  | JumpBy off => ∃ off', exec_ins e inp (retarget from to pc j) m = JumpBy off' ∧
      S (pc + off') = redirect from to (S (pc + off))
  | r => exec_ins e inp (retarget from to pc j) m = r
  end.
Proof.
  destruct (IsJump j) eqn:Hj; cycle 1.
  { rewrite retarget_not_jump by done. destruct (exec_ins e inp j m) eqn:He; try done.
    by rewrite (effect_jump e inp j m off Hok He) in Hj. }
  pose proof (retarget_succs Hj) as Hs. pose proof retarget_ok as Hok'.
  unfold retarget in *. destruct (IsConditionalJump j) eqn:Hc.
  - destruct (effect_cond e inp j m Hok Hc) as [c He]. rewrite He.
    specialize (He (JumpIfTrue j) (JumpIfFalse j)).
    replace (mkIns _ _ _ _) with j in He by (by destruct j). rewrite He.
    eexists. split; [done|]. rewrite !cond_succs in Hs by done. simpl in Hs.
    injection Hs as H1 H2. by destruct c.
  - rewrite jump_cases in Hc by done. apply negb_false_iff in Hc. rewrite Hc in *.
    rewrite !effect_uncond by done. eexists. split; [done|].
    rewrite !uncond_succs in Hs by done. simpl in Hs. by injection Hs.
Qed.

End Retarget.

(** ** The scan and its rewrites *)

Lemma apply_rewrites_app p ops1 ops2 :
  apply_rewrites p (ops1 ++ ops2) = (p' ← apply_rewrites p ops1; apply_rewrites p' ops2).
Proof.
  revert p. induction ops1 as [|op ops1 IH]; intros p; simpl; [done|].
  destruct (apply_rewrite p op); simpl; [apply IH|done].
Qed.

(** The rewrites of one instruction retarget it. *)
Lemma rewrites_at_spec p pc from to j ops :
  p !! pc = Some j → rewrites_at pc from to j = Some ops →
  apply_rewrites p ops = Some (<[pc := retarget from to pc j]> p) ∧
  redirectable from to pc j ∧ (ops = [] ↔ from ∉ jump_targets pc j).
Proof.
  intros Hj. pose proof (lookup_lt_Some _ _ _ Hj) as Hlt.
  unfold rewrites_at, rewrite_target, redirectable, retarget, redirect_off.
  change maxConditionalJumpOffset with 255%Z. change maxUnconditionalJumpOffset with 65535%Z.
  assert (Hid : <[pc := j]> p = p) by (by apply list_insert_id).
  destruct (IsConditionalJump j) eqn:Hc; [|destruct (IsUnconditionalJump j) eqn:Hu].
  - rewrite cond_targets by done. rewrite elem_of_cons, list_elem_of_singleton.
    destruct (target_of pc (JumpIfTrue j) =? from) eqn:E1,
      (target_of pc (JumpIfFalse j) =? from) eqn:E2; to_prop;
      try (destruct ((_ <? 0)%Z || (_ >? 255)%Z) eqn:E; [by intros [=]|]); simpl;
      intros [= <-]; simpl; unfold apply_rewrite; simpl; rewrite ?Hj; simpl;
      rewrite ?list_lookup_insert_eq by done; simpl; rewrite ?list_insert_insert_eq; simpl;
      to_prop; rewrite ?wrap8_small by (unfold in_u8; lia).
    4: split; [rewrite <- Hid at 1; destruct j; done|split; [intros; naive_solver|naive_solver]].
    all: split; [done|split; [intros; lia|split; [done|intros; naive_solver]]].
  - rewrite uncond_targets by done. rewrite list_elem_of_singleton.
    destruct (target_of pc (KVal j) =? from) eqn:E1; to_prop;
      try (destruct ((_ <? 0)%Z || (_ >? 65535)%Z) eqn:E; [by intros [=]|]); simpl;
      intros [= <-]; simpl; unfold apply_rewrite; simpl; rewrite ?Hj; simpl; to_prop;
      rewrite ?wrap32_small by (unfold in_u32; lia).
    + split; [done|split; [intros; lia|split; [by intros|intros; naive_solver]]].
    + split; [rewrite <- Hid at 1; destruct j; done|naive_solver].
  - intros [= <-]. rewrite Hid. unfold jump_targets.
    destruct (IsJump j) eqn:Hjmp; [by rewrite (jump_cases j Hjmp), Hu in Hc|].
    split; [done|]. split; [by intros ?%elem_of_nil|]. split; [|done]. intros _. apply not_elem_of_nil.
Qed.

(** [q] is [p] with the jumps of its first [k] instructions redirected. *)
Record redirected_below (p q : list Instruction) (from to k : nat) : Prop := {
  rd_length : length q = length p;
  rd_lookup : ∀ i, q !! i = (if i <? k then retarget from to i else id) <$> p !! i;
  rd_fits : ∀ i j, i < k → p !! i = Some j → redirectable from to i j
}.

Lemma redirected_step p q from to k j :
  p !! k = Some j → redirectable from to k j → redirected_below p q from to k →
  redirected_below p (<[k := retarget from to k j]> q) from to (S k).
Proof.
  intros Hj Hr [Hlen Hl Hf]. pose proof (lookup_lt_Some _ _ _ Hj). split.
  - by rewrite length_insert.
  - intros i. destruct (decide (i = k)) as [->|Hne].
    + rewrite list_lookup_insert_eq by lia. rewrite Hj. simpl.
      by replace (k <? S k) with true by (symmetry; apply Nat.ltb_lt; lia).
    + rewrite list_lookup_insert_ne by done. rewrite Hl.
      replace (i <? S k) with (i <? k); [done|].
      destruct (i <? k) eqn:E; symmetry; to_prop; [apply Nat.ltb_lt|apply Nat.ltb_ge]; lia.
  - intros i j' Hi Hj'. destruct (decide (i = k)) as [->|]; [by simplify_eq|].
    apply Hf; [lia|done].
Qed.

Definition jumped_to (p : list Instruction) (k from : nat) : Prop :=
  ∃ i j, i < k ∧ p !! i = Some j ∧ from ∈ jump_targets i j.

Lemma scan_rewrites_spec p from to :
  from ≤ length p →
  ∃ scan, scan_rewrites p from to = Some scan ∧
    ∀ ops, scan = Some ops →
      (ops ≠ [] → jumped_to p from from) ∧
      ∃ q, apply_rewrites p ops = Some q ∧ redirected_below p q from to from.
Proof.
  intros Hlen. unfold scan_rewrites.
  match goal with |- context [range_loop ?b ?n ?pc ?s] =>
    destruct (range_loop_inv b (λ k scan, ∀ ops, scan = Some ops →
      (ops ≠ [] → jumped_to p k from) ∧
      ∃ q, apply_rewrites p ops = Some q ∧ redirected_below p q from to k) n pc s)
      as (scan & Hs & HI) end.
  - intros ops [= <-]. split; [done|]. exists p. split; [done|]. split; [done| |lia].
    intros i. simpl. by destruct (p !! i).
  - intros k [ops|] Hk HI; [|by exists None].
    destruct (lookup_lt_is_Some_2 p k) as [j Hj]; [lia|]. rewrite Hj. simpl.
    destruct (rewrites_at k from to j) as [new|] eqn:Hnew; eexists; (split; [done|]); [|done].
    intros ops' [= <-]. destruct (HI ops eq_refl) as (Hj1 & q & Hq & Hrd). clear HI.
    assert (Hqk : q !! k = Some j)
      by (rewrite (rd_lookup _ _ _ _ _ Hrd), Hj, Nat.ltb_irrefl; done).
    destruct (rewrites_at_spec q k from to j new Hqk Hnew) as (Hap & Hfit & Hnil). split.
    + intros Hne. destruct (decide (new = [])) as [->|Hn].
      * rewrite app_nil_r in Hne. destruct (Hj1 Hne) as (i & j' & ? & ? & ?).
        exists i, j'. split; [lia|done].
      * exists k, j. split; [lia|]. split; [done|].
        destruct (decide (from ∈ jump_targets k j)); [done|]. by destruct Hn; apply Hnil.
    + exists (<[k := retarget from to k j]> q). split.
      * by rewrite apply_rewrites_app, Hq.
      * by apply redirected_step.
  - by exists scan.
Qed.

(** All the jumps to [from], of which there is one, go to [to] in [q]. *)
Record redirected (p q : list Instruction) (from to : nat) : Prop := {
  red_length : length q = length p;
  red_lookup : ∀ i, q !! i = retarget from to i <$> p !! i;
  red_fits : ∀ i j, p !! i = Some j → redirectable from to i j;
  red_some : jumped_to p (length p) from
}.

(** Instructions from [from] on do not jump to [from]. *)
Lemma not_behind from to i j :
  from ≤ i → ¬ (from ∈ jump_targets i j) ∧ retarget from to i j = j.
Proof.
  intros Hi. assert (Hn : ∀ off, (target_of i off =? from) = false)
    by (intros off; apply Nat.eqb_neq; unfold target_of; lia). split.
  - intros Hin. apply jump_targets_succs, succs_gt in Hin. lia.
  - unfold retarget, redirect_off. rewrite !Hn. by destruct j; simpl; repeat case_if.
Qed.

Lemma redirected_below_all p q from to :
  from < length p → redirected_below p q from to from → jumped_to p from from →
  redirected p q from to.
Proof.
  intros Hlt [H1 H2 H3] (i & j & Hi & Hj & Hin). split; [done|..].
  - intros k. rewrite H2. destruct (k <? from) eqn:E; [done|]. to_prop.
    destruct (p !! k) as [jk|]; [|done]. simpl. f_equal. symmetry. by apply not_behind.
  - intros k jk Hjk. destruct (decide (k < from)); [by apply H3|].
    intros Hin'. by apply (not_behind from to) in Hin'; [|lia].
  - exists i, j. split; [lia|done].
Qed.

Lemma rewriteAll_spec p from to jf jt :
  p !! from = Some jf → p !! to = Some jt → IsReturn jf = true → IsReturn jt = true →
  Equal jf jt = true →
  ∃ q c, rewriteAllJumpsToReturn p from to = Some (q, c) ∧
    if c : bool then redirected p q from to else q = p.
Proof.
  intros Hf Ht Hrf Hrt He. unfold rewriteAllJumpsToReturn. rewrite Hf, Ht. simpl.
  rewrite Hrf, Hrt, He. simpl. pose proof (lookup_lt_Some _ _ _ Hf).
  destruct (scan_rewrites_spec p from to) as (scan & -> & HI); [lia|]. simpl.
  destruct scan as [ops|]; [|by exists p, false].
  destruct (HI ops eq_refl) as (Hj & q & Hq & Hrd).
  destruct ops as [|op ops]; [by exists p, false|].
  cbn [mbind option_bind]. rewrite Hq. simpl. exists q, true. split; [done|].
  apply redirected_below_all; [done..|]. by apply Hj.
Qed.

(** ** What redirection preserves *)

Section Redirected.
Context (p q : list Instruction) (from to : nat) (jf jt : Instruction).
Context (Hwf : wf_prog p) (Hred : redirected p q from to).
Context (Hf : p !! from = Some jf) (Ht : p !! to = Some jt).
Context (Hrf : IsReturn jf = true) (Hrt : IsReturn jt = true) (He : Equal jf jt = true).

Lemma redirected_origin i j' :
  q !! i = Some j' → ∃ j, p !! i = Some j ∧ j' = retarget from to i j ∧ ins_ok j ∧
    redirectable from to i j.
Proof.
  rewrite (red_lookup _ _ _ _ Hred). intros Hj. destruct (p !! i) as [j|] eqn:Hi; simplify_eq/=.
  exists j. split_and!; [done|done|by eapply wf_ins|by eapply red_fits].
Qed.

Lemma redirected_ops : OpCode <$> q = OpCode <$> p.
Proof.
  apply list_eq. intros i. rewrite !list_lookup_fmap, (red_lookup _ _ _ _ Hred).
  destruct (p !! i); simpl; [|done]. by rewrite retarget_op.
Qed.

Lemma redirected_return i j : IsReturn j = true → p !! i = Some j → q !! i = Some j.
Proof.
  intros Hr Hi. rewrite (red_lookup _ _ _ _ Hred), Hi. simpl.
  by rewrite retarget_not_jump by (by apply return_not_jump).
Qed.

(** A successor in [q] is a successor in [p], redirected or fallen through to. *)
Lemma redirected_succs i j s :
  ins_ok j → redirectable from to i j → s ∈ succs i (retarget from to i j) →
  ∃ s0, s0 ∈ succs i j ∧ (s = redirect from to s0 ∨ (s = s0 ∧ IsJump j = false)).
Proof.
  intros Hok Hr Hs. destruct (IsJump j) eqn:Hj.
  - rewrite retarget_succs in Hs by done. apply list_elem_of_fmap in Hs as (s0 & -> & Hs0).
    exists s0. auto.
  - rewrite retarget_not_jump in Hs by done. exists s. auto.
Qed.

Lemma redirected_wf : wf_prog q.
Proof.
  split.
  - intros ->. pose proof (red_length _ _ _ _ Hred) as Hl. destruct Hwf as [Hne _ _].
    by destruct p.
  - intros i j' Hj'. destruct (redirected_origin i j' Hj') as (j & _ & -> & Hok & Hr).
    by apply retarget_ok.
  - intros i j' s Hj' Hs. destruct (redirected_origin i j' Hj') as (j & Hj & -> & Hok & Hr).
    rewrite (red_length _ _ _ _ Hred).
    destruct (redirected_succs i j s Hok Hr Hs) as (s0 & Hs0 & Hcase).
    pose proof (wf_succs _ Hwf i j s0 Hj Hs0). pose proof (lookup_lt_Some _ _ _ Ht).
    destruct Hcase as [->|[-> _]]; [|done]. unfold redirect. by case_if.
Qed.

Lemma Equal_return e inp m : exec_ins e inp jf m = exec_ins e inp jt m.
Proof.
  pose proof (wf_ins _ Hwf _ _ Hf) as [_ Hk _ _]. destruct jf as [op a b k], jt as [op' a' b' k'].
  unfold Equal in He. cbn [OpCode KVal] in He.
  destruct (op =? op')%Z eqn:E; [|done]. apply Z.eqb_eq in E as <-. simpl in Hk.
  by_opcode Hk; try discriminate Hrf; simpl in He; try (apply Z.eqb_eq in He as <-); reflexivity.
Qed.

Lemma redirect_eval e inp s m : eval e inp p (redirect from to s) m = eval e inp p s m.
Proof.
  unfold redirect. case_if; to_prop; [subst s|done].
  rewrite !eval_unfold. unfold step_with. rewrite Hf, Ht, Equal_return.
  by rewrite effect_return by (done || by eapply wf_ins).
Qed.

Lemma redirected_equivalent : equivalent p q.
Proof.
  intros e inp m. symmetry. apply (eval_unique e inp q (eval e inp p)). clear m. intros i m.
  rewrite (eval_unfold e inp p). unfold step_with. rewrite (red_lookup _ _ _ _ Hred).
  destruct (p !! i) as [j|] eqn:Hj; simpl; [|done].
  pose proof (retarget_effect from to i j (wf_ins _ Hwf _ _ Hj) (red_fits _ _ _ _ Hred _ _ Hj) e inp m)
    as Heff.
  destruct (exec_ins e inp j m) as [m'|off| | |]; try (by rewrite Heff).
  destruct Heff as (off' & -> & ->). by rewrite redirect_eval.
Qed.

(** Nothing else loses its predecessors. *)
Lemma redirected_entered s : s ≠ from → s ∈ entered p → s ∈ entered q.
Proof.
  intros Hne Hs. apply elem_of_entered in Hs as [->|(i & j & Hj & Hs)];
    apply elem_of_entered; [by left|right].
  exists i, (retarget from to i j). rewrite (red_lookup _ _ _ _ Hred), Hj. split; [done|].
  pose proof (wf_ins _ Hwf _ _ Hj) as Hok. pose proof (red_fits _ _ _ _ Hred _ _ Hj) as Hr.
  destruct (IsJump j) eqn:Hjmp.
  - rewrite retarget_succs by done. apply list_elem_of_fmap. exists s. split; [|done].
    unfold redirect. case_if; [by to_prop|done].
  - by rewrite retarget_not_jump.
Qed.

(** No instruction falls through to [from]. *)
Definition not_fallen (l : list Instruction) (t : nat) : Prop :=
  ∀ i j, l !! i = Some j → IsJump j = false → t ∉ succs i j.

(** If [to] is entered, [from] is one entered instruction less. *)
Lemma redirected_decreases :
  from ≠ to → not_fallen p from → to ∈ entered p → size (entered q) < size (entered p).
Proof.
  intros Hne Hnf Hto. destruct (red_some _ _ _ _ Hred) as (i & j & _ & Hj & Hin).
  apply jump_targets_succs in Hin. pose proof (succs_gt _ _ _ Hin).
  apply subset_size. split.
  - intros s Hs. apply elem_of_entered in Hs as [->|(k & j' & Hj' & Hs)];
      [apply elem_of_entered; by left|].
    destruct (redirected_origin k j' Hj') as (jk & Hjk & -> & Hok & Hr).
    destruct (redirected_succs k jk s Hok Hr Hs) as (s0 & Hs0 & [->|[-> _]]);
      [|by eapply succs_entered].
    unfold redirect. case_if; [done|by eapply succs_entered].
  - intros Hsub. assert (Hfe : from ∈ entered q) by (by eapply Hsub, succs_entered).
    apply elem_of_entered in Hfe as [?|(k & j' & Hj' & Hs)]; [lia|].
    destruct (redirected_origin k j' Hj') as (jk & Hjk & -> & Hok & Hr).
    destruct (redirected_succs k jk from Hok Hr Hs) as (s0 & Hs0 & [E|[-> Hnj]]).
    + unfold redirect in E. destruct (s0 =? from) eqn:E0; to_prop; [done|]. by destruct E0.
    + by eapply Hnf.
Qed.

End Redirected.

(** ** Collecting the returns *)

(** The key of a return instruction. *)
Definition ret_value (j : Instruction) : Z :=
  if (OpCode j =? Op.Ret .| Op.A)%Z then retRegisterA else KVal j.

Lemma ret_value_code j :
  ins_ok j → IsReturn j = true →
  (if (OpCode j - Op.Ret =? Op.A)%Z then Some retRegisterA
   else if (OpCode j - Op.Ret =? Op.K)%Z then Some (KVal j) else None) = Some (ret_value j).
Proof.
  intros [_ Hk _ _] Hr. unfold ret_value.
  by destruct (known_return j Hk Hr) as [E|E]; rewrite E.
Qed.

Lemma ret_value_Equal i j :
  ins_ok i → ins_ok j → IsReturn i = true → IsReturn j = true → ret_value i = ret_value j →
  Equal i j = true.
Proof.
  intros [(_ & _ & _ & Hi) Hki _ _] [(_ & _ & _ & Hj) Hkj _ _] Hri Hrj.
  destruct (known_return i Hki Hri) as [E|E], (known_return j Hkj Hrj) as [E'|E'];
    unfold ret_value, Equal, class; rewrite E, E'; simpl; unfold retRegisterA, in_u32 in *;
    intros Hv; [by apply Z.eqb_eq|lia..|done].
Qed.

Lemma ret_popularity_spec p pc :
  pc ≤ length p →
  ∃ popularity fall, ret_popularity p pc = Some (popularity, fall) ∧
    (fall = false → not_fallen p pc).
Proof.
  intros Hpc. unfold ret_popularity.
  match goal with |- context [range_loop ?b ?n ?pc0 ?s] =>
    destruct (range_loop_inv b (λ k '(_, fall), fall = false →
      ∀ i j, i < k → p !! i = Some j → IsJump j = false → pc ∉ succs i j) n pc0 s)
      as ([popularity fall] & Hrun & HI) end.
  - intros _ i j Hi. lia.
  - intros k [popularity fall] Hk HI.
    destruct (lookup_lt_is_Some_2 p k) as [j Hj]; [lia|]. rewrite Hj. simpl.
    assert (Hext : fall = false → (IsJump j = false → pc ∉ succs k j) →
      ∀ i j0, i < S k → p !! i = Some j0 → IsJump j0 = false → pc ∉ succs i j0).
    { intros Hfl Hnew i j0 Hi Hj0. destruct (decide (i = k)) as [->|]; [by simplify_eq|].
      apply (HI Hfl); [lia|done]. }
    change (class j =? Op.Ret)%Z with (IsReturn j). change (class j =? Op.Jmp)%Z with (IsJump j).
    unfold succs in Hext. destruct (IsReturn j) eqn:Hr; [|destruct (IsJump j) eqn:Hjmp].
    + eexists. split; [done|]. simpl. intros Hfl. apply Hext; [done|].
      intros _. apply not_elem_of_nil.
    + destruct (IsConditionalJump j); (eexists; split; [done|]); simpl; intros Hfl;
        by apply Hext.
    + destruct (k =? pc - 1) eqn:E; (eexists; split; [done|]); simpl; [done|].
      intros Hfl. apply Hext; [done|]. to_prop. intros _ Hin. apply list_elem_of_singleton in Hin. lia.
  - exists popularity, fall. split; [done|]. intros Hfl i j Hj Hnj.
    destruct (decide (i < pc)); [by apply (HI Hfl i)|].
    intros Hs%succs_gt. lia.
Qed.

(** What [collect_returns] knows after the first [k] instructions. *)
Record returns_below (p : list Instruction) (k : nat) (r : returns) : Prop := {
  rb_length : length (retCanBeFallenThrough r) = length p;
  rb_NoDup : ∀ v pcs, retValueToPC r !! v = Some pcs → NoDup pcs;
  rb_returns : ∀ v pcs i, retValueToPC r !! v = Some pcs → i ∈ pcs →
    i < k ∧ ∃ j, p !! i = Some j ∧ IsReturn j = true ∧ ret_value j = v;
  rb_fall : ∀ i j, i < k → p !! i = Some j → IsReturn j = true →
    retCanBeFallenThrough r !! i = Some false → not_fallen p i
}.

Lemma returns_below_skip p k r j :
  p !! k = Some j → IsReturn j = false → returns_below p k r → returns_below p (S k) r.
Proof.
  intros Hj Hr [H1 H2 H3 H4]. split; [done|done|..].
  - intros v pcs i Hv Hi. destruct (H3 v pcs i Hv Hi) as [? ?]. split; [lia|done].
  - intros i j' Hi Hj' Hr' Hf. destruct (decide (i = k)) as [->|]; [congruence|].
    apply (H4 i j'); [lia|done..].
Qed.

Lemma returns_below_add p k r j popularity fall :
  p !! k = Some j → IsReturn j = true → returns_below p k r →
  (fall = false → not_fallen p k) →
  returns_below p (S k) (mkReturns (<[k := popularity]> (retPopularity r))
    (<[k := fall]> (retCanBeFallenThrough r))
    (<[ret_value j := default [] (retValueToPC r !! ret_value j) ++ [k]]> (retValueToPC r))).
Proof.
  intros Hj Hr [H1 H2 H3 H4] Hfall. pose proof (lookup_lt_Some _ _ _ Hj).
  set (old := default [] (retValueToPC r !! ret_value j)).
  assert (Hold : NoDup old ∧ ∀ i, i ∈ old → i < k ∧ ∃ j', p !! i = Some j' ∧
    IsReturn j' = true ∧ ret_value j' = ret_value j).
  { subst old. destruct (retValueToPC r !! ret_value j) as [pcs|] eqn:E; simpl; [eauto|].
    split; [constructor|]. by intros i ?%elem_of_nil. }
  destruct Hold as [Hnd Hold]. split; simpl.
  - by rewrite length_insert.
  - intros v pcs. rewrite lookup_insert_Some. intros [[<- <-]|[_ Hv]]; [|by eapply H2].
    apply NoDup_app. split; [done|]. split; [|apply NoDup_singleton].
    intros i Hi Hk. apply list_elem_of_singleton in Hk as ->. destruct (Hold k Hi). lia.
  - intros v pcs i. rewrite lookup_insert_Some. intros [[<- <-]|[_ Hv]] Hi.
    + apply elem_of_app in Hi as [Hi|Hi]; [destruct (Hold i Hi); split; [lia|done]|].
      apply list_elem_of_singleton in Hi as ->. split; [lia|]. by exists j.
    + destruct (H3 v pcs i Hv Hi). split; [lia|done].
  - intros i j' Hi Hj' Hr'. destruct (decide (i = k)) as [->|].
    + rewrite list_lookup_insert_eq by lia. intros [= ->]. by apply Hfall.
    + rewrite list_lookup_insert_ne by done. apply (H4 i j'); [lia|done..].
Qed.

Lemma collect_returns_spec p :
  wf_prog p → ∃ r, collect_returns p = Some r ∧ returns_below p (length p) r.
Proof.
  intros Hwf. unfold collect_returns.
  match goal with |- context [range_loop ?b ?n ?k ?s] =>
    destruct (range_loop_inv b (returns_below p) n k s) as (r & Hr & HI) end.
  - split; simpl; [by rewrite length_replicate|..]; intros ? ?; [done|intros ? ?; done|lia].
  - intros k r Hk HI. destruct (lookup_lt_is_Some_2 p k) as [j Hj]; [lia|]. rewrite Hj. simpl.
    destruct (IsReturn j) eqn:Hr; simpl; cycle 1.
    { exists r. split; [done|]. by eapply returns_below_skip. }
    rewrite ret_value_code by (done || by eapply wf_ins). simpl.
    destruct (ret_popularity_spec p k) as (pop & fall & -> & Hf); [lia|]. simpl.
    eexists. split; [done|]. by apply returns_below_add.
  - by exists r.
Qed.

(** ** The merging loops *)

(** [p] comes from [p0] by redirections from instructions among [gone]. *)
Record merged (p0 p : list Instruction) (gone : list nat) (changed : bool) : Prop := {
  mg_wf : wf_prog p;
  mg_ops : OpCode <$> p = OpCode <$> p0;
  mg_equiv : equivalent p0 p;
  mg_return : ∀ i j, IsReturn j = true → p0 !! i = Some j → p !! i = Some j;
  mg_entered : ∀ s, s < length p0 → s ∉ gone → s ∈ entered p;
  mg_changed : if changed then size (entered p) < size (entered p0) else p = p0
}.

Lemma merged_length p0 p gone c : merged p0 p gone c → length p = length p0.
Proof. intros [_ Ho _ _ _ _]. by rewrite <- (length_fmap OpCode p), Ho, length_fmap. Qed.

Lemma merged_more p0 p gone gone' c :
  (∀ s, s ∈ gone → s ∈ gone') → merged p0 p gone c → merged p0 p gone' c.
Proof. intros Hsub [H1 H2 H3 H4 H5 H6]. split; try done. intros s Hs Hn. apply H5; auto. Qed.

Lemma not_fallen_ops p p' t : OpCode <$> p' = OpCode <$> p → not_fallen p t → not_fallen p' t.
Proof.
  intros Ho Hnf i j Hj Hnj.
  assert (Hi : (OpCode <$> p) !! i = Some (OpCode j))
    by (by rewrite <- Ho, list_lookup_fmap, Hj).
  rewrite list_lookup_fmap in Hi. destruct (p !! i) as [j0|] eqn:Hj0; simplify_eq/=.
  specialize (Hnf i j0 Hj0). unfold succs, IsReturn, IsJump, class in *.
  rewrite Hi in Hnf. rewrite Hnj in *. by apply Hnf.
Qed.

(** The instruction at [i] returns the value [v]. *)
Definition returns_value (p : list Instruction) (v : Z) (i : nat) : Prop :=
  ∃ j, p !! i = Some j ∧ IsReturn j = true ∧ ret_value j = v.

Lemma rewrite_merged p0 p gone changed v from to :
  wf_prog p0 → merged p0 p gone changed → returns_value p0 v from → returns_value p0 v to →
  from ≠ to → to ∉ gone → not_fallen p0 from →
  ∃ q c, rewriteAllJumpsToReturn p from to = Some (q, c) ∧
    merged p0 q (from :: gone) (changed || c) ∧ (c = false → q = p).
Proof.
  intros Hwf0 HM (jf & Hf & Hrf & Hvf) (jt & Ht & Hrt & Hvt) Hne Hto Hnf.
  pose proof (lookup_lt_Some _ _ _ Ht). pose proof HM as [Hwf Hops Heq Hret Hent Hch].
  assert (He : Equal jf jt = true).
  { apply ret_value_Equal; [exact (wf_ins _ Hwf0 _ _ Hf)|exact (wf_ins _ Hwf0 _ _ Ht)|done|done|].
    congruence. }
  pose proof (Hret _ _ Hrf Hf) as Hf'. pose proof (Hret _ _ Hrt Ht) as Ht'.
  destruct (rewriteAll_spec p from to jf jt) as (q & c & Hq & Hres); [done..|].
  exists q, c. split; [done|]. destruct c; cycle 1.
  { subst q. rewrite orb_false_r. split; [|done]. eapply merged_more, HM. set_solver. }
  rewrite orb_true_r. split; [|done].
  assert (Hlt : size (entered q) < size (entered p)).
  { eapply redirected_decreases; [done..| |by apply Hent]. by eapply not_fallen_ops. }
  split.
  - by eapply redirected_wf.
  - rewrite <- Hops. by eapply redirected_ops.
  - eapply equivalent_trans; [done|]. by eapply (redirected_equivalent p q from to jf jt).
  - intros i j Hr Hi. eapply redirected_return; eauto.
  - intros s Hs Hn. rewrite not_elem_of_cons in Hn. destruct Hn.
    eapply redirected_entered; [done|done|done|by apply Hent].
  - destruct changed; [lia|]. by subst p.
Qed.

Lemma try_rewrites_spec p0 p gone changed v from cands :
  wf_prog p0 → merged p0 p gone changed → returns_value p0 v from → not_fallen p0 from →
  (∀ to, to ∈ cands → returns_value p0 v to ∧ from ≠ to ∧ to ∉ gone) →
  ∃ q c, try_rewrites p from cands = Some (q, c) ∧ merged p0 q (from :: gone) (changed || c).
Proof.
  intros Hwf0 HM Hv Hnf Hc. induction cands as [|to cands IH]; simpl.
  { exists p, false. split; [done|]. rewrite orb_false_r. eapply merged_more, HM. set_solver. }
  destruct (Hc to) as (Hvt & Hne & Hg); [apply list_elem_of_here|].
  destruct (rewrite_merged p0 p gone changed v from to) as (q & c & -> & HMq & Hsame); [done..|].
  simpl. destruct c; [by exists q, true|]. rewrite (Hsame eq_refl). apply IH.
  intros t Ht. by apply Hc, list_elem_of_further.
Qed.

Lemma merge_group_spec p0 r p gone changed v pcs :
  wf_prog p0 → returns_below p0 (length p0) r → merged p0 p gone changed →
  NoDup pcs → (∀ i, i ∈ pcs → returns_value p0 v i ∧ i ∉ gone) →
  ∃ q c, merge_group (retCanBeFallenThrough r) p changed pcs = Some (q, c) ∧
    merged p0 q (pcs ++ gone) c.
Proof.
  intros Hwf0 Hrb. revert p gone changed.
  induction pcs as [|u rest IH]; intros p gone changed HM Hnd Hv; simpl; [eauto|].
  apply NoDup_cons in Hnd as [Hu Hnd].
  destruct (Hv u) as [Hvu Hgu]; [apply list_elem_of_here|].
  pose proof Hvu as (ju & Hju & Hru & _). pose proof (lookup_lt_Some _ _ _ Hju) as Hlt.
  destruct (lookup_lt_is_Some_2 (retCanBeFallenThrough r) u) as [f Hf];
    [by rewrite (rb_length _ _ _ Hrb)|].
  rewrite Hf. simpl. destruct f.
  - destruct (IH p gone changed) as (q & c & -> & HMq); [done|done| |].
    { intros i Hi. by apply Hv, list_elem_of_further. }
    exists q, c. split; [done|]. eapply merged_more, HMq. set_solver.
  - assert (Hnf : not_fallen p0 u) by (by eapply rb_fall).
    destruct (try_rewrites_spec p0 p gone changed v u (reverse rest)) as (q & c & -> & HMq);
      [done..| |].
    { intros t Ht. rewrite reverse_Permutation in Ht.
      destruct (Hv t) as [? ?]; [by apply list_elem_of_further|]. split_and!; [done| |done].
      by intros ->. }
    simpl. destruct (IH q (u :: gone) (changed || c)) as (q' & c' & -> & HMq'); [done|done| |].
    { intros i Hi. destruct (Hv i) as [? ?]; [by apply list_elem_of_further|].
      split; [done|]. apply not_elem_of_cons. split; [|done]. by intros ->. }
    exists q', c'. split; [done|]. eapply merged_more, HMq'. set_solver.
Qed.

(** Groups with different values, each of distinct returns of its value. *)
Definition groups_ok (p : list Instruction) (gs : list (Z * list nat)) : Prop :=
  NoDup gs.*1 ∧ ∀ v pcs, (v, pcs) ∈ gs → NoDup pcs ∧ ∀ i, i ∈ pcs → returns_value p v i.

Lemma merge_groups_spec p0 r p gone changed gs :
  wf_prog p0 → returns_below p0 (length p0) r → merged p0 p gone changed → groups_ok p0 gs →
  (∀ v pcs i, (v, pcs) ∈ gs → i ∈ pcs → i ∉ gone) →
  ∃ q c, merge_groups r p changed gs = Some (q, c) ∧ ∃ gone', merged p0 q gone' c.
Proof.
  intros Hwf0 Hrb. revert p gone changed.
  induction gs as [|[v pcs] gs IH]; intros p gone changed HM [Hnd Hok] Hg; simpl; [eauto|].
  simpl in Hnd. apply NoDup_cons in Hnd as [Hv Hnd].
  destruct (Hok v pcs) as [Hndp Hvp]; [apply list_elem_of_here|].
  set (sorted := sort_slice _ pcs).
  assert (Hperm : sorted ≡ₚ pcs) by apply sort_slice_perm.
  destruct (merge_group_spec p0 r p gone changed v sorted) as (q & c & -> & HMq);
    [done|done|done|by rewrite Hperm| |].
  { intros i Hi. rewrite Hperm in Hi. split; [by apply Hvp|].
    eapply Hg; [apply list_elem_of_here|done]. }
  simpl. apply (IH q (sorted ++ gone) c); [done| |].
  - split; [done|]. intros v' pcs' Hin. apply Hok. by apply list_elem_of_further.
  - intros v' pcs' i Hin Hi [Hs|Hs]%elem_of_app.
    + rewrite Hperm in Hs. destruct (Hvp i Hs) as (j & Hj & _ & Ev).
      destruct (Hok v' pcs') as [_ Hvp']; [by apply list_elem_of_further|].
      destruct (Hvp' i Hi) as (j' & Hj' & _ & Ev'). simplify_eq.
      apply Hv, list_elem_of_fmap. by exists (ret_value j, pcs').
    + eapply Hg; [by apply list_elem_of_further|done|done].
Qed.

(** A map order lists each entry once. *)
Definition lists_entries (order : map_order) : Prop := ∀ m, order m ≡ₚ map_to_list m.

Lemma optimizeJumpsToSmallestSetOfReturns_result order p :
  lists_entries order → wf_prog p → (∀ s, s < length p → s ∈ entered p) →
  ∃ p' c, optimizeJumpsToSmallestSetOfReturns order p = Some (p', c) ∧ pass_result p p' c.
Proof.
  intros Ho Hwf Hent. unfold optimizeJumpsToSmallestSetOfReturns.
  destruct (collect_returns_spec p Hwf) as (r & -> & Hrb). simpl.
  destruct (merge_groups_spec p r p [] false (order (retValueToPC r))) as (q & c & Hq & gone & HM).
  - done.
  - done.
  - split; try done. auto.
  - split; [rewrite (Ho _); apply NoDup_fst_map_to_list|]. intros v pcs Hin.
    rewrite (Ho _) in Hin. apply elem_of_map_to_list in Hin. split; [by eapply rb_NoDup|].
    intros i Hi. by eapply rb_returns.
  - intros. apply not_elem_of_nil.
  - exists q, c. split; [done|]. pose proof (merged_length _ _ _ _ HM) as Hlen.
    destruct HM as [H1 H2 H3 H4 H5 H6]. destruct c; [|done]. split; [done|done|..].
    + apply stable_sublist. by rewrite H2.
    + lia.
    + left. unfold extent. rewrite !count_ops, H2 by done. lia.
Qed.
