(* ===== verification/OptFacts.v ===== *)
(** * The optimizer and [Compile]

    Every pass is an improvement, the improvements cannot go on for ever, and the loop of
    [optimize] has enough fuel: [Optimize] returns a well-formed program, no longer than the
    original, that no pass can change, and with the same outcomes when the loads into [A] are
    stable.  [Compile] is proved on top of that. *)

From stdpp Require Import base numbers decidable gmap sorting list.
From S2P Require Import Prelude Instr Machine MachineFacts Optimizer OptBase OptJumps OptRemove.
From S2P Require Import OptDead OptLoads OptReturns.

Local Open Scope bits_scope.

(** The order in which the [k]-th iteration goes through its map. *)
Definition orders_ok (order : nat → map_order) : Prop := ∀ k, lists_entries (order k).

(** ** One iteration *)

Lemma first_change_cons fn fns p :
  (∃ p' c, fn p = Some (p', c) ∧ pass_result p p' c) →
  (fn p = Some (p, false) → ∃ p' c, first_change fns p = Some (p', c) ∧ pass_result p p' c) →
  ∃ p' c, first_change (fn :: fns) p = Some (p', c) ∧ pass_result p p' c.
Proof.
  intros (p' & c & Hfn & Hres) Hrest. simpl. rewrite Hfn. simpl.
  destruct c; [by exists p', true|]. simpl in Hres. subst p'. by apply Hrest.
Qed.

Lemma first_change_result order p :
  lists_entries order → wf_prog p →
  ∃ p' c, first_change (passes order) p = Some (p', c) ∧ pass_result p p' c.
Proof.
  intros Ho Hwf. unfold passes.
  apply first_change_cons; [by apply optimizeConditionalJumps_result|intros _].
  apply first_change_cons; [by apply optimizeSameTargetConditionalJumps_result|intros _].
  apply first_change_cons; [by apply optimizeUnconditionalJumps_result|intros _].
  apply first_change_cons; [by apply optimizeJumpsToReturn_result|intros _].
  apply first_change_cons; [by apply removeZeroInstructionJumps_result|intros _].
  apply first_change_cons; [by apply removeDeadCode_result|intros Hdead].
  apply first_change_cons; [by apply removeRedundantLoads_result|intros _].
  apply first_change_cons; [|intros _; by exists p, false].
  apply optimizeJumpsToSmallestSetOfReturns_result; [done..|].
  by eapply removeDeadCode_entered.
Qed.

(** ** Termination *)

Lemma sum_list_bound (l : list nat) b : (∀ x, x ∈ l → x ≤ b) → sum_list l ≤ length l * b.
Proof.
  induction l as [|x l IH]; intros Hb; simpl; [lia|].
  pose proof (Hb x (list_elem_of_here _ _)).
  assert (sum_list l ≤ length l * b) by (apply IH; intros y Hy; by apply Hb, list_elem_of_further).
  lia.
Qed.

Lemma weight_bound n pc i : weight n pc i ≤ 2 * n.
Proof.
  unfold weight. etrans; [apply (sum_list_bound _ n)|].
  - intros x (s & -> & _)%list_elem_of_fmap. lia.
  - rewrite length_fmap. apply Nat.mul_le_mono_r. unfold jump_targets.
    case_if; [apply succs_length|simpl; lia].
Qed.

Lemma potential_bound p : potential p ≤ 2 * length p * length p.
Proof.
  unfold potential. etrans; [apply (sum_list_bound _ (2 * length p))|].
  - intros x (i & j & -> & _)%elem_of_lookup_imap. apply weight_bound.
  - rewrite length_imap. lia.
Qed.

Lemma extent_bound p : wf_prog p → extent p ≤ 4 * length p.
Proof.
  intros Hwf. unfold extent.
  assert (∀ f, count f p ≤ length p) as Hc by (intros f; apply length_filter).
  pose proof (Hc IsJump). pose proof (Hc IsConditionalJump).
  assert (size (entered p) ≤ length p); [|lia].
  rewrite <- (length_seq (length p) 0), <- (size_list_to_set (C := gset nat) (seq 0 _))
    by apply NoDup_seq.
  apply subseteq_size. intros s Hs. apply elem_of_list_to_set, elem_of_seq.
  pose proof (entered_bound p s Hwf Hs). lia.
Qed.

(** The measure as one number, for programs of at most [n] instructions. *)
Definition measure (n : nat) (p : list Instruction) : nat := extent p * S (2 * n * n) + potential p.

Lemma smaller_measure n p p' : length p' ≤ n → smaller p' p → measure n p' < measure n p.
Proof.
  intros Hn Hs. unfold measure. pose proof (potential_bound p').
  assert (2 * length p' * length p' ≤ 2 * n * n) by nia.
  destruct Hs as [Hlt|[-> Hlt]]; [|lia]. nia.
Qed.

Lemma measure_fuel p : wf_prog p → measure (length p) p < optimize_fuel p.
Proof.
  intros Hwf. unfold measure, optimize_fuel. pose proof (extent_bound p Hwf).
  pose proof (potential_bound p). nia.
Qed.

(** What optimization guarantees. *)
Record optimized (p p' : list Instruction) : Prop := {
  opt_wf : wf_prog p';
  opt_length : length p' ≤ length p;
  opt_equiv : stable_loads p → equivalent p p'
}.

Lemma optimize_result order fuel n p :
  orders_ok order → wf_prog p → length p ≤ n → measure n p < fuel →
  ∃ p' k, optimize fuel (λ k, passes (order k)) p = Some p' ∧ optimized p p' ∧
    first_change (passes (order k)) p' = Some (p', false).
Proof.
  intros Ho. revert p. induction fuel as [|fuel IH]; intros p Hwf Hn Hf; [lia|].
  destruct (first_change_result (order (S fuel)) p (Ho _) Hwf) as (q & c & Hq & Hres).
  cbn [optimize]. rewrite Hq. simpl. destruct c; simpl in Hres; cycle 1.
  { subst q. exists p, (S fuel). split; [done|]. split; [|done]. by split. }
  destruct Hres as [Hwfq Heq Hst Hlen Hsm].
  pose proof (smaller_measure n p q ltac:(lia) Hsm).
  destruct (IH q) as (p' & k & Hp' & [H1 H2 H3] & Hfix); [done|lia|lia|].
  exists p', k. split; [done|]. split; [|done]. split; [done|lia|].
  intros Hs. eapply equivalent_trans; [by apply Heq|]. by apply H3, Hst.
Qed.

Lemma Optimize_result order p :
  orders_ok order → wf_prog p →
  ∃ p' k, Optimize order p = Some p' ∧ optimized p p' ∧
    first_change (passes (order k)) p' = Some (p', false).
Proof.
  intros Ho Hwf. apply (optimize_result order _ (length p)); [done..|by apply measure_fuel].
Qed.

Lemma equivalent_Exec p p' e inp : equivalent p p' → erase (Exec e p' inp) = erase (Exec e p inp).
Proof. intros H. rewrite !Exec_eval. apply H. Qed.

(** ** Properties *)

(** C3. [Compile] on any sequence of instructions: it reports the validation error if there is
    one, and otherwise returns a program (no pass of the optimizer panics or loops, whatever
    order Go's maps are iterated in) that passes validation again and is not longer than the
    original.  If the loads into [A] are immediate, absolute or of the length, the compiled
    program ends with the same value, or the same error code, as the original on every input. *)
Theorem Compile_correct order insns opt :
  orders_ok order → Forall ins_range insns →
  match validate insns with
  | Some err => Compile order insns opt = Some (inr err)
  | None => ∃ p, Compile order insns opt = Some (inl p) ∧
      validate p = None ∧ length p ≤ length insns ∧
      (stable_loads insns → ∀ e inp, erase (Exec e p inp) = erase (Exec e insns inp))
  end.
Proof.
  intros Ho Hr. unfold Compile. destruct (validate insns) as [err|] eqn:Hv; [done|].
  destruct opt; [|by exists insns].
  pose proof (validate_wf insns Hr Hv) as Hwf.
  destruct (Optimize_result order insns Ho Hwf) as (p & _ & -> & [H1 H2 H3] & _).
  exists p. split; [done|]. split; [|split; [done|]].
  - apply wf_validate; [done|]. pose proof (validate_length insns Hv). lia.
  - intros Hst e inp. by apply equivalent_Exec, H3.
Qed.

Lemma orders_ok_sorted : orders_ok (λ _, map_to_list).
Proof. by intros k m. Defined.

Lemma Compile_correct_witness :
  ∃ p, Compile (λ _, map_to_list) sample_filter true = Some (inl p) ∧
    validate p = None ∧ length p ≤ length sample_filter ∧
    (stable_loads sample_filter →
     ∀ e inp, erase (Exec e p inp) = erase (Exec e sample_filter inp)).
Proof.
  exact (Compile_correct (λ _, map_to_list) sample_filter true orders_ok_sorted
    sample_filter_range).
Defined.

(** C26. [Optimize] reaches a fixed point within its fuel on every well-formed program: it
    returns a program on which none of the eight passes reports a change. *)
Theorem Optimize_fixed_point order p :
  orders_ok order → wf_prog p →
  ∃ p' k, Optimize order p = Some p' ∧ first_change (passes (order k)) p' = Some (p', false).
Proof.
  intros Ho Hwf. destruct (Optimize_result order p Ho Hwf) as (p' & k & H1 & _ & H2). eauto.
Qed.

Lemma Optimize_fixed_point_witness :
  ∃ p' k, Optimize (λ _, map_to_list) sample_filter = Some p' ∧
    first_change (passes ((λ _ : nat, map_to_list) k)) p' = Some (p', false).
Proof.
  apply (Optimize_fixed_point (λ _, map_to_list)); [apply orders_ok_sorted|].
  apply validate_wf; [apply sample_filter_range|reflexivity].
Defined.

(** Removing dead code, on a well-formed program, keeps the outcomes on every input, and
    when it reports no change every instruction is the first one or the successor of another. *)
Theorem removeDeadCode_correct p :
  wf_prog p →
  ∃ p' c, removeDeadCode p = Some (p', c) ∧ wf_prog p' ∧
    (stable_loads p → equivalent p p') ∧
    (c = false → ∀ pc, pc < length p → pc ∈ entered p').
Proof.
  intros Hwf. destruct (removeDeadCode_result p Hwf) as (p' & c & H & Hres).
  exists p', c. split; [done|]. split; [by eapply pass_result_wf|]. destruct c; simpl in Hres.
  - split; [apply Hres|done].
  - subst p'. split; [done|]. intros _. by eapply removeDeadCode_entered.
Qed.

Definition dead_code_sample : list Instruction :=
  [ Stmt (Op.Jmp .| Op.Ja) 1; Stmt (Op.Ret .| Op.K) 1; Stmt (Op.Ret .| Op.K) 2 ].

Lemma removeDeadCode_correct_witness :
  removeDeadCode dead_code_sample =
    Some ([Stmt (Op.Jmp .| Op.Ja) 0; Stmt (Op.Ret .| Op.K) 2], true) ∧
  ∃ p' c, removeDeadCode dead_code_sample = Some (p', c) ∧ wf_prog p' ∧
    (stable_loads dead_code_sample → equivalent dead_code_sample p') ∧
    (c = false → ∀ pc, pc < length dead_code_sample → pc ∈ entered p').
Proof.
  split; [reflexivity|]. apply removeDeadCode_correct.
  apply validate_wf; [repeat constructor; vm_compute; done|reflexivity].
Defined.

(** Merging returns, when no dead code is left, keeps the outcomes and the length whatever
    the order in which Go iterates over the map of return values, and a reported change leaves
    fewer instructions with a predecessor. *)
Theorem merge_returns_correct order p :
  lists_entries order → wf_prog p → (∀ pc, pc < length p → pc ∈ entered p) →
  ∃ p' c, optimizeJumpsToSmallestSetOfReturns order p = Some (p', c) ∧ wf_prog p' ∧
    (stable_loads p → equivalent p p') ∧ (c = false → p' = p) ∧ (c = true → smaller p' p).
Proof.
  intros Ho Hwf Hent.
  destruct (optimizeJumpsToSmallestSetOfReturns_result order p Ho Hwf Hent) as (p' & c & H & Hres).
  exists p', c. split; [done|]. split; [by eapply pass_result_wf|].
  destruct c; simpl in Hres; [|by subst]. split; [apply Hres|]. split; [done|]. intros _. apply Hres.
Qed.

Definition two_returns_sample : list Instruction :=
  [ Stmt (Op.Ld .| Op.Abs .| Op.W) 0; Jump (Op.Jmp .| Op.Jeq .| Op.K) 1 1 0;
    Jump (Op.Jmp .| Op.Jeq .| Op.K) 2 1 2;
    Stmt (Op.Ret .| Op.K) 7; Stmt (Op.Ret .| Op.K) 7; Stmt (Op.Ret .| Op.K) 9 ].

Lemma merge_returns_correct_witness :
  ∃ p' c, optimizeJumpsToSmallestSetOfReturns map_to_list two_returns_sample = Some (p', c) ∧
    wf_prog p' ∧ (stable_loads two_returns_sample → equivalent two_returns_sample p') ∧
    (c = false → p' = two_returns_sample) ∧ (c = true → smaller p' two_returns_sample).
Proof.
  apply (merge_returns_correct map_to_list).
  - by intros m.
  - apply validate_wf; [repeat constructor; vm_compute; done|reflexivity].
  - intros pc Hpc. simpl in Hpc.
    do 6 (destruct pc as [|pc]; [refine (bool_decide_unpack _ _); vm_compute; exact I|]). lia.
Defined.

