(* ===== verification/Builder.v ===== *)
(** * The program builder (src/pkg/bpf/program_builder.go)

    Instructions are appended to a builder with jumps to named labels, and labels are placed
    at the current end of the program.  [Instructions] replaces each reference by the distance
    to its label.  A label's target [-1] ("not placed yet") is [None].

    [None] as the result of an operation is a Go panic.  [resolveLabels] goes through the map
    of labels, so it takes the order of the iteration as an argument. *)

From stdpp Require Import base numbers decidable strings gmap list.
From S2P Require Import Prelude Instr.

Local Open Scope Z_scope.
Local Open Scope bits_scope.

Definition labelTarget : Z := 2 ^ 8 - 1.

Definition labelDirectTarget : Z := 2 ^ 32 - 1.

(** ** Data *)

Record source : Type := mkSource { line : nat; jt : JumpType }.

Record label : Type := mkLabel { sources : list source; target : option nat }.

#[export] Instance source_eq_dec : EqDecision source.
Proof. solve_decision. Defined.

#[export] Instance JumpType_countable : Countable JumpType.
Proof.
  refine (inj_countable' (λ t, match t with JumpDirect => 0 | JumpTrue => 1 | JumpFalse => 2 end)%nat
    (λ n, match n with 0 => JumpDirect | 1 => JumpTrue | _ => JumpFalse end%nat) _).
  by intros [].
Defined.

#[export] Instance source_countable : Countable source.
Proof. refine (inj_countable' (λ s, (line s, jt s)) (λ p, mkSource p.1 p.2) _). by intros []. Defined.

Record ProgramBuilder : Type := mkBuilder {
  labels : gmap string label;
  jumpSourceToLabel : gmap source string;
  unusableLabels : gset string;
  instructions : list Instruction
}.

Definition NewProgramBuilder : ProgramBuilder := mkBuilder ∅ ∅ ∅ [].

Definition set_labels (b : ProgramBuilder) (ls : gmap string label) : ProgramBuilder :=
  mkBuilder ls (jumpSourceToLabel b) (unusableLabels b) (instructions b).

Definition set_instructions (b : ProgramBuilder) (insns : list Instruction) : ProgramBuilder :=
  mkBuilder (labels b) (jumpSourceToLabel b) (unusableLabels b) insns.

(** The errors, with the label or offset their text mentions. *)
Inductive BuilderError : Type :=
  | LabelAlreadySet (name : string)
  | TargetAlreadySet (name : string) (target : nat)
  | BackwardsReference (name : string)
  | TargetNotSet (name : string)
  | TargetBeyondEnd
  | CannotJumpBackwards
  | OffsetTooLarge (name : string) (offset : Z) (inst : Instruction) (lineno : nat)
  | NotALabel.

(** ** Adding instructions and labels *)

Definition AddStmt (code k : Z) (b : ProgramBuilder) : ProgramBuilder :=
  set_instructions b (instructions b ++ [Stmt code k]).

Definition AddJump (code k jt jf : Z) (b : ProgramBuilder) : ProgramBuilder :=
  set_instructions b (instructions b ++ [Jump code k jt jf]).

Definition addLabelSource (labelName : string) (t : JumpType) (b : ProgramBuilder)
    : option ProgramBuilder :=
  let l := default (mkLabel [] None) (labels b !! labelName) in
  let src := mkSource (length (instructions b)) t in
  let l := mkLabel (sources l ++ [src]) (target l) in
  match jumpSourceToLabel b !! src with
  | Some _ => None
  | None => Some (mkBuilder (<[labelName := l]> (labels b))
      (<[src := labelName]> (jumpSourceToLabel b)) (unusableLabels b) (instructions b))
  end.

Definition AddDirectJumpLabel (labelName : string) (b : ProgramBuilder) : option ProgramBuilder :=
  b ← addLabelSource labelName JumpDirect b;
  Some (AddJump (Op.Jmp .| Op.Ja) labelDirectTarget 0 0 b).

Definition AddJumpTrueLabel (code k : Z) (jtLabel : string) (jf : Z) (b : ProgramBuilder)
    : option ProgramBuilder :=
  b ← addLabelSource jtLabel JumpTrue b; Some (AddJump code k labelTarget jf b).

Definition AddJumpFalseLabel (code k jt : Z) (jfLabel : string) (b : ProgramBuilder)
    : option ProgramBuilder :=
  b ← addLabelSource jfLabel JumpFalse b; Some (AddJump code k jt labelTarget b).

Definition AddJumpLabels (code k : Z) (jtLabel jfLabel : string) (b : ProgramBuilder)
    : option ProgramBuilder :=
  b ← addLabelSource jtLabel JumpTrue b;
  b ← addLabelSource jfLabel JumpFalse b;
  Some (AddJump code k labelTarget labelTarget b).

Definition AddLabel (name : string) (b : ProgramBuilder) : ProgramBuilder * option BuilderError :=
  match labels b !! name with
  | None =>
      if bool_decide (name ∈ unusableLabels b) then (b, Some (LabelAlreadySet name))
      else (mkBuilder (labels b) (jumpSourceToLabel b) ({[ name ]} ∪ unusableLabels b)
              (instructions b), None)
  | Some l =>
      match target l with
      | Some t => (b, Some (TargetAlreadySet name t))
      | None => (set_labels b (<[name := mkLabel (sources l) (Some (length (instructions b)))]>
                                (labels b)), None)
      end
  end.

(** ** Resolving labels *)

(** The order in which [range] goes through the map of labels. *)
Definition label_order : Type := gmap string label → list (string * label).

(** The body of the loop over the sources of a label; the instructions are updated in place,
    also when a later source gives an error. *)
Definition resolve_source (key : string) (target : nat) (s : source) (insns : list Instruction)
    : option (list Instruction * option BuilderError) :=
  inst ← insns !! line s;
  if (target <=? line s)%nat then Some (insns, Some CannotJumpBackwards)
  else
    let offset := Z.of_nat target - Z.of_nat (line s) - 1 in
    let too_large := OffsetTooLarge key offset inst (line s) in
    Some
      match jt s with
      | JumpDirect =>
          if offset >? labelDirectTarget then (insns, Some too_large)
          else if negb (KVal inst =? labelDirectTarget) then (insns, Some NotALabel)
          else (<[line s := set_K inst (wrap32 offset)]> insns, None)
      | JumpTrue =>
          if offset >? labelTarget then (insns, Some too_large)
          else if negb (JumpIfTrue inst =? labelTarget) then (insns, Some NotALabel)
          else (<[line s := set_JumpIfTrue inst (wrap8 offset)]> insns, None)
      | JumpFalse =>
          if offset >? labelTarget then (insns, Some too_large)
          else if negb (JumpIfFalse inst =? labelTarget) then (insns, Some NotALabel)
          else (<[line s := set_JumpIfFalse inst (wrap8 offset)]> insns, None)
      end.

Fixpoint resolve_sources (key : string) (target : nat) (srcs : list source)
    (insns : list Instruction) : option (list Instruction * option BuilderError) :=
  match srcs with
  | [] => Some (insns, None)
  | s :: srcs' =>
      '(insns, err) ← resolve_source key target s insns;
      match err with
      | Some _ => Some (insns, err)
      | None => resolve_sources key target srcs' insns
      end
  end.

(** The body of the loop over the labels. *)
Definition resolve_label (unusable : gset string) (key : string) (v : label)
    (insns : list Instruction) : option (list Instruction * option BuilderError) :=
  if bool_decide (key ∈ unusable) then Some (insns, Some (BackwardsReference key))
  else
    match target v with
    | None => Some (insns, Some (TargetNotSet key))
    | Some t =>
        if (length insns <=? t)%nat then Some (insns, Some TargetBeyondEnd)
        else resolve_sources key t (sources v) insns
    end.

Fixpoint resolve_all (unusable : gset string) (entries : list (string * label))
    (insns : list Instruction) : option (list Instruction * option BuilderError) :=
  match entries with
  | [] => Some (insns, None)
  | (key, v) :: entries' =>
      '(insns, err) ← resolve_label unusable key v insns;
      match err with
      | Some _ => Some (insns, err)
      | None => resolve_all unusable entries' insns
      end
  end.

Definition resolveLabels (order : label_order) (b : ProgramBuilder)
    : option (ProgramBuilder * option BuilderError) :=
  '(insns, err) ← resolve_all (unusableLabels b) (order (labels b)) (instructions b);
  let b := set_instructions b insns in
  match err with
  | Some _ => Some (b, err)
  | None => Some (set_labels b ∅, None)
  end.

(** [Instructions] returns the instructions of the builder also next to an error. *)
Definition Instructions (order : label_order) (b : ProgramBuilder)
    : option (ProgramBuilder * (list Instruction * option BuilderError)) :=
  '(b, err) ← resolveLabels order b; Some (b, (instructions b, err)).

(** ** Fragments *)

Record ProgramFragment : Type := mkFragment { fromPC : nat; toPC : nat }.

(** [Record] remembers the current end; the function it returns is applied to the builder at
    the time of the call. *)
Definition Record_ (b : ProgramBuilder) : ProgramBuilder → ProgramFragment :=
  let currentPC := length (instructions b) in
  λ b', mkFragment currentPC (length (instructions b')).

Record FragmentOutcomes : Type := mkOutcomes {
  MayFallThrough : bool;
  MayJumpToKnownOffsetBeyondFragment : bool;
  MayJumpToUnresolvedLabels : gset string;
  MayReturnImmediate : gset Z;
  MayReturnRegisterA : bool
}.

Definition MayReturn (o : FragmentOutcomes) : bool :=
  bool_decide (MayReturnImmediate o ≠ ∅) || MayReturnRegisterA o.

Definition falls_through (o : FragmentOutcomes) : FragmentOutcomes :=
  mkOutcomes true (MayJumpToKnownOffsetBeyondFragment o) (MayJumpToUnresolvedLabels o)
    (MayReturnImmediate o) (MayReturnRegisterA o).

Definition jumps_beyond (o : FragmentOutcomes) : FragmentOutcomes :=
  mkOutcomes (MayFallThrough o) true (MayJumpToUnresolvedLabels o)
    (MayReturnImmediate o) (MayReturnRegisterA o).

Definition jumps_to_label (o : FragmentOutcomes) (l : string) : FragmentOutcomes :=
  mkOutcomes (MayFallThrough o) (MayJumpToKnownOffsetBeyondFragment o)
    ({[ l ]} ∪ MayJumpToUnresolvedLabels o) (MayReturnImmediate o) (MayReturnRegisterA o).

Definition returns_immediate (o : FragmentOutcomes) (k : Z) : FragmentOutcomes :=
  mkOutcomes (MayFallThrough o) (MayJumpToKnownOffsetBeyondFragment o)
    (MayJumpToUnresolvedLabels o) ({[ k ]} ∪ MayReturnImmediate o) (MayReturnRegisterA o).

Definition returns_A (o : FragmentOutcomes) : FragmentOutcomes :=
  mkOutcomes (MayFallThrough o) (MayJumpToKnownOffsetBeyondFragment o)
    (MayJumpToUnresolvedLabels o) (MayReturnImmediate o) true.

(** The end of the loop over the jump offsets: a known [target] against the fragment's end. *)
Definition outcome_target (toPC target : nat) (o : FragmentOutcomes) : FragmentOutcomes :=
  if (target =? toPC)%nat then falls_through o
  else if (toPC <? target)%nat then jumps_beyond o
  else o.

(** One jump offset.  A label that was dropped from the map is a nil dereference. *)
Definition outcome_offset (b : ProgramBuilder) (toPC pc : nat) (o : FragmentOutcomes)
    (offset : JumpOffset) : option FragmentOutcomes :=
  match jumpSourceToLabel b !! mkSource pc (Type_ offset) with
  | Some name =>
      foundLabel ← labels b !! name;
      Some match target foundLabel with
           | None => jumps_to_label o name
           | Some t => outcome_target toPC t o
           end
  | None => Some (outcome_target toPC (pc + Z.to_nat (Offset offset) + 1) o)
  end.

Fixpoint outcome_offsets (b : ProgramBuilder) (toPC pc : nat) (offsets : list JumpOffset)
    (o : FragmentOutcomes) : option FragmentOutcomes :=
  match offsets with
  | [] => Some o
  | offset :: offsets' =>
      o ← outcome_offset b toPC pc o offset; outcome_offsets b toPC pc offsets' o
  end.

(** The body of the loop of [Outcomes]. *)
Definition outcome_ins (b : ProgramBuilder) (toPC pc : nat) (o : FragmentOutcomes)
    : option FragmentOutcomes :=
  ins ← instructions b !! pc;
  let isLastInstruction := (S pc =? toPC)%nat in
  if class ins =? Op.Ret then
    Some (if OpCode ins =? Op.Ret .| Op.K then returns_immediate o (KVal ins)
          else if OpCode ins =? Op.Ret .| Op.A then returns_A o
          else o)
  else if class ins =? Op.Jmp then outcome_offsets b toPC pc (JumpOffsets ins) o
  else Some (if isLastInstruction then falls_through o else o).

Definition Outcomes (f : ProgramFragment) (b : ProgramBuilder) : option FragmentOutcomes :=
  if (fromPC f =? toPC f)%nat then Some (mkOutcomes true false ∅ ∅ false)
  else range_loop (outcome_ins b (toPC f)) (toPC f - fromPC f) (fromPC f)
         (mkOutcomes false false ∅ ∅ false).

Definition MayModifyRegisterA (f : ProgramFragment) (b : ProgramBuilder) : option bool :=
  range_loop (λ pc (found : bool), if found then Some true
                          else ins ← instructions b !! pc; Some (ModifiesRegisterA ins))
    (toPC f - fromPC f) (fromPC f) false.
