(* ===== verification/BuilderFacts.v ===== *)
(** * The program builder: invariant, label resolution, fragments

    [builder_ok] is the invariant of the builders that the operations of program_builder.go
    make from an empty one.  For such a builder [Instructions] succeeds exactly when the
    labels are [resolvable], and then its result is [resolved]: every labelled jump field holds
    the distance to its label and everything else is as it was added, whatever order the map
    of labels is iterated in.

    [extends] relates a builder to the builders made from it by adding more; the renderers of
    src/pkg/seccomp are specified with it. *)

From stdpp Require Import base numbers decidable strings gmap list.
From S2P Require Import Prelude Instr Machine MachineFacts Builder.

Local Open Scope bits_scope.

(** ** Jump fields *)

Definition jump_field (t : JumpType) (i : Instruction) : Z :=
  match t with
  | JumpDirect => KVal i
  | JumpTrue => JumpIfTrue i
  | JumpFalse => JumpIfFalse i
  end.

Definition set_field (t : JumpType) (i : Instruction) (v : Z) : Instruction :=
  match t with
  | JumpDirect => set_K i v
  | JumpTrue => set_JumpIfTrue i v
  | JumpFalse => set_JumpIfFalse i v
  end.

(** The value that stands for a label, which is also the largest offset. *)
Definition placeholder (t : JumpType) : Z :=
  match t with JumpDirect => labelDirectTarget | _ => labelTarget end.

(** The instruction [i] was added with a label at [t]. *)
Definition labelled (t : JumpType) (i : Instruction) : Prop :=
  jump_field t i = placeholder t ∧ (t = JumpDirect → OpCode i = (Op.Jmp .| Op.Ja)%Z).

(** The distance from the instruction at [pc] to [t]. *)
Definition distance (pc t : nat) : Z := (Z.of_nat t - Z.of_nat pc - 1)%Z.

Lemma jump_field_set t t' i v :
  jump_field t (set_field t' i v) = if decide (t = t') then v else jump_field t i.
Proof. by destruct t, t'. Qed.

Lemma set_field_op t i v : OpCode (set_field t i v) = OpCode i.
Proof. by destruct t. Qed.

Lemma instruction_ext i j :
  OpCode i = OpCode j → (∀ t, jump_field t i = jump_field t j) → i = j.
Proof.
  intros Ho H. pose proof (H JumpDirect). pose proof (H JumpTrue). pose proof (H JumpFalse).
  destruct i, j. simpl in *. by subst.
Qed.

(** ** The invariant *)

(** The place of a label that is referenced and placed. *)
Definition tgt (b : ProgramBuilder) (l : string) : option nat := labels b !! l ≫= target.

Record builder_ok (b : ProgramBuilder) : Prop := mkBuilderOk {
  bo_line s l : jumpSourceToLabel b !! s = Some l → line s < length (instructions b);
  bo_label s l : jumpSourceToLabel b !! s = Some l →
    ∃ lab, labels b !! l = Some lab ∧ s ∈ sources lab;
  bo_sources l lab s : labels b !! l = Some lab → s ∈ sources lab →
    jumpSourceToLabel b !! s = Some l;
  bo_labelled s l i : jumpSourceToLabel b !! s = Some l →
    instructions b !! line s = Some i → labelled (jt s) i;
  bo_nodup l lab : labels b !! l = Some lab → NoDup (sources lab);
  bo_target l t : tgt b l = Some t → t ≤ length (instructions b)
}.

(** ** What [Instructions] accepts and returns *)

Definition label_resolvable (b : ProgramBuilder) (l : string) (lab : label) : Prop :=
  (l ∉ unusableLabels b) ∧
  ∃ t, target lab = Some t ∧ t < length (instructions b) ∧
    ∀ s, s ∈ sources lab → line s < t ∧ (distance (line s) t <= placeholder (jt s))%Z.

Definition resolvable (b : ProgramBuilder) : Prop :=
  ∀ l lab, labels b !! l = Some lab → label_resolvable b l lab.

(** The place that the label at a jump field stands for. *)
Definition source_target (b : ProgramBuilder) (s : source) : option nat :=
  jumpSourceToLabel b !! s ≫= tgt b.

Definition resolve_ins (b : ProgramBuilder) (pc : nat) (i : Instruction) : Instruction :=
  let field t := match source_target b (mkSource pc t) with
                 | Some d => distance pc d
                 | None => jump_field t i
                 end in
  mkIns (OpCode i) (field JumpTrue) (field JumpFalse) (field JumpDirect).

Definition resolved (b : ProgramBuilder) : list Instruction :=
  imap (resolve_ins b) (instructions b).

Lemma resolve_ins_field b pc i t :
  jump_field t (resolve_ins b pc i) =
  match source_target b (mkSource pc t) with Some d => distance pc d | None => jump_field t i end.
Proof. by destruct t. Qed.

(** ** Resolution, source by source *)

(** [insns] is [insns0] with the fields in [D] set to their distances. *)
Record resolves (D : gmap source nat) (insns0 insns : list Instruction) : Prop := mkResolves {
  res_length : length insns = length insns0;
  res_ins pc i : insns0 !! pc = Some i →
    ∃ i', insns !! pc = Some i' ∧ OpCode i' = OpCode i ∧
      ∀ t, jump_field t i' =
        match D !! mkSource pc t with Some d => distance pc d | None => jump_field t i end
}.

Lemma resolves_nothing insns : resolves ∅ insns insns.
Proof. split; [done|]. intros pc i Hi. exists i. split_and!; [done..|]. intros t. by rewrite lookup_empty. Qed.

Lemma resolves_one D insns0 insns s i d :
  resolves D insns0 insns → insns !! line s = Some i →
  resolves (<[s := d]> D) insns0 (<[line s := set_field (jt s) i (distance (line s) d)]> insns).
Proof.
  intros [Hl Hi] Hlook. destruct s as [pc0 t0]. simpl in *.
  split; [by rewrite length_insert|]. intros pc j Hj.
  destruct (Hi pc j Hj) as (i' & Hi' & Hop & Hf). destruct (decide (pc = pc0)) as [->|Hne].
  - rewrite Hlook in Hi'. injection Hi' as <-. eexists.
    rewrite list_lookup_insert_eq by (by apply lookup_lt_Some in Hlook).
    split_and!; [done|by rewrite set_field_op|]. intros t. rewrite jump_field_set.
    case_decide as Ht.
    + subst t. by rewrite lookup_insert_eq.
    + rewrite lookup_insert_ne by congruence. apply Hf.
  - exists i'. rewrite list_lookup_insert_ne by done. split_and!; [done..|]. intros t.
    rewrite lookup_insert_ne by congruence. apply Hf.
Qed.

Lemma resolves_placeholder D insns0 insns s i0 i :
  resolves D insns0 insns → D !! s = None → insns0 !! line s = Some i0 →
  insns !! line s = Some i → jump_field (jt s) i = jump_field (jt s) i0.
Proof.
  intros [_ Hi] HD H0 H1. destruct (Hi _ _ H0) as (i' & Hi' & _ & Hf). simplify_eq.
  rewrite (Hf (jt s)). destruct s. simpl. by rewrite HD.
Qed.

Lemma wrap_distance t d : (0 <= d <= placeholder t)%Z →
  (match t with JumpDirect => wrap32 d | _ => wrap8 d end) = d.
Proof.
  unfold placeholder, labelDirectTarget, labelTarget, wrap32, wrap8.
  intros Hd. destruct t; apply Z.mod_small; lia.
Qed.

(** One source: its checks, and the update. *)
Lemma resolve_source_spec key d s insns i :
  insns !! line s = Some i → jump_field (jt s) i = placeholder (jt s) →
  ∃ err, resolve_source key d s insns =
      Some (match err with
            | None => <[line s := set_field (jt s) i (distance (line s) d)]> insns
            | Some _ => insns
            end, err) ∧
    (err = None ↔ line s < d ∧ (distance (line s) d <= placeholder (jt s))%Z).
Proof.
  intros Hi Hf. unfold resolve_source. rewrite Hi. simpl.
  destruct (Nat.leb_spec d (line s)) as [Hle|Hlt].
  { eexists (Some _). split; [done|]. split; [discriminate|]. lia. }
  fold (distance (line s) d).
  assert (Hpos : (0 <= distance (line s) d)%Z) by (unfold distance; lia).
  pose proof (wrap_distance (jt s) (distance (line s) d)) as Hwr.
  destruct (jt s); simpl in *; rewrite Hf, Z.eqb_refl; simpl;
    rewrite Z.gtb_ltb; (case_if; to_prop;
      (eexists (Some _); split; [done|split; [discriminate|lia]]) ||
      (exists None; rewrite Hwr by lia; split; [done|split; [lia|done]])).
Qed.

Section Resolve.
Context (b : ProgramBuilder) (Hok : builder_ok b).

(** The sources that remain to be resolved still hold their placeholder. *)
Lemma pending_source D insns s l :
  resolves D (instructions b) insns → D !! s = None → jumpSourceToLabel b !! s = Some l →
  ∃ i, insns !! line s = Some i ∧ jump_field (jt s) i = placeholder (jt s).
Proof.
  intros HR HD Hs. pose proof (bo_line b Hok s l Hs) as Hl.
  destruct (lookup_lt_is_Some_2 _ _ Hl) as [i0 Hi0].
  destruct (res_ins _ _ _ HR _ _ Hi0) as (i & Hi & _). exists i. split; [done|].
  rewrite (resolves_placeholder D (instructions b) insns s i0 i) by done.
  by eapply bo_labelled.
Qed.

Lemma resolve_sources_spec key d l srcs D insns :
  NoDup srcs → (∀ s, s ∈ srcs → jumpSourceToLabel b !! s = Some l ∧ D !! s = None) →
  resolves D (instructions b) insns →
  ∃ insns' err, resolve_sources key d srcs insns = Some (insns', err) ∧
    (err = None ↔
      ∀ s, s ∈ srcs → line s < d ∧ (distance (line s) d <= placeholder (jt s))%Z) ∧
    (err = None →
      resolves (list_to_map ((λ s, (s, d)) <$> srcs) ∪ D) (instructions b) insns').
Proof.
  intros Hnd. revert D insns. induction Hnd as [|s srcs Hs Hnd IH]; intros D insns Hsrc HR; simpl.
  { exists insns, None. split_and!; [done| |].
    - split; [|done]. intros _ s Hs. by apply not_elem_of_nil in Hs.
    - intros _. by rewrite (left_id_L ∅ (∪)). }
  destruct (Hsrc s) as [Hl HD]; [by left|].
  destruct (pending_source D insns s l HR HD Hl) as (i & Hi & Hf).
  destruct (resolve_source_spec key d s insns i Hi Hf) as (err & -> & Herr). simpl.
  destruct err as [err|].
  { exists insns, (Some err). split_and!; [done| |done]. split; [discriminate|]. intros Hall.
    by apply Herr, Hall, list_elem_of_here. }
  destruct (IH (<[s := d]> D)
    (<[line s := set_field (jt s) i (distance (line s) d)]> insns)) as (insns' & err & -> & Herr' & HR').
  - intros s' Hs'. rewrite lookup_insert_ne by (intros ->; done). apply Hsrc. by right.
  - by apply resolves_one.
  - exists insns', err. split_and!; [done| |].
    + rewrite Herr'. split.
      * intros Hall s' [-> | Hs']%elem_of_cons; [by apply Herr|by apply Hall].
      * intros Hall s' Hs'. apply Hall. by right.
    + intros He. specialize (HR' He). rewrite <- insert_union_r in HR'.
      * by rewrite insert_union_l in HR'.
      * apply not_elem_of_list_to_map_1. rewrite <- list_fmap_compose.
        by rewrite list_fmap_id.
Qed.

(** The sources resolved when the labels in [rest] remain. *)
Definition resolved_but (rest : list string) (D : gmap source nat) : Prop :=
  ∀ s, D !! s = (l ← jumpSourceToLabel b !! s; if decide (l ∈ rest) then None else tgt b l).

Lemma resolved_but_cons k v d rest D :
  labels b !! k = Some v → target v = Some d → k ∉ rest → resolved_but (k :: rest) D →
  resolved_but rest (list_to_map ((λ s, (s, d)) <$> sources v) ∪ D).
Proof.
  intros Hk Hd Hrest HD s. destruct (decide (s ∈ sources v)) as [Hs|Hs].
  - rewrite (bo_sources b Hok k v s Hk Hs). simpl. rewrite decide_False by done.
    unfold tgt. rewrite Hk. simpl. rewrite Hd. apply lookup_union_Some_l.
    apply elem_of_list_to_map_1.
    + rewrite <- list_fmap_compose. rewrite list_fmap_id. by eapply bo_nodup.
    + apply list_elem_of_fmap. by exists s.
  - rewrite lookup_union_r.
    2: { apply not_elem_of_list_to_map_1. by rewrite <- list_fmap_compose, list_fmap_id. }
    rewrite HD. destruct (jumpSourceToLabel b !! s) as [l|] eqn:Hl; simpl; [|done].
    destruct (bo_label b Hok s l Hl) as (lab & Hlab & Hin).
    assert (l ≠ k) by (intros ->; by simplify_eq). repeat case_decide; set_solver.
Qed.

Lemma resolve_label_spec k v rest D insns :
  labels b !! k = Some v → k ∉ rest → resolved_but (k :: rest) D →
  resolves D (instructions b) insns →
  ∃ insns' err, resolve_label (unusableLabels b) k v insns = Some (insns', err) ∧
    (err = None ↔ label_resolvable b k v) ∧
    (err = None → ∃ D', resolved_but rest D' ∧ resolves D' (instructions b) insns').
Proof.
  intros Hk Hrest HD HR. unfold resolve_label.
  case_bool_decide as Hun.
  { eexists _, (Some _). split; [done|]. split; [|done]. by split; [|intros [? _]]. }
  destruct (target v) as [d|] eqn:Hd.
  2: { eexists _, (Some _). split; [done|]. split; [|done].
       split; [done|]. intros (_ & t & Ht & _). congruence. }
  rewrite (res_length _ _ _ HR). destruct (Nat.leb_spec (length (instructions b)) d) as [Hle|Hlt].
  { eexists _, (Some _). split; [done|]. split; [|done].
    split; [done|]. intros (_ & t & Ht & ? & _). simplify_eq. lia. }
  destruct (resolve_sources_spec k d k (sources v) D insns) as (insns' & err & Hrs & Herr & HR').
  - by eapply bo_nodup.
  - intros s Hs. pose proof (bo_sources b Hok k v s Hk Hs) as Hsl. split; [done|].
    rewrite HD, Hsl. simpl. by rewrite decide_True by left.
  - done.
  - exists insns', err. split; [done|]. split.
    + rewrite Herr. unfold label_resolvable. rewrite Hd. split.
      * intros Hall. split; [done|]. exists d. done.
      * intros (_ & t & Ht & _ & Hall). by simplify_eq.
    + intros He. eexists. split; [|by apply HR']. by eapply resolved_but_cons.
Qed.

Lemma resolve_all_spec entries D insns :
  (∀ k v, (k, v) ∈ entries → labels b !! k = Some v) → NoDup entries.*1 →
  resolved_but entries.*1 D → resolves D (instructions b) insns →
  ∃ insns' err, resolve_all (unusableLabels b) entries insns = Some (insns', err) ∧
    (err = None ↔ ∀ k v, (k, v) ∈ entries → label_resolvable b k v) ∧
    (err = None → ∃ D', resolved_but [] D' ∧ resolves D' (instructions b) insns').
Proof.
  revert D insns. induction entries as [|[k v] entries IH]; intros D insns Hin Hnd HD HR; simpl.
  { exists insns, None. split_and!; [done| |by exists D].
    split; [|done]. intros _ k v Hkv. by apply not_elem_of_nil in Hkv. }
  rewrite fmap_cons in Hnd, HD. apply NoDup_cons in Hnd as [Hk Hnd]. simpl in *.
  destruct (resolve_label_spec k v entries.*1 D insns) as (insns1 & err & -> & Herr & Hok1);
    [apply Hin; by left|done..|]. simpl.
  destruct err as [err|].
  { exists insns1, (Some err). split_and!; [done| |done]. split; [done|].
    intros Hall. apply Herr, Hall. by left. }
  destruct Hok1 as (D1 & HD1 & HR1); [done|].
  destruct (IH D1 insns1) as (insns' & err & -> & Herr' & Hok'); [|done..|].
  { intros k' v' Hkv. apply Hin. by right. }
  exists insns', err. split_and!; [done| |done]. rewrite Herr'. split.
  - intros Hall k' v' [[= -> ->] | Hkv]%elem_of_cons; [by apply Herr|by apply Hall].
  - intros Hall k' v' Hkv. apply Hall. by right.
Qed.

Lemma resolves_resolved D insns :
  resolved_but [] D → resolves D (instructions b) insns → insns = resolved b.
Proof.
  intros HD HR. apply list_eq. intros pc. unfold resolved. rewrite list_lookup_imap.
  destruct (instructions b !! pc) as [i|] eqn:Hi; simpl.
  - destruct (res_ins _ _ _ HR _ _ Hi) as (i' & -> & Hop & Hf). f_equal.
    apply instruction_ext; [done|]. intros t. rewrite Hf, resolve_ins_field, HD.
    unfold source_target. by destruct (jumpSourceToLabel b !! mkSource pc t).
  - apply lookup_ge_None. rewrite (res_length _ _ _ HR). by apply lookup_ge_None.
Qed.

(** A map order lists every label once. *)
Definition lists_labels (order : label_order) : Prop := ∀ m, order m ≡ₚ map_to_list m.

Lemma resolve_result order :
  lists_labels order →
  ∃ insns err, resolve_all (unusableLabels b) (order (labels b)) (instructions b)
      = Some (insns, err) ∧
    (err = None ↔ resolvable b) ∧ (err = None → insns = resolved b).
Proof.
  intros Ho.
  assert (Hin : ∀ k v, (k, v) ∈ order (labels b) ↔ labels b !! k = Some v).
  { intros k v. rewrite (Ho (labels b)). apply elem_of_map_to_list. }
  destruct (resolve_all_spec (order (labels b)) ∅ (instructions b))
    as (insns & err & Heq & Herr & HD).
  - intros k v. apply Hin.
  - rewrite (Ho (labels b)). apply NoDup_fst_map_to_list.
  - intros s. rewrite lookup_empty. destruct (jumpSourceToLabel b !! s) as [l|] eqn:Hl; [|done].
    simpl. rewrite decide_True; [done|].
    destruct (bo_label b Hok s l Hl) as (lab & Hlab & _).
    apply list_elem_of_fmap. exists (l, lab). split; [done|]. by apply Hin.
  - apply resolves_nothing.
  - exists insns, err. split_and!; [done| |].
    + rewrite Herr. split; intros Hall k v Hkv; by apply Hall, Hin.
    + intros He. destruct (HD He) as (D & HD1 & HD2). by eapply resolves_resolved.
Qed.

End Resolve.

(** ** The operations keep the invariant *)

(** What the operations do to a builder.  A program is built by a sequence of them. *)
Inductive builder_op : Type :=
  | OpStmt (code k : Z)
  | OpJump (code k jt jf : Z)
  | OpDirectJumpLabel (l : string)
  | OpJumpTrueLabel (code k : Z) (l : string) (jf : Z)
  | OpJumpFalseLabel (code k jt : Z) (l : string)
  | OpJumpLabels (code k : Z) (l l' : string)
  | OpLabel (l : string).

(** A rejected label leaves the builder as it is. *)
Definition run_op (o : builder_op) (b : ProgramBuilder) : option ProgramBuilder :=
  match o with
  | OpStmt code k => Some (AddStmt code k b)
  | OpJump code k jt jf => Some (AddJump code k jt jf b)
  | OpDirectJumpLabel l => AddDirectJumpLabel l b
  | OpJumpTrueLabel code k l jf => AddJumpTrueLabel code k l jf b
  | OpJumpFalseLabel code k jt l => AddJumpFalseLabel code k jt l b
  | OpJumpLabels code k l l' => AddJumpLabels code k l l' b
  | OpLabel l => Some (AddLabel l b).1
  end.

Fixpoint run_ops (os : list builder_op) (b : ProgramBuilder) : option ProgramBuilder :=
  match os with
  | [] => Some b
  | o :: os' => b' ← run_op o b; run_ops os' b'
  end.

(** *** Adding an instruction with labelled fields *)

(** The references [refs] are added to the labels, for an instruction not yet appended. *)
Fixpoint add_refs (refs : list (JumpType * string)) (b : ProgramBuilder)
    : option ProgramBuilder :=
  match refs with
  | [] => Some b
  | (t, l) :: refs' => b' ← addLabelSource l t b; add_refs refs' b'
  end.

Definition append (i : Instruction) (b : ProgramBuilder) : ProgramBuilder :=
  set_instructions b (instructions b ++ [i]).

Lemma run_op_cases o b :
  (∃ refs i, run_op o b = (b' ← add_refs refs b; Some (append i b')) ∧ NoDup refs.*1 ∧
     ∀ t l, (t, l) ∈ refs → labelled t i) ∨
  (∃ l, o = OpLabel l).
Proof.
  assert (Hnil : ∀ t l, (t, l) ∈ @nil (JumpType * string) → False).
  { intros t l H. by apply not_elem_of_nil in H. }
  destruct o as [code k|code k jt jf|l|code k l jf|code k jt l|code k l l'|l];
    [left..|right; by exists l]; simpl.
  - exists [], (Stmt code k). split; [done|]. split; [constructor|]. by intros t l ?%Hnil.
  - exists [], (Jump code k jt jf). split; [done|]. split; [constructor|]. by intros t l ?%Hnil.
  - exists [(JumpDirect, l)], (Jump (Op.Jmp .| Op.Ja) labelDirectTarget 0 0).
    split; [unfold AddDirectJumpLabel; simpl; by destruct (addLabelSource l JumpDirect b)|].
    split; [apply NoDup_singleton|]. intros t l0 H. apply list_elem_of_singleton in H. by simplify_eq.
  - exists [(JumpTrue, l)], (Jump code k labelTarget jf).
    split; [unfold AddJumpTrueLabel; simpl; by destruct (addLabelSource l JumpTrue b)|].
    split; [apply NoDup_singleton|]. intros t l0 H. apply list_elem_of_singleton in H. by simplify_eq.
  - exists [(JumpFalse, l)], (Jump code k jt labelTarget).
    split; [unfold AddJumpFalseLabel; simpl; by destruct (addLabelSource l JumpFalse b)|].
    split; [apply NoDup_singleton|]. intros t l0 H. apply list_elem_of_singleton in H. by simplify_eq.
  - exists [(JumpTrue, l); (JumpFalse, l')], (Jump code k labelTarget labelTarget).
    split; [simpl|split].
    + unfold AddJumpLabels. destruct (addLabelSource l JumpTrue b) as [b1|]; simpl; [|done].
      by destruct (addLabelSource l' JumpFalse b1).
    + simpl. repeat constructor; set_solver.
    + intros t l0 H. apply elem_of_cons in H as [H|H]; [|apply list_elem_of_singleton in H];
        by simplify_eq.
Qed.

(** The invariant between the references of an instruction and the instruction itself: the
    fields [P] of the instruction to come are labelled. *)
Record builder_mid (P : list JumpType) (b : ProgramBuilder) : Prop := mkBuilderMid {
  bm_line s l : jumpSourceToLabel b !! s = Some l →
    line s < length (instructions b) ∨ (line s = length (instructions b) ∧ jt s ∈ P);
  bm_label s l : jumpSourceToLabel b !! s = Some l →
    ∃ lab, labels b !! l = Some lab ∧ s ∈ sources lab;
  bm_sources l lab s : labels b !! l = Some lab → s ∈ sources lab →
    jumpSourceToLabel b !! s = Some l;
  bm_labelled s l i : jumpSourceToLabel b !! s = Some l →
    instructions b !! line s = Some i → labelled (jt s) i;
  bm_nodup l lab : labels b !! l = Some lab → NoDup (sources lab);
  bm_target l t : tgt b l = Some t → t ≤ length (instructions b)
}.

Lemma builder_ok_mid b : builder_ok b → builder_mid [] b.
Proof. intros []. split; auto. intros s l Hs. left. eauto. Qed.

Lemma append_ok P i b :
  builder_mid P b → (∀ t, t ∈ P → labelled t i) → builder_ok (append i b).
Proof.
  intros Hm HP. split; simpl; rewrite ?length_app; simpl.
  - intros s l [?|[? _]]%(bm_line _ _ Hm); lia.
  - apply (bm_label _ _ Hm).
  - apply (bm_sources _ _ Hm).
  - intros s l j Hs Hj. destruct (bm_line _ _ Hm _ _ Hs) as [Hlt|[Heq Ht]].
    + rewrite lookup_app_l in Hj by done. by eapply bm_labelled.
    + rewrite Heq, list_lookup_middle in Hj by done. simplify_eq. by apply HP.
  - apply (bm_nodup _ _ Hm).
  - intros l t Ht. pose proof (bm_target _ _ Hm l t Ht). lia.
Qed.

(** What adding a reference changes. *)
Record references (b : ProgramBuilder) (l : string) (t : JumpType) (b' : ProgramBuilder)
    : Prop := mkReferences {
  ref_insns : instructions b' = instructions b;
  ref_unusable : unusableLabels b' = unusableLabels b;
  ref_jump : jumpSourceToLabel b' =
    <[mkSource (length (instructions b)) t := l]> (jumpSourceToLabel b);
  ref_tgt l' : tgt b' l' = tgt b l';
  ref_dom l' : is_Some (labels b' !! l') ↔ l' = l ∨ is_Some (labels b !! l')
}.

Lemma addLabelSource_spec P l t b :
  builder_mid P b → t ∉ P →
  ∃ b', addLabelSource l t b = Some b' ∧ builder_mid (t :: P) b' ∧ references b l t b'.
Proof.
  intros Hm HP. unfold addLabelSource. set (s0 := mkSource (length (instructions b)) t).
  assert (Hs0 : jumpSourceToLabel b !! s0 = None).
  { destruct (jumpSourceToLabel b !! s0) as [l'|] eqn:E; [|done].
    destruct (bm_line _ _ Hm _ _ E) as [?|[_ ?]]; simpl in *; [lia|done]. }
  rewrite Hs0. eexists. split; [done|].
  set (l0 := default (mkLabel [] None) (labels b !! l)).
  assert (Hl0 : ∀ s, s ∈ sources l0 → jumpSourceToLabel b !! s = Some l).
  { intros s Hs. subst l0. destruct (labels b !! l) as [lab|] eqn:E; simpl in *.
    - by eapply bm_sources.
    - by apply not_elem_of_nil in Hs. }
  assert (Htgt : ∀ l', tgt (mkBuilder (<[l := mkLabel (sources l0 ++ [s0]) (target l0)]> (labels b))
      (<[s0 := l]> (jumpSourceToLabel b)) (unusableLabels b) (instructions b)) l' = tgt b l').
  { intros l'. unfold tgt. simpl. destruct (decide (l' = l)) as [->|Hne].
    - rewrite lookup_insert_eq. simpl. subst l0. by destruct (labels b !! l).
    - by rewrite lookup_insert_ne. }
  split; split; simpl; try done.
  - intros s l'. rewrite lookup_insert_Some. intros [[<- _]|[_ Hs]]; simpl.
    + right. split; [done|]. by left.
    + destruct (bm_line _ _ Hm _ _ Hs) as [?|[? ?]]; [by left|right]. split; [done|by right].
  - intros s l'. rewrite lookup_insert_Some. intros [[<- <-]|[_ Hs]].
    + eexists. rewrite lookup_insert_eq. split; [done|]. simpl. set_solver.
    + destruct (bm_label _ _ Hm _ _ Hs) as (lab & Hlab & Hin).
      destruct (decide (l' = l)) as [->|Hne].
      * eexists. rewrite lookup_insert_eq. split; [done|]. simpl. subst l0. rewrite Hlab. set_solver.
      * exists lab. by rewrite lookup_insert_ne.
  - intros l' lab s Hlab Hs. destruct (decide (s = s0)) as [->|Hne].
    + rewrite lookup_insert_eq. apply lookup_insert_Some in Hlab as [[-> _]|[_ Hlab]]; [done|].
      by rewrite (bm_sources _ _ Hm _ _ _ Hlab Hs) in Hs0.
    + rewrite lookup_insert_ne by done. apply lookup_insert_Some in Hlab as [[-> <-]|[_ Hlab]].
      * simpl in Hs. apply elem_of_app in Hs as [Hs|Hs%list_elem_of_singleton]; [by apply Hl0|done].
      * by eapply bm_sources.
  - intros s l' i. rewrite lookup_insert_Some. intros [[<- _]|[_ Hs]] Hi.
    + apply lookup_lt_Some in Hi. simpl in Hi. lia.
    + by eapply bm_labelled.
  - intros l' lab. rewrite lookup_insert_Some. intros [[-> <-]|[_ Hlab]]; simpl.
    + apply NoDup_app. split_and!.
      * subst l0. destruct (labels b !! l') eqn:E; simpl; [by eapply bm_nodup|constructor].
      * intros s Hs Hs'. apply list_elem_of_singleton in Hs' as ->. by rewrite (Hl0 _ Hs) in Hs0.
      * apply NoDup_singleton.
    + by eapply bm_nodup.
  - intros l' d Hd. rewrite Htgt in Hd. by eapply bm_target.
  - intros l'. destruct (decide (l' = l)) as [->|Hne].
    + rewrite lookup_insert_eq. split; [by left|eauto].
    + rewrite lookup_insert_ne by done. split; [by right|]. by intros [|].
Qed.

(** ** Growth *)

(** [B] was made from [b] by adding instructions and labels. *)
Record extends (b B : ProgramBuilder) : Prop := mkExtends {
  ext_insns : instructions b `prefix_of` instructions B;
  ext_jump s : line s < length (instructions b) →
    jumpSourceToLabel B !! s = jumpSourceToLabel b !! s;
  ext_tgt l t : tgt b l = Some t → tgt B l = Some t;
  ext_new l t : tgt b l = None → tgt B l = Some t → length (instructions b) ≤ t;
  ext_dom l : is_Some (labels b !! l) → is_Some (labels B !! l);
  ext_unusable : unusableLabels b ⊆ unusableLabels B
}.

Lemma ext_length b B : extends b B → length (instructions b) ≤ length (instructions B).
Proof. intros H. apply prefix_length, H. Qed.

#[export] Instance extends_preorder : PreOrder extends.
Proof.
  split.
  - intros b. split; try done. congruence.
  - intros b c d H1 H2. pose proof (ext_length _ _ H1). split.
    + etrans; [apply H1|apply H2].
    + intros s Hs. rewrite (ext_jump _ _ H2) by lia. by apply H1.
    + intros l t Ht. by apply H2, H1.
    + intros l t Hn Hs. destruct (tgt c l) as [t'|] eqn:Hc.
      * pose proof (ext_tgt _ _ H2 _ _ Hc). simplify_eq. by eapply H1.
      * pose proof (ext_new _ _ H2 _ _ Hc Hs). lia.
    + intros l Hl. by apply H2, H1.
    + etrans; [apply H1|apply H2].
Qed.

Lemma append_extends i b : extends b (append i b).
Proof. split; simpl; try done; [by eexists|]. unfold tgt. simpl. congruence. Qed.

Lemma references_extends b l t b' :
  references b l t b' → extends b b' ∧ instructions b' = instructions b.
Proof.
  intros [Hi Hu Hj Ht Hd]. split; [|done]. split.
  - by rewrite Hi.
  - intros s Hs. rewrite Hj, lookup_insert_ne; [done|]. intros <-. simpl in Hs. lia.
  - intros l' t'. by rewrite Ht.
  - intros l' t'. rewrite Ht. congruence.
  - intros l' Hl. apply Hd. by right.
  - by rewrite Hu.
Qed.

(** A label that can still be placed. *)
Definition unplaced (b : ProgramBuilder) (l : string) : Prop :=
  tgt b l = None ∧ l ∉ unusableLabels b.

(** What placing a label changes. *)
Record places (b : ProgramBuilder) (l : string) (b' : ProgramBuilder) : Prop := mkPlaces {
  pl_insns : instructions b' = instructions b;
  pl_jump : jumpSourceToLabel b' = jumpSourceToLabel b;
  pl_tgt l' : tgt b' l' = if decide (l' = l ∧ is_Some (labels b !! l))
                          then Some (length (instructions b)) else tgt b l';
  pl_other l' : l' ≠ l → labels b' !! l' = labels b !! l';
  pl_dom l' : is_Some (labels b' !! l') ↔ is_Some (labels b !! l');
  pl_unusable l' : l' ∈ unusableLabels b' ↔
    l' ∈ unusableLabels b ∨ (l' = l ∧ labels b !! l = None)
}.

Lemma AddLabel_spec b l :
  unplaced b l → ∃ b', AddLabel l b = (b', None) ∧ places b l b'.
Proof.
  intros [Ht Hu]. unfold AddLabel, tgt in *. destruct (labels b !! l) as [lab|] eqn:Hl; simpl in Ht.
  - rewrite Ht. eexists. split; [done|]. split; simpl; try done.
    + intros l'. unfold tgt. simpl. case_decide as Hd.
      * destruct Hd as [-> _]. by rewrite lookup_insert_eq.
      * rewrite lookup_insert_ne; [done|]. intros ->. apply Hd. split; [done|]. rewrite Hl. eauto.
    + intros l' Hne. by rewrite lookup_insert_ne.
    + intros l'. destruct (decide (l' = l)) as [->|Hne].
      * rewrite lookup_insert_eq, Hl. split; eauto.
      * by rewrite lookup_insert_ne.
    + intros l'. rewrite Hl. split; [by left|]. by intros [?|[_ ?]].
  - rewrite bool_decide_false by done. eexists. split; [done|]. split; simpl; try done.
    + intros l'. rewrite decide_False; [done|]. rewrite Hl. by intros [_ [? ?]].
    + intros l'. rewrite Hl. set_solver.
Qed.

(** Placing a label keeps the invariant, also when the label is rejected. *)
Lemma AddLabel_ok b l : builder_ok b → builder_ok (AddLabel l b).1.
Proof.
  intros Hok. unfold AddLabel. destruct (labels b !! l) as [lab|] eqn:Hl.
  2: { case_bool_decide; simpl; [done|]. by destruct Hok. }
  destruct (target lab) as [t|]; simpl; [done|]. split; simpl.
  - apply Hok.
  - intros s l' Hs. destruct (bo_label _ Hok _ _ Hs) as (lab' & Hlab' & Hin).
    destruct (decide (l' = l)) as [->|Hne].
    + rewrite lookup_insert_eq. eexists. split; [done|]. simpl. by simplify_eq.
    + rewrite lookup_insert_ne by done. eauto.
  - intros l' lab' s. rewrite lookup_insert_Some. intros [[-> <-]|[_ Hlab']] Hs; by eapply bo_sources.
  - apply Hok.
  - intros l' lab'. rewrite lookup_insert_Some.
    intros [[-> <-]|[_ Hlab']]; simpl; by eapply bo_nodup.
  - intros l' t. unfold tgt. simpl. destruct (decide (l' = l)) as [->|Hne].
    + rewrite lookup_insert_eq. simpl. intros [= <-]. done.
    + rewrite lookup_insert_ne by done. apply Hok.
Qed.

Lemma places_extends b l b' : tgt b l = None → places b l b' → extends b b'.
Proof.
  intros Hl [Hi Hj Ht _ Hd Hu]. split.
  - by rewrite Hi.
  - by rewrite Hj.
  - intros l' t Hs. rewrite Ht. case_decide as Hc; [|done]. destruct Hc as [-> _]. congruence.
  - intros l' t Hn. rewrite Ht. case_decide; [|congruence]. intros [= <-]. done.
  - intros l' Hs. by apply Hd.
  - intros l' Hs. apply Hu. by left.
Qed.

Lemma add_refs_spec refs P b :
  builder_mid P b → NoDup refs.*1 → (∀ t, t ∈ refs.*1 → t ∉ P) →
  ∃ b', add_refs refs b = Some b' ∧ builder_mid (refs.*1 ++ P) b' ∧ extends b b'.
Proof.
  revert P b. induction refs as [|[t l] refs IH]; intros P b Hm Hnd Hd; simpl.
  { by exists b. }
  rewrite fmap_cons in Hnd. apply NoDup_cons in Hnd as [Ht Hnd]. simpl in Ht.
  destruct (addLabelSource_spec P l t b) as (b1 & -> & Hm1 & Hr); [done|apply Hd; by left|].
  simpl. destruct (IH (t :: P) b1) as (b2 & -> & Hm2 & He); [done..| |].
  { intros t' Ht'. apply not_elem_of_cons. split; [by intros ->|]. apply Hd. by right. }
  exists b2. split; [done|]. split.
  - destruct Hm2 as [H1 H2 H3 H4 H5 H6]. split; [|done..].
    intros s l0 Hs. destruct (H1 s l0 Hs) as [?|[? Hin]]; [by left|right].
    split; [done|]. set_solver.
  - etrans; [|done]. by apply references_extends in Hr as [? _].
Qed.

(** ** Reachable builders *)

Lemma run_op_ok o b : builder_ok b → ∃ b', run_op o b = Some b' ∧ builder_ok b'.
Proof.
  intros Hok. destruct (run_op_cases o b) as [(refs & i & -> & Hnd & Hf)|[l ->]].
  - destruct (add_refs_spec refs [] b) as (b' & -> & Hm & _); [by apply builder_ok_mid|done| |].
    { intros t _. apply not_elem_of_nil. }
    simpl. eexists. split; [done|]. apply (append_ok _ _ _ Hm). intros t.
    rewrite app_nil_r. intros ([t' l] & -> & Hin)%list_elem_of_fmap. by eapply Hf.
  - simpl. eexists. split; [done|]. by apply AddLabel_ok.
Qed.

Lemma NewProgramBuilder_ok : builder_ok NewProgramBuilder.
Proof. by split. Qed.

Lemma run_ops_ok os b : builder_ok b → ∃ b', run_ops os b = Some b' ∧ builder_ok b'.
Proof.
  revert b. induction os as [|o os IH]; intros b Hok; simpl; [by exists b|].
  destruct (run_op_ok o b Hok) as (b1 & -> & Hok1). by apply IH.
Qed.

(** ** Outcomes of fragments *)

(** The ways out of a fragment. *)
Inductive way : Type :=
  | WFall
  | WBeyond
  | WLabel (l : string)
  | WImmediate (k : Z)
  | WRegisterA.

(** The outcomes list a way out. *)
Definition lists_way (o : FragmentOutcomes) (w : way) : Prop :=
  match w with
  | WFall => MayFallThrough o = true
  | WBeyond => MayJumpToKnownOffsetBeyondFragment o = true
  | WLabel l => l ∈ MayJumpToUnresolvedLabels o
  | WImmediate k => k ∈ MayReturnImmediate o
  | WRegisterA => MayReturnRegisterA o = true
  end.

(** The ways out of a fragment ending at [to] through one instruction. *)
Definition target_ways (to t : nat) : list way :=
  if (t =? to)%nat then [WFall] else if (to <? t)%nat then [WBeyond] else [].

Definition offset_ways (b : ProgramBuilder) (to pc : nat) (o : JumpOffset) : list way :=
  match jumpSourceToLabel b !! mkSource pc (Type_ o) with
  | Some l => match tgt b l with None => [WLabel l] | Some t => target_ways to t end
  | None => target_ways to (pc + Z.to_nat (Offset o) + 1)
  end.

Definition ins_ways (b : ProgramBuilder) (to pc : nat) (i : Instruction) : list way :=
  if (class i =? Op.Ret)%Z then
    if (OpCode i =? Op.Ret .| Op.K)%Z then [WImmediate (KVal i)]
    else if (OpCode i =? Op.Ret .| Op.A)%Z then [WRegisterA]
    else []
  else if (class i =? Op.Jmp)%Z then JumpOffsets i ≫= offset_ways b to pc
  else if (S pc =? to)%nat then [WFall] else [].

(** [o'] is [o] with the ways [ws]. *)
Definition adds_ways (o : FragmentOutcomes) (ws : list way) (o' : FragmentOutcomes) : Prop :=
  ∀ w, lists_way o' w ↔ lists_way o w ∨ w ∈ ws.

Lemma adds_none o : adds_ways o [] o.
Proof. intros w. rewrite elem_of_nil. tauto. Qed.

Lemma adds_trans o ws o1 ws' o2 :
  adds_ways o ws o1 → adds_ways o1 ws' o2 → adds_ways o (ws ++ ws') o2.
Proof. intros H1 H2 w. rewrite (H2 w), (H1 w), elem_of_app. tauto. Qed.

Lemma adds_one o w o' : (∀ w', lists_way o' w' ↔ lists_way o w' ∨ w' = w) → adds_ways o [w] o'.
Proof. intros H w'. by rewrite (H w'), list_elem_of_singleton. Qed.

Lemma adds_fall o : adds_ways o [WFall] (falls_through o).
Proof. apply adds_one. intros []; simpl; naive_solver. Qed.

Lemma adds_beyond o : adds_ways o [WBeyond] (jumps_beyond o).
Proof. apply adds_one. intros []; simpl; naive_solver. Qed.

Lemma adds_label o l : adds_ways o [WLabel l] (jumps_to_label o l).
Proof. apply adds_one. intros []; simpl; set_solver. Qed.

Lemma adds_immediate o k : adds_ways o [WImmediate k] (returns_immediate o k).
Proof. apply adds_one. intros []; simpl; set_solver. Qed.

Lemma adds_A o : adds_ways o [WRegisterA] (returns_A o).
Proof. apply adds_one. intros []; simpl; naive_solver. Qed.

Lemma adds_target to t o : adds_ways o (target_ways to t) (outcome_target to t o).
Proof.
  unfold target_ways, outcome_target.
  repeat case_if; [apply adds_fall|apply adds_beyond|apply adds_none].
Qed.

Section Outcomes.
Context (b : ProgramBuilder) (Hok : builder_ok b).

Lemma outcome_offset_spec to pc o off :
  ∃ o', outcome_offset b to pc o off = Some o' ∧ adds_ways o (offset_ways b to pc off) o'.
Proof.
  unfold outcome_offset, offset_ways.
  destruct (jumpSourceToLabel b !! _) as [l|] eqn:Hl.
  - destruct (bo_label _ Hok _ _ Hl) as (lab & Hlab & _). unfold tgt. rewrite Hlab. simpl.
    destruct (target lab); (eexists; split; [done|]); [apply adds_target|apply adds_label].
  - eexists. split; [done|]. apply adds_target.
Qed.

Lemma outcome_offsets_spec to pc offs o :
  ∃ o', outcome_offsets b to pc offs o = Some o' ∧
    adds_ways o (offs ≫= offset_ways b to pc) o'.
Proof.
  revert o. induction offs as [|off offs IH]; intros o; simpl.
  { exists o. split; [done|apply adds_none]. }
  destruct (outcome_offset_spec to pc o off) as (o1 & -> & H1). simpl.
  destruct (IH o1) as (o2 & -> & H2). exists o2. split; [done|]. by eapply adds_trans.
Qed.

Lemma outcome_ins_spec to pc i o :
  instructions b !! pc = Some i →
  ∃ o', outcome_ins b to pc o = Some o' ∧ adds_ways o (ins_ways b to pc i) o'.
Proof.
  intros Hi. unfold outcome_ins, ins_ways. rewrite Hi. simpl.
  destruct (class i =? Op.Ret)%Z.
  { eexists. split; [done|]. repeat case_if; [apply adds_immediate|apply adds_A|apply adds_none]. }
  destruct (class i =? Op.Jmp)%Z; [apply outcome_offsets_spec|].
  eexists. split; [done|]. case_if; [apply adds_fall|apply adds_none].
Qed.

(** [Outcomes] lists exactly the ways out through the instructions of the fragment. *)
Lemma Outcomes_spec from to :
  from < to → to ≤ length (instructions b) →
  ∃ o, Outcomes (mkFragment from to) b = Some o ∧
    ∀ w, lists_way o w ↔
      ∃ pc i, from ≤ pc < to ∧ instructions b !! pc = Some i ∧ w ∈ ins_ways b to pc i.
Proof.
  intros Hlt Hlen. unfold Outcomes. simpl. rewrite (proj2 (Nat.eqb_neq _ _)) by lia.
  destruct (range_loop_inv (outcome_ins b to)
    (λ k o, ∀ w, lists_way o w ↔
      ∃ pc i, from ≤ pc < k ∧ instructions b !! pc = Some i ∧ w ∈ ins_ways b to pc i)
    (to - from) from (mkOutcomes false false ∅ ∅ false)) as (o & Ho & HI).
  - intros w. split.
    + destruct w; simpl; done || set_solver.
    + intros (pc & i & ? & _). lia.
  - intros k o Hk HI. destruct (lookup_lt_is_Some_2 (instructions b) k) as [i Hi]; [lia|].
    destruct (outcome_ins_spec to k i o Hi) as (o' & Ho' & Ha). exists o'. split; [done|].
    intros w. rewrite (Ha w), (HI w). split.
    + intros [(pc & j & ? & ? & ?)|Hw]; [exists pc, j|exists k, i]; (split; [lia|done]).
    + intros (pc & j & Hpc & Hj & Hw). destruct (decide (pc = k)) as [->|].
      * right. by simplify_eq.
      * left. exists pc, j. split; [lia|done].
  - exists o. split; [done|]. by replace (from + (to - from)) with to in HI by lia.
Qed.

End Outcomes.

(** ** Programs made from a builder *)

Lemma AddLabel_extends b l : extends b (AddLabel l b).1.
Proof.
  unfold AddLabel. destruct (labels b !! l) as [lab|] eqn:Hl.
  2: { case_bool_decide; simpl; [done|]. split; simpl; try done; [|set_solver].
       unfold tgt. simpl. congruence. }
  destruct (target lab) as [t|] eqn:Ht; simpl; [done|].
  split; simpl; unfold tgt; simpl; try done.
  - intros l' t. destruct (decide (l' = l)) as [->|]; [|by rewrite lookup_insert_ne].
    rewrite Hl. simpl. congruence.
  - intros l' t. destruct (decide (l' = l)) as [->|].
    + rewrite lookup_insert_eq. simpl. by intros _ [= <-].
    + rewrite lookup_insert_ne by done. congruence.
  - intros l' Hs. destruct (decide (l' = l)) as [->|].
    + rewrite lookup_insert_eq. eauto.
    + by rewrite lookup_insert_ne.
Qed.

Lemma run_op_extends o b b' : builder_ok b → run_op o b = Some b' → extends b b'.
Proof.
  intros Hok. destruct (run_op_cases o b) as [(refs & i & -> & Hnd & Hf)|[l ->]].
  - destruct (add_refs_spec refs [] b) as (b1 & -> & _ & He); [by apply builder_ok_mid|done| |].
    { intros t _. apply not_elem_of_nil. }
    simpl. intros [= <-]. etrans; [done|]. apply append_extends.
  - simpl. intros [= <-]. apply AddLabel_extends.
Qed.

Lemma run_ops_extends os b b' : builder_ok b → run_ops os b = Some b' → extends b b'.
Proof.
  revert b. induction os as [|o os IH]; intros b Hok; simpl; [by intros [= <-]|].
  destruct (run_op_ok o b Hok) as (b1 & Hb1 & Hok1). rewrite Hb1. simpl. intros Hb'.
  etrans; [by eapply run_op_extends|by apply IH].
Qed.

Lemma Instructions_result order b :
  builder_ok b → lists_labels order →
  (resolvable b → ∃ b', Instructions order b = Some (b', (resolved b, None))) ∧
  (¬ resolvable b → ∃ b' p e, Instructions order b = Some (b', (p, Some e))).
Proof.
  intros Hok Ho. unfold Instructions, resolveLabels.
  destruct (resolve_result b Hok order Ho) as (insns & err & -> & Herr & Hres). simpl. split.
  - intros Hr. apply Herr in Hr. rewrite Hr. simpl. eexists. by rewrite (Hres Hr).
  - intros Hn. destruct err as [err|]; simpl; [eauto|]. by destruct Hn; apply Herr.
Qed.

(** Where a labelled or unlabelled jump field leads to in the resolved program. *)
Lemma resolved_field B pc i t :
  builder_ok B → resolvable B → instructions B !! pc = Some i →
  match jumpSourceToLabel B !! mkSource pc t with
  | Some l => ∃ d, tgt B l = Some d ∧ pc < d ∧
      S (pc + Z.to_nat (jump_field t (resolve_ins B pc i))) = d
  | None => jump_field t (resolve_ins B pc i) = jump_field t i
  end.
Proof.
  intros Hok Hr Hi. rewrite resolve_ins_field. unfold source_target.
  destruct (jumpSourceToLabel B !! mkSource pc t) as [l|] eqn:Hl; [|done]. simpl.
  destruct (bo_label _ Hok _ _ Hl) as (lab & Hlab & Hin).
  destruct (Hr l lab Hlab) as (_ & d & Hd & _ & Hall). unfold tgt. rewrite Hlab. simpl. rewrite Hd.
  exists d. split; [done|]. destruct (Hall _ Hin) as [Hlt _]. simpl in Hlt. split; [done|].
  unfold distance. lia.
Qed.

(** The successors of a jump, by the fields [JumpOffsets] lists. *)
Lemma jump_succs pc i s :
  IsJump i = true → s ∈ succs pc i →
  ∃ t, s = S (pc + Z.to_nat (jump_field t i)) ∧ mkJumpOffset t (jump_field t i) ∈ JumpOffsets i.
Proof.
  intros Hj. unfold succs, JumpOffsets. rewrite Hj.
  assert (Hr : IsReturn i = false).
  { destruct (IsReturn i) eqn:E; [|done]. by rewrite (return_not_jump i E) in Hj. }
  rewrite Hr, (jump_cases i Hj). simpl. destruct (IsUnconditionalJump i); simpl.
  - intros ->%list_elem_of_singleton. exists JumpDirect. split; [done|apply list_elem_of_here].
  - intros [-> | ->%list_elem_of_singleton]%elem_of_cons; [exists JumpTrue|exists JumpFalse];
      (split; [done|]); simpl; set_solver.
Qed.

Lemma JumpOffsets_field i o : o ∈ JumpOffsets i → Offset o = jump_field (Type_ o) i.
Proof. unfold JumpOffsets. repeat case_if; set_solver. Qed.

(** Resolution does not change which fields of a jump are offsets. *)
Lemma JumpOffsets_resolve B pc i t :
  IsJump i = true →
  mkJumpOffset t (jump_field t (resolve_ins B pc i)) ∈ JumpOffsets (resolve_ins B pc i) →
  mkJumpOffset t (jump_field t i) ∈ JumpOffsets i.
Proof.
  intros Hj. unfold JumpOffsets, IsConditionalJump. simpl.
  change (IsJump (resolve_ins B pc i)) with (IsJump i). rewrite Hj. simpl. case_if; simpl.
  - intros [H|H%list_elem_of_singleton]%elem_of_cons; injection H as -> _; set_solver.
  - intros H%list_elem_of_singleton. injection H as -> _. set_solver.
Qed.

(** The ways out are by the program counter a jump leads to. *)
Lemma offset_way B b to pc i t :
  builder_ok B → resolvable B → extends b B → instructions b !! pc = Some i →
  let s := S (pc + Z.to_nat (jump_field t (resolve_ins B pc i))) in
  s < to ∨ ∃ w, w ∈ offset_ways b to pc (mkJumpOffset t (jump_field t i)) ∧
    match w with
    | WFall => s = to
    | WBeyond => to < s
    | WLabel l => tgt B l = Some s
    | _ => False
    end.
Proof.
  intros Hok Hr He Hi. pose proof (lookup_lt_Some _ _ _ Hi) as Hlt.
  assert (HiB : instructions B !! pc = Some i) by (by eapply prefix_lookup_Some, He).
  pose proof (resolved_field B pc i t Hok Hr HiB) as Hf. unfold offset_ways. simpl.
  rewrite (ext_jump _ _ He) in Hf by done.
  assert (Hways : ∀ d, d < to ∨ ∃ w, w ∈ target_ways to d ∧
    match w with WFall => d = to | WBeyond => to < d | WLabel l => tgt B l = Some d | _ => False end).
  { intros d. unfold target_ways. destruct (Nat.eqb_spec d to) as [->|Hne].
    - right. exists WFall. split; [apply list_elem_of_here|done].
    - destruct (Nat.ltb_spec to d); [|left; lia].
      right. exists WBeyond. split; [apply list_elem_of_here|done]. }
  destruct (jumpSourceToLabel b !! mkSource pc t) as [l|].
  - destruct Hf as (d & Hd & _ & ->). destruct (tgt b l) as [d'|] eqn:Hd'.
    + apply (ext_tgt _ _ He) in Hd'. simplify_eq. apply Hways.
    + right. exists (WLabel l). split; [apply list_elem_of_here|done].
  - rewrite Hf. replace (pc + _ + 1) with (S (pc + Z.to_nat (jump_field t i))) by lia. apply Hways.
Qed.

Lemma Instructions_accepted order b b' p :
  builder_ok b → lists_labels order → Instructions order b = Some (b', (p, None)) →
  resolvable b ∧ p = resolved b.
Proof.
  intros Hok Ho. unfold Instructions, resolveLabels.
  destruct (resolve_result b Hok order Ho) as (insns & err & -> & Herr & Hres). simpl.
  destruct err as [err|]; simpl; [done|]. intros [= _ <-]. split; [by apply Herr|by apply Hres].
Qed.

(** ** Properties *)

(** An instruction of a fragment that ends at [to] passes control to [s]: inside the fragment,
    or out of it in a way that [o] lists. *)
Definition leaves (o : FragmentOutcomes) (B : ProgramBuilder) (to s : nat) : Prop :=
  s < to ∨ (s = to ∧ MayFallThrough o = true) ∨
  (to < s ∧ MayJumpToKnownOffsetBeyondFragment o = true) ∨
  ∃ l, l ∈ MayJumpToUnresolvedLabels o ∧ tgt B l = Some s.

Section Leaves.
Context (b B : ProgramBuilder) (HokB : builder_ok B) (Hr : resolvable B) (He : extends b B).
Context (to pc : nat) (i : Instruction) (Hi : instructions b !! pc = Some i).
Context (Hiok : ins_ok (resolve_ins B pc i)).
Context (o : FragmentOutcomes) (Hlists : ∀ w, w ∈ ins_ways b to pc i → lists_way o w).

Lemma leaves_cont e inp m m' :
  pc < to → exec_ins e inp (resolve_ins B pc i) m = Cont m' → leaves o B to (S pc).
Proof.
  intros Hpc Hex. assert (Hret : IsReturn i = false).
  { apply not_true_iff_false. intros Hc. by rewrite effect_return in Hex. }
  assert (Hj : IsJump i = false).
  { apply not_true_iff_false. intros Hc.
    destruct (effect_is_jump e inp (resolve_ins B pc i) m Hiok Hc) as [off Hoff]. congruence. }
  unfold IsReturn, IsJump in *. unfold leaves.
  destruct (decide (S pc = to)) as [<-|]; [|left; lia]. right. left. split; [done|].
  apply (Hlists WFall). unfold ins_ways. rewrite Hret, Hj, Nat.eqb_refl. apply list_elem_of_here.
Qed.

Lemma leaves_jump e inp m off :
  exec_ins e inp (resolve_ins B pc i) m = JumpBy off → leaves o B to (S (pc + off)).
Proof.
  intros Hex. pose proof (exec_ins_flow e inp _ m Hiok) as Hflow. rewrite Hex in Hflow.
  assert (Hj : IsJump i = true) by exact (effect_jump e inp _ m off Hiok Hex).
  destruct (jump_succs pc (resolve_ins B pc i) _ Hj (Hflow pc)) as (t & -> & Hin).
  apply (JumpOffsets_resolve _ _ _ _ Hj) in Hin as Hin'.
  destruct (offset_way B b to pc i t HokB Hr He Hi) as [|(w & Hw & Hs)]; [by left|].
  assert (Hlw : lists_way o w).
  { apply Hlists. unfold ins_ways. unfold IsJump in Hj. rewrite Hj. to_prop. rewrite Hj. simpl.
    apply list_elem_of_bind. eauto. }
  right. destruct w; try done; [by left|by right; left|right; right; eauto].
Qed.

Lemma leaves_return e inp m v :
  builder_ok b → exec_ins e inp (resolve_ins B pc i) m = Return v →
  v ∈ MayReturnImmediate o ∨ MayReturnRegisterA o = true.
Proof.
  intros Hokb Hex. pose proof (effect_returns e inp _ m v Hiok Hex) as Hret.
  rewrite effect_return in Hex by done.
  assert (Hv : v = if (OpCode i =? Op.Ret .| Op.K)%Z then KVal (resolve_ins B pc i) else mA m)
    by (by injection Hex).
  change (IsReturn i = true) in Hret.
  unfold ins_ways in Hlists. unfold IsReturn in Hret. rewrite Hret in Hlists.
  destruct (OpCode i =? Op.Ret .| Op.K)%Z eqn:HK.
  - left. assert (v = KVal i) as ->; [|apply (Hlists (WImmediate _)), list_elem_of_here]. rewrite Hv.
    pose proof (lookup_lt_Some _ _ _ Hi). change (KVal ?j) with (jump_field JumpDirect j).
    rewrite resolve_ins_field. unfold source_target. rewrite (ext_jump _ _ He) by done.
    destruct (jumpSourceToLabel b !! mkSource pc JumpDirect) as [l|] eqn:Hl; [|done]. exfalso.
    destruct (bo_labelled _ Hokb _ _ i Hl Hi) as [_ Hop]. to_prop. by rewrite Hop in HK.
  - right. apply (Hlists WRegisterA). case_if; [apply list_elem_of_here|]. exfalso.
    assert (Hk : OpCode i ∈ known_opcodes) by apply Hiok. to_prop.
    destruct i as [op jt0 jf0 k0]. simpl in *. unfold class in Hret. simpl in Hret. clear - Hk Hret HK Heqb0.
    by_opcode Hk; done.
Qed.

End Leaves.

(** C13. Whatever is added to a new builder, no operation panics, and [Instructions] returns a
    program exactly when every referenced label was placed after all its references, before the
    end, within reach of its jumps and not before its first reference.  The program has the
    added instructions with every labelled jump leading to the place of its label and
    everything else unchanged; it does not depend on the order of Go's map iteration. *)
Theorem Instructions_correct os order :
  lists_labels order →
  ∃ b, run_ops os NewProgramBuilder = Some b ∧
    (¬ resolvable b → ∃ b' p e, Instructions order b = Some (b', (p, Some e))) ∧
    (resolvable b → ∃ b' p, Instructions order b = Some (b', (p, None)) ∧
      length p = length (instructions b) ∧
      ∀ pc i, instructions b !! pc = Some i → ∃ i', p !! pc = Some i' ∧ OpCode i' = OpCode i ∧
        ∀ t, match jumpSourceToLabel b !! mkSource pc t with
             | Some l => tgt b l = Some (S (pc + Z.to_nat (jump_field t i')))
             | None => jump_field t i' = jump_field t i
             end).
Proof.
  intros Ho. destruct (run_ops_ok os _ NewProgramBuilder_ok) as (b & -> & Hok). exists b.
  split; [done|]. destruct (Instructions_result order b Hok Ho) as [Hres Herr]. split; [done|].
  intros Hr. destruct (Hres Hr) as (b' & Hb'). exists b', (resolved b). split; [done|].
  unfold resolved. rewrite length_imap. split; [done|]. intros pc i Hi.
  exists (resolve_ins b pc i). rewrite list_lookup_imap, Hi. split; [done|]. split; [done|].
  intros t. pose proof (resolved_field b pc i t Hok Hr Hi) as Hf.
  destruct (jumpSourceToLabel b !! mkSource pc t); [|done]. destruct Hf as (d & Hd & _ & Hs). congruence.
Qed.

Definition sample_ops : list builder_op :=
  [ OpStmt (Op.Ld .| Op.Abs .| Op.W) 0; OpJump (Op.Jmp .| Op.Jeq .| Op.K) 59 0 1;
    OpDirectJumpLabel "match"; OpDirectJumpLabel "other" ].

Definition sample_end : list builder_op :=
  [ OpLabel "other"; OpStmt (Op.Ret .| Op.K) 1; OpLabel "match"; OpStmt (Op.Ret .| Op.K) 2 ].

Definition sample_builder : ProgramBuilder :=
  default NewProgramBuilder (run_ops sample_ops NewProgramBuilder).

Definition sample_built : ProgramBuilder :=
  default NewProgramBuilder (run_ops sample_end sample_builder).

Lemma sample_resolvable : resolvable sample_built.
Proof.
  eapply (Instructions_accepted map_to_list); [|by intros m|vm_compute; reflexivity].
  destruct (run_ops_ok (sample_ops ++ sample_end) _ NewProgramBuilder_ok) as (b & Hb & Hok).
  replace sample_built with b; [done|]. vm_compute in Hb. injection Hb as <-. reflexivity.
Qed.

Lemma Instructions_correct_witness :
  ∃ b, run_ops (sample_ops ++ sample_end) NewProgramBuilder = Some b ∧
    ∃ b' p, Instructions map_to_list b = Some (b', (p, None)).
Proof.
  destruct (Instructions_correct (sample_ops ++ sample_end) map_to_list) as (b & Hb & _ & Hr).
  - by intros m.
  - exists b. split; [done|]. destruct Hr as (b' & p & Hi & _); [|by exists b', p].
    replace b with sample_built; [exact sample_resolvable|].
    vm_compute in Hb. injection Hb as <-. reflexivity.
Defined.

(** C16. [Outcomes] is sound for the final program: in whatever way a builder goes on after the
    outcomes of a fragment were computed, an instruction of the fragment in the resolved
    program only returns a listed value, and only passes control to an instruction of the
    fragment, past its end as listed, or to the place of a listed label. *)
Theorem Outcomes_sound os os' b B from to :
  run_ops os NewProgramBuilder = Some b → run_ops os' b = Some B →
  resolvable B → wf_prog (resolved B) → from < to ≤ length (instructions b) →
  ∃ o, Outcomes (mkFragment from to) b = Some o ∧
    ∀ e inp pc i m, from ≤ pc < to → resolved B !! pc = Some i →
      match exec_ins e inp i m with
      | Cont _ => leaves o B to (S pc)
      | JumpBy off => leaves o B to (S (pc + off))
      | Return v => v ∈ MayReturnImmediate o ∨ MayReturnRegisterA o = true
      | _ => True
      end.
Proof.
  intros Hb HB Hr Hwf [Hft Hto].
  destruct (run_ops_ok os _ NewProgramBuilder_ok) as (b0 & Hb0 & Hok). simplify_eq.
  destruct (run_ops_ok os' b Hok) as (B0 & HB0 & HokB). simplify_eq.
  pose proof (run_ops_extends os' b B Hok HB) as He.
  destruct (Outcomes_spec b Hok from to Hft Hto) as (o & Ho & Hw). exists o. split; [done|].
  intros e inp pc i' m Hpc Hi'. pose proof (wf_ins _ Hwf _ _ Hi') as Hiok.
  destruct (lookup_lt_is_Some_2 (instructions b) pc) as [i Hi]; [lia|].
  assert (HiB : instructions B !! pc = Some i) by (by eapply prefix_lookup_Some, He).
  unfold resolved in Hi'. rewrite list_lookup_imap, HiB in Hi'. injection Hi' as <-.
  assert (Hlists : ∀ w, w ∈ ins_ways b to pc i → lists_way o w).
  { intros w Hin. apply Hw. by exists pc, i. }
  destruct (exec_ins e inp (resolve_ins B pc i) m) as [m'|off|v| |] eqn:Hex; try done.
  - eapply leaves_cont; [done..| |done]. lia.
  - by eapply leaves_jump.
  - by eapply leaves_return.
Qed.

Lemma sample_wf : wf_prog (resolved sample_built).
Proof.
  apply validate_wf; [|vm_compute; reflexivity].
  apply (bool_decide_unpack _). vm_compute. exact I.
Qed.

Lemma Outcomes_sound_witness :
  ∃ o, Outcomes (mkFragment 0 4) sample_builder = Some o ∧
    ∀ e inp i m, resolved sample_built !! 3 = Some i →
      match exec_ins e inp i m with
      | Cont _ => leaves o sample_built 4 4
      | JumpBy off => leaves o sample_built 4 (S (3 + off))
      | Return v => v ∈ MayReturnImmediate o ∨ MayReturnRegisterA o = true
      | _ => True
      end.
Proof.
  destruct (Outcomes_sound sample_ops sample_end sample_builder sample_built 0 4)
    as (o & Ho & Hall).
  - reflexivity.
  - reflexivity.
  - exact sample_resolvable.
  - exact sample_wf.
  - vm_compute. lia.
  - exists o. split; [done|]. intros e inp i m. apply (Hall e inp 3 i m). lia.
Defined.
