(* ===== verification/SeccompAbi.v ===== *)
(** * The seccomp ABI (src/pkg/abi/linux/seccomp.go, src/pkg/abi/sentry/syscall.go)

    Actions, the data passed to filters and the layout of that data in memory.  The marshalling
    code is generated at build time: it is the class [SeccompMarshal], whose laws are what the
    declaration of the struct says of its layout. *)

From stdpp Require Import base numbers decidable list.
From S2P Require Import Prelude.

Local Open Scope Z_scope.
Local Open Scope bits_scope.

Definition SECCOMP_MODE_NONE : Z := 0.
Definition SECCOMP_MODE_FILTER : Z := 2.

Definition SECCOMP_RET_ACTION_FULL : Z := 0xffff0000.
Definition SECCOMP_RET_ACTION : Z := 0x7fff0000.
Definition SECCOMP_RET_DATA : Z := 0x0000ffff.

Definition SECCOMP_SET_MODE_FILTER : Z := 1.
Definition SECCOMP_FILTER_FLAG_TSYNC : Z := 1.

Definition SECCOMP_RET_KILL_PROCESS : Z := 0x80000000.
Definition SECCOMP_RET_KILL_THREAD : Z := 0x00000000.
Definition SECCOMP_RET_TRAP : Z := 0x00030000.
Definition SECCOMP_RET_ERRNO : Z := 0x00050000.
Definition SECCOMP_RET_TRACE : Z := 0x7ff00000.
Definition SECCOMP_RET_USER_NOTIF : Z := 0x7fc00000.
Definition SECCOMP_RET_ALLOW : Z := 0x7fff0000.

(** [BPFAction.Data] *)
Definition Data (a : Z) : Z := wrap16 (a .& SECCOMP_RET_DATA).

(** [BPFAction.WithReturnCode]; [None] is its panic. *)
Definition WithReturnCode (a code : Z) : option Z :=
  let baseAction := a .& SECCOMP_RET_ACTION_FULL in
  if (baseAction =? SECCOMP_RET_ERRNO) || (baseAction =? SECCOMP_RET_TRACE)
  then Some (baseAction .| code) else None.

Definition MaxSyscallNum : Z := 2000.

Record SeccompData : Type := mkData {
  Nr : Z;
  Arch : Z;
  InstructionPointer : Z;
  Args : list Z
}.

(** Offset and size of the fields [Nr] and [Arch] (int32 and uint32, in this order). *)
Definition nrField : nat * nat := (0, 4)%nat.
Definition archField : nat * nat := (4, 4)%nat.

(** [SeccompData.SizeBytes]: 4 + 4 + 8 + 6 * 8. *)
Definition SizeBytes : nat := 64.

(** [MarshalBytes] and [MarshalUnsafe], which write the same bytes: the fields in order, in
    their size. *)
Class SeccompMarshal : Type := {
  marshal : SeccompData → list Z;
  marshal_length d : length (marshal d) = SizeBytes;
  marshal_bytes d : Forall in_u8 (marshal d);
  marshal_prefix d d' : Nr d = Nr d' → Arch d = Arch d' →
    ∀ k, (k < 8)%nat → marshal d !! k = marshal d' !! k
}.

(** ** The layout of the supported architectures *)

Definition marshal_le (d : SeccompData) : list Z :=
  le_bytes 4 (Nr d) ++ le_bytes 4 (Arch d) ++ le_bytes 8 (InstructionPointer d) ++
  concat ((λ k, le_bytes 8 (default 0 (Args d !! k))) <$> seq 0 6).

Definition le_marshal : SeccompMarshal.
Proof.
  refine {| marshal := marshal_le |}.
  - intros d. reflexivity.
  - intros d. unfold marshal_le. rewrite !Forall_app. split_and!; try apply le_bytes_range.
    apply Forall_concat, Forall_fmap, Forall_forall. intros k _. apply le_bytes_range.
  - intros d d' Hn Ha k Hk. unfold marshal_le. rewrite Hn, Ha.
    rewrite !app_assoc. rewrite !(lookup_app_l (_ ++ _) _ k); [done|..];
      rewrite ?length_app, ?le_bytes_length; lia.
Defined.
