(* ===== verification/TaskSeccomp.v ===== *)
(** * Seccomp in the sentry (src/pkg/sentry/kernel/seccomp.go and its callers)

    Evaluation of a task's filters on a system call, with the cache of actions per system call
    number; installation of a filter, with its synchronization to the thread group; the
    seccomp(2) system call up to the copy of its arguments, and the dispatch on the action at
    the entry of a system call.

    A thread group is the list of its tasks, and a task is referred to by its index.  [None] is
    a Go panic, which TaskSeccompFacts.v excludes for compiled filters. *)

From stdpp Require Import base numbers decidable gmap list.
From S2P Require Import Prelude Instr Machine MachineFacts Instrumented SeccompAbi.
From S2P Require Import Optimizer.

Local Open Scope Z_scope.
Local Open Scope bits_scope.

Definition maxSyscallFilterInstructions : nat := Z.to_nat (Z.shiftl 1 15).

Arguments maxSyscallFilterInstructions : simpl never.

Definition uncacheableBPFAction : Z := SECCOMP_RET_ACTION_FULL.

Record taskSeccomp : Type := mkTaskSeccomp {
  filters : list (list Instruction);
  cache : list Z;
  cacheAuditNumber : Z
}.

(** [&taskSeccomp{}] *)
Definition taskSeccomp0 : taskSeccomp :=
  mkTaskSeccomp [] (replicate (Z.to_nat (MaxSyscallNum + 1)) 0) 0.

Definition copy (ts : taskSeccomp) : taskSeccomp :=
  mkTaskSeccomp (filters ts) (cache ts) (cacheAuditNumber ts).

Record Task : Type := mkTask {
  seccomp : option taskSeccomp;
  AuditNumber : Z;              (* image.st.AuditNumber *)
  NoNewPrivs : bool
}.

Definition set_seccomp (t : Task) (ts : option taskSeccomp) : Task :=
  mkTask ts (AuditNumber t) (NoNewPrivs t).

Definition SetNoNewPrivs (t : Task) : Task := mkTask (seccomp t) (AuditNumber t) true.

(** [if (thisRet & ACTION) < (ret & ACTION) { ret = thisRet }] *)
Definition lower_action (ret thisRet : Z) : Z :=
  if (thisRet .& SECCOMP_RET_ACTION) <? (ret .& SECCOMP_RET_ACTION) then thisRet else ret.

Section Filters.
Context {M : SeccompMarshal}.

(** ** Evaluation *)

(** The filter loop of [evaluateSyscallFilters], on the filters from the last to the first. *)
Fixpoint run_filters (fs : list (list Instruction)) (input : Input) (ret : Z) : option Z :=
  match fs with
  | [] => Some ret
  | f :: fs' =>
      thisRet ← match Exec NativeEndian f input with
                | Value v => Some v
                | Err _ => Some SECCOMP_RET_KILL_THREAD
                | _ => None
                end;
      run_filters fs' input (lower_action ret thisRet)
  end.

(** [for i, arg := range args { if i >= len(data.Args) { break }; data.Args[i] = .. }] on an
    array of six zeros. *)
Definition data_args (args : list Z) : list Z :=
  take 6 args ++ replicate (6 - length args)%nat 0.

Definition evaluateSyscallFilters (t : Task) (sysno : Z) (args : list Z) (ip : Z) : option Z :=
  match seccomp t with
  | None => Some SECCOMP_RET_ALLOW
  | Some ts =>
      let arch := AuditNumber t in
      let slow :=
        run_filters (reverse (filters ts)) (marshal (mkData sysno arch ip (data_args args)))
          SECCOMP_RET_ALLOW in
      if (arch =? cacheAuditNumber ts) && (sysno >=? 0) && (sysno <=? MaxSyscallNum) then
        cached ← cache ts !! Z.to_nat sysno;
        if negb (cached =? uncacheableBPFAction) then Some cached else slow
      else slow
  end.

(** ** The cache *)

Definition in_field (offset : nat) (field : nat * nat) : bool :=
  ((field.1 <=? offset) && (offset <? field.1 + field.2))%nat.

(** [checkFilterCacheability]: the inner [None] is an error. *)
Definition checkFilterCacheability (program : list Instruction) (input : Input)
    : option (option Z) :=
  match InstrumentedExec NativeEndian program input with
  | IResult exec None =>
      if forallb (λ '(offset, accessed),
           negb accessed || in_field offset nrField || in_field offset archField)
           (imap (λ offset accessed, (offset, accessed)) (InputAccessed exec))
      then Some (Some (ReturnValue exec)) else Some None
  | IResult _ (Some _) => Some None
  | _ => None
  end.

(** The filter loop of [populateCache]: the inner [None] is an action that is not cacheable. *)
Fixpoint cache_filters (fs : list (list Instruction)) (input : Input) (ret : Z)
    : option (option Z) :=
  match fs with
  | [] => Some (Some ret)
  | f :: fs' =>
      result ← checkFilterCacheability f input;
      match result with
      | None => Some None
      | Some result => cache_filters fs' input (lower_action ret result)
      end
  end.

(** [populateCache], for a task with the given audit number. *)
Definition populateCache (ts : taskSeccomp) (audit : Z) : option taskSeccomp :=
  c ← range_loop
    (λ sysno c,
      let input := marshal (mkData (Z.of_nat sysno) audit 0 (replicate 6 0)) in
      r ← cache_filters (reverse (filters ts)) input SECCOMP_RET_ALLOW;
      Some (<[sysno := default uncacheableBPFAction r]> c))
    (Z.to_nat (MaxSyscallNum + 1)) 0 (cache ts);
  Some (mkTaskSeccomp (filters ts) c audit).

(** ** Installation *)

(** The body of the thread-group loop of [AppendSyscallFilter]. *)
Definition sync_task (ot : Task) (newSeccomp : taskSeccomp) (currentNoNewPrivs : bool)
    : option Task :=
  let ot := if currentNoNewPrivs then SetNoNewPrivs ot else ot in
  seccompCopy ← populateCache (copy newSeccomp) (AuditNumber ot);
  Some (set_seccomp ot (Some seccompCopy)).

(** The thread-group loop of [AppendSyscallFilter]: every task but the [self]-th gets a copy. *)
Fixpoint sync_tasks (tg : list Task) (idx self : nat) (newSeccomp : taskSeccomp) (nnp : bool)
    : option (list Task) :=
  match tg with
  | [] => Some []
  | ot :: tg' =>
      ot' ← (if (idx =? self)%nat then Some ot else sync_task ot newSeccomp nnp);
      tg'' ← sync_tasks tg' (S idx) self newSeccomp nnp;
      Some (ot' :: tg'')
  end.

(** [AppendSyscallFilter] by the task [self] of the thread group [tg]: the new group, or an
    error and an unchanged group. *)
Definition AppendSyscallFilter (tg : list Task) (self : nat) (p : list Instruction)
    (syncAll : bool) : option (list Task + Errno) :=
  t ← tg !! self;
  let old := match seccomp t with Some ts => filters ts | None => [] end in
  let totalLength := foldl (λ n f, n + (length f + 4))%nat (length p) old in
  if (maxSyscallFilterInstructions <? totalLength)%nat then Some (inr ENOMEM)
  else
    newSeccomp ← populateCache
      (mkTaskSeccomp (old ++ [p]) (cache taskSeccomp0) (cacheAuditNumber taskSeccomp0))
      (AuditNumber t);
    let tg := <[self := set_seccomp t (Some newSeccomp)]> tg in
    if syncAll then
      tg ← sync_tasks tg 0 self newSeccomp (NoNewPrivs t); Some (inl tg)
    else Some (inl tg).

(** The child of a clone gets the filters of its parent. *)
Definition clone_seccomp (t nt : Task) : option Task :=
  match seccomp t with
  | Some ts => seccompCopy ← populateCache (copy ts) (AuditNumber nt);
               Some (set_seccomp nt (Some seccompCopy))
  | None => Some (set_seccomp nt None)
  end.

(** [Task.afterLoad] recomputes the cache. *)
Definition afterLoad_seccomp (t : Task) : option Task :=
  match seccomp t with
  | Some ts => ts' ← populateCache ts (AuditNumber t); Some (set_seccomp t (Some ts'))
  | None => Some t
  end.

Definition SeccompMode (t : Task) : Z :=
  match seccomp t with
  | Some ts => if (0 <? length (filters ts))%nat then SECCOMP_MODE_FILTER else SECCOMP_MODE_NONE
  | None => SECCOMP_MODE_NONE
  end.

(** ** seccomp(2) *)

(** What the system call does with its arguments: an error, a new thread group, or the wait for
    the execve lock before a synchronized installation. *)
Inductive seccomp_outcome : Type :=
  | Failed (e : Errno)
  | Installed (tg : list Task)
  | WaitExecveLock (p : list Instruction).

(** [userSockFprog] *)
Record userSockFprog : Type := mkFprog { fprog_Len : Z; fprog_Filter : Z }.

(** [seccomp(t, mode, flags, addr)]; [fprog] and [insns] are the results of the two copies from
    user memory, and [cap] whether the task has CAP_SYS_ADMIN. *)
Definition seccomp_syscall (order : nat → map_order) (tg : list Task) (self : nat)
    (mode flags : Z) (fprog : userSockFprog + Errno)
    (insns : userSockFprog → list Instruction + Errno) (cap : bool) : option seccomp_outcome :=
  t ← tg !! self;
  if negb (mode =? SECCOMP_SET_MODE_FILTER) then Some (Failed EINVAL)
  else
    let tsync := negb (flags .& SECCOMP_FILTER_FLAG_TSYNC =? 0) in
    if negb (Z.ldiff flags SECCOMP_FILTER_FLAG_TSYNC =? 0) then Some (Failed EINVAL)
    else
      match fprog with
      | inr e => Some (Failed e)
      | inl fprog =>
          if (fprog_Len fprog =? 0) || (fprog_Len fprog >? Z.of_nat MaxInstructions)
          then Some (Failed EINVAL)
          else
            match insns fprog with
            | inr e => Some (Failed e)
            | inl bpfFilter =>
                compiled ← Compile order bpfFilter true;
                match compiled with
                | inr _ => Some (Failed EINVAL)
                | inl compiledFilter =>
                    if negb (NoNewPrivs t) && negb cap then Some (Failed EACCES)
                    else if negb tsync then
                      r ← AppendSyscallFilter tg self compiledFilter false;
                      match r with
                      | inl tg' => Some (Installed tg')
                      | inr e => Some (Failed e)
                      end
                    else Some (WaitExecveLock compiledFilter)
                end
            end
      end.

(** ** The action of a system call *)

(** What [checkSeccompSyscall] does to the task besides its result. *)
Inductive seccomp_effect : Type :=
  | SendSIGSYS (errno sysno arch ip : Z)
  | SetReturn (v : Z).

Definition ENOSYS : Z := 38.

(** [ptraceSeccomp] tells whether a tracer was notified. *)
Definition checkSeccompSyscall (ptraceSeccomp : Z → bool) (t : Task) (sysno : Z)
    (args : list Z) (ip : Z) : option (Z * list seccomp_effect) :=
  result ← evaluateSyscallFilters t sysno args ip;
  let action := result .& SECCOMP_RET_ACTION in
  Some
    (if action =? SECCOMP_RET_TRAP then
       (action, [SendSIGSYS (Data result) sysno (AuditNumber t) ip; SetReturn (wrap64 sysno)])
     else if action =? SECCOMP_RET_ERRNO then (action, [SetReturn (wrap64 (- Data result))])
     else if action =? SECCOMP_RET_TRACE then
       if negb (ptraceSeccomp (Data result)) then
         (SECCOMP_RET_ERRNO, [SetReturn (wrap64 (- ENOSYS))])
       else (action, [])
     else if action =? SECCOMP_RET_ALLOW then (action, [])
     else if action =? SECCOMP_RET_KILL_THREAD then (action, [])
     else (SECCOMP_RET_KILL_THREAD, [])).

(** The next run state of a task at the entry of a system call. *)
Inductive runState : Type :=
  | runSyscallExit
  | doSyscallEnter
  | runExit            (* after PrepareExit with SIGSYS *)
  | runSyscallAfterPtraceEventSeccomp.

(** The seccomp switch of [doSyscall]; [None] is also its explicit panic. *)
Definition doSyscall (ptraceSeccomp : Z → bool) (t : Task) (sysno : Z) (args : list Z) (ip : Z)
    : option (runState * list seccomp_effect) :=
  match seccomp t with
  | None => Some (doSyscallEnter, [])
  | Some _ =>
      '(r, effects) ← checkSeccompSyscall ptraceSeccomp t sysno args ip;
      if (r =? SECCOMP_RET_ERRNO) || (r =? SECCOMP_RET_TRAP) then Some (runSyscallExit, effects)
      else if r =? SECCOMP_RET_ALLOW then Some (doSyscallEnter, effects)
      else if r =? SECCOMP_RET_KILL_THREAD then Some (runExit, effects)
      else if r =? SECCOMP_RET_TRACE then Some (runSyscallAfterPtraceEventSeccomp, effects)
      else None
  end.

End Filters.
