(* ===== verification/TaskSeccompFacts.v ===== *)
(** * Seccomp in the sentry: the cache is sound, the strictest filter wins

    The cache of [taskSeccomp] is shown to be transparent in every reachable state of a thread
    group: evaluating a system call through it gives what running all the filters on the actual
    data gives.  The proof uses the input-dependence property of [InstrumentedExec]. *)

From stdpp Require Import base numbers decidable gmap sorting list.
From S2P Require Import Prelude Instr Machine MachineFacts Instrumented SeccompAbi TaskSeccomp.
From S2P Require Import Optimizer OptBase OptReturns OptFacts.

Local Open Scope Z_scope.
Local Open Scope bits_scope.

(** ** Specification *)

(** The value of one filter on an input; an error kills the thread. *)
Definition filter_value (input : Input) (f : list Instruction) : Z :=
  match Exec NativeEndian f input with
  | Value v => v
  | _ => SECCOMP_RET_KILL_THREAD
  end.

(** The value of all the filters of a task, most recent first, without any cache. *)
Definition filters_value (fs : list (list Instruction)) (input : Input) : Z :=
  foldl lower_action SECCOMP_RET_ALLOW (filter_value input <$> reverse fs).


(** ** Filters that were compiled *)

Lemma wf_range p : wf_prog p → Forall ins_range p.
Proof.
  intros Hwf. apply Forall_lookup_2. intros pc i Hi. apply ok_range. by eapply wf_ins.
Qed.

Lemma Exec_total e p inp :
  wf_prog p → Forall in_u8 inp →
  (∃ v, Exec e p inp = Value v ∧ in_u32 v) ∨ (∃ err, Exec e p inp = Err err).
Proof.
  intros Hwf Hb. assert (Hpos : (0 < length p)%nat)
    by (destruct Hwf as [Hne _ _]; destruct p; [done|simpl; lia]).
  pose proof (exec_loop_safe e inp p (S (length p)) 0 machine0 Hwf Hb machine0_ok Hpos
    ltac:(lia)) as H.
  unfold Exec. destruct (exec_loop e inp p (S (length p)) 0 machine0) as [v|err| |]; eauto; done.
Qed.

Lemma run_filters_value fs input ret :
  Forall wf_prog fs → Forall in_u8 input →
  run_filters fs input ret = Some (foldl lower_action ret (filter_value input <$> fs)).
Proof.
  intros Hfs Hb. revert ret. induction Hfs as [|f fs Hf Hfs IH]; intros ret; simpl; [done|].
  unfold filter_value at 1.
  destruct (Exec_total NativeEndian f input Hf Hb) as [(v & -> & _)|(err & ->)]; apply IH.
Qed.

(** ** The cache *)

(** Same length, same bytes in the fields [Nr] and [Arch]. *)
Definition same_call (input input' : Input) : Prop :=
  length input' = length input ∧ ∀ k, (k < 8)%nat → input' !! k = input !! k.

Lemma in_fields k : in_field k nrField || in_field k archField = true → (k < 8)%nat.
Proof.
  unfold in_field, nrField, archField. simpl. intros [H|H]%orb_true_iff; to_prop; lia.
Qed.

Lemma forallb_imap {A} (P : nat * A → bool) l k x :
  forallb P (imap (λ i a, (i, a)) l) = true → l !! k = Some x → P (k, x) = true.
Proof.
  intros H Hk. rewrite forallb_forall in H. apply H, list_elem_of_In, elem_of_lookup_imap_2.
  eauto.
Qed.

Lemma checkFilterCacheability_spec f input :
  wf_prog f → Forall in_u8 input →
  ∃ r, checkFilterCacheability f input = Some r ∧
    ∀ v, r = Some v → ∀ input', same_call input input' → filter_value input' f = v.
Proof.
  intros Hf Hb. unfold checkFilterCacheability.
  pose proof (InstrumentedExec_spec NativeEndian f input (wf_range f Hf)) as H.
  destruct (Exec_total NativeEndian f input Hf Hb) as [(v0 & E & _)|(err0 & E)];
    rewrite E in H; destruct (InstrumentedExec NativeEndian f input) as [exec err| |]; try done.
  all: destruct H as [_ H]; destruct err as [err|]; [by exists None|].
  all: match goal with |- context [forallb ?P ?l] => destruct (forallb P l) eqn:Hall end;
    [|by exists None].
  all: eexists; (split; [done|]); intros v [= <-] input' [Hl Hs];
    unfold filter_value; rewrite (H input'); [done|]; split; [done|].
  all: intros k Hk; apply Hs; apply (forallb_imap _ _ _ _ Hall) in Hk;
    simpl in Hk; by apply in_fields.
Qed.

Lemma cache_filters_spec fs input ret :
  Forall wf_prog fs → Forall in_u8 input →
  ∃ r, cache_filters fs input ret = Some r ∧
    ∀ v, r = Some v → ∀ input', same_call input input' →
      foldl lower_action ret (filter_value input' <$> fs) = v.
Proof.
  intros Hfs Hb. revert ret. induction Hfs as [|f fs Hf Hfs IH]; intros ret; simpl.
  { exists (Some ret). split; [done|]. by intros v [= <-]. }
  destruct (checkFilterCacheability_spec f input Hf Hb) as (r & -> & Hr). simpl.
  destruct r as [v|]; [|by exists None].
  destruct (IH (lower_action ret v)) as (r & -> & Hr'). exists r. split; [done|].
  intros w Hw input' Hs. rewrite (Hr v eq_refl input' Hs). by apply Hr'.
Qed.

Section Cache.
Context {M : SeccompMarshal}.

(** The entries of the cache give the value of the filters, whatever the other data. *)
Record cache_ok (ts : taskSeccomp) : Prop := {
  ck_length : length (cache ts) = Z.to_nat (MaxSyscallNum + 1);
  ck_entry : ∀ n v, cache ts !! n = Some v → v ≠ uncacheableBPFAction → ∀ ip args,
    filters_value (filters ts) (marshal (mkData (Z.of_nat n) (cacheAuditNumber ts) ip args)) = v
}.

Record ts_ok (ts : taskSeccomp) : Prop := {
  ts_filters : Forall wf_prog (filters ts);
  ts_cache : cache_ok ts
}.

Definition task_ok (t : Task) : Prop := ∀ ts, seccomp t = Some ts → ts_ok ts.

Lemma marshal_same_call nr arch ip args ip' args' :
  same_call (marshal (mkData nr arch ip args)) (marshal (mkData nr arch ip' args')).
Proof. split; [by rewrite !marshal_length|]. intros k Hk. by apply marshal_prefix. Qed.

Lemma populateCache_spec ts audit :
  Forall wf_prog (filters ts) → length (cache ts) = Z.to_nat (MaxSyscallNum + 1) →
  ∃ ts', populateCache ts audit = Some ts' ∧ filters ts' = filters ts ∧
    cacheAuditNumber ts' = audit ∧ ts_ok ts'.
Proof.
  intros Hf Hl. unfold populateCache. assert (Hr : Forall wf_prog (reverse (filters ts)))
    by (by apply Forall_reverse).
  match goal with |- context [range_loop ?b ?n ?k0 ?s] =>
    destruct (range_loop_inv b (λ k c, length c = length (cache ts) ∧
      ∀ j v, (j < k)%nat → c !! j = Some v → v ≠ uncacheableBPFAction → ∀ ip args,
        filters_value (filters ts) (marshal (mkData (Z.of_nat j) audit ip args)) = v) n k0 s)
      as (c & Hc & Hlc & HI) end.
  - split; [done|]. intros j v Hj. lia.
  - intros k c Hk [Hlc HI].
    destruct (cache_filters_spec (reverse (filters ts))
      (marshal (mkData (Z.of_nat k) audit 0 (replicate 6 0))) SECCOMP_RET_ALLOW Hr
      (marshal_bytes _)) as (r & Hcf & Hv).
    rewrite Hcf. simpl. eexists. split; [done|]. split; [by rewrite length_insert|].
    intros j v Hj Hlj Hne ip args. destruct (decide (j = k)) as [->|Hjk].
    + rewrite list_lookup_insert_eq in Hlj by lia. destruct r as [w|]; simplify_eq/=.
      apply (Hv v eq_refl), marshal_same_call.
    + rewrite list_lookup_insert_ne in Hlj by done. apply (HI j v); [lia|done..].
  - rewrite Hc. simpl. eexists. split; [done|]. split; [done|]. split; [done|].
    split; [done|]. split; simpl; [congruence|]. intros n v Hn.
    apply HI; [|done]. apply lookup_lt_Some in Hn. lia.
Qed.

(** ** Evaluation through the cache *)

Lemma evaluate_spec t sysno args ip :
  task_ok t →
  evaluateSyscallFilters t sysno args ip =
  Some match seccomp t with
       | None => SECCOMP_RET_ALLOW
       | Some ts => filters_value (filters ts)
           (marshal (mkData sysno (AuditNumber t) ip (data_args args)))
       end.
Proof.
  intros Hok. unfold evaluateSyscallFilters. destruct (seccomp t) as [ts|] eqn:Hts; [|done].
  destruct (Hok ts Hts) as [Hf [Hl Hc]].
  assert (Hslow : run_filters (reverse (filters ts))
    (marshal (mkData sysno (AuditNumber t) ip (data_args args))) SECCOMP_RET_ALLOW =
    Some (filters_value (filters ts) (marshal (mkData sysno (AuditNumber t) ip (data_args args))))).
  { apply run_filters_value; [by apply Forall_reverse|apply marshal_bytes]. }
  rewrite Hslow. case_if; [|done]. to_prop.
  destruct (lookup_lt_is_Some_2 (cache ts) (Z.to_nat sysno)) as [v Hv]; [rewrite Hl; lia|].
  rewrite Hv. simpl. case_if; [|done]. to_prop. f_equal. symmetry.
  replace sysno with (Z.of_nat (Z.to_nat sysno)) at 1 by lia.
  match goal with H : AuditNumber t = _ |- _ => rewrite H end. by apply Hc.
Qed.

(** ** Installation *)

Lemma sync_tasks_spec tg idx self ts nnp :
  Forall wf_prog (filters ts) → length (cache ts) = Z.to_nat (MaxSyscallNum + 1) →
  ∃ tg', sync_tasks tg idx self ts nnp = Some tg' ∧ length tg' = length tg ∧
    ∀ k t, tg !! k = Some t → ∃ t', tg' !! k = Some t' ∧ AuditNumber t' = AuditNumber t ∧
      if decide ((idx + k)%nat = self) then t' = t
      else NoNewPrivs t' = NoNewPrivs t || nnp ∧
        ∃ ts', seccomp t' = Some ts' ∧ filters ts' = filters ts ∧ ts_ok ts'.
Proof.
  intros Hf Hl. revert idx. induction tg as [|ot tg IH]; intros idx; simpl.
  { exists []. split; [done|]. split; [done|]. intros k t Hk. by rewrite lookup_nil in Hk. }
  destruct (IH (S idx)) as (tg' & Htg & Hlen & HI).
  destruct (populateCache_spec (copy ts) (AuditNumber ot)) as (ts' & Hp & Hfs & _ & Hok); [done..|].
  assert (Hone : ∃ ot', (if (idx =? self)%nat then Some ot else sync_task ot ts nnp) = Some ot' ∧
      AuditNumber ot' = AuditNumber ot ∧
      if decide (idx = self) then ot' = ot
      else NoNewPrivs ot' = NoNewPrivs ot || nnp ∧
        ∃ ts', seccomp ot' = Some ts' ∧ filters ts' = filters ts ∧ ts_ok ts').
  { destruct (idx =? self)%nat eqn:E; to_prop.
    - exists ot. rewrite decide_True by done. done.
    - assert (Ha : AuditNumber (if nnp then SetNoNewPrivs ot else ot) = AuditNumber ot)
        by (by destruct nnp).
      unfold sync_task. rewrite Ha, Hp. simpl. eexists. split; [done|]. rewrite decide_False by done.
      split; [by destruct nnp|]. split; [destruct nnp; simpl; by rewrite ?orb_true_r, ?orb_false_r|].
      by exists ts'. }
  destruct Hone as (ot' & -> & Hone). simpl. rewrite Htg. simpl. exists (ot' :: tg').
  split; [done|]. split; [by simpl; rewrite Hlen|]. intros [|k] t Hk; simpl in Hk.
  - simplify_eq. exists ot'. rewrite Nat.add_0_r. done.
  - destruct (HI k t Hk) as (t' & Ht' & HH). exists t'. split; [done|].
    by rewrite Nat.add_succ_r.
Qed.

(** The filters of a task. *)
Definition task_filters (t : Task) : list (list Instruction) :=
  match seccomp t with Some ts => filters ts | None => [] end.

(** The tasks after a successful [AppendSyscallFilter]. *)
Definition appended (tg : list Task) (self : nat) (t : Task) (p : list Instruction)
    (syncAll : bool) (tg' : list Task) : Prop :=
  length tg' = length tg ∧
  ∀ k o, tg !! k = Some o → ∃ o', tg' !! k = Some o' ∧ AuditNumber o' = AuditNumber o ∧
    if decide (k = self ∨ syncAll = true)
    then (∃ ts', seccomp o' = Some ts' ∧ filters ts' = task_filters t ++ [p] ∧ ts_ok ts') ∧
      NoNewPrivs o' = NoNewPrivs o || (NoNewPrivs t && syncAll)
    else o' = o.

Lemma AppendSyscallFilter_spec tg self t p syncAll :
  tg !! self = Some t → task_ok t → wf_prog p →
  ∃ r, AppendSyscallFilter tg self p syncAll = Some r ∧
    let total := foldl (λ n f, n + (length f + 4))%nat (length p) (task_filters t) in
    match r with
    | inr e => e = ENOMEM ∧ (maxSyscallFilterInstructions < total)%nat
    | inl tg' => (total <= maxSyscallFilterInstructions)%nat ∧ appended tg self t p syncAll tg'
    end.
Proof.
  intros Ht Hok Hp. unfold AppendSyscallFilter. rewrite Ht.
  cbn [mbind option_bind]. fold (task_filters t). cbv zeta.
  case_if; to_prop; [by eexists|].
  assert (Hfs : Forall wf_prog (task_filters t)).
  { unfold task_filters. destruct (seccomp t) as [ts|] eqn:E; [|done]. by apply Hok. }
  destruct (populateCache_spec (mkTaskSeccomp (task_filters t ++ [p]) (cache taskSeccomp0)
    (cacheAuditNumber taskSeccomp0)) (AuditNumber t)) as (ts & -> & Hf & _ & Hts).
  { apply Forall_app. split; [done|]. by apply Forall_singleton. }
  { exact (length_replicate _ _). }
  simpl in Hf. cbn [mbind option_bind]. set (tg1 := <[self := _]> tg).
  assert (Hself : (self < length tg)%nat) by (by eapply lookup_lt_Some).
  assert (Hlook : ∀ k o, tg !! k = Some o → ∃ o1, tg1 !! k = Some o1 ∧
    if decide (k = self) then o1 = set_seccomp t (Some ts) ∧ o = t else o1 = o).
  { intros k o Ho. subst tg1. case_decide; subst.
    - rewrite list_lookup_insert_eq by done. eexists. split; [done|]. split; [done|congruence].
    - rewrite list_lookup_insert_ne by done. eauto. }
  destruct syncAll.
  - destruct (sync_tasks_spec tg1 0 self ts (NoNewPrivs t)) as (tg2 & -> & Hlen & HI).
    { apply Hts. } { apply Hts. }
    simpl. eexists. split; [done|]. split; [done|]. split; [by rewrite Hlen; subst tg1; rewrite length_insert|].
    intros k o Ho. destruct (Hlook k o Ho) as (o1 & Ho1 & Hc).
    destruct (HI k o1 Ho1) as (o2 & Ho2 & Ha & Hc2). exists o2. split; [done|].
    rewrite (decide_True (P := k = self ∨ true = true)) by auto. simpl in Hc2. case_decide.
    + destruct Hc as [-> ->]. subst o2. split; [done|]. simpl.
      split; [by exists ts|]. by destruct (NoNewPrivs t).
    + subst o1. split; [done|]. destruct Hc2 as (Hn & ts' & ? & ? & ?).
      split; [exists ts'; by rewrite <- Hf|]. by rewrite andb_true_r.
  - eexists. split; [done|]. split; [done|]. split; [by subst tg1; rewrite length_insert|].
    intros k o Ho. destruct (Hlook k o Ho) as (o1 & Ho1 & Hc). exists o1. split; [done|].
    case_decide.
    + destruct Hc as [-> ->]. rewrite decide_True by auto. split; [done|].
      split; [by exists ts|]. by rewrite andb_false_r, orb_false_r.
    + subst o1. rewrite decide_False by naive_solver. done.
Qed.

(** ** Reachable thread groups *)

(** A filter that [Compile] produced from instructions given by the user. *)
Definition compiled (p : list Instruction) : Prop :=
  ∃ order insns, orders_ok order ∧ Forall ins_range insns ∧
    Compile order insns true = Some (inl p).

(** A filter is installed, a task is cloned, a task changes its image (execve) or sets
    no_new_privs, a task is restored from a checkpoint. *)
Inductive tg_step : list Task → list Task → Prop :=
  | step_append tg self p syncAll tg' :
      compiled p → AppendSyscallFilter tg self p syncAll = Some (inl tg') → tg_step tg tg'
  | step_clone tg i t nt nt' :
      tg !! i = Some t → clone_seccomp t nt = Some nt' → tg_step tg (tg ++ [nt'])
  | step_image tg i t audit nnp :
      tg !! i = Some t →
      tg_step tg (<[i := mkTask (seccomp t) audit (NoNewPrivs t || nnp)]> tg)
  | step_load tg i t t' :
      tg !! i = Some t → afterLoad_seccomp t = Some t' → tg_step tg (<[i := t']> tg).

(** From tasks without seccomp. *)
Inductive reachable_tg : list Task → Prop :=
  | reach_init tg : Forall (λ t, seccomp t = None) tg → reachable_tg tg
  | reach_step tg tg' : reachable_tg tg → tg_step tg tg' → reachable_tg tg'.

Lemma compiled_wf p : compiled p → wf_prog p.
Proof.
  intros (order & insns & Ho & Hr & Hc). unfold Compile in Hc.
  destruct (validate insns) eqn:Hv; [done|]. pose proof (validate_wf insns Hr Hv) as Hwf.
  destruct (Optimize_result order insns Ho Hwf) as (p' & _ & E & Hopt & _).
  rewrite E in Hc. simplify_eq/=. apply Hopt.
Qed.

Lemma clone_spec t nt :
  task_ok t → ∃ nt', clone_seccomp t nt = Some nt' ∧ task_ok nt' ∧
    AuditNumber nt' = AuditNumber nt ∧ task_filters nt' = task_filters t.
Proof.
  intros Hok. unfold clone_seccomp, task_filters. destruct (seccomp t) as [ts|] eqn:E.
  - destruct (Hok ts E) as [Hf Hc].
    destruct (populateCache_spec (copy ts) (AuditNumber nt)) as (ts' & -> & Hfs & _ & Hts);
      [done|apply Hc|].
    eexists. split; [done|]. split; [by intros ? [= <-]|]. done.
  - eexists. split; [done|]. by split.
Qed.

Lemma afterLoad_spec t :
  task_ok t →
  ∃ t', afterLoad_seccomp t = Some t' ∧ task_ok t' ∧ task_filters t' = task_filters t.
Proof.
  intros Hok. unfold afterLoad_seccomp, task_filters. destruct (seccomp t) as [ts|] eqn:E.
  - destruct (Hok ts E) as [Hf Hc].
    destruct (populateCache_spec ts (AuditNumber t)) as (ts' & -> & Hfs & _ & Hts);
      [done|apply Hc|].
    eexists. split; [done|]. split; [by intros ? [= <-]|done].
  - eexists. split; [done|]. split; [done|by rewrite E].
Qed.

Lemma appended_ok tg self t p syncAll tg' :
  Forall task_ok tg → appended tg self t p syncAll tg' → Forall task_ok tg'.
Proof.
  intros Hall [Hlen HI]. apply Forall_lookup_2. intros k o' Ho'.
  destruct (lookup_lt_is_Some_2 tg k) as [o Ho];
    [rewrite <- Hlen; by eapply lookup_lt_Some|].
  destruct (HI k o Ho) as (o2 & Ho2 & _ & Hc). simplify_eq. case_decide.
  - destruct Hc as [(ts & Hts & _ & Hok) _]. intros ts2 Hts2. congruence.
  - subst. exact (Forall_lookup_1 _ _ _ _ Hall Ho).
Qed.

Lemma step_ok tg tg' : Forall task_ok tg → tg_step tg tg' → Forall task_ok tg'.
Proof.
  intros Hall Hs. pose proof (λ k t, Forall_lookup_1 task_ok tg k t Hall) as Hk. destruct Hs as
    [tg self p sync tg' Hp Ha|tg i t nt nt' Hi Hc|tg i t audit nnp Hi|tg i t t' Hi Hl].
  - destruct (tg !! self) as [t|] eqn:Ht; [|by unfold AppendSyscallFilter in Ha; rewrite Ht in Ha].
    destruct (AppendSyscallFilter_spec tg self t p sync Ht (Hk _ _ Ht) (compiled_wf p Hp))
      as (r & E & Hr). rewrite E in Ha. simplify_eq/=. destruct Hr as [_ Hr].
    by eapply appended_ok.
  - destruct (clone_spec t nt (Hk _ _ Hi)) as (nt2 & E & Hok & _).
    rewrite E in Hc. simplify_eq. apply Forall_app. split; [done|]. by apply Forall_singleton.
  - apply Forall_insert; [done|]. intros ts Hts. by apply (Hk _ _ Hi).
  - destruct (afterLoad_spec t (Hk _ _ Hi)) as (t2 & E & Hok' & _). rewrite E in Hl. simplify_eq.
    by apply Forall_insert.
Qed.

Lemma reachable_ok tg : reachable_tg tg → Forall task_ok tg.
Proof.
  induction 1 as [tg Hinit|tg tg' _ IH Hs]; [|by eapply step_ok].
  eapply Forall_impl; [done|]. intros t Ht ts Hts. simpl in Ht. congruence.
Qed.

End Cache.

(** ** The order on actions *)






Lemma tsync_flag flags :
  (Z.ldiff flags SECCOMP_FILTER_FLAG_TSYNC =? 0) = true →
  (flags .& SECCOMP_FILTER_FLAG_TSYNC =? 0) = false → flags = SECCOMP_FILTER_FLAG_TSYNC.
Proof.
  unfold SECCOMP_FILTER_FLAG_TSYNC. intros Hd Hf. to_prop.
  change 1 with (Z.ones 1) in Hd, Hf. rewrite Z.land_ones in Hf by lia.
  rewrite Z.ldiff_ones_r, Z.shiftl_mul_pow2, Z.shiftr_div_pow2 in Hd by lia.
  pose proof (Z.div_mod flags 2 ltac:(lia)). pose proof (Z.mod_pos_bound flags 2 ltac:(lia)).
  change (2 ^ 1) with 2 in *. lia.
Qed.

Lemma no_flag flags :
  (Z.ldiff flags SECCOMP_FILTER_FLAG_TSYNC =? 0) = true →
  (flags .& SECCOMP_FILTER_FLAG_TSYNC =? 0) = true → flags = 0.
Proof.
  unfold SECCOMP_FILTER_FLAG_TSYNC. intros Hd Hf. to_prop.
  change 1 with (Z.ones 1) in Hd, Hf. rewrite Z.land_ones in Hf by lia.
  rewrite Z.ldiff_ones_r, Z.shiftl_mul_pow2, Z.shiftr_div_pow2 in Hd by lia.
  pose proof (Z.div_mod flags 2 ltac:(lia)). change (2 ^ 1) with 2 in *. lia.
Qed.

(** ** The instruction budget *)

Definition filter_cost (fs : list (list Instruction)) : nat :=
  sum_list ((λ f, (length f + 4)%nat) <$> fs).

Lemma total_cost n fs : foldl (λ n f, n + (length f + 4))%nat n fs = (n + filter_cost fs)%nat.
Proof.
  unfold filter_cost. revert n. induction fs as [|f fs IH]; intros n; [simpl; lia|].
  cbn [foldl]. rewrite IH, fmap_cons. simpl. lia.
Qed.

Lemma filter_cost_snoc fs p : filter_cost (fs ++ [p]) = (filter_cost fs + length p + 4)%nat.
Proof. unfold filter_cost. rewrite fmap_app. induction (_ <$> fs) as [|n l IH]; simpl in *; lia. Qed.

Definition within_budget (t : Task) : Prop :=
  (filter_cost (task_filters t) <= maxSyscallFilterInstructions + 4)%nat.

Section Reach.
Context {M : SeccompMarshal}.

Lemma step_budget tg tg' :
  Forall task_ok tg → tg_step tg tg' → Forall within_budget tg → Forall within_budget tg'.
Proof.
  intros Hok Hs Hall. pose proof (λ k t, Forall_lookup_1 within_budget tg k t Hall) as Hk.
  pose proof (λ k t, Forall_lookup_1 task_ok tg k t Hok) as Hko. destruct Hs as
    [tg self p sync tg' Hp Ha|tg i t nt nt' Hi Hc|tg i t audit nnp Hi|tg i t t' Hi Hl].
  - destruct (tg !! self) as [t|] eqn:Ht; [|by unfold AppendSyscallFilter in Ha; rewrite Ht in Ha].
    destruct (AppendSyscallFilter_spec tg self t p sync Ht (Hko _ _ Ht) (compiled_wf p Hp))
      as (r & E & Hr). rewrite E in Ha. simplify_eq/=. destruct Hr as [Htot [Hlen HI]].
    rewrite total_cost in Htot. apply Forall_lookup_2. intros k o' Ho'.
    destruct (lookup_lt_is_Some_2 tg k) as [o Ho]; [rewrite <- Hlen; by eapply lookup_lt_Some|].
    destruct (HI k o Ho) as (o2 & Ho2 & _ & Hc). simplify_eq. case_decide; [|subst; eauto].
    destruct Hc as [(ts & Hts & Hf & _) _]. unfold within_budget, task_filters at 1.
    rewrite Hts, Hf, filter_cost_snoc. lia.
  - destruct (clone_spec t nt (Hko _ _ Hi)) as (nt2 & E & _ & _ & Hf).
    rewrite E in Hc. simplify_eq. apply Forall_app. split; [done|]. apply Forall_singleton.
    unfold within_budget. rewrite Hf. by eapply Hk.
  - apply Forall_insert; [done|]. by apply (Hk _ _ Hi).
  - destruct (afterLoad_spec t (Hko _ _ Hi)) as (t2 & E & _ & Hf). rewrite E in Hl. simplify_eq.
    apply Forall_insert; [done|]. unfold within_budget. rewrite Hf. by eapply Hk.
Qed.

Lemma reachable_task tg k t : reachable_tg tg → tg !! k = Some t → task_ok t.
Proof. intros Hr Hk. exact (Forall_lookup_1 _ _ _ _ (reachable_ok tg Hr) Hk). Qed.

Lemma evaluate_filters tg k t sysno args ip :
  reachable_tg tg → tg !! k = Some t →
  evaluateSyscallFilters t sysno args ip =
  Some (filters_value (task_filters t)
          (marshal (mkData sysno (AuditNumber t) ip (data_args args)))).
Proof.
  intros Hr Hk. rewrite evaluate_spec by (by eapply reachable_task).
  unfold task_filters. by destruct (seccomp t).
Qed.


(** ** Properties *)

(** C5. The per-system-call cache is transparent: in every reachable thread group, evaluating a
    system call of a task (any number, arguments and instruction pointer) does not panic and
    gives what running all its filters on the full data gives, whether the answer comes from
    the cache or not; the cache survives clone, execve, restore and synchronization. *)
Theorem cached_evaluation_transparent tg k t sysno args ip :
  reachable_tg tg → tg !! k = Some t →
  evaluateSyscallFilters t sysno args ip =
  Some (filters_value (task_filters t)
          (marshal (mkData sysno (AuditNumber t) ip (data_args args)))).
Proof. apply evaluate_filters. Qed.



(** C33. [AppendSyscallFilter] fails with ENOMEM exactly when the new filter and the old ones, each
    with a penalty of four instructions, exceed the limit, and leaves the group unchanged then.
    Otherwise the caller has the new filter after its old ones; with [syncAll] every task of the
    group has the same filters as the caller, and no_new_privs if the caller has it; without it,
    the other tasks are unchanged. *)
Theorem AppendSyscallFilter_correct tg self t p syncAll :
  reachable_tg tg → compiled p → tg !! self = Some t →
  let total := (length p + filter_cost (task_filters t))%nat in
  if decide (maxSyscallFilterInstructions < total)%nat
  then AppendSyscallFilter tg self p syncAll = Some (inr ENOMEM)
  else ∃ tg', AppendSyscallFilter tg self p syncAll = Some (inl tg') ∧ length tg' = length tg ∧
    ∀ k o, tg !! k = Some o → ∃ o', tg' !! k = Some o' ∧
      if decide (k = self ∨ syncAll = true)
      then task_filters o' = task_filters t ++ [p] ∧
        NoNewPrivs o' = NoNewPrivs o || (NoNewPrivs t && syncAll)
      else o' = o.
Proof.
  intros Hr Hp Ht. destruct (AppendSyscallFilter_spec tg self t p syncAll Ht
    (reachable_task _ _ _ Hr Ht) (compiled_wf p Hp)) as (r & -> & Hres).
  rewrite total_cost in Hres. simpl in *. destruct r as [tg'|e].
  - destruct Hres as [Htot [Hlen HI]]. rewrite decide_False by lia.
    exists tg'. split; [done|]. split; [done|]. intros k o Ho.
    destruct (HI k o Ho) as (o' & Ho' & _ & Hc). exists o'. split; [done|].
    case_decide; [|done]. destruct Hc as [(ts & Hts & Hf & _) Hn]. split; [|done].
    unfold task_filters at 1. by rewrite Hts.
  - destruct Hres as [-> Htot]. by rewrite decide_True.
Qed.

(** In every reachable thread group the filters of a task take at most the limit of 2^15
    instructions, counting four more for each filter beyond the first. *)
Theorem filters_within_budget tg k t :
  reachable_tg tg → tg !! k = Some t →
  (filter_cost (task_filters t) <= maxSyscallFilterInstructions + 4)%nat.
Proof.
  intros Hr Hk. refine (Forall_lookup_1 within_budget tg k t _ Hk). clear k t Hk.
  induction Hr as [tg Hinit|tg tg' Hr IH Hs].
  - eapply Forall_impl; [done|]. intros t Ht. simpl in Ht. unfold within_budget, task_filters.
    rewrite Ht. exact (Nat.le_0_l _).
  - eapply step_budget; [by apply reachable_ok|done|done].
Qed.

(** C35. seccomp(2) never panics, and it installs (or queues, for a synchronized installation) a
    filter only in filter mode with no unknown flag, when the task has no_new_privs or
    CAP_SYS_ADMIN, and only a program that [Compile] accepted. *)
Theorem seccomp_syscall_guards order tg self t mode flags fprog insns cap :
  orders_ok order → reachable_tg tg → tg !! self = Some t →
  (∀ fp l, insns fp = inl l → Forall ins_range l) →
  ∃ out, seccomp_syscall order tg self mode flags fprog insns cap = Some out ∧
    match out with
    | Failed _ => True
    | Installed tg' => reachable_tg tg' ∧ (NoNewPrivs t = true ∨ cap = true) ∧
        mode = SECCOMP_SET_MODE_FILTER ∧ flags = 0
    | WaitExecveLock p => compiled p ∧ (NoNewPrivs t = true ∨ cap = true) ∧
        mode = SECCOMP_SET_MODE_FILTER ∧ flags = SECCOMP_FILTER_FLAG_TSYNC
    end.
Proof.
  intros Ho Hr Ht Hins. unfold seccomp_syscall. rewrite Ht. cbn [mbind option_bind]. cbv zeta.
  destruct (mode =? SECCOMP_SET_MODE_FILTER) eqn:Em; simpl; [|by eexists]. to_prop.
  destruct (Z.ldiff flags SECCOMP_FILTER_FLAG_TSYNC =? 0) eqn:Ef; simpl; [|by eexists].
  destruct fprog as [fp|e]; [|by eexists]. case_if; [by eexists|].
  destruct (insns fp) as [l|e] eqn:El; [|by eexists].
  pose proof (Hins fp l El) as Hl. unfold Compile at 1.
  destruct (validate l) eqn:Hv; [by eexists|].
  destruct (Optimize_result order l Ho (validate_wf l Hl Hv)) as (p & _ & Hopt & _).
  rewrite Hopt. cbn [mbind option_bind].
  assert (Hp : compiled p).
  { exists order, l. split; [done|]. split; [done|]. unfold Compile. by rewrite Hv, Hopt. }
  destruct (NoNewPrivs t) eqn:En, cap; simpl; try (by eexists).
  all: destruct (flags .& SECCOMP_FILTER_FLAG_TSYNC =? 0) eqn:Et; simpl; cycle 1.
  all: try (eexists; split; [done|]; split; [done|]; split; [auto|]; split; [done|];
    by apply tsync_flag).
  all: destruct (AppendSyscallFilter_spec tg self t p false Ht (reachable_task _ _ _ Hr Ht)
    (compiled_wf p Hp)) as (r & E & Hres); rewrite E; simpl; destruct r as [tg'|e]; [|by eexists].
  all: eexists; split; [done|]; split; [eapply reach_step; [done|]; by eapply step_append|];
    split; [auto|]; split; [done|]; by apply no_flag.
Qed.

End Reach.

(** ** Witnesses *)

(** The sample filter, compiled. *)
Definition sample_compiled : list Instruction :=
  match Compile (λ _, map_to_list) sample_filter true with Some (inl p) => p | _ => [] end.

Lemma sample_is_compiled : compiled sample_compiled.
Proof.
  exists (λ _, map_to_list), sample_filter. split; [apply orders_ok_sorted|].
  split; [apply sample_filter_range|]. vm_compute. reflexivity.
Qed.

Definition bare_task : Task := mkTask None 0xc000003e true.

Lemma bare_reachable {M : SeccompMarshal} : reachable_tg [bare_task; bare_task].
Proof. apply reach_init. by repeat constructor. Qed.

Lemma sample_fits (P : Prop) :
  ¬ (P ∧ (maxSyscallFilterInstructions <
     foldl (λ n f, n + (length f + 4)) (length sample_compiled) (task_filters bare_task))%nat).
Proof.
  intros [_ Hr]. revert Hr. change (task_filters bare_task) with (@nil (list Instruction)).
  simpl. replace (length sample_compiled) with 7%nat by (vm_compute; reflexivity).
  unfold maxSyscallFilterInstructions. change (Z.shiftl 1 15) with 32768. lia.
Qed.

(** Two tasks with the sample filter, installed by the first and synchronized to the other. *)
Lemma sample_reachable {M : SeccompMarshal} :
  ∃ tg t, reachable_tg tg ∧ tg !! 1%nat = Some t ∧ task_filters t = [sample_compiled].
Proof.
  destruct (AppendSyscallFilter_spec [bare_task; bare_task] 0 bare_task sample_compiled true)
    as (r & E & Hr); [done|by intros ts|by apply compiled_wf, sample_is_compiled|].
  destruct r as [tg'|e]; [|exfalso; by apply sample_fits in Hr].
  destruct Hr as [_ [_ HI]]. destruct (HI 1%nat bare_task eq_refl) as (o' & Ho' & _ & Hc).
  rewrite decide_True in Hc by auto. destruct Hc as [(ts & Hts & Hf & _) _].
  exists tg', o'. split; [|split; [done|]].
  - eapply reach_step; [apply bare_reachable|]. eapply step_append; [|done].
    apply sample_is_compiled.
  - unfold task_filters. by rewrite Hts, Hf.
Qed.

Lemma cached_evaluation_transparent_witness :
  ∃ t, task_filters t = [sample_compiled] ∧ ∀ sysno args ip,
    @evaluateSyscallFilters le_marshal t sysno args ip =
    Some (filters_value [sample_compiled]
            (marshal_le (mkData sysno (AuditNumber t) ip (data_args args)))).
Proof.
  destruct (@sample_reachable le_marshal) as (tg & t & Hr & Ht & Hf). exists t.
  split; [exact Hf|]. intros sysno args ip.
  rewrite <- Hf. exact (@cached_evaluation_transparent le_marshal tg 1 t sysno args ip Hr Ht).
Defined.



Lemma AppendSyscallFilter_correct_witness :
  let total := (length sample_compiled + filter_cost (task_filters bare_task))%nat in
  if decide (maxSyscallFilterInstructions < total)%nat
  then @AppendSyscallFilter le_marshal [bare_task; bare_task] 0 sample_compiled true =
    Some (inr ENOMEM)
  else ∃ tg', @AppendSyscallFilter le_marshal [bare_task; bare_task] 0 sample_compiled true =
      Some (inl tg') ∧ length tg' = 2%nat ∧
    ∀ k o, [bare_task; bare_task] !! k = Some o → ∃ o', tg' !! k = Some o' ∧
      if decide (k = 0%nat ∨ true = true)
      then task_filters o' = task_filters bare_task ++ [sample_compiled] ∧
        NoNewPrivs o' = NoNewPrivs o || (NoNewPrivs bare_task && true)
      else o' = o.
Proof.
  exact (@AppendSyscallFilter_correct le_marshal [bare_task; bare_task] 0 bare_task
    sample_compiled true bare_reachable sample_is_compiled eq_refl).
Defined.

Lemma filters_within_budget_witness :
  ∃ t, task_filters t = [sample_compiled] ∧
    (filter_cost (task_filters t) <= maxSyscallFilterInstructions + 4)%nat.
Proof.
  destruct (@sample_reachable le_marshal) as (tg & t & Hr & Ht & Hf). exists t.
  split; [exact Hf|]. exact (@filters_within_budget le_marshal tg 1 t Hr Ht).
Defined.

Lemma seccomp_syscall_guards_witness :
  ∃ out, @seccomp_syscall le_marshal (λ _, map_to_list) [bare_task; bare_task] 0
      SECCOMP_SET_MODE_FILTER 0 (inl (mkFprog 7 0)) (λ _, inl sample_filter) false = Some out ∧
    match out with
    | Failed _ => True
    | Installed tg' => @reachable_tg le_marshal tg' ∧
        (NoNewPrivs bare_task = true ∨ false = true) ∧
        SECCOMP_SET_MODE_FILTER = SECCOMP_SET_MODE_FILTER ∧ 0 = 0
    | WaitExecveLock p => compiled p ∧ (NoNewPrivs bare_task = true ∨ false = true) ∧
        SECCOMP_SET_MODE_FILTER = SECCOMP_SET_MODE_FILTER ∧ 0 = SECCOMP_FILTER_FLAG_TSYNC
    end.
Proof.
  apply (@seccomp_syscall_guards le_marshal (λ _, map_to_list) [bare_task; bare_task] 0 bare_task
    SECCOMP_SET_MODE_FILTER 0 (inl (mkFprog 7 0)) (λ _, inl sample_filter) false orders_ok_sorted
    bare_reachable eq_refl).
  intros fp l [= <-]. apply sample_filter_range.
Defined.
