(* ===== verification/SeccompRules.v ===== *)
(** * Syscall rules and their rendering (src/pkg/seccomp/seccomp_rules.go, seccomp.go)

    Value matchers, syscall rules, and the BPF code each of them adds to a program.  Code is
    added to a [ProgramBuilder] by actions of type [prog]; [None] is a Go panic (a label placed
    twice, a fragment whose outcomes are not the asserted ones, an empty compound rule, a nil
    interface).

    The label set that a matcher or a rule gets is always freshly made by [Push] and is dropped
    after the call, so rendering a rule does not return the counter of its label set. *)

From stdpp Require Import base numbers decidable strings pretty gmap list.
From S2P Require Import Prelude Instr Builder.

Local Open Scope string_scope.
Local Open Scope Z_scope.
Local Open Scope bits_scope.
Local Set Warnings "-register-all".

(** ** Printing numbers

    [%#x] of an unsigned integer of at most 64 bits: 16 digits always suffice. *)

Definition hex_digit (d : Z) : Ascii.ascii :=
  Ascii.ascii_of_nat (Z.to_nat (if d <? 10 then 48 + d else 87 + d)).

(** The digits of [z], in front of [acc]; stops at the leading digit. *)
Fixpoint hex_digits (fuel : nat) (z : Z) (acc : string) : string :=
  match fuel with
  | O => acc
  | S fuel' =>
      let acc := String (hex_digit (z mod 16)) acc in
      if z / 16 =? 0 then acc else hex_digits fuel' (z / 16) acc
  end.

Definition hex (z : Z) : string := "0x" +:+ hex_digits 16 z "".

(** ** Programs *)

Abbreviation prog := (ProgramBuilder → option ProgramBuilder) (only parsing).

Declare Scope prog_scope.
Delimit Scope prog_scope with prog.

Definition prog_seq (f g : prog) : prog := λ b, b' ← f b; g b'.

Notation "f ;> g" := (prog_seq f g) (at level 65, right associativity) : prog_scope.

Definition skip : prog := Some.

Definition panic : prog := λ _, None.

(** Start recording, and go on with the function that gives the fragment. *)
Definition recording (k : (ProgramBuilder → ProgramFragment) → prog) : prog :=
  λ b, k (Record_ b) b.

Local Open Scope prog_scope.

Definition skipOneInst : Z := 1.

Definition defaultLabel : string := "default_action".

Definition vsyscallPageIPMask : Z := 2 ^ 31.

(** *** The methods of [syscallProgram] *)
Module SP.

Definition Stmt (code k : Z) : prog := λ b, Some (AddStmt code k b).

Definition JumpTo (l : string) : prog := AddDirectJumpLabel l.

Definition If (code k : Z) (jt : string) : prog :=
  (λ b, Some (AddJump code k 0 skipOneInst b)) ;> JumpTo jt.

Definition IfNot (code k : Z) (jf : string) : prog :=
  (λ b, Some (AddJump code k skipOneInst 0 b)) ;> JumpTo jf.

Definition Ret (action : Z) : prog := Stmt (Op.Ret .| Op.K) action.

Definition Label (l : string) : prog := λ b,
  match AddLabel l b with
  | (b', None) => Some b'
  | (_, Some _) => None
  end.

End SP.

(** The assertions on a fragment. *)
Definition MustHaveJumpedToOrReturned (getFragment : ProgramBuilder → ProgramFragment)
    (possibleLabels : list string) (possibleReturnValues : gset Z) : prog := λ b,
  outcomes ← Outcomes (getFragment b) b;
  if MayFallThrough outcomes then None
  else if bool_decide (possibleReturnValues = ∅) && MayReturn outcomes then None
  else if MayReturnRegisterA outcomes then None
  else if MayJumpToKnownOffsetBeyondFragment outcomes then None
  else if negb (bool_decide (set_Forall (λ l, l ∈ possibleLabels)
                               (MayJumpToUnresolvedLabels outcomes))) then None
  else if negb (bool_decide (MayReturnImmediate outcomes ⊆ possibleReturnValues)) then None
  else Some b.

Definition MustHaveJumpedTo (getFragment : ProgramBuilder → ProgramFragment)
    (labels : list string) : prog :=
  MustHaveJumpedToOrReturned getFragment labels ∅.

(** *** Label sets *)

Record labelSet : Type := mkLabelSet {
  prefix : string;
  labelCounter : nat;
  ruleMatched : string;
  ruleMismatched : string
}.

Definition NewLabel (l : labelSet) : string * labelSet :=
  (prefix l +:+ "#" +:+ pretty (labelCounter l),
   mkLabelSet (prefix l) (S (labelCounter l)) (ruleMatched l) (ruleMismatched l)).

Definition Matched (l : labelSet) : string := ruleMatched l.

Definition Mismatched (l : labelSet) : string := ruleMismatched l.

Definition Push (l : labelSet) (labelSuffix newRuleMatch newRuleMismatch : string) : labelSet :=
  let newPrefix := if bool_decide (prefix l = "") then labelSuffix
                   else prefix l +:+ "_" +:+ labelSuffix in
  mkLabelSet newPrefix 0 newRuleMatch newRuleMismatch.

(** *** Matched values *)

Record matchedValue : Type := mkMatchedValue { dataOffsetHigh : Z; dataOffsetLow : Z }.

Definition LoadHigh32Bits (m : matchedValue) : prog :=
  SP.Stmt (Op.Ld .| Op.Abs .| Op.W) (dataOffsetHigh m).

Definition LoadLow32Bits (m : matchedValue) : prog :=
  SP.Stmt (Op.Ld .| Op.Abs .| Op.W) (dataOffsetLow m).

Definition seccompDataOffsetNR : Z := 0.
Definition seccompDataOffsetArch : Z := 4.
Definition seccompDataOffsetIPLow : Z := 8.
Definition seccompDataOffsetIPHigh : Z := 12.
Definition seccompDataOffsetArgs : Z := 16.

Definition seccompDataOffsetArgLow (i : nat) : Z :=
  wrap32 (seccompDataOffsetArgs + Z.of_nat i * 8).

Definition seccompDataOffsetArgHigh (i : nat) : Z := wrap32 (seccompDataOffsetArgLow i + 4).

(** ** Matchers of a 32-bit half *)

(** The implementations of [halfValueMatcher], with the stand-in of the rule optimizer. *)
Inductive halfValueMatcher : Type :=
  | halfAnyValue
  | halfEqualTo (heq : Z)
  | halfNotSet (hns : Z)
  | halfMaskedEqual (mask value : Z)
  | invalidHalfValueMatcher.

#[export] Instance halfValueMatcher_eq_dec : EqDecision halfValueMatcher.
Proof. solve_decision. Defined.

Definition half_Repr (h : halfValueMatcher) : string :=
  match h with
  | halfAnyValue => "halfAnyValue"
  | halfEqualTo v => "halfEq(" +:+ hex v +:+ ")"
  | halfNotSet v => "halfNotSet(" +:+ hex v +:+ ")"
  | halfMaskedEqual mask value => "halfMaskedEqual(" +:+ hex mask +:+ ", " +:+ hex value +:+ ")"
  | invalidHalfValueMatcher => "invalidHalfValueMatcher"
  end.

Definition halfAnyValue_HalfRender (ls : labelSet) : prog := SP.JumpTo (Matched ls).

Definition halfEqualTo_HalfRender (heq : Z) (ls : labelSet) : prog :=
  SP.If (Op.Jmp .| Op.Jeq .| Op.K) heq (Matched ls) ;> SP.JumpTo (Mismatched ls).

Definition halfNotSet_HalfRender (hns : Z) (ls : labelSet) : prog :=
  SP.If (Op.Jmp .| Op.Jset .| Op.K) hns (Mismatched ls) ;> SP.JumpTo (Matched ls).

Definition halfMaskedEqual_HalfRender (mask value : Z) (ls : labelSet) : prog :=
  SP.Stmt (Op.Alu .| Op.And .| Op.K) mask ;>
  SP.IfNot (Op.Jmp .| Op.Jeq .| Op.K) value (Mismatched ls) ;>
  SP.JumpTo (Matched ls).

(** [halfValueMatcher.HalfRender] *)
Definition HalfRender (h : halfValueMatcher) (ls : labelSet) : prog :=
  match h with
  | halfAnyValue => halfAnyValue_HalfRender ls
  | halfEqualTo v => halfEqualTo_HalfRender v ls
  | halfNotSet v => halfNotSet_HalfRender v ls
  | halfMaskedEqual mask value => halfMaskedEqual_HalfRender mask value ls
  | invalidHalfValueMatcher => panic
  end.

(** The type assertion [hvm.(halfAnyValue)]. *)
Definition is_halfAnyValue (h : halfValueMatcher) : bool :=
  match h with halfAnyValue => true | _ => false end.

(** ** Matchers of a 64-bit value *)

Record splitMatcher : Type := mkSplit {
  repr : string;
  highMatcher : halfValueMatcher;
  lowMatcher : halfValueMatcher
}.

#[export] Instance splitMatcher_eq_dec : EqDecision splitMatcher.
Proof. solve_decision. Defined.

Definition split_Repr (sm : splitMatcher) : string :=
  if bool_decide (repr sm = "") then
    let highIsAnyValue := is_halfAnyValue (highMatcher sm) in
    let lowIsAnyValue := is_halfAnyValue (lowMatcher sm) in
    if highIsAnyValue && lowIsAnyValue then "split(*)"
    else if highIsAnyValue then "low=" +:+ half_Repr (lowMatcher sm)
    else if lowIsAnyValue then "high=" +:+ half_Repr (highMatcher sm)
    else "(high=" +:+ half_Repr (highMatcher sm) +:+ " && low=" +:+ half_Repr (lowMatcher sm) +:+ ")"
  else repr sm.

Definition split_Render (sm : splitMatcher) (ls : labelSet) (value : matchedValue) : prog :=
  let highIsAny := is_halfAnyValue (highMatcher sm) in
  let lowIsAny := is_halfAnyValue (lowMatcher sm) in
  if highIsAny && lowIsAny then SP.JumpTo (Matched ls)
  else if highIsAny then LoadLow32Bits value ;> HalfRender (lowMatcher sm) ls
  else if lowIsAny then LoadHigh32Bits value ;> HalfRender (highMatcher sm) ls
  else
    let '(lowMatched, ls) := NewLabel ls in
    let lowLabels := Push ls "low" lowMatched (Mismatched ls) in
    recording (λ lowFrag,
      LoadLow32Bits value ;>
      HalfRender (lowMatcher sm) lowLabels ;>
      MustHaveJumpedTo lowFrag [Matched lowLabels; Mismatched ls]) ;>
    SP.Label (Matched lowLabels) ;>
    recording (λ highFrag,
      LoadHigh32Bits value ;>
      HalfRender (highMatcher sm) (Push ls "high" (Matched ls) (Mismatched ls)) ;>
      MustHaveJumpedTo highFrag [Matched ls; Mismatched ls]).

Definition high32BitsMatch (hvm : halfValueMatcher) : splitMatcher := mkSplit "" hvm halfAnyValue.

Definition low32BitsMatch (hvm : halfValueMatcher) : splitMatcher := mkSplit "" halfAnyValue hvm.

Definition high32Bits (val : Z) : Z := wrap32 (Z.shiftr val 32).

Definition low32Bits (val : Z) : Z := wrap32 val.

(** The implementations of [ValueMatcher], with the stand-in of the rule optimizer. *)
Inductive ValueMatcher : Type :=
  | AnyValue
  | EqualTo (v : Z)
  | NotEqual (v : Z)
  | GreaterThan (v : Z)
  | GreaterThanOrEqual (v : Z)
  | LessThan (v : Z)
  | LessThanOrEqual (v : Z)
  | NonNegativeFD
  | maskedEqual (mask value : Z)
  | Split (sm : splitMatcher)
  | invalidValueMatcher.

#[export] Instance ValueMatcher_eq_dec : EqDecision ValueMatcher.
Proof. solve_decision. Defined.

Definition MaskedEqual (mask value : Z) : ValueMatcher := maskedEqual mask value.

(** [^allowlist] on a 64-bit [uintptr]. *)
Definition BitsAllowlist (allowlist : Z) : ValueMatcher :=
  MaskedEqual (2 ^ 64 - 1 - allowlist) 0.

Definition Repr (vm : ValueMatcher) : string :=
  match vm with
  | AnyValue => "== *"
  | EqualTo v => if v =? 0 then "== 0" else "== " +:+ hex v
  | NotEqual v => "!= " +:+ hex v
  | GreaterThan v => "> " +:+ hex v
  | GreaterThanOrEqual v => ">= " +:+ hex v
  | LessThan v => "< " +:+ hex v
  | LessThanOrEqual v => "<= " +:+ hex v
  | NonNegativeFD => "NonNegativeFD"
  | maskedEqual mask value => "& " +:+ hex mask +:+ " == " +:+ hex value
  | Split sm => split_Repr sm
  | invalidValueMatcher => "invalidValueMatcher"
  end.

(** The [split] of a [splittableValueMatcher]; [None] for the other matchers. *)
Definition split (vm : ValueMatcher) : option splitMatcher :=
  match vm with
  | EqualTo v => Some (mkSplit (Repr vm) (halfEqualTo (high32Bits v)) (halfEqualTo (low32Bits v)))
  | NonNegativeFD => Some (mkSplit (Repr vm) (halfEqualTo 0) (halfNotSet (2 ^ 31)))
  | maskedEqual mask value =>
      Some (mkSplit (Repr vm) (halfMaskedEqual (high32Bits mask) (high32Bits value))
              (halfMaskedEqual (low32Bits mask) (low32Bits value)))
  | _ => None
  end.

Definition renderSplittable (sm : ValueMatcher) (ls : labelSet) (value : matchedValue) : prog :=
  match split sm with
  | Some s => split_Render s ls value
  | None => panic
  end.

Definition AnyValue_Render (ls : labelSet) (value : matchedValue) : prog := SP.JumpTo (Matched ls).

Definition NotEqual_Render (ne : Z) (ls : labelSet) (value : matchedValue) : prog :=
  renderSplittable (EqualTo ne) (Push ls "inverted" (Mismatched ls) (Matched ls)) value.

Definition GreaterThan_Render (gt : Z) (ls : labelSet) (value : matchedValue) : prog :=
  LoadHigh32Bits value ;>
  SP.IfNot (Op.Jmp .| Op.Jge .| Op.K) (high32Bits gt) (Mismatched ls) ;>
  SP.IfNot (Op.Jmp .| Op.Jeq .| Op.K) (high32Bits gt) (Matched ls) ;>
  LoadLow32Bits value ;>
  SP.IfNot (Op.Jmp .| Op.Jgt .| Op.K) (low32Bits gt) (Mismatched ls) ;>
  SP.JumpTo (Matched ls).

Definition GreaterThanOrEqual_Render (ge : Z) (ls : labelSet) (value : matchedValue) : prog :=
  LoadHigh32Bits value ;>
  SP.IfNot (Op.Jmp .| Op.Jge .| Op.K) (high32Bits ge) (Mismatched ls) ;>
  SP.IfNot (Op.Jmp .| Op.Jeq .| Op.K) (high32Bits ge) (Matched ls) ;>
  LoadLow32Bits value ;>
  SP.IfNot (Op.Jmp .| Op.Jge .| Op.K) (low32Bits ge) (Mismatched ls) ;>
  SP.JumpTo (Matched ls).

Definition LessThan_Render (lt : Z) (ls : labelSet) (value : matchedValue) : prog :=
  LoadHigh32Bits value ;>
  SP.If (Op.Jmp .| Op.Jgt .| Op.K) (high32Bits lt) (Mismatched ls) ;>
  SP.IfNot (Op.Jmp .| Op.Jeq .| Op.K) (high32Bits lt) (Matched ls) ;>
  LoadLow32Bits value ;>
  SP.If (Op.Jmp .| Op.Jge .| Op.K) (low32Bits lt) (Mismatched ls) ;>
  SP.JumpTo (Matched ls).

Definition LessThanOrEqual_Render (le : Z) (ls : labelSet) (value : matchedValue) : prog :=
  LoadHigh32Bits value ;>
  SP.If (Op.Jmp .| Op.Jgt .| Op.K) (high32Bits le) (Mismatched ls) ;>
  SP.IfNot (Op.Jmp .| Op.Jeq .| Op.K) (high32Bits le) (Matched ls) ;>
  LoadLow32Bits value ;>
  SP.If (Op.Jmp .| Op.Jgt .| Op.K) (low32Bits le) (Mismatched ls) ;>
  SP.JumpTo (Matched ls).

(** [ValueMatcher.Render] *)
Definition value_Render (vm : ValueMatcher) (ls : labelSet) (value : matchedValue) : prog :=
  match vm with
  | AnyValue => AnyValue_Render ls value
  | EqualTo _ | NonNegativeFD | maskedEqual _ _ => renderSplittable vm ls value
  | NotEqual ne => NotEqual_Render ne ls value
  | GreaterThan gt => GreaterThan_Render gt ls value
  | GreaterThanOrEqual ge => GreaterThanOrEqual_Render ge ls value
  | LessThan lt => LessThan_Render lt ls value
  | LessThanOrEqual le => LessThanOrEqual_Render le ls value
  | Split sm => split_Render sm ls value
  | invalidValueMatcher => panic
  end.

(** ** Rules *)

(** [PerArg] is an array of [RuleIP + 1] matchers, of which any may be nil. *)
Inductive SyscallRule : Type :=
  | MatchAll
  | Or (rules : list SyscallRule)
  | And (rules : list SyscallRule)
  | PerArg (pa : list (option ValueMatcher)).

Definition RuleIP : nat := 6.

(** Where [PerArg.Render] finds the [i]-th value, and the suffix of its labels. *)
Definition arg_value (i : nat) : matchedValue :=
  if (i =? RuleIP)%nat then mkMatchedValue seccompDataOffsetIPHigh seccompDataOffsetIPLow
  else mkMatchedValue (seccompDataOffsetArgHigh i) (seccompDataOffsetArgLow i).

Definition arg_suffix (i : nat) : string :=
  if (i =? RuleIP)%nat then "rip" else "arg[" +:+ pretty i +:+ "]".

(** The loop of [PerArg.Render] from index [i] on. *)
Fixpoint PerArg_loop (i : nat) (pa : list (option ValueMatcher)) (ls : labelSet) : prog :=
  match pa with
  | [] => SP.JumpTo (Matched ls)
  | None :: pa' => PerArg_loop (S i) pa' ls
  | Some arg :: pa' =>
      let '(nextArgLabel, ls) := NewLabel ls in
      recording (λ frag,
        let argLabels := Push ls (arg_suffix i) nextArgLabel (Mismatched ls) in
        value_Render arg argLabels (arg_value i) ;>
        MustHaveJumpedTo frag [Matched argLabels; Mismatched argLabels]) ;>
      SP.Label nextArgLabel ;>
      PerArg_loop (S i) pa' ls
  end.

(** The loops of [Or.Render] and [And.Render] from index [i] on, given how rules render. *)
Section CompoundLoops.
Context (Render : SyscallRule → labelSet → prog).

Fixpoint Or_loop (i : nat) (rules : list SyscallRule) (ls : labelSet) : prog :=
  match rules with
  | [] => SP.JumpTo (Mismatched ls)
  | rule :: rules' =>
      let '(nextRuleLabel, ls) := NewLabel ls in
      recording (λ frag,
        Render rule (Push ls ("or[" +:+ pretty i +:+ "]") (Matched ls) nextRuleLabel) ;>
        MustHaveJumpedTo frag [Matched ls; nextRuleLabel]) ;>
      SP.Label nextRuleLabel ;>
      Or_loop (S i) rules' ls
  end.

Fixpoint And_loop (i : nat) (rules : list SyscallRule) (ls : labelSet) : prog :=
  match rules with
  | [] => SP.JumpTo (Matched ls)
  | rule :: rules' =>
      let '(nextRuleLabel, ls) := NewLabel ls in
      recording (λ frag,
        Render rule (Push ls ("and[" +:+ pretty i +:+ "]") nextRuleLabel (Mismatched ls)) ;>
        MustHaveJumpedTo frag [nextRuleLabel; Mismatched ls]) ;>
      SP.Label nextRuleLabel ;>
      And_loop (S i) rules' ls
  end.

End CompoundLoops.

(** [SyscallRule.Render] *)
Fixpoint Render (rule : SyscallRule) (ls : labelSet) : prog :=
  match rule with
  | MatchAll => SP.JumpTo (Matched ls)
  | Or [] => panic
  | Or rules => Or_loop Render 0 rules ls
  | And [] => panic
  | And rules => And_loop Render 0 rules ls
  | PerArg pa => PerArg_loop 0 pa ls
  end.

(** ** Rules by system call number *)

Definition SyscallRules : Type := gmap Z SyscallRule.

Definition MakeSyscallRules (rules : option SyscallRules) : SyscallRules := default ∅ rules.

Definition NewSyscallRules : SyscallRules := MakeSyscallRules None.

Definition Size (sr : SyscallRules) : nat := size sr.

Definition Get (sr : SyscallRules) (sysno : Z) : option SyscallRule := sr !! sysno.

Definition Has (sr : SyscallRules) (sysno : Z) : bool := bool_decide (is_Some (sr !! sysno)).

Definition Add (sr : SyscallRules) (sysno : Z) (r : SyscallRule) : SyscallRules :=
  match sr !! sysno with
  | Some cur => <[sysno := Or [cur; r]]> sr
  | None => <[sysno := r]> sr
  end.

Definition Set_ (sr : SyscallRules) (sysno : Z) (r : SyscallRule) : option SyscallRules :=
  match sr !! sysno with
  | Some _ => None
  | None => Some (<[sysno := r]> sr)
  end.

Definition Remove (sr : SyscallRules) (sysno : Z) : option SyscallRules :=
  if negb (Has sr sysno) then None else Some (delete sysno sr).

(** [Merge] goes through the other map in the order [entries]. *)
Definition Merge (sr : SyscallRules) (entries : list (Z * SyscallRule)) : SyscallRules :=
  foldl (λ sr e, Add sr e.1 e.2) sr entries.

(** [ForSingleArgument]: the first error of [fn], or the last one of a rule that is neither a
    [PerArg] nor a rule with children. *)
Inductive ArgError (E : Type) : Type :=
  | InvalidArgument (argNum : Z)
  | NoRules (sysno : Z)
  | ArgRule (pa : list (option ValueMatcher)) (err : E)
  | NotRecursive (rule : SyscallRule).
Arguments InvalidArgument {E}.
Arguments NoRules {E}.
Arguments ArgRule {E}.
Arguments NotRecursive {E}.

Fixpoint process {E : Type} (argNum : nat) (fn : option ValueMatcher → option E)
    (r : SyscallRule) (err : option (ArgError E)) : option (ArgError E) :=
  match r with
  | PerArg pa =>
      match fn (mjoin (pa !! argNum)), err with
      | Some gotErr, None => Some (ArgRule pa gotErr)
      | _, _ => err
      end
  | MatchAll | Or [] | And [] => Some (NotRecursive r)
  | Or rules | And rules => foldl (λ err r, process argNum fn r err) err rules
  end.

Definition ForSingleArgument {E : Type} (sr : SyscallRules) (sysno argNum : Z)
    (fn : option ValueMatcher → option E) : option (ArgError E) :=
  if (argNum <? 0) || (argNum >=? Z.of_nat (S RuleIP)) then Some (InvalidArgument argNum)
  else
    match sr !! sysno with
    | None => Some (NoRules sysno)
    | Some r => process (Z.to_nat argNum) fn r None
    end.

(** The rules that deny new executable mappings, with the constants of package unix. *)
Definition DenyNewExecMappings (SYS_MMAP SYS_MPROTECT PROT_EXEC : Z) : SyscallRules :=
  let rule := PerArg [Some AnyValue; Some AnyValue; Some (MaskedEqual PROT_EXEC PROT_EXEC); None; None; None; None] in
  MakeSyscallRules (Some (list_to_map [(SYS_MMAP, rule); (SYS_MPROTECT, rule)])).
