(* ===== verification/Labels.v ===== *)
(** * Printed names

    Facts about the strings the seccomp package builds names from: a number that is followed by
    something else than a digit can be read back, so that the labels made by a [labelSet] and
    by the sets pushed from it are pairwise different. *)

From Stdlib Require Import Ascii.
From stdpp Require Import base numbers decidable strings pretty list.
From S2P Require Import Prelude Instr Builder SeccompRules.

Local Open Scope string_scope.
Local Open Scope nat_scope.

(** ** Strings *)

Lemma append_nil_l x : "" +:+ x = x.
Proof. done. Qed.

Lemma append_cons c x y : String c x +:+ y = String c (x +:+ y).
Proof. done. Qed.

Lemma append_inj_l P x y : P +:+ x = P +:+ y → x = y.
Proof. induction P as [|c P IH]; [done|]. intros [= H]. by apply IH. Qed.

Lemma append_assoc x y z : (x +:+ y) +:+ z = x +:+ (y +:+ z).
Proof. induction x as [|c x IH]; [done|]. exact (f_equal (String c) IH). Qed.

Lemma append_nil_r x : x +:+ "" = x.
Proof. induction x as [|c x IH]; [done|]. exact (f_equal (String c) IH). Qed.

(** All the characters of [s] are in [cl]; [s] does not start with one of [cl]. *)
Fixpoint all_in (cl : ascii → bool) (s : string) : bool :=
  match s with
  | EmptyString => true
  | String c s' => cl c && all_in cl s'
  end.

Definition starts_out (cl : ascii → bool) (s : string) : bool :=
  match s with
  | EmptyString => true
  | String c _ => negb (cl c)
  end.

(** A string can be cut at the first character outside of [cl]. *)
Lemma cut_inj cl s1 s2 t1 t2 :
  all_in cl s1 = true → all_in cl s2 = true →
  starts_out cl t1 = true → starts_out cl t2 = true →
  s1 +:+ t1 = s2 +:+ t2 → s1 = s2 ∧ t1 = t2.
Proof.
  revert s2. induction s1 as [|c s1 IH]; intros s2 H1 H2 Ht1 Ht2 Heq; destruct s2 as [|d s2];
    rewrite ?append_nil_l, ?append_cons in Heq; simpl in *; [done| | |].
  - subst t1. simpl in Ht1. apply andb_prop in H2 as [H2 _]. by rewrite H2 in Ht1.
  - subst t2. simpl in Ht2. apply andb_prop in H1 as [H1 _]. by rewrite H1 in Ht2.
  - injection Heq as -> Heq. apply andb_prop in H1 as [_ H1]. apply andb_prop in H2 as [_ H2].
    by destruct (IH s2 H1 H2 Ht1 Ht2 Heq) as [-> ->].
Qed.

(** ** Decimal numbers *)

Definition is_digit (c : ascii) : bool :=
  (48 <=? nat_of_ascii c) && (nat_of_ascii c <=? 57).

Lemma pretty_N_char_digit x : is_digit (pretty_N_char x) = true.
Proof. unfold pretty_N_char. by repeat case_match. Qed.

Lemma pretty_N_go_digits x s : all_in is_digit s = true → all_in is_digit (pretty_N_go x s) = true.
Proof.
  revert s. induction (N.lt_wf_0 x) as [x _ IH]; intros s Hs.
  assert (x = 0 ∨ 0 < x)%N as [->|Hx] by lia; [by rewrite pretty_N_go_0|].
  rewrite pretty_N_go_step by done. apply IH; [by apply N.div_lt|]. simpl.
  by rewrite pretty_N_char_digit.
Qed.

Lemma pretty_nat_digits (n : nat) : all_in is_digit (pretty n) = true.
Proof. unfold pretty, pretty_nat, pretty, pretty_N. case_decide; [done|by apply pretty_N_go_digits]. Qed.

Lemma pretty_Z_digits (z : Z) : (0 <= z)%Z → all_in is_digit (pretty z) = true.
Proof.
  intros Hz. unfold pretty, pretty_Z. destruct z as [|p|p]; [done| |lia].
  unfold pretty, pretty_positive, pretty, pretty_N. case_decide; [done|by apply pretty_N_go_digits].
Qed.

Lemma number_inj (n m : nat) s t :
  starts_out is_digit s = true → starts_out is_digit t = true →
  pretty n +:+ s = pretty m +:+ t → n = m ∧ s = t.
Proof.
  intros Hs Ht Heq. apply (cut_inj is_digit) in Heq as [Hn ->]; [|apply pretty_nat_digits..|done|done].
  split; [by apply (inj pretty)|done].
Qed.

Lemma number_Z_inj (n m : Z) s t :
  (0 <= n)%Z → (0 <= m)%Z → starts_out is_digit s = true → starts_out is_digit t = true →
  pretty n +:+ s = pretty m +:+ t → n = m ∧ s = t.
Proof.
  intros Hn0 Hm0 Hs Ht Heq.
  apply (cut_inj is_digit) in Heq as [Hn ->]; [|by apply pretty_Z_digits..|done|done].
  split; [by apply (inj pretty)|done].
Qed.

(** ** The labels of a label set *)

(** A name below the prefix [P]. *)
Definition under (P l : string) : Prop := ∃ s, l = P +:+ "#" +:+ s ∨ l = P +:+ "_" +:+ s.

(** The labels that a label set and the sets pushed from it may still make. *)
Definition makes (ls : labelSet) (l : string) : Prop :=
  (∃ k, labelCounter ls ≤ k ∧ l = prefix ls +:+ "#" +:+ pretty k) ∨
  (∃ s, l = prefix ls +:+ "_" +:+ s).

Lemma makes_under ls l : makes ls l → under (prefix ls) l.
Proof. intros [(k & _ & ->)|(s & ->)]; eexists; [by left|by right]. Qed.

Lemma makes_new ls : makes ls (NewLabel ls).1.
Proof. left. by exists (labelCounter ls). Qed.

Lemma makes_next ls l : makes (NewLabel ls).2 l → makes ls l.
Proof. intros [(k & Hk & ->)|H]; [left; exists k; simpl in Hk; split; [lia|done]|by right]. Qed.

Lemma new_not_makes ls : ¬ makes (NewLabel ls).2 (NewLabel ls).1.
Proof.
  intros [(k & Hk & H)|(s & H)]; simpl in *; apply append_inj_l in H; [|done].
  apply (append_inj_l "#"), (inj pretty) in H. lia.
Qed.

Lemma Push_prefix ls suf m mm :
  prefix ls ≠ "" → prefix (Push ls suf m mm) = prefix ls +:+ "_" +:+ suf.
Proof. intros H. unfold Push. simpl. by rewrite bool_decide_false. Qed.

Lemma Push_prefix_ne ls suf m mm : prefix ls ≠ "" → prefix (Push ls suf m mm) ≠ "".
Proof. intros H. rewrite Push_prefix by done. by destruct (prefix ls). Qed.

(** The labels of a pushed set are labels of the set it was pushed from. *)
Lemma makes_push ls suf m mm l :
  prefix ls ≠ "" → makes (Push ls suf m mm) l →
  ∃ s, l = prefix ls +:+ "_" +:+ suf +:+ s ∧ starts_out is_digit s = true.
Proof.
  intros HP [s H]%makes_under. rewrite Push_prefix in H by done. rewrite !append_assoc in H.
  simpl in H. destruct H as [-> | ->]; by eexists.
Qed.

Lemma new_not_push ls ls' suf m mm :
  prefix ls ≠ "" → prefix ls' = prefix ls → ¬ makes (Push ls' suf m mm) (NewLabel ls).1.
Proof.
  intros HP Hp Hm. apply makes_push in Hm as (s & H & _); [|by rewrite Hp]. rewrite Hp in H.
  by apply append_inj_l in H.
Qed.

(** ** The labels of a loop

    The body of the [i]-th iteration makes a label and pushes a set with the suffix [suf i]. *)

Class SuffixFamily (suf : nat → string) : Prop :=
  suffix_inj i j s t : starts_out is_digit s = true → starts_out is_digit t = true →
    suf i +:+ s = suf j +:+ t → i = j.

#[export] Instance or_suffix : SuffixFamily (λ i, "or[" +:+ pretty i +:+ "]").
Proof.
  intros i j s t _ _ H. rewrite !append_assoc in H. apply append_inj_l in H.
  apply number_inj in H as [H _]; done.
Qed.

#[export] Instance and_suffix : SuffixFamily (λ i, "and[" +:+ pretty i +:+ "]").
Proof.
  intros i j s t _ _ H. rewrite !append_assoc in H. apply append_inj_l in H.
  apply number_inj in H as [H _]; done.
Qed.

#[export] Instance arg_suffix_family : SuffixFamily arg_suffix.
Proof.
  intros i j s t _ _ H. unfold arg_suffix in H.
  destruct (Nat.eqb_spec i RuleIP) as [->|], (Nat.eqb_spec j RuleIP) as [->|]; [done|done|done|].
  rewrite !append_assoc in H. apply append_inj_l in H. apply number_inj in H as [H _]; done.
Qed.

Section LoopLabels.
Context (suf : nat → string) `{!SuffixFamily suf}.

Definition loop_makes (i : nat) (ls : labelSet) (l : string) : Prop :=
  (∃ k, labelCounter ls ≤ k ∧ l = prefix ls +:+ "#" +:+ pretty k) ∨
  (∃ j s, i ≤ j ∧ l = prefix ls +:+ "_" +:+ suf j +:+ s ∧ starts_out is_digit s = true).

Lemma loop_makes_start ls l : loop_makes 0 ls l → makes ls l.
Proof. intros [H|(j & s & _ & -> & _)]; [by left|right; by eexists]. Qed.

Lemma loop_makes_new i ls : loop_makes i ls (NewLabel ls).1.
Proof. left. by exists (labelCounter ls). Qed.

Lemma loop_makes_next i ls l : loop_makes (S i) (NewLabel ls).2 l → loop_makes i ls l.
Proof.
  intros [(k & Hk & ->)|(j & s & Hj & -> & Hs)]; simpl in *.
  - left. exists k. split; [lia|done].
  - right. exists j, s. split; [lia|done].
Qed.

Lemma loop_makes_skip i ls l : loop_makes (S i) ls l → loop_makes i ls l.
Proof. intros [H|(j & s & Hj & H)]; [by left|right]. exists j, s. split; [lia|done]. Qed.

Lemma loop_new_not_next i ls : ¬ loop_makes (S i) (NewLabel ls).2 (NewLabel ls).1.
Proof.
  intros [(k & Hk & H)|(j & s & _ & H & _)]; simpl in *; apply append_inj_l in H; [|done].
  apply (append_inj_l "#"), (inj pretty) in H. lia.
Qed.

Section Body.
Context (i : nat) (ls ls' : labelSet) (m mm : string).
Context (HP : prefix ls ≠ "") (Hls : prefix ls' = prefix ls).

Lemma loop_makes_push l : makes (Push ls' (suf i) m mm) l → loop_makes i ls l.
Proof.
  intros Hm. apply makes_push in Hm as (s & -> & Hs); [|by rewrite Hls].
  right. exists i, s. by rewrite Hls.
Qed.

Lemma loop_push_not_next ls2 l :
  prefix ls2 = prefix ls → makes (Push ls' (suf i) m mm) l → ¬ loop_makes (S i) ls2 l.
Proof.
  intros Hls2 Hm. apply makes_push in Hm as (s & -> & Hs); [|by rewrite Hls]. rewrite Hls.
  intros [(k & _ & H)|(j & t & Hj & H & Ht)]; rewrite Hls2 in H; apply append_inj_l in H; [done|].
  apply (append_inj_l "_"), suffix_inj in H; [lia|done|done].
Qed.

End Body.
End LoopLabels.
