(* ===== verification/Fragments.v ===== *)
(** * Code fragments and their composition

    A small logic for the code that src/pkg/seccomp adds to a builder.  [renders open f reg L R
    sem] says of an action [f], run on any builder in which the labels of [reg] are unused and
    the labels of [L] can still be placed, that it does not panic and that the code it adds

    - places labels of [reg] only, and all those it refers to;
    - otherwise only jumps to labels of [L] and only returns values of [R]; when [open] it may
      also run off its end;
    - when reached with [A = a] in any program that is finally made from the builder, leaves by
      an exit [x] with [sem a x].

    The lemmas compose such statements along [prog_seq], [SP.Label] and the assertions on
    fragments; straight-line code is dealt with by evaluation ([renders_block]). *)

From stdpp Require Import base numbers decidable strings gmap list.
From S2P Require Import Prelude Instr Machine MachineFacts OptBase Builder BuilderFacts.
From S2P Require Import SeccompRules.

Local Open Scope bits_scope.
Local Open Scope prog_scope.

(** ** Exits *)

(** The ways out of running code, with the value of [A]. *)
Inductive exit : Type :=
  | XLabel (l : string) (a : Z)
  | XFall (a : Z)
  | XReturn (v : Z).

Definition is_fall (x : exit) : bool := match x with XFall _ => true | _ => false end.

(** A run of [p] from [pc] leaves the code that ends at [to] by [x]; [B] places the labels. *)
Definition exits (e : Endianness) (inp : Input) (p : list Instruction) (B : ProgramBuilder)
    (to pc : nat) (m : machine) (x : exit) : Prop :=
  match x with
  | XLabel l a => ∃ t, tgt B l = Some t ∧ eval e inp p pc m = eval e inp p t (set_A m a)
  | XFall a => eval e inp p pc m = eval e inp p to (set_A m a)
  | XReturn v => eval e inp p pc m = OValue v
  end.

(** ** Static flow *)

Definition target_in (b : ProgramBuilder) (bound : nat) (L : list string) (pc : nat)
    (o : JumpOffset) : Prop :=
  match jumpSourceToLabel b !! mkSource pc (Type_ o) with
  | Some l => match tgt b l with None => l ∈ L | Some t => t < bound end
  | None => S (pc + Z.to_nat (Offset o)) < bound
  end.

Definition ins_flows (b : ProgramBuilder) (bound : nat) (L : list string) (R : gset Z)
    (pc : nat) (i : Instruction) : Prop :=
  if IsReturn i then OpCode i = (Op.Ret .| Op.K)%Z ∧ KVal i ∈ R
  else if IsJump i then ∀ o, o ∈ JumpOffsets i → target_in b bound L pc o
  else S pc < bound.

(** Control stays below [bound], jumps to [L] or returns [R], from the instructions in
    [[lo, hi)]. *)
Definition flows (b : ProgramBuilder) (lo hi bound : nat) (L : list string) (R : gset Z) : Prop :=
  ∀ pc i, lo ≤ pc < hi → instructions b !! pc = Some i → ins_flows b bound L R pc i.

Lemma flows_extends b b2 lo hi bound bound2 L L2 R R2 :
  builder_ok b → extends b b2 → hi ≤ length (instructions b) → bound ≤ bound2 → R ⊆ R2 →
  (∀ l, l ∈ L → is_Some (labels b !! l) → tgt b l = None →
     match tgt b2 l with None => l ∈ L2 | Some t => t < bound2 end) →
  flows b lo hi bound L R → flows b2 lo hi bound2 L2 R2.
Proof.
  intros Hok He Hhi Hbd HR HL Hf pc i Hpc Hi2.
  destruct (lookup_lt_is_Some_2 (instructions b) pc) as [i' Hi]; [lia|].
  assert (i' = i) as -> by (pose proof (prefix_lookup_Some _ _ _ _ Hi (ext_insns _ _ He)); congruence).
  specialize (Hf pc i Hpc Hi). unfold ins_flows in *. case_if; [set_solver|]. case_if; [|lia].
  intros o Ho. specialize (Hf o Ho). unfold target_in in *.
  rewrite (ext_jump _ _ He) by (simpl; lia). destruct (jumpSourceToLabel b !! _) as [l|] eqn:Hl; [|lia].
  destruct (bo_label _ Hok _ _ Hl) as (lab & Hlab & _).
  destruct (tgt b l) as [t|] eqn:Ht; [|apply HL; [done|by rewrite Hlab|done]]. rewrite (ext_tgt _ _ He _ _ Ht). lia.
Qed.

Lemma flows_app b lo mid hi bound L R :
  flows b lo mid bound L R → flows b mid hi bound L R → flows b lo hi bound L R.
Proof. intros H1 H2 pc i Hpc. destruct (decide (pc < mid)); [apply H1|apply H2]; lia. Qed.

(** ** Specifications *)

(** The state of a label in two builders is the same. *)
Definition same_label (b b' : ProgramBuilder) (l : string) : Prop :=
  labels b' !! l = labels b !! l ∧ (l ∈ unusableLabels b' ↔ l ∈ unusableLabels b).

Definition fresh_label (b : ProgramBuilder) (l : string) : Prop :=
  labels b !! l = None ∧ l ∉ unusableLabels b.

Lemma fresh_unplaced b l : fresh_label b l → unplaced b l.
Proof. intros [H ?]. split; [|done]. unfold tgt. by rewrite H. Qed.

Lemma same_fresh b b' l : same_label b b' l → fresh_label b l → fresh_label b' l.
Proof. intros [H1 H2] [H3 H4]. split; [congruence|tauto]. Qed.

Lemma same_unplaced b b' l : same_label b b' l → unplaced b l → unplaced b' l.
Proof. intros [H1 H2] [H3 H4]. split; [unfold tgt in *; by rewrite H1|tauto]. Qed.

(** The instructions of rendered code. *)
Definition render_ins (i : Instruction) : Prop := ins_ok i ∧ stable_load i = true.

(** All labels are jumped to from above their place, by direct jumps. *)
Record forward (b : ProgramBuilder) : Prop := mkForward {
  fw_jump s l : jumpSourceToLabel b !! s = Some l → jt s = JumpDirect;
  fw_above s l t : jumpSourceToLabel b !! s = Some l → tgt b l = Some t → line s < t;
  fw_usable l : is_Some (labels b !! l) → l ∉ unusableLabels b
}.

Lemma places_forward b l b' : builder_ok b → places b l b' → forward b → forward b'.
Proof.
  intros Hok Hpl [H1 H2 H3]. split.
  - intros s l'. rewrite (pl_jump _ _ _ Hpl). apply H1.
  - intros s l' t. rewrite (pl_jump _ _ _ Hpl), (pl_tgt _ _ _ Hpl). intros Hs. case_decide; [|by apply H2].
    intros [= <-]. by apply (bo_line _ Hok) in Hs.
  - intros l'. rewrite (pl_dom _ _ _ Hpl), (pl_unusable _ _ _ Hpl). intros Hl [Hu|[-> Hn]]; [by apply (H3 l')|].
    rewrite Hn in Hl. by destruct Hl.
Qed.

Definition end_bound (open : bool) (b : ProgramBuilder) : nat :=
  if open then S (length (instructions b)) else length (instructions b).

(** ** Straight-line code *)

(** The instructions of the renderers, and jumps to labels. *)
Inductive cond : Type := CEq | CGe | CGt | CSet.

Definition cond_op (c : cond) : Z :=
  match c with
  | CEq => Op.Jmp .| Op.Jeq .| Op.K
  | CGe => Op.Jmp .| Op.Jge .| Op.K
  | CGt => Op.Jmp .| Op.Jgt .| Op.K
  | CSet => Op.Jmp .| Op.Jset .| Op.K
  end%Z.

Definition cond_holds (c : cond) (a k : Z) : bool :=
  match c with
  | CEq => a =? k
  | CGe => a >=? k
  | CGt => a >? k
  | CSet => negb (a .& k =? 0)
  end%Z.

Inductive code : Type :=
  | BLoad (off : Z)
  | BAnd (k : Z)
  | BCond (c : cond) (k : Z) (jt jf : nat)
  | BJump (l : string)
  | BRet (v : Z).

#[export] Instance cond_eq_dec : EqDecision cond.
Proof. solve_decision. Defined.

#[export] Instance code_eq_dec : EqDecision code.
Proof. solve_decision. Defined.

Definition code_ins (x : code) : Instruction :=
  match x with
  | BLoad off => Stmt (Op.Ld .| Op.Abs .| Op.W) off
  | BAnd k => Stmt (Op.Alu .| Op.And .| Op.K) k
  | BCond c k jt jf => Jump (cond_op c) k (Z.of_nat jt) (Z.of_nat jf)
  | BJump _ => Jump (Op.Jmp .| Op.Ja) labelDirectTarget 0 0
  | BRet v => Stmt (Op.Ret .| Op.K) v
  end%Z.

Definition code_run (x : code) : prog :=
  match x with
  | BJump l => AddDirectJumpLabel l
  | _ => λ b, Some (append (code_ins x) b)
  end.

Fixpoint block_run (blk : list code) : prog :=
  match blk with
  | [] => skip
  | x :: blk' => code_run x ;> block_run blk'
  end.

(** [room] instructions follow; the operands have their width. *)
Definition code_fits (x : code) (room : nat) (L : list string) (R : gset Z) : Prop :=
  match x with
  | BLoad k | BAnd k => 0 < room ∧ in_u32 k
  | BCond _ k jt jf => jt < room ∧ jf < room ∧ jt < 256 ∧ jf < 256 ∧ in_u32 k
  | BJump l => l ∈ L
  | BRet v => v ∈ R ∧ in_u32 v
  end.

Fixpoint block_fits (open : bool) (blk : list code) (L : list string) (R : gset Z) : Prop :=
  match blk with
  | [] => True
  | x :: blk' => code_fits x (length blk' + if open then 1 else 0) L R ∧ block_fits open blk' L R
  end.

(** The labels that [x] at index [k] refers to, by jump field. *)
Definition code_label (x : code) (t : JumpType) : option string :=
  match x, t with BJump l, JumpDirect => Some l | _, _ => None end.

Section Logic.
Context (e : Endianness) (inp : Input).

Record fragment (open : bool) (reg : string → Prop) (L : list string) (R : gset Z)
    (sem : Z → exit → Prop) (b b' : ProgramBuilder) : Prop := mkFragmentSpec {
  fr_ok : builder_ok b';
  fr_ext : extends b b';
  fr_grow : length (instructions b) < length (instructions b');
  fr_frame l : ¬ reg l → l ∉ L → same_label b b' l;
  fr_open l : l ∈ L → unplaced b' l;
  fr_closed l : l ∉ L → labels b !! l = None → is_Some (labels b' !! l) →
    ∃ t, tgt b' l = Some t ∧ t < end_bound open b';
  fr_flows : flows b' (length (instructions b)) (length (instructions b')) (end_bound open b') L R;
  fr_ins pc i : length (instructions b) ≤ pc → instructions b' !! pc = Some i → render_ins i;
  fr_sem B m : extends b' B → builder_ok B → resolvable B →
    ∃ x, sem (mA m) x ∧
      exits e inp (resolved B) B (length (instructions b')) (length (instructions b)) m x;
  fr_forward : forward b → forward b'
}.

Definition renders (open : bool) (f : prog) (reg : string → Prop) (L : list string)
    (R : gset Z) (sem : Z → exit → Prop) : Prop :=
  ∀ b, builder_ok b → (∀ l, reg l → fresh_label b l) →
    (∀ l, l ∈ L → unplaced b l ∧ ¬ reg l) →
    ∃ b', f b = Some b' ∧ fragment open reg L R sem b b'.

(** *** Weakening *)

Lemma renders_mono open open' f reg reg' L L' R R' (sem sem' : Z → exit → Prop) :
  renders open f reg L R sem →
  (open = true → open' = true) → (∀ l, reg l → reg' l) → L ⊆ L' → R ⊆ R' →
  (∀ a x, sem a x → sem' a x) → renders open' f reg' L' R' sem'.
Proof.
  intros Hf Ho Hreg HL HR Hsem b Hok Hfresh HLu.
  destruct (Hf b Hok) as (b' & Hb' & [H1 H2 H3 H4 H5 H6 H7 H8 H9 H10]); [by auto|intros l Hl; destruct (HLu l); [set_solver|by auto]|].
  assert (Hbd : end_bound open b' ≤ end_bound open' b').
  { unfold end_bound. destruct open, open'; lia. }
  exists b'. split; [done|]. split; [done..| | | | |done| |done].
  - intros l Hl HlL. apply H4; [auto|set_solver].
  - intros l Hl. destruct (decide (l ∈ L)) as [|HlL]; [by apply H5|].
    destruct (HLu l Hl) as [Hu Hr]. eapply same_unplaced; [|done]. apply H4; auto.
  - intros l Hl Hn Hs. destruct (H6 l) as (t & Ht & Hlt); [set_solver|done|done|].
    exists t. split; [done|lia].
  - apply (flows_extends b' b' _ _ (end_bound open b') _ L _ R); try done.
    intros l Hl _ Ht. rewrite Ht. by apply HL.
  - intros B m HB HokB Hr. destruct (H9 B m HB HokB Hr) as (x & Hx & Hex). eauto.
Qed.

(** *** Sequencing *)

(** Falling off the end of the first fragment goes on with the second. *)
Definition sem_seq (sem1 sem2 : Z → exit → Prop) (a : Z) (x : exit) : Prop :=
  (∃ a', sem1 a (XFall a') ∧ sem2 a' x) ∨ (sem1 a x ∧ is_fall x = false).

Lemma set_A_set_A m a a' : set_A (set_A m a) a' = set_A m a'.
Proof. done. Qed.

Lemma renders_seq open f g reg1 reg2 L R sem1 sem2 :
  renders true f reg1 L R sem1 → renders open g reg2 L R sem2 →
  (∀ l, reg1 l → ¬ reg2 l) →
  renders open (f ;> g) (λ l, reg1 l ∨ reg2 l) L R (sem_seq sem1 sem2).
Proof.
  intros Hf Hg Hdisj b Hok Hfresh HL.
  destruct (Hf b Hok) as (b1 & Hb1 & [H1 H2 H3 H4 H5 H6 H7 H8 H9 H10]);
    [by auto|intros l Hl; destruct (HL l Hl); auto|].
  destruct (Hg b1 H1) as (b2 & Hb2 & [G1 G2 G3 G4 G5 G6 G7 G8 G9 G10]).
  { intros l Hl. apply (same_fresh b); [|by auto]. apply H4; [by intros ?%Hdisj|].
    intros HlL. destruct (HL l HlL) as [_ Hn]. auto. }
  { intros l Hl. split; [by apply H5|]. destruct (HL l Hl) as [_ Hn]. auto. }
  pose proof (ext_length _ _ G2) as Hlen.
  exists b2. split; [unfold prog_seq; rewrite Hb1; exact Hb2|]. split.
  - done.
  - by etrans.
  - lia.
  - intros l Hl HlL. destruct (H4 l) as [E1 E2]; [tauto|done|].
    destruct (G4 l) as [E3 E4]; [tauto|done|]. split; [congruence|tauto].
  - done.
  - intros l HlL Hn Hs. destruct (labels b1 !! l) as [lab|] eqn:E.
    + destruct (H6 l HlL Hn) as (t & Ht & Hlt); [by rewrite E|].
      exists t. split; [by apply (ext_tgt _ _ G2)|]. unfold end_bound in *. destruct open; lia.
    + by apply G6.
  - apply (flows_app _ _ (length (instructions b1))); [|done].
    apply (flows_extends b1 b2 _ _ (end_bound true b1) _ L _ R); try done.
    + unfold end_bound. destruct open; lia.
    + intros l Hl _ _. destruct (G5 l Hl) as [-> _]. done.
  - intros pc i Hpc Hi. destruct (decide (pc < length (instructions b1))) as [Hlt|Hge].
    + destruct (lookup_lt_is_Some_2 _ _ Hlt) as [i' Hi'].
      pose proof (prefix_lookup_Some _ _ _ _ Hi' (ext_insns _ _ G2)). simplify_eq. by eapply H8.
    + eapply G8; [|done]. lia.
  - intros B m HB HokB Hr. destruct (H9 B m) as (x & Hx & Hex); [by etrans|done..|].
    destruct x as [l a|a|v].
    + exists (XLabel l a). split; [by right|done].
    + simpl in Hex. destruct (G9 B (set_A m a) HB HokB Hr) as (x & Hx2 & Hex2). exists x.
      split; [left; by exists a|]. unfold exits in *.
      destruct x as [l2 a2|a2|v2]; rewrite Hex; [|done..]. done.
    + exists (XReturn v). split; [by right|done].
  - auto.
Qed.

(** *** Placing a label at the end *)

Definition sem_label (next : string) (sem : Z → exit → Prop) (a : Z) (x : exit) : Prop :=
  (∃ a', sem a (XLabel next a') ∧ x = XFall a') ∨ (sem a x ∧ ∀ a', x ≠ XLabel next a').

(** A placed label that the final program refers to is where it was placed. *)
Lemma label_place b1 b2 l B t :
  places b1 l b2 → extends b2 B → resolvable B → tgt B l = Some t → t = length (instructions b1).
Proof.
  intros Hpl HB Hr Ht. destruct (labels b1 !! l) as [lab|] eqn:Hl.
  - assert (H2 : tgt b2 l = Some (length (instructions b1))).
    { rewrite (pl_tgt _ _ _ Hpl), decide_True; [done|]. rewrite Hl. eauto. }
    apply (ext_tgt _ _ HB) in H2. congruence.
  - unfold tgt in Ht. destruct (labels B !! l) as [labB|] eqn:HlB; [|done].
    destruct (Hr l labB HlB) as [Hnu _]. exfalso. apply Hnu, (ext_unusable _ _ HB).
    apply (pl_unusable _ _ _ Hpl). by right.
Qed.

Lemma renders_label open f next reg L R sem :
  renders open f reg (next :: L) R sem → ¬ reg next → next ∉ L →
  renders true (f ;> SP.Label next) (λ l, reg l ∨ l = next) L R (sem_label next sem).
Proof.
  intros Hf Hnr HnL b Hok Hfresh HL.
  destruct (Hf b Hok) as (b1 & Hb1 & [H1 H2 H3 H4 H5 H6 H7 H8 H9 H10]); [by auto| |].
  { intros l [-> | Hl]%elem_of_cons; [|destruct (HL l Hl); auto].
    split; [apply fresh_unplaced; auto|done]. }
  destruct (AddLabel_spec b1 next) as (b2 & Hb2 & Hpl); [apply H5, list_elem_of_here|].
  assert (Hu : unplaced b1 next) by (apply H5, list_elem_of_here).
  pose proof (places_extends b1 next b2 (proj1 Hu) Hpl) as He.
  exists b2. split; [unfold prog_seq; rewrite Hb1; simpl; unfold SP.Label; by rewrite Hb2|].
  pose proof (pl_insns _ _ _ Hpl) as Hins.
  assert (Hother : ∀ l, l ≠ next → same_label b1 b2 l).
  { intros l Hl. split; [by apply Hpl|]. rewrite (pl_unusable _ _ _ Hpl). naive_solver. }
  split.
  - replace b2 with (AddLabel next b1).1 by (by rewrite Hb2). by apply AddLabel_ok.
  - by etrans.
  - by rewrite Hins.
  - intros l Hl HlL. destruct (H4 l) as [E1 E2]; [tauto|apply not_elem_of_cons; tauto|].
    destruct (Hother l) as [E3 E4]; [tauto|]. split; [congruence|tauto].
  - intros l Hl. apply (same_unplaced b1); [apply Hother; by intros ->|]. apply H5. by right.
  - intros l HlL Hn Hs. rewrite (pl_tgt _ _ _ Hpl). unfold end_bound in *. rewrite Hins.
    case_decide as Hd; [eexists; split; [done|lia]|].
    apply (pl_dom _ _ _ Hpl) in Hs.
    assert (l ≠ next) by (intros ->; tauto).
    destruct (H6 l) as (t & Ht & Hlt); [by apply not_elem_of_cons|done..|].
    exists t. split; [done|]. destruct open; lia.
  - rewrite Hins. unfold end_bound in *. rewrite Hins.
    apply (flows_extends b1 b2 _ _ (end_bound open b1) _ (next :: L) _ R); try done.
    + unfold end_bound. destruct open; lia.
    + intros l Hl Hs Ht. rewrite (pl_tgt _ _ _ Hpl), Ht. case_decide as Hd; [lia|].
      apply elem_of_cons in Hl as [-> | Hl]; [by destruct Hd|done].
  - intros pc i Hpc Hi. rewrite Hins in Hi. by eapply H8.
  - intros B m HB HokB Hr. destruct (H9 B m) as (x & Hx & Hex); [by etrans|done..|].
    rewrite Hins. destruct x as [l a|a|v]; simpl in *.
    + destruct (decide (l = next)) as [->|Hne].
      * exists (XFall a). split; [left; eauto|]. destruct Hex as (t & Ht & Hev). simpl.
        rewrite Hev. by rewrite (label_place b1 b2 next B t).
      * exists (XLabel l a). split; [right; split; [done|congruence]|done].
    + exists (XFall a). split; [right; split; [done|congruence]|done].
    + exists (XReturn v). split; [right; split; [done|congruence]|done].
  - intros Hfw. apply (places_forward b1 next); auto.
Qed.

(** *** Assertions on fragments *)

Lemma target_ways_inside to t : t < to → target_ways to t = [].
Proof.
  intros H. unfold target_ways. destruct (Nat.eqb_spec t to); [lia|].
  by destruct (Nat.ltb_spec to t); [lia|].
Qed.

Lemma flows_ways b to L R pc i w :
  ins_flows b to L R pc i → w ∈ ins_ways b to pc i →
  match w with WLabel l => l ∈ L | WImmediate k => k ∈ R | _ => False end.
Proof.
  unfold ins_flows, ins_ways, IsReturn, IsJump. repeat case_if; intros Hf Hw.
  - apply list_elem_of_singleton in Hw as ->. apply Hf.
  - destruct Hf as [Hf _]. by rewrite Hf in *.
  - by apply not_elem_of_nil in Hw.
  - apply list_elem_of_bind in Hw as (o & Hw & Ho). specialize (Hf o Ho).
    unfold target_in in Hf. unfold offset_ways in Hw.
    destruct (jumpSourceToLabel b !! _) as [l|]; [destruct (tgt b l) as [t|]|].
    + rewrite target_ways_inside in Hw by done. by apply not_elem_of_nil in Hw.
    + by apply list_elem_of_singleton in Hw as ->.
    + rewrite target_ways_inside in Hw by lia. by apply not_elem_of_nil in Hw.
  - to_prop. lia.
  - by apply not_elem_of_nil in Hw.
Qed.

Lemma check_passes b from L R L' R' :
  builder_ok b → from < length (instructions b) →
  flows b from (length (instructions b)) (length (instructions b)) L R → L ⊆ L' → R ⊆ R' →
  MustHaveJumpedToOrReturned (λ b', mkFragment from (length (instructions b'))) L' R' b = Some b.
Proof.
  intros Hok Hlt Hfl HL HR. unfold MustHaveJumpedToOrReturned.
  destruct (Outcomes_spec b Hok from (length (instructions b)) Hlt) as (o & -> & Hw); [done|].
  assert (Hways : ∀ w, lists_way o w →
    match w with WLabel l => l ∈ L | WImmediate k => k ∈ R | _ => False end).
  { intros w (pc & i & Hpc & Hi & Hin)%Hw. by eapply flows_ways; [apply Hfl|]. }
  simpl. destruct (MayFallThrough o) eqn:E1; [by destruct (Hways WFall)|].
  destruct (MayReturnRegisterA o) eqn:E2; [by destruct (Hways WRegisterA)|].
  destruct (MayJumpToKnownOffsetBeyondFragment o) eqn:E3; [by destruct (Hways WBeyond)|].
  assert (H4 : MayReturnImmediate o ⊆ R') by (intros k Hk; by apply HR, (Hways (WImmediate k))).
  rewrite (bool_decide_true (MayReturnImmediate o ⊆ R')) by done.
  rewrite (bool_decide_true (set_Forall _ _)) by (intros l Hl; by apply HL, (Hways (WLabel l))).
  unfold MayReturn. rewrite E2, orb_false_r. simpl.
  case_bool_decide as E5; [|done]. subst R'. by rewrite bool_decide_false by set_solver.
Qed.

Lemma renders_check f reg L R L' R' sem :
  renders false f reg L R sem → L ⊆ L' → R ⊆ R' →
  renders false (recording (λ frag, f ;> MustHaveJumpedToOrReturned frag L' R')) reg L R sem.
Proof.
  intros Hf HL HR b Hok Hfresh HLu.
  destruct (Hf b Hok Hfresh HLu) as (b' & Hb' & Hfr). exists b'. split; [|done].
  unfold recording, prog_seq. rewrite Hb'. apply (check_passes b' _ L R); try done; apply Hfr.
Qed.

(** *** Blocks *)

(** Running [blk] with [A = a]; [None] for a load out of bounds. *)
Fixpoint block_exec (fuel : nat) (blk : list code) (a : Z) : option exit :=
  match fuel with
  | O => None
  | S fuel' =>
      match blk with
      | [] => Some (XFall a)
      | BLoad off :: blk' => v ← load32 e inp off; block_exec fuel' blk' v
      | BAnd k :: blk' => block_exec fuel' blk' (a .& k)
      | BCond c k jt jf :: blk' =>
          block_exec fuel' (drop (if cond_holds c a k then jt else jf) blk') a
      | BJump l :: _ => Some (XLabel l a)
      | BRet v :: _ => Some (XReturn v)
      end
  end.

End Logic.

(** What adding one instruction or jump changes. *)
Record grows (b : ProgramBuilder) (blk : list code) (b' : ProgramBuilder) : Prop := mkGrows {
  gr_ok : builder_ok b';
  gr_ext : extends b b';
  gr_insns : instructions b' = instructions b ++ (code_ins <$> blk);
  gr_jump k x t : blk !! k = Some x →
    jumpSourceToLabel b' !! mkSource (length (instructions b) + k) t = code_label x t;
  gr_tgt l : tgt b' l = tgt b l;
  gr_unusable : unusableLabels b' = unusableLabels b;
  gr_labels l : BJump l ∉ blk → labels b' !! l = labels b !! l
}.

Lemma no_jump_at_end b t :
  builder_ok b → jumpSourceToLabel b !! mkSource (length (instructions b)) t = None.
Proof.
  intros Hok. destruct (jumpSourceToLabel b !! _) as [l|] eqn:E; [|done].
  apply (bo_line _ Hok) in E. simpl in E. lia.
Qed.

Lemma append_grows b x :
  builder_ok b → (∀ l, x ≠ BJump l) → grows b [x] (append (code_ins x) b).
Proof.
  intros Hok Hx. split; try done.
  - apply (append_ok []); [by apply builder_ok_mid|]. intros t Ht. by apply not_elem_of_nil in Ht.
  - apply append_extends.
  - intros k y t Hk. destruct k; [|done]. injection Hk as <-. rewrite Nat.add_0_r. simpl.
    rewrite no_jump_at_end by done. destruct x; try done. by destruct (Hx l).
Qed.

Lemma addLabelSource_other l t b b' l' :
  addLabelSource l t b = Some b' → l' ≠ l → labels b' !! l' = labels b !! l'.
Proof.
  unfold addLabelSource. destruct (jumpSourceToLabel b !! _); [done|]. intros [= <-] Hne. simpl.
  by rewrite lookup_insert_ne.
Qed.

Lemma jump_grows b l :
  builder_ok b → ∃ b', AddDirectJumpLabel l b = Some b' ∧ grows b [BJump l] b'.
Proof.
  intros Hok. unfold AddDirectJumpLabel.
  destruct (addLabelSource_spec [] l JumpDirect b) as (b1 & Hb1 & Hm & Hr);
    [by apply builder_ok_mid|apply not_elem_of_nil|].
  rewrite Hb1. simpl. eexists. split; [done|].
  destruct (references_extends _ _ _ _ Hr) as [He Hi].
  change (AddJump (Op.Jmp .| Op.Ja) labelDirectTarget 0 0 b1)
    with (append (code_ins (BJump l)) b1).
  split; simpl.
  - apply (append_ok _ _ _ Hm). intros t ->%list_elem_of_singleton. done.
  - etrans; [exact He|apply append_extends].
  - by rewrite Hi.
  - intros k y t Hk. destruct k; [|done]. injection Hk as <-. rewrite Nat.add_0_r.
    rewrite (ref_jump _ _ _ _ Hr). destruct t; simpl; [by rewrite lookup_insert_eq|..];
      rewrite lookup_insert_ne by done; by apply no_jump_at_end.
  - apply Hr.
  - apply Hr.
  - intros l' Hl'. apply (addLabelSource_other _ _ _ _ _ Hb1). set_solver.
Qed.

Lemma grows_trans b x b1 blk b2 : grows b [x] b1 → grows b1 blk b2 → grows b (x :: blk) b2.
Proof.
  intros [H1 H2 H3 H4 H5 H6 H7] [G1 G2 G3 G4 G5 G6 G7]. split; try done.
  - by etrans.
  - rewrite G3, H3, <- app_assoc. done.
  - intros k y t Hk. destruct k as [|k]; simpl in Hk.
    + injection Hk as <-. rewrite (ext_jump _ _ G2); [by apply H4|].
      rewrite H3, length_app. simpl. lia.
    + rewrite <- (G4 k y t Hk), H3, length_app. simpl. do 2 f_equal. lia.
  - intros l. by rewrite G5.
  - congruence.
  - intros l Hl. rewrite G7, H7 by set_solver. done.
Qed.

Lemma code_run_grows b x : builder_ok b → ∃ b', code_run x b = Some b' ∧ grows b [x] b'.
Proof.
  intros Hok. destruct x; try (eexists; split; [done|]; by apply append_grows).
  by apply jump_grows.
Qed.

Lemma block_run_grows blk b : builder_ok b → ∃ b', block_run blk b = Some b' ∧ grows b blk b'.
Proof.
  revert b. induction blk as [|x blk IH]; intros b Hok; simpl.
  - exists b. split; [done|]. split; try done. by rewrite app_nil_r.
  - destruct (code_run_grows b x Hok) as (b1 & Hb1 & Hg1).
    destruct (IH b1 (gr_ok _ _ _ Hg1)) as (b2 & Hb2 & Hg2). exists b2.
    split; [unfold prog_seq; by rewrite Hb1|]. by eapply grows_trans.
Qed.

(** Each instruction of a block that fits flows. *)
Lemma block_fits_lookup open blk L R k x :
  block_fits open blk L R → blk !! k = Some x →
  code_fits x (length blk - S k + if open then 1 else 0) L R.
Proof.
  revert k. induction blk as [|y blk IH]; intros k Hf Hk; [done|]. destruct Hf as [Hy Hf].
  destruct k as [|k]; simpl in *.
  - injection Hk as ->. by rewrite Nat.sub_0_r.
  - by apply IH.
Qed.

Lemma code_fits_flows (open : bool) b blk b' L R k x :
  grows b blk b' → (∀ l, l ∈ L → tgt b' l = None) → blk !! k = Some x →
  code_fits x (length blk - S k + if open then 1 else 0) L R →
  ins_flows b' (end_bound open b') L R (length (instructions b) + k) (code_ins x).
Proof.
  intros Hg HL Hk Hfit. pose proof (lookup_lt_Some _ _ _ Hk) as Hlt.
  assert (Hn : end_bound open b' = length (instructions b) + length blk + if open then 1 else 0).
  { unfold end_bound. rewrite (gr_insns _ _ _ Hg), length_app, length_fmap. destruct open; lia. }
  pose proof (gr_jump _ _ _ Hg k x) as Hj. unfold ins_flows. rewrite Hn.
  destruct x as [off|c0|c c0 jt jf|l|v]; simpl in Hfit.
  - change (IsReturn _) with false. change (IsJump _) with false. simpl. lia.
  - change (IsReturn _) with false. change (IsJump _) with false. simpl. lia.
  - assert (IsReturn (code_ins (BCond c c0 jt jf)) = false) as -> by (by destruct c).
    assert (IsJump (code_ins (BCond c c0 jt jf)) = true) as -> by (by destruct c).
    intros o Ho. unfold target_in. rewrite Hj by done. simpl.
    pose proof (JumpOffsets_field _ _ Ho) as HO. rewrite HO.
    assert (JumpOffsets (code_ins (BCond c c0 jt jf)) =
      [mkJumpOffset JumpTrue (Z.of_nat jt); mkJumpOffset JumpFalse (Z.of_nat jf)]) as Hoff
      by (by destruct c).
    rewrite Hoff in Ho. apply elem_of_cons in Ho as [-> | Ho]; [simpl; lia|].
    apply list_elem_of_singleton in Ho as ->. simpl. lia.
  - change (IsReturn _) with false. change (IsJump _) with true. simpl.
    intros o ->%list_elem_of_singleton. unfold target_in. simpl. rewrite (Hj JumpDirect) by done.
    simpl. by rewrite HL.
  - change (IsReturn _) with true. simpl. by destruct Hfit.
Qed.

Lemma u8_of_nat n : n < 256 → in_u8 (Z.of_nat n).
Proof. unfold in_u8. lia. Qed.

(** An opcode that needs no further check. *)
Definition plain_opcode (op : Z) : bool :=
  bool_decide (op ∈ known_opcodes) && negb (bool_decide (op ∈ mem_opcodes)) &&
  negb (bool_decide (op ∈ divK_opcodes)) && (0 <=? op)%Z && (op <? 256)%Z.

Lemma plain_ins_ok op jt jf k :
  plain_opcode op = true → in_u8 jt → in_u8 jf → in_u32 k → ins_ok (mkIns op jt jf k).
Proof.
  unfold plain_opcode. intros H Ht Hf Hk. to_prop.
  repeat match goal with H : bool_decide _ = _ |- _ =>
    first [apply bool_decide_eq_true in H|apply bool_decide_eq_false in H] end.
  split; simpl; try done. split_and!; try done. unfold in_u16. simpl. lia.
Qed.

Lemma code_fits_ok x room L R : code_fits x room L R → render_ins (code_ins x).
Proof.
  assert (H0 : in_u8 0) by (unfold in_u8; lia).
  assert (HM : in_u32 labelDirectTarget) by (unfold in_u32, labelDirectTarget; lia).
  intros Hf. split; [|by destruct x as [| |[]| |]].
  destruct x as [off|k|c k jt jf|l|v]; simpl in Hf; apply plain_ins_ok; try done;
    try (destruct c; reflexivity); try (apply u8_of_nat); apply Hf.
Qed.

(** The resolved form of an instruction without labels is itself. *)
Lemma resolve_unlabelled B pc i :
  (∀ t, jumpSourceToLabel B !! mkSource pc t = None) → resolve_ins B pc i = i.
Proof.
  intros H. apply instruction_ext; [done|]. intros t. rewrite resolve_ins_field.
  unfold source_target. by rewrite H.
Qed.

Section Blocks.
Context (e : Endianness) (inp : Input).
Context (open : bool) (blk : list code) (L : list string) (R : gset Z).
Context (Hfits : block_fits open blk L R).
Context (b b' B : ProgramBuilder) (Hg : grows b blk b').
Context (HB : extends b' B) (HokB : builder_ok B) (Hr : resolvable B).

Lemma block_step k x m :
  blk !! k = Some x → 
  eval e inp (resolved B) (length (instructions b) + k) m =
  step_with e inp (resolved B) (eval e inp (resolved B)) (length (instructions b) + k) m ∧
  resolved B !! (length (instructions b) + k) =
    Some (resolve_ins B (length (instructions b) + k) (code_ins x)).
Proof.
  intros Hk. split; [apply eval_unfold|]. unfold resolved. rewrite list_lookup_imap.
  assert (instructions b' !! (length (instructions b) + k) = Some (code_ins x)) as Hi.
  { rewrite (gr_insns _ _ _ Hg), lookup_app_r, Nat.add_sub' by lia.
    by rewrite list_lookup_fmap, Hk. }
  by rewrite (prefix_lookup_Some _ _ _ _ Hi (ext_insns _ _ HB)).
Qed.

Lemma block_jump k x t :
  blk !! k = Some x →
  jumpSourceToLabel B !! mkSource (length (instructions b) + k) t = code_label x t.
Proof.
  intros Hk. rewrite (ext_jump _ _ HB); [by apply Hg|]. simpl.
  rewrite (gr_insns _ _ _ Hg), length_app, length_fmap. apply lookup_lt_Some in Hk. lia.
Qed.

(** Evaluating a block is running it in the final program. *)
Lemma block_exec_exits fuel k m x :
  k ≤ length blk → block_exec e inp fuel (drop k blk) (mA m) = Some x →
  exits e inp (resolved B) B (length (instructions b) + length blk)
    (length (instructions b) + k) m x.
Proof.
  revert k m. induction fuel as [|fuel IH]; intros k m Hk Hx; [done|]. simpl in Hx.
  destruct (drop k blk) as [|y rest] eqn:Hd.
  { injection Hx as <-. simpl. assert (length blk ≤ k).
    { apply (f_equal length) in Hd. rewrite length_drop in Hd. simpl in Hd. lia. }
    replace k with (length blk) by lia. by destruct m. }
  assert (Hy : blk !! k = Some y) by (rewrite <- (Nat.add_0_r k), <- lookup_drop; by rewrite Hd).
  assert (Hrest : rest = drop (S k) blk).
  { rewrite <- Nat.add_1_r, <- drop_drop, Hd. done. }
  pose proof (lookup_lt_Some _ _ _ Hy) as Hlt.
  pose proof (block_fits_lookup _ _ _ _ _ _ Hfits Hy) as Hfit.
  destruct (block_step k y m Hy) as [Hev Hi]. unfold step_with in Hev. rewrite Hi in Hev.
  assert (Hres : (∀ l, y ≠ BJump l) → resolve_ins B (length (instructions b) + k) (code_ins y) = code_ins y).
  { intros Hny. apply resolve_unlabelled. intros t. rewrite (block_jump k y t Hy).
    destruct y; try done. by destruct (Hny l). }
  assert (Hexits : ∀ pc' m' x', eval e inp (resolved B) (length (instructions b) + k) m =
      eval e inp (resolved B) pc' m' → (∀ a, set_A m' a = set_A m a) →
      exits e inp (resolved B) B (length (instructions b) + length blk) pc' m' x' →
      exits e inp (resolved B) B (length (instructions b) + length blk) (length (instructions b) + k) m x').
  { intros pc' m' x' He HA. destruct x'; simpl; by rewrite He, ?HA. }
  destruct y as [off|c0|c c0 jt jf|l|v]; rewrite ?Hres in Hev by done.
  - change (exec_ins e inp (code_ins (BLoad off)) m)
      with (load_to (set_A m) (load32 e inp off)) in Hev. unfold load_to in Hev.
    destruct (load32 e inp off) as [v|]; simpl in Hx; [|done].
    eapply Hexits; [exact Hev|done|]. rewrite <- Nat.add_succ_r. apply IH; [lia|].
    by rewrite <- Hrest.
  - change (exec_ins e inp (code_ins (BAnd c0)) m) with (Cont (set_A m (mA m .& c0)%Z)) in Hev.
    eapply Hexits; [exact Hev|done|]. rewrite <- Nat.add_succ_r. apply IH; [lia|].
    by rewrite <- Hrest.
  - assert (exec_ins e inp (code_ins (BCond c c0 jt jf)) m =
      JumpBy (if cond_holds c (mA m) c0 then jt else jf)) as Hex.
    { rewrite <- (Nat2Z.id jt), <- (Nat2Z.id jf) at 2.
      destruct c; unfold exec_ins, conditionalJumpOffset; simpl; by case_if. }
    rewrite Hex in Hev. eapply Hexits; [exact Hev|done|].
    simpl in Hfit. set (o := if cond_holds c (mA m) c0 then jt else jf) in *.
    assert (o < length blk - S k + if open then 1 else 0) by (subst o; case_if; lia).
    replace (S (length (instructions b) + k + o)) with (length (instructions b) + (S k + o)) by lia.
    apply IH; [destruct open; lia|]. by rewrite <- drop_drop, <- Hrest.
  - injection Hx as <-.
    assert (HiB : instructions B !! (length (instructions b) + k) = Some (code_ins (BJump l))).
    { eapply prefix_lookup_Some; [|apply HB]. rewrite (gr_insns _ _ _ Hg), lookup_app_r, Nat.add_sub' by lia.
      by rewrite list_lookup_fmap, Hy. }
    pose proof (resolved_field B _ _ JumpDirect HokB Hr HiB) as Hf.
    rewrite (block_jump k _ JumpDirect Hy) in Hf. destruct Hf as (d & Hd' & _ & Hsd).
    exists d. split; [done|]. 
    change (exec_ins e inp (resolve_ins B (length (instructions b) + k) (code_ins (BJump l))) m)
      with (JumpBy (Z.to_nat (jump_field JumpDirect (resolve_ins B (length (instructions b) + k) (code_ins (BJump l)))))) in Hev.
    rewrite Hev, Hsd. by destruct m.
  - injection Hx as <-. exact Hev.
Qed.

End Blocks.

(** No label of its own. *)
Definition no_labels (l : string) : Prop := False.

Lemma no_labels_none l : ¬ no_labels l.
Proof. by intros []. Qed.

#[export] Hint Resolve no_labels_none : core.

Lemma grows_forward b blk b' :
  grows b blk b' → (∀ l, BJump l ∈ blk → unplaced b' l) → forward b → forward b'.
Proof.
  intros Hg Hun [H1 H2 H3].
  assert (Hnew : ∀ s l, jumpSourceToLabel b' !! s = Some l →
    jumpSourceToLabel b !! s = Some l ∨ jt s = JumpDirect ∧ BJump l ∈ blk).
  { intros [pc t] l Hs. destruct (decide (pc < length (instructions b))) as [Hlt|Hge].
    - left. by rewrite <- (ext_jump _ _ (gr_ext _ _ _ Hg)).
    - right. pose proof (bo_line _ (gr_ok _ _ _ Hg) _ _ Hs) as Hl. simpl in Hl.
      rewrite (gr_insns _ _ _ Hg), length_app, length_fmap in Hl.
      destruct (lookup_lt_is_Some_2 blk (pc - length (instructions b))) as [x Hx]; [lia|].
      pose proof (gr_jump _ _ _ Hg _ _ t Hx) as Hj.
      replace (length (instructions b) + (pc - length (instructions b))) with pc in Hj by lia.
      rewrite Hs in Hj. apply list_elem_of_lookup_2 in Hx.
      destruct x, t; try done. injection Hj as ->. done. }
  split.
  - intros s l [Hs|[Hs _]]%Hnew; [by eapply H1|done].
  - intros s l t [Hs|[_ Hs]]%Hnew Ht.
    + rewrite (gr_tgt _ _ _ Hg) in Ht. by eapply H2.
    + destruct (Hun l Hs) as [Hn _]. congruence.
  - intros l Hl Hu. destruct (decide (BJump l ∈ blk)) as [Hin|Hni]; [by destruct (Hun l Hin)|].
    rewrite (gr_labels _ _ _ Hg) in Hl by done. rewrite (gr_unusable _ _ _ Hg) in Hu. by apply (H3 l).
Qed.

Lemma renders_block e inp open blk L R (sem : Z → exit → Prop) :
  blk ≠ [] → block_fits open blk L R →
  (∀ a, ∃ x, block_exec e inp (S (length blk)) blk a = Some x ∧ sem a x) →
  renders e inp open (block_run blk) no_labels L R sem.
Proof.
  intros Hne Hfits Hsem b Hok _ HL.
  destruct (block_run_grows blk b Hok) as (b' & Hb' & Hg). exists b'. split; [done|].
  assert (Hlen : length (instructions b') = length (instructions b) + length blk)
    by (by rewrite (gr_insns _ _ _ Hg), length_app, length_fmap).
  assert (Hlook : ∀ pc i, length (instructions b) ≤ pc → instructions b' !! pc = Some i →
    ∃ k x, pc = length (instructions b) + k ∧ blk !! k = Some x ∧ i = code_ins x).
  { intros pc i Hpc Hi. rewrite (gr_insns _ _ _ Hg), lookup_app_r in Hi by done.
    rewrite list_lookup_fmap in Hi. destruct (blk !! _) as [x|] eqn:Hx; [|done].
    injection Hi as <-. eexists _, x. split; [|done]. lia. }
  assert (Hunp : ∀ l, l ∈ L → unplaced b' l).
  { intros l Hl. destruct (HL l Hl) as [[H1 H2] _].
    split; [by rewrite (gr_tgt _ _ _ Hg)|by rewrite (gr_unusable _ _ _ Hg)]. }
  assert (Hin : ∀ l, BJump l ∈ blk → l ∈ L).
  { intros l [k Hk]%list_elem_of_lookup. exact (block_fits_lookup _ _ _ _ _ _ Hfits Hk). }
  assert (0 < length blk) by (destruct blk; simpl; [done|lia]).
  split; try apply Hg.
  - lia.
  - intros l _ HlL. split; [apply Hg; auto|]. by rewrite (gr_unusable _ _ _ Hg).
  - done.
  - intros l HlL Hn [lab Hs]. rewrite (gr_labels _ _ _ Hg) in Hs by auto. congruence.
  - intros pc i Hpc Hi. destruct (Hlook pc i) as (k & x & -> & Hk & ->); [lia|done|].
    apply (code_fits_flows _ _ _ _ _ _ _ _ Hg); [intros l Hl; by apply Hunp|done|].
    by eapply block_fits_lookup.
  - intros pc i Hpc Hi. destruct (Hlook pc i Hpc Hi) as (k & x & -> & Hk & ->).
    eapply code_fits_ok. by eapply block_fits_lookup.
  - intros B m HB HokB Hr. destruct (Hsem (mA m)) as (x & Hx & Hsx). exists x. split; [done|].
    rewrite Hlen. rewrite <- (Nat.add_0_r (length (instructions b))) at 2.
    by eapply block_exec_exits; [..|lia|].
  - apply (grows_forward _ _ _ Hg). auto.
Qed.

Lemma renders_ext e inp open f g reg L R sem :
  (∀ b, f b = g b) → renders e inp open f reg L R sem → renders e inp open g reg L R sem.
Proof. intros Heq Hf b H1 H2 H3. rewrite <- Heq. by apply Hf. Qed.

(** The labels to jump to are not among those to be placed. *)
Lemma renders_disjoint e inp open f reg L R sem :
  ((∀ l, l ∈ L → ¬ reg l) → renders e inp open f reg L R sem) →
  renders e inp open f reg L R sem.
Proof. intros H b H1 H2 H3. apply H; [|done..]. intros l Hl. by destruct (H3 l Hl). Qed.

(** The code of an action is the block [blk]. *)
Ltac same_code :=
  let b := fresh "b" in
  intros b; cbv [block_run code_run code_ins prog_seq skip SP.Stmt SP.JumpTo SP.If SP.IfNot SP.Ret
    AddStmt AddJump append mbind option_bind HalfRender value_Render LoadHigh32Bits LoadLow32Bits
    skipOneInst cond_op Instr.Stmt Instr.Jump Z.of_nat Pos.of_succ_nat];
  repeat (match goal with
          | |- context [AddDirectJumpLabel ?l ?b1] => destruct (AddDirectJumpLabel l b1)
          end; cbv [set_instructions]); reflexivity.

(** ** Linking *)

Lemma prog_seq_assoc (f g h : prog) b : ((f ;> g) ;> h) b = (f ;> g ;> h) b.
Proof. unfold prog_seq. by destruct (f b). Qed.

Lemma prog_seq_ext (f f' g g' : prog) b :
  (∀ b, f b = f' b) → (∀ b, g b = g' b) → (f ;> g) b = (f' ;> g') b.
Proof. intros Hf Hg. unfold prog_seq. rewrite Hf. destruct (f' b); [apply Hg|done]. Qed.

Lemma prog_seq_skip (f : prog) b : (f ;> skip) b = f b.
Proof. unfold prog_seq. by destruct (f b). Qed.

Section Linking.
Context (e : Endianness) (inp : Input).

(** Leaving by [next], which is placed in front of the second part, goes on with it. *)
Definition sem_link (next : string) (sem1 sem2 : Z → exit → Prop) (a : Z) (x : exit) : Prop :=
  (∃ a', (sem1 a (XLabel next a') ∨ sem1 a (XFall a')) ∧ sem2 a' x) ∨
  (sem1 a x ∧ is_fall x = false ∧ ∀ a', x ≠ XLabel next a').

Lemma renders_link open1 open f g next reg1 reg2 L R sem1 sem2 :
  renders e inp open1 f reg1 (next :: L) R sem1 → renders e inp open g reg2 L R sem2 →
  ¬ reg1 next → next ∉ L → ¬ reg2 next → (∀ l, reg1 l → ¬ reg2 l) →
  renders e inp open (f ;> SP.Label next ;> g) (λ l, reg1 l ∨ l = next ∨ reg2 l) L R
    (sem_link next sem1 sem2).
Proof.
  intros Hf Hg H1 H2 H3 H4. eapply renders_ext; [intros b; apply prog_seq_assoc|].
  eapply (renders_mono _ _ open); [eapply renders_seq| | | | |].
  - eapply renders_label; [exact Hf|done..].
  - exact Hg.
  - intros l [Hl | ->]; auto.
  - done.
  - simpl. intros l. tauto.
  - done.
  - done.
  - intros a x [(a' & [(a2 & Hs & [= ->])|[Hs _]] & Hx)|[[(a' & Hs & ->)|[Hs Hne]] Hfall]].
    + left. eauto.
    + left. eauto.
    + done.
    + by right.
Qed.

(** *** Going to a label *)

Definition goto (l : string) (a : Z) (x : exit) : Prop := ∃ a', x = XLabel l a'.

Lemma link_through next l a x : sem_link next (goto next) (goto l) a x → goto l a x.
Proof.
  intros [(a' & _ & Hx)|(Hx & _ & Hn)]; [done|]. destruct Hx as [a' ->]. by destruct (Hn a').
Qed.

Lemma link_past next l sem a x : l ≠ next → sem_link next (goto l) sem a x → goto l a x.
Proof. by intros Hne [(a' & [[a2 [= Hx]]|[a2 Hx]] & _)|(Hx & _ & Hn)]. Qed.

End Linking.
