(* ===== verification/RuleFacts.v ===== *)
(** * The meaning of rules, and the correctness of their code

    [half_matches], [value_matches] and [rule_matches] say which values and which system calls
    a matcher or a rule accepts.  The code a rule renders does not panic while it is rendered
    and goes to the label for a match exactly when the rule accepts the system call. *)

From stdpp Require Import base numbers decidable strings pretty gmap list.
From S2P Require Import Prelude Instr Machine MachineFacts OptBase Builder BuilderFacts.
From S2P Require Import SeccompAbi SeccompRules Fragments Labels.

Local Open Scope Z_scope.
Local Open Scope bits_scope.
Local Open Scope prog_scope.
Local Set Warnings "-register-all".

(** ** Meaning *)

Definition half_matches (h : halfValueMatcher) (v : Z) : bool :=
  match h with
  | halfAnyValue => true
  | halfEqualTo k => v =? k
  | halfNotSet k => v .& k =? 0
  | halfMaskedEqual mask value => v .& mask =? value
  | invalidHalfValueMatcher => false
  end.

Definition split_matches (sm : splitMatcher) (v : Z) : bool :=
  half_matches (highMatcher sm) (high32Bits v) && half_matches (lowMatcher sm) (low32Bits v).

Definition value_matches (vm : ValueMatcher) (v : Z) : bool :=
  match vm with
  | AnyValue => true
  | EqualTo k => v =? k
  | NotEqual k => negb (v =? k)
  | GreaterThan k => v >? k
  | GreaterThanOrEqual k => v >=? k
  | LessThan k => v <? k
  | LessThanOrEqual k => v <=? k
  | NonNegativeFD => v <? 2 ^ 31
  | maskedEqual mask value => v .& mask =? value
  | Split sm => split_matches sm v
  | invalidValueMatcher => false
  end.

(** The value that the [i]-th matcher of a [PerArg] is about. *)
Definition data_value (d : SeccompData) (i : nat) : Z :=
  if (i =? RuleIP)%nat then InstructionPointer d else default 0 (Args d !! i).

(** [pa] from index [i] on. *)
Fixpoint args_match (d : SeccompData) (i : nat) (pa : list (option ValueMatcher)) : bool :=
  match pa with
  | [] => true
  | arg :: pa' =>
      match arg with Some vm => value_matches vm (data_value d i) | None => true end &&
      args_match d (S i) pa'
  end.

Fixpoint rule_matches (r : SyscallRule) (d : SeccompData) : bool :=
  match r with
  | MatchAll => true
  | Or rules => existsb (λ r, rule_matches r d) rules
  | And rules => forallb (λ r, rule_matches r d) rules
  | PerArg pa => args_match d 0 pa
  end.

(** ** Well-formed rules *)

Definition half_ok (h : halfValueMatcher) : Prop :=
  match h with
  | halfAnyValue => True
  | halfEqualTo k | halfNotSet k => in_u32 k
  | halfMaskedEqual mask value => in_u32 mask ∧ in_u32 value
  | invalidHalfValueMatcher => False
  end.

Definition value_ok (vm : ValueMatcher) : Prop :=
  match vm with
  | AnyValue | NonNegativeFD => True
  | EqualTo k | NotEqual k | GreaterThan k | GreaterThanOrEqual k | LessThan k
  | LessThanOrEqual k => in_u64 k
  | maskedEqual mask value => in_u64 mask ∧ in_u64 value
  | Split sm => half_ok (highMatcher sm) ∧ half_ok (lowMatcher sm)
  | invalidValueMatcher => False
  end.

Definition arg_ok (arg : option ValueMatcher) : Prop :=
  match arg with Some vm => value_ok vm | None => True end.

(** No compound is empty, and all [PerArg]s of the rule satisfy [P]. *)
Inductive rule_with (P : list (option ValueMatcher) → Prop) : SyscallRule → Prop :=
  | MatchAll_with : rule_with P MatchAll
  | Or_with rules : rules ≠ [] → Forall (rule_with P) rules → rule_with P (Or rules)
  | And_with rules : rules ≠ [] → Forall (rule_with P) rules → rule_with P (And rules)
  | PerArg_with pa : P pa → rule_with P (PerArg pa).

Lemma SyscallRule_nested_ind (P : SyscallRule → Prop) :
  P MatchAll → (∀ rs, Forall P rs → P (Or rs)) → (∀ rs, Forall P rs → P (And rs)) →
  (∀ pa, P (PerArg pa)) → ∀ r, P r.
Proof.
  intros HM HO HA HP. fix IH 1. intros [|rs|rs|pa]; [exact HM| | |apply HP].
  - apply HO. induction rs; constructor; [apply IH|done].
  - apply HA. induction rs; constructor; [apply IH|done].
Qed.

Lemma rule_with_mono (P Q : list (option ValueMatcher) → Prop) r :
  (∀ pa, P pa → Q pa) → rule_with P r → rule_with Q r.
Proof.
  intros HPQ. induction r as [|rs IH|rs IH|pa] using SyscallRule_nested_ind; intros Hr;
    inversion_clear Hr as [|? Hne Hall|? Hne Hall|? HP]; constructor; auto;
    rewrite Forall_forall in *; eauto.
Qed.

(** The widths of Go's types, and the length of [PerArg]. *)
Definition args_ok (pa : list (option ValueMatcher)) : Prop :=
  length pa = S RuleIP ∧ Forall arg_ok pa.

Definition rule_ok : SyscallRule → Prop := rule_with args_ok.

(** The width of the data. *)
Definition data_ok (d : SeccompData) : Prop :=
  in_u64 (InstructionPointer d) ∧ length (Args d) = 6%nat ∧ Forall in_u64 (Args d).

(** ** Halves *)

Lemma high_range v : in_u32 (high32Bits v).
Proof. apply wrap32_range. Qed.

Lemma low_range v : in_u32 (low32Bits v).
Proof. apply wrap32_range. Qed.

#[export] Hint Resolve high_range low_range : bpf.

Lemma high_low v : in_u64 v → v = 2 ^ 32 * high32Bits v + low32Bits v.
Proof.
  unfold in_u64, high32Bits, low32Bits, wrap32. intros Hv.
  rewrite Z.shiftr_div_pow2 by lia. rewrite (Z.mod_small (v / 2 ^ 32)).
  - rewrite (Z.div_mod v (2 ^ 32)) at 1 by lia. done.
  - split; [apply Z.div_pos; lia|apply Z.div_lt_upper_bound; lia].
Qed.

Lemma halves_eq v k :
  in_u64 v → in_u64 k → (high32Bits v =? high32Bits k) && (low32Bits v =? low32Bits k) = (v =? k).
Proof.
  intros Hv Hk. apply high_low in Hv, Hk.
  destruct (Z.eqb_spec v k) as [->|Hne]; [by rewrite !Z.eqb_refl|].
  apply andb_false_iff. rewrite !Z.eqb_neq.
  destruct (Z.eq_dec (high32Bits v) (high32Bits k)); [right|by left]. congruence.
Qed.

Lemma high_land v k : high32Bits (v .& k) = high32Bits v .& high32Bits k.
Proof.
  unfold high32Bits, wrap32. rewrite <- !Z.land_ones, Z.shiftr_land by lia.
  apply Z.bits_inj'. intros n Hn. rewrite !Z.land_spec.
  by destruct (Z.testbit (Z.ones 32) n); rewrite ?andb_true_r, ?andb_false_r.
Qed.

Lemma low_land v k : low32Bits (v .& k) = low32Bits v .& low32Bits k.
Proof.
  unfold low32Bits, wrap32. rewrite <- !Z.land_ones by lia.
  apply Z.bits_inj'. intros n Hn. rewrite !Z.land_spec.
  by destruct (Z.testbit (Z.ones 32) n); rewrite ?andb_true_r, ?andb_false_r.
Qed.

Lemma u64_land a b : in_u64 a → in_u64 b → in_u64 (a .& b).
Proof.
  unfold in_u64. intros Ha Hb. split; [apply Z.land_nonneg; lia|].
  pose proof (land_le_r a b). lia.
Qed.

Lemma sign_bit_clear v : in_u32 v → (v .& 2 ^ 31 =? 0) = (v <? 2 ^ 31).
Proof.
  unfold in_u32. intros Hv.
  assert (Hb : v .& 2 ^ 31 = if Z.testbit v 31 then 2 ^ 31 else 0).
  { apply Z.bits_inj'. intros n Hn. rewrite Z.land_spec, Z.pow2_bits_eqb by lia.
    destruct (Z.eqb_spec 31 n) as [<-|Hne].
    - destruct (Z.testbit v 31); [by rewrite Z.pow2_bits_true by lia|done].
    - rewrite andb_false_r. destruct (Z.testbit v 31); [|by rewrite Z.bits_0].
      by rewrite Z.pow2_bits_false. }
  rewrite Hb, Z.testbit_eqb by lia.
  assert (v / 2 ^ 31 = if v <? 2 ^ 31 then 0 else 1) as ->.
  { case_if; to_prop; [apply Z.div_small; lia|].
    symmetry. apply (Z.div_unique_pos v (2 ^ 31) 1 (v - 2 ^ 31)); lia. }
  by destruct (v <? 2 ^ 31).
Qed.

Lemma split_correct vm sm v :
  split vm = Some sm → value_ok vm → in_u64 v → split_matches sm v = value_matches vm v.
Proof.
  intros Hs Hok Hv. unfold split in Hs. destruct vm; try discriminate Hs; apply (inj Some) in Hs;
    subst sm; unfold split_matches; cbn [highMatcher lowMatcher half_matches value_matches].
  - by apply halves_eq.
  - rewrite sign_bit_clear by apply low_range. pose proof (high_low v Hv) as Hhl.
    pose proof (high_range v) as Hh. pose proof (low_range v) as Hl. unfold in_u32 in *.
    apply eq_true_iff_eq. rewrite andb_true_iff, Z.eqb_eq, !Z.ltb_lt. nia.
  - destruct Hok as [Hm Hk]. rewrite <- high_land, <- low_land.
    apply halves_eq; [by apply u64_land|done].
Qed.

(** Comparing 64-bit values by halves, the way the matchers do. *)
Section Compare.
Context (v k : Z) (Hv : in_u64 v) (Hk : in_u64 k).

Ltac by_halves :=
  let H1 := fresh in let H2 := fresh in let H3 := fresh in
  let H4 := fresh in let H5 := fresh in let H6 := fresh in
  pose proof (high_low v Hv) as H1; pose proof (high_low k Hk) as H2;
  pose proof (high_range v) as H3; pose proof (high_range k) as H4;
  pose proof (low_range v) as H5; pose proof (low_range k) as H6; unfold in_u32 in *;
  apply eq_true_iff_eq; repeat case_if; to_prop;
  rewrite ?negb_true_iff, ?Z.gtb_lt, ?Z.geb_le, ?Z.ltb_lt, ?Z.leb_le, ?Z.geb_leb, ?Z.leb_gt in *;
  split; intros; try discriminate; try reflexivity; try lia.

Lemma gt_halves :
  (v >? k) = if high32Bits v >=? high32Bits k then
    if high32Bits v =? high32Bits k then low32Bits v >? low32Bits k else true else false.
Proof. by_halves. Qed.

Lemma ge_halves :
  (v >=? k) = if high32Bits v >=? high32Bits k then
    if high32Bits v =? high32Bits k then low32Bits v >=? low32Bits k else true else false.
Proof. by_halves. Qed.

Lemma lt_halves :
  (v <? k) = if high32Bits v >? high32Bits k then false
    else if high32Bits v =? high32Bits k then negb (low32Bits v >=? low32Bits k) else true.
Proof. by_halves. Qed.

Lemma le_halves :
  (v <=? k) = if high32Bits v >? high32Bits k then false
    else if high32Bits v =? high32Bits k then negb (low32Bits v >? low32Bits k) else true.
Proof. by_halves. Qed.

End Compare.

(** ** Code of the matchers *)

Section Code.
Context (e : Endianness) (inp : Input).

(** Both labels of a set. *)
Definition both (ls : labelSet) : list string := [Matched ls; Mismatched ls].

Definition verdict (ls : labelSet) (ok : bool) : string :=
  if ok then Matched ls else Mismatched ls.

Lemma HalfRender_correct h ls :
  half_ok h →
  renders e inp false (HalfRender h ls) no_labels (both ls) ∅
    (λ a, goto (verdict ls (half_matches h a)) a).
Proof.
  intros Hok. destruct h as [|k|k|mask value|]; [..|done]; simpl in Hok;
    unfold HalfRender, halfAnyValue_HalfRender, halfEqualTo_HalfRender, halfNotSet_HalfRender,
      halfMaskedEqual_HalfRender.
  - eapply (renders_ext _ _ _ (block_run [BJump (Matched ls)])); [same_code|].
    apply renders_block; [done|simpl; set_solver|]. intros a. eexists. split; [done|]. by eexists.
  - eapply (renders_ext _ _ _
      (block_run [BCond CEq k 0 1; BJump (Matched ls); BJump (Mismatched ls)])); [same_code|].
    apply renders_block; [done|simpl; split_and!; (done || lia || set_solver)|].
    intros a. simpl. destruct (a =? k); (eexists; split; [done|]; by eexists).
  - eapply (renders_ext _ _ _
      (block_run [BCond CSet k 0 1; BJump (Mismatched ls); BJump (Matched ls)])); [same_code|].
    apply renders_block; [done|simpl; split_and!; (done || lia || set_solver)|].
    intros a. simpl. destruct (a .& k =? 0); (eexists; split; [done|]; by eexists).
  - destruct Hok as [Hm Hv]. eapply (renders_ext _ _ _
      (block_run [BAnd mask; BCond CEq value 1 0; BJump (Mismatched ls); BJump (Matched ls)]));
      [same_code|].
    apply renders_block; [done|simpl; split_and!; (done || lia || set_solver)|].
    intros a. simpl. destruct (a .& mask =? value); (eexists; split; [done|]; by eexists).
Qed.

(** The halves of a matched value are where the value is loaded from. *)
Record holds_value (mv : matchedValue) (v : Z) : Prop := mkHoldsValue {
  hv_high : load32 e inp (dataOffsetHigh mv) = Some (high32Bits v);
  hv_low : load32 e inp (dataOffsetLow mv) = Some (low32Bits v);
  hv_high_range : in_u32 (dataOffsetHigh mv);
  hv_low_range : in_u32 (dataOffsetLow mv);
  hv_value : in_u64 v
}.

Lemma load_correct off v L R :
  load32 e inp off = Some v → in_u32 off →
  renders e inp true (SP.Stmt (Op.Ld .| Op.Abs .| Op.W) off) no_labels L R (λ _ x, x = XFall v).
Proof.
  intros Hl Hr. eapply (renders_ext _ _ _ (block_run [BLoad off])); [same_code|].
  apply renders_block; [done|simpl; split_and!; (done || lia)|].
  intros a. simpl. rewrite Hl. simpl. by eexists.
Qed.

Lemma load_half off v h ls :
  load32 e inp off = Some v → in_u32 off → half_ok h →
  renders e inp false (SP.Stmt (Op.Ld .| Op.Abs .| Op.W) off ;> HalfRender h ls) no_labels
    (both ls) ∅ (goto (verdict ls (half_matches h v))).
Proof.
  intros Hl Hr Hok. eapply (renders_mono _ _ false).
  - eapply renders_seq; [by apply load_correct|by apply HalfRender_correct|done].
  - done.
  - by intros l [|].
  - done.
  - done.
  - intros a x [(a' & [= ->] & Hx)|[-> Hx]]; [exact Hx|done].
Qed.
Lemma jump_correct l L R :
  l ∈ L → renders e inp false (SP.JumpTo l) no_labels L R (λ a x, x = XLabel l a).
Proof.
  intros Hl. eapply (renders_ext _ _ _ (block_run [BJump l])); [same_code|].
  apply renders_block; [done|done|]. intros a. by eexists.
Qed.

Lemma goto_correct l L R : l ∈ L → renders e inp false (SP.JumpTo l) no_labels L R (goto l).
Proof.
  intros Hl. eapply renders_mono; [by apply (jump_correct l)|done..|]. intros a x ->. by eexists.
Qed.

Lemma split_Render_correct sm ls mv v :
  half_ok (highMatcher sm) → half_ok (lowMatcher sm) → holds_value mv v →
  renders e inp false (split_Render sm ls mv) (makes ls) (both ls) ∅
    (goto (verdict ls (split_matches sm v))).
Proof.
  intros Hh Hl [Lh Ll Rh Rl _]. unfold split_Render, split_matches.
  destruct (is_halfAnyValue (highMatcher sm)) eqn:Eh, (is_halfAnyValue (lowMatcher sm)) eqn:El; simpl.
  - destruct (highMatcher sm), (lowMatcher sm); try discriminate. simpl.
    eapply renders_mono; [apply (goto_correct (Matched ls) (both ls))|..]; try done. by left.
  - destruct (highMatcher sm); try discriminate. simpl.
    eapply renders_mono; [by apply (load_half _ _ _ ls Ll)|done..].
  - destruct (lowMatcher sm); try discriminate. simpl. rewrite andb_true_r.
    eapply renders_mono; [by apply (load_half _ _ _ ls Lh)|done..].
  - apply renders_disjoint. intros Hdis. set (next := prefix ls +:+ "#" +:+ pretty (labelCounter ls)).
    assert (Hnext : makes ls next) by apply makes_new.
    set (ls' := (NewLabel ls).2).
    eapply renders_mono; [eapply (renders_link _ _ false false _ _ next no_labels no_labels (both ls) ∅)|..].
    + eapply renders_mono; [apply renders_check|..].
      * by apply (load_half _ _ _ (Push ls' "low" next (Mismatched ls)) Ll).
      * done.
      * done.
      * done.
      * done.
      * set_solver.
      * done.
      * done.
    + apply renders_check; [by apply (load_half _ _ _ (Push ls' "high" (Matched ls) (Mismatched ls)) Lh)|done..].
    + auto.
    + intros Hin. by destruct (Hdis next Hin).
    + auto.
    + auto.
    + done.
    + by intros l [[]|[-> |[]]].
    + done.
    + done.
    + intros a x Hx. unfold verdict in *. simpl in Hx.
      destruct (half_matches (lowMatcher sm) (low32Bits v)).
      * rewrite andb_true_r. by apply link_through in Hx.
      * rewrite andb_false_r. apply link_past in Hx; [done|].
        intros Heq. apply (Hdis next); [|done]. rewrite <- Heq. set_solver.
Qed.
(** An [If], or with [neg] an [IfNot]. *)
Definition test (neg : bool) (c : cond) (k : Z) : code :=
  if neg then BCond c k 1 0 else BCond c k 0 1.

Definition test_jumps (neg : bool) (c : cond) (a k : Z) : bool := xorb neg (cond_holds c a k).

Lemma exec_test neg c k l rest f a :
  block_exec e inp (S (S f)) (test neg c k :: BJump l :: rest) a =
  if test_jumps neg c a k then Some (XLabel l a) else block_exec e inp (S f) rest a.
Proof. unfold test, test_jumps. destruct neg; simpl; by destruct (cond_holds c a k). Qed.

Lemma exec_load off v rest f a :
  load32 e inp off = Some v →
  block_exec e inp (S f) (BLoad off :: rest) a = block_exec e inp f rest v.
Proof. intros H. simpl. by rewrite H. Qed.

(** The code of the comparisons: the high halves are compared first. *)
Lemma compare_block ls mv v k neg1 c1 neg2 c2 :
  holds_value mv v → in_u64 k →
  renders e inp false (block_run
    [BLoad (dataOffsetHigh mv);
     test neg1 c1 (high32Bits k); BJump (Mismatched ls);
     test true CEq (high32Bits k); BJump (Matched ls);
     BLoad (dataOffsetLow mv);
     test neg2 c2 (low32Bits k); BJump (Mismatched ls); BJump (Matched ls)])
    no_labels (both ls) ∅
    (goto (verdict ls
      (if test_jumps neg1 c1 (high32Bits v) (high32Bits k) then false
       else if high32Bits v =? high32Bits k then
         negb (test_jumps neg2 c2 (low32Bits v) (low32Bits k))
       else true))).
Proof.
  intros [Lh Ll Rh Rl Hv] Hk. apply renders_block; [done| |].
  - assert (Hh : in_u32 (high32Bits k)) by auto with bpf.
    assert (Hl : in_u32 (low32Bits k)) by auto with bpf.
    destruct neg1, neg2; simpl; split_and!; (done || lia || set_solver).
  - intros a. rewrite (exec_load _ _ _ _ _ Lh). simpl length. rewrite exec_test.
    case_if; [eexists; split; [done|]; by eexists|]. rewrite exec_test.
    assert (test_jumps true CEq (high32Bits v) (high32Bits k) = negb (high32Bits v =? high32Bits k))
      as -> by reflexivity.
    destruct (high32Bits v =? high32Bits k); [|eexists; split; [done|]; by eexists].
    cbn [negb]. rewrite (exec_load _ _ _ _ _ Ll), exec_test.
    case_if; (eexists; split; [done|]; by eexists).
Qed.

Ltac compare_code ls mv v k n1 c1 n2 c2 :=
  eapply renders_mono;
    [eapply renders_ext; cycle 1;
       [by apply (compare_block ls mv v k n1 c1 n2 c2)|cbv [test]; same_code]|done..|];
  unfold test_jumps; cbn [cond_holds]; rewrite ?xorb_true_l, ?xorb_false_l, ?negb_involutive;
  intros a x; first [exact id|by destruct (high32Bits v >=? high32Bits k)].

Lemma value_Render_correct vm ls mv v :
  value_ok vm → holds_value mv v → prefix ls ≠ "" →
  renders e inp false (value_Render vm ls mv) (makes ls) (both ls) ∅
    (goto (verdict ls (value_matches vm v))).
Proof.
  intros Hok Hmv HP. pose proof (hv_value _ _ Hmv) as Hv.
  assert (Hsplit : ∀ vm ls, value_ok vm → is_Some (split vm) →
    renders e inp false (renderSplittable vm ls mv) (makes ls) (both ls) ∅
      (goto (verdict ls (value_matches vm v)))).
  { clear - Hmv Hv. intros vm ls Hok [sm Hs]. unfold renderSplittable.
    rewrite <- (split_correct vm sm v) by done. rewrite Hs.
    apply split_Render_correct; try done; (destruct vm; try discriminate Hs);
      unfold split in Hs; apply (inj Some) in Hs; subst sm; simpl; auto with bpf;
      unfold in_u32; lia. }
  destruct vm as [|k|k|k|k|k|k| |mask value|sm|]; [..|done]; simpl value_matches;
    unfold value_Render, AnyValue_Render, NotEqual_Render, GreaterThan_Render,
      GreaterThanOrEqual_Render, LessThan_Render, LessThanOrEqual_Render.
  - eapply renders_mono; [apply (goto_correct (Matched ls) (both ls))|..]; try done. by left.
  - apply (Hsplit (EqualTo k)); [done|by eexists].
  - eapply renders_mono; [apply (Hsplit (EqualTo k) (Push ls "inverted" (Mismatched ls) (Matched ls)))|..];
      try done.
    + intros l Hl. apply makes_push in Hl as (s & -> & _); [|done]. right. by eexists.
    + set_solver.
    + intros a x. simpl. by destruct (v =? k).
  - rewrite gt_halves by done. compare_code ls mv v k true CGe true CGt.
  - rewrite ge_halves by done. compare_code ls mv v k true CGe true CGe.
  - rewrite lt_halves by done. compare_code ls mv v k false CGt false CGe.
  - rewrite le_halves by done. compare_code ls mv v k false CGt false CGt.
  - apply (Hsplit NonNegativeFD); [done|by eexists].
  - apply (Hsplit (maskedEqual mask value)); [done|by eexists].
  - by apply split_Render_correct; [apply Hok..|].
Qed.

(** ** Code of the rules *)

(** One iteration of the loops of [PerArg], [Or] and [And]: the code of the child goes on with
    the rest when [ok], and leaves for [out] otherwise. *)
Lemma chain_step suf `{!SuffixFamily suf} i ls m mm out (ok : bool) l2 child rest :
  let next := (NewLabel ls).1 in
  let ls' := (NewLabel ls).2 in
  prefix ls ≠ "" → out ∈ both ls → [m; mm] ⊆ [next; out] →
  renders e inp false child (makes (Push ls' (suf i) m mm)) [m; mm] ∅
    (goto (if ok then next else out)) →
  renders e inp false rest (loop_makes suf (S i) ls') (both ls) ∅ (goto l2) →
  renders e inp false
    (recording (λ frag, child ;> MustHaveJumpedTo frag [m; mm]) ;> SP.Label next ;> rest)
    (loop_makes suf i ls) (both ls) ∅ (goto (if ok then l2 else out)).
Proof.
  intros next ls' HP Hout Hmm Hc Hrest. apply renders_disjoint. intros Hdis.
  assert (Hnext : loop_makes suf i ls next) by apply loop_makes_new.
  eapply renders_mono; [eapply (renders_link _ _ false false _ _ next); [|exact Hrest|..]|..].
  - eapply renders_mono; [apply renders_check; [exact Hc|done..]|..]; try done.
    intros l [-> | ->%list_elem_of_singleton]%Hmm%elem_of_cons; [by left|by right].
  - by apply new_not_push.
  - intros Hin. by destruct (Hdis next).
  - apply loop_new_not_next.
  - intros l. by apply (loop_push_not_next suf i ls ls').
  - done.
  - intros l [Hl|[-> | Hl]]; [by eapply loop_makes_push|done|by apply loop_makes_next].
  - done.
  - done.
  - intros a x Hx. destruct ok; [by apply link_through in Hx|]. apply link_past in Hx; [done|].
    intros ->. by apply (Hdis next).
Qed.

(** The halves of all arguments and of the instruction pointer can be loaded. *)
Definition holds_args (d : SeccompData) : Prop :=
  ∀ i, (i ≤ RuleIP)%nat → holds_value (arg_value i) (data_value d i).

Section Rule.
Context (d : SeccompData) (Hd : holds_args d).

Lemma PerArg_loop_correct pa i ls :
  Forall arg_ok pa → (i + length pa = S RuleIP)%nat → prefix ls ≠ "" →
  renders e inp false (PerArg_loop i pa ls) (loop_makes arg_suffix i ls) (both ls) ∅
    (goto (verdict ls (args_match d i pa))).
Proof.
  intros Hok. revert i ls. induction Hok as [|arg pa Harg Hok IH]; intros i ls Hlen HP; simpl.
  - eapply renders_mono; [apply (goto_correct (Matched ls) (both ls)); by left|done..].
  - simpl in Hlen. destruct arg as [vm|]; simpl.
    + eapply renders_mono; [eapply (chain_step arg_suffix i ls _ _ (Mismatched ls)
        (value_matches vm (data_value d i))); [done|set_solver|done| |]|..]; try done.
      * eapply renders_mono; [apply (value_Render_correct vm (Push (NewLabel ls).2 (arg_suffix i)
          (NewLabel ls).1 (Mismatched ls)) (arg_value i) (data_value d i))|..]; try done.
        { apply Hd. unfold RuleIP in *. lia. }
        { by apply Push_prefix_ne. }
      * apply (IH (S i) (NewLabel ls).2); [lia|done].
      * intros a x. by destruct (value_matches vm (data_value d i)).
    + eapply renders_mono; [apply (IH (S i)); [lia|done]|..]; try done. apply loop_makes_skip.
Qed.

(** A rule renders correctly with every label set. *)
Definition rule_correct (r : SyscallRule) : Prop :=
  ∀ ls, prefix ls ≠ "" →
    renders e inp false (Render r ls) (makes ls) (both ls) ∅
      (goto (verdict ls (rule_matches r d))).

Lemma Or_loop_correct rs i ls :
  Forall rule_correct rs → prefix ls ≠ "" →
  renders e inp false (Or_loop Render i rs ls)
    (loop_makes (λ i, "or[" +:+ pretty i +:+ "]") i ls) (both ls) ∅
    (goto (verdict ls (existsb (λ r, rule_matches r d) rs))).
Proof.
  intros Hok. revert i ls. induction Hok as [|r rs Hr Hok IH]; intros i ls HP; simpl.
  - eapply renders_mono; [apply (goto_correct (Mismatched ls) (both ls)); set_solver|done..].
  - eapply renders_mono; [eapply (chain_step (λ i, "or[" +:+ pretty i +:+ "]") i ls _ _
      (Matched ls) (negb (rule_matches r d))); [done|set_solver|set_solver| |]|..]; try done.
    + eapply renders_mono; [apply Hr; by apply Push_prefix_ne|..]; try done.
      intros a x. simpl. by destruct (rule_matches r d).
    + by apply (IH (S i) (NewLabel ls).2).
    + intros a x. by destruct (rule_matches r d).
Qed.

Lemma And_loop_correct rs i ls :
  Forall rule_correct rs → prefix ls ≠ "" →
  renders e inp false (And_loop Render i rs ls)
    (loop_makes (λ i, "and[" +:+ pretty i +:+ "]") i ls) (both ls) ∅
    (goto (verdict ls (forallb (λ r, rule_matches r d) rs))).
Proof.
  intros Hok. revert i ls. induction Hok as [|r rs Hr Hok IH]; intros i ls HP; simpl.
  - eapply renders_mono; [apply (goto_correct (Matched ls) (both ls)); set_solver|done..].
  - eapply renders_mono; [eapply (chain_step (λ i, "and[" +:+ pretty i +:+ "]") i ls _ _
      (Mismatched ls) (rule_matches r d)); [done|set_solver|set_solver| |]|..]; try done.
    + eapply renders_mono; [apply Hr; by apply Push_prefix_ne|..]; try done.
    + by apply (IH (S i) (NewLabel ls).2).
    + intros a x. by destruct (rule_matches r d).
Qed.

Lemma Render_correct r : rule_ok r → rule_correct r.
Proof.
  induction r as [|rs IH|rs IH|pa] using SyscallRule_nested_ind; intros Hok ls HP.
  - eapply renders_mono; [apply (goto_correct (Matched ls) (both ls)); set_solver|done..].
  - inversion_clear Hok as [|? Hne Hall| |]. assert (Hcs : Forall rule_correct rs).
    { apply (Forall_impl (λ r, rule_ok r ∧ (rule_ok r → rule_correct r))); [|tauto].
      by apply Forall_and. }
    destruct rs as [|r rs]; [done|].
    eapply renders_mono; [by apply (Or_loop_correct (r :: rs) 0 ls)|..]; try done.
    apply loop_makes_start.
  - inversion_clear Hok as [| |? Hne Hall|]. assert (Hcs : Forall rule_correct rs).
    { apply (Forall_impl (λ r, rule_ok r ∧ (rule_ok r → rule_correct r))); [|tauto].
      by apply Forall_and. }
    destruct rs as [|r rs]; [done|].
    eapply renders_mono; [by apply (And_loop_correct (r :: rs) 0 ls)|..]; try done.
    apply loop_makes_start.
  - inversion_clear Hok as [| | |? [Hlen Hall]].
    eapply renders_mono; [by apply (PerArg_loop_correct pa 0 ls)|..]; try done.
    apply loop_makes_start.
Qed.

End Rule.
End Code.
