(* ===== verification/RuleOpt.v ===== *)
(** * The optimizer of syscall rules (src/pkg/seccomp/seccomp_optimizer.go)

    The optimizer functions, their application to a tree of rules and the loop that runs them
    until none applies.  [None] is a Go panic (the signature of a [PerArg] with a nil matcher)
    or a loop that does not end within its fuel.

    Rules are values here.  In Go [Recurse] updates the slices of [Or] and [And] in place, so
    the rules passed to the optimizer are themselves replaced by their optimized form. *)

From Stdlib Require Import Ascii.
From stdpp Require Import base numbers decidable strings pretty gmap list.
From S2P Require Import Prelude Instr Builder SeccompRules.

Local Open Scope Z_scope.

(** A [ruleOptimizerFunc]: the new rule, and whether it changed. *)
Definition ruleOptimizerFunc : Type := SyscallRule → option (SyscallRule * bool).

(** The type parameter [T Or | And]. *)
Inductive compound : Type := COr | CAnd.

(** The type assertion [rule.(T)], and the conversion [T(rules)]. *)
Definition as_compound (T : compound) (rule : SyscallRule) : option (list SyscallRule) :=
  match T, rule with
  | COr, Or rules => Some rules
  | CAnd, And rules => Some rules
  | _, _ => None
  end.

Definition to_compound (T : compound) (rules : list SyscallRule) : SyscallRule :=
  match T with COr => Or rules | CAnd => And rules end.

Definition is_MatchAll (rule : SyscallRule) : bool :=
  match rule with MatchAll => true | _ => false end.

Definition is_AnyValue (vm : option ValueMatcher) : bool :=
  match vm with Some AnyValue => true | _ => false end.

Definition is_compound (T : compound) (rule : SyscallRule) : bool :=
  match as_compound T rule with Some _ => true | None => false end.

(** ** Compound rules *)

Definition convertSingleCompoundRuleToThatRule (T : compound) : ruleOptimizerFunc := λ rule,
  match as_compound T rule with
  | Some [r] => Some (r, true)
  | _ => Some (rule, false)
  end.

Definition flattenCompoundRules (T : compound) : ruleOptimizerFunc := λ rule,
  match as_compound T rule with
  | None => Some (rule, false)
  | Some tRule =>
      if negb (existsb (is_compound T) tRule) then Some (rule, false)
      else
        let newRules := foldl (λ acc subRule,
          match as_compound T subRule with
          | Some subT => acc ++ subT
          | None => acc ++ [subRule]
          end) [] tRule in
        Some (to_compound T newRules, true)
  end.

Definition convertMatchAllOrXToMatchAll : ruleOptimizerFunc := λ rule,
  match rule with
  | Or orRule => if existsb is_MatchAll orRule then Some (MatchAll, true) else Some (rule, false)
  | _ => Some (rule, false)
  end.

Definition convertMatchAllAndXToX : ruleOptimizerFunc := λ rule,
  match rule with
  | And andRule =>
      if negb (existsb is_MatchAll andRule) then Some (rule, false)
      else
        match filter (λ subRule, is_MatchAll subRule = false) andRule with
        | [] => Some (MatchAll, true)
        | newRules => Some (And newRules, true)
        end
  | _ => Some (rule, false)
  end.

(** ** Matchers of a [PerArg] *)

Definition nilInPerArgToAnyValue : ruleOptimizerFunc := λ rule,
  match rule with
  | PerArg perArg =>
      Some (PerArg ((λ vm, Some (default AnyValue vm)) <$> perArg),
            existsb (λ vm, match vm with None => true | Some _ => false end) perArg)
  | _ => Some (rule, false)
  end.

Definition convertUselessPerArgToMatchAll : ruleOptimizerFunc := λ rule,
  match rule with
  | PerArg perArg => if forallb is_AnyValue perArg then Some (MatchAll, true) else Some (rule, false)
  | _ => Some (rule, false)
  end.

(** [strings.ContainsRune] *)
Fixpoint ContainsRune (s : string) (c : ascii) : bool :=
  match s with
  | EmptyString => false
  | String c' s' => (if ascii_dec c' c then true else false) || ContainsRune s' c
  end.

Definition semicolon : ascii := ";"%char.

Fixpoint signature (pa : list (option ValueMatcher)) : option string :=
  match pa with
  | [] => Some ""
  | vm :: pa' =>
      v ← vm;
      if ContainsRune (Repr v) semicolon then None
      else rest ← signature pa'; Some (Repr v +:+ String semicolon rest)
  end.

(** The loop of [deduplicatePerArgs], given the signatures seen so far. *)
Fixpoint dedup_loop (knownPerArgs : gset string) (tRule : list SyscallRule)
    : option (list SyscallRule * bool) :=
  match tRule with
  | [] => Some ([], false)
  | subRule :: tRule' =>
      match subRule with
      | PerArg subPerArg =>
          sig ← signature subPerArg;
          if bool_decide (sig ∈ knownPerArgs) then
            '(newRules, _) ← dedup_loop knownPerArgs tRule'; Some (newRules, true)
          else
            '(newRules, changed) ← dedup_loop ({[ sig ]} ∪ knownPerArgs) tRule';
            Some (subRule :: newRules, changed)
      | _ => '(newRules, changed) ← dedup_loop knownPerArgs tRule'; Some (subRule :: newRules, changed)
      end
  end.

Definition deduplicatePerArgs (T : compound) : ruleOptimizerFunc := λ rule,
  match as_compound T rule with
  | None => Some (rule, false)
  | Some tRule =>
      if (length tRule <? 2)%nat then Some (rule, false)
      else
        '(newRules, changed) ← dedup_loop ∅ tRule;
        if negb changed then Some (rule, false) else Some (to_compound T newRules, true)
  end.

(** The matcher after [splitMatchers], when it is splittable and not split already. *)
Definition split_arg (vm : option ValueMatcher) : option ValueMatcher :=
  match vm with
  | Some v => match split v with Some sm => Some (Split sm) | None => vm end
  | None => None
  end.

Definition is_splittable (vm : option ValueMatcher) : bool :=
  match vm with Some v => bool_decide (is_Some (split v)) | None => false end.

Definition splitMatchers : ruleOptimizerFunc := λ rule,
  match rule with
  | PerArg perArg => Some (PerArg (split_arg <$> perArg), existsb is_splittable perArg)
  | _ => Some (rule, false)
  end.

Definition simplifyHalfValueMatcher (hvm : halfValueMatcher) : halfValueMatcher :=
  match hvm with
  | halfNotSet v => if v =? 0 then halfAnyValue else hvm
  | halfMaskedEqual mask value =>
      if (mask =? 0) && (value =? 0) then halfAnyValue
      else if mask =? 0xffffffff then halfEqualTo value
      else if value =? 0 then halfNotSet mask
      else hvm
  | _ => hvm
  end.

(** One half: replaced when its representation changes. *)
Definition simplify_half (hvm : halfValueMatcher) : halfValueMatcher * bool :=
  let new := simplifyHalfValueMatcher hvm in
  if bool_decide (half_Repr new = half_Repr hvm) then (hvm, false) else (new, true).

Definition simplify_arg (vm : option ValueMatcher) : option ValueMatcher * bool :=
  match vm with
  | Some (Split sm) =>
      let '(newHigh, changed1) := simplify_half (highMatcher sm) in
      let '(newLow, changed2) := simplify_half (lowMatcher sm) in
      (Some (Split (mkSplit (repr sm) newHigh newLow)), changed1 || changed2)
  | _ => (vm, false)
  end.

Definition simplifyHalfValueMatchers : ruleOptimizerFunc := λ rule,
  match rule with
  | PerArg perArg =>
      Some (PerArg ((λ vm, (simplify_arg vm).1) <$> perArg),
            existsb (λ vm, (simplify_arg vm).2) perArg)
  | _ => Some (rule, false)
  end.

(** A [splitMatcher] of which both halves match any value. *)
Definition is_any_split (vm : option ValueMatcher) : bool :=
  match vm with
  | Some (Split sm) => is_halfAnyValue (highMatcher sm) && is_halfAnyValue (lowMatcher sm)
  | _ => false
  end.

Definition anySplitMatchersToAnyValue : ruleOptimizerFunc := λ rule,
  match rule with
  | PerArg perArg =>
      Some (PerArg ((λ vm, if is_any_split vm then Some AnyValue else vm) <$> perArg),
            existsb is_any_split perArg)
  | _ => Some (rule, false)
  end.

(** ** Extraction of repeated matchers *)

Record extractData : Type := mkExtract {
  extractedMatcher : option ValueMatcher;
  otherMatchers : list (option ValueMatcher);
  otherMatchersSig : string;
  extractedMatcherIsAnyValue : bool;
  otherMatchersAreAllAnyValue : bool
}.

(** An extraction: a panic, not possible ([Some None]), or its result. *)
Definition extractFn : Type := list (option ValueMatcher) → option (option extractData).

(** Whether all matchers but the [argNum]-th are [AnyValue]. *)
Definition others_are_any (argNum : nat) (pa : list (option ValueMatcher)) : bool :=
  forallb is_AnyValue (delete argNum pa).

Definition extract_whole (argNum : nat) : extractFn := λ pa,
  extracted ← pa !! argNum;
  sig ← signature (<[argNum := Some invalidValueMatcher]> pa);
  let others := <[argNum := Some AnyValue]> pa in
  Some (Some (mkExtract extracted others sig (is_AnyValue extracted) (forallb is_AnyValue others))).

Definition extract_high (argNum : nat) : extractFn := λ pa,
  vm ← pa !! argNum;
  match vm with
  | Some (Split sm) =>
      sig ← signature
        (<[argNum := Some (Split (mkSplit "" invalidHalfValueMatcher (lowMatcher sm)))]> pa);
      Some (Some (mkExtract (Some (Split (high32BitsMatch (highMatcher sm))))
        (<[argNum := Some (Split (low32BitsMatch (lowMatcher sm)))]> pa) sig
        (is_halfAnyValue (highMatcher sm))
        (is_halfAnyValue (lowMatcher sm) && others_are_any argNum pa)))
  | _ => Some None
  end.

Definition extract_low (argNum : nat) : extractFn := λ pa,
  vm ← pa !! argNum;
  match vm with
  | Some (Split sm) =>
      sig ← signature
        (<[argNum := Some (Split (mkSplit "" (highMatcher sm) invalidHalfValueMatcher))]> pa);
      Some (Some (mkExtract (Some (Split (low32BitsMatch (lowMatcher sm))))
        (<[argNum := Some (Split (high32BitsMatch (highMatcher sm)))]> pa) sig
        (is_halfAnyValue (lowMatcher sm))
        (is_halfAnyValue (highMatcher sm) && others_are_any argNum pa)))
  | _ => Some None
  end.

(** What the first loop over the branches collects. *)
Record extractState : Type := mkExtractState {
  allOtherMatchersSigs : gset string;
  argExprToOtherMatchersSigs : gmap string (gset string);
  allArgNumMatchersAreAnyValue : bool;
  allOtherMatchersAreAnyValue : bool
}.

Definition extractState0 : extractState := mkExtractState ∅ ∅ true true.

(** The first loop over the branches; [Some None] when one of them is not extractable. *)
Fixpoint collect (fn : extractFn) (branches : list (list (option ValueMatcher)))
    (st : extractState) : option (option extractState) :=
  match branches with
  | [] => Some (Some st)
  | pa :: branches' =>
      ed ← fn pa;
      match ed with
      | None => Some None
      | Some ed =>
          vm ← extractedMatcher ed;
          let r := Repr vm in
          let sigs := default ∅ (argExprToOtherMatchersSigs st !! r) in
          collect fn branches'
            (mkExtractState ({[ otherMatchersSig ed ]} ∪ allOtherMatchersSigs st)
               (<[r := {[ otherMatchersSig ed ]} ∪ sigs]> (argExprToOtherMatchersSigs st))
               (allArgNumMatchersAreAnyValue st && extractedMatcherIsAnyValue ed)
               (allOtherMatchersAreAnyValue st && otherMatchersAreAllAnyValue ed))
      end
  end.

(** [sameStringSet] *)
Definition sameStringSet (m1 m2 : gset string) : bool :=
  (size m1 =? size m2)%nat && bool_decide (set_Forall (λ k, k ∈ m2) m1).

(** Whether the extraction [fn] applies to all branches and pays off. *)
Definition can_extract (fn : extractFn) (branches : list (list (option ValueMatcher)))
    : option bool :=
  st ← collect fn branches extractState0;
  match st with
  | None => Some false
  | Some st =>
      if allArgNumMatchersAreAnyValue st || allOtherMatchersAreAnyValue st then Some false
      else Some (bool_decide (map_Forall
             (λ _ omsigs, sameStringSet omsigs (allOtherMatchersSigs st) = true)
             (argExprToOtherMatchersSigs st)))
  end.

(** The branches with only the extracted matcher, and those with only the others. *)
Fixpoint extract_all (argNum : nat) (fn : extractFn) (branches : list (list (option ValueMatcher)))
    : option (list (list (option ValueMatcher)) * list (list (option ValueMatcher))) :=
  match branches with
  | [] => Some ([], [])
  | pa :: branches' =>
      ed ← fn pa; ed ← ed;
      '(only, others) ← extract_all argNum fn branches';
      Some (<[argNum := extractedMatcher ed]> (replicate (S RuleIP) (Some AnyValue)) :: only,
            otherMatchers ed :: others)
  end.

(** The first of the extractions that can be applied. *)
Fixpoint first_extract (fns : list (nat * extractFn)) (branches : list (list (option ValueMatcher)))
    : option (option (nat * extractFn)) :=
  match fns with
  | [] => Some None
  | (argNum, fn) :: fns' =>
      ok ← can_extract fn branches;
      if (ok : bool) then Some (Some (argNum, fn)) else first_extract fns' branches
  end.

(** All extractions, in the order they are tried. *)
Definition extractFns (args : nat) : list (nat * extractFn) :=
  seq 0 args ≫= λ argNum,
    [(argNum, extract_whole argNum); (argNum, extract_high argNum); (argNum, extract_low argNum)].

(** The branches of a rule that is an [Or] of [PerArg]s. *)
Definition perarg_branches (rules : list SyscallRule) : option (list (list (option ValueMatcher))) :=
  mapM (λ r, match r with PerArg pa => Some pa | _ => None end) rules.

(** [extractRepeatedMatchers] on branches: the rule, and whether it changed.  Each extraction
    is from an argument, or a half of it, that is then [AnyValue] in all branches, so the depth
    of the recursion is at most three times the number of arguments. *)
Fixpoint extract_branches (fuel : nat) (branches : list (list (option ValueMatcher)))
    : option (SyscallRule * bool) :=
  match fuel with
  | O => None
  | S fuel' =>
      if (length branches <? 2)%nat then Some (Or (PerArg <$> branches), false)
      else
        args ← length <$> head branches;
        choice ← first_extract (extractFns args) branches;
        match choice with
        | None => Some (Or (PerArg <$> branches), false)
        | Some (argNum, fn) =>
            '(argNumMatch, otherArgsMatch) ← extract_all argNum fn branches;
            '(otherArgsMatchOpt, _) ← extract_branches fuel' otherArgsMatch;
            Some (And [Or (PerArg <$> argNumMatch); otherArgsMatchOpt], true)
        end
  end.

Definition extract_fuel : nat := S (3 * S RuleIP).

Definition extractRepeatedMatchers : ruleOptimizerFunc := λ rule,
  match rule with
  | Or orRule =>
      match perarg_branches orRule with
      | Some branches => extract_branches extract_fuel branches
      | None => Some (rule, false)
      end
  | _ => Some (rule, false)
  end.

(** ** The optimization run *)

(** [apply]: the children first, in order, then the rule itself; nothing more is changed once
    [opt.changed] is set. *)
Fixpoint apply_ (fn : ruleOptimizerFunc) (rule : SyscallRule) (changed : bool)
    : option (SyscallRule * bool) :=
  let recurse := fix recurse (rules : list SyscallRule) (changed : bool)
      : option (list SyscallRule * bool) :=
    match rules with
    | [] => Some ([], changed)
    | r :: rules' =>
        '(r, changed) ← apply_ fn r changed;
        '(rules', changed) ← recurse rules' changed;
        Some (r :: rules', changed)
    end in
  '(rule, changed) ← match rule with
    | Or rules => '(rules, changed) ← recurse rules changed; Some (Or rules, changed)
    | And rules => '(rules, changed) ← recurse rules changed; Some (And rules, changed)
    | _ => Some (rule, changed)
    end;
  if (changed : bool) then Some (rule, true) else fn rule.

(** One iteration of the loop of [optimize]: the first function that changes something. *)
Fixpoint first_rule_change (funcs : list ruleOptimizerFunc) (rule : SyscallRule)
    : option (SyscallRule * bool) :=
  match funcs with
  | [] => Some (rule, false)
  | fn :: funcs' =>
      '(rule, changed) ← apply_ fn rule false;
      if (changed : bool) then Some (rule, true) else first_rule_change funcs' rule
  end.

(** The functions of [optimizeSyscallRule]. *)
Definition rule_funcs : list ruleOptimizerFunc :=
  [ convertSingleCompoundRuleToThatRule COr;
    convertSingleCompoundRuleToThatRule CAnd;
    flattenCompoundRules COr;
    flattenCompoundRules CAnd;
    convertMatchAllOrXToMatchAll;
    convertMatchAllAndXToX;
    nilInPerArgToAnyValue;
    deduplicatePerArgs COr;
    deduplicatePerArgs CAnd;
    convertUselessPerArgToMatchAll;
    splitMatchers;
    simplifyHalfValueMatchers;
    anySplitMatchersToAnyValue;
    extractRepeatedMatchers ].

(** *** Fuel

    An extraction makes the tree larger, but lowers [spread]; the other functions do not raise
    [spread] and lower [bulk].  The loop has as much fuel as that allows: [bulk] again after
    each time [spread] got smaller. *)

Definition half_bulk (h : halfValueMatcher) : nat :=
  match h with
  | halfAnyValue | invalidHalfValueMatcher => 0
  | halfEqualTo _ => 1
  | halfNotSet _ => 2
  | halfMaskedEqual _ _ => 3
  end.

Definition arg_bulk (vm : option ValueMatcher) : nat :=
  match vm with
  | None => 2
  | Some (EqualTo _) | Some NonNegativeFD | Some (maskedEqual _ _) => 8
  | Some (Split sm) => 1 + half_bulk (highMatcher sm) + half_bulk (lowMatcher sm)
  | Some _ => 0
  end.

Fixpoint bulk (rule : SyscallRule) : nat :=
  match rule with
  | MatchAll => 1
  | Or rules | And rules => S (sum_list (bulk <$> rules))
  | PerArg pa => 2 + sum_list (arg_bulk <$> pa)
  end.

(** The number of constrained halves of an argument. *)
Definition half_weight (h : halfValueMatcher) : nat := if is_halfAnyValue h then 0 else 1.

Definition arg_weight (vm : option ValueMatcher) : nat :=
  match vm with
  | None | Some AnyValue => 0
  | Some (Split sm) => half_weight (highMatcher sm) + half_weight (lowMatcher sm)
  | Some _ => 2
  end.

Fixpoint spread (rule : SyscallRule) : nat :=
  match rule with
  | MatchAll => 0
  | Or rules | And rules => sum_list (spread <$> rules)
  | PerArg pa => sum_list (arg_weight <$> pa) * sum_list (arg_weight <$> pa)
  end.

(** The loop of [optimize]. *)
Fixpoint optimize_rounds (rounds : nat) : nat → SyscallRule → option SyscallRule :=
  fix steps (fuel : nat) (rule : SyscallRule) : option SyscallRule :=
    match fuel with
    | O => None
    | S fuel' =>
        '(rule', changed) ← first_rule_change rule_funcs rule;
        if negb changed then Some rule'
        else if (spread rule' <? spread rule)%nat then
          match rounds with
          | O => None
          | S rounds' => optimize_rounds rounds' (S (bulk rule')) rule'
          end
        else steps fuel' rule'
    end.

Definition optimizeSyscallRule (rule : SyscallRule) : option SyscallRule :=
  optimize_rounds (spread rule) (S (bulk rule)) rule.
