(* ===== verification/ReprFacts.v ===== *)
(** * Representations of matchers

    The rule optimizer compares matchers by the strings [Repr] and [half_Repr].  Numbers in
    these strings can be read back, so matchers with the same representation match the same
    values; this is what [deduplicatePerArgs] and [extractRepeatedMatchers] rely on. *)

From Stdlib Require Import Ascii.
From stdpp Require Import base numbers decidable strings pretty gmap list.
From S2P Require Import Prelude Instr Builder SeccompAbi SeccompRules Labels RuleFacts RuleOpt.

Local Open Scope Z_scope.

(** ** Hexadecimal numbers *)

Definition hex_value (c : ascii) : Z :=
  let n := Z.of_nat (nat_of_ascii c) in if n <? 58 then n - 48 else n - 87.

Lemma hex_value_digit d : 0 <= d < 16 → hex_value (hex_digit d) = d.
Proof.
  intros Hd. unfold hex_value, hex_digit. rewrite nat_ascii_embedding by (case_if; lia).
  destruct (Z.ltb_spec d 10); rewrite Z2Nat.id by lia; case_if; to_prop; lia.
Qed.

(** Reading digits after [a] was read. *)
Fixpoint read_hex (a : Z) (s : string) : Z :=
  match s with
  | EmptyString => a
  | String c s' => read_hex (16 * a + hex_value c) s'
  end.

Lemma read_hex_digits fuel z acc :
  (0 < fuel)%nat → 0 <= z < 16 ^ Z.of_nat fuel → read_hex 0 (hex_digits fuel z acc) = read_hex z acc.
Proof.
  revert z acc. induction fuel as [|fuel IH]; intros z acc Hf Hz; [lia|]. simpl.
  pose proof (Z.div_mod z 16) as Hdm. pose proof (Z.mod_pos_bound z 16) as Hm.
  case_if; to_prop.
  - simpl. rewrite hex_value_digit by lia. f_equal. lia.
  - rewrite Nat2Z.inj_succ, Z.pow_succ_r in Hz by lia.
    rewrite IH; [simpl; rewrite hex_value_digit by lia; f_equal; lia| |].
    + destruct fuel; [|lia]. change (16 ^ Z.of_nat 0) with 1 in Hz.
      rewrite Z.div_small in Heqb by lia. done.
    + split; [apply Z.div_pos; lia|apply Z.div_lt_upper_bound; lia].
Qed.

Lemma hex_digits_inj x y :
  in_u64 x → in_u64 y → hex_digits 16 x "" = hex_digits 16 y "" → x = y.
Proof.
  intros Hx Hy Heq. apply (f_equal (read_hex 0)) in Heq.
  by rewrite !read_hex_digits in Heq by (unfold in_u64 in *; simpl; lia).
Qed.

(** The characters of a number. *)
Definition is_hex (c : ascii) : bool :=
  ((48 <=? nat_of_ascii c) && (nat_of_ascii c <=? 57) ||
   (97 <=? nat_of_ascii c) && (nat_of_ascii c <=? 102))%nat.

Lemma hex_digit_is_hex d : 0 <= d < 16 → is_hex (hex_digit d) = true.
Proof.
  intros Hd. unfold is_hex, hex_digit. rewrite nat_ascii_embedding by (case_if; lia).
  apply orb_true_iff. rewrite !andb_true_iff, !Nat.leb_le. case_if; to_prop; lia.
Qed.

Lemma hex_digits_all cl fuel z acc :
  0 <= z → (∀ d, 0 <= d < 16 → cl (hex_digit d) = true) → all_in cl acc = true →
  all_in cl (hex_digits fuel z acc) = true.
Proof.
  intros Hz Hcl. revert z acc Hz. induction fuel as [|fuel IH]; intros z acc Hz Hacc; simpl; [done|].
  assert (Hs : all_in cl (String (hex_digit (z mod 16)) acc) = true).
  { simpl. rewrite Hcl by (apply Z.mod_pos_bound; lia). done. }
  case_if; [done|]. apply IH; [apply Z.div_pos; lia|done].
Qed.

Lemma hex_inj x y s t :
  in_u64 x → in_u64 y → starts_out is_hex s = true → starts_out is_hex t = true →
  hex x +:+ s = hex y +:+ t → x = y ∧ s = t.
Proof.
  intros Hx Hy Hs Ht Heq. unfold hex in Heq. rewrite !append_assoc in Heq.
  apply append_inj_l, (cut_inj is_hex) in Heq as [Heq ->]; try done.
  - split; [by apply hex_digits_inj|done].
  - apply hex_digits_all; [apply Hx|apply hex_digit_is_hex|done].
  - apply hex_digits_all; [apply Hy|apply hex_digit_is_hex|done].
Qed.

Lemma hex_inj_end x y : in_u64 x → in_u64 y → hex x = hex y → x = y.
Proof.
  intros Hx Hy Heq. destruct (hex_inj x y "" "") as [-> _]; try done. by rewrite !append_nil_r.
Qed.

Lemma u32_u64 z : in_u32 z → in_u64 z.
Proof. unfold in_u32, in_u64. lia. Qed.
#[export] Hint Resolve u32_u64 : bpf.

(** ** Halves *)

(** A half matcher with its width, or the stand-in. *)
Definition half_fine (h : halfValueMatcher) : Prop := half_ok h ∨ h = invalidHalfValueMatcher.

Lemma half_Repr_inj h1 h2 :
  half_fine h1 → half_fine h2 → half_Repr h1 = half_Repr h2 → h1 = h2.
Proof.
  intros H1 H2 Heq.
  destruct h1 as [|k1|k1|m1 k1|], h2 as [|k2|k2|m2 k2|]; try done; try discriminate Heq;
    destruct H1 as [H1|[=]], H2 as [H2|[=]]; unfold half_Repr in Heq; apply append_inj_l in Heq;
    simpl in H1, H2.
  - apply hex_inj in Heq as [-> _]; auto with bpf.
  - apply hex_inj in Heq as [-> _]; auto with bpf.
  - destruct H1 as [H1 H1'], H2 as [H2 H2'].
    apply hex_inj in Heq as [-> Heq]; auto with bpf. apply append_inj_l in Heq.
    apply hex_inj in Heq as [-> _]; auto with bpf.
Qed.

(** Characters that occur in no representation of a half. *)
Definition plain_class (cl : ascii → bool) : Prop :=
  (∀ d, 0 <= d < 16 → cl (hex_digit d) = true) ∧
  all_in cl "halfEq(0x), NotSetMaskedEqualAnyValueinvalidHalfMatcher" = true.

Lemma all_in_app cl s t : all_in cl (s +:+ t) = all_in cl s && all_in cl t.
Proof.
  induction s as [|c s IH]; [done|]. rewrite append_cons. simpl. rewrite IH. by rewrite andb_assoc.
Qed.

Lemma hex_all cl z : plain_class cl → 0 <= z → all_in cl (hex z) = true.
Proof.
  intros [Hd Hc] Hz. unfold hex. rewrite all_in_app, hex_digits_all by done.
  simpl in *. to_prop. rewrite andb_true_r.
  repeat match goal with H : ?b = true |- context [?b] => rewrite H end. done.
Qed.

Lemma half_Repr_all cl h : plain_class cl → half_fine h → all_in cl (half_Repr h) = true.
Proof.
  intros Hcl Hh. pose proof (hex_all cl) as Hx. pose proof Hcl as [_ Hc]. simpl in Hc. to_prop.
  assert (Hpos : ∀ z, in_u32 z → 0 <= z) by (unfold in_u32; lia).
  destruct h as [|k|k|m k|]; (destruct Hh as [Hh|Hh]; try done); simpl in Hh; unfold half_Repr;
    rewrite ?all_in_app, ?Hx by (done || apply Hpos; tauto); simpl;
    repeat match goal with H : ?b = true |- context [?b] => rewrite H end; done.
Qed.

Lemma append_inj_r x y t : x +:+ t = y +:+ t → x = y.
Proof.
  assert (Hl : ∀ c z, String c z +:+ t ≠ t).
  { intros c z H. apply (f_equal String.length) in H. rewrite append_cons in H. simpl in H.
    assert (String.length t <= String.length (z +:+ t))%nat; [|lia].
    clear. induction z as [|d z IH]; [done|]. rewrite append_cons. simpl. lia. }
  revert y. induction x as [|c x IH]; intros [|d y] H; [done| | |].
  - by destruct (Hl d y).
  - by destruct (Hl c x).
  - injection H as -> H. by rewrite (IH y H).
Qed.

(** The characters other than [c0]. *)
Definition not_char (c0 c : ascii) : bool := if ascii_dec c c0 then false else true.

Lemma not_char_plain c0 :
  is_hex c0 = false →
  all_in (not_char c0) "halfEq(0x), NotSetMaskedEqualAnyValueinvalidHalfMatcher" = true →
  plain_class (not_char c0).
Proof.
  intros Hc0 Hs. split; [|done]. intros d Hd. unfold not_char. case_match; [|done]. subst c0.
  by rewrite hex_digit_is_hex in Hc0.
Qed.

(** ** Split matchers *)

Lemma split_Repr_inj sm1 sm2 :
  repr sm1 = "" → repr sm2 = "" →
  half_fine (highMatcher sm1) → half_fine (lowMatcher sm1) →
  half_fine (highMatcher sm2) → half_fine (lowMatcher sm2) →
  split_Repr sm1 = split_Repr sm2 → sm1 = sm2.
Proof.
  intros E1 E2 Hh1 Hl1 Hh2 Hl2 Heq. unfold split_Repr in Heq. rewrite E1, E2 in Heq.
  rewrite !bool_decide_true in Heq by done. destruct sm1 as [r1 h1 l1], sm2 as [r2 h2 l2].
  simpl in *. subst r1 r2.
  assert (Hany : ∀ h, is_halfAnyValue h = true → h = halfAnyValue) by (by intros []).
  destruct (is_halfAnyValue h1) eqn:A1, (is_halfAnyValue l1) eqn:A2,
    (is_halfAnyValue h2) eqn:A3, (is_halfAnyValue l2) eqn:A4; simpl in Heq; try discriminate Heq;
    repeat match goal with H : is_halfAnyValue _ = true |- _ => apply Hany in H; subst end.
  - done.
  - apply append_inj_l, half_Repr_inj in Heq as ->; done.
  - apply append_inj_l, half_Repr_inj in Heq as ->; done.
  - apply append_inj_l in Heq.
    assert (Hcl : plain_class (not_char "&"%char)) by (by apply not_char_plain).
    assert (Hsp : ∀ h t, half_Repr h +:+ " && low=" +:+ t = (half_Repr h +:+ " ") +:+ "&& low=" +:+ t).
    { intros h t. by rewrite append_assoc. }
    rewrite !Hsp in Heq. apply (cut_inj (not_char "&"%char)) in Heq as [Hh Hl]; try done.
    + apply append_inj_r, half_Repr_inj in Hh as ->; try done.
      apply append_inj_l, append_inj_r, half_Repr_inj in Hl as ->; done.
    + by rewrite all_in_app, half_Repr_all.
    + by rewrite all_in_app, half_Repr_all.
Qed.

(** ** Values *)

(** The matchers rules are written with. *)
Definition plain_matcher (vm : ValueMatcher) : Prop :=
  match vm with Split _ | invalidValueMatcher => False | _ => True end.

Lemma Repr_plain_inj vm1 vm2 :
  plain_matcher vm1 → plain_matcher vm2 → value_ok vm1 → value_ok vm2 →
  Repr vm1 = Repr vm2 → vm1 = vm2.
Proof.
  intros P1 P2 H1 H2 Heq.
  destruct vm1 as [|k1|k1|k1|k1|k1|k1| |m1 k1|s1|], vm2 as [|k2|k2|k2|k2|k2|k2| |m2 k2|s2|]; try done;
    unfold Repr in Heq;
    repeat match type of Heq with context [if ?b =? ?c then _ else _] => destruct (Z.eqb_spec b c); [subst|] end;
    try done; try discriminate Heq; simpl in H1, H2; apply append_inj_l in Heq;
    try by apply hex_inj_end in Heq as ->.
  destruct H1 as [H1 H1'], H2 as [H2 H2']. apply hex_inj in Heq as [-> Heq]; try done.
  by apply append_inj_l, hex_inj_end in Heq as ->.
Qed.

(** A split matcher is made of halves, or stands for the matcher it was split from and has its
    representation.  [simplifyHalfValueMatchers] changes the halves and not the representation. *)
Definition split_legit (sm : splitMatcher) : Prop :=
  repr sm = "" ∨
  ∃ vm, plain_matcher vm ∧ vm ≠ AnyValue ∧ value_ok vm ∧ repr sm = Repr vm ∧
        ∀ v, in_u64 v → split_matches sm v = value_matches vm v.

Definition value_legit (vm : ValueMatcher) : Prop :=
  value_ok vm ∧ match vm with Split sm => split_legit sm | _ => True end.

(** Matchers that are not split from another one. *)
Definition unsplit (vm : ValueMatcher) : Prop :=
  match vm with Split sm => repr sm = "" | _ => True end.

(** The matcher whose representation a legitimate matcher has. *)
Definition stands_for (vm vm0 : ValueMatcher) : Prop :=
  value_ok vm0 ∧ Repr vm = Repr vm0 ∧
  unsplit vm0 ∧
  (vm = AnyValue ↔ vm0 = AnyValue) ∧
  ∀ v, in_u64 v → value_matches vm v = value_matches vm0 v.

Lemma legit_stands vm : value_legit vm → ∃ vm0, stands_for vm vm0.
Proof.
  intros [Hok Hl]. destruct vm as [| | | | | | | | |sm|] eqn:E;
    try (exists vm; subst vm; by unfold stands_for).
  destruct Hl as [He|(vm0 & Hp & Hne & Hok0 & Hr & Hm)]; [by exists vm; subst vm|].
  exists vm0. split_and!; [done| |by destruct vm0|by split|done].
  unfold Repr at 1, split_Repr. rewrite bool_decide_false; [done|]. rewrite Hr. by destruct vm0 as [|k| | | | | | | | |];
    try done; simpl; case_if.
Qed.

(** Whether a matcher, or what its representation starts with, is that of halves. *)
Definition is_Split (vm : ValueMatcher) : bool :=
  match vm with Split _ => true | _ => false end.

Definition starts_split (s : string) : bool :=
  match s with
  | String c _ => (("l" =? c) || ("h" =? c) || ("s" =? c) || ("(" =? c))%char
  | EmptyString => false
  end.

Lemma starts_split_Repr vm : unsplit vm → starts_split (Repr vm) = is_Split vm.
Proof.
  destruct vm as [|k| | | | | | | |sm|]; intros Hu; try done; simpl.
  - by case_if.
  - unfold split_Repr. rewrite bool_decide_true by done. by repeat case_if.
Qed.

Lemma Repr_inj vm1 vm2 :
  value_ok vm1 → value_ok vm2 → unsplit vm1 → unsplit vm2 → Repr vm1 = Repr vm2 → vm1 = vm2.
Proof.
  intros H1 H2 S1 S2 Heq.
  pose proof (starts_split_Repr vm1 S1) as E1. pose proof (starts_split_Repr vm2 S2) as E2.
  rewrite Heq, E2 in E1.
  destruct (is_Split vm1) eqn:I1.
  - destruct vm1 as [| | | | | | | | |sm1|], vm2 as [| | | | | | | | |sm2|]; try done.
    simpl in *. f_equal. unfold half_fine. by apply split_Repr_inj; unfold half_fine; tauto.
  - apply Repr_plain_inj; try done; by destruct vm1, vm2.
Qed.

(** Legitimate matchers with the same representation match the same values. *)
Lemma Repr_sound vm1 vm2 :
  value_legit vm1 → value_legit vm2 → Repr vm1 = Repr vm2 →
  (vm1 = AnyValue ↔ vm2 = AnyValue) ∧
  ∀ v, in_u64 v → value_matches vm1 v = value_matches vm2 v.
Proof.
  intros L1 L2 Heq.
  destruct (legit_stands vm1 L1) as (vm1' & Hok1 & Hr1 & Hu1 & Ha1 & Hm1).
  destruct (legit_stands vm2 L2) as (vm2' & Hok2 & Hr2 & Hu2 & Ha2 & Hm2).
  assert (vm1' = vm2') as -> by (apply Repr_inj; congruence).
  split; [by rewrite Ha1, Ha2|]. intros v Hv. by rewrite Hm1, Hm2.
Qed.

(** ** Signatures *)

Lemma ContainsRune_all s c : ContainsRune s c = negb (all_in (not_char c) s).
Proof.
  induction s as [|c' s IH]; [done|]. simpl. rewrite IH. unfold not_char at 2. by case_match.
Qed.

(** Tokens put in the place of an extracted matcher. *)
Definition printable (vm : ValueMatcher) : Prop := ContainsRune (Repr vm) semicolon = false.

Definition half_token (vm : ValueMatcher) : Prop :=
  match vm with
  | invalidValueMatcher => True
  | Split sm => repr sm = "" ∧ half_fine (highMatcher sm) ∧ half_fine (lowMatcher sm)
  | _ => False
  end.

Lemma semicolon_plain : plain_class (not_char semicolon).
Proof. by apply not_char_plain. Qed.

Lemma half_token_printable vm : half_token vm → printable vm.
Proof.
  pose proof (λ h, half_Repr_all _ h semicolon_plain) as Hh.
  unfold printable. rewrite ContainsRune_all, negb_false_iff.
  destruct vm as [| | | | | | | | |sm|]; try done. intros (He & Hhi & Hlo).
  apply Hh in Hhi, Hlo. unfold Repr, split_Repr. rewrite bool_decide_true by done.
  cbv zeta. repeat case_match; rewrite ?all_in_app, ?Hhi, ?Hlo; done.
Qed.

Lemma legit_printable vm : value_legit vm → printable vm.
Proof.
  intros Hl. destruct (legit_stands vm Hl) as (vm0 & Hok & Hr & Hu & _).
  unfold printable. rewrite Hr. destruct vm0 as [|k|k|k|k|k|k| |m k|sm|] eqn:E; try done.
  8: { apply half_token_printable. destruct Hok. by split_and!; [|left|left]. }
  all: rewrite ContainsRune_all, negb_false_iff; unfold Repr.
  all: assert (Hx : ∀ z, in_u64 z → all_in (not_char semicolon) (hex z) = true)
    by (intros z Hz; apply hex_all; [apply semicolon_plain|unfold in_u64 in Hz; lia]).
  1: case_if; [done|].
  all: simpl in Hok; rewrite ?all_in_app, ?Hx by tauto; done.
Qed.

(** Arguments that print the same. *)
Definition same_repr (a b : option ValueMatcher) : Prop :=
  ∃ va vb, a = Some va ∧ b = Some vb ∧ Repr va = Repr vb.

Lemma signature_total pa :
  Forall (λ a, ∃ vm, a = Some vm ∧ printable vm) pa → ∃ sig, signature pa = Some sig.
Proof.
  induction 1 as [|a pa (vm & -> & Hp) _ [sig IH]]; [by eexists|]. simpl. rewrite Hp, IH. by eexists.
Qed.

Lemma signature_inj pa1 pa2 sig :
  signature pa1 = Some sig → signature pa2 = Some sig → Forall2 same_repr pa1 pa2.
Proof.
  assert (Hne : ∀ s t, s +:+ String semicolon t ≠ "") by (by intros []).
  assert (Hcons : ∀ a pa s, signature (a :: pa) = Some s → ∃ vm t,
    a = Some vm ∧ all_in (not_char semicolon) (Repr vm) = true ∧ signature pa = Some t ∧
    s = Repr vm +:+ String semicolon t).
  { intros a pa s Hs. simpl in Hs. destruct a as [vm|]; [|done]. simpl in Hs.
    destruct (ContainsRune _ _) eqn:E in Hs; [done|]. rewrite ContainsRune_all, negb_false_iff in E.
    destruct (signature pa) as [t|]; [|done]. exists vm, t. by split_and!; [..|injection Hs]. }
  revert pa2 sig. induction pa1 as [|a1 pa1 IH]; intros [|a2 pa2] sig H1 H2; [done| | |].
  - apply Hcons in H2 as (vm & t & _ & _ & _ & ->). injection H1 as H1. by destruct (Hne _ _ (eq_sym H1)).
  - apply Hcons in H1 as (vm & t & _ & _ & _ & ->). injection H2 as H2. by destruct (Hne _ _ (eq_sym H2)).
  - apply Hcons in H1 as (vm1 & t1 & -> & A1 & S1 & ->). apply Hcons in H2 as (vm2 & t2 & -> & A2 & S2 & Heq).
    apply (cut_inj (not_char semicolon)) in Heq as [Hr [= ->]]; try done.
    constructor; [by exists vm1, vm2|by apply (IH pa2 t2)].
Qed.
