(* ===== verification/RuleOptBase.v ===== *)
(** * Correctness of the functions of the rule optimizer

    Every function of [rule_funcs] but the extraction of repeated matchers: it does not panic,
    keeps the system calls the rule matches, and when it reports a change it makes the rule
    smaller.  [apply_] runs a function on the rules of a tree, children first, until one of
    them changes.  If the function improves the rules it changes then so does [apply_]; if
    nothing changed then the function left every [PerArg] of the tree alone. *)

From stdpp Require Import base numbers decidable strings pretty gmap list.
From S2P Require Import Prelude Instr Builder SeccompAbi SeccompRules RuleFacts RuleOpt ReprFacts.

Local Open Scope Z_scope.

(** ** Legitimate rules *)

Definition arg_legit (a : option ValueMatcher) : Prop :=
  match a with Some vm => value_legit vm | None => True end.

Definition args_legit (pa : list (option ValueMatcher)) : Prop :=
  length pa = S RuleIP ∧ Forall arg_legit pa.

Definition rule_legit : SyscallRule → Prop := rule_with args_legit.

Lemma rule_legit_ok r : rule_legit r → rule_ok r.
Proof.
  apply rule_with_mono. intros pa [Hl Hall]. split; [done|].
  eapply Forall_impl; [done|]. intros [vm|]; [|done]. by intros [? _].
Qed.

(** Rules written with the exported matchers are legitimate. *)
Definition written (a : option ValueMatcher) : Prop :=
  match a with Some vm => plain_matcher vm ∧ value_ok vm | None => True end.

Definition written_rule : SyscallRule → Prop :=
  rule_with (λ pa, length pa = S RuleIP ∧ Forall written pa).

Lemma written_legit r : written_rule r → rule_legit r.
Proof.
  apply rule_with_mono. intros pa [Hl Hall]. split; [done|].
  eapply Forall_impl; [done|]. intros [vm|]; [|done]. intros [Hp Hok]. split; [done|]. by destruct vm.
Qed.

(** ** Matching of arguments *)

Definition arg_matches (a : option ValueMatcher) (v : Z) : bool :=
  match a with Some vm => value_matches vm v | None => true end.

Definition same_matches (a b : option ValueMatcher) : Prop :=
  ∀ v, in_u64 v → arg_matches a v = arg_matches b v.

#[export] Instance same_matches_equiv : Equivalence same_matches.
Proof.
  split; [done|by intros a b H v Hv; rewrite H|].
  intros a b c H1 H2 v Hv. by rewrite H1, H2.
Qed.

Lemma data_value_range d i : data_ok d → in_u64 (data_value d i).
Proof.
  intros (Hip & _ & Hargs). unfold data_value. case_if; [done|].
  destruct (Args d !! i) eqn:E; [by apply (Forall_lookup_1 _ _ _ _ Hargs E)|done].
Qed.

Lemma args_match_cons d i a pa :
  args_match d i (a :: pa) = arg_matches a (data_value d i) && args_match d (S i) pa.
Proof. done. Qed.

Lemma args_match_same d i pa1 pa2 :
  data_ok d → Forall2 same_matches pa1 pa2 → args_match d i pa1 = args_match d i pa2.
Proof.
  intros Hd HF. revert i. induction HF as [|a b pa1 pa2 Hab _ IH]; intros i; [done|].
  rewrite !args_match_cons, IH. f_equal. by apply Hab, data_value_range.
Qed.

(** ** Improvements *)

Definition same_rule (r1 r2 : SyscallRule) : Prop :=
  ∀ d, data_ok d → rule_matches r1 d = rule_matches r2 d.

#[export] Instance same_rule_equiv : Equivalence same_rule.
Proof.
  split; [done|by intros a b H v Hv; rewrite H|].
  intros a b c H1 H2 v Hv. by rewrite H1, H2.
Qed.

(** [r'] does what [r] does, and is smaller. *)
Record improves (r r' : SyscallRule) : Prop := {
  im_legit : rule_legit r';
  im_same : same_rule r' r;
  im_spread : (spread r' <= spread r)%nat;
  im_bulk : (spread r' < spread r ∨ bulk r' < bulk r)%nat
}.

(** A function that, on the rules it is for, does not panic and improves what it changes. *)
Definition pass_ok (Q : list (option ValueMatcher) → Prop) (fn : ruleOptimizerFunc) : Prop :=
  ∀ r, rule_legit r → rule_with Q r →
    ∃ r' c, fn r = Some (r', c) ∧ if (c : bool) then improves r r' else r' = r.

Definition anything (pa : list (option ValueMatcher)) : Prop := True.

Lemma rule_with_anything r : rule_legit r → rule_with anything r.
Proof. by apply rule_with_mono. Qed.

(** ** Matchers of a [PerArg] *)

(** A replacement of matchers, [g] saying which ones it replaces. *)
Record replacement (f : option ValueMatcher → option ValueMatcher) (g : option ValueMatcher → bool)
    : Prop := {
  rp_legit a : arg_legit a → arg_legit (f a);
  rp_same a : arg_legit a → same_matches (f a) a;
  rp_weight a : (arg_weight (f a) <= arg_weight a)%nat;
  rp_bulk a : arg_legit a → if g a then (arg_bulk (f a) < arg_bulk a)%nat else f a = a
}.

Lemma sum_list_mono {A} (f g : A → nat) l :
  Forall (λ x, f x <= g x)%nat l → (sum_list (f <$> l) <= sum_list (g <$> l))%nat.
Proof. induction 1; csimpl; lia. Qed.

Lemma sum_list_strict {A} (f g : A → nat) l :
  Forall (λ x, f x <= g x)%nat l → Exists (λ x, f x < g x)%nat l →
  (sum_list (f <$> l) < sum_list (g <$> l))%nat.
Proof.
  intros Hall. induction 1 as [x l Hx|x l _ IH]; inversion_clear Hall as [|? ? Hle Hall']; csimpl.
  - apply sum_list_mono in Hall'. lia.
  - apply IH in Hall'. lia.
Qed.

Lemma replacement_pass f g :
  replacement f g →
  pass_ok anything (λ rule,
    match rule with
    | PerArg pa => Some (PerArg (f <$> pa), existsb g pa)
    | _ => Some (rule, false)
    end).
Proof.
  intros Hf r Hr _. destruct r as [| | |pa]; try (by eexists _, false).
  inversion_clear Hr as [| | |? [Hlen Hall]].
  exists (PerArg (f <$> pa)), (existsb g pa). split; [done|].
  destruct (existsb g pa) eqn:E.
  - apply existsb_exists in E as (a & Ha & Hg). apply list_elem_of_In in Ha.
    constructor.
    + constructor. split; [by rewrite length_fmap|]. apply Forall_fmap.
      by eapply Forall_impl; [done|]; apply Hf.
    + intros d Hd. simpl. apply args_match_same; [done|]. apply Forall2_fmap_l, Forall_Forall2_diag.
      by eapply Forall_impl; [done|]; apply Hf.
    + simpl. assert (sum_list (arg_weight <$> (f <$> pa)) <= sum_list (arg_weight <$> pa))%nat; [|nia].
      rewrite <- list_fmap_compose. apply sum_list_mono, Forall_true. apply Hf.
    + right. simpl. rewrite <- list_fmap_compose.
      rewrite <- !Nat.succ_lt_mono. apply sum_list_strict.
      * eapply Forall_impl; [done|]. intros b Hb. pose proof (rp_bulk _ _ Hf b Hb) as HB.
        unfold compose. destruct (g b); [lia|by rewrite HB].
      * apply Exists_exists. exists a. split; [done|].
        pose proof (rp_bulk _ _ Hf a) as HB. rewrite Hg in HB. apply HB.
        by apply (Forall_forall _ pa).
  - f_equal. clear Hlen. induction Hall as [|a pa' Ha Hall IH]; [done|].
    simpl in E. apply orb_false_iff in E as [Eg E]. csimpl. f_equal; [|by apply IH].
    pose proof (rp_bulk _ _ Hf a Ha) as HB. by rewrite Eg in HB.
Qed.

Lemma nil_replacement :
  replacement (λ vm, Some (default AnyValue vm))
    (λ vm, match vm with None => true | Some _ => false end).
Proof. split; intros [vm|]; simpl; intros; done || lia. Qed.

Lemma split_plain vm sm : split vm = Some sm → plain_matcher vm ∧ vm ≠ AnyValue ∧ repr sm = Repr vm.
Proof. by destruct vm; intros H; try discriminate H; apply (inj Some) in H; subst sm. Qed.

Lemma split_halves_ok vm sm :
  split vm = Some sm → half_ok (highMatcher sm) ∧ half_ok (lowMatcher sm).
Proof.
  destruct vm; intros H; try discriminate H; apply (inj Some) in H; subst sm; simpl;
    auto with bpf; split; try split; auto with bpf; done.
Qed.

Lemma split_replacement : replacement split_arg is_splittable.
Proof.
  assert (Hcase : ∀ vm, split_arg (Some vm) = Some vm ∧ is_splittable (Some vm) = false ∨
    ∃ sm, split vm = Some sm ∧ split_arg (Some vm) = Some (Split sm) ∧ is_splittable (Some vm) = true).
  { intros vm. unfold split_arg, is_splittable. destruct (split vm) as [sm|] eqn:E.
    - right. exists sm. by rewrite bool_decide_true.
    - left. by rewrite bool_decide_false by (by intros []). }
  split; intros [vm|]; try done; destruct (Hcase vm) as [[E1 E2]|(sm & Hsm & E1 & E2)];
    rewrite ?E1, ?E2; try done.
  - intros [Hok _]. pose proof (split_plain _ _ Hsm) as (Hp & Hne & Hr). split; simpl.
    + by eapply split_halves_ok.
    + right. exists vm. split_and!; try done. intros v Hv. by apply split_correct.
  - intros [Hok _] v Hv. by apply split_correct.
  - destruct vm; try discriminate Hsm; apply (inj Some) in Hsm; subst sm; done.
  - intros _. destruct vm; try discriminate Hsm; apply (inj Some) in Hsm; subst sm; simpl; lia.
Qed.

(** ** Halves *)

Lemma simplifyHalf_correct h :
  half_ok h →
  half_ok (simplifyHalfValueMatcher h) ∧
  (∀ v, in_u32 v → half_matches (simplifyHalfValueMatcher h) v = half_matches h v) ∧
  (simplifyHalfValueMatcher h = h ∨ half_bulk (simplifyHalfValueMatcher h) < half_bulk h)%nat.
Proof.
  destruct h as [|k|k|m k|]; intros Hok; try by (split_and!; [..|left]).
  - simpl. destruct (Z.eqb_spec k 0) as [->|]; [|by split_and!; [..|left]].
    split_and!; [done| |right; simpl; lia]. intros v Hv. simpl. by rewrite Z.land_0_r.
  - destruct Hok as [Hm Hk]. unfold simplifyHalfValueMatcher.
    destruct (Z.eqb_spec m 0) as [->|], (Z.eqb_spec k 0) as [->|]; simpl.
    all: try (destruct (Z.eqb_spec m 0xffffffff) as [->|]; simpl).
    all: split_and!; try done; try (right; simpl; lia); try by left.
    all: intros v Hv; simpl; rewrite ?Z.land_0_r; try done.
    all: change 0xffffffff with (Z.ones 32); rewrite Z.land_ones by lia.
    all: unfold in_u32 in Hv; by rewrite Z.mod_small.
Qed.

Lemma simplifyHalf_weight h : (half_weight (simplifyHalfValueMatcher h) <= half_weight h)%nat.
Proof. destruct h; simpl; repeat case_if; simpl; unfold half_weight; simpl; lia. Qed.

Lemma simplify_half_spec h :
  half_ok h →
  simplify_half h = (simplifyHalfValueMatcher h, bool_decide (simplifyHalfValueMatcher h ≠ h)).
Proof.
  intros Hok. unfold simplify_half. pose proof (simplifyHalf_correct h Hok) as (Hok' & _ & _).
  case_bool_decide as Hr.
  - apply half_Repr_inj in Hr; [|by left..]. by rewrite Hr, bool_decide_false by tauto.
  - rewrite bool_decide_true; [done|]. intros E. by rewrite E in Hr.
Qed.

Lemma simplify_replacement :
  replacement (λ vm, (simplify_arg vm).1) (λ vm, (simplify_arg vm).2).
Proof.
  assert (Hspec : ∀ sm, half_ok (highMatcher sm) → half_ok (lowMatcher sm) →
    let h := simplifyHalfValueMatcher (highMatcher sm) in
    let l := simplifyHalfValueMatcher (lowMatcher sm) in
    simplify_arg (Some (Split sm)) =
      (Some (Split (mkSplit (repr sm) h l)), bool_decide (h ≠ highMatcher sm) || bool_decide (l ≠ lowMatcher sm))).
  { intros sm Hh Hl h l. simpl. by rewrite !simplify_half_spec. }
  assert (Hm : ∀ sm v, half_ok (highMatcher sm) → half_ok (lowMatcher sm) → in_u64 v →
    split_matches (mkSplit (repr sm) (simplifyHalfValueMatcher (highMatcher sm))
      (simplifyHalfValueMatcher (lowMatcher sm))) v = split_matches sm v).
  { intros sm v Hh Hl Hv. unfold split_matches. simpl.
    apply simplifyHalf_correct in Hh as (_ & Hh & _), Hl as (_ & Hl & _).
    by rewrite Hh, Hl by auto with bpf. }
  assert (Hflag : ∀ h h' : halfValueMatcher, (h' = h ∨ half_bulk h' < half_bulk h)%nat →
    if bool_decide (h' ≠ h) then (half_bulk h' < half_bulk h)%nat else h' = h).
  { intros h h' Hh. case_bool_decide; [tauto|]. destruct (decide (h' = h)); tauto. }
  split; intros [vm|]; try done; destruct vm as [| | | | | | | | |sm|]; try done.
  - intros [[Hh Hl] Hs]. rewrite Hspec by done. split; simpl.
    + split; by apply simplifyHalf_correct.
    + destruct Hs as [Hs|(vm & Hp & Hne & Hok & Hr & Hvm)]; [by left|right].
      exists vm. split_and!; try done. intros v Hv. by rewrite Hm, Hvm.
  - intros [[Hh Hl] Hs] v Hv. rewrite Hspec by done. by apply Hm.
  - pose proof (simplifyHalf_weight (highMatcher sm)). pose proof (simplifyHalf_weight (lowMatcher sm)).
    simpl. unfold simplify_half. repeat case_bool_decide; simpl; lia.
  - intros [[Hh Hl] Hs]. rewrite Hspec by done.
    apply simplifyHalf_correct in Hh as (_ & _ & Hh), Hl as (_ & _ & Hl). destruct sm as [r h l]; simpl in *.
    apply Hflag in Hh, Hl. do 2 case_bool_decide; simpl; rewrite ?Hh, ?Hl; done || lia.
Qed.

Lemma any_split_replacement :
  replacement (λ vm, if is_any_split vm then Some AnyValue else vm) is_any_split.
Proof.
  assert (Hany : ∀ h, is_halfAnyValue h = true → h = halfAnyValue) by (by intros []).
  split; intros [vm|]; try done; destruct vm as [| | | | | | | | |[r h l]|]; try done; simpl.
  - by case_if.
  - intros _ v Hv. destruct (is_halfAnyValue h && is_halfAnyValue l) eqn:E; [|done]. apply andb_prop in E as [->%Hany ->%Hany]. done.
  - case_if; simpl; lia.
  - intros _. case_if; simpl; [lia|done].
Qed.

(** ** Compound rules *)

Lemma compound_cases T r :
  as_compound T r = None ∨ ∃ rs, as_compound T r = Some rs ∧ r = to_compound T rs.
Proof. destruct T, r; (by left) || (right; by eexists). Qed.

Lemma compound_legit T rs :
  rule_legit (to_compound T rs) ↔ rs ≠ [] ∧ Forall rule_legit rs.
Proof.
  split.
  - destruct T; intros H; inversion_clear H; done.
  - intros [Hne Hall]. destruct T; by constructor.
Qed.

(** What a compound matches, from what its members match. *)
Definition compound_fold (T : compound) (d : SeccompData) (rs : list SyscallRule) : bool :=
  match T with
  | COr => existsb (λ r, rule_matches r d) rs
  | CAnd => forallb (λ r, rule_matches r d) rs
  end.

Lemma compound_matches T rs d : rule_matches (to_compound T rs) d = compound_fold T d rs.
Proof. by destruct T. Qed.

Lemma compound_app T d rs1 rs2 :
  compound_fold T d (rs1 ++ rs2) =
  match T with
  | COr => compound_fold T d rs1 || compound_fold T d rs2
  | CAnd => compound_fold T d rs1 && compound_fold T d rs2
  end.
Proof. destruct T; [apply existsb_app|apply forallb_app]. Qed.

Lemma compound_bulk T rs : bulk (to_compound T rs) = S (sum_list (bulk <$> rs)).
Proof. by destruct T. Qed.

Lemma compound_spread T rs : spread (to_compound T rs) = sum_list (spread <$> rs).
Proof. by destruct T. Qed.

Lemma bulk_pos r : (1 <= bulk r)%nat.
Proof. destruct r; simpl; lia. Qed.

Lemma single_pass T : pass_ok anything (convertSingleCompoundRuleToThatRule T).
Proof.
  intros r Hr _. unfold convertSingleCompoundRuleToThatRule.
  destruct (compound_cases T r) as [->|(rs & -> & ->)]; [by eexists _, false|].
  destruct rs as [|r [|r' rs]]; [by eexists _, false| |by eexists _, false].
  apply compound_legit in Hr as [_ [Hr _]%Forall_cons]. exists r, true. split; [done|]. split.
  - done.
  - intros d Hd. rewrite compound_matches. destruct T; simpl; by rewrite ?orb_false_r, ?andb_true_r.
  - rewrite compound_spread. csimpl. lia.
  - right. rewrite compound_bulk. csimpl. lia.
Qed.

(** The members of a compound, those of compounds of the same kind replaced by their members. *)
Definition flat (T : compound) (rs : list SyscallRule) : list SyscallRule :=
  rs ≫= λ r, default [r] (as_compound T r).

Lemma flatten_fold T rs acc :
  foldl (λ acc subRule,
    match as_compound T subRule with
    | Some subT => acc ++ subT
    | None => acc ++ [subRule]
    end) acc rs = acc ++ flat T rs.
Proof.
  revert acc. induction rs as [|r rs IH]; intros acc; csimpl; [by rewrite app_nil_r|].
  unfold flat. csimpl. rewrite IH. destruct (as_compound T r); simpl; by rewrite <- app_assoc.
Qed.

Lemma flat_legit T rs : Forall rule_legit rs → Forall rule_legit (flat T rs).
Proof.
  induction 1 as [|r rs Hr _ IH]; [constructor|]. unfold flat. csimpl. apply Forall_app. split; [|done].
  destruct (compound_cases T r) as [->|(rs' & E & ->)]; [by constructor|]. rewrite E.
  by apply compound_legit in Hr as [_ Hr].
Qed.

Lemma flat_matches T rs d : compound_fold T d (flat T rs) = compound_fold T d rs.
Proof.
  induction rs as [|r rs IH]; [done|]. unfold flat. csimpl. rewrite compound_app. fold (flat T rs).
  rewrite IH. destruct (compound_cases T r) as [->|(rs' & -> & ->)]; simpl.
  - destruct T; simpl; by rewrite ?orb_false_r, ?andb_true_r.
  - by destruct T.
Qed.

Lemma sum_app l1 l2 : sum_list (l1 ++ l2) = (sum_list l1 + sum_list l2)%nat.
Proof. induction l1; simpl; lia. Qed.

Lemma sum_flat T rs (f : SyscallRule → nat) (k : nat) :
  (∀ rs', sum_list (f <$> rs') + k <= f (to_compound T rs'))%nat →
  (sum_list (f <$> flat T rs) + (if existsb (is_compound T) rs then k else 0) <=
   sum_list (f <$> rs))%nat.
Proof.
  intros Hf. induction rs as [|r rs IH]; [done|]. unfold flat. csimpl. fold (flat T rs).
  rewrite fmap_app, sum_app. unfold is_compound at 1.
  destruct (compound_cases T r) as [->|(rs' & -> & ->)]; simpl; [lia|].
  specialize (Hf rs'). destruct (existsb _ rs); lia.
Qed.

Lemma flatten_pass T : pass_ok anything (flattenCompoundRules T).
Proof.
  intros r Hr _. unfold flattenCompoundRules.
  destruct (compound_cases T r) as [->|(rs & -> & ->)]; [by eexists _, false|].
  destruct (existsb (is_compound T) rs) eqn:E; [|by eexists _, false].
  eexists _, true. split; [done|]. rewrite flatten_fold. simpl.
  apply compound_legit in Hr as [Hne Hall]. split.
  - apply compound_legit. split; [|by apply flat_legit].
    destruct rs as [|r rs]; [done|]. apply Forall_cons in Hall as [Hr _].
    unfold flat. csimpl. destruct (compound_cases T r) as [->|(rs' & -> & ->)]; [done|].
    apply compound_legit in Hr as [Hr _]. by destruct rs'.
  - intros d Hd. rewrite !compound_matches. apply flat_matches.
  - rewrite !compound_spread. pose proof (sum_flat T rs spread 0) as Hs. rewrite E in Hs.
    rewrite Nat.add_0_r in Hs. apply Hs. intros rs'. rewrite compound_spread. lia.
  - right. rewrite !compound_bulk. pose proof (sum_flat T rs bulk 1) as Hs. rewrite E in Hs.
    enough (sum_list (bulk <$> flat T rs) + 1 <= sum_list (bulk <$> rs))%nat by lia. apply Hs.
    intros rs'. rewrite compound_bulk. lia.
Qed.

Lemma matchall_or_pass : pass_ok anything convertMatchAllOrXToMatchAll.
Proof.
  intros r Hr _. destruct r as [|rs| |]; try by eexists _, false. simpl.
  destruct (existsb is_MatchAll rs) eqn:E; [|by eexists _, false].
  eexists _, true. split; [done|]. apply existsb_exists in E as (r & Hin & HM). destruct r; try done.
  split; [constructor| |simpl; lia|].
  - intros d Hd. simpl. symmetry. apply existsb_exists. by exists MatchAll.
  - right. simpl. destruct rs as [|r rs]; [done|]. csimpl. pose proof (bulk_pos r). lia.
Qed.

Lemma sum_filter {A} (P : A → Prop) `{∀ x, Decision (P x)} (f : A → nat) l :
  (sum_list (f <$> filter P l) <= sum_list (f <$> l))%nat.
Proof. induction l as [|x l IH]; [done|]. rewrite filter_cons. case_decide; csimpl; lia. Qed.

Lemma matchall_and_pass : pass_ok anything convertMatchAllAndXToX.
Proof.
  intros r Hr _. destruct r as [| |rs|]; try by eexists _, false. simpl.
  destruct (existsb is_MatchAll rs) eqn:E; [|by eexists _, false]. simpl.
  inversion_clear Hr as [| |? Hne Hall|].
  set (P := λ subRule, is_MatchAll subRule = false).
  assert (Hm : ∀ d, forallb (λ r, rule_matches r d) (filter P rs) = forallb (λ r, rule_matches r d) rs).
  { intros d. clear. induction rs as [|r rs IH]; [done|]. rewrite filter_cons. unfold P at 1.
    case_decide; simpl; rewrite IH; [done|]. by destruct r. }
  pose proof (sum_filter P spread rs) as Hs.
  assert (Hb : (sum_list (bulk <$> filter P rs) < sum_list (bulk <$> rs))%nat).
  { clear -E. induction rs as [|r rs IH]; [done|]. rewrite filter_cons. unfold P at 1.
    simpl in E. pose proof (bulk_pos r). case_decide as Hd; csimpl.
    - rewrite Hd in E. apply IH in E. lia.
    - pose proof (sum_filter P bulk rs). lia. }
  assert (Hl : Forall rule_legit (filter P rs)) by (rewrite Forall_forall in Hall |- *; intros r [_ Hin]%list_elem_of_filter; by apply Hall).
  destruct (filter P rs) as [|r' rs'] eqn:F; eexists _, true; (split; [done|]); split.
  - constructor.
  - intros d Hd. simpl. by rewrite <- Hm.
  - simpl. lia.
  - right. simpl. lia.
  - by constructor.
  - intros d Hd. simpl. by rewrite <- Hm.
  - done.
  - right. simpl in *. lia.
Qed.

Lemma useless_pass : pass_ok anything convertUselessPerArgToMatchAll.
Proof.
  intros r Hr _. destruct r as [| | |pa]; try by eexists _, false. simpl.
  destruct (forallb is_AnyValue pa) eqn:E; [|by eexists _, false].
  eexists _, true. split; [done|]. split; [constructor| |simpl; lia|right; simpl; lia].
  intros d Hd. simpl. generalize 0%nat. revert E. clear. induction pa as [|a pa IH]; [done|].
  simpl. intros [Ha E]%andb_prop i. destruct a as [[]|]; try done. by apply IH.
Qed.

(** ** Duplicates *)

Definition no_nil (pa : list (option ValueMatcher)) : Prop := Forall is_Some pa.

Lemma legit_signature pa : args_legit pa → no_nil pa → ∃ sig, signature pa = Some sig.
Proof.
  intros [_ Hl] Hn. apply signature_total. unfold no_nil in Hn. rewrite Forall_forall in Hl, Hn |- *.
  intros a Ha. specialize (Hl a Ha). destruct (Hn a Ha) as [vm ->]. exists vm. split; [done|].
  by apply legit_printable.
Qed.

Lemma same_repr_matches a b : arg_legit a → arg_legit b → same_repr a b → same_matches a b.
Proof. intros Ha Hb (va & vb & -> & -> & Hr) v Hv. by apply Repr_sound. Qed.

Lemma same_signature pa1 pa2 sig :
  args_legit pa1 → args_legit pa2 → signature pa1 = Some sig → signature pa2 = Some sig →
  same_rule (PerArg pa1) (PerArg pa2).
Proof.
  intros [_ H1] [_ H2] S1 S2 d Hd. simpl. apply args_match_same; [done|].
  pose proof (signature_inj _ _ sig S1 S2) as S. clear S1 S2. induction S as [|a b pa1 pa2 Hab _ IH]; [done|].
  apply Forall_cons in H1 as [Ha H1], H2 as [Hb H2]. constructor; [by apply same_repr_matches|by apply IH].
Qed.

Lemma compound_absorb T d l r rs :
  (∃ r0, r0 ∈ l ∧ rule_matches r0 d = rule_matches r d) →
  compound_fold T d (l ++ r :: rs) = compound_fold T d (l ++ rs).
Proof.
  intros (r0 & Hin & Hr). rewrite !compound_app. apply list_elem_of_In in Hin.
  destruct T; simpl; rewrite <- Hr; destruct (rule_matches r0 d) eqn:E; try done.
  - rewrite (proj2 (existsb_exists _ l)); [done|]. by exists r0.
  - destruct (forallb _ l) eqn:F; [|done]. by rewrite forallb_forall in F; rewrite F in E.
Qed.

(** The signatures of [known] are those of rules of [pre]. *)
Definition knows (known : gset string) (pre : list SyscallRule) : Prop :=
  ∀ sig, sig ∈ known → ∃ pa, PerArg pa ∈ pre ∧ args_legit pa ∧ signature pa = Some sig.

Lemma knows_app known pre r : knows known pre → knows known (pre ++ [r]).
Proof. intros H sig (pa & Hin & Hpa)%H. exists pa. split; [|done]. apply elem_of_app. by left. Qed.

(** What [dedup_loop] returns for [rs], after [pre]. *)
Definition dedup_result (T : compound) (pre rs rs' : list SyscallRule) (c : bool) : Prop :=
  Forall rule_legit rs' ∧
  (∀ d, data_ok d → compound_fold T d (pre ++ rs') = compound_fold T d (pre ++ rs)) ∧
  (sum_list (spread <$> rs') <= sum_list (spread <$> rs))%nat ∧
  if c then (sum_list (bulk <$> rs') < sum_list (bulk <$> rs))%nat else rs' = rs.

Lemma dedup_keep T pre r rs rs' c :
  rule_legit r → dedup_result T (pre ++ [r]) rs rs' c → dedup_result T pre (r :: rs) (r :: rs') c.
Proof.
  intros Hr (Hl & Hm & Hs & Hb). split_and!; [by constructor| |csimpl; lia|].
  - intros d Hd. specialize (Hm d Hd). by rewrite <- !app_assoc in Hm.
  - destruct c; [csimpl; lia|by f_equal].
Qed.

Lemma dedup_drop T pre pa0 pa rs rs' c sig :
  args_legit pa0 → args_legit pa → PerArg pa0 ∈ pre → signature pa0 = Some sig →
  signature pa = Some sig → dedup_result T pre rs rs' c →
  dedup_result T pre (PerArg pa :: rs) rs' true.
Proof.
  intros H0 Hpa Hin S0 S (Hl & Hm & Hs & Hb). split_and!; [done| |csimpl; lia|].
  - intros d Hd. rewrite Hm by done. symmetry. apply compound_absorb. exists (PerArg pa0).
    split; [done|]. by apply (same_signature _ _ sig).
  - csimpl. simpl. destruct c; [lia|]. subst rs'. lia.
Qed.

Lemma dedup_correct T rs known pre :
  Forall rule_legit rs → Forall (rule_with no_nil) rs → knows known pre →
  ∃ rs' c, dedup_loop known rs = Some (rs', c) ∧ dedup_result T pre rs rs' c.
Proof.
  intros Hl. revert known pre. induction Hl as [|r rs Hr Hl IH]; intros known pre Hn Hk.
  { by exists [], false. }
  apply Forall_cons in Hn as [Hrn Hn].
  assert (Hkeep : ∀ known', knows known' (pre ++ [r]) → ∃ rs' c,
    ('(newRules, changed) ← dedup_loop known' rs; Some (r :: newRules, changed)) = Some (rs', c) ∧
    dedup_result T pre (r :: rs) rs' c).
  { intros known' Hk'. destruct (IH known' (pre ++ [r])) as (rs' & c & E & Hres); try done.
    exists (r :: rs'), c. rewrite E. split; [done|by apply dedup_keep]. }
  pose proof (knows_app known pre r Hk) as Hk'.
  destruct r as [|rs0|rs0|pa]; simpl; try by apply Hkeep.
  inversion_clear Hr as [| | |? Hpa]. inversion_clear Hrn as [| | |? Hnil].
  destruct (legit_signature pa) as [sig S]; try done. rewrite S. simpl. case_bool_decide as Hin.
  - destruct (Hk sig Hin) as (pa0 & Hin0 & Hpa0 & S0).
    destruct (IH known pre) as (rs' & c & -> & Hres); try done.
    exists rs', true. split; [done|]. by eapply dedup_drop.
  - apply Hkeep. intros sig' [->%elem_of_singleton|Hs]%elem_of_union; [|by apply Hk'].
    exists pa. split_and!; try done. apply elem_of_app. right. by apply list_elem_of_singleton.
Qed.

Lemma dedup_pass T : pass_ok no_nil (deduplicatePerArgs T).
Proof.
  intros r Hr Hn. unfold deduplicatePerArgs.
  destruct (compound_cases T r) as [->|(rs & -> & ->)]; [by eexists _, false|].
  destruct (length rs <? 2)%nat; [by eexists _, false|].
  apply compound_legit in Hr as [Hne Hall].
  assert (Hn' : Forall (rule_with no_nil) rs) by (destruct T; by inversion_clear Hn).
  destruct (dedup_correct T rs ∅ []) as (rs' & c & E & Hl & Hm & Hs & Hb); [done..|set_solver|].
  rewrite E. simpl. destruct c; simpl; [|by eexists _, false].
  eexists _, true. split; [done|]. split.
  - apply compound_legit. split; [|done]. intros ->. destruct rs as [|r rs]; [done|]. simpl in E.
    destruct r; simplify_option_eq; try set_solver; by repeat case_match; simplify_eq.
  - intros d Hd. rewrite !compound_matches. by apply Hm.
  - by rewrite !compound_spread.
  - right. rewrite !compound_bulk. lia.
Qed.


(** ** Members of a compound *)

Record improves_all (T : compound) (rs rs' : list SyscallRule) : Prop := {
  ia_legit : rs' ≠ [] ∧ Forall rule_legit rs';
  ia_same d : data_ok d → compound_fold T d rs' = compound_fold T d rs;
  ia_spread : (sum_list (spread <$> rs') <= sum_list (spread <$> rs))%nat;
  ia_bulk : (sum_list (spread <$> rs') < sum_list (spread <$> rs) ∨
             sum_list (bulk <$> rs') < sum_list (bulk <$> rs))%nat
}.

Lemma improves_head T r r' rs :
  Forall rule_legit rs → improves r r' → improves_all T (r :: rs) (r' :: rs).
Proof.
  intros Hrs [Hl Hm Hs Hb]. split; csimpl; [by split; [|constructor]| |lia|lia].
  intros d Hd. specialize (Hm d Hd). destruct T; simpl; by rewrite Hm.
Qed.

Lemma improves_tail T r rs rs' :
  rule_legit r → improves_all T rs rs' → improves_all T (r :: rs) (r :: rs').
Proof.
  intros Hr [Hl Hm Hs Hb]. split; csimpl; [by split; [|constructor; [|apply Hl]]| |lia|lia].
  intros d Hd. specialize (Hm d Hd). destruct T; simpl in *; by rewrite Hm.
Qed.

Lemma improves_compound T rs rs' :
  improves_all T rs rs' → improves (to_compound T rs) (to_compound T rs').
Proof.
  intros [Hl Hm Hs Hb]. split; rewrite ?compound_spread, ?compound_bulk; [|..|lia].
  - by apply compound_legit.
  - intros d Hd. rewrite !compound_matches. by apply Hm.
  - done.
Qed.

(** ** Application *)

Section Apply.
Context (fn : ruleOptimizerFunc).

Definition apply_all : list SyscallRule → bool → option (list SyscallRule * bool) :=
  fix recurse rules changed :=
    match rules with
    | [] => Some ([], changed)
    | r :: rules' =>
        '(r, changed) ← apply_ fn r changed;
        '(rules', changed) ← recurse rules' changed;
        Some (r :: rules', changed)
    end.

Lemma apply_compound T rs c :
  apply_ fn (to_compound T rs) c =
  ('(rs', c') ← apply_all rs c;
   if (c' : bool) then Some (to_compound T rs', true) else fn (to_compound T rs')).
Proof. destruct T; simpl; fold apply_all; by destruct (apply_all rs c) as [[rs' []]|]. Qed.

Lemma apply_true r : apply_ fn r true = Some (r, true).
Proof.
  induction r as [|rs IH|rs IH|pa] using SyscallRule_nested_ind; [done| | |done].
  all: assert (Hall : apply_all rs true = Some (rs, true))
    by (induction IH as [|r rs Hr _ IH]; [done|]; simpl; by rewrite Hr; simpl; rewrite IH).
  - pose proof (apply_compound COr rs true) as E. rewrite Hall in E. apply E.
  - pose proof (apply_compound CAnd rs true) as E. rewrite Hall in E. apply E.
Qed.

Lemma apply_all_true rs : apply_all rs true = Some (rs, true).
Proof. induction rs as [|r rs IH]; [done|]. simpl. rewrite apply_true. simpl. by rewrite IH. Qed.

(** [fn] changes no [PerArg] of the rule. *)
Definition quiet : SyscallRule → Prop :=
  rule_with (λ pa, ∃ r', fn (PerArg pa) = Some (r', false)).

Definition applied (r : SyscallRule) : Prop :=
  ∃ r' c, apply_ fn r false = Some (r', c) ∧
    if (c : bool) then improves r r' else r' = r ∧ quiet r.

Lemma apply_all_correct T rs :
  Forall rule_legit rs → Forall applied rs →
  ∃ rs' c, apply_all rs false = Some (rs', c) ∧
    if (c : bool) then improves_all T rs rs' else rs' = rs ∧ Forall quiet rs.
Proof.
  intros Hl Ha. induction Ha as [|r rs (r' & c & E & Hc) _ IH]; [by exists [], false|].
  apply Forall_cons in Hl as [Hr Hl]. simpl. rewrite E. simpl. destruct c.
  - rewrite apply_all_true. exists (r' :: rs), true. split; [done|]. by apply improves_head.
  - destruct (IH Hl) as (rs' & c & -> & Hc'). simpl. destruct Hc as [-> Hq].
    exists (r :: rs'), c. split; [done|]. destruct c; [by apply improves_tail|].
    destruct Hc' as [-> Hqs]. by split; [|constructor].
Qed.

Lemma apply_correct Q r :
  pass_ok Q fn → rule_legit r → rule_with Q r → applied r.
Proof.
  intros Hfn. assert (Hcomp : ∀ T rs, Forall (λ r, rule_legit r → rule_with Q r → applied r) rs →
    rule_legit (to_compound T rs) → rule_with Q (to_compound T rs) → applied (to_compound T rs)).
  { intros T rs IH Hl HQ. pose proof Hl as [Hne Hls]%compound_legit.
    assert (HQs : Forall (rule_with Q) rs) by (destruct T; by inversion_clear HQ).
    assert (Ha : Forall applied rs) by (rewrite Forall_forall in *; eauto).
    unfold applied. rewrite apply_compound.
    destruct (apply_all_correct T rs Hls Ha) as (rs' & c & -> & Hc). simpl. destruct c.
    - exists (to_compound T rs'), true. split; [done|by apply improves_compound].
    - destruct Hc as [-> Hq]. destruct (Hfn _ Hl HQ) as (r' & c & E & Hc). exists r', c.
      split; [done|]. destruct c; [done|]. split; [done|]. destruct T; by constructor. }
  induction r as [|rs IH|rs IH|pa] using SyscallRule_nested_ind; intros Hl HQ.
  - destruct (Hfn _ Hl HQ) as (r' & c & E & Hc). exists r', c. split; [done|].
    destruct c; [done|]. by split; [|constructor].
  - by apply (Hcomp COr).
  - by apply (Hcomp CAnd).
  - destruct (Hfn _ Hl HQ) as (r' & c & E & Hc). exists r', c. split; [done|].
    destruct c; [done|]. split; [done|]. constructor. by exists r'.
Qed.

End Apply.
