(* ===== verification/ExtractFacts.v ===== *)
(** * Extraction of repeated matchers

    [extractRepeatedMatchers] turns an [Or] of [PerArg]s into the [And] of what one argument
    has to match and what the others have to match.  That is the same rule because every
    matcher of the argument occurs with every choice of the other matchers, which the function
    finds out by comparing strings.  Its recursion ends, and it lowers [spread]. *)

From stdpp Require Import base numbers decidable strings pretty gmap list.
From S2P Require Import Prelude Instr Builder SeccompAbi SeccompRules RuleFacts RuleOpt ReprFacts.
From S2P Require Import RuleOptBase.

Local Open Scope Z_scope.

(** ** Parts of a matcher *)

(** The three extractions. *)
Inductive kind : Type := KWhole | KHigh | KLow.

Definition kind_fn (k : kind) (j : nat) : extractFn :=
  match k with KWhole => extract_whole j | KHigh => extract_high j | KLow => extract_low j end.

(** A matcher in two parts, the token that the second part is compared by, and whether the
    parts match any value. *)
Record part : Type := mkPart {
  p_extracted : ValueMatcher;
  p_left : ValueMatcher;
  p_token : ValueMatcher;
  p_any : bool;
  p_left_any : bool
}.

Definition part_of (k : kind) (vm : ValueMatcher) : option part :=
  match k, vm with
  | KWhole, _ => Some (mkPart vm AnyValue invalidValueMatcher (is_AnyValue (Some vm)) true)
  | KHigh, Split sm =>
      Some (mkPart (Split (high32BitsMatch (highMatcher sm))) (Split (low32BitsMatch (lowMatcher sm)))
        (Split (mkSplit "" invalidHalfValueMatcher (lowMatcher sm)))
        (is_halfAnyValue (highMatcher sm)) (is_halfAnyValue (lowMatcher sm)))
  | KLow, Split sm =>
      Some (mkPart (Split (low32BitsMatch (lowMatcher sm))) (Split (high32BitsMatch (highMatcher sm)))
        (Split (mkSplit "" (highMatcher sm) invalidHalfValueMatcher))
        (is_halfAnyValue (lowMatcher sm)) (is_halfAnyValue (highMatcher sm)))
  | _, _ => None
  end.

Ltac by_part :=
  match goal with
  | H : part_of ?k ?vm = Some ?p |- _ =>
      destruct k; [|destruct vm as [| | | | | | | | |[?r ?h ?l]|]; try discriminate H..];
      apply (inj Some) in H; subst p; simpl in *
  end.

Lemma part_matches k vm p v :
  part_of k vm = Some p →
  value_matches vm v = value_matches (p_extracted p) v && value_matches (p_left p) v.
Proof.
  intros Hp. by_part; [by rewrite andb_true_r|..]; unfold split_matches; simpl;
    by rewrite ?andb_true_r, 1?andb_comm.
Qed.

Lemma part_legit k vm p :
  part_of k vm = Some p → value_legit vm → value_legit (p_extracted p) ∧ value_legit (p_left p).
Proof. intros Hp [Hok Hl]. by_part; unfold value_legit, split_legit; simpl; tauto. Qed.

Lemma part_weight k vm p :
  part_of k vm = Some p →
  arg_weight (Some vm) = (arg_weight (Some (p_extracted p)) + arg_weight (Some (p_left p)))%nat.
Proof. intros Hp. by_part; unfold half_weight; simpl; lia. Qed.

Lemma part_token k vm p : part_of k vm = Some p → value_legit vm → half_token (p_token p).
Proof. intros Hp [Hok Hl]. by_part; unfold half_fine; tauto. Qed.

(** Extracted parts that print the same are the same, as far as matching goes. *)
Lemma part_extracted_same k vm1 vm2 p1 p2 :
  part_of k vm1 = Some p1 → part_of k vm2 = Some p2 → value_legit vm1 → value_legit vm2 →
  Repr (p_extracted p1) = Repr (p_extracted p2) →
  same_matches (Some (p_extracted p1)) (Some (p_extracted p2)) ∧ p_any p1 = p_any p2.
Proof.
  intros H1 H2 L1 L2 Hr.
  pose proof (proj1 (part_legit _ _ _ H1 L1)) as E1. pose proof (proj1 (part_legit _ _ _ H2 L2)) as E2.
  split; [intros v Hv; by apply Repr_sound|].
  destruct (Repr_sound _ _ E1 E2 Hr) as [Hany _]. destruct k.
  - apply (inj Some) in H1, H2. subst p1 p2. simpl in *.
    destruct vm1, vm2; try done; by (discriminate (proj1 Hany eq_refl) || discriminate (proj2 Hany eq_refl)).
  - destruct vm1 as [| | | | | | | | |[r1 h1 l1]|], vm2 as [| | | | | | | | |[r2 h2 l2]|]; try done.
    apply (inj Some) in H1, H2. subst p1 p2.
    apply Repr_inj in Hr; [|apply E1|apply E2|done|done]. by injection Hr as ->.
  - destruct vm1 as [| | | | | | | | |[r1 h1 l1]|], vm2 as [| | | | | | | | |[r2 h2 l2]|]; try done.
    apply (inj Some) in H1, H2. subst p1 p2.
    apply Repr_inj in Hr; [|apply E1|apply E2|done|done]. by injection Hr as ->.
Qed.

(** Parts left over for which the same token is printed are the same. *)
Lemma part_left_same k vm1 vm2 p1 p2 :
  part_of k vm1 = Some p1 → part_of k vm2 = Some p2 → value_legit vm1 → value_legit vm2 →
  Repr (p_token p1) = Repr (p_token p2) → p_left p1 = p_left p2 ∧ p_left_any p1 = p_left_any p2.
Proof.
  intros H1 H2 L1 L2 Hr.
  pose proof (part_token _ _ _ H1 L1) as T1. pose proof (part_token _ _ _ H2 L2) as T2.
  destruct k; [apply (inj Some) in H1, H2; by subst|..].
  all: destruct vm1 as [| | | | | | | | |[r1 h1 l1]|], vm2 as [| | | | | | | | |[r2 h2 l2]|]; try done.
  all: apply (inj Some) in H1, H2; subst p1 p2; simpl in *.
  all: destruct T1 as (_ & ? & ?), T2 as (_ & ? & ?).
  all: apply split_Repr_inj in Hr; [by injection Hr as ->|done..].
Qed.

(** ** Extraction from a [PerArg] *)

(** [fine] matchers: legitimate and none of them nil. *)
Definition fine (pa : list (option ValueMatcher)) : Prop := args_legit pa ∧ no_nil pa.

Lemma fine_insert pa j vm : fine pa → value_legit vm → fine (<[j := Some vm]> pa).
Proof.
  intros [[Hlen Hl] Hn] Hv. split; [split|].
  - by rewrite length_insert.
  - by apply Forall_insert.
  - by apply Forall_insert.
Qed.

Lemma fine_lookup pa j : fine pa → (j < S RuleIP)%nat → ∃ vm, pa !! j = Some (Some vm) ∧ value_legit vm.
Proof.
  intros [[Hlen Hl] Hn] Hj. destruct (lookup_lt_is_Some_2 pa j) as [a Ha]; [lia|].
  destruct (Forall_lookup_1 _ _ _ _ Hn Ha) as [vm ->]. exists vm. split; [done|].
  apply (Forall_lookup_1 _ _ _ _ Hl Ha).
Qed.

(** The extraction of part [p] of the matcher [vm], the [j]-th of [pa]. *)
Inductive extraction (k : kind) (j : nat) (pa : list (option ValueMatcher)) : extractData → Prop :=
  | extraction_intro vm p sig :
      pa !! j = Some (Some vm) → value_legit vm → part_of k vm = Some p →
      signature (<[j := Some (p_token p)]> pa) = Some sig →
      extraction k j pa
        (mkExtract (Some (p_extracted p)) (<[j := Some (p_left p)]> pa) sig (p_any p)
           (p_left_any p && others_are_any j pa)).

Lemma others_any_insert j pa :
  (j < length pa)%nat → forallb is_AnyValue (<[j := Some AnyValue]> pa) = others_are_any j pa.
Proof.
  unfold others_are_any. revert j. induction pa as [|a pa IH]; intros [|j] Hj; simpl in *; try lia; [done|].
  by rewrite IH by lia.
Qed.

Lemma kind_fn_spec k j pa :
  fine pa → (j < S RuleIP)%nat →
  match pa !! j ≫= (λ a, a ≫= part_of k) with
  | Some _ => ∃ ed, kind_fn k j pa = Some (Some ed) ∧ extraction k j pa ed
  | None => kind_fn k j pa = Some None
  end.
Proof.
  intros Hpa Hj. destruct (fine_lookup pa j Hpa Hj) as (vm & Hvm & Hl). rewrite Hvm. simpl.
  destruct (part_of k vm) as [p|] eqn:Hp.
  - assert (∃ sig, signature (<[j := Some (p_token p)]> pa) = Some sig) as [sig S].
    { apply signature_total. apply Forall_insert.
      - destruct Hpa as [[_ Hla] Hn]. apply Forall_forall. intros a Ha.
        rewrite Forall_forall in Hla. unfold no_nil in Hn. rewrite Forall_forall in Hn.
        destruct (Hn a Ha) as [vm' ->]. exists vm'. split; [done|].
        apply legit_printable, (Hla _ Ha).
      - eexists. split; [done|]. by eapply half_token_printable, part_token. }
    eexists. split; [|by apply (extraction_intro k j pa vm p sig)].
    destruct k; [|destruct vm; try discriminate Hp..]; apply (inj Some) in Hp; subst p; simpl in *;
      unfold extract_whole, extract_high, extract_low; rewrite Hvm; simpl; rewrite S; simpl.
    + by rewrite others_any_insert by (destruct Hpa as [[-> _] _]; done).
    + done.
    + done.
  - destruct k; [done|..]; destruct vm; try discriminate Hp;
      unfold kind_fn, extract_high, extract_low; by rewrite Hvm.
Qed.

Lemma args_match_extract d i j pa a :
  pa !! j = Some a →
  args_match d i pa =
  arg_matches a (data_value d (i + j)) && args_match d i (<[j := Some AnyValue]> pa).
Proof.
  revert i j. induction pa as [|b pa IH]; intros i [|j] H; try done.
  - injection H as ->. simpl (<[_ := _]> _). rewrite !args_match_cons, Nat.add_0_r. done.
  - change (<[S j := Some AnyValue]> (b :: pa)) with (b :: <[j := Some AnyValue]> pa).
    rewrite !args_match_cons, (IH (S i) j H). replace (S i + j)%nat with (i + S j)%nat by lia.
    destruct (arg_matches b _), (arg_matches a _); done.
Qed.

Definition weight (pa : list (option ValueMatcher)) : nat := sum_list (arg_weight <$> pa).

Lemma weight_extract j pa a :
  pa !! j = Some a → weight pa = (arg_weight a + weight (<[j := Some AnyValue]> pa))%nat.
Proof.
  unfold weight. revert j. induction pa as [|b pa IH]; intros [|j] H; try done; csimpl.
  - injection H as ->. done.
  - rewrite (IH j H). lia.
Qed.

(** The [PerArg] that has only the [j]-th matcher. *)
Definition only (j : nat) (a : option ValueMatcher) : list (option ValueMatcher) :=
  <[j := a]> (replicate (S RuleIP) (Some AnyValue)).

Lemma only_any j : <[j := Some AnyValue]> (replicate (S RuleIP) (Some AnyValue)) = replicate (S RuleIP) (Some AnyValue).
Proof. apply insert_replicate. Qed.

Lemma only_lookup j a : (j < S RuleIP)%nat → only j a !! j = Some a.
Proof. intros Hj. unfold only. rewrite list_lookup_insert_eq; [done|]. by rewrite length_replicate. Qed.

Lemma only_match d j a : (j < S RuleIP)%nat → args_match d 0 (only j a) = arg_matches a (data_value d j).
Proof.
  intros Hj. rewrite (args_match_extract d 0 j _ a) by (by apply only_lookup).
  unfold only. rewrite list_insert_insert_eq, only_any. by rewrite andb_true_r.
Qed.

Lemma only_weight j a : (j < S RuleIP)%nat → weight (only j a) = arg_weight a.
Proof.
  intros Hj. rewrite (weight_extract j _ a) by (by apply only_lookup).
  unfold only. rewrite list_insert_insert_eq, only_any. unfold weight. simpl. lia.
Qed.

Lemma only_fine j vm : value_legit vm → fine (only j (Some vm)).
Proof.
  intros Hv. apply fine_insert; [|done]. split; [split|]; [done|..].
  all: apply Forall_replicate; done.
Qed.

(** *** What an extraction does *)

Section Extraction.
Context (k : kind) (j : nat) (Hj : (j < S RuleIP)%nat).

Lemma extraction_match pa ed d :
  extraction k j pa ed →
  args_match d 0 pa =
  arg_matches (extractedMatcher ed) (data_value d j) && args_match d 0 (otherMatchers ed).
Proof.
  intros [vm p sig Hvm _ Hp _]. simpl. rewrite (args_match_extract d 0 j pa (Some vm)) by done.
  rewrite (args_match_extract d 0 j (<[j := Some (p_left p)]> pa) (Some (p_left p))).
  - rewrite list_insert_insert_eq. simpl. rewrite (part_matches k vm p) by done. by rewrite andb_assoc.
  - apply list_lookup_insert_eq. by eapply lookup_lt_Some.
Qed.

Lemma extraction_weight pa ed :
  extraction k j pa ed → weight pa = (arg_weight (extractedMatcher ed) + weight (otherMatchers ed))%nat.
Proof.
  intros [vm p sig Hvm _ Hp _]. simpl (otherMatchers _). simpl (extractedMatcher _).
  rewrite (weight_extract j pa (Some vm)) by done.
  rewrite (weight_extract j (<[j := Some (p_left p)]> pa) (Some (p_left p))).
  - rewrite list_insert_insert_eq, (part_weight k vm p) by done. lia.
  - apply list_lookup_insert_eq. by eapply lookup_lt_Some.
Qed.

Lemma extraction_fine pa ed :
  extraction k j pa ed → fine pa →
  fine (otherMatchers ed) ∧ ∃ vm, extractedMatcher ed = Some vm ∧ value_legit vm.
Proof.
  intros [vm p sig Hvm Hl Hp _] Hpa. simpl. destruct (part_legit k vm p Hp Hl) as [He Hleft].
  split; [by apply fine_insert|by eexists].
Qed.

Lemma extraction_extracted_same pa1 pa2 ed1 ed2 vm1 vm2 :
  extraction k j pa1 ed1 → extraction k j pa2 ed2 →
  extractedMatcher ed1 = Some vm1 → extractedMatcher ed2 = Some vm2 → Repr vm1 = Repr vm2 →
  same_matches (extractedMatcher ed1) (extractedMatcher ed2) ∧
  extractedMatcherIsAnyValue ed1 = extractedMatcherIsAnyValue ed2.
Proof.
  intros [v1 p1 s1 _ L1 P1 _] [v2 p2 s2 _ L2 P2 _]. simpl. intros [= <-] [= <-] Hr.
  by apply (part_extracted_same k v1 v2).
Qed.

Lemma others_any_spec pa :
  others_are_any j pa = true ↔ ∀ i a, i ≠ j → pa !! i = Some a → is_AnyValue a = true.
Proof.
  unfold others_are_any. rewrite forallb_forall. split.
  - intros H i a Hi Ha. apply H. apply list_elem_of_In, list_elem_of_lookup.
    destruct (decide (i < j)%nat).
    + exists i. by rewrite list_lookup_delete_lt.
    + exists (i - 1)%nat. rewrite list_lookup_delete_ge by lia. by replace (S (i - 1)) with i by lia.
  - intros H a [i Hi]%list_elem_of_In%list_elem_of_lookup. destruct (decide (i < j)%nat).
    + rewrite list_lookup_delete_lt in Hi by done. apply (H i); [lia|done].
    + rewrite list_lookup_delete_ge in Hi by lia. apply (H (S i)); [lia|done].
Qed.

Lemma same_repr_any a b :
  arg_legit a → arg_legit b → same_repr a b → is_AnyValue a = true → is_AnyValue b = true.
Proof.
  intros Ha Hb (va & vb & -> & -> & Hr) Hany. destruct va; try done.
  destruct (Repr_sound AnyValue vb Ha Hb Hr) as [E _]. by rewrite (proj1 E).
Qed.

Lemma extraction_others_same pa1 pa2 ed1 ed2 :
  fine pa1 → fine pa2 → extraction k j pa1 ed1 → extraction k j pa2 ed2 →
  otherMatchersSig ed1 = otherMatchersSig ed2 →
  Forall2 same_matches (otherMatchers ed1) (otherMatchers ed2) ∧
  (otherMatchersAreAllAnyValue ed1 = true → otherMatchersAreAllAnyValue ed2 = true).
Proof.
  intros [[Len1 F1] _] [[Len2 F2] _] [v1 p1 s1 V1 L1 P1 S1] [v2 p2 s2 V2 L2 P2 S2]. simpl. intros <-.
  pose proof (signature_inj _ _ _ S1 S2) as HF.
  assert (Hat : same_repr (Some (p_token p1)) (Some (p_token p2))).
  { eapply (Forall2_lookup_lr _ _ _ j); [exact HF|..]; apply list_lookup_insert_eq; lia. }
  destruct Hat as (t1 & t2 & [= <-] & [= <-] & Ht).
  destruct (part_left_same k v1 v2 p1 p2) as [El Ea]; try done.
  assert (Hoth : ∀ i a b, i ≠ j → pa1 !! i = Some a → pa2 !! i = Some b → same_repr a b).
  { intros i a b Hi Ha Hb. eapply (Forall2_lookup_lr _ _ _ i); [exact HF|..];
      by rewrite list_lookup_insert_ne. }
  split.
  - apply Forall2_same_length_lookup. split; [rewrite !length_insert; lia|]. intros i a b Ha Hb.
    destruct (decide (i = j)) as [->|Hi].
    + rewrite list_lookup_insert_eq in Ha, Hb by lia. rewrite El in Ha. by simplify_eq.
    + rewrite list_lookup_insert_ne in Ha, Hb by done.
      apply same_repr_matches;
        [apply (Forall_lookup_1 _ _ _ _ F1 Ha)|apply (Forall_lookup_1 _ _ _ _ F2 Hb)|by eapply Hoth].
  - intros [Hla Ho]%andb_prop. rewrite <- Ea, Hla. simpl. apply others_any_spec. intros i b Hi Hb.
    destruct (lookup_lt_is_Some_2 pa1 i) as [a Ha]; [apply lookup_lt_Some in Hb; lia|].
    apply (same_repr_any a);
      [apply (Forall_lookup_1 _ _ _ _ F1 Ha)|apply (Forall_lookup_1 _ _ _ _ F2 Hb)|by eapply Hoth|].
    by eapply others_any_spec.
Qed.

(** Without matchers of which both halves match anything, a matcher that is not [AnyValue]
    constrains the argument. *)
Definition no_any_split (pa : list (option ValueMatcher)) : Prop :=
  Forall (λ a, is_any_split a = false) pa.

Lemma constrains a :
  is_Some a → is_any_split a = false → is_AnyValue a = false → (0 < arg_weight a)%nat.
Proof.
  intros [vm ->] Hs Ha. destruct vm as [| | | | | | | | |[r h l]|]; simpl in *; try done; try lia.
  unfold half_weight. destruct (is_halfAnyValue h), (is_halfAnyValue l); simpl in *; done || lia.
Qed.

Lemma extraction_pays pa ed :
  fine pa → no_any_split pa → extraction k j pa ed →
  (extractedMatcherIsAnyValue ed = false → (0 < arg_weight (extractedMatcher ed))%nat) ∧
  (otherMatchersAreAllAnyValue ed = false → (0 < weight (otherMatchers ed))%nat).
Proof.
  intros [_ Hn] Hs [vm p sig V L P _]. simpl (extractedMatcherIsAnyValue _).
  simpl (otherMatchersAreAllAnyValue _). simpl (otherMatchers _). simpl (extractedMatcher _). split.
  - intros Ha. pose proof (Forall_lookup_1 _ _ _ _ Hs V) as Hv. by_part.
    + by apply (constrains (Some vm)).
    + unfold half_weight. rewrite Ha. simpl. lia.
    + unfold half_weight. rewrite Ha. simpl. lia.
  - intros [Hl|Ho]%andb_false_iff.
    + rewrite (weight_extract j _ (Some (p_left p)))
        by (apply list_lookup_insert_eq; by eapply lookup_lt_Some).
      by_part; [done|..]; unfold half_weight; rewrite Hl; simpl; lia.
    + assert (∃ i a, i ≠ j ∧ pa !! i = Some a ∧ is_AnyValue a = false) as (i & a & Hi & Ha & Hany).
      { apply not_true_iff_false in Ho. rewrite others_any_spec in Ho.
        destruct (decide (Exists (λ i, i ≠ j ∧ is_AnyValue (default None (pa !! i)) = false) (seq 0 (length pa)))) as [Hex|Hno].
        - apply Exists_exists in Hex as (i & [_ Hi]%elem_of_seq & Hij & Hany).
          destruct (lookup_lt_is_Some_2 pa i) as [a Ha]; [lia|]. exists i, a. by rewrite Ha in Hany.
        - destruct Ho. intros i a Hi Ha. destruct (is_AnyValue a) eqn:E; [done|]. destruct Hno.
          apply Exists_exists. exists i. rewrite Ha. split; [|done]. apply elem_of_seq.
          apply lookup_lt_Some in Ha. lia. }
      rewrite (weight_extract i _ a) by (by rewrite list_lookup_insert_ne).
      pose proof (constrains a (Forall_lookup_1 _ _ _ _ Hn Ha) (Forall_lookup_1 _ _ _ _ Hs Ha) Hany). lia.
Qed.

End Extraction.
