(* ===== verification/ExtractLoop.v ===== *)
(** * The search for repeated matchers, and its recursion

    The branches an extraction is applied to are a product: every extracted matcher occurs
    with every choice of the others. *)

From stdpp Require Import base numbers decidable strings pretty gmap list.
From S2P Require Import Prelude Instr Builder SeccompAbi SeccompRules RuleFacts RuleOpt ReprFacts.
From S2P Require Import RuleOptBase ExtractFacts.

Local Open Scope Z_scope.

(** ** Collecting signatures *)

Definition sigs_of (st : extractState) (r : string) : gset string :=
  default ∅ (argExprToOtherMatchersSigs st !! r).

Definition ed_repr (ed : extractData) : option string := Repr <$> extractedMatcher ed.

(** [st'] is [st] with what the extractions [eds] add. *)
Record collected (st : extractState) (eds : list extractData) (st' : extractState) : Prop := {
  co_all s : s ∈ allOtherMatchersSigs st' ↔
    s ∈ allOtherMatchersSigs st ∨ ∃ ed, ed ∈ eds ∧ otherMatchersSig ed = s;
  co_sigs r s : s ∈ sigs_of st' r ↔
    s ∈ sigs_of st r ∨ ∃ ed, ed ∈ eds ∧ ed_repr ed = Some r ∧ otherMatchersSig ed = s;
  co_arg : allArgNumMatchersAreAnyValue st' =
    allArgNumMatchersAreAnyValue st && forallb extractedMatcherIsAnyValue eds;
  co_other : allOtherMatchersAreAnyValue st' =
    allOtherMatchersAreAnyValue st && forallb otherMatchersAreAllAnyValue eds
}.

Lemma collected_nil st : collected st [] st.
Proof.
  split; [intros s|intros r s| |]; rewrite ?andb_true_r; try done.
  all: split; [by left|]; intros [H|(ed & Hin & _)]; [done|by apply elem_of_nil in Hin].
Qed.

Lemma collected_cons st ed vm eds st' :
  extractedMatcher ed = Some vm →
  collected
    (mkExtractState ({[ otherMatchersSig ed ]} ∪ allOtherMatchersSigs st)
       (<[Repr vm := {[ otherMatchersSig ed ]} ∪ sigs_of st (Repr vm)]> (argExprToOtherMatchersSigs st))
       (allArgNumMatchersAreAnyValue st && extractedMatcherIsAnyValue ed)
       (allOtherMatchersAreAnyValue st && otherMatchersAreAllAnyValue ed)) eds st' →
  collected st (ed :: eds) st'.
Proof.
  intros Hvm [Ha Hs H1 H2]. split; [intros s|intros r s| |].
  - rewrite Ha. simpl. rewrite elem_of_union, elem_of_singleton. setoid_rewrite elem_of_cons. naive_solver.
  - rewrite Hs. unfold sigs_of at 1. simpl. setoid_rewrite elem_of_cons.
    assert (Hr : ed_repr ed = Some (Repr vm)) by (unfold ed_repr; by rewrite Hvm).
    destruct (decide (r = Repr vm)) as [->|Hne].
    + rewrite lookup_insert_eq. simpl. rewrite elem_of_union, elem_of_singleton. naive_solver.
    + rewrite lookup_insert_ne by done. fold (sigs_of st r). naive_solver.
  - rewrite H1. simpl. by rewrite andb_assoc.
  - rewrite H2. simpl. by rewrite andb_assoc.
Qed.

Section Branches.
Context (k : kind) (j : nat) (Hj : (j < S RuleIP)%nat).

(** [fn] extracts [ed] from [pa]. *)
Definition extracts (pa : list (option ValueMatcher)) (ed : extractData) : Prop :=
  kind_fn k j pa = Some (Some ed) ∧ extraction k j pa ed.

Definition has_part (pa : list (option ValueMatcher)) : bool :=
  bool_decide (is_Some (pa !! j ≫= λ a, a ≫= part_of k)).

Lemma collect_correct bs st :
  Forall fine bs →
  if forallb has_part bs then
    ∃ eds st', collect (kind_fn k j) bs st = Some (Some st') ∧ Forall2 extracts bs eds ∧ collected st eds st'
  else collect (kind_fn k j) bs st = Some None.
Proof.
  intros Hf. revert st. induction Hf as [|pa bs Hpa _ IH]; intros st.
  { exists [], st. split_and!; [done|done|apply collected_nil]. }
  simpl. unfold has_part at 1. pose proof (kind_fn_spec k j pa Hpa Hj) as Hk.
  destruct (pa !! j ≫= λ a, a ≫= part_of k) as [p|].
  - rewrite bool_decide_true by (by eexists). simpl. destruct Hk as (ed & Hk & Hed). rewrite Hk. simpl.
    destruct (extraction_fine _ _ _ _ Hed Hpa) as (_ & vm & Hvm & _). rewrite Hvm. simpl.
    match goal with |- context [collect _ bs ?s] => specialize (IH s) end.
    destruct (forallb has_part bs); [|done]. destruct IH as (eds & st' & E & HF & Hc).
    exists (ed :: eds), st'. split_and!; [done|by constructor|]. by eapply collected_cons.
  - rewrite bool_decide_false by (by intros []). simpl. by rewrite Hk.
Qed.

(** ** Products *)

(** Every extracted matcher occurs with every choice of the other matchers. *)
Definition product (eds : list extractData) : Prop :=
  ∀ ed1 ed2, ed1 ∈ eds → ed2 ∈ eds →
    ∃ ed, ed ∈ eds ∧ ed_repr ed = ed_repr ed1 ∧ otherMatchersSig ed = otherMatchersSig ed2.

Lemma sameStringSet_eq m1 m2 : sameStringSet m1 m2 = true → m1 = m2.
Proof.
  unfold sameStringSet. intros [Hs%Nat.eqb_eq Hsub%bool_decide_eq_true]%andb_prop.
  apply leibniz_equiv, (set_subseteq_size_equiv m1 m2); [done|lia].
Qed.

Lemma can_extract_correct bs :
  Forall fine bs → ∃ ok, can_extract (kind_fn k j) bs = Some ok ∧
    (ok = true → ∃ eds, Forall2 extracts bs eds ∧ product eds ∧
      Exists (λ ed, extractedMatcherIsAnyValue ed = false) eds ∧
      Exists (λ ed, otherMatchersAreAllAnyValue ed = false) eds).
Proof.
  intros Hf. unfold can_extract. pose proof (collect_correct bs extractState0 Hf) as Hc.
  destruct (forallb has_part bs); [|by rewrite Hc; exists false].
  destruct Hc as (eds & st & -> & HF & [Ha Hs H1 H2]). simpl.
  destruct (allArgNumMatchersAreAnyValue st || allOtherMatchersAreAnyValue st) eqn:E; [by exists false|].
  eexists. split; [done|]. intros Hall%bool_decide_eq_true. exists eds.
  apply orb_false_iff in E as [E1 E2]. rewrite H1 in E1. rewrite H2 in E2. simpl in E1, E2.
  assert (Hfalse : ∀ f : extractData → bool, forallb f eds = false → Exists (λ ed, f ed = false) eds).
  { intros f. clear. induction eds as [|ed eds IH]; [done|]. simpl.
    intros [H|H]%andb_false_iff; [by left|right; by apply IH]. }
  split_and!; [done| |by apply Hfalse..].
  intros ed1 ed2 Hin1 Hin2.
  assert (∃ r, ed_repr ed1 = Some r) as [r Hr].
  { pose proof Hin1 as [i Hi]%list_elem_of_lookup.
    destruct (Forall2_lookup_r _ _ _ _ _ HF Hi) as (pa & _ & _ & []). by eexists. }
  assert (Hs1 : otherMatchersSig ed1 ∈ sigs_of st r) by (apply Hs; right; by exists ed1).
  unfold sigs_of in Hs1. destruct (argExprToOtherMatchersSigs st !! r) as [omsigs|] eqn:Hl;
    [|by apply elem_of_empty in Hs1].
  pose proof (sameStringSet_eq _ _ (Hall r omsigs Hl)) as Heq.
  assert (Hs2 : otherMatchersSig ed2 ∈ sigs_of st r).
  { unfold sigs_of. rewrite Hl. simpl. rewrite Heq. apply Ha. right. by exists ed2. }
  apply Hs in Hs2 as [[]%elem_of_empty|(ed & Hin & Hr' & Hsig)]. exists ed. by rewrite Hr', Hr.
Qed.

Lemma extract_all_correct bs eds :
  Forall2 extracts bs eds →
  extract_all j (kind_fn k j) bs =
  Some ((λ ed, only j (extractedMatcher ed)) <$> eds, otherMatchers <$> eds).
Proof. induction 1 as [|pa ed bs eds [E _] _ IH]; [done|]. simpl. by rewrite E, IH. Qed.

Lemma existsb_elem {A} (f : A → bool) l : existsb f l = true ↔ ∃ x, x ∈ l ∧ f x = true.
Proof. rewrite existsb_exists. by setoid_rewrite list_elem_of_In. Qed.

Lemma extracts_of bs eds ed :
  Forall fine bs → Forall2 extracts bs eds → ed ∈ eds → ∃ pa, pa ∈ bs ∧ fine pa ∧ extraction k j pa ed.
Proof.
  intros Hf HF [i Hi]%list_elem_of_lookup.
  destruct (Forall2_lookup_r _ _ _ _ _ HF Hi) as (pa & Hpa & _ & He). exists pa.
  split_and!; [by eapply list_elem_of_lookup_2|by eapply Forall_lookup_1|done].
Qed.

Lemma extracts_from bs eds pa :
  Forall2 extracts bs eds → pa ∈ bs → ∃ ed, ed ∈ eds ∧ extraction k j pa ed.
Proof.
  intros HF [i Hi]%list_elem_of_lookup.
  destruct (Forall2_lookup_l _ _ _ _ _ HF Hi) as (ed & Hed & _ & He). exists ed.
  split; [by eapply list_elem_of_lookup_2|done].
Qed.

(** In a product, some branch has the extracted matcher of one branch and the others of
    another one. *)
Lemma product_branch bs eds ed1 ed2 :
  Forall fine bs → Forall2 extracts bs eds → product eds → ed1 ∈ eds → ed2 ∈ eds →
  ∃ pa ed, pa ∈ bs ∧ ed ∈ eds ∧ extraction k j pa ed ∧
    same_matches (extractedMatcher ed) (extractedMatcher ed1) ∧
    extractedMatcherIsAnyValue ed = extractedMatcherIsAnyValue ed1 ∧
    Forall2 same_matches (otherMatchers ed) (otherMatchers ed2) ∧
    (otherMatchersAreAllAnyValue ed = true → otherMatchersAreAllAnyValue ed2 = true).
Proof.
  intros Hf HF Hprod H1 H2. destruct (Hprod ed1 ed2 H1 H2) as (ed & Hin & Hr & Hs).
  destruct (extracts_of _ _ _ Hf HF Hin) as (pa & Hpa & Hfine & He).
  destruct (extracts_of _ _ _ Hf HF H1) as (pa1 & _ & Hfine1 & He1).
  destruct (extracts_of _ _ _ Hf HF H2) as (pa2 & _ & Hfine2 & He2).
  destruct (extraction_fine _ _ _ _ He Hfine) as (_ & vm & Hvm & _).
  destruct (extraction_fine _ _ _ _ He1 Hfine1) as (_ & vm1 & Hvm1 & _).
  unfold ed_repr in Hr. rewrite Hvm, Hvm1 in Hr. apply (inj Some) in Hr.
  destruct (extraction_extracted_same k j _ _ _ _ _ _ He He1 Hvm Hvm1 Hr) as [Hm Ha].
  destruct (extraction_others_same k j Hj _ _ _ _ Hfine Hfine2 He He2 Hs) as [Hm' Ha'].
  by exists pa, ed.
Qed.

Lemma extract_same bs eds d :
  Forall fine bs → Forall2 extracts bs eds → product eds → data_ok d →
  existsb (λ ed, arg_matches (extractedMatcher ed) (data_value d j)) eds &&
  existsb (λ ed, args_match d 0 (otherMatchers ed)) eds = existsb (args_match d 0) bs.
Proof.
  intros Hf HF Hprod Hd. apply eq_true_iff_eq. rewrite andb_true_iff, !existsb_elem. split.
  - intros [(ed1 & H1 & M1) (ed2 & H2 & M2)].
    destruct (product_branch bs eds ed1 ed2) as (pa & ed & Hpa & _ & He & Hm & _ & Hm' & _); try done.
    exists pa. split; [done|]. rewrite (extraction_match k j pa ed) by done.
    rewrite (Hm _ (data_value_range d j Hd)), M1. by rewrite (args_match_same d 0 _ _ Hd Hm').
  - intros (pa & Hpa & M). destruct (extracts_from bs eds pa HF Hpa) as (ed & Hin & He).
    rewrite (extraction_match k j pa ed) in M by done. apply andb_prop in M as [M1 M2].
    split; by exists ed.
Qed.

(** ** Weights *)

Definition square (n : nat) : nat := n * n.

Lemma sum_eds_le bs eds :
  Forall2 extracts bs eds →
  (sum_list ((λ ed, square (arg_weight (extractedMatcher ed))) <$> eds) +
   sum_list ((λ ed, square (weight (otherMatchers ed))) <$> eds) <=
   sum_list ((λ pa, square (weight pa)) <$> bs))%nat.
Proof.
  induction 1 as [|pa ed bs eds [_ He] _ IH]; [done|]. csimpl.
  rewrite (extraction_weight k j Hj pa ed) by done. unfold square in *. nia.
Qed.

Lemma sum_eds_lt bs eds :
  Forall2 extracts bs eds →
  (∃ ed, ed ∈ eds ∧ 0 < arg_weight (extractedMatcher ed) ∧ 0 < weight (otherMatchers ed))%nat →
  (sum_list ((λ ed, square (arg_weight (extractedMatcher ed))) <$> eds) +
   sum_list ((λ ed, square (weight (otherMatchers ed))) <$> eds) <
   sum_list ((λ pa, square (weight pa)) <$> bs))%nat.
Proof.
  induction 1 as [|pa ed bs eds [Hk He] HF IH]; intros (ed0 & Hin & He0 & Ho0); [by apply elem_of_nil in Hin|].
  csimpl. rewrite (extraction_weight k j Hj pa ed) by done. unfold square in *.
  apply elem_of_cons in Hin as [->|Hin].
  - pose proof (sum_eds_le bs eds HF) as Hle. unfold square in Hle. nia.
  - assert (∃ ed, ed ∈ eds ∧ 0 < arg_weight (extractedMatcher ed) ∧ 0 < weight (otherMatchers ed))%nat as Hex
      by (by exists ed0). apply IH in Hex. nia.
Qed.

Lemma extract_pays bs eds :
  Forall fine bs → Forall no_any_split bs → Forall2 extracts bs eds → product eds →
  Exists (λ ed, extractedMatcherIsAnyValue ed = false) eds →
  Exists (λ ed, otherMatchersAreAllAnyValue ed = false) eds →
  (∃ ed, ed ∈ eds ∧ 0 < arg_weight (extractedMatcher ed) ∧ 0 < weight (otherMatchers ed))%nat.
Proof.
  intros Hf Hs HF Hprod (ed1 & H1 & A1)%Exists_exists (ed2 & H2 & A2)%Exists_exists.
  destruct (product_branch bs eds ed1 ed2) as (pa & ed & Hpa & Hin & He & _ & Ha & _ & Ho); try done.
  rewrite Forall_forall in Hf, Hs.
  destruct (extraction_pays k j Hj pa ed (Hf _ Hpa) (Hs _ Hpa) He) as [P1 P2].
  exists ed. split_and!; [done|apply P1; congruence|apply P2].
  destruct (otherMatchersAreAllAnyValue ed); [|done]. by rewrite Ho in A2.
Qed.

End Branches.

(** ** Recursion *)

(** The part at [j] does not match any value. *)
Definition not_any (k : kind) (j : nat) (pa : list (option ValueMatcher)) : bool :=
  match pa !! j ≫= (λ a, a ≫= part_of k) with Some p => negb (p_any p) | None => false end.

(** All branches have the part, and not all of them match any value. *)
Definition live (bs : list (list (option ValueMatcher))) (x : nat * kind) : bool :=
  forallb (has_part x.2 x.1) bs && existsb (not_any x.2 x.1) bs.

Lemma has_part_lookup k j pa vm :
  pa !! j = Some (Some vm) → has_part k j pa = bool_decide (is_Some (part_of k vm)).
Proof. intros E. unfold has_part. by rewrite E. Qed.

Lemma not_any_lookup k j pa vm :
  pa !! j = Some (Some vm) →
  not_any k j pa = match part_of k vm with Some p => negb (p_any p) | None => false end.
Proof. intros E. unfold not_any. by rewrite E. Qed.

(** What is left after an extraction has no more parts to extract than before. *)
Lemma left_parts k k' vm p :
  part_of k vm = Some p →
  (is_Some (part_of k' (p_left p)) → is_Some (part_of k' vm)) ∧
  match part_of k' (p_left p) with
  | Some p' => p_any p' = true ∨ k ≠ k' ∧ ∃ p'', part_of k' vm = Some p'' ∧ p_any p'' = false
  | None => True
  end.
Proof.
  intros Hp. by_part.
  - destruct k'; simpl; (split; [try done; by intros []|]); auto.
  - destruct k'; simpl; split; try (intros; by eexists); auto.
    + right. split; [done|]. by eexists.
    + destruct (is_halfAnyValue l) eqn:E; [by left|right]. split; [done|]. by eexists.
  - destruct k'; simpl; split; try (intros; by eexists); auto.
    + right. split; [done|]. by eexists.
    + destruct (is_halfAnyValue h) eqn:E; [by left|right]. split; [done|]. by eexists.
Qed.

Lemma extraction_parts k j k' j' pa ed :
  extraction k j pa ed →
  (has_part k' j' (otherMatchers ed) = true → has_part k' j' pa = true) ∧
  (not_any k' j' (otherMatchers ed) = true → not_any k' j' pa = true ∧ (j, k) ≠ (j', k')).
Proof.
  intros [vm p sig V L P S]. simpl. destruct (decide (j' = j)) as [->|Hne].
  - assert (V' : <[j := Some (p_left p)]> pa !! j = Some (Some (p_left p)))
      by (apply list_lookup_insert_eq; by eapply lookup_lt_Some).
    rewrite (has_part_lookup _ _ _ _ V), (has_part_lookup _ _ _ _ V').
    rewrite (not_any_lookup _ _ _ _ V), (not_any_lookup _ _ _ _ V'). rewrite !bool_decide_eq_true.
    destruct (left_parts k k' vm p P) as [H1 H2]. split; [done|].
    destruct (part_of k' (p_left p)) as [p'|]; [|done]. intros Hn.
    destruct H2 as [H2|(Hk & p'' & -> & ->)]; [by rewrite H2 in Hn|]. split; [done|congruence].
  - unfold has_part, not_any. rewrite list_lookup_insert_ne by done. split; [done|].
    intros H. split; [done|congruence].
Qed.

Lemma live_after k j bs eds x :
  Forall2 (extracts k j) bs eds →
  live (otherMatchers <$> eds) x = true → live bs x = true ∧ (j, k) ≠ x.
Proof.
  destruct x as [j' k']. unfold live. simpl. intros HF [Hp Hn]%andb_prop.
  rewrite forallb_forall in Hp. apply existsb_elem in Hn as (pa' & Hin' & Hn).
  apply list_elem_of_fmap in Hin' as (ed & -> & Hin). split.
  - apply andb_true_intro. split.
    + apply forallb_forall. intros pa Hpa%list_elem_of_In.
      destruct (extracts_from k j bs eds pa HF Hpa) as (ed' & Hin' & He).
      apply (extraction_parts k j k' j' pa ed' He), Hp, list_elem_of_In. apply list_elem_of_fmap.
      by exists ed'.
    + apply existsb_elem. apply list_elem_of_lookup in Hin as [i Hi].
      destruct (Forall2_lookup_r _ _ _ _ _ HF Hi) as (pa & Hpa & _ & He). exists pa.
      split; [by eapply list_elem_of_lookup_2|]. by apply (extraction_parts k j k' j' pa ed He).
  - apply list_elem_of_lookup in Hin as [i Hi].
    destruct (Forall2_lookup_r _ _ _ _ _ HF Hi) as (pa & Hpa & _ & He).
    by apply (extraction_parts k j k' j' pa ed He).
Qed.

Lemma live_before k j bs eds :
  Forall2 (extracts k j) bs eds → Exists (λ ed, extractedMatcherIsAnyValue ed = false) eds →
  live bs (j, k) = true.
Proof.
  intros HF HE. unfold live. simpl. apply andb_true_intro. split.
  - apply forallb_forall. intros pa Hpa%list_elem_of_In.
    destruct (extracts_from k j bs eds pa HF Hpa) as (ed & _ & [vm p sig V L P S]).
    rewrite (has_part_lookup _ _ _ _ V), P. by apply bool_decide_true.
  - apply Exists_exists in HE as (ed & [i Hi]%list_elem_of_lookup & Ha). apply existsb_elem.
    destruct (Forall2_lookup_r _ _ _ _ _ HF Hi) as (pa & Hpa & _ & He). exists pa.
    split; [by eapply list_elem_of_lookup_2|]. revert Ha. clear Hi. destruct He as [vm p sig V L P S].
    simpl. intros Ha. by rewrite (not_any_lookup _ _ _ _ V), P, Ha.
Qed.

(** All extractions, in the order of [extractFns]. *)
Definition kinds : list (nat * kind) :=
  seq 0 (S RuleIP) ≫= λ j, [(j, KWhole); (j, KHigh); (j, KLow)].

Lemma extractFns_kinds : extractFns (S RuleIP) = (λ x, (x.1, kind_fn x.2 x.1)) <$> kinds.
Proof. done. Qed.

Lemma kinds_range x : x ∈ kinds → (x.1 < S RuleIP)%nat.
Proof.
  intros (j & Hx & [_ Hj]%elem_of_seq)%list_elem_of_bind.
  repeat (apply elem_of_cons in Hx as [->|Hx]; [simpl; lia|]). by apply elem_of_nil in Hx.
Qed.

(** The number of extractions that are still possible. *)
Definition live_count (bs : list (list (option ValueMatcher))) : nat :=
  sum_list ((λ x, Nat.b2n (live bs x)) <$> kinds).

Lemma live_count_bound bs : (live_count bs < extract_fuel)%nat.
Proof.
  assert (Hb : ∀ b, (Nat.b2n b <= 1)%nat) by (intros []; simpl; lia).
  unfold live_count. pose proof (sum_list_mono (λ x, Nat.b2n (live bs x)) (λ _, 1%nat) kinds) as H.
  eapply Nat.le_lt_trans; [apply H, Forall_true; intros; apply Hb|]. vm_compute. lia.
Qed.

Lemma live_count_after k j bs eds :
  (j, k) ∈ kinds → Forall2 (extracts k j) bs eds →
  Exists (λ ed, extractedMatcherIsAnyValue ed = false) eds →
  (live_count (otherMatchers <$> eds) < live_count bs)%nat.
Proof.
  intros Hin HF HE. apply sum_list_strict.
  - apply Forall_true. intros x. destruct (live (otherMatchers <$> eds) x) eqn:E; [|simpl; lia].
    apply (live_after k j bs) in E as [-> _]; done.
  - apply Exists_exists. exists (j, k). split; [done|]. rewrite (live_before k j bs eds) by done.
    destruct (live (otherMatchers <$> eds) (j, k)) eqn:E; [|simpl; lia].
    by apply (live_after k j bs) in E as [_ []].
Qed.

Lemma first_extract_correct bs xs :
  Forall fine bs → (∀ x, x ∈ xs → x ∈ kinds) →
  ∃ choice, first_extract ((λ x, (x.1, kind_fn x.2 x.1)) <$> xs) bs = Some choice ∧
    match choice with
    | None => True
    | Some (j, fn) => ∃ k, (j, k) ∈ kinds ∧ fn = kind_fn k j ∧ can_extract fn bs = Some true
    end.
Proof.
  intros Hf. induction xs as [|[j k] xs IH]; intros Hin; [by exists None|]. csimpl.
  assert (Hx : (j, k) ∈ kinds) by (apply Hin; by left).
  destruct (can_extract_correct k j (kinds_range _ Hx) bs Hf) as (ok & E & _). rewrite E. simpl.
  destruct ok; [exists (Some (j, kind_fn k j)); split; [done|]; by exists k|].
  apply IH. intros x Hx'. apply Hin. by right.
Qed.

(** ** The extraction *)

Lemma or_matches bs d : rule_matches (Or (PerArg <$> bs)) d = existsb (args_match d 0) bs.
Proof. induction bs as [|pa bs IH]; [done|]. simpl in *. f_equal. apply IH. Qed.

Lemma or_spread bs : spread (Or (PerArg <$> bs)) = sum_list ((λ pa, square (weight pa)) <$> bs).
Proof. simpl. by rewrite <- list_fmap_compose. Qed.

Lemma or_legit bs : bs ≠ [] → Forall fine bs → rule_legit (Or (PerArg <$> bs)).
Proof.
  intros Hne Hf. constructor; [by destruct bs|]. apply Forall_fmap. eapply Forall_impl; [done|].
  intros pa [Hpa _]. by constructor.
Qed.

(** What [extract_branches] returns. *)
Definition extract_result (bs : list (list (option ValueMatcher))) (r : SyscallRule) (c : bool) : Prop :=
  rule_legit r ∧ same_rule r (Or (PerArg <$> bs)) ∧ (spread r <= spread (Or (PerArg <$> bs)))%nat ∧
  if c then Forall no_any_split bs → (spread r < spread (Or (PerArg <$> bs)))%nat
  else r = Or (PerArg <$> bs).

Lemma extract_unchanged bs : bs ≠ [] → Forall fine bs → extract_result bs (Or (PerArg <$> bs)) false.
Proof. intros Hne Hf. split_and!; [by apply or_legit|done..]. Qed.

Lemma extract_changed k j bs eds r c :
  (j, k) ∈ kinds → bs ≠ [] → Forall fine bs → Forall2 (extracts k j) bs eds → product eds →
  Exists (λ ed, extractedMatcherIsAnyValue ed = false) eds →
  Exists (λ ed, otherMatchersAreAllAnyValue ed = false) eds →
  extract_result (otherMatchers <$> eds) r c →
  extract_result bs (And [Or (PerArg <$> ((λ ed, only j (extractedMatcher ed)) <$> eds)); r]) true.
Proof.
  intros Hj%kinds_range Hne Hf HF Hprod HE1 HE2 (Hl & Hm & Hs & _). simpl in Hj.
  set (os := (λ ed, only j (extractedMatcher ed)) <$> eds).
  assert (Hos : spread (Or (PerArg <$> os)) =
    sum_list ((λ ed, square (arg_weight (extractedMatcher ed))) <$> eds)).
  { rewrite or_spread. unfold os. rewrite <- list_fmap_compose. f_equal. apply list_fmap_ext.
    intros i ed _. unfold compose. by rewrite only_weight. }
  rewrite or_spread in Hs. rewrite <- list_fmap_compose in Hs.
  assert (Hsp : spread (And [Or (PerArg <$> os); r]) = (spread (Or (PerArg <$> os)) + spread r)%nat)
    by (simpl; lia).
  pose proof (sum_eds_le k j Hj bs eds HF) as Hle. unfold compose in Hs.
  split_and!.
  - constructor; [done|]. constructor; [|by constructor]. apply or_legit.
    + unfold os. destruct HF; [done|]. done.
    + unfold os. apply Forall_fmap, Forall_forall. intros ed Hin.
      destruct (extracts_of k j bs eds ed Hf HF Hin) as (pa & _ & Hpa & He).
      destruct (extraction_fine k j pa ed He Hpa) as (_ & vm & E & Hvm). unfold compose. rewrite E.
      by apply only_fine.
  - intros d Hd. rewrite or_matches, <- (extract_same k j Hj bs eds d) by done.
    change (rule_matches (And [Or (PerArg <$> os); r]) d)
      with (rule_matches (Or (PerArg <$> os)) d && (rule_matches r d && true)).
    rewrite andb_true_r, (Hm d Hd), !or_matches. f_equal.
    + unfold os. clear -Hj. induction eds as [|ed eds IH]; [done|]. csimpl. by rewrite only_match, IH.
    + clear. induction eds as [|ed eds IH]; [done|]. csimpl. by rewrite IH.
  - rewrite Hsp, Hos, or_spread. lia.
  - intros Hns. rewrite Hsp, Hos, or_spread.
    pose proof (sum_eds_lt k j Hj bs eds HF) as Hlt.
    assert (Hex := extract_pays k j Hj bs eds Hf Hns HF Hprod HE1 HE2). apply Hlt in Hex. lia.
Qed.

Lemma extract_branches_correct fuel bs :
  bs ≠ [] → Forall fine bs → (live_count bs < fuel)%nat →
  ∃ r c, extract_branches fuel bs = Some (r, c) ∧ extract_result bs r c.
Proof.
  revert bs. induction fuel as [|fuel IH]; intros bs Hne Hf Hfuel; [lia|]. simpl.
  destruct (length bs <? 2)%nat; [eexists _, _; split; [done|by apply extract_unchanged]|].
  assert (length <$> head bs = Some (S RuleIP)) as ->.
  { destruct bs as [|pa bs]; [done|]. apply Forall_cons in Hf as [[[Hlen _] _] _]. simpl. by rewrite Hlen. }
  cbn [mbind option_bind]. destruct (first_extract_correct bs kinds Hf) as (choice & E & Hchoice); [done|].
  rewrite extractFns_kinds, E. simpl. destruct choice as [[j fn]|];
    [|eexists _, _; split; [done|by apply extract_unchanged]].
  destruct Hchoice as (k & Hk & -> & Hcan). pose proof (kinds_range _ Hk) as Hj. simpl in Hj.
  destruct (can_extract_correct k j Hj bs Hf) as (ok & Hok & Hspec). rewrite Hcan in Hok.
  apply (inj Some) in Hok. destruct (Hspec (eq_sym Hok)) as (eds & HF & Hprod & HE1 & HE2).
  rewrite (extract_all_correct k j bs eds HF). simpl.
  destruct (IH (otherMatchers <$> eds)) as (r & c & -> & Hr).
  - by destruct HF.
  - apply Forall_fmap, Forall_forall. intros ed Hin.
    destruct (extracts_of k j bs eds ed Hf HF Hin) as (pa & _ & Hpa & He).
    by apply (extraction_fine k j pa ed He Hpa).
  - pose proof (live_count_after k j bs eds Hk HF HE1). lia.
  - eexists _, true. split; [done|]. by eapply extract_changed.
Qed.

(** ** The optimizer function *)

Definition no_nil_no_any (pa : list (option ValueMatcher)) : Prop := no_nil pa ∧ no_any_split pa.

Lemma perarg_branches_spec rs bs : perarg_branches rs = Some bs → rs = PerArg <$> bs.
Proof.
  unfold perarg_branches. revert bs. induction rs as [|r rs IH]; intros bs E; [by injection E as <-|].
  apply bind_Some in E as (pa & Hr & E). apply bind_Some in E as (bs' & Hbs & E). injection E as <-.
  destruct r; try done. injection Hr as ->. csimpl. f_equal. by apply IH.
Qed.

Lemma extract_pass : pass_ok no_nil_no_any extractRepeatedMatchers.
Proof.
  intros r Hr HQ. destruct r as [|rs| |]; try by eexists _, false. simpl.
  destruct (perarg_branches rs) as [bs|] eqn:E; [|by eexists _, false].
  apply perarg_branches_spec in E as ->.
  inversion_clear Hr as [|? Hne Hl| |]. inversion_clear HQ as [|? _ Hq| |].
  rewrite Forall_fmap in Hl, Hq.
  assert (Hf : Forall fine bs).
  { rewrite Forall_forall in Hl, Hq |- *. intros pa Hin. specialize (Hl pa Hin). specialize (Hq pa Hin).
    inversion_clear Hl. by inversion_clear Hq as [| | |? [Hn _]]. }
  destruct (extract_branches_correct extract_fuel bs) as (r & c & E & Hl' & Hm & Hs & Hc);
    [by destruct bs|done|apply live_count_bound|].
  exists r, c. split; [done|]. destruct c; [|done]. split; [done..|]. left. apply Hc.
  rewrite Forall_forall in Hq |- *. intros pa Hin. specialize (Hq pa Hin).
  by inversion_clear Hq as [| | |? [_ Hn]].
Qed.
