(* ===== verification/RuleOptFacts.v ===== *)
(** * Correctness and termination of the rule optimizer

    [optimizeSyscallRule] ends, without a panic, with a rule that matches the system calls the
    given rule matches and that none of its functions changes any more. *)

From stdpp Require Import base numbers decidable strings pretty gmap list.
From S2P Require Import Prelude Instr Builder SeccompAbi SeccompRules RuleFacts RuleOpt ReprFacts.
From S2P Require Import RuleOptBase ExtractFacts ExtractLoop.

Local Open Scope Z_scope.

(** ** One iteration *)

(** The first change of [funcs] improves the rule, or none of them changes it. *)
Definition progress (funcs : list ruleOptimizerFunc) (r : SyscallRule) : Prop :=
  ∃ r' c, first_rule_change funcs r = Some (r', c) ∧
    if (c : bool) then improves r r'
    else r' = r ∧ Forall (λ fn, apply_ fn r false = Some (r, false)) funcs.

Lemma progress_nil r : progress [] r.
Proof. by exists r, false. Qed.

Lemma progress_cons Q fn funcs r :
  pass_ok Q fn → rule_legit r → rule_with Q r → (quiet fn r → progress funcs r) →
  progress (fn :: funcs) r.
Proof.
  intros Hfn Hl HQ Hrest. destruct (apply_correct fn Q r Hfn Hl HQ) as (r' & c & E & Hc).
  unfold progress. simpl. rewrite E. simpl. destruct c; [by exists r', true|].
  destruct Hc as [-> Hq]. destruct (Hrest Hq) as (r' & c & -> & Hc). exists r', c. split; [done|].
  destruct c; [done|]. destruct Hc as [-> Hall]. by split; [|constructor].
Qed.

Lemma quiet_replacement f g fn r :
  (∀ pa, fn (PerArg pa) = Some (PerArg (f <$> pa), existsb g pa)) → quiet fn r →
  rule_with (Forall (λ a : option ValueMatcher, g a = false)) r.
Proof.
  intros Hfn. apply rule_with_mono. intros pa [r' E]. rewrite Hfn in E. injection E as _ E.
  induction pa as [|a pa IH]; [constructor|]. simpl in E. apply orb_false_iff in E as [Ea E].
  constructor; [done|by apply IH].
Qed.

Lemma quiet_nil r : quiet nilInPerArgToAnyValue r → rule_with no_nil r.
Proof.
  intros Hq. eapply rule_with_mono; [|by eapply (quiet_replacement _ _ nilInPerArgToAnyValue)].
  intros pa Hpa. eapply Forall_impl; [exact Hpa|]. intros [vm|]; [by eexists|done].
Qed.

Lemma quiet_any_split r : quiet anySplitMatchersToAnyValue r → rule_with no_any_split r.
Proof. intros Hq. by eapply (quiet_replacement _ _ anySplitMatchersToAnyValue). Qed.

Lemma rule_with_and P Q r : rule_with P r → rule_with Q r → rule_with (λ pa, P pa ∧ Q pa) r.
Proof.
  induction r as [|rs IH|rs IH|pa] using SyscallRule_nested_ind; intros HP HQ;
    inversion_clear HP; inversion_clear HQ; constructor; try done; rewrite Forall_forall in *; eauto.
Qed.

Lemma rule_funcs_progress r : rule_legit r → progress rule_funcs r.
Proof.
  intros Hl. pose proof (rule_with_anything r Hl) as HA. unfold rule_funcs.
  eapply (progress_cons anything); [apply single_pass|done|done|intros _].
  eapply (progress_cons anything); [apply single_pass|done|done|intros _].
  eapply (progress_cons anything); [apply flatten_pass|done|done|intros _].
  eapply (progress_cons anything); [apply flatten_pass|done|done|intros _].
  eapply (progress_cons anything); [apply matchall_or_pass|done|done|intros _].
  eapply (progress_cons anything); [apply matchall_and_pass|done|done|intros _].
  eapply (progress_cons anything);
    [apply (replacement_pass _ _ nil_replacement)|done|done|intros Hn%quiet_nil].
  eapply (progress_cons no_nil); [apply dedup_pass|done|done|intros _].
  eapply (progress_cons no_nil); [apply dedup_pass|done|done|intros _].
  eapply (progress_cons anything); [apply useless_pass|done|done|intros _].
  eapply (progress_cons anything);
    [apply (replacement_pass _ _ split_replacement)|done|done|intros _].
  eapply (progress_cons anything);
    [apply (replacement_pass _ _ simplify_replacement)|done|done|intros _].
  eapply (progress_cons anything);
    [apply (replacement_pass _ _ any_split_replacement)|done|done|intros Hs%quiet_any_split].
  eapply (progress_cons no_nil_no_any); [apply extract_pass|done|by apply rule_with_and|intros _].
  apply progress_nil.
Qed.

(** ** The loop *)

(** No function of the optimizer changes the rule. *)
Definition optimal (r : SyscallRule) : Prop :=
  Forall (λ fn, apply_ fn r false = Some (r, false)) rule_funcs.

Lemma optimize_rounds_correct rounds fuel r :
  rule_legit r → (spread r <= rounds)%nat → (bulk r < fuel)%nat →
  ∃ r', optimize_rounds rounds fuel r = Some r' ∧ rule_legit r' ∧ same_rule r' r ∧ optimal r'.
Proof.
  revert fuel r. induction rounds as [|rounds IHr]; induction fuel as [|fuel IHf];
    intros r Hl Hs Hb; [lia| |lia|].
  all: destruct (rule_funcs_progress r Hl) as (r' & c & E & Hc).
  all: cbn [optimize_rounds]; rewrite E; cbn [mbind option_bind negb]; destruct c; cbn [negb];
    [destruct Hc as [Hl' Hm Hs' Hb']|destruct Hc as [-> Hopt]; by exists r].
  - destruct (Nat.ltb_spec (spread r') (spread r)); [lia|].
    destruct (IHf r') as (r'' & E' & Hl'' & Hm' & Hopt); [done|lia|lia|].
    exists r''. split_and!; try done. by rewrite Hm'.
  - destruct (Nat.ltb_spec (spread r') (spread r)).
    + destruct (IHr (S (bulk r')) r') as (r'' & E' & Hl'' & Hm' & Hopt); [done|lia|lia|].
      exists r''. split_and!; try done. by rewrite Hm'.
    + destruct (IHf r') as (r'' & E' & Hl'' & Hm' & Hopt); [done|lia|lia|].
      exists r''. split_and!; try done. by rewrite Hm'.
Qed.

Lemma optimize_spec r :
  rule_legit r →
  ∃ r', optimizeSyscallRule r = Some r' ∧ rule_legit r' ∧ same_rule r' r ∧ optimal r'.
Proof. intros Hl. apply optimize_rounds_correct; [done|lia|lia]. Qed.

Lemma optimal_fixed r funcs :
  Forall (λ fn, apply_ fn r false = Some (r, false)) funcs → first_rule_change funcs r = Some (r, false).
Proof. induction 1 as [|fn funcs E _ IH]; [done|]. simpl. by rewrite E. Qed.

Lemma optimal_optimize r : optimal r → optimizeSyscallRule r = Some r.
Proof.
  intros Hopt. pose proof (optimal_fixed r rule_funcs Hopt) as E. unfold optimizeSyscallRule.
  destruct (spread r); cbn [optimize_rounds]; by rewrite E.
Qed.

(** ** Properties *)

(** C8. On every rule that is written with the exported matchers, has no empty compound and
    whose constants are 64 bits wide, [optimizeSyscallRule] returns, without panicking, and
    the rule it returns matches exactly the system calls that the given rule matches. *)
Theorem optimizeSyscallRule_correct r :
  written_rule r →
  ∃ r', optimizeSyscallRule r = Some r' ∧ rule_ok r' ∧
    ∀ d, data_ok d → rule_matches r' d = rule_matches r d.
Proof.
  intros (r' & E & Hl & Hm & _)%written_legit%optimize_spec. exists r'.
  split_and!; [done|by apply rule_legit_ok|done].
Qed.

Definition sample_rule : SyscallRule :=
  Or [ PerArg [Some (EqualTo 1); Some (EqualTo 7); None; None; None; None; None];
       PerArg [Some (EqualTo 1); Some (maskedEqual 0xff 3); None; None; None; None; None];
       And [PerArg [Some (GreaterThan 5); None; None; None; None; None; None]; MatchAll] ].

Lemma sample_rule_written : written_rule sample_rule.
Proof.
  repeat first [constructor | split]; done.
Qed.

Lemma optimizeSyscallRule_correct_witness :
  ∃ r', optimizeSyscallRule sample_rule = Some r' ∧ rule_ok r' ∧
    ∀ d, data_ok d → rule_matches r' d = rule_matches sample_rule d.
Proof. apply optimizeSyscallRule_correct, sample_rule_written. Defined.

(** C29. The rule [optimizeSyscallRule] returns is a fixed point: none of the optimizer
    functions changes it or any rule below it, and optimizing it again returns it. *)
Theorem optimizeSyscallRule_fixed_point r r' :
  written_rule r → optimizeSyscallRule r = Some r' →
  Forall (λ fn, apply_ fn r' false = Some (r', false)) rule_funcs ∧
  optimizeSyscallRule r' = Some r'.
Proof.
  intros (r'' & E & _ & _ & Hopt)%written_legit%optimize_spec E'. rewrite E in E'. injection E' as ->.
  split; [done|by apply optimal_optimize].
Qed.

Definition sample_optimized : SyscallRule :=
  default MatchAll (optimizeSyscallRule sample_rule).

Lemma optimizeSyscallRule_fixed_point_witness :
  Forall (λ fn, apply_ fn sample_optimized false = Some (sample_optimized, false)) rule_funcs ∧
  optimizeSyscallRule sample_optimized = Some sample_optimized.
Proof. apply (optimizeSyscallRule_fixed_point sample_rule); [apply sample_rule_written|by vm_compute]. Defined.
