(* ===== verification/SyscallRulesFacts.v ===== *)
(** * Sets of rules

    What [SyscallRules] operations of src/pkg/seccomp/seccomp_rules.go do to the system calls
    that match: [Merge], [ForSingleArgument] and the rules [DenyNewExecMappings]. *)

From stdpp Require Import base numbers decidable gmap list.
From S2P Require Import SeccompAbi SeccompRules RuleFacts RuleOptBase Prelude.

Local Open Scope Z_scope.

(** The system calls that match one of the rules. *)
Definition rules_match (sr : SyscallRules) (sysno : Z) (d : SeccompData) : bool :=
  match sr !! sysno with Some r => rule_matches r d | None => false end.

(** ** Merging *)

Lemma Add_match sr sysno r s d :
  rules_match (Add sr sysno r) s d = rules_match sr s d || (bool_decide (sysno = s) && rule_matches r d).
Proof.
  unfold rules_match, Add, SyscallRules in *. destruct (decide (sysno = s)) as [->|Hne].
  - rewrite bool_decide_true by done. destruct (sr !! s) as [cur|]; rewrite lookup_insert_eq; [|done].
    simpl. by rewrite orb_false_r.
  - rewrite bool_decide_false, orb_false_r by done. by destruct (sr !! sysno); rewrite lookup_insert_ne.
Qed.

Lemma Merge_match sr entries s d :
  rules_match (Merge sr entries) s d =
  rules_match sr s d || existsb (λ e, bool_decide (e.1 = s) && rule_matches e.2 d) entries.
Proof.
  unfold Merge. revert sr. induction entries as [|e entries IH]; intros sr; simpl; [by rewrite orb_false_r|].
  by rewrite IH, Add_match, orb_assoc.
Qed.

Lemma Merge_Has sr entries s :
  Has (Merge sr entries) s = Has sr s || existsb (λ e, bool_decide (e.1 = s)) entries.
Proof.
  unfold Merge. revert sr. induction entries as [|e entries IH]; intros sr; simpl; [by rewrite orb_false_r|].
  rewrite IH, orb_assoc. f_equal. unfold Has, Add, SyscallRules in *. destruct (decide (e.1 = s)) as [<-|Hne].
  - rewrite (bool_decide_true (e.1 = e.1)), orb_true_r by done. apply bool_decide_eq_true.
    destruct (sr !! e.1); rewrite lookup_insert_eq; by eexists.
  - rewrite (bool_decide_false (e.1 = s)), orb_false_r by done. by destruct (sr !! e.1); rewrite lookup_insert_ne.
Qed.

(** ** Single arguments *)

(** Rules that are made of [PerArg] rules only, and those. *)
Fixpoint only_args (r : SyscallRule) : bool :=
  match r with
  | PerArg _ => true
  | MatchAll | Or [] | And [] => false
  | Or rules | And rules => forallb only_args rules
  end.

Fixpoint args_of (r : SyscallRule) : list (list (option ValueMatcher)) :=
  match r with
  | PerArg pa => [pa]
  | MatchAll => []
  | Or rules | And rules => concat (args_of <$> rules)
  end.

Section single.
Context {E : Type} (argNum : nat) (fn : option ValueMatcher → option E).

(** [fn] accepts all that [r] says of the argument. *)
Definition accepted (r : SyscallRule) : Prop :=
  only_args r = true ∧ Forall (λ pa, fn (mjoin (pa !! argNum)) = None) (args_of r).

Lemma process_rules rules err :
  Forall (λ r, ∀ err, process argNum fn r err = None ↔ err = None ∧ accepted r) rules →
  foldl (λ err r, process argNum fn r err) err rules = None ↔ err = None ∧ Forall accepted rules.
Proof.
  intros HF. revert err. induction HF as [|r rules Hr _ IH]; intros err; simpl; [by rewrite Forall_nil; tauto|].
  rewrite IH, Hr, Forall_cons. tauto.
Qed.

Lemma accepted_rules rules :
  Forall accepted rules ↔
  forallb only_args rules = true ∧ Forall (λ pa, fn (mjoin (pa !! argNum)) = None) (concat (args_of <$> rules)).
Proof.
  induction rules as [|r rules IH]; [by rewrite Forall_nil|].
  rewrite Forall_cons, IH. simpl. rewrite andb_true_iff, Forall_app. unfold accepted. tauto.
Qed.

Lemma process_None r err : process argNum fn r err = None ↔ err = None ∧ accepted r.
Proof.
  revert err. induction r as [|rs IH|rs IH|pa] using SyscallRule_nested_ind; intros err.
  - split; [done|by intros [_ [? _]]].
  - destruct rs as [|r rs]; [split; [done|by intros [_ [? _]]]|].
    etrans; [by apply (process_rules (r :: rs))|]. by rewrite accepted_rules.
  - destruct rs as [|r rs]; [split; [done|by intros [_ [? _]]]|].
    etrans; [by apply (process_rules (r :: rs))|]. by rewrite accepted_rules.
  - unfold accepted. simpl. rewrite Forall_singleton. destruct (fn _) as [e|], err; naive_solver.
Qed.

(** Whatever follows from what [fn] accepts holds for the argument of matching system calls. *)
Lemma accepted_sound (P : Z → Prop) d r :
  (∀ arg v, fn arg = None → arg_matches arg v = true → P v) →
  accepted r → rule_matches r d = true → P (data_value d argNum).
Proof.
  intros HP. induction r as [|rs IH|rs IH|pa] using SyscallRule_nested_ind; intros Ha Hm.
  - by destruct Ha.
  - destruct rs as [|r' rs]; [by destruct Ha|]. apply accepted_rules in Ha. rewrite Forall_forall in IH, Ha.
    cbn [rule_matches] in Hm. apply existsb_exists in Hm as (r & Hin%list_elem_of_In & Hm). by apply (IH r Hin (Ha r Hin)).
  - destruct rs as [|r rs]; [by destruct Ha|]. apply accepted_rules in Ha.
    apply Forall_cons in IH as [IH _]. apply Forall_cons in Ha as [Ha _]. simpl in Hm.
    apply andb_true_iff in Hm as [Hm _]. by apply IH.
  - destruct Ha as [_ Ha]. cbn [args_of] in Ha. apply Forall_cons in Ha as [Ha _]. apply (HP _ _ Ha).
    simpl in Hm. clear Ha. change argNum with (0 + argNum)%nat at 2. revert Hm. generalize 0%nat as i. generalize argNum as k.
    induction pa as [|a pa IH]; intros k i Hm; [done|]. rewrite args_match_cons in Hm.
    apply andb_true_iff in Hm as [Ha Hm]. destruct k as [|k]; [by rewrite Nat.add_0_r|].
    rewrite Nat.add_succ_r. by apply (IH k (S i)).
Qed.
End single.

(** ** Executable mappings *)

Lemma single_bit v bit : 0 <= bit → (Z.land v (2 ^ bit) =? 2 ^ bit) = Z.testbit v bit.
Proof.
  intros Hb. apply eq_true_iff_eq. rewrite Z.eqb_eq. split.
  - intros E%(f_equal (λ x, Z.testbit x bit)). rewrite Z.land_spec, Z.pow2_bits_true, andb_true_r in E by lia. done.
  - intros Hv. apply Z.bits_inj'. intros i Hi. rewrite Z.land_spec, Z.pow2_bits_eqb by lia.
    destruct (Z.eqb_spec bit i) as [<-|?]; [by rewrite Hv|by rewrite andb_false_r].
Qed.

Lemma exec_args_match d bit :
  0 <= bit →
  args_match d 0 [Some AnyValue; Some AnyValue; Some (MaskedEqual (2 ^ bit) (2 ^ bit)); None; None; None; None] =
  Z.testbit (data_value d 2) bit.
Proof. intros Hb. cbn [args_match value_matches MaskedEqual]. by rewrite single_bit, !andb_true_r. Qed.

(** ** Properties *)

(** C38. Merging rules into others, in any order: the system calls that match are those that
    match either, and the system calls with a rule are those with a rule in either. *)
Theorem Merge_correct sr other entries s :
  entries ≡ₚ map_to_list other →
  Has (Merge sr entries) s = Has sr s || Has other s ∧
  ∀ d, rules_match (Merge sr entries) s d = rules_match sr s d || rules_match other s d.
Proof.
  intros Hp. assert (Hin : ∀ r, (s, r) ∈ entries ↔ other !! s = Some r).
  { intros r. rewrite Hp. apply elem_of_map_to_list. }
  split.
  - rewrite Merge_Has. f_equal. apply eq_true_iff_eq. rewrite existsb_exists. unfold Has. rewrite bool_decide_eq_true. split.
    + intros ([s' r] & He%list_elem_of_In & Es%bool_decide_eq_true). simpl in Es. subst s'. exists r. by apply Hin.
    + intros [r Hr]. exists (s, r). rewrite <- list_elem_of_In, Hin. by rewrite bool_decide_true.
  - intros d. rewrite Merge_match. f_equal. apply eq_true_iff_eq. rewrite existsb_exists. unfold rules_match. split.
    + intros ([s' r] & He%list_elem_of_In & [Es%bool_decide_eq_true Hr]%andb_true_iff).
      simpl in Es. subst s'. apply Hin in He. by rewrite He.
    + destruct (other !! s) as [r|] eqn:Er; [|done]. intros Hr. exists (s, r).
      rewrite <- list_elem_of_In, Hin. split; [done|]. simpl. by rewrite bool_decide_true.
Qed.

Lemma Merge_correct_witness :
  Has (Merge {[1 := MatchAll]} [(1, PerArg []); (2, MatchAll)]) 2 = true.
Proof.
  refine (eq_trans (proj1 (Merge_correct {[1 := MatchAll]} {[1 := PerArg []; 2 := MatchAll]} _ 2 _)) _);
    [by vm_compute; apply perm_swap|reflexivity].
Defined.

(** [ForSingleArgument] reports no error exactly if the argument number is valid and the
    system call has a rule made of [PerArg] rules only, all of which the function accepts.  What
    the function guarantees about the values of accepted matchers then holds for that argument
    of every matching system call. *)
Theorem ForSingleArgument_correct {E} sr sysno argNum (fn : option ValueMatcher → option E) :
  (ForSingleArgument sr sysno argNum fn = None ↔
   0 <= argNum < 7 ∧ ∃ r, sr !! sysno = Some r ∧ accepted (Z.to_nat argNum) fn r) ∧
  (ForSingleArgument sr sysno argNum fn = None →
   ∀ P : Z → Prop, (∀ arg v, fn arg = None → arg_matches arg v = true → P v) →
   ∀ d, rules_match sr sysno d = true → P (data_value d (Z.to_nat argNum))).
Proof.
  assert (Hiff : ForSingleArgument sr sysno argNum fn = None ↔
    0 <= argNum < 7 ∧ ∃ r, sr !! sysno = Some r ∧ accepted (Z.to_nat argNum) fn r).
  { unfold ForSingleArgument. change (Z.of_nat (S RuleIP)) with 7.
    destruct (Z.ltb_spec argNum 0), (Z.geb_spec argNum 7); simpl; [split; [done|lia]..|].
    destruct (sr !! sysno) as [r|].
    - rewrite process_None. naive_solver lia.
    - naive_solver. }
  split; [done|]. intros (_ & r & Er & Ha)%Hiff P HP d Hm. unfold rules_match in Hm. rewrite Er in Hm.
  by eapply accepted_sound.
Qed.

(** A function that only accepts comparisons with values up to 9. *)
Definition small_only (arg : option ValueMatcher) : option unit :=
  match arg with
  | Some (EqualTo k) => if k <? 10 then None else Some ()
  | _ => Some ()
  end.

Lemma ForSingleArgument_correct_witness :
  let sr := {[3 := Or [PerArg [Some (EqualTo 5); None; None; None; None; None; None];
                       PerArg [Some (EqualTo 7); None; None; None; None; None; None]]]} in
  ForSingleArgument sr 3 0 small_only = None ∧
  ∀ d, rules_match sr 3 d = true → data_value d 0 < 10.
Proof.
  intros sr. split; [reflexivity|].
  apply (proj2 (ForSingleArgument_correct sr 3 0 small_only) eq_refl (λ v, v < 10)).
  intros [vm|] x; [|done]. destruct vm as [|k| | | | | | | | |]; simpl; try done.
  destruct (Z.ltb_spec k 10); [|done]. intros _ ->%Z.eqb_eq. done.
Defined.

(** [DenyNewExecMappings] matches exactly the calls of [mmap] and [mprotect] whose
    protection has the bit for execution. *)
Theorem DenyNewExecMappings_exact SYS_MMAP SYS_MPROTECT bit s d :
  0 <= bit →
  rules_match (DenyNewExecMappings SYS_MMAP SYS_MPROTECT (2 ^ bit)) s d =
  bool_decide (s = SYS_MMAP ∨ s = SYS_MPROTECT) && Z.testbit (data_value d 2) bit.
Proof.
  intros Hb. unfold rules_match, DenyNewExecMappings, MakeSyscallRules, SyscallRules.
  cbn [default id list_to_map foldr fst snd].
  rewrite !lookup_insert, lookup_empty. destruct (decide (SYS_MMAP = s)) as [->|Hne].
  - rewrite bool_decide_true by (by left). by apply exec_args_match.
  - destruct (decide (SYS_MPROTECT = s)) as [->|Hne'].
    + rewrite bool_decide_true by (by right). by apply exec_args_match.
    + rewrite bool_decide_false; [done|]. naive_solver.
Qed.

Lemma DenyNewExecMappings_exact_witness :
  rules_match (DenyNewExecMappings 9 10 4) 10 (mkData 10 0 0 [0; 4096; 5; 0; 0; 0]) = true.
Proof. exact (DenyNewExecMappings_exact 9 10 2 10 (mkData 10 0 0 [0; 4096; 5; 0; 0; 0]) ltac:(lia)). Defined.
