(* ===== verification/SeccompAction.v ===== *)
(** * Actions of seccomp rules (src/pkg/seccomp/seccomp.go)

    An [Action] is a string: the name of an action, optionally followed by a colon and the
    return code in hexadecimal.  [bpf] turns it into the value a filter returns. *)

From Stdlib Require Import Ascii.
From stdpp Require Import base numbers decidable strings list.
From S2P Require Import Prelude SeccompAbi SeccompRules Labels ReprFacts.

Local Open Scope Z_scope.
Local Open Scope bits_scope.

Definition Action : Type := string.

Definition Default : Action := "".
Definition Allow : Action := "allow".
Definition Trap : Action := "trap".
Definition KillThread : Action := "kill_thread".
Definition KillProcess : Action := "kill_process".
Definition UserNotify : Action := "user_notify".
Definition ReturnError : Action := "return_error".
Definition Trace : Action := "trace".

(** [a[:colonIndex]] and [a[colonIndex+1:]], for the index of the first colon. *)
Fixpoint cut_colon (a : string) : option (string * string) :=
  match a with
  | EmptyString => None
  | String c a' =>
      if ascii_dec c ":"%char then Some ("", a')
      else '(before, after) ← cut_colon a'; Some (String c before, after)
  end.

(** [%04x] of a [uint16]. *)
Definition hex4 (code : Z) : string :=
  String (hex_digit (code / 16 ^ 3 mod 16)) (String (hex_digit (code / 16 ^ 2 mod 16))
    (String (hex_digit (code / 16 mod 16)) (String (hex_digit (code mod 16)) ""))).

Definition Code (a : Action) (code : Z) : Action :=
  match cut_colon a with
  | Some (before, _) => before +:+ ":" +:+ hex4 code
  | None => a +:+ ":" +:+ hex4 code
  end.

(** [Action.String] *)
Definition Action_String (a : Action) : string :=
  if bool_decide (a = Default) then "[default]" else a.

(** [strconv.ParseUint(s, 16, 16)]; [None] is its error: an empty string, a character that is
    no digit, or a value that does not fit 16 bits. *)
Definition parse_digit (c : ascii) : option Z :=
  let n := Z.of_nat (nat_of_ascii c) in
  if (48 <=? n) && (n <=? 57) then Some (n - 48)
  else if (97 <=? n) && (n <=? 102) then Some (n - 87)
  else if (65 <=? n) && (n <=? 70) then Some (n - 55)
  else None.

Fixpoint parse_digits (s : string) (acc : Z) : option Z :=
  match s with
  | EmptyString => Some acc
  | String c s' =>
      d ← parse_digit c;
      let acc := 16 * acc + d in
      if acc <? 2 ^ 16 then parse_digits s' acc else None
  end.

Definition ParseUint16 (s : string) : option Z :=
  match s with EmptyString => None | _ => parse_digits s 0 end.

(** The error of the probe for [SECCOMP_RET_KILL_PROCESS]. *)
Inductive ActionError : Type := KillProcessUnknown.

(** [Action.bpf], with [defaultAction] the result of calling the function it is given.  The
    recursive call is on a string without a colon, where the last case panics. *)
Fixpoint bpf_fuel (fuel : nat) (a : Action) (defaultAction : result ActionError Z)
    : result ActionError Z :=
  if bool_decide (a = Default) then defaultAction
  else if bool_decide (a = Allow) then Ok SECCOMP_RET_ALLOW
  else if bool_decide (a = UserNotify) then Ok SECCOMP_RET_USER_NOTIF
  else if bool_decide (a = Trap) then Ok SECCOMP_RET_TRAP
  else if bool_decide (a = Trace) then Ok SECCOMP_RET_TRACE
  else if bool_decide (a = ReturnError) then Ok SECCOMP_RET_ERRNO
  else if bool_decide (a = KillThread) then Ok SECCOMP_RET_KILL_THREAD
  else if bool_decide (a = KillProcess) then Ok SECCOMP_RET_KILL_PROCESS
  else
    '(ins, digits) ← or_panic (cut_colon a);
    code ← or_panic (ParseUint16 digits);
    match fuel with
    | O => Panic
    | S fuel' => act ← bpf_fuel fuel' ins defaultAction; or_panic (WithReturnCode act code)
    end.

Definition bpf (a : Action) (defaultAction : result ActionError Z) : result ActionError Z :=
  bpf_fuel 1 a defaultAction.

(** [saneDefaultAction], given what [isKillProcessAvailable] found out. *)
Definition saneDefaultAction (killProcessAvailable : result ActionError bool)
    : result ActionError Z :=
  available ← killProcessAvailable;
  Ok (if (available : bool) then SECCOMP_RET_KILL_PROCESS else SECCOMP_RET_TRAP).

(** ** Facts *)

(** Fuel 1 is enough: more fuel does not change the result. *)
Lemma cut_colon_before a before after : cut_colon a = Some (before, after) → cut_colon before = None.
Proof.
  revert before. induction a as [|c a IH]; intros before H; [done|]. simpl in H.
  destruct (ascii_dec c ":") as [->|Hc]; [by injection H as <- <-|].
  destruct (cut_colon a) as [[b' a']|]; [|done]. injection H as <- <-. simpl.
  destruct (ascii_dec c ":"); [done|]. by rewrite (IH b').
Qed.

Lemma bpf_fuel_enough fuel a d : bpf_fuel (S fuel) a d = bpf a d.
Proof.
  assert (Hbase : ∀ k a, cut_colon a = None → bpf_fuel k a d = bpf_fuel 0 a d).
  { intros [|k] a' Ha; [done|]. simpl. rewrite Ha. done. }
  unfold bpf. simpl. repeat case_match; try done; subst; simpl in *.
  destruct (cut_colon a) as [[ins digits]|] eqn:E; [|done]. simpl.
  destruct (ParseUint16 digits) as [code|]; [|done]. simpl.
  apply cut_colon_before in E. by rewrite Hbase.
Qed.

Lemma parse_hex_digit d : 0 <= d < 16 → parse_digit (hex_digit d) = Some d.
Proof.
  intros Hd. unfold parse_digit, hex_digit. rewrite nat_ascii_embedding by (case_if; lia).
  destruct (Z.ltb_spec d 10); rewrite Z2Nat.id by lia; repeat case_if; to_prop;
    repeat match goal with H : _ && _ = false |- _ => apply andb_false_iff in H as [H|H] end;
    to_prop; f_equal; lia.
Qed.

Lemma parse_hex4 c : in_u16 c → ParseUint16 (hex4 c) = Some c.
Proof.
  intros Hc. unfold in_u16 in Hc. unfold ParseUint16, hex4, parse_digits.
  assert (Hm : ∀ x, 0 <= x mod 16 < 16) by (intros x; apply Z.mod_pos_bound; lia).
  rewrite !parse_hex_digit by apply Hm. cbn [mbind option_bind].
  pose proof (Z.div_mod c 16 ltac:(lia)) as D0. pose proof (Z.div_mod (c / 16) 16 ltac:(lia)) as D1.
  pose proof (Z.div_mod (c / 16 / 16) 16 ltac:(lia)) as D2. rewrite !Z.div_div in D1, D2 by lia.
  change (16 * 16) with (16 ^ 2) in *. rewrite Z.div_div in D2 by lia.
  change (16 ^ 2 * 16) with (16 ^ 3) in *.
  assert (0 <= c / 16 ^ 3 < 16) as H3 by (split; [apply Z.div_pos; lia|apply Z.div_lt_upper_bound; lia]).
  rewrite (Z.mod_small (c / 16 ^ 3) 16) by done.
  pose proof (Hm c). pose proof (Hm (c / 16)). pose proof (Hm (c / 16 ^ 2)).
  repeat case_if; to_prop; try lia. f_equal. lia.
Qed.

(** A string without colons, in front of one. *)
Lemma cut_colon_app a s : cut_colon a = None → cut_colon (a +:+ ":" +:+ s) = Some (a, s).
Proof.
  induction a as [|c a IH]; [done|]. rewrite append_cons. simpl.
  destruct (ascii_dec c ":"); [done|]. destruct (cut_colon a) as [[]|]; [done|]. intros _.
  by rewrite IH.
Qed.

Lemma Code_cut a c : ∃ before, cut_colon before = None ∧ Code a c = before +:+ ":" +:+ hex4 c.
Proof.
  unfold Code. destruct (cut_colon a) as [[before after]|] eqn:E; [|by exists a].
  exists before. split; [by eapply cut_colon_before|done].
Qed.

Lemma Code_Code a c c' : Code (Code a c) c' = Code a c'.
Proof.
  unfold Code at 2. destruct (cut_colon a) as [[before after]|] eqn:E.
  - unfold Code. rewrite cut_colon_app by (by eapply cut_colon_before). by rewrite E.
  - unfold Code. by rewrite cut_colon_app, E.
Qed.

(** [bpf] of the name of an action with a code. *)
Lemma bpf_Code a c d :
  a ∈ [Allow; Trap; KillThread; KillProcess; UserNotify; ReturnError; Trace] → in_u16 c →
  bpf (Code a c) d = (act ← bpf a d; or_panic (WithReturnCode act c)).
Proof.
  intros Ha Hc. assert (Hcut : cut_colon a = None) by (by repeat (apply elem_of_cons in Ha as [->|Ha]; [done|]); apply elem_of_nil in Ha).
  assert (Hne : ∀ x, x ∈ [Default; Allow; UserNotify; Trap; Trace; ReturnError; KillThread; KillProcess] →
    Code a c ≠ x).
  { intros x Hx E. apply (f_equal cut_colon) in E. unfold Code in E. rewrite Hcut, cut_colon_app in E by done.
    by repeat (apply elem_of_cons in Hx as [->|Hx]; [done|]); apply elem_of_nil in Hx. }
  unfold bpf at 1. cbn [bpf_fuel].
  rewrite !bool_decide_false by (apply Hne; repeat constructor).
  unfold Code. rewrite Hcut, cut_colon_app by done. cbn [or_panic mbind result_bind].
  rewrite parse_hex4 by done. cbn [or_panic mbind result_bind]. f_equal.
  by repeat (apply elem_of_cons in Ha as [->|Ha]; [done|]); apply elem_of_nil in Ha.
Qed.

Lemma action_code_bits base c :
  base ∈ [SECCOMP_RET_ERRNO; SECCOMP_RET_TRACE] → in_u16 c →
  WithReturnCode base c = Some (base .| c) ∧ (base .| c) .& SECCOMP_RET_ACTION_FULL = base ∧
  Data (base .| c) = c.
Proof.
  intros Hb Hc. unfold in_u16 in Hc.
  assert (Hhi : c .& SECCOMP_RET_ACTION_FULL = 0).
  { apply Z.bits_inj'. intros n Hn. rewrite Z.land_spec, Z.bits_0.
    destruct (Z.ltb_spec n 16).
    - replace (Z.testbit SECCOMP_RET_ACTION_FULL n) with false; [apply andb_false_r|].
      assert (n ∈ seqZ 0 16) as Hin by (apply elem_of_seqZ; lia).
      by repeat (apply elem_of_cons in Hin as [->|Hin]; [done|]); apply elem_of_nil in Hin.
    - destruct (decide (c = 0)) as [->|]; [by rewrite Z.bits_0|].
      rewrite Z.bits_above_log2; [done|lia|]. apply (Z.lt_le_trans _ 16); [|lia].
      apply Z.log2_lt_pow2; lia. }
  assert (Hlo : c .& SECCOMP_RET_DATA = c).
  { change SECCOMP_RET_DATA with (Z.ones 16). rewrite Z.land_ones by lia. by apply Z.mod_small. }
  unfold WithReturnCode, Data. rewrite !Z.land_lor_distr_l, Hhi, Hlo, Z.lor_0_r.
  apply elem_of_cons in Hb as [-> | ->%list_elem_of_singleton]; simpl; split_and!; try done;
    unfold wrap16; apply Z.mod_small; lia.
Qed.

(** The actions of [bpf] are 32 bits wide. *)
Lemma parse_digit_range c v : parse_digit c = Some v → 0 <= v.
Proof. unfold parse_digit. repeat case_if; intros [= <-]; to_prop; lia. Qed.

Lemma parse_digits_range s acc v : parse_digits s acc = Some v → 0 <= acc < 2 ^ 16 → 0 <= v < 2 ^ 16.
Proof.
  revert acc. induction s as [|c s IH]; intros acc H Hacc; cbn [parse_digits] in H; [congruence|].
  destruct (parse_digit c) as [x|] eqn:E; [|done]. apply parse_digit_range in E. cbn [mbind option_bind] in H.
  destruct (16 * acc + x <? 2 ^ 16) eqn:Hlt; [|done]. to_prop. apply (IH _ H). lia.
Qed.

Lemma WithReturnCode_range act code v :
  in_u32 act → 0 <= code < 2 ^ 16 → WithReturnCode act code = Some v → in_u32 v.
Proof.
  intros Ha Hc. unfold WithReturnCode. case_if; [|done]. intros [= <-].
  apply u32_lor; [by apply u32_land|unfold in_u32; lia].
Qed.

Lemma bpf_fuel_range fuel a d v :
  (∀ v', d = Ok v' → in_u32 v') → bpf_fuel fuel a d = Ok v → in_u32 v.
Proof.
  intros Hd. revert a v. induction fuel as [|fuel IH]; intros a v; cbn [bpf_fuel];
    repeat (case_bool_decide; [by (intros [= <-]; split; vm_compute) || by apply Hd|]).
  - destruct (cut_colon a) as [[ins digits]|]; [|done]. simpl. by destruct (ParseUint16 digits).
  - destruct (cut_colon a) as [[ins digits]|]; [|done]. cbn [or_panic mbind result_bind].
    destruct (ParseUint16 digits) as [code|] eqn:Ep; [|done]. cbn [or_panic mbind result_bind].
    destruct (bpf_fuel fuel ins d) as [act| |] eqn:Ea; [|done|done]. cbn [mbind result_bind].
    destruct (WithReturnCode act code) as [w|] eqn:Ew; [|done]. intros [= <-].
    eapply WithReturnCode_range; [by apply (IH ins)| |exact Ew].
    unfold ParseUint16 in Ep. destruct digits; [done|]. eapply parse_digits_range; [exact Ep|lia].
Qed.

(** ** Properties *)

(** An error or trace action that is given a 16-bit code carries it: [bpf] returns the
    action with the code in its data bits and the kind of action unchanged; giving it another
    code replaces the first one. *)
Theorem Code_bpf_roundtrip a c c0 d :
  a ∈ [ReturnError; Trace] → in_u16 c →
  Code (Code a c0) c = Code a c ∧
  ∃ base act, bpf a d = Ok base ∧ bpf (Code a c) d = Ok act ∧
    act .& SECCOMP_RET_ACTION_FULL = base ∧ Data act = c.
Proof.
  intros Ha Hc. split; [apply Code_Code|].
  assert (∃ base, bpf a d = Ok base ∧ base ∈ [SECCOMP_RET_ERRNO; SECCOMP_RET_TRACE]) as (base & Hb & Hin).
  { apply elem_of_cons in Ha as [-> | ->%list_elem_of_singleton]; eexists; (split; [done|]);
      [left|right; left]. }
  destruct (action_code_bits base c Hin Hc) as (Hw & Hf & Hd). exists base, (base .| c).
  split_and!; try done. rewrite bpf_Code; [by rewrite Hb; simpl; rewrite Hw| |done].
  apply elem_of_cons in Ha as [-> | ->%list_elem_of_singleton]; repeat constructor.
Qed.

Lemma Code_bpf_roundtrip_witness :
  Code (Code ReturnError 1) 38 = Code ReturnError 38 ∧
  ∃ base act, bpf ReturnError Panic = Ok base ∧ bpf (Code ReturnError 38) Panic = Ok act ∧
    act .& SECCOMP_RET_ACTION_FULL = base ∧ Data act = 38.
Proof. apply (Code_bpf_roundtrip ReturnError 38 1 Panic); [left|by vm_compute]. Defined.

(** A return code on any other named action is not ignored: [bpf] panics. *)
Theorem Code_bpf_panics a c d :
  a ∈ [Allow; Trap; KillThread; KillProcess; UserNotify] → in_u16 c → bpf (Code a c) d = Panic.
Proof.
  intros Ha Hc. rewrite bpf_Code; [|repeat (apply elem_of_cons in Ha as [->|Ha]; [repeat constructor|]); by apply elem_of_nil in Ha|done].
  by repeat (apply elem_of_cons in Ha as [->|Ha]; [done|]); apply elem_of_nil in Ha.
Qed.

Lemma Code_bpf_panics_witness : bpf (Code Allow 1) Panic = Panic.
Proof. apply Code_bpf_panics; [left|by vm_compute]. Defined.
