(* ===== verification/SeccompProgram.v ===== *)
(** * Building seccomp programs (src/pkg/seccomp/seccomp.go)

    [Build] orders the rules by system call number, renders the hot system calls as a linear
    search and the others as two binary search trees, and makes the instructions.

    Maps are finite maps.  Where the result of a loop depends on the order in which Go goes
    through a map, that order is an argument: which of several conflicting system calls an
    error names, and the orders of the builder's labels and of the optimizer.  The other loops
    over maps treat each key on its own and are given as operations on the map.  The time
    measurements and logs are left out. *)

From stdpp Require Import base numbers decidable strings pretty gmap list.
From S2P Require Import Prelude Instr Optimizer Builder SeccompAbi SeccompRules RuleOpt SeccompAction.

Local Open Scope Z_scope.
Local Open Scope bits_scope.
Local Open Scope prog_scope.

(** ** Programs *)

Record RuleSet : Type := mkRuleSet {
  Rules : SyscallRules;
  RuleAction : Action;
  Vsyscall : bool
}.

Record ProgramOptions : Type := mkOptions {
  DefaultAction : Action;
  BadArchAction : Action;
  SkipOptimizations : bool;
  HotSyscalls : list Z
}.

Record Program : Type := mkProgram { RuleSets : list RuleSet; Options : ProgramOptions }.

(** The errors of [Build]. *)
Inductive BuildError : Type :=
  | ConflictingVsyscall (sysno : Z)
  | ActionFailed (err : ActionError)
  | BuilderFailed (err : BuilderError).

Definition action_result {A} (r : result ActionError A) : result BuildError A :=
  match r with Ok a => Ok a | Err err => Err (ActionFailed err) | Panic => Panic end.

(** ** The rules of one system call *)

Record syscallRuleAction : Type := mkRuleAction { ra_rule : SyscallRule; ra_action : Z }.

Record singleSyscallRuleSet : Type := mkSingle {
  ss_sysno : Z;
  ss_rules : list syscallRuleAction;
  ss_vsyscall : bool
}.

(** The set [actions] that the renderers collect. *)
Definition actions (ssrs : singleSyscallRuleSet) : gset Z :=
  list_to_set (ra_action <$> ss_rules ssrs).

Definition rule_suffix (sysno : Z) (i : nat) : string :=
  "sysno" +:+ pretty sysno +:+ "_rule" +:+ pretty i.

(** The loop of [singleSyscallRuleSet.Render] from rule [i] on; the label set is shared with
    the caller, who goes on with the one returned. *)
Fixpoint ssrs_loop (sysno : Z) (noMatch : string) (i : nat) (rules : list syscallRuleAction)
    (ls : labelSet) : prog * labelSet :=
  match rules with
  | [] => (SP.JumpTo noMatch, ls)
  | ra :: rules' =>
      let '(nextRule, ls) := NewLabel ls in
      let '(matched, ls) := NewLabel ls in
      let ruleLabels := Push ls (rule_suffix sysno i) matched nextRule in
      let '(rest, ls) := ssrs_loop sysno noMatch (S i) rules' ls in
      (recording (λ ruleFrag,
         Render (ra_rule ra) ruleLabels ;>
         SP.Label (Matched ruleLabels) ;>
         SP.Ret (ra_action ra) ;>
         MustHaveJumpedToOrReturned ruleFrag [nextRule] {[ ra_action ra ]}) ;>
       SP.Label nextRule ;>
       rest, ls)
  end.

(** [singleSyscallRuleSet.Render] *)
Definition ssrs_Render (ssrs : singleSyscallRuleSet) (ls : labelSet) (noMatch : string)
    : prog * labelSet :=
  let '(body, ls) := ssrs_loop (ss_sysno ssrs) noMatch 0 (ss_rules ssrs) ls in
  (recording (λ frag,
     (if ss_vsyscall ssrs then
        SP.Stmt (Op.Ld .| Op.Abs .| Op.W) seccompDataOffsetIPHigh ;>
        SP.IfNot (Op.Jmp .| Op.Jset .| Op.K) vsyscallPageIPMask noMatch ;>
        body
      else body) ;>
     MustHaveJumpedToOrReturned frag [noMatch] (actions ssrs)), ls).

(** ** Ordering *)

Record orderedRuleSets : Type := mkOrdered {
  hotNonTrivial : gmap Z singleSyscallRuleSet;
  hotNonTrivialOrder : list Z;
  coldNonTrivial : gmap Z singleSyscallRuleSet;
  trivial : gmap Z singleSyscallRuleSet
}.

(** The order in which Go goes through the rules of a [RuleSet]. *)
Definition rules_order : Type := SyscallRules → list (Z * SyscallRule).

(** The first pass, through one [RuleSet] and through all of them. *)
Fixpoint vsyscall_entries (vsyscall : bool) (sysnos : list Z) (vsyscallBySysno : gmap Z bool)
    : result BuildError (gmap Z bool) :=
  match sysnos with
  | [] => Ok vsyscallBySysno
  | sysno :: sysnos' =>
      match vsyscallBySysno !! sysno with
      | Some prevVsyscall =>
          if negb (Bool.eqb prevVsyscall vsyscall) then Err (ConflictingVsyscall sysno)
          else vsyscall_entries vsyscall sysnos' vsyscallBySysno
      | None => vsyscall_entries vsyscall sysnos' (<[sysno := vsyscall]> vsyscallBySysno)
      end
  end.

Fixpoint vsyscall_pass (order : rules_order) (rules : list RuleSet) (vsyscallBySysno : gmap Z bool)
    : result BuildError (gmap Z bool) :=
  match rules with
  | [] => Ok vsyscallBySysno
  | rs :: rules' =>
      m ← vsyscall_entries (Vsyscall rs) (order (Rules rs)).*1 vsyscallBySysno;
      vsyscall_pass order rules' m
  end.

(** A rule with [action] for a system call that has the rules [existing] already. *)
Definition add_action (existing : list syscallRuleAction) (rule : SyscallRule) (action : Z)
    : list syscallRuleAction :=
  match last existing with
  | Some l =>
      if ra_action l =? action then
        <[(length existing - 1)%nat := mkRuleAction (Or [ra_rule l; rule]) action]> existing
      else existing ++ [mkRuleAction rule action]
  | None => [mkRuleAction rule action]
  end.

Definition add_entry (action : Z) (m : gmap Z (list syscallRuleAction)) (entry : Z * SyscallRule)
    : gmap Z (list syscallRuleAction) :=
  <[entry.1 := add_action (default [] (m !! entry.1)) entry.2 action]> m.

(** The map of rules and actions by system call. *)
Fixpoint rule_actions (order : rules_order) (defaultAction : result ActionError Z)
    (rules : list RuleSet) (m : gmap Z (list syscallRuleAction))
    : result BuildError (gmap Z (list syscallRuleAction)) :=
  match rules with
  | [] => Ok m
  | rs :: rules' =>
      action ← action_result (bpf (RuleAction rs) defaultAction);
      rule_actions order defaultAction rules' (foldl (add_entry action) m (order (Rules rs)))
  end.

(** The optimization of all rules; [None] when one of them panics. *)
Definition optimize_action (ra : syscallRuleAction) : option syscallRuleAction :=
  rule ← optimizeSyscallRule (ra_rule ra); Some (mkRuleAction rule (ra_action ra)).

Definition optimize_actions (m : gmap Z (list syscallRuleAction))
    : option (gmap Z (list syscallRuleAction)) :=
  let m' := (λ ras, mapM optimize_action ras) <$> m in
  if bool_decide (map_Forall (λ _ ras, is_Some ras) m') then Some (omap id m') else None.

(** Whether all rules of a system call match anything, without a check of the vsyscall page. *)
Definition isTrivial (vsyscallBySysno : gmap Z bool) (sysno : Z) (ruleActions : list syscallRuleAction)
    : bool :=
  bool_decide (ruleActions ≠ []) &&
  forallb (λ ra, is_MatchAll (ra_rule ra) && negb (default false (vsyscallBySysno !! sysno)))
    ruleActions.

(** The index of the non-trivial hot system calls. *)
Fixpoint hot_index (all : gmap Z (list syscallRuleAction)) (vsyscallBySysno : gmap Z bool) (i : nat)
    (hot : list Z) (index : gmap Z nat) : gmap Z nat :=
  match hot with
  | [] => index
  | sysno :: hot' =>
      hot_index all vsyscallBySysno (S i) hot'
        match all !! sysno with
        | None => index
        | Some ruleActions =>
            if isTrivial vsyscallBySysno sysno ruleActions then index
            else match index !! sysno with Some _ => index | None => <[sysno := i]> index end
        end
  end.

(** The keys of a map, in some order. *)
Definition keys {A} (m : gmap Z A) : list Z := (map_to_list m).*1.

Definition hot_order (index : gmap Z nat) : list Z :=
  sort_slice (λ i j, (default 0 (index !! i) <=? default 0 (index !! j))%nat) (keys index).

(** The three parts of the rules. *)
Definition split_rules (all : gmap Z (list syscallRuleAction)) (vsyscallBySysno : gmap Z bool)
    (index : gmap Z nat) : orderedRuleSets :=
  let single := map_imap (λ sysno ruleActions,
    Some (mkSingle sysno ruleActions (default false (vsyscallBySysno !! sysno)))) all in
  let is_trivial ssrs := isTrivial vsyscallBySysno (ss_sysno ssrs) (ss_rules ssrs) in
  let is_hot ssrs := bool_decide (is_Some (index !! ss_sysno ssrs)) in
  mkOrdered
    (filter (λ e, negb (is_trivial e.2) && is_hot e.2 = true) single)
    (hot_order index)
    (filter (λ e, negb (is_trivial e.2) && negb (is_hot e.2) = true) single)
    (filter (λ e, is_trivial e.2 = true) single).

Definition orderRuleSets (order : rules_order) (killProcessAvailable : result ActionError bool)
    (rules : list RuleSet) (options : ProgramOptions) : result BuildError orderedRuleSets :=
  vsyscallBySysno ← vsyscall_pass order rules ∅;
  let defaultAction := bpf (DefaultAction options) (saneDefaultAction killProcessAvailable) in
  all ← rule_actions order defaultAction rules ∅;
  all ← (if SkipOptimizations options then Ok all else or_panic (optimize_actions all));
  let index := hot_index all vsyscallBySysno 0 (HotSyscalls options) ∅ in
  Ok (split_rules all vsyscallBySysno index).

(** ** Binary search trees *)

Inductive node : Type :=
  | nilNode
  | mkNode (value : Z) (n_left n_right : node) (n_root : bool).

(** [createBST] on a slice; [None] is the panic on an empty one.  The slices get shorter, so
    the length is enough fuel. *)
Fixpoint createBST (fuel : nat) (syscalls : list Z) : option node :=
  match fuel with
  | O => None
  | S fuel' =>
      let i := (length syscalls / 2)%nat in
      value ← syscalls !! i;
      n_left ← (if (0 <? i)%nat then createBST fuel' (take i syscalls) else Some nilNode);
      n_right ← (if (i + 1 <? length syscalls)%nat then createBST fuel' (drop (i + 1) syscalls)
               else Some nilNode);
      Some (mkNode value n_left n_right false)
  end.

Definition set_root (n : node) : node :=
  match n with nilNode => nilNode | mkNode value n_left n_right _ => mkNode value n_left n_right true end.

(** [node.label] *)
Definition node_label (n : node) : string :=
  match n with nilNode => defaultLabel | mkNode value _ _ _ => "node_" +:+ pretty value end.

Definition checkArgsLabel (sysno : Z) : string := "checkArgs_" +:+ pretty sysno.

(** The conversion of a [uintptr] to [int]. *)
Definition to_int (z : Z) : Z := if z <? 2 ^ 63 then z else z - 2 ^ 64.

Record knownRange : Type := mkRange {
  lowerBoundExclusive : Z;
  upperBoundExclusive : Z;
  previouslyChecked : gset Z
}.

(** The loops of [withLowerBoundExclusive] and [withUpperBoundExclusive].  Each step but the
    last is about another number of [previouslyChecked]. *)
Fixpoint raise_lower (fuel : nat) (nkr : knownRange) : knownRange :=
  match fuel with
  | O => nkr
  | S fuel' =>
      if (lowerBoundExclusive nkr <? upperBoundExclusive nkr) &&
         bool_decide (wrap64 (lowerBoundExclusive nkr + 1) ∈ previouslyChecked nkr) then
        raise_lower fuel' (mkRange (lowerBoundExclusive nkr + 1) (upperBoundExclusive nkr)
                             (previouslyChecked nkr))
      else nkr
  end.

Fixpoint reduce_upper (fuel : nat) (nkr : knownRange) : knownRange :=
  match fuel with
  | O => nkr
  | S fuel' =>
      if (lowerBoundExclusive nkr <? upperBoundExclusive nkr) &&
         bool_decide (wrap64 (upperBoundExclusive nkr - 1) ∈ previouslyChecked nkr) then
        reduce_upper fuel' (mkRange (lowerBoundExclusive nkr) (upperBoundExclusive nkr - 1)
                              (previouslyChecked nkr))
      else nkr
  end.

Definition withLowerBoundExclusive (kr : knownRange) (newLowerBoundExclusive : Z) : knownRange :=
  raise_lower (S (size (previouslyChecked kr)))
    (mkRange newLowerBoundExclusive (upperBoundExclusive kr) (previouslyChecked kr)).

Definition withUpperBoundExclusive (kr : knownRange) (newUpperBoundExclusive : Z) : knownRange :=
  reduce_upper (S (size (previouslyChecked kr)))
    (mkRange (lowerBoundExclusive kr) newUpperBoundExclusive (previouslyChecked kr)).

(** [node.traverse], for functions that do not fail. *)
Fixpoint traverse (fn : node → knownRange → prog) (n : node) (kr : knownRange) : prog :=
  match n with
  | nilNode => skip
  | mkNode value n_left n_right _ =>
      fn n kr ;>
      traverse fn n_left (withUpperBoundExclusive kr (to_int value)) ;>
      traverse fn n_right (withLowerBoundExclusive kr (to_int value))
  end.

(** The range of a node after its comparisons. *)
Definition node_range (n_left n_right : node) (sysno : Z) (rng : knownRange) : knownRange :=
  let rng := match n_left with
    | nilNode => rng
    | _ => mkRange (to_int (wrap64 (sysno - 1))) (upperBoundExclusive rng) (previouslyChecked rng)
    end in
  match n_right with
  | nilNode => rng
  | _ => mkRange (lowerBoundExclusive rng) (to_int (wrap64 (sysno + 1))) (previouslyChecked rng)
  end.

Definition renderBSTTraversal (searchFailed : string) (n : node) (rng : knownRange) : prog :=
  match n with
  | nilNode => panic
  | mkNode sysno n_left n_right n_root =>
      let body := recording (λ nodeFrag,
        match n_left with
        | nilNode => skip
        | _ => SP.IfNot (Op.Jmp .| Op.Jge .| Op.K) (wrap32 sysno) (node_label n_left)
        end ;>
        match n_right with
        | nilNode => skip
        | _ => SP.If (Op.Jmp .| Op.Jgt .| Op.K) (wrap32 sysno) (node_label n_right)
        end ;>
        (let rng := node_range n_left n_right sysno rng in
         if negb (lowerBoundExclusive rng =? to_int (wrap64 (sysno - 1))) ||
            negb (upperBoundExclusive rng =? to_int (wrap64 (sysno + 1))) then
           SP.IfNot (Op.Jmp .| Op.Jeq .| Op.K) (wrap32 sysno) searchFailed
         else skip) ;>
        SP.JumpTo (checkArgsLabel sysno) ;>
        MustHaveJumpedTo nodeFrag
          [node_label n_left; node_label n_right; checkArgsLabel sysno; searchFailed]) in
      if (n_root : bool) then body else SP.Label (node_label n) ;> body
  end.

(** The rules for a system call that has none are empty, like Go's zero value. *)
Definition single_of (syscallMap : gmap Z singleSyscallRuleSet) (sysno : Z) : singleSyscallRuleSet :=
  default (mkSingle 0 [] false) (syscallMap !! sysno).

Definition renderBSTRules (syscallMap : gmap Z singleSyscallRuleSet) (n : node) (rng : knownRange)
    : prog :=
  match n with
  | nilNode => panic
  | mkNode sysno _ _ _ =>
      SP.Label (checkArgsLabel sysno) ;>
      recording (λ ruleSetsFrag,
        (ssrs_Render (single_of syscallMap sysno) (mkLabelSet (node_label n) 0 "" "") defaultLabel).1 ;>
        MustHaveJumpedToOrReturned ruleSetsFrag [defaultLabel] (actions (single_of syscallMap sysno)))
  end.

(** The actions of all rules of a map. *)
Definition all_actions (m : gmap Z singleSyscallRuleSet) : gset Z :=
  ⋃ ((λ e, actions e.2) <$> map_to_list m).

Definition renderBST (alreadyChecked : gset Z) (syscallMap : gmap Z singleSyscallRuleSet)
    (noSycallNumberMatch : string) : prog :=
  let orderedSysnos := sort_slice Z.leb (keys syscallMap) in
  recording (λ frag,
    match createBST (length orderedSysnos) orderedSysnos with
    | None => panic
    | Some n =>
        let root := set_root n in
        let knownRng := mkRange (-1) (2 ^ 32) alreadyChecked in
        traverse (renderBSTTraversal noSycallNumberMatch) root knownRng ;>
        traverse (renderBSTRules syscallMap) root knownRng ;>
        MustHaveJumpedToOrReturned frag [noSycallNumberMatch; defaultLabel] (all_actions syscallMap)
    end).

(** ** The program *)

(** The loop of [renderLinear]. *)
Fixpoint linear_loop (syscallMap : gmap Z singleSyscallRuleSet) (order : list Z)
    (noSycallNumberMatch : string) (ls : labelSet) : prog * labelSet :=
  match order with
  | [] => (SP.JumpTo noSycallNumberMatch, ls)
  | sysno :: order' =>
      match syscallMap !! sysno with
      | None => (panic, ls)
      | Some ssrs =>
          let '(nextSyscall, ls) := NewLabel ls in
          let '(body, ls) := ssrs_Render ssrs ls defaultLabel in
          let '(rest, ls) := linear_loop syscallMap order' noSycallNumberMatch ls in
          (recording (λ sysnoFrag,
             SP.IfNot (Op.Jmp .| Op.Jeq .| Op.K) (wrap32 (ss_sysno ssrs)) nextSyscall ;>
             body ;>
             MustHaveJumpedToOrReturned sysnoFrag [nextSyscall; defaultLabel] (actions ssrs)) ;>
           SP.Label nextSyscall ;>
           rest, ls)
      end
  end.

(** [renderLinear], and the actions it returns. *)
Definition renderLinear (syscallMap : gmap Z singleSyscallRuleSet) (order : list Z)
    (noSycallNumberMatch : string) (ls : labelSet) : prog * labelSet :=
  linear_loop syscallMap order noSycallNumberMatch ls.

Definition linear_actions (syscallMap : gmap Z singleSyscallRuleSet) (order : list Z) : gset Z :=
  ⋃ ((λ sysno, actions (single_of syscallMap sysno)) <$> order).

(** The three parts of [orderedRuleSets.render]. *)
Definition render_hot (ors : orderedRuleSets) (ls : labelSet) : prog * labelSet :=
  match hotNonTrivialOrder ors with
  | [] => (skip, ls)
  | order =>
      let '(notHotLabel, ls) := NewLabel ls in
      let '(body, ls) := renderLinear (hotNonTrivial ors) order notHotLabel ls in
      (recording (λ hotFrag,
         body ;>
         MustHaveJumpedToOrReturned hotFrag [notHotLabel; defaultLabel]
           (linear_actions (hotNonTrivial ors) order)) ;>
       SP.Label notHotLabel, ls)
  end.

Definition render_tree (sysnosChecked : gset Z) (syscallMap : gmap Z singleSyscallRuleSet)
    (ls : labelSet) : prog * labelSet :=
  if bool_decide (syscallMap = ∅) then (skip, ls)
  else
    let '(noSycallNumberMatch, ls) := NewLabel ls in
    (recording (λ frag,
       renderBST sysnosChecked syscallMap noSycallNumberMatch ;>
       MustHaveJumpedToOrReturned frag [noSycallNumberMatch; defaultLabel] (all_actions syscallMap)) ;>
     SP.Label noSycallNumberMatch, ls).

(** [orderedRuleSets.render] *)
Definition render (ors : orderedRuleSets) : prog :=
  let ls := mkLabelSet "ors" 0 "" "" in
  let '(hot, ls) := render_hot ors ls in
  let sysnosChecked : gset Z := list_to_set (hotNonTrivialOrder ors) in
  let '(cold, ls) := render_tree sysnosChecked (coldNonTrivial ors) ls in
  let sysnosChecked := dom (coldNonTrivial ors) ∪ sysnosChecked in
  let '(triv, ls) := render_tree sysnosChecked (trivial ors) ls in
  recording (λ totalFrag,
    SP.Stmt (Op.Ld .| Op.Abs .| Op.W) seccompDataOffsetNR ;>
    hot ;>
    cold ;>
    triv ;>
    SP.JumpTo defaultLabel ;>
    MustHaveJumpedToOrReturned totalFrag [defaultLabel]
      (all_actions (hotNonTrivial ors) ∪ all_actions (coldNonTrivial ors) ∪
       all_actions (trivial ors))).

Definition badArchLabel : string := "badarch".

(** What [Build] depends on besides the program: the architecture, the probe for
    [SECCOMP_RET_KILL_PROCESS] and the orders of maps. *)
Record BuildEnv : Type := mkEnv {
  LINUX_AUDIT_ARCH : Z;
  killProcessAvailable : result ActionError bool;
  env_rules : rules_order;
  env_labels : label_order;
  env_returns : nat → map_order
}.

(** The set of actions of the rule sets. *)
Fixpoint possible_actions (defaultAction : result ActionError Z) (rules : list RuleSet)
    : result BuildError (gset Z) :=
  match rules with
  | [] => Ok ∅
  | rs :: rules' =>
      action ← action_result (bpf (RuleAction rs) defaultAction);
      actions ← possible_actions defaultAction rules';
      Ok ({[ action ]} ∪ actions)
  end.

(** [Build] up to the call of [Instructions]. *)
Definition build_program (env : BuildEnv) (p : Program) : result BuildError ProgramBuilder :=
  ors ← orderRuleSets (env_rules env) (killProcessAvailable env) (RuleSets p) (Options p);
  let defaultActionFn := bpf (DefaultAction (Options p)) (saneDefaultAction (killProcessAvailable env)) in
  defaultAction ← action_result defaultActionFn;
  possibleActions ← possible_actions defaultActionFn (RuleSets p);
  b ← or_panic ((
    SP.Stmt (Op.Ld .| Op.Abs .| Op.W) seccompDataOffsetArch ;>
    SP.IfNot (Op.Jmp .| Op.Jeq .| Op.K) (LINUX_AUDIT_ARCH env) badArchLabel ;>
    recording (λ orsFrag,
      render ors ;>
      MustHaveJumpedToOrReturned orsFrag [defaultLabel] possibleActions) ;>
    SP.Label defaultLabel ;>
    SP.Ret defaultAction ;>
    SP.Label badArchLabel) NewProgramBuilder);
  badArchAction ← action_result (bpf (BadArchAction (Options p)) defaultActionFn);
  or_panic (SP.Ret badArchAction b).

(** [Build] *)
Definition Build (env : BuildEnv) (p : Program) : result BuildError (list Instruction) :=
  b ← build_program env p;
  '(_, (insns, err)) ← or_panic (Instructions (env_labels env) b);
  match err with
  | Some err => Err (BuilderFailed err)
  | None =>
      if negb (SkipOptimizations (Options p)) then or_panic (Optimize (env_returns env) insns)
      else Ok insns
  end.

(** [DataAsBPFInput], for a buffer of [len] bytes. *)
Definition DataAsBPFInput `{SeccompMarshal} (d : SeccompData) (len : nat) : option (list Z) :=
  if (len <? SizeBytes)%nat then None else Some (marshal d).
