(* ===== verification/SingleFacts.v ===== *)
(** * The code for one system call

    [ssrs_Render] renders the rules of one system call: the code returns the action of the
    first rule that matches and goes to the given label if none does, or if the check of the
    vsyscall page fails. *)

From stdpp Require Import base numbers decidable strings pretty gmap list.
From S2P Require Import Prelude Instr Machine MachineFacts OptBase Builder BuilderFacts.
From S2P Require Import SeccompAbi SeccompRules Labels Fragments RuleFacts RuleOpt SeccompAction SeccompProgram.

Local Open Scope Z_scope.
Local Open Scope bits_scope.
Local Open Scope prog_scope.

(** ** Decisions *)

(** The action of the first rule that matches. *)
Definition decide_rules (rules : list syscallRuleAction) (d : SeccompData) : option Z :=
  ra_action <$> head (filter (λ ra, rule_matches (ra_rule ra) d = true) rules).

(** The instruction pointer is in the upper half of the address space. *)
Definition from_vsyscall (d : SeccompData) : bool :=
  negb (high32Bits (InstructionPointer d) .& vsyscallPageIPMask =? 0).

Definition decide_single (ssrs : singleSyscallRuleSet) (d : SeccompData) : option Z :=
  if ss_vsyscall ssrs && negb (from_vsyscall d) then None else decide_rules (ss_rules ssrs) d.

Lemma decide_rules_cons ra rules d :
  decide_rules (ra :: rules) d =
  if rule_matches (ra_rule ra) d then Some (ra_action ra) else decide_rules rules d.
Proof.
  unfold decide_rules. rewrite filter_cons. destruct (rule_matches (ra_rule ra) d) eqn:E.
  - by rewrite decide_True.
  - by rewrite decide_False by congruence.
Qed.

(** Returning the action, or going to [noMatch]. *)
Definition decided (noMatch : string) (o : option Z) (a : Z) (x : exit) : Prop :=
  match o with Some v => x = XReturn v | None => goto noMatch a x end.

Definition ra_ok (ra : syscallRuleAction) : Prop := rule_ok (ra_rule ra) ∧ in_u32 (ra_action ra).

(** ** Labels *)

Definition counted (P : string) (lo hi : nat) (l : string) : Prop :=
  ∃ k, (lo <= k < hi)%nat ∧ l = P +:+ "#" +:+ pretty k.

Definition rule_labels (P : string) (sysno : Z) (i : nat) (l : string) : Prop :=
  ∃ j s, (i <= j)%nat ∧ l = P +:+ "_" +:+ rule_suffix sysno j +:+ s ∧ starts_out is_digit s = true.

(** The labels of the rules of a system call from the [i]-th on. *)
Definition single_makes (P : string) (sysno : Z) (i lo hi : nat) (l : string) : Prop :=
  counted P lo hi l ∨ rule_labels P sysno i l.

Definition advance (n : nat) (ls : labelSet) : labelSet :=
  mkLabelSet (prefix ls) (n + labelCounter ls) (ruleMatched ls) (ruleMismatched ls).

#[export] Instance rule_suffix_family sysno : SuffixFamily (rule_suffix sysno).
Proof.
  intros i j s t Hs Ht H. unfold rule_suffix in H. rewrite !append_assoc in H.
  do 2 apply append_inj_l in H. apply (append_inj_l "_rule") in H. by apply number_inj in H as [-> _].
Qed.

Lemma counted_inj P (k k' : nat) : P +:+ "#" +:+ pretty k = P +:+ "#" +:+ pretty k' → k = k'.
Proof. intros H. apply append_inj_l, (append_inj_l "#"), (inj pretty) in H. done. Qed.

Lemma counted_not_rule P (k : nat) sysno i : ¬ rule_labels P sysno i (P +:+ "#" +:+ pretty k).
Proof. intros (j & s & _ & H & _). by apply append_inj_l in H. Qed.

Lemma counted_not P (k lo hi : nat) : (k < lo ∨ hi <= k)%nat → ¬ counted P lo hi (P +:+ "#" +:+ pretty k).
Proof. intros Hk (k' & Hk' & H). apply counted_inj in H. lia. Qed.

Lemma push_rule_labels ls sysno i m mm l :
  prefix ls ≠ "" → makes (Push ls (rule_suffix sysno i) m mm) l → rule_labels (prefix ls) sysno i l.
Proof. intros HP (s & -> & Hs)%makes_push; [|done]. by exists i, s. Qed.

Lemma push_not_later ls sysno i m mm l :
  prefix ls ≠ "" → makes (Push ls (rule_suffix sysno i) m mm) l →
  ¬ rule_labels (prefix ls) sysno (S i) l.
Proof.
  intros HP (s & -> & Hs)%makes_push (j & t & Hj & H & Ht); [|done].
  apply append_inj_l, (append_inj_l "_"), suffix_inj in H; [lia|done|done].
Qed.

Lemma push_not_counted ls suf m mm lo hi l :
  prefix ls ≠ "" → makes (Push ls suf m mm) l → ¬ counted (prefix ls) lo hi l.
Proof. intros HP (s & -> & _)%makes_push (k & _ & H); [|done]. by apply append_inj_l in H. Qed.

(** ** Rendering *)

Lemma ssrs_loop_next sysno noMatch i rules ls :
  (ssrs_loop sysno noMatch i rules ls).2 = advance (2 * length rules) ls.
Proof.
  revert i ls. induction rules as [|ra rules IH]; intros i ls; [by destruct ls|]. simpl.
  specialize (IH (S i) (NewLabel (NewLabel ls).2).2). simpl in IH.
  destruct (ssrs_loop _ _ _ _ _) as [rest ls']. simpl in *. rewrite IH. unfold advance. simpl. f_equal. lia.
Qed.

Section Single.
Context (e : Endianness) (inp : Input) (d : SeccompData) (Hd : holds_args e inp d).

Lemma ret_correct v L R : in_u32 v → v ∈ R → renders e inp false (SP.Ret v) no_labels L R (λ a x, x = XReturn v).
Proof.
  intros Hv HR. eapply (renders_ext _ _ _ (block_run [BRet v])); [same_code|].
  apply renders_block; [done|done|]. intros a. by eexists.
Qed.

(** One rule and its action. *)
Lemma rule_action_correct ra ls nextRule matched :
  ra_ok ra → prefix ls ≠ "" → matched ≠ nextRule → Matched ls = matched → Mismatched ls = nextRule →
  ¬ makes ls matched →
  renders e inp false
    (recording (λ ruleFrag,
       Render (ra_rule ra) ls ;> SP.Label (Matched ls) ;> SP.Ret (ra_action ra) ;>
       MustHaveJumpedToOrReturned ruleFrag [nextRule] {[ ra_action ra ]}))
    (λ l, makes ls l ∨ l = matched) [nextRule] {[ ra_action ra ]}
    (decided nextRule (if rule_matches (ra_rule ra) d then Some (ra_action ra) else None)).
Proof.
  intros [Hok Hact] HP Hne Hm Hmm Hnm.
  eapply (renders_ext _ _ _ (recording (λ ruleFrag,
    (Render (ra_rule ra) ls ;> SP.Label matched ;> SP.Ret (ra_action ra)) ;>
    MustHaveJumpedToOrReturned ruleFrag [nextRule] {[ ra_action ra ]}))).
  { intros b. unfold recording, prog_seq. rewrite Hm. destruct (Render _ _ b); [|done]. simpl.
    by destruct (SP.Label matched _). }
  apply renders_check; [|done|done].
  eapply renders_mono; [eapply (renders_link e inp false false _ _ matched); [|apply ret_correct|..]|..].
  - eapply (renders_mono _ _ _ _ _ _ _ _ [matched; nextRule] _ {[ ra_action ra ]});
      [apply (Render_correct e inp d Hd (ra_rule ra) Hok ls HP)|done|done| |set_solver|done].
    unfold both. rewrite Hm, Hmm. done.
  - done.
  - set_solver.
  - done.
  - set_solver.
  - done.
  - intros l _ [].
  - done.
  - simpl. intros l [Hl|[->|[]]]; auto.
  - done.
  - done.
  - intros a x. unfold verdict. rewrite Hm, Hmm. destruct (rule_matches (ra_rule ra) d).
    + intros [(a' & _ & Hx)|([a' ->] & _ & Hn)]; [exact Hx|]. by destruct (Hn a').
    + intros Hx. eapply link_past; [|exact Hx]. done.
Qed.

Lemma ssrs_loop_correct sysno noMatch rules i ls R :
  Forall ra_ok rules → prefix ls ≠ "" → list_to_set (ra_action <$> rules) ⊆ R →
  renders e inp false (ssrs_loop sysno noMatch i rules ls).1
    (single_makes (prefix ls) sysno i (labelCounter ls) (2 * length rules + labelCounter ls))
    [noMatch] R (decided noMatch (decide_rules rules d)).
Proof.
  intros Hok HP. revert i ls R HP. induction Hok as [|ra rules Hra Hok IH]; intros i ls R HP HR; simpl.
  { eapply renders_mono; [apply (goto_correct e inp noMatch [noMatch] ∅); by left|done|by intros l []|done|set_solver|done]. }
  specialize (IH (S i) (NewLabel (NewLabel ls).2).2). simpl in IH.
  destruct (ssrs_loop sysno noMatch (S i) rules _) as [rest ls'] eqn:E. simpl in *.
  apply renders_disjoint. intros HL.
  set (matched := prefix ls +:+ "#" +:+ pretty (S (labelCounter ls))).
  set (nextRule := prefix ls +:+ "#" +:+ pretty (labelCounter ls)).
  set (ruleLabels := Push _ _ matched nextRule).
  assert (Hnext : single_makes (prefix ls) sysno i (labelCounter ls)
    (2 * S (length rules) + labelCounter ls) nextRule) by (left; exists (labelCounter ls); split; [lia|done]).
  assert (Hmne : matched ≠ nextRule) by (intros H; apply counted_inj in H; lia).
  assert (Hmk : ∀ l, makes ruleLabels l → rule_labels (prefix ls) sysno i l).
  { intros l Hl. by apply push_rule_labels in Hl. }
  eapply renders_mono; [eapply (renders_link e inp false false _ _ nextRule)|..].
  - eapply (renders_mono _ _ _ _ _ _ _ _ [nextRule; noMatch] _ R);
      [apply (rule_action_correct ra ruleLabels nextRule matched)|..]; try done.
    + by apply Push_prefix_ne.
    + intros Hl%Hmk. by apply counted_not_rule in Hl.
    + intros l ->%list_elem_of_singleton. by left.
    + set_solver.
  - apply IH; [done|set_solver].
  - intros [Hl%Hmk|Hl]; [by apply counted_not_rule in Hl|done].
  - intros Hin%list_elem_of_singleton. apply (HL noMatch); [by left|]. by rewrite <- Hin.
  - intros [Hl|Hl]; [apply counted_not in Hl; [done|lia]|by apply counted_not_rule in Hl].
  - intros l [Hl | ->] [Hc|Hr].
    + by apply (push_not_counted (NewLabel (NewLabel ls).2).2 _ _ _ _ _ l HP Hl) in Hc.
    + by apply (push_not_later (NewLabel (NewLabel ls).2).2 _ _ _ _ l HP Hl) in Hr.
    + apply counted_not in Hc; [done|lia].
    + by apply counted_not_rule in Hr.
  - done.
  - simpl. intros l [[Hl | ->]|[->|[(k & Hk & ->)|(j & s & Hj & Hs)]]].
    + right. by apply Hmk.
    + left. exists (S (labelCounter ls)). split; [lia|done].
    + done.
    + left. exists k. split; [lia|done].
    + right. exists j, s. split; [lia|done].
  - done.
  - done.
  - intros a x. rewrite decide_rules_cons. destruct (rule_matches (ra_rule ra) d); simpl.
    + intros [(a' & [[=]|[=]] & _)|(-> & _ & _)]. done.
    + intros [(a' & _ & Hx)|([a' ->] & _ & Hn)]; [|by destruct (Hn a')].
      destruct (decide_rules rules d); [exact Hx|]. destruct Hx as [a2 ->]. by eexists.
Qed.

(** The check that the call comes from the vsyscall page. *)
Lemma vsyscall_check_correct noMatch R :
  renders e inp true
    (SP.Stmt (Op.Ld .| Op.Abs .| Op.W) seccompDataOffsetIPHigh ;>
     SP.IfNot (Op.Jmp .| Op.Jset .| Op.K) vsyscallPageIPMask noMatch)
    no_labels [noMatch] R
    (λ a x, if from_vsyscall d then is_fall x = true else goto noMatch a x).
Proof.
  eapply (renders_ext _ _ _ (block_run [BLoad seccompDataOffsetIPHigh;
    BCond CSet vsyscallPageIPMask 1 0; BJump noMatch])); [same_code|].
  apply renders_block; [done|simpl; split_and!; (done || lia || by left)|].
  intros a. pose proof (hv_high _ _ _ _ (Hd RuleIP (Nat.le_refl _))) as Hl.
  change (dataOffsetHigh (arg_value RuleIP)) with seccompDataOffsetIPHigh in Hl.
  change (data_value d RuleIP) with (InstructionPointer d) in Hl.
  cbn [block_exec length]. rewrite Hl. cbn [mbind option_bind cond_holds]. unfold from_vsyscall.
  destruct (_ =? 0); simpl; (eexists; split; [done|]); by try eexists.
Qed.

Lemma ssrs_Render_next ssrs ls noMatch :
  (ssrs_Render ssrs ls noMatch).2 = advance (2 * length (ss_rules ssrs)) ls.
Proof.
  unfold ssrs_Render. rewrite <- (ssrs_loop_next (ss_sysno ssrs) noMatch 0).
  by destruct (ssrs_loop _ _ _ _ _).
Qed.

Definition ssrs_ok (ssrs : singleSyscallRuleSet) : Prop := Forall ra_ok (ss_rules ssrs).

Lemma ssrs_Render_correct ssrs ls noMatch :
  ssrs_ok ssrs → prefix ls ≠ "" →
  renders e inp false (ssrs_Render ssrs ls noMatch).1
    (single_makes (prefix ls) (ss_sysno ssrs) 0 (labelCounter ls)
       (2 * length (ss_rules ssrs) + labelCounter ls))
    [noMatch] (actions ssrs) (decided noMatch (decide_single ssrs d)).
Proof.
  intros Hok HP. unfold ssrs_Render.
  pose proof (ssrs_loop_correct (ss_sysno ssrs) noMatch (ss_rules ssrs) 0 ls (actions ssrs) Hok HP)
    as Hbody. destruct (ssrs_loop _ _ _ _ _) as [body ls']. simpl in *.
  specialize (Hbody (reflexivity _)). apply renders_check; [|done|done]. unfold decide_single.
  destruct (ss_vsyscall ssrs); [|exact Hbody].
  eapply renders_ext; [intros b; apply prog_seq_assoc|].
  pose proof (renders_seq _ _ _ _ _ _ _ _ _ _ _
    (vsyscall_check_correct noMatch (actions ssrs)) Hbody (λ l, False_ind _)) as Hseq.
  eapply renders_mono; [exact Hseq|done|by intros l [[]|Hl]|done|done|].
  - intros a x. unfold sem_seq. destruct (from_vsyscall d); cbn [negb andb].
    + intros [(a' & _ & Hx)|[Hf Hn]]; [|congruence].
      destruct (decide_rules _ d); [exact Hx|]. destruct Hx as [a2 ->]. by eexists.
    + intros [(a' & [a2 Ha] & _)|[Hx _]]; [done|exact Hx].
Qed.

End Single.
