(* ===== verification/LinearFacts.v ===== *)
(** * The linear search for hot system calls

    [renderLinear] compares the system call number in [A] with each number of its list: the
    code decides the system call if the number is there, and otherwise goes to the given label
    with [A] unchanged. *)

From stdpp Require Import base numbers decidable strings pretty gmap list.
From S2P Require Import Prelude Instr Machine MachineFacts OptBase Builder BuilderFacts.
From S2P Require Import SeccompAbi SeccompRules Labels Fragments RuleFacts RuleOpt SeccompAction.
From S2P Require Import SeccompProgram SingleFacts.

Local Open Scope Z_scope.
Local Open Scope bits_scope.
Local Open Scope prog_scope.

(** ** Comparisons *)

Section Compare.
Context (e : Endianness) (inp : Input).

Lemma ifnot_correct c k l L R :
  in_u32 k → l ∈ L →
  renders e inp true (SP.IfNot (cond_op c) k l) no_labels L R
    (λ a x, x = if cond_holds c a k then XFall a else XLabel l a).
Proof.
  intros Hk Hl. eapply (renders_ext _ _ _ (block_run [BCond c k 1 0; BJump l])); [destruct c; same_code|].
  apply renders_block; [done|simpl; split_and!; (done || lia)|].
  intros a. cbn [block_exec length]. destruct (cond_holds c a k); by eexists.
Qed.

Lemma if_correct c k l L R :
  in_u32 k → l ∈ L →
  renders e inp true (SP.If (cond_op c) k l) no_labels L R
    (λ a x, x = if cond_holds c a k then XLabel l a else XFall a).
Proof.
  intros Hk Hl. eapply (renders_ext _ _ _ (block_run [BCond c k 0 1; BJump l])); [destruct c; same_code|].
  apply renders_block; [done|simpl; split_and!; (done || lia)|].
  intros a. cbn [block_exec length]. destruct (cond_holds c a k); by eexists.
Qed.

Lemma jump_exact l L R : l ∈ L → renders e inp false (SP.JumpTo l) no_labels L R (λ a x, x = XLabel l a).
Proof. apply jump_correct. Qed.

End Compare.

(** ** Searches *)

(** The rules of a map, by their system call number. *)
Definition map_ok (m : gmap Z singleSyscallRuleSet) : Prop :=
  ∀ sysno ssrs, m !! sysno = Some ssrs → ssrs_ok ssrs ∧ ss_sysno ssrs = sysno ∧ in_u32 sysno.

(** Deciding the system call [a] if it is in [S], and going to [noMatch] otherwise. *)
Definition searched (m : gmap Z singleSyscallRuleSet) (d : SeccompData) (noMatch : string)
    (S : list Z) (a : Z) (x : exit) : Prop :=
  if bool_decide (a ∈ S) then decided defaultLabel (decide_single (single_of m a) d) a x
  else x = XLabel noMatch a.

Definition linear_makes (P : string) (order : list Z) (lo hi : nat) (l : string) : Prop :=
  counted P lo hi l ∨ ∃ sysno, sysno ∈ order ∧ rule_labels P sysno 0 l.

Lemma rule_labels_sysno P s s' i i' l :
  in_u32 s → in_u32 s' → rule_labels P s i l → rule_labels P s' i' l → s = s'.
Proof.
  unfold in_u32. intros Hs Hs' (j & t & _ & -> & _) (j' & t' & _ & H & _).
  apply append_inj_l, (append_inj_l "_") in H. unfold rule_suffix in H. rewrite !append_assoc in H.
  apply append_inj_l, number_Z_inj in H as [-> _]; done || lia.
Qed.

Fixpoint linear_count (m : gmap Z singleSyscallRuleSet) (order : list Z) : nat :=
  match order with
  | [] => 0
  | sysno :: order' => 1 + 2 * length (ss_rules (single_of m sysno)) + linear_count m order'
  end.

Lemma linear_loop_next m order noMatch ls :
  (∀ sysno, sysno ∈ order → is_Some (m !! sysno)) →
  (linear_loop m order noMatch ls).2 = advance (linear_count m order) ls.
Proof.
  revert ls. induction order as [|sysno order IH]; intros ls Hm; [by destruct ls|]. simpl.
  destruct (Hm sysno) as [ssrs E]; [by left|]. unfold single_of. rewrite E. simpl.
  pose proof (ssrs_Render_next ssrs (NewLabel ls).2 defaultLabel) as Hn. simpl in Hn.
  destruct (ssrs_Render ssrs _ _) as [body ls1]. simpl in Hn. subst ls1.
  specialize (IH (advance (2 * length (ss_rules ssrs)) (NewLabel ls).2)).
  simpl in IH. destruct (linear_loop _ _ _ _) as [rest ls2]. simpl in *.
  rewrite IH by (intros s Hs; apply Hm; by right). unfold advance. simpl. f_equal. lia.
Qed.

Section Linear.
Context (e : Endianness) (inp : Input) (d : SeccompData) (Hd : holds_args e inp d).
Context (m : gmap Z singleSyscallRuleSet) (Hm : map_ok m).

(** The code for one number of the list. *)
Lemma linear_step_correct sysno ssrs ls next L :
  m !! sysno = Some ssrs → prefix ls ≠ "" → next ∈ L → defaultLabel ∈ L →
  renders e inp false
    (recording (λ sysnoFrag,
       SP.IfNot (Op.Jmp .| Op.Jeq .| Op.K) (wrap32 (ss_sysno ssrs)) next ;>
       (ssrs_Render ssrs ls defaultLabel).1 ;>
       MustHaveJumpedToOrReturned sysnoFrag [next; defaultLabel] (actions ssrs)))
    (single_makes (prefix ls) sysno 0 (labelCounter ls)
       (2 * length (ss_rules ssrs) + labelCounter ls)) L (actions ssrs)
    (λ a x, if a =? sysno then decided defaultLabel (decide_single ssrs d) a x else x = XLabel next a).
Proof.
  intros Hs HP Hn Hdef. destruct (Hm _ _ Hs) as (Hok & Hno & Hr).
  rewrite Hno. replace (wrap32 sysno) with sysno by (symmetry; by apply Z.mod_small).
  pose proof (ssrs_Render_correct e inp d Hd ssrs ls defaultLabel Hok HP) as Hbody. rewrite Hno in Hbody.
  eapply (renders_ext _ _ _ (recording (λ sysnoFrag,
    (SP.IfNot (cond_op CEq) sysno next ;> (ssrs_Render ssrs ls defaultLabel).1) ;>
    MustHaveJumpedToOrReturned sysnoFrag [next; defaultLabel] (actions ssrs)))).
  { intros b. unfold recording. apply prog_seq_assoc. }
  eapply (renders_mono _ _ _ _ _ _ _ [next; defaultLabel] L (actions ssrs));
    [apply renders_check; [eapply renders_seq|done|done]|done|..].
  - apply ifnot_correct; [done|by left].
  - eapply renders_mono; [exact Hbody|done|done| |done|done].
    intros l ->%list_elem_of_singleton. right. by left.
  - intros l [].
  - by intros l [[]|Hl].
  - by intros l [-> | ->%list_elem_of_singleton]%elem_of_cons.
  - done.
  - intros a x. cbn [cond_holds]. unfold sem_seq. destruct (a =? sysno) eqn:E.
    + intros [(a' & [= <-] & Hx)|[-> Hf]]; [exact Hx|done].
    + by intros [(a' & [=] & Hx)|[-> Hf]].
Qed.

Lemma linear_loop_correct order noMatch ls :
  NoDup order → (∀ sysno, sysno ∈ order → is_Some (m !! sysno)) → prefix ls ≠ "" →
  renders e inp false (linear_loop m order noMatch ls).1
    (linear_makes (prefix ls) order (labelCounter ls) (linear_count m order + labelCounter ls))
    [noMatch; defaultLabel] (linear_actions m order) (searched m d noMatch order).
Proof.
  intros Hnd. revert ls. induction Hnd as [|sysno order Hnin Hnd IH]; intros ls Hin HP.
  { eapply renders_mono; [apply (jump_exact e inp noMatch [noMatch; defaultLabel] ∅); by left|..]; done. }
  destruct (Hin sysno) as [ssrs E]; [by left|]. simpl.
  assert (Hsingle : single_of m sysno = ssrs) by (unfold single_of; by rewrite E). rewrite Hsingle, E.
  pose proof (ssrs_Render_next ssrs (NewLabel ls).2 defaultLabel) as Hn.
  pose proof (linear_step_correct sysno ssrs (NewLabel ls).2) as Hstep.
  simpl in Hn, Hstep. destruct (ssrs_Render ssrs _ _) as [body ls1]. simpl in Hn, Hstep. subst ls1.
  specialize (IH (advance (2 * length (ss_rules ssrs)) (NewLabel ls).2)). simpl in IH.
  destruct (linear_loop _ _ _ _) as [rest ls2]. simpl in *.
  set (next := prefix ls +:+ "#" +:+ pretty (labelCounter ls)) in *.
  assert (Hu : ∀ s, s ∈ sysno :: order → in_u32 s).
  { intros s [ssrs' Hs]%Hin. apply (Hm _ _ Hs). }
  apply renders_disjoint. intros HL.
  eapply renders_mono; [eapply (renders_link e inp false false _ _ next)|..].
  - eapply (renders_mono _ _ _ _ _ _ _ _ [next; noMatch; defaultLabel] _ (linear_actions m (sysno :: order)));
      [apply (Hstep next [next; noMatch; defaultLabel] E HP); [by left|by right; right; left]|done|..]; try done.
    unfold linear_actions. csimpl. rewrite Hsingle. apply union_subseteq_l.
  - eapply renders_mono; [apply IH; [|done]|..]; try done.
    + intros s Hs. apply Hin. by right.
    + unfold linear_actions. csimpl. apply union_subseteq_r.
  - intros [Hl|Hl]; [apply counted_not in Hl; [done|lia]|by apply counted_not_rule in Hl].
  - intros Hl. apply (HL next); [done|]. left. exists (labelCounter ls). split; [lia|done].
  - intros [Hl|(s & _ & Hl)]; [apply counted_not in Hl; [done|lia]|by apply counted_not_rule in Hl].
  - intros l [(k & Hk & ->)|Hl] [Hc|(s & Hs & Hl')].
    + apply counted_not in Hc; [done|lia].
    + by apply counted_not_rule in Hl'.
    + destruct Hl as (j & t & _ & -> & _), Hc as (k & _ & Heq). by apply append_inj_l in Heq.
    + assert (sysno = s) as <- by (eapply rule_labels_sysno; [..|exact Hl|exact Hl']; apply Hu; [by left|by right]).
      done.
  - done.
  - simpl. intros l [[(k & Hk & ->)|Hl]|[->|[(k & Hk & ->)|(s & Hs & Hl)]]].
    + left. exists k. split; [lia|done].
    + right. exists sysno. split; [by left|done].
    + left. exists (labelCounter ls). split; [lia|done].
    + left. exists k. split; [lia|done].
    + right. exists s. split; [by right|done].
  - done.
  - done.
  - intros a x. unfold searched, sem_link. rewrite (bool_decide_ext (a ∈ sysno :: order) (a = sysno ∨ a ∈ order)) by apply elem_of_cons.
    destruct (Z.eqb_spec a sysno) as [->|Hne].
    + rewrite bool_decide_true by (by left). rewrite Hsingle.
      intros [(a' & [Hx|Hx] & _)|(Hx & _)]; [..|exact Hx]; exfalso.
      * destruct (decide_single ssrs d); [done|]. destruct Hx as [a2 [= Hd' _]].
        apply (HL defaultLabel); [by right; left|]. rewrite <- Hd'. left. exists (labelCounter ls). split; [lia|done].
      * destruct (decide_single ssrs d); [done|]. by destruct Hx as [a2 Hx].
    + intros [(a' & [[= ->]|[=]] & Hx)|(-> & _ & Hf)]; [|by destruct (Hf a)].
      by rewrite (bool_decide_ext (a = sysno ∨ a ∈ order) (a ∈ order)) by naive_solver.
Qed.

End Linear.
