(* ===== verification/SearchTree.v ===== *)
(** * Binary search trees and ranges

    [createBST] on a sorted list gives a search tree of its elements, and the ranges that
    [traverse] carries along are bounds for every number that was not checked before. *)

From stdpp Require Import base numbers decidable strings pretty gmap sorting list.
From S2P Require Import Prelude Instr Builder SeccompAbi SeccompRules RuleOpt SeccompAction SeccompProgram.

Local Open Scope Z_scope.

(** ** Search trees *)

Lemma elem_of_keys {A} (m : gmap Z A) v : v ∈ keys m ↔ is_Some (m !! v).
Proof.
  unfold keys. rewrite list_elem_of_fmap. split.
  - intros ([w s] & -> & Hw%elem_of_map_to_list). by exists s.
  - intros [s Hs]. exists (v, s). split; [done|]. by apply elem_of_map_to_list.
Qed.

(** Strictly ascending numbers between [lo] and [hi]. *)
Fixpoint ascending (lo hi : Z) (l : list Z) : Prop :=
  match l with
  | [] => True
  | x :: l' => lo < x < hi ∧ ascending x hi l'
  end.

Lemma ascending_app lo hi l1 v l2 :
  ascending lo hi (l1 ++ v :: l2) → ascending lo v l1 ∧ lo < v < hi ∧ ascending v hi l2.
Proof.
  revert lo. induction l1 as [|x l1 IH]; intros lo; simpl; [tauto|].
  intros [Hx (H1 & H2 & H3)%IH]. split_and!; try done; lia.
Qed.

(** Sorting numbers without duplicates. *)
Lemma sorted_ascending lo hi l :
  StronglySorted (λ a b, (a <=? b) = true) l → NoDup l → Forall (λ x, lo < x < hi) l →
  ascending lo hi l.
Proof.
  intros Hs. revert lo. induction Hs as [|x l Hs IH Hle]; intros lo Hnd Hall; [done|].
  apply NoDup_cons in Hnd as [Hx Hnd]. apply Forall_cons in Hall as [Hb Hall]. split; [done|].
  apply IH; [done|]. rewrite Forall_forall in Hall, Hle |- *. intros y Hy.
  specialize (Hall y Hy). specialize (Hle y Hy). to_prop. assert (x ≠ y) by (by intros ->). lia.
Qed.

Lemma sort_ascending lo hi l :
  NoDup l → Forall (λ x, lo < x < hi) l → ascending lo hi (sort_slice Z.leb l).
Proof.
  intros Hnd Hall. apply sorted_ascending.
  - apply sort_slice_sorted; intros *; rewrite ?Z.leb_gt, !Z.leb_le; lia.
  - by rewrite sort_slice_perm.
  - by rewrite sort_slice_perm.
Qed.

(** A search tree of numbers between [lo] and [hi] in which no node is marked as the root. *)
Fixpoint bst (lo hi : Z) (n : node) : Prop :=
  match n with
  | nilNode => True
  | mkNode value l r root => lo < value < hi ∧ bst lo value l ∧ bst value hi r ∧ root = false
  end.

(** The numbers of a tree, in the order of [traverse]. *)
Fixpoint values (n : node) : list Z :=
  match n with nilNode => [] | mkNode value l r _ => value :: values l ++ values r end.

Lemma bst_range lo hi n v : bst lo hi n → v ∈ values n → lo < v < hi.
Proof.
  revert lo hi. induction n as [|x l IHl r IHr root]; intros lo hi Hb Hv; simpl in *; [by apply elem_of_nil in Hv|].
  destruct Hb as (Hx & Hl & Hr & _). apply elem_of_cons in Hv as [->|Hv]; [done|].
  apply elem_of_app in Hv as [Hv|Hv]; [apply (IHl lo x) in Hv|apply (IHr x hi) in Hv]; try done; lia.
Qed.

(** Where a number of the tree is. *)
Lemma bst_search lo hi x l r root a :
  bst lo hi (mkNode x l r root) →
  a ∈ values (mkNode x l r root) ↔ a = x ∨ a < x ∧ a ∈ values l ∨ x < a ∧ a ∈ values r.
Proof.
  intros (Hx & Hl & Hr & _). simpl. rewrite elem_of_cons, elem_of_app. split.
  - intros [->|[H|H]]; [by left|..]; right; [left|right]; (split; [|done]).
    + apply (bst_range _ _ _ _ Hl) in H. lia.
    + apply (bst_range _ _ _ _ Hr) in H. lia.
  - tauto.
Qed.

Lemma createBST_correct fuel lo hi l :
  l ≠ [] → ascending lo hi l → (length l <= fuel)%nat →
  ∃ n, createBST fuel l = Some n ∧ n ≠ nilNode ∧ bst lo hi n ∧ values n ≡ₚ l.
Proof.
  revert lo hi l. induction fuel as [|fuel IH]; intros lo hi l Hne Hasc Hlen; [destruct l; [done|simpl in Hlen; lia]|].
  cbn [createBST]. set (i := (length l / 2)%nat).
  assert (Hi : (i < length l)%nat).
  { apply Nat.div_lt; [|lia]. destruct l; [done|simpl; lia]. }
  destruct (lookup_lt_is_Some_2 l i Hi) as [v Hv]. rewrite Hv. cbn [mbind option_bind].
  pose proof (take_drop_middle _ _ _ Hv) as Hl. rewrite <- Hl in Hasc.
  apply ascending_app in Hasc as (H1 & H2 & H3).
  assert (∃ n1, (if (0 <? i)%nat then createBST fuel (take i l) else Some nilNode) = Some n1 ∧
    bst lo v n1 ∧ values n1 ≡ₚ take i l) as (n1 & E1 & B1 & V1).
  { destruct (Nat.ltb_spec 0 i).
    - destruct (IH lo v (take i l)) as (n & ? & _ & ? & ?); [|done|rewrite length_take; lia|by exists n].
      destruct (take i l) eqn:E; [|done]. apply (f_equal length) in E. rewrite length_take in E. simpl in E. lia.
    - exists nilNode. replace i with 0%nat by lia. done. }
  assert (∃ n2, (if (i + 1 <? length l)%nat then createBST fuel (drop (i + 1) l) else Some nilNode) = Some n2 ∧
    bst v hi n2 ∧ values n2 ≡ₚ drop (S i) l) as (n2 & E2 & B2 & V2).
  { replace (i + 1)%nat with (S i) by lia. destruct (Nat.ltb_spec (S i) (length l)).
    - destruct (IH v hi (drop (S i) l)) as (n & ? & _ & ? & ?); [|done|rewrite length_drop; lia|by exists n].
      destruct (drop (S i) l) eqn:E; [|done]. apply (f_equal length) in E. rewrite length_drop in E. simpl in E. lia.
    - exists nilNode. rewrite drop_ge by lia. done. }
  rewrite E1, E2. cbn [mbind option_bind]. eexists. split; [done|]. split; [done|]. split; [done|].
  simpl. rewrite V1, V2. rewrite <- Hl at 3. by rewrite Permutation_middle.
Qed.

(** ** Ranges *)

(** [a] is in the range, and was not checked before. *)
Definition in_range (kr : knownRange) (a : Z) : Prop :=
  lowerBoundExclusive kr < a < upperBoundExclusive kr ∧ a ∉ previouslyChecked kr.

Lemma raise_lower_range fuel kr a : in_u32 a → in_range kr a → in_range (raise_lower fuel kr) a.
Proof.
  intros Ha. revert kr. induction fuel as [|fuel IH]; intros kr Hr; [done|]. simpl.
  destruct (_ && _) eqn:E; [|done]. apply andb_prop in E as [_ E%bool_decide_eq_true].
  apply IH. destruct Hr as [Hb Hn]. split; [|done]. simpl.
  assert (a ≠ lowerBoundExclusive kr + 1); [|lia]. intros ->. apply Hn.
  unfold wrap64 in E. unfold in_u32 in Ha. by rewrite Z.mod_small in E by lia.
Qed.

Lemma reduce_upper_range fuel kr a : in_u32 a → in_range kr a → in_range (reduce_upper fuel kr) a.
Proof.
  intros Ha. revert kr. induction fuel as [|fuel IH]; intros kr Hr; [done|]. simpl.
  destruct (_ && _) eqn:E; [|done]. apply andb_prop in E as [_ E%bool_decide_eq_true].
  apply IH. destruct Hr as [Hb Hn]. split; [|done]. simpl.
  assert (a ≠ upperBoundExclusive kr - 1); [|lia]. intros ->. apply Hn.
  unfold wrap64 in E. unfold in_u32 in Ha. by rewrite Z.mod_small in E by lia.
Qed.

(** The numbers above, and below, a node. *)
Lemma withLower_range kr v a :
  in_u32 a → in_range kr a → v < a → in_range (withLowerBoundExclusive kr v) a.
Proof. intros Ha [Hb Hn] Hv. apply raise_lower_range; [done|]. split; simpl; [lia|done]. Qed.

Lemma withUpper_range kr v a :
  in_u32 a → in_range kr a → a < v → in_range (withUpperBoundExclusive kr v) a.
Proof. intros Ha [Hb Hn] Hv. apply reduce_upper_range; [done|]. split; simpl; [lia|done]. Qed.

Lemma to_int_u32 v : in_u32 v → to_int v = v.
Proof. unfold in_u32, to_int. intros Hv. case_if; to_prop; lia. Qed.

Lemma pred_succ_int v :
  in_u32 v → to_int (wrap64 (v - 1)) = v - 1 ∧ to_int (wrap64 (v + 1)) = v + 1.
Proof.
  unfold in_u32, to_int, wrap64. intros Hv. split.
  - destruct (decide (v = 0)) as [->|]; [done|]. rewrite Z.mod_small by lia. case_if; to_prop; lia.
  - rewrite Z.mod_small by lia. case_if; to_prop; lia.
Qed.

(** *** The loops end by their condition *)

Definition lower_goes_on (kr : knownRange) : bool :=
  (lowerBoundExclusive kr <? upperBoundExclusive kr) &&
  bool_decide (wrap64 (lowerBoundExclusive kr + 1) ∈ previouslyChecked kr).

Definition upper_goes_on (kr : knownRange) : bool :=
  (lowerBoundExclusive kr <? upperBoundExclusive kr) &&
  bool_decide (wrap64 (upperBoundExclusive kr - 1) ∈ previouslyChecked kr).

(** Ranges of system call numbers. *)
Definition range_ok (kr : knownRange) : Prop :=
  -1 <= lowerBoundExclusive kr ∧ upperBoundExclusive kr <= 2 ^ 32 ∧
  set_Forall in_u32 (previouslyChecked kr).

Definition above (kr : knownRange) : gset Z :=
  filter (λ x, lowerBoundExclusive kr < x) (previouslyChecked kr).

Definition below (kr : knownRange) : gset Z :=
  filter (λ x, x < upperBoundExclusive kr) (previouslyChecked kr).

Lemma raise_lower_done fuel kr :
  range_ok kr → (size (above kr) < fuel)%nat →
  lower_goes_on (raise_lower fuel kr) = false.
Proof.
  revert kr. induction fuel as [|fuel IH]; intros kr Hok Hf; [lia|]. cbn [raise_lower].
  fold (lower_goes_on kr). destruct (lower_goes_on kr) eqn:E; [|done].
  apply andb_prop in E as [Hlt%Z.ltb_lt Hin%bool_decide_eq_true]. destruct Hok as (Hlo & Hup & Hc).
  unfold wrap64 in Hin. rewrite Z.mod_small in Hin by lia.
  apply IH; [by split_and!; simpl; [lia|..]|].
  eapply Nat.lt_le_trans; [apply (subset_size _ (above kr))|lia].
  split; [intros x [Hx Hx']%elem_of_filter; apply elem_of_filter; simpl in *; split; [lia|done]|].
  intros Hs. specialize (Hs (lowerBoundExclusive kr + 1)). unfold above in Hs. simpl in Hs.
  rewrite !elem_of_filter in Hs. destruct Hs; [split; [lia|done]|lia].
Qed.

Lemma reduce_upper_done fuel kr :
  range_ok kr → (size (below kr) < fuel)%nat →
  upper_goes_on (reduce_upper fuel kr) = false.
Proof.
  revert kr. induction fuel as [|fuel IH]; intros kr Hok Hf; [lia|]. cbn [reduce_upper].
  fold (upper_goes_on kr). destruct (upper_goes_on kr) eqn:E; [|done].
  apply andb_prop in E as [Hlt%Z.ltb_lt Hin%bool_decide_eq_true]. destruct Hok as (Hlo & Hup & Hc).
  assert (Hw : wrap64 (upperBoundExclusive kr - 1) = upperBoundExclusive kr - 1).
  { unfold wrap64. apply Hc in Hin. unfold in_u32, wrap64 in Hin.
    destruct (decide (upperBoundExclusive kr = 0)) as [E|].
    { rewrite E in Hin. change ((0 - 1) mod 2 ^ 64) with (2 ^ 64 - 1) in Hin. lia. }
    apply Z.mod_small. lia. }
  rewrite Hw in Hin. apply IH; [by split_and!; simpl; [..|lia|]|].
  eapply Nat.lt_le_trans; [apply (subset_size _ (below kr))|lia].
  split; [intros x [Hx Hx']%elem_of_filter; apply elem_of_filter; simpl in *; split; [lia|done]|].
  intros Hs. specialize (Hs (upperBoundExclusive kr - 1)). unfold below in Hs. simpl in Hs.
  rewrite !elem_of_filter in Hs. destruct Hs; [split; [lia|done]|lia].
Qed.

Lemma filter_fuel (P : Z → Prop) `{∀ x, Decision (P x)} (X : gset Z) : (size (filter P X) < S (size X))%nat.
Proof. apply Nat.lt_succ_r, subseteq_size. intros x [_ Hx]%elem_of_filter. done. Qed.

Lemma raise_lower_keeps fuel kr :
  lowerBoundExclusive kr <= lowerBoundExclusive (raise_lower fuel kr) ∧
  upperBoundExclusive (raise_lower fuel kr) = upperBoundExclusive kr ∧
  previouslyChecked (raise_lower fuel kr) = previouslyChecked kr.
Proof.
  revert kr. induction fuel as [|fuel IH]; intros kr; [done|]. cbn [raise_lower]. case_match; [|done].
  edestruct IH as (H1 & H2 & H3). split_and!; [etrans; [|exact H1]; simpl; lia|done|done].
Qed.

Lemma reduce_upper_keeps fuel kr :
  upperBoundExclusive (reduce_upper fuel kr) <= upperBoundExclusive kr ∧
  lowerBoundExclusive (reduce_upper fuel kr) = lowerBoundExclusive kr ∧
  previouslyChecked (reduce_upper fuel kr) = previouslyChecked kr.
Proof.
  revert kr. induction fuel as [|fuel IH]; intros kr; [done|]. cbn [reduce_upper]. case_match; [|done].
  edestruct IH as (H1 & H2 & H3). split_and!; [etrans; [exact H1|]; simpl; lia|done|done].
Qed.

(** ** Balance *)

Fixpoint height (n : node) : nat :=
  match n with nilNode => 0 | mkNode _ l r _ => S (height l `max` height r) end.

Lemma createBST_height fuel l n : createBST fuel l = Some n → (height n <= S (Nat.log2 (length l)))%nat.
Proof.
  revert l n. induction fuel as [|fuel IH]; intros l n; [done|]. cbn [createBST]. set (i := (length l / 2)%nat).
  destruct (l !! i) as [v|] eqn:Ev; [|done]. cbn [mbind option_bind]. apply lookup_lt_Some in Ev as Hi.
  assert (Hhalf : (1 < length l → S (Nat.log2 i) = Nat.log2 (length l))%nat).
  { intros Hl. unfold i. rewrite <- Nat.div2_div. destruct (Nat.Even_or_Odd (length l)) as [[k Hk]|[k Hk]].
    - rewrite Hk, Nat.div2_double, Nat.log2_double by lia. done.
    - rewrite Hk. rewrite Nat.log2_succ_double by lia. by rewrite Nat.add_1_r, Nat.div2_succ_double. }
  assert (Hi2 : (2 * i <= length l < 2 * i + 2)%nat).
  { unfold i. pose proof (Nat.div_mod_eq (length l) 2). pose proof (Nat.mod_upper_bound (length l) 2). lia. }
  intros H.
  assert (Hsub : ∀ k, (length k <= i)%nat → (0 < i)%nat → ∀ n', createBST fuel k = Some n' → (height n' <= Nat.log2 (length l))%nat).
  { intros k Hk Hpos n' Hn'. apply IH in Hn'. etrans; [exact Hn'|]. rewrite <- Hhalf by lia.
    apply le_n_S, Nat.log2_le_mono, Hk. }
  destruct (if (0 <? i)%nat then createBST fuel (take i l) else Some nilNode) as [nl|] eqn:El; [|done].
  cbn [mbind option_bind] in H.
  destruct (if (i + 1 <? length l)%nat then createBST fuel (drop (i + 1) l) else Some nilNode) as [nr|] eqn:Er; [|done].
  injection H as <-. simpl. apply le_n_S, Nat.max_lub.
  - destruct (Nat.ltb_spec 0 i); [|injection El as <-; simpl; lia].
    apply (Hsub (take i l)); [rewrite length_take; lia|done|done].
  - destruct (Nat.ltb_spec (i + 1) (length l)); [|injection Er as <-; simpl; lia].
    apply (Hsub (drop (i + 1) l)); [rewrite length_drop; lia|lia|done].
Qed.

(** ** Properties *)

(** C31. On a non-empty, strictly ascending list of 32-bit numbers, [createBST] returns a
    binary search tree with exactly these numbers, whose height, and so the number of
    comparisons of a search, is logarithmic. *)
Theorem createBST_balanced l :
  l ≠ [] → ascending (-1) (2 ^ 32) l →
  ∃ n, createBST (length l) l = Some n ∧ bst (-1) (2 ^ 32) n ∧ values n ≡ₚ l ∧
    (height n <= S (Nat.log2 (length l)))%nat.
Proof.
  intros Hne Hasc. destruct (createBST_correct (length l) (-1) (2 ^ 32) l Hne Hasc) as (n & E & _ & Hb & Hv); [done|].
  exists n. split_and!; [done|done|done|]. by eapply createBST_height.
Qed.

Lemma createBST_balanced_witness :
  ∃ n, createBST 5 [2; 3; 5; 7; 11] = Some n ∧ bst (-1) (2 ^ 32) n ∧ values n ≡ₚ [2; 3; 5; 7; 11] ∧ (height n <= 3)%nat.
Proof. apply (createBST_balanced [2; 3; 5; 7; 11]); [done|simpl; lia]. Defined.

(** The ranges a traversal narrows at a node are exact: the loops of
    [withLowerBoundExclusive] and [withUpperBoundExclusive] end at the first number that was not
    checked before, or with an empty range, and a number that was not checked before is in the
    new range exactly when it was in the old one and is above, or below, the node. *)
Theorem knownRange_exact kr v :
  range_ok kr → lowerBoundExclusive kr <= v <= upperBoundExclusive kr →
  lower_goes_on (withLowerBoundExclusive kr v) = false ∧
  upper_goes_on (withUpperBoundExclusive kr v) = false ∧
  ∀ a, in_u32 a →
    (in_range (withLowerBoundExclusive kr v) a ↔ in_range kr a ∧ v < a) ∧
    (in_range (withUpperBoundExclusive kr v) a ↔ in_range kr a ∧ a < v).
Proof.
  intros (Hlo & Hup & Hc) Hv. split_and!.
  - apply raise_lower_done; [by split_and!; simpl; [lia|..]|apply filter_fuel].
  - apply reduce_upper_done; [by split_and!; simpl; [..|lia|]|apply filter_fuel].
  - intros a Ha. split; split.
    + intros [Hb Hn]. unfold withLowerBoundExclusive in *.
      edestruct raise_lower_keeps as (H1 & H2 & H3). rewrite H2 in Hb. rewrite H3 in Hn. simpl in *.
      split; [split; [lia|done]|lia].
    + intros [Hr Ha']. by apply withLower_range.
    + intros [Hb Hn]. unfold withUpperBoundExclusive in *.
      edestruct reduce_upper_keeps as (H1 & H2 & H3). rewrite H2 in Hb. rewrite H3 in Hn. simpl in *.
      split; [split; [lia|done]|lia].
    + intros [Hr Ha']. by apply withUpper_range.
Qed.

Lemma knownRange_exact_witness :
  lower_goes_on (withLowerBoundExclusive (mkRange (-1) 100 {[ 8; 9; 11 ]}) 7) = false ∧
  lowerBoundExclusive (withLowerBoundExclusive (mkRange (-1) 100 {[ 8; 9; 11 ]}) 7) = 9.
Proof.
  split; [|by vm_compute].
  refine (proj1 (knownRange_exact (mkRange (-1) 100 {[ 8; 9; 11 ]}) 7 _ _)); [|simpl; lia].
  split_and!; [simpl; lia|simpl; lia|]. intros x Hx. simpl in Hx. unfold in_u32. set_solver by lia.
Defined.
