(* ===== verification/TreeFacts.v ===== *)
(** * The code of binary search trees

    [renderBST] renders a search for the system call number in [A]: the code decides the
    system call if its number is in the map, and otherwise goes to the given label with [A]
    unchanged, provided the number is none of those checked before. *)

From stdpp Require Import base numbers decidable strings pretty gmap list.
From S2P Require Import Prelude Instr Machine MachineFacts OptBase Builder BuilderFacts.
From S2P Require Import SeccompAbi SeccompRules Labels Fragments RuleFacts RuleOpt SeccompAction.
From S2P Require Import SeccompProgram SingleFacts LinearFacts SearchTree.

Local Open Scope Z_scope.
Local Open Scope bits_scope.
Local Open Scope prog_scope.

(** ** Labels of a tree *)

Definition value_label (v : Z) : string := "node_" +:+ pretty v.

(** The labels of the nodes of a tree. *)
Definition tree_labels (n : node) (l : string) : Prop := ∃ v, v ∈ values n ∧ l = value_label v.

(** The labels of the nodes below the root of a tree. *)
Definition below_labels (n : node) (l : string) : Prop :=
  match n with nilNode => False | mkNode _ nl nr _ => tree_labels nl l ∨ tree_labels nr l end.

Lemma value_label_inj v w : in_u32 v → in_u32 w → value_label v = value_label w → v = w.
Proof.
  unfold in_u32, value_label. intros Hv Hw H. apply append_inj_l in H. by apply (inj pretty).
Qed.

Lemma checkArgs_inj v w : in_u32 v → in_u32 w → checkArgsLabel v = checkArgsLabel w → v = w.
Proof.
  unfold in_u32, checkArgsLabel. intros Hv Hw H. apply append_inj_l in H. by apply (inj pretty).
Qed.

Lemma checkArgs_not_value v w : checkArgsLabel v ≠ value_label w.
Proof. done. Qed.

(** ** Links *)

Lemma link_pass next S1 S2 a x lab :
  (∀ y, S1 a y → y = XLabel lab a) → lab ≠ next → sem_link next S1 S2 a x → x = XLabel lab a.
Proof.
  intros H1 Hne [(a' & [Hx|Hx] & _)|(Hx & _)]; apply H1 in Hx; congruence.
Qed.

Lemma link_go next S1 S2 a x :
  (∀ y, S1 a y → y = XLabel next a) → sem_link next S1 S2 a x → S2 a x.
Proof.
  intros H1 [(a' & [Hx|Hx] & Hx')|(Hx & _ & Hn)]; apply H1 in Hx; [by simplify_eq|done|by destruct (Hn a)].
Qed.

(** ** Traversal *)

Definition is_nil (n : node) : bool := match n with nilNode => true | _ => false end.

(** Whether the code of a node compares for equality. *)
Definition compares (l r : node) (sysno : Z) (rng : knownRange) : bool :=
  let rng := node_range l r sysno rng in
  negb (lowerBoundExclusive rng =? to_int (wrap64 (sysno - 1))) ||
  negb (upperBoundExclusive rng =? to_int (wrap64 (sysno + 1))).

Definition node_block (searchFailed : string) (l r : node) (sysno : Z) (rng : knownRange) : list code :=
  (if is_nil l then [] else [BCond CGe sysno 1 0; BJump (node_label l)]) ++
  (if is_nil r then [] else [BCond CGt sysno 0 1; BJump (node_label r)]) ++
  (if compares l r sysno rng then [BCond CEq sysno 1 0; BJump searchFailed] else []) ++
  [BJump (checkArgsLabel sysno)].

(** Where a node sends the number [a]. *)
Definition node_target (searchFailed : string) (l r : node) (sysno a : Z) : string :=
  if a =? sysno then checkArgsLabel sysno
  else if a <? sysno then if is_nil l then searchFailed else node_label l
  else if is_nil r then searchFailed else node_label r.

(** The comparison is left out only when the number is known. *)
Lemma compares_sound l r sysno rng a :
  in_u32 sysno → in_range rng a → compares l r sysno rng = false →
  (is_nil l = false → sysno <= a) → (is_nil r = false → a <= sysno) → a = sysno.
Proof.
  intros Hs [[Hlo Hup] _] Hc Hl Hr. unfold compares in Hc. apply orb_false_iff in Hc as [H1 H2].
  destruct (pred_succ_int sysno Hs) as [E1 E2].
  destruct l, r; simpl in *; rewrite ?E1, ?E2 in *; to_prop; try specialize (Hl eq_refl);
    try specialize (Hr eq_refl); lia.
Qed.

(** Linking a tree that may be empty. *)
Definition opt_link (n : node) (S1 S2 : Z → exit → Prop) (a : Z) (x : exit) : Prop :=
  if is_nil n then S1 a x else sem_link (node_label n) S1 S2 a x.

Lemma opt_link_pass n S1 S2 a x lab :
  (∀ y, S1 a y → y = XLabel lab a) → (is_nil n = false → lab ≠ node_label n) →
  opt_link n S1 S2 a x → x = XLabel lab a.
Proof.
  unfold opt_link. intros H1 Hne. destruct (is_nil n); [apply H1|]. apply link_pass; auto.
Qed.

Lemma opt_link_go n S1 S2 a x :
  is_nil n = false → (∀ y, S1 a y → y = XLabel (node_label n) a) → opt_link n S1 S2 a x → S2 a x.
Proof. unfold opt_link. intros -> H1. by apply link_go. Qed.

Section Tree.
Context (e : Endianness) (inp : Input).
Context (searchFailed : string).

(** The labels a node jumps to. *)
Definition node_exits (l r : node) (sysno : Z) : list string :=
  (if is_nil l then [] else [node_label l]) ++ (if is_nil r then [] else [node_label r]) ++
  [checkArgsLabel sysno; searchFailed].

Definition node_code (l r : node) (sysno : Z) (rng : knownRange) : prog :=
  recording (λ nodeFrag,
    block_run (node_block searchFailed l r sysno rng) ;>
    MustHaveJumpedToOrReturned nodeFrag
      [node_label l; node_label r; checkArgsLabel sysno; searchFailed] ∅).

(** What the code of a node does with a number in its range. *)
Definition node_sem (l r : node) (sysno : Z) (rng : knownRange) (a : Z) (x : exit) : Prop :=
  in_range rng a → x = XLabel (node_target searchFailed l r sysno a) a.

Lemma node_code_correct l r sysno rng R :
  in_u32 sysno →
  renders e inp false (node_code l r sysno rng) no_labels (node_exits l r sysno) R
    (node_sem l r sysno rng).
Proof.
  intros Hs. eapply (renders_mono _ _ false _ _ no_labels _ (node_exits l r sysno) _ ∅);
    [apply renders_check; [|..]|done|done|done|apply empty_subseteq|intros a x H; exact H].
  - apply renders_block.
    + unfold node_block. by destruct (is_nil l), (is_nil r), (compares l r sysno rng).
    + unfold node_block, node_exits.
      destruct (is_nil l), (is_nil r), (compares l r sysno rng); simpl; split_and!; (done || lia || set_solver).
    + intros a. pose proof (compares_sound l r sysno rng a Hs) as Hc.
      assert (∃ lt eq : bool, (a <? sysno) = lt ∧ (a =? sysno) = eq ∧ cond_holds CEq a sysno = eq ∧
        cond_holds CGe a sysno = negb lt ∧ cond_holds CGt a sysno = negb lt && negb eq ∧
        (if eq then a = sysno else a ≠ sysno) ∧ (if lt then a < sysno else sysno <= a))
        as (lt & eq & E1 & E2 & E3 & E4 & E5 & E6 & E7).
      { eexists _, _. split; [done|]. split; [done|]. split; [done|]. cbn [cond_holds].
        rewrite Z.geb_leb, Z.gtb_ltb.
        destruct (Z.leb_spec sysno a), (Z.ltb_spec sysno a), (Z.ltb_spec a sysno), (Z.eqb_spec a sysno);
          simpl; split_and!; done || lia. }
      unfold node_block, node_sem, node_target. rewrite E1, E2. clear E1 E2.
      destruct (is_nil l), (is_nil r), (compares l r sysno rng), lt, eq; try lia;
        repeat (cbn [block_exec length app drop negb andb]; rewrite ?E3, ?E4, ?E5);
        (eexists; split; [reflexivity|]); intros Hr; try done;
        exfalso; (apply Hc in Hr; [lia|done|..]; intros; done || lia).
  - unfold node_exits. intros x Hx. rewrite !elem_of_app in Hx. destruct (is_nil l), (is_nil r); set_solver.
  - done.
Qed.

(** The code for a node, as a block. *)
Lemma traversal_code l r sysno root rng b :
  in_u32 sysno →
  renderBSTTraversal searchFailed (mkNode sysno l r root) rng b =
  (if root then node_code l r sysno rng
   else SP.Label (value_label sysno) ;> node_code l r sysno rng) b.
Proof.
  intros Hs. unfold renderBSTTraversal. fold (compares l r sysno rng).
  replace (wrap32 sysno) with sysno by (symmetry; by apply Z.mod_small).
  match goal with |- (if root then ?body else _) b = _ => assert (Hbody : ∀ b, body b = node_code l r sysno rng b) end.
  { clear b. intros b. unfold node_code, recording, node_block, MustHaveJumpedTo.
    generalize (Record_ b). intros frag. generalize (compares l r sysno rng). intros c.
    destruct l, r, c; cbv [is_nil app block_run code_run code_ins prog_seq skip SP.JumpTo SP.If SP.IfNot
      AddStmt AddJump append mbind option_bind skipOneInst cond_op Instr.Jump Z.of_nat Pos.of_succ_nat];
      repeat (match goal with
              | |- context [AddDirectJumpLabel ?l ?b1] => destruct (AddDirectJumpLabel l b1)
              end; cbv [set_instructions]); reflexivity. }
  destruct root; [apply Hbody|]. by apply prog_seq_ext.
Qed.

(** The code for a tree, from its root on, and for a tree that is reached by its label. *)
Fixpoint tree_code (n : node) (kr : knownRange) : prog :=
  match n with
  | nilNode => skip
  | mkNode v l r _ =>
      node_code l r v kr ;>
      match l with
      | nilNode => skip
      | _ => SP.Label (node_label l) ;> tree_code l (withUpperBoundExclusive kr (to_int v))
      end ;>
      match r with
      | nilNode => skip
      | _ => SP.Label (node_label r) ;> tree_code r (withLowerBoundExclusive kr (to_int v))
      end
  end.

Definition child_code (n : node) (kr : knownRange) : prog :=
  match n with nilNode => skip | _ => SP.Label (node_label n) ;> tree_code n kr end.

Lemma traverse_code n kr lo hi b :
  bst lo hi n → -1 <= lo → hi <= 2 ^ 32 →
  traverse (renderBSTTraversal searchFailed) n kr b = child_code n kr b ∧
  (n ≠ nilNode → traverse (renderBSTTraversal searchFailed) (set_root n) kr b = tree_code n kr b).
Proof.
  revert kr lo hi b. induction n as [|v l IHl r IHr root]; intros kr lo hi b Hb Hlo Hhi; [done|].
  destruct Hb as (Hv & Hl & Hr & ->).
  assert (Hrest : ∀ b, (traverse (renderBSTTraversal searchFailed) l (withUpperBoundExclusive kr (to_int v)) ;>
    traverse (renderBSTTraversal searchFailed) r (withLowerBoundExclusive kr (to_int v))) b =
    (child_code l (withUpperBoundExclusive kr (to_int v)) ;>
     child_code r (withLowerBoundExclusive kr (to_int v))) b).
  { intros b'. apply prog_seq_ext; intros b2; [apply (IHl _ lo v)|apply (IHr _ v hi)]; done || lia. }
  assert (Hu : in_u32 v) by (unfold in_u32; lia). split.
  - etrans; [exact (prog_seq_ext _ (SP.Label (value_label v) ;> node_code l r v kr) _ _ b
      (λ b, traversal_code l r v false kr b Hu) Hrest)|apply prog_seq_assoc].
  - intros _. exact (prog_seq_ext _ (node_code l r v kr) _ _ b (λ b, traversal_code l r v true kr b Hu) Hrest).
Qed.

(** Where the tree sends the number [a]. *)
Definition search_label (n : node) (a : Z) : string :=
  if bool_decide (a ∈ values n) then checkArgsLabel a else searchFailed.

Definition child_exit (n : node) : list string := if is_nil n then [] else [node_label n].

Definition tree_exits (n : node) : list string := searchFailed :: (checkArgsLabel <$> values n).

(** What the code for a tree does with a number in its range. *)
Definition tree_sem (n : node) (kr : knownRange) (a : Z) (x : exit) : Prop :=
  in_u32 a → in_range kr a → x = XLabel (search_label n a) a.

Lemma link_child f reg n kr L R sem1 sem2 :
  renders e inp false f reg (child_exit n ++ L) R sem1 →
  (n ≠ nilNode → renders e inp false (tree_code n kr) (below_labels n) L R sem2) →
  (∀ l, tree_labels n l → ¬ reg l ∧ l ∉ L) → (n ≠ nilNode → ¬ below_labels n (node_label n)) →
  renders e inp false (f ;> child_code n kr) (λ l, reg l ∨ tree_labels n l) L R
    (opt_link n sem1 sem2).
Proof.
  intros Hf Hn Hdisj Hself. destruct n as [|v l r root].
  - eapply (renders_ext _ _ _ f); [intros b; by rewrite prog_seq_skip|].
    eapply renders_mono; [exact Hf|..]; auto.
  - assert (Htl : tree_labels (mkNode v l r root) (node_label (mkNode v l r root))).
    { exists v. split; [by left|done]. }
    assert (Hbelow : ∀ l', below_labels (mkNode v l r root) l' → tree_labels (mkNode v l r root) l').
    { intros l' [(w & Hw & ->)|(w & Hw & ->)]; exists w; (split; [|done]); right; apply elem_of_app; auto. }
    destruct (Hdisj _ Htl) as [H1 H2].
    eapply renders_mono; [eapply (renders_link e inp false false _ _ (node_label (mkNode v l r root)))|..].
    + exact Hf.
    + apply Hn. done.
    + done.
    + done.
    + by apply Hself.
    + intros l' Hl' Hb. by destruct (Hdisj l' (Hbelow l' Hb)).
    + done.
    + simpl. intros l' [Hl'|[->|Hl']]; [by left|by right|right; by apply Hbelow].
    + done.
    + done.
    + done.
Qed.

Lemma bst_labels lo hi v l r root :
  bst lo hi (mkNode v l r root) → -1 <= lo → hi <= 2 ^ 32 →
  ¬ tree_labels l (value_label v) ∧ ¬ tree_labels r (value_label v) ∧
  ∀ s, tree_labels l s → ¬ tree_labels r s.
Proof.
  intros (Hv & Hl & Hr & _) Hlo Hhi.
  assert (Hlw : ∀ w, w ∈ values l → lo < w < v) by (intros w; by apply bst_range).
  assert (Hrw : ∀ w, w ∈ values r → v < w < hi) by (intros w; by apply bst_range).
  split_and!.
  - intros (w & Hw%Hlw & E). apply value_label_inj in E; unfold in_u32; lia.
  - intros (w & Hw%Hrw & E). apply value_label_inj in E; unfold in_u32; lia.
  - intros s (w & Hw%Hlw & ->) (w' & Hw'%Hrw & E). apply value_label_inj in E; unfold in_u32; lia.
Qed.

(** A node and the trees below it. *)
Lemma tree_sem_step lo hi v l r kr a x :
  bst lo hi (mkNode v l r false) → -1 <= lo → hi <= 2 ^ 32 →
  (∀ s, tree_labels l s ∨ tree_labels r s → searchFailed ≠ s) →
  opt_link r
    (opt_link l (node_sem l r v kr) (tree_sem l (withUpperBoundExclusive kr (to_int v))))
    (tree_sem r (withLowerBoundExclusive kr (to_int v))) a x →
  tree_sem (mkNode v l r false) kr a x.
Proof.
  intros Hb Hlo Hhi Hsf Hx Ha Hrng. destruct (bst_labels _ _ _ _ _ _ Hb Hlo Hhi) as (Nl & Nr & Nlr).
  assert (Hu : to_int v = v) by (apply to_int_u32; destruct Hb; unfold in_u32; lia).
  assert (Hown : ∀ n, is_nil n = false → tree_labels n (node_label n)).
  { intros [|w l' r' root] E; [done|]. exists w. split; [by left|done]. }
  assert (Hsearch : ∀ n n', is_nil n' = false → n' = l ∨ n' = r → search_label n a ≠ node_label n').
  { intros n n' E Hn'. unfold search_label. case_bool_decide; [by destruct n'|].
    apply Hsf. destruct Hn' as [-> | ->]; auto. }
  assert (H0 : ∀ y, node_sem l r v kr a y → y = XLabel (node_target searchFailed l r v a) a) by (intros y Hy; by apply Hy).
  assert (Hmem := bst_search lo hi v l r false a Hb).
  unfold node_target in H0. destruct (Z.eqb_spec a v) as [->|Hne]; [|destruct (Z.ltb_spec a v)].
  - assert (search_label (mkNode v l r false) v = checkArgsLabel v) as ->.
    { unfold search_label. rewrite bool_decide_true; [done|]. by apply Hmem; left. }
    eapply opt_link_pass; [|..|exact Hx]; [|by destruct r].
    intros y. apply opt_link_pass; [exact H0|by destruct l].
  - assert (search_label (mkNode v l r false) a = search_label l a) as ->.
    { unfold search_label. erewrite bool_decide_ext; [done|]. rewrite Hmem. split; [|auto].
      intros [?|[[_ ?]|[? _]]]; [done|done|lia]. }
    eapply opt_link_pass; [|..|exact Hx]; [|intros E; apply Hsearch; auto].
    intros y Hy. destruct (is_nil l) eqn:El.
    + destruct l; [|done]. by apply H0.
    + apply (opt_link_go l _ _ _ _ El H0) in Hy. apply Hy; [done|]. rewrite Hu. by apply withUpper_range.
  - assert (search_label (mkNode v l r false) a = search_label r a) as ->.
    { unfold search_label. erewrite bool_decide_ext; [done|]. rewrite Hmem. split; [|auto with lia].
      - intros [?|[[? _]|[_ ?]]]; [done|lia|done]. }
    destruct (is_nil r) eqn:Er.
    + destruct r; [|done]. simpl in Hx. eapply opt_link_pass; [exact H0| |exact Hx]. intros E. apply Hsf; auto.
    + apply (opt_link_go r _ _ _ _ Er) in Hx; [apply Hx; [done|]; rewrite Hu; apply withLower_range; done || lia|].
      intros y. apply opt_link_pass; [exact H0|]. intros E Heq. apply (Nlr (node_label r)); [rewrite Heq|]; auto.
Qed.

Lemma tree_code_correct n kr lo hi R :
  n ≠ nilNode → bst lo hi n → -1 <= lo → hi <= 2 ^ 32 →
  renders e inp false (tree_code n kr) (below_labels n) (tree_exits n) R (tree_sem n kr).
Proof.
  revert kr lo hi. induction n as [|v l IHl r IHr root]; intros kr lo hi Hne Hb Hlo Hhi; [done|]. clear Hne.
  destruct (bst_labels _ _ _ _ _ _ Hb Hlo Hhi) as (Nl & Nr & Nlr).
  pose proof Hb as (Hv & Hl & Hr & ->). assert (Hu : in_u32 v) by (unfold in_u32; lia).
  apply renders_disjoint. intros HL. simpl in HL.
  set (krl := withUpperBoundExclusive kr (to_int v)). set (krr := withLowerBoundExclusive kr (to_int v)).
  assert (Hex : ∀ m s, tree_labels m s → searchFailed ≠ s → s ∉ tree_exits (mkNode v l r false)).
  { intros m s (w & _ & ->) Hs [E|(w' & E & _)%list_elem_of_fmap]%elem_of_cons; [done|].
    by apply (checkArgs_not_value w' w). }
  assert (Hsf : ∀ s, tree_labels l s ∨ tree_labels r s → searchFailed ≠ s).
  { intros s Hs <-. apply (HL searchFailed); [by left|done]. }
  assert (Hself : ∀ n lo hi, bst lo hi n → -1 <= lo → hi <= 2 ^ 32 → n ≠ nilNode → ¬ below_labels n (node_label n)).
  { intros [|v' l' r' root'] lo' hi' Hb' Hlo' Hhi' _; [done|].
    destruct (bst_labels _ _ _ _ _ _ Hb' Hlo' Hhi') as (H1 & H2 & _). by intros [|]. }
  assert (Hsub : ∀ m, m = l ∨ m = r → tree_exits m ⊆ tree_exits (mkNode v l r false)).
  { intros m Hm s [->|(w & -> & Hw)%list_elem_of_fmap]%elem_of_cons; [by left|]. right.
    apply list_elem_of_fmap. exists w. split; [done|]. right. apply elem_of_app. destruct Hm as [-> | ->]; auto. }
  change (tree_code (mkNode v l r false) kr)
    with (node_code l r v kr ;> child_code l krl ;> child_code r krr).
  eapply renders_ext; [intros b; apply prog_seq_assoc|].
  eapply renders_mono; [eapply (link_child _ (λ s, no_labels s ∨ tree_labels l s) r krr
    (tree_exits (mkNode v l r false)) R)|..].
  - apply (link_child _ no_labels l krl).
    + eapply renders_mono; [apply (node_code_correct l r v kr R Hu)|done|done| |done|intros a x H; exact H].
      unfold node_exits. intros s Hs. rewrite !elem_of_app in Hs |- *.
      destruct Hs as [Hs|[Hs|Hs]]; [by left|by right; left|right; right].
      apply elem_of_cons in Hs as [-> | ->%list_elem_of_singleton]; [right; left|left].
    + intros Hl'. eapply renders_mono; [apply (IHl krl lo v); done || lia|done|done| |done|intros a x H; exact H].
      intros s Hs. apply elem_of_app. right. apply (Hsub l); auto.
    + intros s Hs. split; [by intros []|]. rewrite elem_of_app. intros [Hin|Hin].
      * apply (Nlr s Hs). unfold child_exit in Hin. destruct r as [|v' l' r' root']; [by apply elem_of_nil in Hin|].
        apply list_elem_of_singleton in Hin as ->. exists v'. split; [by left|done].
      * apply (Hex l s) in Hin; auto.
    + apply (Hself l lo v); done || lia.
  - intros Hr'. eapply renders_mono; [apply (IHr krr v hi); done || lia|done|done|apply Hsub; auto|done|intros a x H; exact H].
  - intros s Hs. split; [intros [[]|Hs']; by apply (Nlr s)|]. apply (Hex r s); auto.
  - apply (Hself r v hi); done || lia.
  - done.
  - intros s [[[]|Hs]|Hs]; [by left|by right].
  - done.
  - done.
  - intros a x. by apply (tree_sem_step lo hi).
Qed.

End Tree.

(** ** Rules *)

Lemma under_value_inj v w l :
  in_u32 v → in_u32 w → under (value_label v) l → under (value_label w) l → v = w.
Proof.
  unfold in_u32, value_label. intros Hv Hw [s Hs] [t Ht].
  destruct Hs as [-> | ->], Ht as [Ht|Ht]; rewrite !append_assoc in Ht; apply append_inj_l in Ht;
    apply number_Z_inj in Ht as [-> _]; done || lia.
Qed.

Lemma checkArgs_not_under v w : ¬ under (value_label v) (checkArgsLabel w).
Proof. intros [s [H|H]]; done. Qed.

Lemma value_not_under v w : in_u32 v → in_u32 w → ¬ under (value_label v) (value_label w).
Proof.
  unfold in_u32, value_label. intros Hv Hw [s Hs].
  assert (H : ∃ t, pretty w +:+ "" = pretty v +:+ t ∧ starts_out is_digit t = true ∧ t ≠ "").
  { rewrite append_nil_r. destruct Hs as [Hs|Hs]; rewrite append_assoc in Hs; apply append_inj_l in Hs;
      eexists; (split; [exact Hs|]); done. }
  destruct H as (t & H & Ht & Hne). apply number_Z_inj in H as [_ <-]; done || lia.
Qed.

Lemma single_makes_under P s i lo hi l : single_makes P s i lo hi l → under P l.
Proof. intros [(k & _ & ->)|(j & t & _ & -> & _)]; eexists; [by left|by right]. Qed.

Section Rules.
Context (e : Endianness) (inp : Input) (d : SeccompData) (Hd : holds_args e inp d).
Context (m : gmap Z singleSyscallRuleSet) (Hm : map_ok m).
Context (searchFailed : string) (kr : knownRange).

Definition rule_code (v : Z) : prog :=
  recording (λ ruleSetsFrag,
    (ssrs_Render (single_of m v) (mkLabelSet (value_label v) 0 "" "") defaultLabel).1 ;>
    MustHaveJumpedToOrReturned ruleSetsFrag [defaultLabel] (actions (single_of m v))).

Fixpoint rules_seq (vs : list Z) : prog :=
  match vs with
  | [] => skip
  | v :: vs' => (SP.Label (checkArgsLabel v) ;> rule_code v) ;> rules_seq vs'
  end.

Lemma rules_seq_app vs ws b : rules_seq (vs ++ ws) b = (rules_seq vs ;> rules_seq ws) b.
Proof.
  revert b. induction vs as [|v vs IH]; intros b; [done|].
  etrans; [exact (prog_seq_ext _ _ _ (rules_seq vs ;> rules_seq ws) b (λ b, eq_refl) IH)|].
  symmetry. apply prog_seq_assoc.
Qed.

Lemma traverse_rules n kr' b : traverse (renderBSTRules m) n kr' b = rules_seq (values n) b.
Proof.
  revert kr' b. induction n as [|v l IHl r IHr root]; intros kr' b; [done|]. cbn [traverse values rules_seq].
  apply prog_seq_ext; [done|]. intros b'. rewrite rules_seq_app. apply prog_seq_ext; intros b2; auto.
Qed.

Lemma rule_code_correct v :
  is_Some (m !! v) →
  renders e inp false (rule_code v) (under (value_label v)) [defaultLabel] (actions (single_of m v))
    (decided defaultLabel (decide_single (single_of m v) d)).
Proof.
  intros [ssrs E]. destruct (Hm v ssrs E) as (Hok & Hno & _). unfold rule_code.
  assert (single_of m v = ssrs) as -> by (unfold single_of; by rewrite E).
  apply renders_check; [|done|done].
  eapply renders_mono; [apply (ssrs_Render_correct e inp d Hd ssrs (mkLabelSet (value_label v) 0 "" "") defaultLabel Hok)|..];
    try done. intros l. apply single_makes_under.
Qed.

(** The system calls [dn] are decided, those of [vs] lead to their label. *)
Definition pending (dn vs : list Z) (a : Z) (x : exit) : Prop :=
  in_u32 a → in_range kr a →
  if bool_decide (a ∈ dn) then decided defaultLabel (decide_single (single_of m a) d) a x
  else x = XLabel (if bool_decide (a ∈ vs) then checkArgsLabel a else searchFailed) a.

Definition rules_labels (vs : list Z) (l : string) : Prop :=
  ∃ v, v ∈ vs ∧ (l = checkArgsLabel v ∨ under (value_label v) l).

Lemma pending_step dn v vs a x :
  in_u32 v → Forall in_u32 dn → v ∉ dn → searchFailed ≠ checkArgsLabel v →
  sem_link (checkArgsLabel v) (pending dn (v :: vs)) (decided defaultLabel (decide_single (single_of m v) d)) a x →
  pending (v :: dn) vs a x.
Proof.
  intros Hv Hdn Hvd Hsf Hx Ha Hr. rewrite (bool_decide_ext (a ∈ v :: dn) (a = v ∨ a ∈ dn)) by apply elem_of_cons.
  destruct (decide (a = v)) as [->|Hne].
  - rewrite bool_decide_true by auto. destruct Hx as [(a' & _ & Hx)|(Hx & _ & Hn)].
    + unfold decided in *. case_match; [done|]. destruct Hx as [a2 ->]. by eexists.
    + specialize (Hx Ha Hr). rewrite bool_decide_false, (bool_decide_true (v ∈ v :: vs)) in Hx by (done || by left).
      by destruct (Hn v).
  - rewrite (bool_decide_ext (a = v ∨ a ∈ dn) (a ∈ dn)) by naive_solver.
    assert (Hpass : pending dn (v :: vs) a x).
    { destruct Hx as [(a' & [Hx|Hx] & _)|(Hx & _)]; [..|done]; specialize (Hx Ha Hr); exfalso.
      - case_bool_decide; [unfold decided in Hx; case_match; [done|by destruct Hx]|].
        injection Hx as Hx _. case_bool_decide; [by apply checkArgs_inj in Hx|by destruct Hsf].
      - case_bool_decide; [unfold decided in Hx; case_match; [done|by destruct Hx]|done]. }
    specialize (Hpass Ha Hr). case_bool_decide; [done|]. rewrite Hpass.
    by rewrite (bool_decide_ext (a ∈ v :: vs) (a ∈ vs)) by (rewrite elem_of_cons; naive_solver).
Qed.

(** Every pending number leads to the code for its rules, wherever the search ends. *)
Lemma rules_correct vs dn f reg R :
  NoDup vs → Forall in_u32 (dn ++ vs) → (∀ v, v ∈ vs → (v ∉ dn) ∧ is_Some (m !! v) ∧ (actions (single_of m v) ⊆ R)) →
  renders e inp false f reg ([searchFailed; defaultLabel] ++ (checkArgsLabel <$> vs)) R (pending dn vs) →
  (∀ l, reg l → ¬ rules_labels vs l) → ¬ rules_labels vs searchFailed →
  renders e inp false (f ;> rules_seq vs) (λ l, reg l ∨ rules_labels vs l) [searchFailed; defaultLabel] R
    (pending (reverse vs ++ dn) []).
Proof.
  intros Hnd. revert dn f reg. induction Hnd as [|v vs Hnin Hnd IH]; intros dn f reg Hu Hin Hf Hreg Hsf.
  { eapply (renders_ext _ _ _ f); [intros b; by rewrite prog_seq_skip|].
    eapply renders_mono; [exact Hf|done|by left|done|done|intros a x H; exact H]. }
  apply Forall_app in Hu as [Hud Hu]. apply Forall_cons in Hu as [Huv Hu].
  destruct (Hin v) as (Hvd & Hv & HvR); [by left|].
  assert (Hne : searchFailed ≠ checkArgsLabel v) by (intros E; apply Hsf; exists v; split; [by left|by left]).
  assert (Hown : rules_labels (v :: vs) (checkArgsLabel v)) by (exists v; split; by left).
  assert (Hrest : ∀ l, rules_labels vs l → l ≠ checkArgsLabel v ∧ ¬ under (value_label v) l).
  { rewrite Forall_forall in Hu. intros l (w & Hw & [->|Hl]); split.
    - intros E%checkArgs_inj; [by subst|by apply Hu|done].
    - apply checkArgs_not_under.
    - intros ->. by apply checkArgs_not_under in Hl.
    - intros Hl'. assert (v = w) as -> by (by eapply under_value_inj; eauto). done. }
  assert (Hlift : ∀ l, rules_labels vs l → rules_labels (v :: vs) l).
  { intros l (w & Hw & Hl). exists w. split; [by right|done]. }
  eapply (renders_ext _ _ _ ((f ;> SP.Label (checkArgsLabel v) ;> rule_code v) ;> rules_seq vs)).
  { intros b. apply prog_seq_assoc. }
  rewrite reverse_cons, <- app_assoc.
  eapply renders_mono; [apply (IH (v :: dn) _ (λ l, reg l ∨ l = checkArgsLabel v ∨ under (value_label v) l))|..].
  - apply Forall_app. split; [by apply Forall_cons|done].
  - intros w Hw. destruct (Hin w) as (H1 & H2 & H3); [by right|]. split; [|done].
    by intros [->|]%elem_of_cons.
  - eapply renders_mono; [eapply (renders_link e inp false false _ _ (checkArgsLabel v) reg _
      ([searchFailed; defaultLabel] ++ (checkArgsLabel <$> vs)) R)|..].
    + eapply renders_mono; [exact Hf|done|done| |done|intros a x H; exact H].
      simpl. intros l. rewrite !elem_of_cons. tauto.
    + eapply renders_mono; [by apply rule_code_correct|done|done| |done|intros a x H; exact H].
      intros l ->%list_elem_of_singleton. right. by left.
    + intros Hr. by apply (Hreg _ Hr).
    + cbn [app]. rewrite !elem_of_cons. intros [E|[E|(w & E & Hw)%list_elem_of_fmap]]; [by destruct Hne|done|].
      apply checkArgs_inj in E; [by subst|done|]. rewrite Forall_forall in Hu. by apply Hu.
    + apply checkArgs_not_under.
    + intros l Hr Hl. apply (Hreg l Hr). exists v. split; [by left|by right].
    + done.
    + done.
    + done.
    + done.
    + intros a x. by apply pending_step.
  - intros l [Hr|[->|Hl]] Hl'; [by apply (Hreg l Hr), Hlift|..]; by destruct (Hrest _ Hl').
  - intros Hl. by apply Hsf, Hlift.
  - done.
  - simpl. intros l [[Hr|Hl]|Hl]; [by left|right|right; by apply Hlift]. exists v. split; [by left|done].
  - done.
  - done.
  - intros a x H. exact H.
Qed.

End Rules.

(** ** The search *)

Section Search.
Context (e : Endianness) (inp : Input) (d : SeccompData) (Hd : holds_args e inp d).
Context (m : gmap Z singleSyscallRuleSet) (Hm : map_ok m).

Definition search_labels (l : string) : Prop := ∃ v, is_Some (m !! v) ∧
  (l = value_label v ∨ l = checkArgsLabel v ∨ under (value_label v) l).

Lemma actions_in_all v : is_Some (m !! v) → actions (single_of m v) ⊆ all_actions m.
Proof.
  intros [s Hs]. unfold single_of. rewrite Hs. unfold all_actions. intros x Hx. apply elem_of_union_list.
  exists (actions s). split; [|done]. apply list_elem_of_fmap. exists (v, s). split; [done|].
  by apply elem_of_map_to_list.
Qed.

Lemma values_set_root n : values (set_root n) = values n.
Proof. by destruct n. Qed.

(** The search tree for a non-empty map decides every number that was not checked before. *)
Lemma renderBST_correct checked noMatch :
  m ≠ ∅ →
  renders e inp false (renderBST checked m noMatch) search_labels [noMatch; defaultLabel] (all_actions m)
    (λ a x, in_u32 a → a ∉ checked → searched m d noMatch (keys m) a x).
Proof.
  intros Hne. unfold renderBST. set (sorted := sort_slice Z.leb (keys m)).
  assert (Hu : ∀ v, is_Some (m !! v) → in_u32 v) by (intros v [s Hs]; by apply (Hm v s)).
  assert (Hperm : sorted ≡ₚ keys m) by apply sort_slice_perm.
  destruct (createBST_correct (length sorted) (-1) (2 ^ 32) sorted) as (n & -> & Hn & Hb & Hv); [..|done|].
  { intros E. rewrite E in Hperm. apply Permutation_nil in Hperm. unfold keys in Hperm.
    apply fmap_nil_inv, map_to_list_empty_iff in Hperm. done. }
  { apply sort_ascending; [apply NoDup_fst_map_to_list|]. apply Forall_forall. intros v Hv%elem_of_keys%Hu.
    unfold in_u32 in Hv. lia. }
  set (kr := mkRange (-1) (2 ^ 32) checked).
  assert (Hval : ∀ v, v ∈ values n ↔ is_Some (m !! v)) by (intros v; by rewrite Hv, Hperm, elem_of_keys).
  eapply (renders_ext _ _ _ (recording (λ frag, (tree_code noMatch n kr ;> rules_seq m (values n)) ;>
    MustHaveJumpedToOrReturned frag [noMatch; defaultLabel] (all_actions m)))).
  { intros b. unfold recording. etrans; [apply prog_seq_assoc|]. apply prog_seq_ext; intros b'.
    - symmetry. by apply (traverse_code noMatch n kr (-1) (2 ^ 32)).
    - apply prog_seq_ext; intros b2; [|done]. by rewrite traverse_rules, values_set_root. }
  apply renders_check; [|done|done]. apply renders_disjoint. intros HL.
  eapply renders_mono; [apply (rules_correct e inp d Hd m Hm noMatch kr (values n) [])|..].
  - rewrite Hv, Hperm. apply NoDup_fst_map_to_list.
  - apply Forall_forall. intros v Hin%Hval. by apply Hu.
  - intros v Hin%Hval. split; [by intros ?%elem_of_nil|]. split; [done|by apply actions_in_all].
  - eapply renders_mono; [apply (tree_code_correct e inp noMatch n kr (-1) (2 ^ 32))|..]; try done.
    unfold tree_exits. intros l [->|Hl]%elem_of_cons; [by left|by right; right].
  - intros l Hl (w & Hw & Hw').
    assert (∃ v, v ∈ values n ∧ l = value_label v) as (v & Hvn & ->).
    { destruct n as [|v l' r root]; [done|].
      destruct Hl as [(v' & Hv' & ->)|(v' & Hv' & ->)]; exists v'; (split; [|done]); right; apply elem_of_app; auto. }
    destruct Hw' as [E|Hw']; [by apply (checkArgs_not_value w v)|].
    apply value_not_under in Hw'; [done|..]; apply Hu, Hval; done.
  - intros (w & Hw & Hl). apply (HL noMatch); [by left|]. exists w. split; [by apply Hval|by right].
  - done.
  - intros l [Hl|(w & Hw & Hl)].
    + destruct n as [|v l' r root]; [done|]. destruct Hl as [(v' & Hv' & ->)|(v' & Hv' & ->)];
        exists v'; (split; [apply Hval; right; apply elem_of_app; auto|by left]).
    + exists w. split; [by apply Hval|by right].
  - done.
  - done.
  - intros a x Hx Ha Hc. unfold searched. specialize (Hx Ha).
    assert (Hr : in_range kr a) by (split; [unfold in_u32 in Ha; simpl; lia|done]).
    specialize (Hx Hr). rewrite app_nil_r in Hx.
    rewrite (bool_decide_ext (a ∈ reverse (values n)) (a ∈ keys m)) in Hx
      by (rewrite elem_of_reverse; by rewrite Hv, Hperm).
    case_bool_decide; [done|]. rewrite bool_decide_false in Hx by apply not_elem_of_nil. done.
Qed.

End Search.
