(* ===== verification/RenderFacts.v ===== *)
(** * The code of ordered rules

    [orderedRuleSets.render] loads the system call number and goes through the three parts of
    the rules.  The code returns the action of the first rule that matches among those of the
    system call, and goes to the default label if there is none. *)

From stdpp Require Import base numbers decidable strings pretty gmap list.
From S2P Require Import Prelude Instr Machine MachineFacts OptBase Builder BuilderFacts.
From S2P Require Import SeccompAbi SeccompRules Labels Fragments RuleFacts RuleOpt SeccompAction.
From S2P Require Import SeccompProgram SingleFacts LinearFacts SearchTree TreeFacts.

Local Open Scope Z_scope.
Local Open Scope bits_scope.
Local Open Scope prog_scope.

(** ** Labels *)

(** The labels of the linear search, and those that end a part. *)
Definition ors_labels (lo hi : nat) (l : string) : Prop :=
  counted "ors" lo hi l ∨ ∃ sysno, rule_labels "ors" sysno 0 l.

Definition ors_set (k : nat) : labelSet := mkLabelSet "ors" k "" "".

Lemma counted_not_search m lo hi l : counted "ors" lo hi l → ¬ search_labels m l.
Proof. by intros (k & _ & ->) (v & _ & [?|[?|(s & [?|?])]]). Qed.

Lemma rule_not_search m sysno l : rule_labels "ors" sysno 0 l → ¬ search_labels m l.
Proof. by intros (j & t & _ & -> & _) (v & _ & [?|[?|(s & [?|?])]]). Qed.

Lemma counted_disjoint lo mid hi l : counted "ors" lo mid l → ¬ counted "ors" mid hi l.
Proof. intros (k & Hk & ->) Hc. apply counted_not in Hc; [done|lia]. Qed.

(** The trees of disjoint maps have different labels. *)
Lemma search_labels_disjoint m m' l :
  map_ok m → map_ok m' → m ##ₘ m' → search_labels m l → ¬ search_labels m' l.
Proof.
  intros Hm Hm' Hdisj (v & [s Hs] & Hl) (w & [t Ht] & Hl').
  assert (Hv : in_u32 v) by (by apply (Hm v s)). assert (Hw : in_u32 w) by (by apply (Hm' w t)).
  assert (v = w) as ->; [|by eapply (map_disjoint_spec m m')].
  destruct Hl as [->|[->|Hl]], Hl' as [Hl'|[Hl'|Hl']]; try done.
  - by apply value_label_inj.
  - by apply value_not_under in Hl'.
  - by apply checkArgs_inj.
  - by apply checkArgs_not_under in Hl'.
  - subst l. by apply value_not_under in Hl.
  - subst l. by apply checkArgs_not_under in Hl.
  - by eapply under_value_inj.
Qed.

(** ** Parts *)

Section Parts.
Context (e : Endianness) (inp : Input) (d : SeccompData) (Hd : holds_args e inp d).
Context (nr : Z) (Hnr : in_u32 nr).

(** A part of the code, which may be empty. *)
Definition part (p : prog) (reg : string → Prop) (R : gset Z) (sem : Z → exit → Prop) : Prop :=
  (p = skip ∧ ∀ a, sem a (XFall a)) ∨ renders e inp true p reg [defaultLabel] R sem.

(** The rules of [m] decide the number in [A], unless it was checked before. *)
Definition part_sem (m : gmap Z singleSyscallRuleSet) (checked : gset Z) (a : Z) (x : exit) : Prop :=
  in_u32 a → a ∉ checked →
  match m !! a with
  | Some ssrs => decided defaultLabel (decide_single ssrs d) a x
  | None => x = XFall a
  end.

(** What the parts so far did, which have the rules [m]. *)
Definition so_far (m : gmap Z singleSyscallRuleSet) (_ : Z) (x : exit) : Prop :=
  match m !! nr with
  | Some ssrs => decided defaultLabel (decide_single ssrs d) 0 x
  | None => x = XFall nr
  end.

Lemma part_mono p reg reg' R sem : part p reg R sem → (∀ l, reg l → reg' l) → part p reg' R sem.
Proof. intros [Hp|Hp] Hreg; [by left|right]. eapply renders_mono; [exact Hp|done|done|done|done|done]. Qed.

Lemma decided_any noMatch o a a' x : decided noMatch o a x → decided noMatch o a' x.
Proof. destruct o; done. Qed.

Lemma decided_not_fall noMatch o a x : decided noMatch o a x → is_fall x = false.
Proof. destruct o; [by intros ->|by intros [? ->]]. Qed.

Lemma so_far_step m m' checked a x :
  m ##ₘ m' → (∀ s, s ∈ checked → is_Some (m !! s)) →
  sem_seq (so_far m) (part_sem m' checked) a x → so_far (m ∪ m') a x.
Proof.
  intros Hdisj Hc. unfold so_far, part_sem, sem_seq. destruct (m !! nr) as [ssrs|] eqn:E.
  - rewrite (lookup_union_Some_l _ _ _ _ E).
    intros [(a' & Hf & _)|[Hx _]]; [by apply decided_not_fall in Hf|done].
  - rewrite lookup_union_r by done. intros [(a' & [= ->] & Hx)|[-> Hf]]; [|done].
    assert (Hn : nr ∉ checked) by (intros [s Hs]%Hc; congruence). specialize (Hx Hnr Hn).
    destruct (m' !! nr); [by eapply decided_any|done].
Qed.

Lemma so_far_part p q reg1 reg2 R m m' checked :
  renders e inp true p reg1 [defaultLabel] R (so_far m) → part q reg2 R (part_sem m' checked) →
  (∀ l, reg1 l → ¬ reg2 l) → m ##ₘ m' → (∀ s, s ∈ checked → is_Some (m !! s)) →
  renders e inp true (p ;> q) (λ l, reg1 l ∨ reg2 l) [defaultLabel] R (so_far (m ∪ m')).
Proof.
  intros Hp [[-> Hq]|Hq] Hreg Hdisj Hc.
  - eapply (renders_ext _ _ _ p); [intros b; by rewrite prog_seq_skip|].
    eapply renders_mono; [exact Hp|done|by left|done|done|].
    intros a x Hx. apply (so_far_step m m' checked a x Hdisj Hc). unfold sem_seq.
    destruct (is_fall x) eqn:Ef; [|by right]. destruct x as [|a'|]; try done. left. by exists a'.
  - eapply renders_mono; [exact (renders_seq _ _ _ _ _ _ _ _ _ _ _ Hp Hq Hreg)|done|done|done|done|].
    intros a x. by apply so_far_step.
Qed.

(** A search, with the label of the numbers not found at its end. *)
Lemma search_part f reg noMatch m checked S R :
  renders e inp false f reg [noMatch; defaultLabel] R
    (λ a x, in_u32 a → a ∉ checked → searched m d noMatch S a x) →
  (∀ s, s ∈ S ↔ is_Some (m !! s)) → ¬ reg noMatch → noMatch ≠ defaultLabel →
  part (f ;> SP.Label noMatch) (λ l, reg l ∨ l = noMatch) R (part_sem m checked).
Proof.
  intros Hf HS Hreg Hne. right.
  assert (Hn : noMatch ∉ [defaultLabel]) by (by intros ?%list_elem_of_singleton).
  eapply renders_mono; [exact (renders_label _ _ _ _ _ _ _ _ _ Hf Hreg Hn)|done|done|done|done|].
  unfold sem_label, part_sem, searched, single_of.
  intros a x Hx Ha Hc. destruct (m !! a) as [ssrs|] eqn:E; simpl in Hx.
  - destruct Hx as [(a' & Hx & _)|[Hx _]]; specialize (Hx Ha Hc);
      rewrite bool_decide_true in Hx by (apply HS; by eexists); [|exact Hx].
    exfalso. unfold decided in Hx. case_match; [done|]. by destruct Hx as [a2 [= ? _]].
  - assert (Hni : a ∉ S) by (rewrite HS, E; by intros [? [=]]).
    destruct Hx as [(a' & Hx & ->)|[Hx Hn']]; specialize (Hx Ha Hc);
      rewrite bool_decide_false in Hx by done; [congruence|]. by destruct (Hn' a).
Qed.

Lemma linear_in_all m order :
  (∀ s, s ∈ order → is_Some (m !! s)) → linear_actions m order ⊆ all_actions m.
Proof.
  intros Hin x Hx. apply elem_of_union_list in Hx as (X & HX & Hx).
  apply list_elem_of_fmap in HX as (s & -> & Hs). by apply (actions_in_all m s (Hin s Hs)).
Qed.

Lemma counted_here (k hi : nat) : (k < hi)%nat → counted "ors" k hi ("ors" +:+ "#" +:+ pretty k).
Proof. intros Hk. exists k. split; [lia|done]. Qed.

Lemma render_hot_correct ors k R :
  map_ok (hotNonTrivial ors) → NoDup (hotNonTrivialOrder ors) →
  (∀ s, s ∈ hotNonTrivialOrder ors ↔ is_Some (hotNonTrivial ors !! s)) → all_actions (hotNonTrivial ors) ⊆ R →
  ∃ k', (k <= k')%nat ∧ (render_hot ors (ors_set k)).2 = ors_set k' ∧
    part (render_hot ors (ors_set k)).1 (ors_labels k k') R (part_sem (hotNonTrivial ors) ∅).
Proof.
  intros Hm Hnd Hkeys HR. unfold render_hot. destruct (hotNonTrivialOrder ors) as [|v vs] eqn:Eo.
  { exists k. split; [done|]. split; [done|]. left. split; [done|]. intros a _ _.
    destruct (_ !! a) eqn:E; [|done]. by apply mk_is_Some, Hkeys, elem_of_nil in E. }
  rewrite <- Eo in *. clear Eo v vs. set (order := hotNonTrivialOrder ors) in *.
  set (m := hotNonTrivial ors) in *. unfold renderLinear.
  pose proof (linear_loop_next m order ("ors" +:+ "#" +:+ pretty k) (ors_set (S k)) (λ s, proj1 (Hkeys s))) as Hnext.
  pose proof (linear_loop_correct e inp d Hd m Hm order ("ors" +:+ "#" +:+ pretty k) (ors_set (S k)) Hnd
    (λ s, proj1 (Hkeys s))) as Hcode.
  cbn [NewLabel ors_set prefix labelCounter ruleMatched ruleMismatched] in *.
  destruct (linear_loop _ _ _ _) as [body ls]. simpl in Hnext, Hcode. subst ls.
  exists (linear_count m order + S k)%nat. split; [lia|]. split; [done|]. simpl.
  eapply part_mono; [apply (search_part (recording (λ hotFrag, body ;> MustHaveJumpedToOrReturned hotFrag
    ["ors" +:+ "#" +:+ pretty k; defaultLabel] (linear_actions m order)))
    (linear_makes "ors" order (S k) (linear_count m order + S k)) ("ors" +:+ "#" +:+ pretty k) m ∅ order R)|].
  - eapply renders_mono; [apply renders_check; [by apply Hcode|done|done]|done|done|done| |by intros a x H ? ?].
    etrans; [by apply linear_in_all; apply Hkeys|done].
  - done.
  - intros [Hc|(s & _ & Hc)]; [apply counted_not in Hc; [done|lia]|by apply counted_not_rule in Hc].
  - done.
  - simpl. intros l [[(k' & Hk' & ->)|(s & Hs & Hl)]| ->].
    + left. exists k'. split; [lia|done].
    + right. by exists s.
    + left. apply counted_here. lia.
Qed.

Lemma render_tree_correct m checked k R :
  map_ok m → all_actions m ⊆ R →
  ∃ k', (k <= k')%nat ∧ (render_tree checked m (ors_set k)).2 = ors_set k' ∧
    part (render_tree checked m (ors_set k)).1 (λ l, search_labels m l ∨ counted "ors" k k' l) R
      (part_sem m checked).
Proof.
  intros Hm HR. unfold render_tree. case_bool_decide as Hne.
  { exists k. split; [done|]. split; [done|]. left. split; [done|]. intros a _ _. by rewrite Hne, lookup_empty. }
  exists (S k). split; [lia|]. split; [done|]. simpl.
  eapply part_mono; [apply (search_part (recording (λ frag, renderBST checked m ("ors" +:+ "#" +:+ pretty k) ;>
    MustHaveJumpedToOrReturned frag ["ors" +:+ "#" +:+ pretty k; defaultLabel] (all_actions m)))
    (search_labels m) ("ors" +:+ "#" +:+ pretty k) m checked (keys m) R)|].
  - eapply renders_mono; [apply renders_check; [by apply (renderBST_correct e inp d Hd m Hm)|done|done]|done|done|done|done|].
    intros a x H. exact H.
  - intros s. apply elem_of_keys.
  - apply (counted_not_search m k (S k)), counted_here. lia.
  - done.
  - intros l [Hl| ->]; [by left|]. right. apply counted_here. lia.
Qed.

End Parts.

(** ** All parts *)

Definition rules_of (ors : orderedRuleSets) : gmap Z singleSyscallRuleSet :=
  hotNonTrivial ors ∪ coldNonTrivial ors ∪ trivial ors.

Record ors_ok (ors : orderedRuleSets) : Prop := mkOrsOk {
  oo_hot : map_ok (hotNonTrivial ors);
  oo_cold : map_ok (coldNonTrivial ors);
  oo_trivial : map_ok (trivial ors);
  oo_hot_cold : hotNonTrivial ors ##ₘ coldNonTrivial ors;
  oo_hot_trivial : hotNonTrivial ors ##ₘ trivial ors;
  oo_cold_trivial : coldNonTrivial ors ##ₘ trivial ors;
  oo_order : NoDup (hotNonTrivialOrder ors);
  oo_keys s : s ∈ hotNonTrivialOrder ors ↔ is_Some (hotNonTrivial ors !! s)
}.

Definition render_labels (ors : orderedRuleSets) (l : string) : Prop :=
  (∃ lo hi, ors_labels lo hi l) ∨ search_labels (coldNonTrivial ors) l ∨ search_labels (trivial ors) l.

Definition render_actions (ors : orderedRuleSets) : gset Z :=
  all_actions (hotNonTrivial ors) ∪ all_actions (coldNonTrivial ors) ∪ all_actions (trivial ors).

Lemma prog_seq_nest (f g h i j k : prog) b :
  (((((f ;> g) ;> h) ;> i) ;> j) ;> k) b = (f ;> g ;> h ;> i ;> j ;> k) b.
Proof. rewrite !prog_seq_assoc. done. Qed.

(** The decision about a system call with the data [d]. *)
Definition decide_map (m : gmap Z singleSyscallRuleSet) (nr : Z) (d : SeccompData) : option Z :=
  ssrs ← m !! nr; decide_single ssrs d.

(** The labels of the three parts are different. *)
Lemma hot_cold_labels m (k1 k2 : nat) l :
  no_labels l ∨ ors_labels 0 k1 l → ¬ (search_labels m l ∨ counted "ors" k1 k2 l).
Proof.
  intros [[]|[Hc|(s & Hr)]] [Hs|Hc'].
  - by eapply counted_not_search.
  - exact (counted_disjoint _ _ _ _ Hc Hc').
  - by eapply rule_not_search.
  - destruct Hc' as (k & _ & ->). by apply counted_not_rule in Hr.
Qed.

Lemma cold_trivial_labels m m' (k1 k2 k3 : nat) l :
  map_ok m → map_ok m' → m ##ₘ m' → (k1 <= k2)%nat →
  (no_labels l ∨ ors_labels 0 k1 l) ∨ (search_labels m l ∨ counted "ors" k1 k2 l) →
  ¬ (search_labels m' l ∨ counted "ors" k2 k3 l).
Proof.
  intros Hm Hm' Hd Hk [Hh|[Hs|Hc]] [Hs'|Hc'].
  - by apply (hot_cold_labels m' k1 k3 l Hh); left.
  - apply (hot_cold_labels m' k1 k3 l Hh). right. destruct Hc' as (k & Hk' & ->). exists k. split; [lia|done].
  - by apply (search_labels_disjoint m m' l).
  - by eapply counted_not_search.
  - by eapply counted_not_search.
  - exact (counted_disjoint _ _ _ _ Hc Hc').
Qed.

Lemma render_parts e inp d nr ors start hot cold triv (k1 k2 k3 : nat) R checked :
  let chk : gset Z := list_to_set (hotNonTrivialOrder ors) in
  in_u32 nr → ors_ok ors → (k1 <= k2)%nat → checked = dom (coldNonTrivial ors) ∪ chk →
  renders e inp true start no_labels [defaultLabel] R (so_far d nr ∅) →
  part e inp hot (ors_labels 0 k1) R (part_sem d (hotNonTrivial ors) ∅) →
  part e inp cold (λ l, search_labels (coldNonTrivial ors) l ∨ counted "ors" k1 k2 l) R
    (part_sem d (coldNonTrivial ors) chk) →
  part e inp triv (λ l, search_labels (trivial ors) l ∨ counted "ors" k2 k3 l) R
    (part_sem d (trivial ors) checked) →
  renders e inp true (((start ;> hot) ;> cold) ;> triv) (render_labels ors) [defaultLabel] R
    (so_far d nr (rules_of ors)).
Proof.
  intros chk Hnr [Hh Hc Ht Dhc Dht Dct Hnd Hkeys] Hk -> H0 P1 P2 P3.
  assert (Hchk : ∀ s, s ∈ chk ↔ is_Some (hotNonTrivial ors !! s)).
  { intros s. unfold chk. by rewrite elem_of_list_to_set. }
  assert (H1 : renders e inp true (start ;> hot) (λ l, no_labels l ∨ ors_labels 0 k1 l) [defaultLabel] R
    (so_far d nr (hotNonTrivial ors))).
  { rewrite <- (map_empty_union (hotNonTrivial ors)).
    eapply so_far_part; [done|exact H0|exact P1|by intros l []|apply map_disjoint_empty_l|].
    by intros s ?%not_elem_of_empty. }
  assert (H2 := so_far_part e inp d nr Hnr _ _ _ _ _ _ _ _ H1 P2 (hot_cold_labels _ _ _) Dhc (λ s, proj1 (Hchk s))).
  eapply renders_mono; [eapply (so_far_part e inp d nr Hnr _ _ _ _ _ _ _ _ H2 P3)|done|..]; try done.
  - intros l. by apply cold_trivial_labels.
  - by apply map_disjoint_union_l.
  - intros s [[t Hs]%elem_of_dom|[t Hs]%Hchk]%elem_of_union; apply lookup_union_is_Some; eauto.
  - simpl. intros l [[[[]|Hl]|[Hl|Hl]]|[Hl|Hl]].
    + left. by eexists _, _.
    + by right; left.
    + left. eexists _, _. by left.
    + by right; right.
    + left. eexists _, _. by left.
Qed.

Lemma render_correct e inp d nr ors :
  holds_args e inp d → in_u32 nr → load32 e inp seccompDataOffsetNR = Some nr → ors_ok ors →
  renders e inp false (render ors) (render_labels ors) [defaultLabel] (render_actions ors)
    (decided defaultLabel (decide_map (rules_of ors) nr d)).
Proof.
  intros Hd Hnr Hload Hok. pose proof Hok as [Hh Hc Ht _ _ _ Hnd Hkeys]. unfold render.
  change (mkLabelSet "ors" 0 "" "") with (ors_set 0).
  destruct (render_hot_correct e inp d Hd ors 0 (render_actions ors) Hh Hnd Hkeys) as (k1 & Hk1 & E1 & P1).
  { unfold render_actions. set_solver. }
  destruct (render_hot ors _) as [hot ls1]. simpl in E1, P1. subst ls1.
  set (checked := list_to_set (hotNonTrivialOrder ors) : gset Z).
  destruct (render_tree_correct e inp d Hd (coldNonTrivial ors) checked k1 (render_actions ors) Hc)
    as (k2 & Hk2 & E2 & P2); [unfold render_actions; set_solver|].
  destruct (render_tree checked _ _) as [cold ls2]. simpl in E2, P2. subst ls2.
  set (checked2 := dom (coldNonTrivial ors) ∪ checked).
  destruct (render_tree_correct e inp d Hd (trivial ors) checked2 k2 (render_actions ors) Ht)
    as (k3 & Hk3 & E3 & P3); [unfold render_actions; set_solver|].
  destruct (render_tree checked2 _ _) as [triv ls3]. simpl in E3, P3. subst ls3.
  set (load := SP.Stmt (Op.Ld .| Op.Abs .| Op.W) seccompDataOffsetNR).
  assert (H3 : renders e inp true (((load ;> hot) ;> cold) ;> triv) (render_labels ors) [defaultLabel]
    (render_actions ors) (so_far d nr (rules_of ors))).
  { apply (render_parts e inp d nr ors load hot cold triv k1 k2 k3 (render_actions ors) checked2); try done.
    by apply load_correct. }
  eapply (renders_ext _ _ _ (recording (λ totalFrag, ((((load ;> hot) ;> cold) ;> triv) ;> SP.JumpTo defaultLabel) ;>
    MustHaveJumpedToOrReturned totalFrag [defaultLabel] (render_actions ors)))).
  { intros b. apply prog_seq_nest. }
  apply renders_check; [|done|done].
  assert (H4 := renders_seq _ _ _ _ _ _ _ _ _ _ _ H3
    (jump_exact e inp defaultLabel [defaultLabel] (render_actions ors) (list_elem_of_here _ _)) (λ l _ H, H)).
  eapply renders_mono; [exact H4|done|by intros l [Hl|[]]|done|done|].
  unfold so_far, decide_map, sem_seq. intros a x. destruct (rules_of ors !! nr) as [ssrs|]; simpl.
  - intros [(a' & Hf & _)|[Hx _]]; [by apply decided_not_fall in Hf|by eapply decided_any].
  - intros [(a' & [= ->] & ->)|[-> ?]]; [by eexists|done].
Qed.
