(* ===== verification/OrderFacts.v ===== *)
(** * Ordering rules by system call

    [orderRuleSets] makes three maps of rules out of a list of [RuleSet]s.  Unless two rule
    sets disagree on whether a system call must come from the vsyscall page, the maps are
    disjoint and well formed, and the rules they have for a system call decide it like the
    first [RuleSet] that applies to it, whether the rules are optimized or not. *)

From stdpp Require Import base numbers decidable strings pretty gmap list.
From S2P Require Import Instr Machine MachineFacts OptBase Builder BuilderFacts.
From S2P Require Import SeccompAbi SeccompRules Labels Fragments RuleFacts RuleOpt RuleOptBase RuleOptFacts.
From S2P Require Import SeccompAction SeccompProgram SingleFacts LinearFacts SearchTree TreeFacts RenderFacts.
From S2P Require Import Prelude.

Local Open Scope Z_scope.

(** ** What rule sets mean *)

(** Whether a [RuleSet] says what to do with the system call [nr]. *)
Definition applies (nr : Z) (d : SeccompData) (rs : RuleSet) : bool :=
  match Rules rs !! nr with
  | Some rule => (negb (Vsyscall rs) || from_vsyscall d) && rule_matches rule d
  | None => false
  end.

(** The action of the first [RuleSet] that does. *)
Definition first_action (rules : list RuleSet) (nr : Z) (d : SeccompData) : option Action :=
  RuleAction <$> head (filter (λ rs, applies nr d rs = true) rules).

(** Two rule sets agree on the vsyscall page. *)
Definition agree (rs rs' : RuleSet) : Prop :=
  ∀ sysno, is_Some (Rules rs !! sysno) → is_Some (Rules rs' !! sysno) → Vsyscall rs = Vsyscall rs'.

Definition agreeing (rules : list RuleSet) : Prop := ∀ rs rs', rs ∈ rules → rs' ∈ rules → agree rs rs'.

(** Go visits each entry of a map once. *)
Definition visits (order : rules_order) : Prop := ∀ m, order m ≡ₚ map_to_list m.

Definition ruleset_ok (rs : RuleSet) : Prop :=
  ∀ sysno rule, Rules rs !! sysno = Some rule → in_u32 sysno ∧ written_rule rule.

Section Order.
Context (order : rules_order) (Hvisits : visits order).

Lemma visits_key rs sysno : sysno ∈ (order (Rules rs)).*1 ↔ is_Some (Rules rs !! sysno).
Proof. rewrite (Hvisits (Rules rs)). apply elem_of_keys. Qed.

(** ** The vsyscall page *)

Lemma vsyscall_entries_result v sysnos m :
  (∃ m', vsyscall_entries v sysnos m = Ok m' ∧
     (∀ s, s ∈ sysnos → m' !! s = Some v) ∧ (∀ s, s ∉ sysnos → m' !! s = m !! s) ∧ m ⊆ m') ∨
  (∃ s, vsyscall_entries v sysnos m = Err (ConflictingVsyscall s) ∧ s ∈ sysnos ∧ m !! s = Some (negb v)).
Proof.
  revert m. induction sysnos as [|s sysnos IH]; intros m.
  { left. exists m. split; [done|]. split; [by intros s ?%elem_of_nil|done]. }
  simpl. destruct (m !! s) as [v'|] eqn:E.
  - destruct (negb (Bool.eqb v' v)) eqn:Ev.
    { right. exists s. split; [done|]. split; [by left|]. by destruct v, v'. }
    assert (v' = v) as -> by (by destruct v, v'). destruct (IH m) as [(m' & Em & H1 & H2 & H3)|(s' & Es & H1 & H2)].
    + left. exists m'. split; [done|]. split; [|split; [|done]].
      * intros s' [->|Hs]%elem_of_cons; [by apply (lookup_weaken _ _ _ _ E)|by apply H1].
      * intros s' Hs. apply H2. by intros ?; apply Hs; right.
    + right. exists s'. split; [done|]. split; [by right|done].
  - destruct (IH (<[s := v]> m)) as [(m' & Em & H1 & H2 & H3)|(s' & Es & H1 & H2)].
    + left. exists m'. split; [done|]. split; [|split].
      * intros s' [->|Hs]%elem_of_cons; [|by apply H1].
        apply (lookup_weaken _ _ _ _ (lookup_insert_eq m s v) H3).
      * intros s' Hs. rewrite H2 by (by intros ?; apply Hs; right). apply lookup_insert_ne. intros ->. apply Hs. by left.
      * etrans; [by apply insert_subseteq|done].
    + right. exists s'. split; [done|]. split; [by right|].
      destruct (decide (s = s')) as [->|Hne]; [|by rewrite lookup_insert_ne in H2].
      rewrite lookup_insert_eq in H2. by destruct v.
Qed.

(** The page of every system call of the rule sets [rules] is known. *)
Definition knows_page (rules : list RuleSet) (m : gmap Z bool) : Prop :=
  (∀ rs s, rs ∈ rules → is_Some (Rules rs !! s) → m !! s = Some (Vsyscall rs)) ∧
  (∀ s v, m !! s = Some v → ∃ rs, rs ∈ rules ∧ is_Some (Rules rs !! s) ∧ Vsyscall rs = v).

Definition disagree_on (rules : list RuleSet) (sysno : Z) : Prop :=
  ∃ rs rs', rs ∈ rules ∧ rs' ∈ rules ∧ is_Some (Rules rs !! sysno) ∧ is_Some (Rules rs' !! sysno) ∧
    Vsyscall rs ≠ Vsyscall rs'.

Lemma vsyscall_pass_result done_ rules m :
  knows_page done_ m →
  (∃ m', vsyscall_pass order rules m = Ok m' ∧ knows_page (done_ ++ rules) m') ∨
  (∃ s, vsyscall_pass order rules m = Err (ConflictingVsyscall s) ∧ disagree_on (done_ ++ rules) s).
Proof.
  revert done_ m. induction rules as [|rs rules IH]; intros done_ m Hm.
  { left. exists m. by rewrite app_nil_r. }
  cbn [vsyscall_pass]. destruct (vsyscall_entries_result (Vsyscall rs) (order (Rules rs)).*1 m)
    as [(m1 & -> & H1 & H2 & H3)|(s & -> & Hs%visits_key & Hv)].
  - cbn [mbind result_bind]. destruct (IH (done_ ++ [rs]) m1) as [(m2 & E & H)|(s & E & H)].
    + destruct Hm as [Ha Hb]. split.
      * intros rs' s [Hin| ->%list_elem_of_singleton]%elem_of_app Hs; [|by apply H1, visits_key].
        eapply lookup_weaken; [by apply Ha|done].
      * intros s v Hs. destruct (decide (is_Some (Rules rs !! s))) as [Hr|Hr].
        -- rewrite H1 in Hs by (by apply visits_key). injection Hs as <-. exists rs. split; [|done].
           apply elem_of_app. right. by left.
        -- rewrite H2 in Hs by (by rewrite visits_key). destruct (Hb s v Hs) as (rs' & ? & ?). exists rs'.
           split; [apply elem_of_app; by left|done].
    + left. exists m2. rewrite <- app_assoc in H. done.
    + right. exists s. rewrite <- app_assoc in H. done.
  - right. exists s. split; [done|]. destruct (proj2 Hm s _ Hv) as (rs' & Hin & Hs' & Hne).
    exists rs, rs'. split; [apply elem_of_app; right; by left|]. split; [apply elem_of_app; by left|].
    split; [done|]. split; [done|]. rewrite Hne. by destruct (Vsyscall rs).
Qed.

Lemma vsyscall_pass_ok rules : agreeing rules → ∃ m, vsyscall_pass order rules ∅ = Ok m ∧ knows_page rules m.
Proof.
  intros Ha. destruct (vsyscall_pass_result [] rules ∅) as [H|(s & _ & rs & rs' & H1 & H2 & H3 & H4 & H5)].
  - split; [by intros rs s ?%elem_of_nil|done].
  - exact H.
  - destruct H5. by apply (Ha rs rs' H1 H2 s).
Qed.

(** ** Rules and actions *)

(** The actions that rules may have. *)
Context (allowed : Z → Prop).

Definition ra_legit (ra : syscallRuleAction) : Prop := rule_legit (ra_rule ra) ∧ allowed (ra_action ra).

Definition ras_legit (ras : list syscallRuleAction) : Prop := ras ≠ [] ∧ Forall ra_legit ras.

Lemma decide_rules_app ras ras' d :
  decide_rules (ras ++ ras') d =
  match decide_rules ras d with Some v => Some v | None => decide_rules ras' d end.
Proof.
  induction ras as [|ra ras IH]; [done|]. cbn [app]. rewrite !decide_rules_cons. by destruct (rule_matches _ _).
Qed.

Lemma add_action_decides ras rule v d :
  decide_rules (add_action ras rule v) d =
  match decide_rules ras d with Some v => Some v | None => if rule_matches rule d then Some v else None end.
Proof.
  destruct ras as [|l ras _] using rev_ind; [exact (decide_rules_cons (mkRuleAction rule v) [] d)|].
  unfold add_action. rewrite last_snoc. destruct (Z.eqb_spec (ra_action l) v) as [<-|Hne].
  - rewrite length_app, Nat.add_sub, insert_app_r_alt, Nat.sub_diag by lia. simpl.
    rewrite !decide_rules_app. destruct (decide_rules ras d); [done|].
    rewrite !decide_rules_cons. simpl. rewrite orb_false_r. by destruct (rule_matches (ra_rule l) d).
  - rewrite decide_rules_app. destruct (decide_rules _ d); [done|]. by rewrite decide_rules_cons.
Qed.

Lemma add_action_legit ras rule v :
  Forall ra_legit ras → rule_legit rule → allowed v → ras_legit (add_action ras rule v).
Proof.
  intros Hras Hrule Hv. destruct ras as [|l ras _] using rev_ind.
  { split; [done|]. by apply Forall_singleton. }
  apply Forall_app in Hras as [Hras [Hl Hlv]%Forall_singleton].
  unfold add_action. rewrite last_snoc. destruct (_ =? _).
  - rewrite length_app, Nat.add_sub, insert_app_r_alt, Nat.sub_diag by lia. split; [by destruct ras|].
    apply Forall_app. split; [done|]. apply Forall_singleton. split; [|done]. simpl.
    apply Or_with; [done|]. by rewrite !Forall_cons, Forall_nil.
  - split; [by destruct ras|]. apply Forall_app. split; [by apply Forall_app; split; [|apply Forall_singleton]|].
    by apply Forall_singleton.
Qed.

Lemma add_entries_lookup v entries m s :
  NoDup entries.*1 →
  foldl (add_entry v) m entries !! s =
  match list_find (λ en, en.1 = s) entries with
  | Some (_, en) => Some (add_action (default [] (m !! s)) en.2 v)
  | None => m !! s
  end.
Proof.
  revert m. induction entries as [|[s' rule] entries IH]; intros m Hnd; [done|].
  apply NoDup_cons in Hnd as [Hni Hnd]. cbn [foldl list_find]. rewrite IH by done.
  destruct (decide (s' = s)) as [->|Hne]; simpl.
  - rewrite decide_True by done. destruct (list_find _ entries) as [[i en]|] eqn:E.
    + apply list_find_Some in E as (E & <- & _). destruct Hni. apply list_elem_of_fmap. exists en.
      split; [done|]. by eapply list_elem_of_lookup_2.
    + unfold add_entry. simpl. by rewrite lookup_insert_eq.
  - rewrite decide_False by done. destruct (list_find _ entries) as [[i en]|]; simpl;
      unfold add_entry; simpl; by rewrite lookup_insert_ne.
Qed.

Lemma add_ruleset_lookup v rs m s :
  foldl (add_entry v) m (order (Rules rs)) !! s =
  match Rules rs !! s with
  | Some rule => Some (add_action (default [] (m !! s)) rule v)
  | None => m !! s
  end.
Proof.
  rewrite add_entries_lookup by (rewrite (Hvisits (Rules rs)); apply NoDup_fst_map_to_list).
  destruct (list_find _ _) as [[i [s' rule]]|] eqn:E.
  - apply list_find_Some in E as (E & Heq & _). simpl in Heq. subst s'. apply list_elem_of_lookup_2 in E.
    rewrite (Hvisits (Rules rs)) in E.
    apply elem_of_map_to_list in E. change (Rules rs !! s = Some rule) in E. by rewrite E.
  - destruct (Rules rs !! s) as [rule|] eqn:Er; [|done].
    apply list_find_None in E. rewrite Forall_forall in E. destruct (E (s, rule)); [|done].
    rewrite (Hvisits (Rules rs)). by apply elem_of_map_to_list.
Qed.

Context (dflt : result ActionError Z).

Definition action_value (a : Action) : option Z := match bpf a dflt with Ok v => Some v | _ => None end.

Definition action_ok (a : Action) : Prop := ∃ v, bpf a dflt = Ok v ∧ allowed v.

(** Whether the rule for [nr] in a [RuleSet] matches, wherever the system call came from. *)
Definition matching (nr : Z) (d : SeccompData) (rs : RuleSet) : bool :=
  match Rules rs !! nr with Some rule => rule_matches rule d | None => false end.

Definition first_matching (rules : list RuleSet) (nr : Z) (d : SeccompData) : option Z :=
  rs ← head (filter (λ rs, matching nr d rs = true) rules); action_value (RuleAction rs).

(** The map [m] has the rules of the rule sets [rules]. *)
Record has_rules (rules : list RuleSet) (m : gmap Z (list syscallRuleAction)) : Prop := mkHasRules {
  hr_dom s : is_Some (m !! s) ↔ ∃ rs, rs ∈ rules ∧ is_Some (Rules rs !! s);
  hr_legit s ras : m !! s = Some ras → ras_legit ras;
  hr_decides s d : data_ok d → decide_rules (default [] (m !! s)) d = first_matching rules s d
}.

Lemma first_matching_snoc rules rs nr d :
  Forall (action_ok ∘ RuleAction) rules →
  first_matching (rules ++ [rs]) nr d =
  match first_matching rules nr d with
  | Some v => Some v
  | None => if matching nr d rs then action_value (RuleAction rs) else None
  end.
Proof.
  unfold first_matching. rewrite filter_app. induction 1 as [|rs' rules (v & E & _) _ IH].
  - simpl. rewrite filter_cons. destruct (matching nr d rs) eqn:Em.
    + by rewrite decide_True.
    + by rewrite decide_False.
  - rewrite filter_cons. destruct (decide _) as [Ed|Ed]; [|done]. simpl.
    unfold action_value. simpl in E. by rewrite E.
Qed.

Lemma has_rules_step rules rs m v :
  Forall (action_ok ∘ RuleAction) rules → ruleset_ok rs → bpf (RuleAction rs) dflt = Ok v → allowed v →
  has_rules rules m → has_rules (rules ++ [rs]) (foldl (add_entry v) m (order (Rules rs))).
Proof.
  intros Hact Hrs Ev Hv [H1 H2 H3].
  assert (Hl : ∀ s, Forall ra_legit (default [] (m !! s))).
  { intros s. destruct (m !! s) as [ras|] eqn:E; [by apply (H2 s)|by apply Forall_nil]. }
  split.
  - intros s. rewrite add_ruleset_lookup. setoid_rewrite elem_of_app. setoid_rewrite list_elem_of_singleton.
    destruct (Rules rs !! s) as [rule|] eqn:E.
    + split; [|by eexists]. intros _. exists rs. split; [by right|by rewrite E].
    + rewrite H1. split; [intros (rs' & ? & ?); eauto|]. intros (rs' & [Hin| ->] & Hs); [eauto|].
      rewrite E in Hs. by destruct Hs.
  - intros s ras. rewrite add_ruleset_lookup. destruct (Rules rs !! s) as [rule|] eqn:E; [|by apply H2].
    intros [= <-]. apply add_action_legit; [done| |done]. apply written_legit. by apply (Hrs s).
  - intros s d Hd. rewrite add_ruleset_lookup, first_matching_snoc by done.
    unfold matching, action_value. rewrite Ev. destruct (Rules rs !! s) as [rule|].
    + simpl. by rewrite add_action_decides, H3.
    + rewrite H3 by done. by destruct (first_matching _ _ _).
Qed.

Lemma rule_actions_correct done_ rules m :
  Forall (action_ok ∘ RuleAction) (done_ ++ rules) → Forall ruleset_ok rules → has_rules done_ m →
  ∃ m', rule_actions order dflt rules m = Ok m' ∧ has_rules (done_ ++ rules) m'.
Proof.
  revert done_ m. induction rules as [|rs rules IH]; intros done_ m Hact Hok Hm.
  { exists m. by rewrite app_nil_r. }
  pose proof Hact as [Hd Ha]%Forall_app. apply Forall_cons in Ha as [(v & Ev & Hv) Ha], Hok as [Hrs Hok].
  cbn [rule_actions]. simpl in Ev. rewrite Ev. cbn [action_result mbind result_bind].
  destruct (IH (done_ ++ [rs]) (foldl (add_entry v) m (order (Rules rs)))) as (m' & E & H).
  - by rewrite <- app_assoc.
  - done.
  - by apply has_rules_step.
  - exists m'. rewrite <- app_assoc in H. done.
Qed.

Lemma has_no_rules : has_rules [] ∅.
Proof.
  split; [|done|done]. intros s. rewrite lookup_empty. split; [by intros [? [=]]|].
  by intros (rs & ?%elem_of_nil & _).
Qed.

(** ** Optimization *)

Lemma optimize_actions_list ras :
  ras_legit ras →
  ∃ ras', mapM optimize_action ras = Some ras' ∧ ras_legit ras' ∧
    ∀ d, data_ok d → decide_rules ras' d = decide_rules ras d.
Proof.
  intros [Hne Hall].
  assert (H : ∃ ras', mapM optimize_action ras = Some ras' ∧ length ras' = length ras ∧ Forall ra_legit ras' ∧
    ∀ d, data_ok d → decide_rules ras' d = decide_rules ras d).
  { clear Hne. induction Hall as [|[rule v] ras [Hrule Hv] _ (ras' & E & Hlen & Hl & Hd)].
    { exists []. split_and!; [done|done|by apply Forall_nil|done]. }
    destruct (optimize_spec rule Hrule) as (rule' & Er & Hl' & Hs & _).
    exists (mkRuleAction rule' v :: ras'). 
    assert (Eo : optimize_action (mkRuleAction rule v) = Some (mkRuleAction rule' v)).
    { unfold optimize_action. cbn [ra_rule ra_action]. by rewrite Er. }
    cbn [mapM]. rewrite Eo. simpl. rewrite E. split_and!; [done|simpl; lia|by apply Forall_cons|].
    intros d Hok. rewrite !decide_rules_cons. simpl. rewrite Hs, Hd by done. done. }
  destruct H as (ras' & E & Hlen & Hl & Hd). exists ras'. split_and!; [done|split; [|done]|done].
  intros ->. by destruct ras.
Qed.

Lemma optimize_actions_correct rules m :
  has_rules rules m → ∃ m', optimize_actions m = Some m' ∧ has_rules rules m'.
Proof.
  intros [H1 H2 H3]. unfold optimize_actions. rewrite bool_decide_true.
  2: { intros s ras Hs. rewrite lookup_fmap in Hs. apply fmap_Some in Hs as (ras0 & Hs & ->).
       destruct (optimize_actions_list ras0 (H2 s ras0 Hs)) as (ras' & -> & _). by eexists. }
  eexists. split; [done|].
  assert (Hlook : ∀ s, omap id ((λ ras, mapM optimize_action ras) <$> m) !! s = m !! s ≫= mapM optimize_action).
  { intros s. rewrite lookup_omap, lookup_fmap. by destruct (m !! s). }
  split; intros s; rewrite Hlook.
  - rewrite <- H1. destruct (m !! s) as [ras|] eqn:E; [|done]. simpl.
    destruct (optimize_actions_list ras (H2 s ras E)) as (ras' & -> & _). split; by eexists.
  - intros ras Hs. destruct (m !! s) as [ras0|] eqn:E; [|done]. simpl in Hs.
    destruct (optimize_actions_list ras0 (H2 s ras0 E)) as (ras' & E' & Hl & _). by rewrite E' in Hs; injection Hs as <-.
  - intros d Hd. rewrite <- H3 by done. destruct (m !! s) as [ras|] eqn:E; [|done]. simpl.
    destruct (optimize_actions_list ras (H2 s ras E)) as (ras' & -> & _ & Hd'). simpl. by apply Hd'.
Qed.

End Order.

(** ** Hot system calls *)

Lemma hot_index_keys all vs i hot index :
  (∀ s, is_Some (index !! s) → ∃ ras, all !! s = Some ras ∧ isTrivial vs s ras = false) →
  ∀ s, is_Some (hot_index all vs i hot index !! s) → ∃ ras, all !! s = Some ras ∧ isTrivial vs s ras = false.
Proof.
  revert i index. induction hot as [|h hot IH]; intros i index Hidx; [done|]. simpl. apply IH.
  destruct (all !! h) as [ras|] eqn:E; [|done]. destruct (isTrivial vs h ras) eqn:Et; [done|].
  destruct (index !! h) eqn:Eh; [done|]. intros s. destruct (decide (h = s)) as [<-|Hne]; [eauto|].
  rewrite lookup_insert_ne by done. apply Hidx.
Qed.

Lemma hot_order_keys index : NoDup (hot_order index) ∧ ∀ s, s ∈ hot_order index ↔ is_Some (index !! s).
Proof.
  unfold hot_order. split; [|intros s]; rewrite sort_slice_perm; [apply NoDup_fst_map_to_list|apply elem_of_keys].
Qed.

(** ** Splitting *)

Section Split.
Context (all : gmap Z (list syscallRuleAction)) (vs : gmap Z bool) (index : gmap Z nat).
Context (Hok : ∀ s ras, all !! s = Some ras → in_u32 s ∧ Forall ra_ok ras).
Context (Hidx : ∀ s, is_Some (index !! s) → ∃ ras, all !! s = Some ras ∧ isTrivial vs s ras = false).

Let single : gmap Z singleSyscallRuleSet := map_imap (λ sysno ruleActions,
  Some (mkSingle sysno ruleActions (default false (vs !! sysno)))) all.

Lemma single_lookup s ssrs :
  single !! s = Some ssrs ↔ ∃ ras, all !! s = Some ras ∧ ssrs = mkSingle s ras (default false (vs !! s)).
Proof.
  unfold single. rewrite map_lookup_imap. destruct (all !! s) as [ras|]; simpl.
  - split; [intros [= <-]; eauto|]. by intros (? & [= <-] & ->).
  - split; [done|]. by intros (? & [=] & _).
Qed.

Lemma single_ok (P : Z * singleSyscallRuleSet → Prop) `{∀ e, Decision (P e)} : map_ok (filter P single).
Proof.
  intros s ssrs [Hs _]%map_lookup_filter_Some. apply single_lookup in Hs as (ras & E & ->).
  destruct (Hok s ras E). done.
Qed.

Lemma split_rules_ok : ors_ok (split_rules all vs index).
Proof.
  destruct (hot_order_keys index) as [Hnd Hkeys].
  split; unfold split_rules; cbn [hotNonTrivial coldNonTrivial trivial hotNonTrivialOrder];
    try apply single_ok; try done;
    try (apply map_disjoint_spec; intros s x y [Hx Px]%map_lookup_filter_Some [Hy Py]%map_lookup_filter_Some;
      fold single in Hx, Hy; rewrite Hx in Hy; injection Hy as <-; simpl in Px, Py;
      repeat match goal with
             | H : context [isTrivial ?a ?b ?c] |- _ => destruct (isTrivial a b c); try done
             | H : context [bool_decide ?P] |- _ => destruct (bool_decide P); try done
             end).
  intros s. rewrite Hkeys. split.
  - intros Hs. destruct (Hidx s Hs) as (ras & E & Et). eexists. apply map_lookup_filter_Some. split.
    + apply single_lookup. by exists ras.
    + simpl. rewrite Et. by rewrite bool_decide_true.
  - intros [ssrs [Hs P]%map_lookup_filter_Some]. apply single_lookup in Hs as (ras & E & ->). simpl in P.
    apply andb_prop in P as [_ P%bool_decide_eq_true]. done.
Qed.

Lemma split_rules_lookup s : rules_of (split_rules all vs index) !! s = single !! s.
Proof.
  unfold rules_of, split_rules. cbn [hotNonTrivial coldNonTrivial trivial]. fold single.
  rewrite !lookup_union, !map_lookup_filter. destruct (single !! s) as [ssrs|]; [|done]. simpl.
  destruct (isTrivial _ _ _), (bool_decide _); done.
Qed.

End Split.

(** ** The whole of [orderRuleSets] *)

(** If all rule sets with the system call agree, they apply when they match and the page does. *)
Lemma first_action_matching dflt rules vs nr d :
  knows_page rules vs →
  (first_action rules nr d ≫= action_value dflt) =
  if default false (vs !! nr) && negb (from_vsyscall d) then None else first_matching dflt rules nr d.
Proof.
  intros [Hk _]. unfold first_action, first_matching.
  destruct (default false (vs !! nr) && negb (from_vsyscall d)) eqn:E.
  - apply andb_prop in E as [Ev Ef%negb_true_iff].
    assert (Hf : filter (λ rs, applies nr d rs = true) rules = []); [|by rewrite Hf].
    induction rules as [|rs rules IH]; [done|]. rewrite filter_cons.
    rewrite decide_False; [apply IH; intros rs' s Hin; apply Hk; by right|].
    unfold applies. destruct (Rules rs !! nr) as [rule|] eqn:Er; [|done].
    rewrite (Hk rs nr (list_elem_of_here _ _) (mk_is_Some _ _ Er)) in Ev. simpl in Ev. by rewrite Ev, Ef.
  - assert (Hf : ∀ rs, rs ∈ rules → applies nr d rs = matching nr d rs).
    { intros rs Hin. unfold applies, matching. destruct (Rules rs !! nr) as [rule|] eqn:Er; [|done].
      rewrite (Hk rs nr Hin (mk_is_Some _ _ Er)) in E. cbn [from_option id] in E. by destruct (Vsyscall rs), (from_vsyscall d). }
    assert (filter (λ rs, applies nr d rs = true) rules = filter (λ rs, matching nr d rs = true) rules) as ->.
    { clear Hk E. induction rules as [|rs rules IH]; [done|]. rewrite !filter_cons.
      rewrite (Hf rs (list_elem_of_here _ _)), IH; [done|]. intros rs' Hin. apply Hf. by right. }
    by destruct (head _).
Qed.

Lemma possible_actions_ok dflt rules :
  Forall (action_ok in_u32 dflt ∘ RuleAction) rules →
  ∃ A, possible_actions dflt rules = Ok A ∧
    Forall (action_ok (λ v, in_u32 v ∧ v ∈ A) dflt ∘ RuleAction) rules.
Proof.
  induction 1 as [|rs rules (v & Ev & Hv) _ (A & EA & HA)]; [exists ∅; by split|].
  simpl in Ev. simpl. rewrite Ev, EA. simpl. eexists. split; [done|]. apply Forall_cons. split.
  - exists v. split; [done|]. split; [done|]. set_solver.
  - eapply Forall_impl; [exact HA|]. intros rs' (v' & E' & Hv' & Hin). exists v'. split; [done|]. set_solver.
Qed.

Lemma decide_split all vs index nr d :
  decide_map (rules_of (split_rules all vs index)) nr d =
  if default false (vs !! nr) && negb (from_vsyscall d) then None else decide_rules (default [] (all !! nr)) d.
Proof.
  unfold decide_map. rewrite split_rules_lookup, map_lookup_imap. destruct (all !! nr) as [ras|]; cbn [mbind option_bind from_option id].
  - done.
  - by destruct (_ && _).
Qed.

Lemma render_actions_allowed all vs index (A : gset Z) :
  (∀ s ras, all !! s = Some ras → Forall (λ ra, ra_action ra ∈ A) ras) →
  render_actions (split_rules all vs index) ⊆ A.
Proof.
  intros HA.
  assert (H : ∀ (P : Z * singleSyscallRuleSet → Prop) `{∀ e, Decision (P e)},
    all_actions (filter P (map_imap (λ sysno ruleActions,
      Some (mkSingle sysno ruleActions (default false (vs !! sysno)))) all)) ⊆ A).
  { intros P HP v (X & ([s ssrs] & -> & Hs%elem_of_map_to_list)%list_elem_of_fmap & Hv)%elem_of_union_list.
    apply map_lookup_filter_Some in Hs as [(ras & E & ->)%single_lookup _].
    unfold actions in Hv. rewrite elem_of_list_to_set in Hv. apply list_elem_of_fmap in Hv as (ra & -> & Hra).
    specialize (HA s ras E). rewrite Forall_forall in HA. by apply HA. }
  unfold render_actions, split_rules. cbn [hotNonTrivial coldNonTrivial trivial].
  rewrite !union_subseteq. split; [split|]; apply H.
Qed.

(** [orderRuleSets] succeeds and keeps the meaning of the rule sets. *)
Lemma orderRuleSets_correct order kill rules options A :
  let dflt := bpf (DefaultAction options) (saneDefaultAction kill) in
  visits order → agreeing rules → Forall ruleset_ok rules →
  Forall (action_ok (λ v, in_u32 v ∧ v ∈ A) dflt ∘ RuleAction) rules →
  ∃ ors, orderRuleSets order kill rules options = Ok ors ∧ ors_ok ors ∧ render_actions ors ⊆ A ∧
    ∀ nr d, data_ok d →
      decide_map (rules_of ors) nr d = (first_action rules nr d ≫= action_value dflt).
Proof.
  intros dflt Hv Ha Hrs Hact. unfold orderRuleSets. fold dflt.
  destruct (vsyscall_pass_ok order Hv rules Ha) as (vs & -> & Hvs). cbn [mbind result_bind].
  destruct (rule_actions_correct order Hv _ dflt [] rules ∅ Hact Hrs (has_no_rules _ _)) as (all & -> & Hall).
  cbn [mbind result_bind app] in *.
  assert (Hopt : ∃ all', (if SkipOptimizations options then Ok all : result BuildError _ else or_panic (optimize_actions all)) = Ok all' ∧
    has_rules (λ v, in_u32 v ∧ v ∈ A) dflt rules all').
  { destruct (SkipOptimizations options); [by exists all|].
    destruct (optimize_actions_correct _ _ _ _ Hall) as (all' & -> & H). by exists all'. }
  destruct Hopt as (all' & -> & [H1 H2 H3]). cbn [mbind result_bind]. clear Hall all.
  eexists. split; [done|]. split; [|split].
  - apply split_rules_ok.
    + intros s ras E. split.
      * destruct (proj1 (H1 s)) as (rs & Hin & rule & Er); [by eexists|]. rewrite Forall_forall in Hrs.
        by apply (Hrs rs Hin s rule).
      * destruct (H2 s ras E) as [_ Hl]. eapply Forall_impl; [exact Hl|]. intros ra [Hl' [Hu _]].
        split; [by apply rule_legit_ok|done].
    + apply hot_index_keys. intros s. rewrite lookup_empty. by intros [? [=]].
  - apply render_actions_allowed. intros s ras E. destruct (H2 s ras E) as [_ Hl].
    eapply Forall_impl; [exact Hl|]. by intros ra [_ [_ Hin]].
  - intros nr d Hd. rewrite decide_split, H3 by done. symmetry. by apply first_action_matching.
Qed.
