(* ===== verification/Closed.v ===== *)
(** * Rendered programs

    Code rendered into a new builder that leaves no label open is a program: unless it has more
    than 2^32 instructions, its labels can be resolved, the resolved program is well formed, and
    running it does what the specification of the code says. *)

From stdpp Require Import base numbers decidable strings gmap list.
From S2P Require Import Prelude Instr Machine MachineFacts OptBase Builder BuilderFacts.
From S2P Require Import SeccompAbi SeccompRules Labels Fragments.

Local Open Scope bits_scope.

Lemma new_forward : forward NewProgramBuilder.
Proof. split; [done|done|]. intros l [lab Hl]. done. Qed.

(** The resolved form of an instruction of rendered code. *)
Lemma resolve_ins_ok b pc i :
  builder_ok b → resolvable b → instructions b !! pc = Some i → forward b →
  (Z.of_nat (length (instructions b)) <= 2 ^ 32)%Z → ins_ok i → ins_ok (resolve_ins b pc i).
Proof.
  intros Hok Hr Hi Hfw Hlen [Hrange Hk Hm Hd].
  assert (Hfield : ∀ t, t ≠ JumpDirect → jump_field t (resolve_ins b pc i) = jump_field t i).
  { intros t Ht. pose proof (resolved_field b pc i t Hok Hr Hi) as Hf.
    destruct (jumpSourceToLabel b !! mkSource pc t) as [l|] eqn:E; [|done].
    by apply (fw_jump _ Hfw) in E. }
  pose proof (resolved_field b pc i JumpDirect Hok Hr Hi) as Hf.
  destruct (jumpSourceToLabel b !! mkSource pc JumpDirect) as [l|] eqn:E.
  - destruct (bo_labelled _ Hok _ _ i E Hi) as [_ Hop]. specialize (Hop eq_refl).
    destruct Hf as (d & Hd' & Hlt & Hs). pose proof (bo_target _ Hok _ _ Hd') as Hle.
    assert (HK : KVal (resolve_ins b pc i) = distance pc d).
    { change (KVal ?j) with (jump_field JumpDirect j). rewrite resolve_ins_field. unfold source_target.
      rewrite E. simpl. by rewrite Hd'. }
    split.
    + destruct Hrange as (R1 & R2 & R3 & R4). split_and!; [done|..].
      * pose proof (Hfield JumpTrue) as Hjt. simpl in Hjt |- *. by rewrite Hjt.
      * pose proof (Hfield JumpFalse) as Hjf. simpl in Hjf |- *. by rewrite Hjf.
      * rewrite HK. unfold distance, in_u32. lia.
    + done.
    + intros Hin. exfalso. change (OpCode (resolve_ins b pc i)) with (OpCode i) in Hin. rewrite Hop in Hin.
      by vm_compute in Hin; set_solver.
    + intros Hin. exfalso. change (OpCode (resolve_ins b pc i)) with (OpCode i) in Hin. rewrite Hop in Hin.
      by vm_compute in Hin; set_solver.
  - assert (resolve_ins b pc i = i) as ->; [|done].
    apply instruction_ext; [done|]. intros t. destruct t; [exact Hf|by apply Hfield..].
Qed.

Section Closed.
Context (e : Endianness) (inp : Input) (reg : string → Prop) (R : gset Z) (sem : Z → exit → Prop).
Context (b : ProgramBuilder) (Hfr : fragment e inp false reg [] R sem NewProgramBuilder b).
Context (Hlen : (Z.of_nat (length (instructions b)) <= 2 ^ 32)%Z).

Lemma closed_forward : forward b.
Proof. apply (fr_forward _ _ _ _ _ _ _ _ _ Hfr), new_forward. Qed.

Lemma closed_resolvable : resolvable b.
Proof.
  intros l lab Hl. pose proof (fr_ok _ _ _ _ _ _ _ _ _ Hfr) as Hok. pose proof closed_forward as Hfw.
  destruct (fr_closed _ _ _ _ _ _ _ _ _ Hfr l) as (t & Ht & Hlt); [apply not_elem_of_nil|done|by rewrite Hl|].
  simpl in Hlt. split; [apply (fw_usable _ Hfw); by rewrite Hl|].
  assert (Htl : target lab = Some t) by (unfold tgt in Ht; by rewrite Hl in Ht).
  exists t. split; [done|]. split; [done|]. intros s Hs. pose proof (bo_sources _ Hok _ _ _ Hl Hs) as Hj.
  pose proof (fw_above _ Hfw _ _ _ Hj Ht) as Hab. split; [done|].
  rewrite (fw_jump _ Hfw _ _ Hj). unfold distance. simpl. unfold labelDirectTarget. lia.
Qed.

Lemma resolved_lookup pc i' :
  resolved b !! pc = Some i' → ∃ i, instructions b !! pc = Some i ∧ i' = resolve_ins b pc i ∧ render_ins i.
Proof.
  unfold resolved. rewrite list_lookup_imap. destruct (instructions b !! pc) as [i|] eqn:E; [|done].
  intros [= <-]. exists i. split_and!; [done|done|]. eapply (fr_ins _ _ _ _ _ _ _ _ _ Hfr); [|done]. simpl. lia.
Qed.

Lemma closed_wf : wf_prog (resolved b).
Proof.
  pose proof (fr_ok _ _ _ _ _ _ _ _ _ Hfr) as Hok. pose proof closed_resolvable as Hr.
  assert (Hl : length (resolved b) = length (instructions b)) by apply length_imap.
  assert (Hins : ∀ pc i, resolved b !! pc = Some i → ins_ok i).
  { intros pc i' (i & Hi & -> & Hri & _)%resolved_lookup. by apply resolve_ins_ok; try apply closed_forward. }
  split; [|done|].
  - intros E. pose proof (fr_grow _ _ _ _ _ _ _ _ _ Hfr) as Hg. rewrite <- Hl, E in Hg. simpl in Hg. lia.
  - intros pc i' s Hi' Hs. pose proof (Hins _ _ Hi') as Hiok. destruct (resolved_lookup _ _ Hi') as (i & Hi & -> & _).
    assert (Hpc : 0 ≤ pc < length (instructions b)) by (split; [lia|by eapply lookup_lt_Some]).
    pose proof (fr_flows _ _ _ _ _ _ _ _ _ Hfr pc i Hpc Hi) as Hflow. unfold ins_flows in Hflow. rewrite Hl.
    change (IsReturn i) with (IsReturn (resolve_ins b pc i)) in Hflow.
    change (IsJump i) with (IsJump (resolve_ins b pc i)) in Hflow.
    destruct (IsReturn (resolve_ins b pc i)) eqn:Eret.
    { unfold succs in Hs. rewrite Eret in Hs. by apply elem_of_nil in Hs. }
    destruct (IsJump (resolve_ins b pc i)) eqn:Ej.
    + destruct (jump_succs _ _ _ Ej Hs) as (t & -> & Hin).
      assert (Hin' : mkJumpOffset t (jump_field t i) ∈ JumpOffsets i) by (by eapply (JumpOffsets_resolve b pc)).
      specialize (Hflow _ Hin'). unfold target_in in Hflow. simpl in Hflow.
      pose proof (resolved_field b pc i t Hok Hr Hi) as Hf.
      destruct (jumpSourceToLabel b !! mkSource pc t) as [l|].
      * destruct Hf as (d & Hd & _ & ->). rewrite Hd in Hflow. done.
      * by rewrite Hf.
    + unfold succs in Hs. rewrite Eret, Ej in Hs. apply list_elem_of_singleton in Hs as ->. done.
Qed.

Lemma closed_stable : stable_loads (resolved b).
Proof.
  apply Forall_lookup. intros pc i' (i & _ & -> & _ & Hst)%resolved_lookup. exact Hst.
Qed.

(** A run of the program leaves it by returning a value. *)
Lemma closed_Exec v : (∀ a x, sem a x → x = XReturn v) → erase (Exec e (resolved b) inp) = OValue v.
Proof.
  intros Hsem. rewrite Exec_eval. pose proof (fr_ok _ _ _ _ _ _ _ _ _ Hfr) as Hok.
  destruct (fr_sem _ _ _ _ _ _ _ _ _ Hfr b machine0) as (x & Hx & Hex); [done|done|apply closed_resolvable|].
  apply Hsem in Hx as ->. exact Hex.
Qed.

End Closed.
