(* ===== verification/DataLayout.v ===== *)
(** * The layout of seccomp data in a BPF input

    The rules are matched against the bytes of a [SeccompData] (src/pkg/abi/linux/seccomp.go).
    The class states where a program finds the fields: those written by the generated marshaller
    are in the order of the struct, each in the byte order of the machine.  The little-endian
    layout has this property. *)

From stdpp Require Import base numbers decidable strings gmap list.
From S2P Require Import Prelude Instr Machine SeccompAbi SeccompRules RuleFacts.

Local Open Scope Z_scope.

Class SeccompLayout `{SeccompMarshal} : Prop := {
  layout_nr d : load32 NativeEndian (marshal d) 0 = Some (wrap32 (Nr d));
  layout_arch d : load32 NativeEndian (marshal d) 4 = Some (wrap32 (Arch d));
  layout_ip_low d : load32 NativeEndian (marshal d) 8 = Some (low32Bits (InstructionPointer d));
  layout_ip_high d : load32 NativeEndian (marshal d) 12 = Some (high32Bits (InstructionPointer d));
  layout_arg_low d k : (k < 6)%nat →
    load32 NativeEndian (marshal d) (16 + 8 * Z.of_nat k) = Some (low32Bits (default 0 (Args d !! k)));
  layout_arg_high d k : (k < 6)%nat →
    load32 NativeEndian (marshal d) (20 + 8 * Z.of_nat k) = Some (high32Bits (default 0 (Args d !! k)))
}.

(** ** The little-endian layout *)

Lemma bytes_word v :
  wrap8 v + 2 ^ 8 * wrap8 (Z.shiftr v 8) + 2 ^ 16 * wrap8 (Z.shiftr (Z.shiftr v 8) 8) +
  2 ^ 24 * wrap8 (Z.shiftr (Z.shiftr (Z.shiftr v 8) 8) 8) = wrap32 v.
Proof.
  unfold wrap8, wrap32. rewrite !Z.shiftr_div_pow2 by lia.
  change (2 ^ 8) with 256. change (2 ^ 16) with 65536. change (2 ^ 24) with 16777216. change (2 ^ 32) with 4294967296.
  Z.to_euclidean_division_equations. lia.
Qed.

Lemma high_word v : high32Bits v = wrap32 (Z.shiftr (Z.shiftr (Z.shiftr (Z.shiftr v 8) 8) 8) 8).
Proof. unfold high32Bits. by rewrite !Z.shiftr_shiftr. Qed.

#[export] Instance le_layout : @SeccompLayout le_marshal.
Proof.
  assert (Harg : ∀ d k, (k < 6)%nat →
    load32 NativeEndian (marshal_le d) (16 + 8 * Z.of_nat k) = Some (low32Bits (default 0 (Args d !! k))) ∧
    load32 NativeEndian (marshal_le d) (20 + 8 * Z.of_nat k) = Some (high32Bits (default 0 (Args d !! k)))).
  { intros d k Hk. do 6 (destruct k as [|k]; [split; [|rewrite high_word];
      unfold low32Bits; rewrite <- bytes_word; reflexivity|]). lia. }
  split; intros d *; try (intros Hk; by apply Harg); rewrite ?high_word; unfold low32Bits;
    rewrite <- bytes_word; reflexivity.
Qed.

(** ** Rules and their data *)

Lemma layout_holds_args `{SeccompLayout} d : data_ok d → holds_args NativeEndian (marshal d) d.
Proof.
  intros (Hip & Hlen & Hargs) i Hi. unfold data_value, arg_value. destruct (Nat.eqb_spec i RuleIP) as [->|Hne].
  - split; simpl; [apply layout_ip_high|apply layout_ip_low|done|done|done].
  - assert (Hk : (i < 6)%nat) by (unfold RuleIP in *; lia).
    assert (Hl : seccompDataOffsetArgLow i = 16 + 8 * Z.of_nat i).
    { unfold seccompDataOffsetArgLow, seccompDataOffsetArgs. rewrite wrap32_small; unfold in_u32; lia. }
    assert (Hh : seccompDataOffsetArgHigh i = 20 + 8 * Z.of_nat i).
    { unfold seccompDataOffsetArgHigh. rewrite Hl, wrap32_small; unfold in_u32; lia. }
    split; simpl; rewrite ?Hl, ?Hh; [by apply layout_arg_high|by apply layout_arg_low| | |];
      try (unfold in_u32; lia).
    destruct (lookup_lt_is_Some_2 (Args d) i) as [v E]; [lia|]. rewrite E. simpl.
    rewrite Forall_lookup in Hargs. by apply (Hargs i).
Qed.
