(* ===== verification/BuildFacts.v ===== *)
(** * Correctness of [Build]

    The program that [Build] makes returns the action that the rule sets say for the system
    call, and [Build] fails exactly when the rule sets or their actions are inconsistent. *)

From stdpp Require Import base numbers decidable strings pretty gmap list.
From S2P Require Import Instr Machine MachineFacts Optimizer OptBase OptRemove OptFacts Builder BuilderFacts.
From S2P Require Import SeccompAbi SeccompRules Labels Fragments RuleFacts RuleOpt RuleOptBase.
From S2P Require Import SeccompAction SeccompProgram SingleFacts LinearFacts SearchTree TreeFacts RenderFacts.
From S2P Require Import OrderFacts Closed DataLayout Prelude.

Local Open Scope Z_scope.
Local Open Scope bits_scope.
Local Open Scope prog_scope.

(** ** The code of a program *)

(** The code that [Build] adds, with the actions it found. *)
Definition program_code (arch : Z) (ors : orderedRuleSets) (possible : gset Z) (dflt bad : Z) : prog :=
  SP.Stmt (Op.Ld .| Op.Abs .| Op.W) seccompDataOffsetArch ;>
  SP.IfNot (Op.Jmp .| Op.Jeq .| Op.K) arch badArchLabel ;>
  recording (λ orsFrag, render ors ;> MustHaveJumpedToOrReturned orsFrag [defaultLabel] possible) ;>
  SP.Label defaultLabel ;>
  SP.Ret dflt ;>
  SP.Label badArchLabel ;>
  SP.Ret bad.

Lemma program_nest (f g h i j k l : prog) b :
  (((f ;> g ;> h) ;> i ;> j) ;> k ;> l) b = (f ;> g ;> h ;> i ;> j ;> k ;> l) b.
Proof.
  unfold prog_seq. destruct (f b) as [b1|]; [simpl|done]. destruct (g b1) as [b2|]; [simpl|done].
  destruct (h b2) as [b3|]; [simpl|done]. by destruct (i b3).
Qed.

(** Code that returns, that goes on at the placed label, and that goes elsewhere. *)
Lemma link_returns next sem1 sem2 v a x :
  (∀ y, sem1 a y → y = XReturn v) → sem_link next sem1 sem2 a x → x = XReturn v.
Proof. intros H1 [(a' & [Hx|Hx] & _)|(Hx & _)]; apply H1 in Hx; done. Qed.

Lemma link_goes next sem1 sem2 v a x :
  (∀ y, sem1 a y → goto next a y) → (∀ a' y, sem2 a' y → y = XReturn v) →
  sem_link next sem1 sem2 a x → x = XReturn v.
Proof.
  intros H1 H2 [(a' & _ & Hx)|(Hx & _ & Hn)]; [by eapply H2|].
  apply H1 in Hx as [a' ->]. by destruct (Hn a').
Qed.

Lemma link_keeps next l sem1 sem2 a x :
  l ≠ next → (∀ y, sem1 a y → goto l a y) → sem_link next sem1 sem2 a x → goto l a x.
Proof.
  intros Hne H1 [(a' & [Hx|Hx] & _)|(Hx & _)]; apply H1 in Hx; [by destruct Hx as [? [= ? _]]|by destruct Hx|done].
Qed.

(** What the code returns for a system call. *)
Definition verdict_of (arch : Z) (ors : orderedRuleSets) (dflt bad : Z) (d : SeccompData) : Z :=
  if wrap32 (Arch d) =? arch then default dflt (decide_map (rules_of ors) (wrap32 (Nr d)) d) else bad.

Section Code.
Context `{SeccompLayout} (d : SeccompData) (Hd : data_ok d).
Context (arch : Z) (ors : orderedRuleSets) (possible : gset Z) (dflt bad : Z).
Context (Harch : in_u32 arch) (Hors : ors_ok ors) (Hpos : render_actions ors ⊆ possible).
Context (Hdflt : in_u32 dflt) (Hbad : in_u32 bad).

Let all_returns : gset Z := {[ dflt; bad ]} ∪ possible.

(** The check of the architecture and the rules. *)
Lemma checked_rules_correct :
  renders NativeEndian (marshal d) false
    (SP.Stmt (Op.Ld .| Op.Abs .| Op.W) seccompDataOffsetArch ;>
     SP.IfNot (Op.Jmp .| Op.Jeq .| Op.K) arch badArchLabel ;>
     recording (λ orsFrag, render ors ;> MustHaveJumpedToOrReturned orsFrag [defaultLabel] possible))
    (render_labels ors) [defaultLabel; badArchLabel] all_returns
    (λ a x, if wrap32 (Arch d) =? arch then decided defaultLabel (decide_map (rules_of ors) (wrap32 (Nr d)) d) a x
            else goto badArchLabel a x).
Proof.
  eapply (renders_mono _ _ false); [eapply renders_seq; [|eapply renders_seq|]|..].
  - apply (load_correct _ _ _ (wrap32 (Arch d)) [defaultLabel; badArchLabel] all_returns); [apply layout_arch|done].
  - apply (ifnot_correct _ _ CEq); [done|right; left].
  - eapply renders_mono; [apply renders_check; [apply (render_correct _ _ d (wrap32 (Nr d)) ors)|..]|done|done|..].
    + by apply layout_holds_args.
    + apply wrap32_range.
    + apply layout_nr.
    + done.
    + done.
    + exact Hpos.
    + intros l ->%list_elem_of_singleton. left.
    + etrans; [exact Hpos|]. unfold all_returns. set_solver.
    + intros a x Hx. exact Hx.
  - by intros l [].
  - by intros l [].
  - done.
  - by intros l [[]|[[]|Hl]].
  - done.
  - done.
  - unfold sem_seq. cbn [cond_holds].
    intros a x [(a1 & [= ->] & Hx)|[-> Hf]]; [|done]. destruct (wrap32 (Arch d) =? arch).
    + destruct Hx as [(a2 & [= ->] & Hx)|[-> Hf]]; [|done]. by destruct (decide_map _ _ _).
    + destruct Hx as [(a2 & [=] & Hx)|[-> Hf]]. by eexists.
Qed.

Lemma program_code_correct :
  renders NativeEndian (marshal d) false (program_code arch ors possible dflt bad)
    (λ l, render_labels ors l ∨ l = defaultLabel ∨ l = badArchLabel) [] all_returns
    (λ a x, x = XReturn (verdict_of arch ors dflt bad d)).
Proof.
  assert (Hlab : ∀ l, l = defaultLabel ∨ l = badArchLabel → ¬ render_labels ors l).
  { intros l Hl [(lo & hi & [(k & _ & E)|(s & j & t & _ & E & _)])|[(v & _ & E)|(v & _ & E)]];
      [by destruct Hl; subst..| |]; destruct E as [E|[E|(s & [E|E])]]; by destruct Hl; subst. }
  pose proof checked_rules_correct as H1.
  assert (Hret : ∀ v L, in_u32 v → v ∈ all_returns →
    renders NativeEndian (marshal d) false (SP.Ret v) no_labels L all_returns (λ a x, x = XReturn v)).
  { intros v L Hv Hin. by apply ret_correct. }
  assert (H2 := renders_link _ _ _ _ _ _ defaultLabel _ _ [badArchLabel] _ _ _ H1
    (Hret dflt [badArchLabel] Hdflt ltac:(unfold all_returns; set_solver)) (Hlab _ (or_introl eq_refl))
    ltac:(by intros ?%list_elem_of_singleton) (no_labels_none _) (λ l _, no_labels_none l)).
  assert (Hnb : ¬ (render_labels ors badArchLabel ∨ badArchLabel = defaultLabel ∨ no_labels badArchLabel)).
  { intros [Hl|[Hl|[]]]; [by apply (Hlab badArchLabel); auto|done]. }
  assert (H3 := renders_link _ _ _ _ _ _ badArchLabel _ _ [] _ _ _ H2
    (Hret bad [] Hbad ltac:(unfold all_returns; set_solver)) Hnb
    (not_elem_of_nil _) (no_labels_none _) (λ l _, no_labels_none l)).
  eapply (renders_ext _ _ _ _ _ _ _ _ _); [|eapply renders_mono; [exact H3|done| |done|done|]].
  - intros b. apply program_nest.
  - simpl. intros l [[Hl|[->|[]]]|[->|[]]]; auto.
  - intros a x Hx. unfold verdict_of.
    destruct (wrap32 (Arch d) =? arch); [destruct (decide_map _ _ _) as [v|]|].
    + eapply link_returns; [|exact Hx]. intros y. by apply link_returns.
    + eapply link_returns; [|exact Hx]. intros y. by apply link_goes.
    + eapply link_goes; [| |exact Hx]; [|done]. intros y. by apply link_keeps.
Qed.

End Code.

(** ** Programs and environments *)

(** What [Build] relies on: Go visits every entry of a map, and the architecture has 32 bits. *)
Record env_ok (env : BuildEnv) : Prop := mkEnvOk {
  eo_arch : in_u32 (LINUX_AUDIT_ARCH env);
  eo_rules : visits (env_rules env);
  eo_labels : lists_labels (env_labels env);
  eo_returns : orders_ok (env_returns env)
}.

Definition default_action (env : BuildEnv) (p : Program) : result ActionError Z :=
  bpf (DefaultAction (Options p)) (saneDefaultAction (killProcessAvailable env)).

(** The actions of a program have values: [dflt] and [bad] for the default and for a bad
    architecture.  Its rules are written with the exported matchers, on numbers of 32 bits, and
    its rule sets agree on the vsyscall page. *)
Record program_ok (env : BuildEnv) (p : Program) (dflt bad : Z) : Prop := mkProgramOk {
  po_default : default_action env p = Ok dflt;
  po_bad : bpf (BadArchAction (Options p)) (Ok dflt) = Ok bad;
  po_actions : Forall (λ rs, action_value (Ok dflt) (RuleAction rs) ≠ None) (RuleSets p);
  po_rules : Forall ruleset_ok (RuleSets p);
  po_agree : agreeing (RuleSets p)
}.

(** What a program is to do with a system call. *)
Definition decision (env : BuildEnv) (p : Program) (dflt bad : Z) (d : SeccompData) : Z :=
  if wrap32 (Arch d) =? LINUX_AUDIT_ARCH env then
    default dflt (first_action (RuleSets p) (wrap32 (Nr d)) d ≫= action_value (Ok dflt))
  else bad.

Lemma saneDefaultAction_range kill v : saneDefaultAction kill = Ok v → in_u32 v.
Proof. destruct kill as [[]| |]; intros [= <-]; by split; vm_compute. Qed.

Lemma default_action_range env p v : default_action env p = Ok v → in_u32 v.
Proof. apply bpf_fuel_range, saneDefaultAction_range. Qed.

Lemma bpf_range a dflt v : in_u32 dflt → bpf a (Ok dflt) = Ok v → in_u32 v.
Proof. intros Hd. apply bpf_fuel_range. by intros v' [= <-]. Qed.

Lemma seq_last (f g h i j k l : prog) b0 b :
  (f ;> g ;> h ;> i ;> j ;> k ;> l) b0 = Some b →
  ∃ b1, (f ;> g ;> h ;> i ;> j ;> k) b0 = Some b1 ∧ l b1 = Some b.
Proof.
  unfold prog_seq. destruct (f b0) as [b1|]; [simpl|done]. destruct (g b1) as [b2|]; [simpl|done].
  destruct (h b2) as [b3|]; [simpl|done]. destruct (i b3) as [b4|]; [simpl|done].
  destruct (j b4) as [b5|]; [simpl|done]. destruct (k b5) as [b6|]; [simpl|done]. eauto.
Qed.

(** A new builder has no labels. *)
Lemma renders_new e inp f reg R sem :
  renders e inp false f reg [] R sem →
  ∃ b, f NewProgramBuilder = Some b ∧ fragment e inp false reg [] R sem NewProgramBuilder b.
Proof.
  intros Hf. apply Hf; [apply NewProgramBuilder_ok| |by intros l ?%elem_of_nil].
  intros l _. split; [done|]. apply not_elem_of_empty.
Qed.

(** The data of no system call, to have an input. *)
Definition zero_data : SeccompData := mkData 0 0 0 (replicate 6 0).

Section Build.
Context (env : BuildEnv) (p : Program) (dflt bad : Z) (Henv : env_ok env) (Hp : program_ok env p dflt bad).

(** [Build] makes the code, and the code does what the program says. *)
Lemma build_program_correct `{SeccompLayout} :
  ∃ b, build_program env p = Ok b ∧
    ∀ d, data_ok d → ∃ reg R, fragment NativeEndian (marshal d) false reg [] R
      (λ a x, x = XReturn (decision env p dflt bad d)) NewProgramBuilder b.
Proof.
  destruct Henv as [Harch Hvis Hlab Hret], Hp as [Ed Eb Ha Hr Hag].
  pose proof (default_action_range env p dflt Ed) as Hdu. pose proof (bpf_range _ _ _ Hdu Eb) as Hbu.
  destruct (possible_actions_ok (Ok dflt) (RuleSets p)) as (A & EA & HA).
  { eapply Forall_impl; [exact Ha|]. intros rs Hne. unfold action_value in Hne. simpl.
    destruct (bpf (RuleAction rs) (Ok dflt)) as [v| |] eqn:E; [|done|done]. exists v. split; [done|exact (bpf_range _ _ _ Hdu E)]. }
  unfold default_action in Ed.
  destruct (orderRuleSets_correct (env_rules env) (killProcessAvailable env) (RuleSets p) (Options p) A Hvis Hag Hr)
    as (ors & Eo & Hok & Hsub & Hdec); [by rewrite Ed|]. rewrite Ed in Hdec.
  assert (Hcode : ∀ d, data_ok d → ∃ b, program_code (LINUX_AUDIT_ARCH env) ors A dflt bad NewProgramBuilder = Some b ∧
    ∃ reg R, fragment NativeEndian (marshal d) false reg [] R (λ a x, x = XReturn (decision env p dflt bad d)) NewProgramBuilder b).
  { intros d Hd. pose proof (program_code_correct d Hd (LINUX_AUDIT_ARCH env) ors A dflt bad Harch Hok Hsub Hdu Hbu) as Hc.
    destruct (renders_new _ _ _ _ _ _ Hc) as (b & Eb' & Hfr). exists b. split; [done|]. eexists _, _.
    unfold verdict_of in Hfr. rewrite Hdec in Hfr by done. exact Hfr. }
  destruct (Hcode zero_data) as (b & Eb' & _); [split; [done|split; [done|by repeat constructor]]|].
  exists b. split.
  - destruct (seq_last _ _ _ _ _ _ _ _ _ Eb') as (b1 & E1 & E2). unfold build_program.
    rewrite Eo. cbn [mbind result_bind]. rewrite Ed. cbn [action_result mbind result_bind]. rewrite EA.
    cbn [mbind result_bind]. rewrite E1. cbn [or_panic mbind result_bind]. rewrite Eb. cbn [action_result mbind result_bind].
    by rewrite E2.
  - intros d Hd. destruct (Hcode d Hd) as (b' & Eb2 & Hfr). rewrite Eb' in Eb2. by injection Eb2 as <-.
Qed.

End Build.

(** ** Conflicts *)

(** A result that is not the error of conflicting rule sets. *)
Definition no_conflict {A} (r : result BuildError A) : Prop := ∀ s, r ≠ Err (ConflictingVsyscall s).

Lemma action_no_conflict {A} (r : result ActionError A) : no_conflict (action_result r).
Proof. by destruct r. Qed.

Lemma or_panic_no_conflict {A} (o : option A) : no_conflict (or_panic o).
Proof. by destruct o. Qed.

Lemma bind_no_conflict {A B} (r : result BuildError A) (f : A → result BuildError B) :
  no_conflict r → (∀ a, no_conflict (f a)) → no_conflict (r ≫= f).
Proof. intros Hr Hf. destruct r; [apply Hf|intros s [= E]; by apply (Hr s); rewrite E|done]. Qed.

Create HintDb conflict.
#[export] Hint Resolve action_no_conflict or_panic_no_conflict bind_no_conflict : conflict.

Lemma rule_actions_no_conflict order d rules m : no_conflict (rule_actions order d rules m).
Proof. revert m. induction rules as [|rs rules IH]; intros m; [done|]. simpl. auto with conflict. Qed.

Lemma possible_actions_no_conflict d rules : no_conflict (possible_actions d rules).
Proof.
  induction rules as [|rs rules IH]; [done|]. simpl. apply bind_no_conflict; [auto with conflict|]. intros a.
  by apply bind_no_conflict.
Qed.

(** The only source of conflicts is the first pass of [orderRuleSets]. *)
Lemma Build_conflicts env p s :
  Build env p = Err (ConflictingVsyscall s) ↔
  vsyscall_pass (env_rules env) (RuleSets p) ∅ = Err (ConflictingVsyscall s).
Proof.
  unfold Build, build_program, orderRuleSets.
  destruct (vsyscall_pass _ _ _) as [vs|err|]; cbn [mbind result_bind]; [|by split; intros [= ->]|done].
  split; [|done]. intros E. exfalso. revert E. apply bind_no_conflict.
  - apply bind_no_conflict; [apply bind_no_conflict; [apply rule_actions_no_conflict|]|].
    + intros all. apply bind_no_conflict; [|done]. destruct (SkipOptimizations _); [done|auto with conflict].
    + intros ors. apply bind_no_conflict; [auto with conflict|]. intros a.
      apply bind_no_conflict; [apply possible_actions_no_conflict|]. auto with conflict.
  - intros b. apply bind_no_conflict; [auto with conflict|]. intros [b' [insns err]].
    destruct err; [done|]. destruct (negb _); [auto with conflict|done].
Qed.

Lemma knows_page_agreeing rules m : knows_page rules m → agreeing rules.
Proof.
  intros [Hk _] rs rs' Hin Hin' s Hs Hs'. pose proof (Hk rs s Hin Hs). pose proof (Hk rs' s Hin' Hs'). congruence.
Qed.

(** [Build] on a program in order, with what [Build_correct] states and that it is well formed. *)
Lemma Build_result `{SeccompLayout} env p dflt bad :
  env_ok env → program_ok env p dflt bad →
  ∃ b, build_program env p = Ok b ∧
    (Z.of_nat (length (instructions b)) <= 2 ^ 32 →
     ∃ insns, Build env p = Ok insns ∧ wf_prog insns ∧ (length insns <= length (instructions b))%nat ∧
       ∀ d, data_ok d → Exec NativeEndian insns (marshal d) = Value (decision env p dflt bad d)).
Proof.
  intros Henv Hp. destruct (build_program_correct env p dflt bad Henv Hp) as (b & Eb & Hfr).
  exists b. split; [done|]. intros Hlen.
  assert (Hz : data_ok zero_data) by (split; [done|split; [done|by repeat constructor]]).
  destruct (Hfr _ Hz) as (reg & R & Hfz).
  pose proof (closed_resolvable _ _ _ _ _ _ Hfz Hlen) as Hres. pose proof (closed_wf _ _ _ _ _ _ Hfz Hlen) as Hwf.
  destruct (Instructions_result (env_labels env) b (fr_ok _ _ _ _ _ _ _ _ _ Hfz) (eo_labels _ Henv)) as [Hi _].
  destruct (Hi Hres) as (b' & Ei).
  assert (Hrun : ∀ d, data_ok d → erase (Exec NativeEndian (resolved b) (marshal d)) = OValue (decision env p dflt bad d)).
  { intros d Hd. destruct (Hfr d Hd) as (reg' & R' & Hfd). by eapply (closed_Exec _ _ _ _ _ _ Hfd). }
  assert (Hdone : ∀ insns, wf_prog insns → (length insns <= length (resolved b))%nat → equivalent (resolved b) insns →
    wf_prog insns ∧ (length insns <= length (instructions b))%nat ∧
    ∀ d, data_ok d → Exec NativeEndian insns (marshal d) = Value (decision env p dflt bad d)).
  { intros insns Hw Hl Heq. split; [done|]. split; [unfold resolved in Hl; by rewrite length_imap in Hl|].
    intros d Hd. specialize (Hrun d Hd).
    rewrite <- (equivalent_Exec _ _ _ _ Heq) in Hrun. by destruct (Exec _ _ _); inversion Hrun. }
  unfold Build. rewrite Eb. cbn [mbind result_bind]. rewrite Ei. cbn [or_panic mbind result_bind].
  destruct (SkipOptimizations (Options p)); cbn [negb].
  - exists (resolved b). split; [done|]. apply Hdone; [done|done|]. by intros e inp m.
  - destruct (Optimize_result (env_returns env) (resolved b) (eo_returns _ Henv) Hwf) as (q & k & Eq & [Hq1 Hq2 Hq3] & _).
    exists q. rewrite Eq. split; [done|]. apply Hdone; [done|done|]. apply Hq3. by eapply (closed_stable _ _ _ _ _ _ Hfz).
Qed.

(** ** A sample program *)

Definition on_arg0 (m : ValueMatcher) : SyscallRule := PerArg [Some m; None; None; None; None; None; None].

Definition sample_rules : list RuleSet :=
  [ mkRuleSet (list_to_map [(3, on_arg0 (EqualTo 5)); (1, MatchAll); (7, on_arg0 (GreaterThan 8))]) Allow false;
    mkRuleSet (list_to_map [(3, on_arg0 (maskedEqual 4 4)); (20, MatchAll)]) (Code ReturnError 11) false;
    mkRuleSet (list_to_map [(30, MatchAll)]) Trap true ].

Definition sample_program : Program := mkProgram sample_rules (mkOptions Default KillThread false [7; 1]).

Definition sample_env : BuildEnv :=
  mkEnv 0xC000003E (Ok true) (λ m, map_to_list m) (λ m, map_to_list m) (λ _ m, map_to_list m).

Definition conflicting_program : Program :=
  mkProgram (sample_rules ++ [mkRuleSet (list_to_map [(30, MatchAll)]) Allow false]) (Options sample_program).

Lemma sample_env_ok : env_ok sample_env.
Proof. split; [by split; vm_compute|by intros m|by intros m|by intros k m]. Qed.

Lemma vsyscall_pass_agreeing order rules m :
  visits order → vsyscall_pass order rules ∅ = Ok m → agreeing rules.
Proof.
  intros Hv E. destruct (vsyscall_pass_result order Hv [] rules ∅) as [(m' & E' & Hk)|(s & E' & _)].
  - split; [by intros rs s ?%elem_of_nil|done].
  - by eapply knows_page_agreeing.
  - congruence.
Qed.

Lemma listed_rules_ok (entries : list (Z * SyscallRule)) action v :
  Forall (λ en, in_u32 en.1 ∧ written_rule en.2) entries → ruleset_ok (mkRuleSet (list_to_map entries) action v).
Proof.
  intros H sysno rule E%elem_of_list_to_map_2. rewrite Forall_forall in H. apply (H _ E).
Qed.

Lemma sample_program_ok : program_ok sample_env sample_program SECCOMP_RET_KILL_PROCESS SECCOMP_RET_KILL_THREAD.
Proof.
  split; [done|done|by repeat constructor| |].
  - simpl. unfold sample_rules. rewrite !Forall_cons, Forall_nil.
    split_and!; [apply listed_rules_ok; repeat first [constructor | split]; done..|done].
  - eapply (vsyscall_pass_agreeing (env_rules sample_env)); [by intros m|vm_compute; reflexivity].
Qed.

Lemma sample_code_length :
  match build_program sample_env sample_program with
  | Ok b => (length (instructions b) <= 100)%nat
  | _ => False
  end.
Proof. vm_compute. lia. Qed.

(** ** Properties *)

(** C1. [Build] on rule sets that agree on the vsyscall page, with rules written with the
    exported matchers and with meaningful actions: no step panics or fails, and if the code has
    at most 2^32 instructions [Build] returns a program that is not longer than the code and
    passes the validation of [bpf.Compile] unless it has more instructions than that allows.
    Run on the data of any system call, the program returns the action for a bad architecture
    if the architecture is not the expected one, and otherwise the action of the first rule set
    that has a matching rule for the system call (from the vsyscall page, where the rule set
    asks for it), or the default action if there is none.  This holds with and without the
    optimizations of rules and of instructions, and whatever system calls are hot. *)
Theorem Build_correct `{SeccompLayout} env p dflt bad :
  env_ok env → program_ok env p dflt bad →
  ∃ b, build_program env p = Ok b ∧
    (Z.of_nat (length (instructions b)) <= 2 ^ 32 →
     ∃ insns, Build env p = Ok insns ∧ (length insns <= length (instructions b))%nat ∧
       ((length insns <= MaxInstructions)%nat → validate insns = None) ∧
       ∀ d, data_ok d → Exec NativeEndian insns (marshal d) = Value (decision env p dflt bad d)).
Proof.
  intros Henv Hp. destruct (Build_result env p dflt bad Henv Hp) as (b & Eb & Hb). exists b. split; [done|].
  intros Hlen. destruct (Hb Hlen) as (insns & Ei & Hwf & Hl & Hrun). exists insns.
  split_and!; [done|done|by apply wf_validate|done].
Qed.

Lemma Build_correct_witness :
  ∃ insns, Build sample_env sample_program = Ok insns ∧ validate insns = None ∧
    let run nr ip a0 := Exec NativeEndian insns (@marshal le_marshal (mkData nr 0xC000003E ip [a0; 0; 0; 0; 0; 0])) in
    run 3 0 5 = Value SECCOMP_RET_ALLOW ∧ run 3 0 6 = Value (SECCOMP_RET_ERRNO .| 11) ∧
    run 30 0 0 = Value SECCOMP_RET_KILL_PROCESS ∧ run 30 (2 ^ 63) 0 = Value SECCOMP_RET_TRAP.
Proof.
  destruct (@Build_correct le_marshal le_layout sample_env sample_program SECCOMP_RET_KILL_PROCESS
    SECCOMP_RET_KILL_THREAD sample_env_ok sample_program_ok) as (b & Eb & Hb).
  pose proof sample_code_length as Hlen. rewrite Eb in Hlen.
  destruct Hb as (insns & Ei & Hl & Hv & Hrun); [lia|]. exists insns. split; [done|].
  split; [apply Hv; unfold MaxInstructions; lia|].
  assert (Hok : ∀ nr ip a0, in_u64 ip → in_u64 a0 → data_ok (mkData nr 0xC000003E ip [a0; 0; 0; 0; 0; 0])).
  { intros nr ip a0 Hip Ha. split; [done|]. split; [done|]. by repeat constructor; try apply Ha. }
  intros run. split; [|split; [|split]]; (etrans; [apply Hrun, Hok; by split; vm_compute|vm_compute; reflexivity]).
Defined.

(** C21. [Build] reports conflicting rule sets exactly when there are two rule sets with rules
    for the same system call of which only one asks for the vsyscall page; the error names such
    a system call. *)
Theorem Build_conflict env p :
  visits (env_rules env) →
  (¬ agreeing (RuleSets p) → ∃ s, Build env p = Err (ConflictingVsyscall s)) ∧
  (∀ s, Build env p = Err (ConflictingVsyscall s) → disagree_on (RuleSets p) s).
Proof.
  intros Hv. destruct (vsyscall_pass_result (env_rules env) Hv [] (RuleSets p) ∅) as [(m & E & Hk)|(s & E & Hs)].
  - split; [by intros rs s ?%elem_of_nil|done].
  - split; [intros Hn; by destruct Hn; eapply knows_page_agreeing|].
    intros s Hs%Build_conflicts. congruence.
  - split; [intros _; exists s; by apply Build_conflicts|].
    intros s' Hs'%Build_conflicts. rewrite E in Hs'. by injection Hs' as <-.
Qed.

Lemma Build_conflict_witness :
  ∃ s, Build sample_env conflicting_program = Err (ConflictingVsyscall s) ∧
    disagree_on (RuleSets conflicting_program) s.
Proof.
  destruct (Build_conflict sample_env conflicting_program (eo_rules _ sample_env_ok)) as [H1 H2].
  destruct H1 as [s Hs]; [|exists s; split; [exact Hs|by apply H2]].
  intros Ha. assert (true = false); [|done].
  apply (Ha (mkRuleSet (list_to_map [(30, MatchAll)]) Trap true) (mkRuleSet (list_to_map [(30, MatchAll)]) Allow false))
    with 30.
  - right. right. left.
  - right. right. right. left.
  - by exists MatchAll.
  - by exists MatchAll.
Defined.
