(* ===== verification/Bytecode.v ===== *)
(** * Raw bytecode (src/pkg/bpf/bpf_unsafe.go)

    [ToBytecode] and [ParseBytecode] reinterpret the memory of instructions: two bytes of
    opcode, the two jump offsets and four bytes of operand, in the byte order of the machine,
    which is little endian on the supported architectures (amd64, arm64). *)

From stdpp Require Import base numbers decidable gmap list.
From S2P Require Import Instr Machine MachineFacts Optimizer Prelude.

Local Open Scope Z_scope.

Definition sizeOfInstruction : nat := 8.

(** The memory of an instruction. *)
Definition instruction_bytes (i : Instruction) : list Z :=
  le_bytes 2 (OpCode i) ++ [JumpIfTrue i; JumpIfFalse i] ++ le_bytes 4 (KVal i).

(** The instruction in eight bytes of memory. *)
Definition instruction_at (l : list Z) : Instruction :=
  mkIns (le_value (take 2 l)) (default 0 (l !! 2%nat)) (default 0 (l !! 3%nat)) (le_value (take 4 (drop 4 l))).

(** Consecutive pieces of [n] elements. *)
Fixpoint pieces {A} (fuel n : nat) (l : list A) : list (list A) :=
  match fuel, l with
  | O, _ | _, [] => []
  | S fuel', _ => take n l :: pieces fuel' n (drop n l)
  end.

(** [ToBytecode] takes the address of the first instruction, so it panics without one. *)
Definition ToBytecode (insns : list Instruction) : option (list Z) :=
  match insns with
  | [] => None
  | _ => Some (concat (instruction_bytes <$> insns))
  end.

Inductive BytecodeError : Type :=
  | NotMultiple (size : nat)
  | NotValid (err : Error).

(** [ParseBytecode], which takes the address of the first byte. *)
Definition ParseBytecode (order : nat → map_order) (bytecode : list Z)
    : result BytecodeError (list Instruction) :=
  if negb (length bytecode mod sizeOfInstruction =? 0)%nat then Err (NotMultiple (length bytecode))
  else
    match bytecode with
    | [] => Panic
    | _ =>
        let insns := instruction_at <$> pieces (length bytecode) sizeOfInstruction bytecode in
        match Compile order insns false with
        | Some (inl _) => Ok insns
        | Some (inr err) => Err (NotValid err)
        | None => Panic
        end
    end.

(** ** Facts *)

Lemma instruction_bytes_length i : length (instruction_bytes i) = sizeOfInstruction.
Proof. done. Qed.

Lemma instruction_at_bytes i : ins_range i → instruction_at (instruction_bytes i) = i.
Proof.
  destruct i as [op jt jf k]. intros (Hop & Hjt & Hjf & Hk). unfold instruction_at, instruction_bytes.
  cbn [OpCode JumpIfTrue JumpIfFalse KVal] in *.
  change (take 2 (le_bytes 2 op ++ [jt; jf] ++ le_bytes 4 k)) with (le_bytes 2 op).
  change (take 4 (drop 4 (le_bytes 2 op ++ [jt; jf] ++ le_bytes 4 k))) with (le_bytes 4 k).
  rewrite !le_value_bytes. cbn [lookup list_lookup app le_bytes default from_option id].
  f_equal; apply Z.mod_small; unfold in_u16, in_u32 in *; simpl; lia.
Qed.

(** Pieces of pieces of the same length. *)
Lemma pieces_concat {A} n (ll : list (list A)) fuel :
  (0 < n)%nat → Forall (λ l, length l = n) ll → (length (concat ll) <= fuel)%nat → pieces fuel n (concat ll) = ll.
Proof.
  intros Hn Hall. revert fuel. induction Hall as [|l ll Hl _ IH]; intros fuel Hf; [by destruct fuel|].
  simpl in *. rewrite length_app in Hf. destruct fuel as [|fuel]; [lia|]. cbn [pieces].
  destruct l as [|x l]; [simpl in Hl; lia|]. cbn [app]. change (x :: l ++ concat ll) with ((x :: l) ++ concat ll).
  rewrite take_app_length', drop_app_length' by done. rewrite IH; [done|]. simpl in *. lia.
Qed.

Lemma length_concat_instructions insns :
  length (concat (instruction_bytes <$> insns)) = (length insns * sizeOfInstruction)%nat.
Proof.
  induction insns as [|i insns IH]; [done|]. rewrite fmap_cons. cbn [concat].
  rewrite length_app, IH, instruction_bytes_length. done.
Qed.

Lemma instructions_pieces insns :
  Forall ins_range insns →
  instruction_at <$> pieces (length (concat (instruction_bytes <$> insns))) sizeOfInstruction
    (concat (instruction_bytes <$> insns)) = insns.
Proof.
  intros Hr. rewrite pieces_concat; [|by unfold sizeOfInstruction; lia| |done].
  - induction Hr as [|i insns Hi _ IH]; [done|]. csimpl. by rewrite instruction_at_bytes, IH.
  - apply Forall_fmap, Forall_forall. intros i _. apply instruction_bytes_length.
Qed.

Lemma ParseBytecode_instructions order insns :
  insns ≠ [] → Forall ins_range insns →
  ParseBytecode order (concat (instruction_bytes <$> insns)) =
  match validate insns with None => Ok insns | Some err => Err (NotValid err) end.
Proof.
  intros Hne Hr. unfold ParseBytecode. rewrite instructions_pieces by done.
  rewrite length_concat_instructions, Nat.Div0.mod_mul. simpl.
  destruct (concat (instruction_bytes <$> insns)) eqn:E.
  - apply (f_equal length) in E. rewrite length_concat_instructions in E. destruct insns; [done|].
    unfold sizeOfInstruction in E. simpl in E. lia.
  - unfold Compile. by destruct (validate insns).
Qed.

(** ** Properties *)

(** C37. Raw bytecode round trip: instructions turned into bytes and parsed again are the same
    instructions if they pass the validation of [Compile]; otherwise the error of the
    validation is reported. *)
Theorem bytecode_roundtrip order insns bytecode :
  Forall ins_range insns → ToBytecode insns = Some bytecode →
  length bytecode = (8 * length insns)%nat ∧
  ParseBytecode order bytecode =
  match validate insns with None => Ok insns | Some err => Err (NotValid err) end.
Proof.
  intros Hr E. assert (Hne : insns ≠ []) by (by intros ->).
  assert (bytecode = concat (instruction_bytes <$> insns)) as -> by (destruct insns; [done|]; unfold ToBytecode in E; congruence).
  split; [rewrite length_concat_instructions; unfold sizeOfInstruction; lia|].
  by apply ParseBytecode_instructions.
Qed.

Lemma bytecode_roundtrip_witness :
  ∃ bytecode, ToBytecode sample_filter = Some bytecode ∧
    ParseBytecode (λ _, map_to_list) bytecode = Ok sample_filter.
Proof.
  eexists. split; [reflexivity|].
  refine (eq_trans (proj2 (bytecode_roundtrip (λ _, map_to_list) sample_filter _ sample_filter_range _)) _);
    [reflexivity|by vm_compute].
Defined.
