(* ===== verification/Precompile.v ===== *)
(** * Precompiled programs (src/pkg/seccomp/precompiledseccomp/precompiledseccomp.go)

    A program is built twice with different stand-ins for its variables; the places where the
    stand-ins show up are those where [RenderInstructions] later puts the values.  The
    bytecode of a precompiled program is shared and written in place, so [RenderInstructions]
    also returns the program it leaves behind.

    [Build] may rewrite compound rules in place.  What it leaves of a program is only looked at
    when a variable was optimized away; it is the argument [rewritten] here, and nothing is
    assumed about it.  Logging and the rendering of programs as Go code are left out. *)

From stdpp Require Import base numbers decidable strings gmap list.
From S2P Require Import Instr Machine MachineFacts Optimizer Builder SeccompRules SeccompAction SeccompProgram.
From S2P Require Import Bytecode Prelude.

Local Open Scope Z_scope.

(** ** Values *)

Definition Values : Type := gmap string Z.

Definition uint64VarSuffixHigh : string := "_high32bits".
Definition uint64VarSuffixLow : string := "_low32bits".

Definition SetUint64 (v : Values) (varName : string) (value : Z) : Values :=
  <[varName +:+ uint64VarSuffixLow := wrap32 value]>
    (<[varName +:+ uint64VarSuffixHigh := wrap32 (Z.shiftr value 32)]> v).

(** The value of a 32-bit variable, which is zero where there is none. *)
Definition var (v : Values) (varName : string) : Z := default 0 (v !! varName).

Definition GetUint64 (v : Values) (varName : string) : Z :=
  Z.lor (Z.shiftl (var v (varName +:+ uint64VarSuffixHigh)) 32) (var v (varName +:+ uint64VarSuffixLow)).

Definition PopUint64 (v : Values) (varName : string) : Values * Z :=
  (delete (varName +:+ uint64VarSuffixLow) (delete (varName +:+ uint64VarSuffixHigh) v), GetUint64 v varName).

(** [strings.TrimSuffix], where [strings.HasSuffix] holds. *)
Fixpoint TrimSuffix (s suffix : string) : option string :=
  if bool_decide (s = suffix) then Some ""
  else match s with
       | EmptyString => None
       | String c s' => String c <$> TrimSuffix s' suffix
       end.

Definition Uint64VarName (v : Values) (varName : string) : string :=
  let stripped :=
    match TrimSuffix varName uint64VarSuffixHigh with
    | Some name => Some name
    | None => TrimSuffix varName uint64VarSuffixLow
    end in
  match stripped with
  | None => ""
  | Some name =>
      if bool_decide (is_Some (v !! (name +:+ uint64VarSuffixHigh))) &&
         bool_decide (is_Some (v !! (name +:+ uint64VarSuffixLow))) then name else ""
  end.

(** ** Programs *)

Record PrecompiledProgram : Type := mkPrecompiled {
  Name : string;
  Bytecode32 : list Z;
  VarOffsets : gmap string (list nat)
}.

(** [binary.NativeEndian.Uint32] and [PutUint32] on four bytes. *)
Definition instructionsToUint32Slice (insns : list Instruction) : option (list Z) :=
  bytecode ← ToBytecode insns;
  Some (le_value <$> pieces (length bytecode) 4 bytecode).

Definition uint32SliceToInstructions (order : nat → map_order) (bytecode32 : list Z)
    : result BytecodeError (list Instruction) :=
  ParseBytecode order (concat (le_bytes 4 <$> bytecode32)).

(** The offsets at which a value shows up. *)
Definition offsets_of (bytecode32 : list Z) (value : Z) : list nat :=
  (filter (λ iv, iv.2 = value) (imap pair bytecode32)).*1.

Definition getVarOffsets (bytecode32 : list Z) (values : Values) : gmap string (list nat) :=
  omap (λ value, match offsets_of bytecode32 value with [] => None | l => Some l end) values.

Inductive PrecompileError : Type :=
  | NonUniqueVarNames (varNames : list string)
  | BuildFailed (err : BuildError)
  | NonOptimizedBuildFailed (err : BuildError)
  | VarMissing (varName : string)
  | DifferentOffsetCount (varName : string)
  | DifferentOffsets (varName : string)
  | DifferentSize (size1 size2 : nat)
  | DifferentBytecode (offset : nat).

Definition build_result {A} (f : BuildError → PrecompileError) (r : result BuildError A)
    : result PrecompileError A :=
  match r with Ok a => Ok a | Err err => Err (f err) | Panic => Panic end.

(** A program with its optimizations switched off. *)
Definition skip_optimizations (p : Program) : Program :=
  mkProgram (RuleSets p)
    (mkOptions (DefaultAction (Options p)) (BadArchAction (Options p)) true (HotSyscalls (Options p))).

(** [computeNonOptimizedOffsets] *)
Definition nonOptimizedOffsets (env : BuildEnv) (rewritten : Program → Program) (prog : Program) (values : Values)
    (varOffsets : gmap string (list nat)) : result PrecompileError (gmap string (list nat)) :=
  if SkipOptimizations (Options prog) then Ok varOffsets
  else
    insns ← build_result NonOptimizedBuildFailed (Build env (skip_optimizations (rewritten prog)));
    bytecode32 ← or_panic (instructionsToUint32Slice insns);
    Ok (getVarOffsets bytecode32 values).

(** The loop over the variables, in the order [names]. *)
Fixpoint check_vars (nonOptimized : result PrecompileError (gmap string (list nat))) (names : list string)
    (varOffsets : gmap string (list nat)) : result PrecompileError (gmap string (list nat)) :=
  match names with
  | [] => Ok varOffsets
  | varName :: names' =>
      match varOffsets !! varName with
      | Some (_ :: _) => check_vars nonOptimized names' varOffsets
      | _ =>
          nonOpt ← nonOptimized;
          match nonOpt !! varName with
          | Some (_ :: _) => check_vars nonOptimized names' (<[varName := []]> varOffsets)
          | _ => Err (VarMissing varName)
          end
      end
  end.

(** The order in which Go goes through values. *)
Definition values_order : Type := Values → list (string * Z).

Definition precompile (env : BuildEnv) (rewritten : Program → Program) (vorder : values_order)
    (name : string) (values : Values) (fn : Values → Program) : result PrecompileError PrecompiledProgram :=
  let prog := fn values in
  insns ← build_result BuildFailed (Build env prog);
  bytecode32 ← or_panic (instructionsToUint32Slice insns);
  let varOffsets := getVarOffsets bytecode32 values in
  varOffsets ← check_vars (nonOptimizedOffsets env rewritten prog values varOffsets) (vorder values).*1 varOffsets;
  Ok (mkPrecompiled name bytecode32 varOffsets).

Definition varStart1 : Z := 0x13371337.
Definition varStart2 : Z := 0x42424243.

(** Stand-ins for the variables, from [v] on. *)
Fixpoint stand_ins (v : Z) (varNames : list string) (values : Values) : Values :=
  match varNames with
  | [] => values
  | varName :: varNames' => stand_ins (wrap32 (v + 2)) varNames' (<[varName := v]> values)
  end.

(** The checks of [Precompile] on the two programs. *)
Fixpoint check_offsets (program1 program2 : PrecompiledProgram) (varNames : list string) : option PrecompileError :=
  match varNames with
  | [] => None
  | varName :: varNames' =>
      let offsets1 := default [] (VarOffsets program1 !! varName) in
      let offsets2 := default [] (VarOffsets program2 !! varName) in
      if negb (length offsets1 =? length offsets2)%nat then Some (DifferentOffsetCount varName)
      else if bool_decide (offsets1 = offsets2) then check_offsets program1 program2 varNames'
      else Some (DifferentOffsets varName)
  end.

Definition knownOffsets (program : PrecompiledProgram) (varNames : list string) : gset nat :=
  ⋃ ((λ varName, list_to_set (default [] (VarOffsets program !! varName))) <$> varNames).

(** The first offset outside [known] where the bytecodes differ. *)
Fixpoint check_bytecode (known : gset nat) (i : nat) (bytecode1 bytecode2 : list Z) : option PrecompileError :=
  match bytecode1, bytecode2 with
  | v1 :: bytecode1', v2 :: bytecode2' =>
      if bool_decide (i ∈ known) || (v1 =? v2) then check_bytecode known (S i) bytecode1' bytecode2'
      else Some (DifferentBytecode i)
  | _, _ => None
  end.

Definition Precompile (env : BuildEnv) (rewritten : Program → Program) (vorder : values_order)
    (name : string) (varNames : list string) (fn : Values → Program) : result PrecompileError PrecompiledProgram :=
  if negb (size (list_to_set varNames : gset string) =? length varNames)%nat then Err (NonUniqueVarNames varNames)
  else
    let varNames := sort_slice String.leb varNames in
    program1 ← precompile env rewritten vorder name (stand_ins varStart1 varNames ∅) fn;
    program2 ← precompile env rewritten vorder name (stand_ins varStart2 varNames ∅) fn;
    match check_offsets program1 program2 varNames with
    | Some err => Err err
    | None =>
        if negb (length (Bytecode32 program1) =? length (Bytecode32 program2))%nat then
          Err (DifferentSize (length (Bytecode32 program1)) (length (Bytecode32 program2)))
        else
          match check_bytecode (knownOffsets program1 varNames) 0 (Bytecode32 program1) (Bytecode32 program2) with
          | Some err => Err err
          | None => Ok program1
          end
    end.

(** ** Rendering *)

Inductive RenderError : Type :=
  | InconsistentVars (values : Values)
  | VarNotDefined (varName : string)
  | InvalidBytecode (err : BytecodeError).

(** Writing [value] at [offsets]: the bytecode it leaves, and how it ends.  An index out of
    range panics. *)
Fixpoint write_offsets (offsets : list nat) (value : Z) (bytecode32 : list Z) : list Z * result RenderError unit :=
  match offsets with
  | [] => (bytecode32, Ok tt)
  | offset :: offsets' =>
      if (offset <? length bytecode32)%nat then write_offsets offsets' value (<[offset := value]> bytecode32)
      else (bytecode32, Panic)
  end.

(** The loop over the values. *)
Fixpoint write_vars (varOffsets : gmap string (list nat)) (values : list (string * Z)) (bytecode32 : list Z)
    : list Z * result RenderError unit :=
  match values with
  | [] => (bytecode32, Ok tt)
  | (varName, value) :: values' =>
      match varOffsets !! varName with
      | None => (bytecode32, Err (VarNotDefined varName))
      | Some offsets =>
          match write_offsets offsets value bytecode32 with
          | (bytecode32, Ok _) => write_vars varOffsets values' bytecode32
          | (bytecode32, r) => (bytecode32, r)
          end
      end
  end.

Definition set_Bytecode32 (program : PrecompiledProgram) (bytecode32 : list Z) : PrecompiledProgram :=
  mkPrecompiled (Name program) bytecode32 (VarOffsets program).

Definition RenderInstructions (order : nat → map_order) (vorder : values_order) (program : PrecompiledProgram)
    (values : Values) : PrecompiledProgram * result RenderError (list Instruction) :=
  if negb (size values =? size (VarOffsets program))%nat then (program, Err (InconsistentVars values))
  else
    let '(bytecode32, r) := write_vars (VarOffsets program) (vorder values) (Bytecode32 program) in
    (set_Bytecode32 program bytecode32,
     match r with
     | Ok _ =>
         match uint32SliceToInstructions order bytecode32 with
         | Ok insns => Ok insns
         | Err err => Err (InvalidBytecode err)
         | Panic => Panic
         end
     | Err err => Err err
     | Panic => Panic
     end).
