(* ===== verification/PrecompileFacts.v ===== *)
(** * Correctness of precompiled programs

    Rendering a precompiled program with either set of stand-ins gives what building it with
    them gives, rendering it again and again gives the same as rendering it once, and 64-bit
    variables are kept as two 32-bit ones without loss. *)

From stdpp Require Import base numbers decidable strings gmap list.
From S2P Require Import Instr Machine MachineFacts Optimizer Builder SeccompAbi SeccompRules SeccompAction.
From S2P Require Import SeccompProgram.
From S2P Require Import Labels RuleFacts ReprFacts OrderFacts DataLayout BuildFacts Bytecode Precompile Prelude.

Local Open Scope Z_scope.

(** ** Words *)

Lemma pieces_bytes n l :
  Forall in_u8 l → length l = (4 * n)%nat → concat (le_bytes 4 <$> (le_value <$> pieces (length l) 4 l)) = l.
Proof.
  intros Hl Hn. assert (Hf : (n <= length l)%nat) by lia. revert Hf. generalize (length l) at 1 2 as fuel. intros fuel Hf.
  revert n l Hl Hn Hf. induction fuel as [|fuel IH]; intros n l Hl Hn Hf.
  { assert (n = 0%nat) as -> by lia. by destruct l. }
  destruct n as [|n]; [by destruct l|]. destruct l as [|b0 [|b1 [|b2 [|b3 l]]]]; simpl in Hn; try lia.
  cbn [pieces]. change (take 4 (b0 :: b1 :: b2 :: b3 :: l)) with [b0; b1; b2; b3].
  change (drop 4 (b0 :: b1 :: b2 :: b3 :: l)) with l. rewrite !fmap_cons. cbn [concat].
  do 4 (apply Forall_cons in Hl as [? Hl]).
  change (le_bytes 4) with (le_bytes (length [b0; b1; b2; b3])) at 1.
  rewrite le_bytes_value by (by rewrite !Forall_cons, Forall_nil). simpl. do 4 f_equal.
  apply (IH n); [done|lia|lia].
Qed.

Lemma instruction_bytes_range i : ins_range i → Forall in_u8 (instruction_bytes i).
Proof.
  intros (_ & Hjt & Hjf & _). unfold instruction_bytes. rewrite !Forall_app, !Forall_cons, Forall_nil.
  split_and!; done || apply le_bytes_range.
Qed.

Lemma words_bytes insns words :
  Forall ins_range insns → instructionsToUint32Slice insns = Some words →
  concat (le_bytes 4 <$> words) = concat (instruction_bytes <$> insns) ∧ insns ≠ [].
Proof.
  intros Hr E. unfold instructionsToUint32Slice in E.
  destruct (ToBytecode insns) as [bytecode|] eqn:Eb; [|done]. injection E as <-.
  assert (Hne : insns ≠ []) by (by intros ->). split; [|done].
  assert (bytecode = concat (instruction_bytes <$> insns)) as -> by (destruct insns; [done|]; unfold ToBytecode in Eb; congruence).
  apply (pieces_bytes (2 * length insns)).
  - apply Forall_concat, Forall_fmap. eapply Forall_impl; [exact Hr|]. intros i. apply instruction_bytes_range.
  - rewrite length_concat_instructions. unfold sizeOfInstruction. lia.
Qed.

Lemma uint32SliceToInstructions_words order insns words :
  Forall ins_range insns → instructionsToUint32Slice insns = Some words →
  uint32SliceToInstructions order words =
  match validate insns with None => Ok insns | Some err => Err (NotValid err) end.
Proof.
  intros Hr E. destruct (words_bytes insns words Hr E) as [Hb Hne]. unfold uint32SliceToInstructions. rewrite Hb.
  by apply ParseBytecode_instructions.
Qed.

(** ** Names of variables *)

Lemma same_size {A B} (m : gmap string A) (m' : gmap string B) :
  (∀ n, is_Some (m !! n) ↔ is_Some (m' !! n)) → size m = size m'.
Proof. intros H. rewrite <- !size_dom. f_equal. apply set_eq. intros n. by rewrite !elem_of_dom, H. Qed.

Lemma same_size_names {A B} (m : gmap string A) (m' : gmap string B) n :
  (∀ n, is_Some (m !! n) → is_Some (m' !! n)) → size m = size m' → is_Some (m' !! n) → is_Some (m !! n).
Proof.
  intros Hsub Hs Hn. rewrite <- !size_dom in Hs. apply elem_of_dom.
  rewrite (set_subseteq_size_eq (dom m) (dom m')); [by apply elem_of_dom| |lia].
  intros n'. rewrite !elem_of_dom. apply Hsub.
Qed.

Lemma stand_ins_names v names m n :
  is_Some (stand_ins v names m !! n) ↔ n ∈ names ∨ is_Some (m !! n).
Proof.
  revert v m. induction names as [|name names IH]; intros v m; cbn [stand_ins].
  { rewrite elem_of_nil. tauto. }
  rewrite IH, elem_of_cons. unfold Values. destruct (decide (name = n)) as [->|?].
  - rewrite lookup_insert_eq. split; [by left; left|]. intros _. right. by eexists.
  - rewrite lookup_insert_ne by done. naive_solver.
Qed.

(** ** Offsets *)

Lemma offsets_of_spec bytecode32 v k : k ∈ offsets_of bytecode32 v ↔ bytecode32 !! k = Some v.
Proof.
  unfold offsets_of. rewrite list_elem_of_fmap. split.
  - intros ([k' v'] & -> & [Hv Hin]%list_elem_of_filter). simpl in *. subst v'.
    apply elem_of_lookup_imap in Hin as (k & x & [= -> ->] & Hk). done.
  - intros Hk. exists (k, v). split; [done|]. apply list_elem_of_filter. split; [done|].
    apply elem_of_lookup_imap. eauto.
Qed.

Definition offsets_at (program : PrecompiledProgram) (varName : string) : list nat :=
  default [] (VarOffsets program !! varName).

Lemma check_vars_result nonOpt names off off' :
  check_vars nonOpt names off = Ok off' →
  (∀ n, default [] (off' !! n) = default [] (off !! n)) ∧
  (∀ n, is_Some (off' !! n) ↔ is_Some (off !! n) ∨ n ∈ names).
Proof.
  revert off. induction names as [|name names IH]; intros off; cbn [check_vars].
  { intros [= <-]. split; [done|]. intros n. rewrite elem_of_nil. tauto. }
  destruct (off !! name) as [[|k l]|] eqn:E.
  2: { intros [H1 H2]%IH. split; [done|]. intros n. rewrite H2, elem_of_cons.
       split; [naive_solver|]. intros [?|[->|?]]; [by left|left; by eexists|by right]. }
  all: destruct nonOpt as [nonOpt'| |]; [|done|done]; cbn [mbind result_bind];
    destruct (nonOpt' !! name) as [[|k' l']|]; [done| |done]; intros [H1 H2]%IH; split.
  all: intros n; destruct (decide (name = n)) as [<-|Hne]; rewrite ?H1, ?H2, ?lookup_insert_eq, ?lookup_insert_ne, ?elem_of_cons by done.
  all: try (by rewrite E); try naive_solver.
Qed.

(** What [precompile] returns. *)
Lemma precompile_result env rewritten vorder name values fn program :
  (∀ values, vorder values ≡ₚ map_to_list values) →
  precompile env rewritten vorder name values fn = Ok program →
  ∃ insns, Build env (fn values) = Ok insns ∧ instructionsToUint32Slice insns = Some (Bytecode32 program) ∧
    (∀ n, is_Some (VarOffsets program !! n) ↔ is_Some (values !! n)) ∧
    ∀ n v, values !! n = Some v → ∀ k, k ∈ offsets_at program n ↔ Bytecode32 program !! k = Some v.
Proof.
  intros Ho. unfold precompile. destruct (Build env (fn values)) as [insns| |]; [|done|done].
  cbn [build_result mbind result_bind]. destruct (instructionsToUint32Slice insns) as [words|] eqn:Ew; [|done].
  cbn [or_panic mbind result_bind]. destruct (check_vars _ _ _) as [off| |] eqn:Ec; [|done|done].
  intros [= <-]. exists insns. split; [done|]. split; [done|]. simpl.
  apply check_vars_result in Ec as [H1 H2].
  assert (Hget : ∀ n, getVarOffsets words values !! n =
    v ← values !! n; match offsets_of words v with [] => None | l => Some l end).
  { intros n. unfold getVarOffsets. by rewrite lookup_omap. }
  split.
  - intros n. rewrite H2, Hget, (Ho values).
    assert (n ∈ (map_to_list values).*1 ↔ is_Some (values !! n)) as ->.
    { rewrite list_elem_of_fmap. split.
      - intros ([n' v] & -> & Hin%elem_of_map_to_list). by eexists.
      - intros [v Hv]. exists (n, v). split; [done|]. by apply elem_of_map_to_list. }
    split; [|by right]. intros [Hs|]; [|done]. destruct (values !! n); [by eexists|by destruct Hs].
  - intros n v Hv k. unfold offsets_at. simpl. rewrite H1, Hget, Hv, <- offsets_of_spec. simpl.
    by destruct (offsets_of words v).
Qed.

(** ** Writing values *)

Lemma write_offsets_result offsets v bc :
  let '(bc', r) := write_offsets offsets v bc in
  length bc' = length bc ∧ (∀ k, k ∉ offsets → bc' !! k = bc !! k) ∧
  if decide (Forall (λ k, (k < length bc)%nat) offsets)
  then r = Ok tt ∧ ∀ k, k ∈ offsets → bc' !! k = Some v
  else r = Panic.
Proof.
  revert bc. induction offsets as [|o offsets IH]; intros bc; cbn [write_offsets].
  { split_and!; [done|done|]. rewrite decide_True by done. split; [done|]. by intros k ?%elem_of_nil. }
  destruct (Nat.ltb_spec o (length bc)) as [Ho|Ho].
  2: { split_and!; [done|done|]. rewrite decide_False; [done|]. intros [? _]%Forall_cons. lia. }
  specialize (IH (<[o := v]> bc)). destruct (write_offsets offsets v _) as [bc' r].
  rewrite length_insert in IH. destruct IH as (Hl & Hrest & Hin). split_and!; [done| |].
  { intros k [Hne Hk]%not_elem_of_cons. rewrite Hrest by done. by apply list_lookup_insert_ne. }
  destruct (decide (Forall (λ k, (k < length bc)%nat) offsets)) as [Hf|Hf].
  - destruct Hin as [-> Hin]. rewrite decide_True by (by apply Forall_cons). split; [done|].
    intros k Hk. destruct (decide (k ∈ offsets)) as [?|Hn]; [by apply Hin|]. rewrite Hrest by done.
    apply elem_of_cons in Hk as [->|?]; [by apply list_lookup_insert_eq|done].
  - rewrite decide_False; [done|]. by intros [_ ?]%Forall_cons.
Qed.

(** An offset of a variable of [names]. *)
Definition var_offset (off : gmap string (list nat)) (names : list string) (k : nat) : Prop :=
  ∃ n l, n ∈ names ∧ off !! n = Some l ∧ k ∈ l.

(** The loop over the values only writes at offsets of variables. *)
Lemma write_vars_rest off entries bc :
  length (write_vars off entries bc).1 = length bc ∧
  ∀ k, var_offset off entries.*1 k ∨ (write_vars off entries bc).1 !! k = bc !! k.
Proof.
  revert bc. induction entries as [|[n v] entries IH]; intros bc; [split; [done|by right]|]. cbn [write_vars].
  destruct (off !! n) as [l|] eqn:El; [|split; [done|by right]].
  pose proof (write_offsets_result l v bc) as H. destruct (write_offsets l v bc) as [bc' r]. destruct H as (Hl & Hrest & _).
  assert (Hk : ∀ k, var_offset off ((n, v) :: entries).*1 k ∨ bc' !! k = bc !! k).
  { intros k. destruct (decide (k ∈ l)) as [?|?]; [left|right; by apply Hrest]. exists n, l. split_and!; [left|done..]. }
  destruct r as [u| |]; cbn [fst]; [|done..].
  destruct (IH bc') as [Hl' Hrest']. split; [congruence|]. intros k. destruct (Hrest' k) as [(n' & l' & ? & ?)|E].
  - left. exists n', l'. split; [by right|done].
  - rewrite E. apply Hk.
Qed.

Lemma write_vars_names off entries bc :
  (write_vars off entries bc).2 = Ok tt → ∀ n, n ∈ entries.*1 → is_Some (off !! n).
Proof.
  revert bc. induction entries as [|[n v] entries IH]; intros bc; [by intros _ n ?%elem_of_nil|]. cbn [write_vars].
  destruct (off !! n) as [l|] eqn:El; [|done]. destruct (write_offsets l v bc) as [bc' [u| |]]; [|done|done].
  intros Hok n' [->|Hn]%elem_of_cons; [by eexists|by eapply IH].
Qed.

(** How the loop ends does not depend on the bytecode, and neither does what it leaves at the
    offsets of the variables. *)
Lemma write_vars_same off entries bc1 bc2 :
  length bc1 = length bc2 →
  (write_vars off entries bc1).2 = (write_vars off entries bc2).2 ∧
  ((write_vars off entries bc1).2 = Ok tt →
   ∀ k, var_offset off entries.*1 k ∨ bc1 !! k = bc2 !! k →
   (write_vars off entries bc1).1 !! k = (write_vars off entries bc2).1 !! k).
Proof.
  revert bc1 bc2. induction entries as [|[n v] entries IH]; intros bc1 bc2 Hl.
  { split; [done|]. intros _ k [(n & _ & ?%elem_of_nil & _)|?]; done. }
  cbn [write_vars]. destruct (off !! n) as [l|] eqn:El; [|done].
  pose proof (write_offsets_result l v bc1) as H1. destruct (write_offsets l v bc1) as [bc1' r1].
  pose proof (write_offsets_result l v bc2) as H2. destruct (write_offsets l v bc2) as [bc2' r2].
  destruct H1 as (Hl1 & Hr1 & H1). destruct H2 as (Hl2 & Hr2 & H2). rewrite <- Hl in H2.
  case_decide; [|by subst]. destruct H1 as [-> H1], H2 as [-> H2].
  destruct (IH bc1' bc2') as [Hr Hk]; [congruence|]. split; [done|]. intros Hok k Hin. apply Hk; [done|].
  destruct (decide (k ∈ l)) as [?|Hn]; [right; by rewrite H1, H2 by done|].
  rewrite Hr1, Hr2 by done. destruct Hin as [(n' & l' & Hn' & El' & Hin)|?]; [left|by right].
  apply elem_of_cons in Hn' as [->|?]; [simpl in El'; by simplify_eq|by exists n', l'].
Qed.

(** Writing the values of a bytecode to itself changes nothing. *)
Lemma write_vars_id off entries bc :
  (∀ n v, (n, v) ∈ entries → ∃ l, off !! n = Some l ∧ ∀ k, k ∈ l → bc !! k = Some v) →
  write_vars off entries bc = (bc, Ok tt).
Proof.
  induction entries as [|[n v] entries IH]; intros Hin; [done|]. cbn [write_vars].
  destruct (Hin n v) as (l & -> & Hv); [left|].
  pose proof (write_offsets_result l v bc) as H. destruct (write_offsets l v bc) as [bc' r]. destruct H as (Hl & Hrest & H).
  rewrite decide_True in H by (apply Forall_forall; intros k Hk; by eapply lookup_lt_Some, Hv).
  destruct H as [-> H]. assert (bc' = bc) as ->; [|apply IH; intros n' v' ?; apply Hin; by right].
  apply list_eq. intros k. destruct (decide (k ∈ l)) as [Hk|Hk]; [by rewrite H, Hv|by apply Hrest].
Qed.

(** Writing the values of [target] gives [target]. *)
Lemma write_vars_target off entries bc target :
  length bc = length target →
  (∀ n v, (n, v) ∈ entries → ∃ l, off !! n = Some l ∧ ∀ k, k ∈ l → target !! k = Some v) →
  (∀ k, var_offset off entries.*1 k ∨ target !! k = bc !! k) →
  write_vars off entries bc = (target, Ok tt).
Proof.
  intros Hl Hin Hs. pose proof (write_vars_id off entries target Hin) as Et.
  destruct (write_vars_same off entries target bc) as [Hr Hk]; [done|]. rewrite Et in Hr, Hk.
  destruct (write_vars off entries bc) as [bc' r]. simpl in *. subst r. f_equal. apply list_eq. intros k. symmetry.
  by apply Hk.
Qed.

(** ** Rendering *)

(** Rendering a program whose bytecode only differs from that of [insns] at its variables. *)
Lemma RenderInstructions_target order vorder program values insns words :
  (∀ values, vorder values ≡ₚ map_to_list values) →
  Forall ins_range insns → instructionsToUint32Slice insns = Some words → validate insns = None →
  (∀ n, is_Some (VarOffsets program !! n) ↔ is_Some (values !! n)) →
  (∀ n v k, values !! n = Some v → k ∈ offsets_at program n → words !! k = Some v) →
  length (Bytecode32 program) = length words →
  (∀ k, (∃ n, k ∈ offsets_at program n) ∨ words !! k = Bytecode32 program !! k) →
  RenderInstructions order vorder program values = (set_Bytecode32 program words, Ok insns).
Proof.
  intros Ho Hr Ew Hv Hdom Hat Hl Hrest. unfold RenderInstructions.
  assert (size values = size (VarOffsets program)) as ->.
  { apply same_size. intros n. by rewrite Hdom. }
  rewrite Nat.eqb_refl. cbn [negb].
  assert (Hin : ∀ n v, (n, v) ∈ vorder values ↔ values !! n = Some v).
  { intros n v. rewrite (Ho values). apply elem_of_map_to_list. }
  rewrite (write_vars_target _ _ _ words); [|done| |].
  - by rewrite (uint32SliceToInstructions_words order insns words), Hv.
  - intros n v Hn%Hin. destruct (proj2 (Hdom n)) as [l El]; [by eexists|]. exists l. split; [done|].
    intros k Hk. apply (Hat n v k Hn). unfold offsets_at. by rewrite El.
  - intros k. destruct (Hrest k) as [[n Hn]|?]; [left|by right]. unfold offsets_at in Hn.
    destruct (VarOffsets program !! n) as [l|] eqn:El; [|by apply elem_of_nil in Hn].
    destruct (proj1 (Hdom n)) as [v Hv']; [by eexists|].
    exists n, l. split_and!; [|done|done]. apply list_elem_of_fmap. exists (n, v). split; [done|]. by apply Hin.
Qed.

(** ** Compiling *)

Lemma check_offsets_None program1 program2 names :
  check_offsets program1 program2 names = None →
  ∀ n, n ∈ names → offsets_at program1 n = offsets_at program2 n.
Proof.
  induction names as [|name names IH]; [by intros _ n ?%elem_of_nil|]. cbn [check_offsets].
  destruct (negb _); [done|]. case_bool_decide as E; [|done]. intros Hc n [->|Hn]%elem_of_cons; [done|by apply IH].
Qed.

Lemma check_bytecode_None known i bc1 bc2 :
  length bc1 = length bc2 → check_bytecode known i bc1 bc2 = None →
  ∀ k, (i + k)%nat ∈ known ∨ bc1 !! k = bc2 !! k.
Proof.
  revert i bc2. induction bc1 as [|v1 bc1 IH]; intros i [|v2 bc2] Hl E k; try done; [by right|].
  cbn [check_bytecode] in E. destruct (bool_decide (i ∈ known) || (v1 =? v2)) eqn:Eb; [|done].
  destruct k as [|k]; simpl.
  - rewrite Nat.add_0_r. apply orb_true_iff in Eb as [?%bool_decide_eq_true|?%Z.eqb_eq]; [by left|right; by subst].
  - rewrite Nat.add_succ_r. apply (IH (S i)); [by injection Hl|done].
Qed.

Lemma knownOffsets_spec program names k :
  k ∈ knownOffsets program names ↔ ∃ n, n ∈ names ∧ k ∈ offsets_at program n.
Proof.
  unfold knownOffsets. rewrite elem_of_union_list. split.
  - intros (X & (n & -> & Hn)%list_elem_of_fmap & Hk%elem_of_list_to_set). by exists n.
  - intros (n & Hn & Hk). eexists. split; [apply list_elem_of_fmap; by exists n|]. by apply elem_of_list_to_set.
Qed.

(** What the checks of [Precompile] establish for one set of stand-ins. *)
Definition uniform (program : PrecompiledProgram) (env : BuildEnv) (fn : Values → Program) (values : Values) : Prop :=
  ∃ insns words, Build env (fn values) = Ok insns ∧ instructionsToUint32Slice insns = Some words ∧
    (∀ n, is_Some (VarOffsets program !! n) ↔ is_Some (values !! n)) ∧
    (∀ n v k, values !! n = Some v → k ∈ offsets_at program n → words !! k = Some v) ∧
    length (Bytecode32 program) = length words ∧
    (∀ k, (∃ n, k ∈ offsets_at program n) ∨ words !! k = Bytecode32 program !! k).

Lemma Precompile_uniform env rewritten vorder name varNames fn program start :
  (∀ values, vorder values ≡ₚ map_to_list values) →
  Precompile env rewritten vorder name varNames fn = Ok program →
  start = varStart1 ∨ start = varStart2 →
  uniform program env fn (stand_ins start (sort_slice String.leb varNames) ∅).
Proof.
  intros Ho. unfold Precompile. destruct (negb _); [done|]. generalize (sort_slice String.leb varNames) as names. intros names.
  destruct (precompile _ _ _ _ (stand_ins varStart1 _ _) _) as [program1| |] eqn:E1; [|done|done].
  destruct (precompile _ _ _ _ (stand_ins varStart2 _ _) _) as [program2| |] eqn:E2; [|done|done].
  cbn [mbind result_bind].
  destruct (check_offsets _ _ _) eqn:Eo; [done|]. destruct (_ =? _)%nat eqn:El; [|done]. cbn [negb].
  destruct (check_bytecode _ _ _ _) eqn:Eb; [done|]. intros [= <-]. apply Nat.eqb_eq in El.
  apply precompile_result in E1 as (insns1 & Ei1 & Ew1 & Hd1 & Ho1); [|done].
  apply precompile_result in E2 as (insns2 & Ei2 & Ew2 & Hd2 & Ho2); [|done].
  intros [->| ->].
  - exists insns1, (Bytecode32 program1). split_and!; [done|done|done| |done|by right].
    intros n v k Hv Hk. by eapply Ho1.
  - exists insns2, (Bytecode32 program2). split_and!; [done|done| | |done|].
    + intros n. by rewrite Hd1, !stand_ins_names.
    + intros n v k Hv Hk. apply (Ho2 n v Hv). rewrite <- (check_offsets_None _ _ _ Eo); [done|].
      assert (Hs : is_Some (stand_ins varStart2 names ∅ !! n)) by (by eexists).
      apply stand_ins_names in Hs as [?|[]]; done.
    + intros k. destruct (check_bytecode_None _ _ _ _ El Eb k) as [Hk|?]; [left|by right].
      apply knownOffsets_spec in Hk as (n & _ & Hk). by exists n.
Qed.

(** ** Variables of 64 bits *)

Lemma append_length s t : String.length (s +:+ t) = (String.length s + String.length t)%nat.
Proof. induction s as [|c s IH]; [done|]. rewrite append_cons. cbn [String.length]. by rewrite IH. Qed.

Lemma suffixes_differ s t : s +:+ uint64VarSuffixLow ≠ t +:+ uint64VarSuffixHigh.
Proof.
  revert t. induction s as [|c s IH]; intros [|d t]; rewrite ?append_cons, ?append_nil_l.
  - done.
  - intros E%(f_equal String.length). cbn [String.length] in E. rewrite append_length in E. simpl in E. lia.
  - unfold uint64VarSuffixHigh. intros [= -> E]. destruct s as [|c s]; [done|].
    apply (f_equal String.length) in E. rewrite append_length in E. simpl in E. lia.
  - intros [= -> E]. by eapply IH.
Qed.

Lemma TrimSuffix_app n suffix : TrimSuffix (n +:+ suffix) suffix = Some n.
Proof.
  induction n as [|c n IH].
  - rewrite append_nil_l. destruct suffix; unfold TrimSuffix; by rewrite bool_decide_true.
  - rewrite append_cons. cbn [TrimSuffix]. rewrite bool_decide_false; [by rewrite IH|].
    intros E. rewrite <- (append_nil_l suffix) in E at 2. rewrite <- append_cons in E. by apply append_inj_r in E.
Qed.

Lemma TrimSuffix_Some s suffix n : TrimSuffix s suffix = Some n → s = n +:+ suffix.
Proof.
  revert n. induction s as [|c s IH]; intros n; cbn [TrimSuffix]; case_bool_decide as E.
  - intros [= <-]. done.
  - done.
  - intros [= <-]. done.
  - destruct (TrimSuffix s suffix) as [n'|]; [|done]. intros [= <-]. by rewrite append_cons, <- (IH n').
Qed.

Lemma TrimSuffix_low n : TrimSuffix (n +:+ uint64VarSuffixLow) uint64VarSuffixHigh = None.
Proof.
  destruct (TrimSuffix _ _) eqn:E; [|done]. by apply TrimSuffix_Some, suffixes_differ in E.
Qed.

Lemma lookup_SetUint64 v n x n' :
  SetUint64 v n x !! n' =
  if bool_decide (n' = n +:+ uint64VarSuffixLow) then Some (wrap32 x)
  else if bool_decide (n' = n +:+ uint64VarSuffixHigh) then Some (wrap32 (Z.shiftr x 32))
  else v !! n'.
Proof.
  unfold SetUint64, Values. case_bool_decide as E; [subst; by rewrite lookup_insert_eq|].
  rewrite lookup_insert_ne by done. case_bool_decide; [subst; by rewrite lookup_insert_eq|].
  by rewrite lookup_insert_ne.
Qed.

Lemma halves x : in_u64 x → Z.lor (Z.shiftl (wrap32 (Z.shiftr x 32)) 32) (wrap32 x) = x.
Proof.
  intros [H0 H1]. unfold wrap32.
  rewrite (Z.mod_small (Z.shiftr x 32)).
  2: { rewrite Z.shiftr_div_pow2 by lia. split; [apply Z.div_pos|apply Z.div_lt_upper_bound]; lia. }
  rewrite <- Z.land_ones by lia. apply Z.bits_inj'. intros i Hi. rewrite Z.lor_spec, Z.shiftl_spec, Z.land_spec by lia.
  destruct (Z.lt_ge_cases i 32).
  - rewrite Z.testbit_neg_r, Z.ones_spec_low by lia. by rewrite andb_true_r.
  - rewrite Z.shiftr_spec, Z.ones_spec_high by lia. rewrite andb_false_r, orb_false_r. f_equal. lia.
Qed.

(** ** A sample program *)

Lemma result_ok {E A} (r : result E A) (P : A → Prop) :
  match r with Ok a => P a | _ => False end → ∃ a, r = Ok a ∧ P a.
Proof. destruct r; [eauto|done|done]. Qed.

(** A rule for the first argument of system call 3 and one for the second of system call 4. *)
Definition sample_fn (v : Values) : Program :=
  mkProgram
    [ mkRuleSet (list_to_map [(3, on_arg0 (EqualTo (var v "fd"))); (1, MatchAll)]) Allow false;
      mkRuleSet (list_to_map [(3, on_arg0 (EqualTo 5)); (4, on_arg0 (GreaterThan (var v "limit")))]) Trap false ]
    (mkOptions Default KillThread false []).

Definition sample_names : list string := ["limit"; "fd"].

Definition sample_vorder : values_order := λ v, map_to_list v.

Definition sample_values (start : Z) : Values := stand_ins start (sort_slice String.leb sample_names) ∅.

Definition sample_precompiled : result PrecompileError PrecompiledProgram :=
  Precompile sample_env id sample_vorder "sample" sample_names sample_fn.

(** Each variable shows up once. *)
Lemma sample_precompiles :
  ∃ p, sample_precompiled = Ok p ∧ (length (offsets_at p "fd") = 1%nat ∧ length (offsets_at p "limit") = 1%nat).
Proof. apply result_ok. vm_compute. by split. Qed.

Lemma sample_fn_code_length :
  ∃ b, build_program sample_env (sample_fn (sample_values varStart2)) = Ok b ∧ (length (instructions b) <= 100)%nat.
Proof. apply (result_ok _ (λ b, (length (instructions b) <= 100)%nat)). vm_compute. lia. Qed.

Lemma sample_fn_ok :
  program_ok sample_env (sample_fn (sample_values varStart2)) SECCOMP_RET_KILL_PROCESS SECCOMP_RET_KILL_THREAD.
Proof.
  split; [done|done|by repeat constructor| |].
  - cbn [sample_fn RuleSets]. rewrite !Forall_cons, Forall_nil.
    split_and!; [apply listed_rules_ok; repeat first [constructor | split]; by vm_compute..|done].
  - eapply (vsyscall_pass_agreeing (env_rules sample_env)); [by intros m|vm_compute; reflexivity].
Qed.

Definition sample_data : SeccompData := mkData 3 0xC000003E 0 [varStart2; 0; 0; 0; 0; 0].

Lemma sample_data_ok : data_ok sample_data.
Proof. split; [by split; vm_compute|]. split; [done|]. by repeat constructor; vm_compute. Qed.

(** ** Properties *)

(** C17. If [Precompile] returns a program, rendering that program with either set of stand-ins
    gives the instructions that [Build] gives for those values; run on the data of a system
    call, they take the decision of the rule sets that [fn] makes of the values.  This is for
    rule sets in order whose code is not too long for [bpf.Compile]. *)
Theorem Precompile_correct `{SeccompLayout} env rewritten order vorder name varNames fn program start dflt bad b :
  env_ok env → (∀ values, vorder values ≡ₚ map_to_list values) →
  Precompile env rewritten vorder name varNames fn = Ok program →
  start = varStart1 ∨ start = varStart2 →
  let values := stand_ins start (sort_slice String.leb varNames) ∅ in
  program_ok env (fn values) dflt bad →
  build_program env (fn values) = Ok b → (length (instructions b) <= MaxInstructions)%nat →
  ∃ insns, (RenderInstructions order vorder program values).2 = Ok insns ∧ Build env (fn values) = Ok insns ∧
    ∀ d, data_ok d → Exec NativeEndian insns (marshal d) = Value (decision env (fn values) dflt bad d).
Proof.
  intros Henv Ho Hpre Hstart values Hp Eb Hlen.
  destruct (Precompile_uniform _ _ _ _ _ _ _ _ Ho Hpre Hstart) as (insns & words & Ei & Ew & Hd & Hat & Hl & Hrest).
  destruct (Build_result env (fn values) dflt bad Henv Hp) as (b' & Eb' & Hb). rewrite Eb in Eb'. injection Eb' as <-.
  destruct Hb as (insns' & Ei' & Hwf & Hl' & Hrun); [unfold MaxInstructions in Hlen; lia|].
  fold values in Ei, Hd, Hat. rewrite Ei in Ei'. injection Ei' as <-. exists insns. split; [|done].
  erewrite RenderInstructions_target; [done|done| |exact Ew| |done..].
  - apply Forall_lookup. intros pc i Hi. apply ok_range, (wf_ins _ Hwf pc i Hi).
  - apply wf_validate; [done|lia].
Qed.

Lemma Precompile_correct_witness :
  ∃ program insns, sample_precompiled = Ok program ∧
    (RenderInstructions (λ _ m, map_to_list m) sample_vorder program (sample_values varStart2)).2 = Ok insns ∧
    Exec NativeEndian insns (@marshal le_marshal sample_data) = Value SECCOMP_RET_ALLOW.
Proof.
  destruct sample_precompiles as (program & E & _). destruct sample_fn_code_length as (b & Eb & Hlen).
  destruct (@Precompile_correct le_marshal le_layout sample_env id (λ _ m, map_to_list m) sample_vorder "sample"
    sample_names sample_fn program varStart2 SECCOMP_RET_KILL_PROCESS SECCOMP_RET_KILL_THREAD b
    sample_env_ok (λ v, reflexivity (map_to_list v)) E (or_intror eq_refl) sample_fn_ok Eb) as (insns & Er & _ & Hrun).
  { unfold MaxInstructions. lia. }
  exists program, insns. split; [exact E|]. split; [exact Er|].
  etrans; [apply Hrun, sample_data_ok|vm_compute; reflexivity].
Defined.

(** C20. Rendering writes the values into the bytecode of the shared program.  Whatever a
    program was rendered with before, with success or not, it renders as if it was never
    rendered: values of earlier renderings never show up. *)
Theorem RenderInstructions_again order order' vorder vorder' program values values' :
  (∀ values, vorder' values ≡ₚ map_to_list values) →
  (RenderInstructions order' vorder' (RenderInstructions order vorder program values).1 values').2 =
  (RenderInstructions order' vorder' program values').2.
Proof.
  intros Ho. unfold RenderInstructions at 2. destruct (negb _); [done|].
  destruct (write_vars_rest (VarOffsets program) (vorder values) (Bytecode32 program)) as [Hl Hrest].
  destruct (write_vars _ (vorder values) _) as [bc r]. cbn [fst] in *. clear r.
  unfold RenderInstructions. cbn [set_Bytecode32 VarOffsets Bytecode32].
  destruct (Nat.eqb_spec (size values') (size (VarOffsets program))) as [Hs|]; [|done]. cbn [negb].
  destruct (write_vars_same (VarOffsets program) (vorder' values') bc (Bytecode32 program) Hl) as [Hr Hsame].
  pose proof (write_vars_names (VarOffsets program) (vorder' values') bc) as Hnames.
  destruct (write_vars _ _ bc) as [bc1 r1], (write_vars _ _ (Bytecode32 program)) as [bc2 r2]. simpl in *. subst r2.
  destruct r1 as [[]| |]; [|done|done]. assert (bc1 = bc2) as ->; [|done].
  assert (Hin : ∀ n, n ∈ (vorder' values').*1 ↔ is_Some (values' !! n)).
  { intros n. rewrite (Ho values'), list_elem_of_fmap. split.
    - intros ([n' v] & -> & Hin%elem_of_map_to_list). by eexists.
    - intros [v Hv]. exists (n, v). split; [done|]. by apply elem_of_map_to_list. }
  apply list_eq. intros k. apply Hsame; [done|]. destruct (Hrest k) as [(n & l & _ & El & Hk)|?]; [left|by right].
  exists n, l. split_and!; [|done|done]. apply Hin. apply (same_size_names _ (VarOffsets program)); [|done|by eexists].
  intros n' Hn'. by apply Hnames, Hin.
Qed.

Lemma RenderInstructions_again_witness :
  let program := mkPrecompiled "sample" [21; 77; 6; 0] {["x" := [1%nat]; "y" := [3%nat]]} in
  let values := {["x" := 1; "y" := 2]} in
  (RenderInstructions (λ _ m, map_to_list m) sample_vorder program values).1 ≠ program ∧
  (RenderInstructions (λ _ m, map_to_list m) sample_vorder
     (RenderInstructions (λ _ m, map_to_list m) sample_vorder program values).1 {["x" := 5; "y" := 9]}).2 =
  (RenderInstructions (λ _ m, map_to_list m) sample_vorder program {["x" := 5; "y" := 9]}).2.
Proof.
  split; [intros E%(f_equal Bytecode32); by vm_compute in E|]. apply RenderInstructions_again. intros v. reflexivity.
Defined.

(** A 64-bit variable is kept as two 32-bit ones: reading it back gives its value, the
    names of both halves lead back to its name, and other 64-bit variables keep their values.
    Popping it returns its value and leaves neither half. *)
Theorem Uint64_roundtrip v n x :
  in_u64 x →
  GetUint64 (SetUint64 v n x) n = x ∧
  (∀ n', n' ≠ n → GetUint64 (SetUint64 v n x) n' = GetUint64 v n') ∧
  (∀ n', n' = n +:+ uint64VarSuffixHigh ∨ n' = n +:+ uint64VarSuffixLow →
     Uint64VarName (SetUint64 v n x) n' = n ∧
     (PopUint64 (SetUint64 v n x) n).1 !! n' = None) ∧
  (PopUint64 (SetUint64 v n x) n).2 = x.
Proof.
  intros Hx. pose proof suffixes_differ as Hd.
  assert (Hhigh : SetUint64 v n x !! (n +:+ uint64VarSuffixHigh) = Some (wrap32 (Z.shiftr x 32))).
  { rewrite lookup_SetUint64, bool_decide_false, bool_decide_true; [done|done|]. by intros ?%symmetry%Hd. }
  assert (Hlow : SetUint64 v n x !! (n +:+ uint64VarSuffixLow) = Some (wrap32 x)).
  { by rewrite lookup_SetUint64, bool_decide_true. }
  assert (Hget : GetUint64 (SetUint64 v n x) n = x).
  { unfold GetUint64, var. rewrite Hhigh, Hlow. by apply halves. }
  split_and!; [done| | |done].
  - intros n' Hn. unfold GetUint64, var. rewrite !lookup_SetUint64, !bool_decide_false; [done|..].
    all: first [by intros ?%append_inj_r|by intros ?%Hd|by intros ?%symmetry%Hd].
  - unfold Uint64VarName, PopUint64, Values in *. intros n' [->| ->]; rewrite ?TrimSuffix_low, TrimSuffix_app, Hhigh, Hlow.
    + split; [done|]. cbn [fst]. rewrite lookup_delete_ne by apply Hd. apply lookup_delete_eq.
    + split; [done|]. apply lookup_delete_eq.
Qed.

Lemma Uint64_roundtrip_witness :
  GetUint64 (SetUint64 ∅ "addr" 0x123456789) "addr" = 0x123456789.
Proof. apply (Uint64_roundtrip ∅ "addr" 0x123456789). by split; vm_compute. Defined.
