(* ===== verification/SegSet.v ===== *)
(** * Segment sets (src/pkg/segment/set.go, range.go)

    The template of sets of segments: ranges of keys that do not overlap, each with a value,
    in a B-tree whose nodes point to their parents.  A set is the heap of its nodes, the root
    at [root]; operations are programs on it that panic (give [None]) where the code
    dereferences nil, indexes out of range or calls panic.  The parameters of the template
    (keys, values, [Functions], [minDegree]) are the class [Functions].  The constant
    [trackGaps] is 0, as in the template itself: the code that depends on it is left out. *)

From stdpp Require Import base numbers decidable gmap list.
From S2P Require Import Prelude.

Local Open Scope Z_scope.

(** ** Ranges *)

Record Range : Type := mkRange { r_Start : Z; r_End : Z }.

#[export] Instance Range_eq_dec : EqDecision Range.
Proof. solve_decision. Defined.

(** The parameters of the template.  [key_arith] reduces an integer to the type [Key]. *)
Class Functions (Value : Type) : Type := {
  zeroValue : Value;
  key_arith : Z → Z;
  minDegree : nat;
  MinKey : Z;
  MaxKey : Z;
  ClearValue : Value → Value;
  MergeValues : Range → Value → Range → Value → option Value;
  SplitValue : Range → Value → Z → Value * Value
}.

Section Ranges.
Context {Value : Type} `{Functions Value}.

Definition Length (r : Range) : Z := key_arith (r_End r - r_Start r).

Definition Contains (r : Range) (x : Z) : bool := (r_Start r <=? x) && (x <? r_End r).

Definition WellFormed (r : Range) : bool := r_Start r <=? r_End r.

Definition Overlaps (r r2 : Range) : bool := (r_Start r <? r_End r2) && (r_Start r2 <? r_End r).

Definition IsSupersetOf (r r2 : Range) : bool := (r_Start r <=? r_Start r2) && (r_End r2 <=? r_End r).

Definition Intersect (r r2 : Range) : Range :=
  let r := if r_Start r <? r_Start r2 then mkRange (r_Start r2) (r_End r) else r in
  let r := if r_End r2 <? r_End r then mkRange (r_Start r) (r_End r2) else r in
  if r_End r <? r_Start r then mkRange (r_Start r) (r_Start r) else r.

Definition CanSplitAt (r : Range) (x : Z) : bool := Contains r x && (r_Start r <? x).
End Ranges.

(** ** Nodes *)

Abbreviation loc := nat (only parsing).

(** The arrays [keys] and [values] have [maxDegree - 1] entries and [children] has
    [maxDegree]; those beyond [nrSegments] mean nothing. *)
Record setNode (Value : Type) : Type := mkNode {
  nrSegments : nat;
  parent : option loc;
  parentIndex : nat;
  hasChildren : bool;
  keys : list Range;
  values : list Value;
  children : list (option loc)
}.
Arguments mkNode {_} _ _ _ _ _ _ _.
Arguments nrSegments {_} _.
Arguments parent {_} _.
Arguments parentIndex {_} _.
Arguments hasChildren {_} _.
Arguments keys {_} _.
Arguments values {_} _.
Arguments children {_} _.

(** The nodes that were allocated so far have addresses below [next]. *)
Record heap (Value : Type) : Type := mkHeap { nodes : gmap loc (setNode Value); next : loc }.
Arguments mkHeap {_} _ _.
Arguments nodes {_} _.
Arguments next {_} _.

Abbreviation root := 0%nat (only parsing).

(** ** Programs *)

Definition prog (Value A : Type) : Type := heap Value → option (A * heap Value).

#[export] Instance prog_ret Value : MRet (prog Value) := λ A a h, Some (a, h).

#[export] Instance prog_bind Value : MBind (prog Value) := λ A B f m h,
  match m h with Some (a, h') => f a h' | None => None end.

(** The [copy] of Go into [dst[i:]]. *)
Definition copy_at {A} (dst : list A) (i : nat) (src : list A) : list A :=
  take i dst ++ take (length dst - i) src ++ drop (i + length src) dst.

(** The slice [l[i:j]]. *)
Definition slice {A} (l : list A) (i j : nat) : list A := take (j - i) (drop i l).

(** All entries from [i] on replaced by [f] of them. *)
Definition map_from {A} (f : A → A) (i : nat) (l : list A) : list A := take i l ++ (f <$> drop i l).

Section Programs.
Context {Value : Type}.
Implicit Types (nd : setNode Value) (n : loc).

Definition panic {A} : prog Value A := λ _, None.

Definition lift {A} (o : option A) : prog Value A := λ h, match o with Some a => Some (a, h) | None => None end.

Definition load n : prog Value (setNode Value) := λ h,
  match nodes h !! n with Some nd => Some (nd, h) | None => None end.

(** A store to an allocated node. *)
Definition modify n (f : setNode Value → setNode Value) : prog Value unit := λ h,
  match nodes h !! n with
  | Some nd => Some ((), mkHeap (<[n := f nd]> (nodes h)) (next h))
  | None => None
  end.

Definition alloc nd : prog Value loc := λ h, Some (next h, mkHeap (<[next h := nd]> (nodes h)) (S (next h))).

(** A bound on the number of steps of a walk along the tree. *)
Definition tree_fuel : prog Value nat := λ h, Some (next h, h).

Fixpoint for_range (i count : nat) (body : nat → prog Value unit) : prog Value unit :=
  match count with
  | O => mret ()
  | S count => _ ← body i; for_range (S i) count body
  end.

Definition set_nrSegments nd (k : nat) : setNode Value :=
  mkNode k (parent nd) (parentIndex nd) (hasChildren nd) (keys nd) (values nd) (children nd).

Definition set_parent nd (p : option loc) (i : nat) : setNode Value :=
  mkNode (nrSegments nd) p i (hasChildren nd) (keys nd) (values nd) (children nd).

Definition set_hasChildren nd (b : bool) : setNode Value :=
  mkNode (nrSegments nd) (parent nd) (parentIndex nd) b (keys nd) (values nd) (children nd).

Definition set_keys nd (ks : list Range) : setNode Value :=
  mkNode (nrSegments nd) (parent nd) (parentIndex nd) (hasChildren nd) ks (values nd) (children nd).

Definition set_values nd (vs : list Value) : setNode Value :=
  mkNode (nrSegments nd) (parent nd) (parentIndex nd) (hasChildren nd) (keys nd) vs (children nd).

Definition set_children nd (cs : list (option loc)) : setNode Value :=
  mkNode (nrSegments nd) (parent nd) (parentIndex nd) (hasChildren nd) (keys nd) (values nd) cs.

(** [n.children[i]], which is not nil. *)
Definition child n (i : nat) : prog Value loc :=
  nd ← load n; lift (c ← children nd !! i; c).

(** [n.children[i].parentIndex = i], and with [p] also [n.children[i].parent = p]. *)
Definition reindex n (i : nat) : prog Value unit :=
  c ← child n i; modify c (λ nd, set_parent nd (parent nd) i).

Definition reparent n (i : nat) : prog Value unit :=
  c ← child n i; modify c (λ nd, set_parent nd (Some n) i).
End Programs.

(** A pointer to a segment or to a gap: a node and an index.  [None] is a terminal iterator. *)
Abbreviation Iterator := (option (loc * nat)) (only parsing).
Abbreviation GapIterator := (option (loc * nat)) (only parsing).

Section Set_.
Context {Value : Type} `{Functions Value}.
Implicit Types (n p : loc) (seg gap : loc * nat) (r : Range) (val : Value).
Local Abbreviation program := (prog Value).

Definition maxDegree : nat := 2 * minDegree.

(** [&node{...}], with zero arrays. *)
Definition new_node (nr : nat) (par : option loc) (idx : nat) (hc : bool) : setNode Value :=
  mkNode nr par idx hc (replicate (maxDegree - 1) (mkRange 0 0)) (replicate (maxDegree - 1) zeroValue)
    (replicate maxDegree None).

(** The zero value of [Set]. *)
Definition empty_set : heap Value := mkHeap {[ root := new_node 0 None 0 false ]} 1.

(** ** Iterators *)

Definition seg_Range seg : program Range := nd ← load seg.1; lift (keys nd !! seg.2).

Definition seg_Start seg : program Z := r ← seg_Range seg; mret (r_Start r).

Definition seg_End seg : program Z := r ← seg_Range seg; mret (r_End r).

Definition seg_Value seg : program Value := nd ← load seg.1; lift (values nd !! seg.2).

Definition SetRangeUnchecked seg r : program unit :=
  _ ← seg_Range seg; modify seg.1 (λ nd, set_keys nd (<[seg.2 := r]> (keys nd))).

Definition SetStartUnchecked seg (start : Z) : program unit :=
  r ← seg_Range seg; SetRangeUnchecked seg (mkRange start (r_End r)).

Definition SetEndUnchecked seg (end_ : Z) : program unit :=
  r ← seg_Range seg; SetRangeUnchecked seg (mkRange (r_Start r) end_).

Definition SetValue seg val : program unit :=
  _ ← seg_Value seg; modify seg.1 (λ nd, set_values nd (<[seg.2 := val]> (values nd))).

Fixpoint first_segment (fuel : nat) n : program (loc * nat) :=
  match fuel with
  | O => panic
  | S fuel =>
      nd ← load n;
      if hasChildren nd then c ← child n 0; first_segment fuel c else mret (n, 0%nat)
  end.

Definition firstSegment n : program (loc * nat) := fuel ← tree_fuel; first_segment fuel n.

Fixpoint last_segment (fuel : nat) n : program (loc * nat) :=
  match fuel with
  | O => panic
  | S fuel =>
      nd ← load n;
      if hasChildren nd then c ← child n (nrSegments nd); last_segment fuel c
      else mret (n, (nrSegments nd - 1)%nat)
  end.

Definition lastSegment n : program (loc * nat) := fuel ← tree_fuel; last_segment fuel n.

Fixpoint before_position (fuel : nat) n (i : nat) : program Iterator :=
  match i, fuel with
  | S i, _ => mret (Some (n, i))
  | O, O => panic
  | O, S fuel =>
      nd ← load n;
      match parent nd with
      | None => mret None
      | Some p => before_position fuel p (parentIndex nd)
      end
  end.

Definition segmentBeforePosition n (i : nat) : program Iterator :=
  fuel ← tree_fuel; before_position fuel n i.

Fixpoint after_position (fuel : nat) n (i : nat) : program Iterator :=
  match fuel with
  | O => panic
  | S fuel =>
      nd ← load n;
      if (i =? nrSegments nd)%nat then
        match parent nd with
        | None => mret None
        | Some p => after_position fuel p (parentIndex nd)
        end
      else mret (Some (n, i))
  end.

Definition segmentAfterPosition n (i : nat) : program Iterator :=
  fuel ← tree_fuel; after_position fuel n i.

Definition PrevSegment seg : program Iterator :=
  nd ← load seg.1;
  if hasChildren nd then c ← child seg.1 seg.2; s ← lastSegment c; mret (Some s)
  else if (0 <? seg.2)%nat then mret (Some (seg.1, (seg.2 - 1)%nat))
  else
    match parent nd with
    | None => mret None
    | Some p => segmentBeforePosition p (parentIndex nd)
    end.

Definition NextSegment seg : program Iterator :=
  nd ← load seg.1;
  if hasChildren nd then c ← child seg.1 (seg.2 + 1); s ← firstSegment c; mret (Some s)
  else if (seg.2 + 1 <? nrSegments nd)%nat then mret (Some (seg.1, (seg.2 + 1)%nat))
  else
    match parent nd with
    | None => mret None
    | Some p => segmentAfterPosition p (parentIndex nd)
    end.

(** [PrevGap] and [NextGap] call each other, but only once. *)
Fixpoint adjacent_gap (fuel : nat) (after : bool) seg : program (loc * nat) :=
  match fuel with
  | O => panic
  | S fuel =>
      nd ← load seg.1;
      if after then
        if hasChildren nd then c ← child seg.1 (seg.2 + 1); s ← firstSegment c; adjacent_gap fuel false s
        else mret (seg.1, (seg.2 + 1)%nat)
      else
        if hasChildren nd then c ← child seg.1 seg.2; s ← lastSegment c; adjacent_gap fuel true s
        else mret seg
  end.

Definition PrevGap seg : program (loc * nat) := adjacent_gap 2 false seg.

Definition NextGap seg : program (loc * nat) := adjacent_gap 2 true seg.

(** Whether an optional segment satisfies a test. *)
Definition when (it : Iterator) (test : loc * nat → program bool) : program bool :=
  match it with None => mret false | Some seg => test seg end.

Definition SetRange seg r : program unit :=
  if Length r <=? 0 then panic
  else
    prev ← PrevSegment seg;
    overlaps ← when prev (λ prev, e ← seg_End prev; mret (r_Start r <? e));
    if (overlaps : bool) then panic
    else
      next ← NextSegment seg;
      overlaps ← when next (λ next, s ← seg_Start next; mret (s <? r_End r));
      if (overlaps : bool) then panic else SetRangeUnchecked seg r.

Definition SetStart seg (start : Z) : program unit :=
  e ← seg_End seg;
  if e <=? start then panic
  else
    prev ← PrevSegment seg;
    overlaps ← when prev (λ prev, e ← seg_End prev; mret (start <? e));
    if (overlaps : bool) then panic else SetStartUnchecked seg start.

Definition SetEnd seg (end_ : Z) : program unit :=
  s ← seg_Start seg;
  if end_ <=? s then panic
  else
    next ← NextSegment seg;
    overlaps ← when next (λ next, s ← seg_Start next; mret (s <? end_));
    if (overlaps : bool) then panic else SetEndUnchecked seg end_.

Definition PrevNonEmpty seg : program (Iterator * GapIterator) :=
  prev ← PrevSegment seg;
  adjacent ← when prev (λ prev, e ← seg_End prev; s ← seg_Start seg; mret (e =? s));
  if (adjacent : bool) then mret (prev, None) else gap ← PrevGap seg; mret (None, Some gap).

Definition NextNonEmpty seg : program (Iterator * GapIterator) :=
  next ← NextSegment seg;
  adjacent ← when next (λ next, s ← seg_Start next; e ← seg_End seg; mret (s =? e));
  if (adjacent : bool) then mret (next, None) else gap ← NextGap seg; mret (None, Some gap).

Definition gap_PrevSegment gap : program Iterator := segmentBeforePosition gap.1 gap.2.

Definition gap_NextSegment gap : program Iterator := segmentAfterPosition gap.1 gap.2.

Definition gap_Start gap : program Z :=
  ps ← gap_PrevSegment gap; match ps with Some ps => seg_End ps | None => mret MinKey end.

Definition gap_End gap : program Z :=
  ns ← gap_NextSegment gap; match ns with Some ns => seg_Start ns | None => mret MaxKey end.

Definition gap_Range gap : program Range := s ← gap_Start gap; e ← gap_End gap; mret (mkRange s e).

Definition gap_IsEmpty gap : program bool := r ← gap_Range gap; mret (Length r =? 0).

Definition gap_PrevGap gap : program GapIterator :=
  seg ← gap_PrevSegment gap;
  match seg with None => mret None | Some seg => g ← PrevGap seg; mret (Some g) end.

Definition gap_NextGap gap : program GapIterator :=
  seg ← gap_NextSegment gap;
  match seg with None => mret None | Some seg => g ← NextGap seg; mret (Some g) end.

(** ** Searching *)

Definition IsEmpty : program bool := nd ← load root; mret (nrSegments nd =? 0)%nat.

Definition FirstSegment : program Iterator :=
  nd ← load root; if (nrSegments nd =? 0)%nat then mret None else s ← firstSegment root; mret (Some s).

Definition LastSegment : program Iterator :=
  nd ← load root; if (nrSegments nd =? 0)%nat then mret None else s ← lastSegment root; mret (Some s).

Fixpoint first_gap (fuel : nat) n : program (loc * nat) :=
  match fuel with
  | O => panic
  | S fuel =>
      nd ← load n;
      if hasChildren nd then c ← child n 0; first_gap fuel c else mret (n, 0%nat)
  end.

Definition FirstGap : program (loc * nat) := fuel ← tree_fuel; first_gap fuel root.

Fixpoint last_gap (fuel : nat) n : program (loc * nat) :=
  match fuel with
  | O => panic
  | S fuel =>
      nd ← load n;
      if hasChildren nd then c ← child n (nrSegments nd); last_gap fuel c else mret (n, nrSegments nd)
  end.

Definition LastGap : program (loc * nat) := fuel ← tree_fuel; last_gap fuel root.

(** The binary search in a node: the segment with the key, or the place of the key. *)
Fixpoint search_keys (fuel : nat) (ks : list Range) (key : Z) (lower upper : nat) : option (bool * nat) :=
  if (lower <? upper)%nat then
    match fuel with
    | O => None
    | S fuel =>
        let i := (lower + (upper - lower) / 2)%nat in
        r ← ks !! i;
        if key <? r_End r then
          if r_Start r <=? key then Some (true, i) else search_keys fuel ks key lower i
        else search_keys fuel ks key (i + 1) upper
    end
  else Some (false, lower).

Fixpoint find_from (fuel : nat) n (key : Z) : program (Iterator * GapIterator) :=
  match fuel with
  | O => panic
  | S fuel =>
      nd ← load n;
      '(found, i) ← lift (search_keys (nrSegments nd) (keys nd) key 0 (nrSegments nd));
      if (found : bool) then mret (Some (n, i), None)
      else if negb (hasChildren nd) then mret (None, Some (n, i))
      else c ← child n i; find_from fuel c key
  end.

Definition Find (key : Z) : program (Iterator * GapIterator) := fuel ← tree_fuel; find_from fuel root key.

Definition FindSegment (key : Z) : program Iterator := '(seg, _) ← Find key; mret seg.

Definition FindGap (key : Z) : program GapIterator := '(_, gap) ← Find key; mret gap.

Definition LowerBoundSegment (min : Z) : program Iterator :=
  '(seg, gap) ← Find min;
  match seg with
  | Some seg => mret (Some seg)
  | None => gap ← lift gap; gap_NextSegment gap
  end.

Definition UpperBoundSegment (max : Z) : program Iterator :=
  '(seg, gap) ← Find max;
  match seg with
  | Some seg => mret (Some seg)
  | None => gap ← lift gap; gap_PrevSegment gap
  end.

Definition LowerBoundGap (min : Z) : program (loc * nat) :=
  '(seg, gap) ← Find min;
  match gap with
  | Some gap => mret gap
  | None => seg ← lift seg; NextGap seg
  end.

Definition UpperBoundGap (max : Z) : program (loc * nat) :=
  '(seg, gap) ← Find max;
  match gap with
  | Some gap => mret gap
  | None => seg ← lift seg; PrevGap seg
  end.

(** ** Rebalancing *)

(** [n] is a full root: its median segment stays, what is before and after it moves to two new
    children. *)
Definition split_root n : program (loc * loc) :=
  nd ← load n;
  left ← alloc (new_node (minDegree - 1) (Some n) 0 (hasChildren nd));
  right ← alloc (new_node (minDegree - 1) (Some n) 1 (hasChildren nd));
  _ ← modify left (λ l, set_keys l (copy_at (keys l) 0 (slice (keys nd) 0 (minDegree - 1))));
  _ ← modify left (λ l, set_values l (copy_at (values l) 0 (slice (values nd) 0 (minDegree - 1))));
  _ ← modify right (λ l, set_keys l (copy_at (keys l) 0 (slice (keys nd) minDegree (maxDegree - 1))));
  _ ← modify right (λ l, set_values l (copy_at (values l) 0 (slice (values nd) minDegree (maxDegree - 1))));
  k ← lift (keys nd !! (minDegree - 1)%nat);
  v ← lift (values nd !! (minDegree - 1)%nat);
  _ ← modify n (λ m, set_values (set_keys m (<[0%nat := k]> (keys m))) (<[0%nat := v]> (values m)));
  _ ← modify n (λ m, set_values m (map_from ClearValue 1 (values m)));
  _ ← (if hasChildren nd then
         _ ← modify left (λ l, set_children l (copy_at (children l) 0 (slice (children nd) 0 minDegree)));
         _ ← modify right (λ l, set_children l (copy_at (children l) 0 (slice (children nd) minDegree maxDegree)));
         _ ← modify n (λ m, set_children m (map_from (λ _, None) 2 (children m)));
         for_range 0 minDegree (λ i, _ ← reparent left i; reparent right i)
       else mret ());
  _ ← modify n (λ m, set_hasChildren (set_nrSegments m 1) true);
  _ ← modify n (λ m, set_children m (<[1%nat := Some right]> (<[0%nat := Some left]> (children m))));
  mret (left, right).

(** [n] is a full node with parent [p]: its median segment moves to [p], what is after it to a
    new sibling. *)
Definition split_node n p : program loc :=
  nd ← load n;
  let j := parentIndex nd in
  _ ← modify p (λ m, set_keys m (copy_at (keys m) (j + 1) (slice (keys m) j (nrSegments m))));
  _ ← modify p (λ m, set_values m (copy_at (values m) (j + 1) (slice (values m) j (nrSegments m))));
  k ← lift (keys nd !! (minDegree - 1)%nat);
  v ← lift (values nd !! (minDegree - 1)%nat);
  _ ← modify p (λ m, set_values (set_keys m (<[j := k]> (keys m))) (<[j := v]> (values m)));
  _ ← modify p (λ m, set_children m (copy_at (children m) (j + 2) (slice (children m) (j + 1) (nrSegments m + 1))));
  pd ← load p;
  _ ← for_range (j + 2) (nrSegments pd - j) (reindex p);
  sibling ← alloc (new_node (minDegree - 1) (Some p) (j + 1) (hasChildren nd));
  _ ← modify p (λ m, set_children m (<[(j + 1)%nat := Some sibling]> (children m)));
  _ ← modify p (λ m, set_nrSegments m (nrSegments m + 1));
  _ ← modify sibling (λ m, set_keys m (copy_at (keys m) 0 (slice (keys nd) minDegree (maxDegree - 1))));
  _ ← modify sibling (λ m, set_values m (copy_at (values m) 0 (slice (values nd) minDegree (maxDegree - 1))));
  _ ← modify n (λ m, set_values m (map_from ClearValue (minDegree - 1) (values m)));
  _ ← (if hasChildren nd then
         _ ← modify sibling (λ m, set_children m (copy_at (children m) 0 (slice (children nd) minDegree maxDegree)));
         _ ← modify n (λ m, set_children m (map_from (λ _, None) minDegree (children m)));
         for_range 0 minDegree (reparent sibling)
       else mret ());
  _ ← modify n (λ m, set_nrSegments m (minDegree - 1));
  mret sibling.

Fixpoint rebalance_before_insert (fuel : nat) n gap : program (loc * nat) :=
  match fuel with
  | O => panic
  | S fuel =>
      nd ← load n;
      if (nrSegments nd <? maxDegree - 1)%nat then mret gap
      else
        gap ← match parent nd with
              | Some p => rebalance_before_insert fuel p gap
              | None => mret gap
              end;
        nd ← load n;
        match parent nd with
        | None =>
            '(lc, rc) ← split_root n;
            if negb (gap.1 =? n)%nat then mret gap
            else if (gap.2 <? minDegree)%nat then mret (lc, gap.2)
            else mret (rc, (gap.2 - minDegree)%nat)
        | Some p =>
            sibling ← split_node n p;
            if negb (gap.1 =? n)%nat then mret gap
            else if (gap.2 <? minDegree)%nat then mret gap
            else mret (sibling, (gap.2 - minDegree)%nat)
        end
  end.

Definition rebalanceBeforeInsert n gap : program (loc * nat) :=
  fuel ← tree_fuel; rebalance_before_insert fuel n gap.

Definition prevSibling n : program (option loc) :=
  nd ← load n;
  match parent nd with
  | None => mret None
  | Some p => if (parentIndex nd =? 0)%nat then mret None else c ← child p (parentIndex nd - 1); mret (Some c)
  end.

Definition nextSibling n : program (option loc) :=
  nd ← load n;
  match parent nd with
  | None => mret None
  | Some p =>
      pd ← load p;
      if (parentIndex nd =? nrSegments pd)%nat then mret None
      else c ← child p (parentIndex nd + 1); mret (Some c)
  end.

(** The last segment of the left sibling goes to the parent, and the one that was there to [n]. *)
Definition rotate_from_prev n p sibling : program unit :=
  nd ← load n; pd ← load p; sd ← load sibling;
  let j := (parentIndex nd - 1)%nat in
  let last := (nrSegments sd - 1)%nat in
  _ ← modify n (λ m, set_keys m (copy_at (keys m) 1 (slice (keys m) 0 (nrSegments m))));
  _ ← modify n (λ m, set_values m (copy_at (values m) 1 (slice (values m) 0 (nrSegments m))));
  k ← lift (keys pd !! j);
  v ← lift (values pd !! j);
  _ ← modify n (λ m, set_values (set_keys m (<[0%nat := k]> (keys m))) (<[0%nat := v]> (values m)));
  k ← lift (keys sd !! last);
  v ← lift (values sd !! last);
  _ ← modify p (λ m, set_values (set_keys m (<[j := k]> (keys m))) (<[j := v]> (values m)));
  _ ← modify sibling (λ m, set_values m (<[last := ClearValue v]> (values m)));
  _ ← (if hasChildren nd then
         _ ← modify n (λ m, set_children m (copy_at (children m) 1 (slice (children m) 0 (nrSegments m + 1))));
         c ← child sibling (nrSegments sd);
         _ ← modify n (λ m, set_children m (<[0%nat := Some c]> (children m)));
         _ ← modify sibling (λ m, set_children m (<[nrSegments sd := None]> (children m)));
         _ ← reparent n 0;
         for_range 1 (nrSegments nd + 1) (reindex n)
       else mret ());
  _ ← modify n (λ m, set_nrSegments m (nrSegments m + 1));
  modify sibling (λ m, set_nrSegments m (nrSegments m - 1)).

(** The first segment of the right sibling goes to the parent, and the one that was there to [n]. *)
Definition rotate_from_next n p sibling : program unit :=
  nd ← load n; pd ← load p; sd ← load sibling;
  let j := parentIndex nd in
  let k := nrSegments nd in
  let s := nrSegments sd in
  key ← lift (keys pd !! j);
  v ← lift (values pd !! j);
  _ ← modify n (λ m, set_values (set_keys m (<[k := key]> (keys m))) (<[k := v]> (values m)));
  key ← lift (keys sd !! 0%nat);
  v ← lift (values sd !! 0%nat);
  _ ← modify p (λ m, set_values (set_keys m (<[j := key]> (keys m))) (<[j := v]> (values m)));
  _ ← modify sibling (λ m, set_keys m (copy_at (keys m) 0 (slice (keys m) 1 s)));
  _ ← modify sibling (λ m, set_values m (copy_at (values m) 0 (slice (values m) 1 s)));
  v ← lift (values sd !! (s - 1)%nat);
  _ ← modify sibling (λ m, set_values m (<[(s - 1)%nat := ClearValue v]> (values m)));
  _ ← (if hasChildren nd then
         c ← child sibling 0;
         _ ← modify n (λ m, set_children m (<[(k + 1)%nat := Some c]> (children m)));
         _ ← modify sibling (λ m, set_children m (copy_at (children m) 0 (slice (children m) 1 (s + 1))));
         _ ← modify sibling (λ m, set_children m (<[s := None]> (children m)));
         _ ← reparent n (k + 1);
         for_range 0 s (reindex sibling)
       else mret ());
  _ ← modify n (λ m, set_nrSegments m (nrSegments m + 1));
  modify sibling (λ m, set_nrSegments m (nrSegments m - 1)).

(** [p] is a root with one segment: it and both children are merged into [p]. *)
Definition unsplit_root p left right : program unit :=
  ld ← load left; rd ← load right;
  let k := nrSegments ld in
  let m := nrSegments rd in
  _ ← modify p (λ pd, set_hasChildren (set_nrSegments pd (k + m + 1)) (hasChildren ld));
  pd ← load p;
  key ← lift (keys pd !! 0%nat);
  v ← lift (values pd !! 0%nat);
  _ ← modify p (λ pd, set_values (set_keys pd (<[k := key]> (keys pd))) (<[k := v]> (values pd)));
  _ ← modify p (λ pd, set_keys pd (copy_at (keys pd) 0 (slice (keys ld) 0 k)));
  _ ← modify p (λ pd, set_values pd (copy_at (values pd) 0 (slice (values ld) 0 k)));
  _ ← modify p (λ pd, set_keys pd (copy_at (keys pd) (k + 1) (slice (keys rd) 0 m)));
  _ ← modify p (λ pd, set_values pd (copy_at (values pd) (k + 1) (slice (values rd) 0 m)));
  if hasChildren ld then
    _ ← modify p (λ pd, set_children pd (copy_at (children pd) 0 (slice (children ld) 0 (k + 1))));
    _ ← modify p (λ pd, set_children pd (copy_at (children pd) (k + 1) (slice (children rd) 0 (m + 1))));
    for_range 0 (k + m + 2) (reparent p)
  else modify p (λ pd, set_children pd (<[1%nat := None]> (<[0%nat := None]> (children pd)))).

(** [right] and the segment between it and [left] are merged into [left]. *)
Definition unsplit_node p left right : program unit :=
  ld ← load left; rd ← load right; pd ← load p;
  let j := parentIndex ld in
  let k := nrSegments ld in
  let m := nrSegments rd in
  key ← lift (keys pd !! j);
  v ← lift (values pd !! j);
  _ ← modify left (λ l, set_values (set_keys l (<[k := key]> (keys l))) (<[k := v]> (values l)));
  _ ← modify left (λ l, set_keys l (copy_at (keys l) (k + 1) (slice (keys rd) 0 m)));
  _ ← modify left (λ l, set_values l (copy_at (values l) (k + 1) (slice (values rd) 0 m)));
  _ ← (if hasChildren ld then
         _ ← modify left (λ l, set_children l (copy_at (children l) (k + 1) (slice (children rd) 0 (m + 1))));
         for_range (k + 1) (m + 1) (reparent left)
       else mret ());
  _ ← modify left (λ l, set_nrSegments l (nrSegments l + (m + 1)));
  _ ← modify p (λ q, set_keys q (copy_at (keys q) j (slice (keys q) (j + 1) (nrSegments q))));
  _ ← modify p (λ q, set_values q (copy_at (values q) j (slice (values q) (j + 1) (nrSegments q))));
  v ← lift (values pd !! (nrSegments pd - 1)%nat);
  _ ← modify p (λ q, set_values q (<[(nrSegments pd - 1)%nat := ClearValue v]> (values q)));
  _ ← modify p (λ q, set_children q (copy_at (children q) (j + 1) (slice (children q) (j + 2) (nrSegments q + 1))));
  _ ← for_range 0 (nrSegments pd) (reindex p);
  _ ← modify p (λ q, set_children q (<[nrSegments q := None]> (children q)));
  modify p (λ q, set_nrSegments q (nrSegments q - 1)).

Fixpoint rebalance_after_remove (fuel : nat) n gap : program (loc * nat) :=
  match fuel with
  | O => panic
  | S fuel =>
      nd ← load n;
      if (minDegree - 1 <=? nrSegments nd)%nat then mret gap
      else
        match parent nd with
        | None => mret gap
        | Some p =>
            prev ← prevSibling n;
            prev ← match prev with
                   | None => mret None
                   | Some s => sd ← load s; mret (if (minDegree <=? nrSegments sd)%nat then Some s else None)
                   end;
            match prev with
            | Some sibling =>
                _ ← rotate_from_prev n p sibling;
                sd ← load sibling;
                if (gap.1 =? sibling)%nat && (gap.2 =? nrSegments sd)%nat then mret (n, 0%nat)
                else if (gap.1 =? n)%nat then mret (n, (gap.2 + 1)%nat)
                else mret gap
            | None =>
                next ← nextSibling n;
                next ← match next with
                       | None => mret None
                       | Some s => sd ← load s; mret (if (minDegree <=? nrSegments sd)%nat then Some s else None)
                       end;
                match next with
                | Some sibling =>
                    _ ← rotate_from_next n p sibling;
                    nd ← load n;
                    if (gap.1 =? sibling)%nat then
                      if (gap.2 =? 0)%nat then mret (n, nrSegments nd) else mret (sibling, (gap.2 - 1)%nat)
                    else mret gap
                | None =>
                    pd ← load p;
                    if (nrSegments pd =? 1)%nat then
                      left ← child p 0; right ← child p 1;
                      ld ← load left;
                      _ ← unsplit_root p left right;
                      if (gap.1 =? left)%nat then mret (p, gap.2)
                      else if (gap.1 =? right)%nat then mret (p, (gap.2 + nrSegments ld + 1)%nat)
                      else mret gap
                    else
                      '(lc, rc) ← (if (0 <? parentIndex nd)%nat
                                   then s ← prevSibling n; s ← lift s; mret (s, n)
                                   else s ← nextSibling n; s ← lift s; mret (n, s));
                      ld ← load lc;
                      let gap := if (gap.1 =? rc)%nat then (lc, (gap.2 + nrSegments ld + 1)%nat) else gap in
                      _ ← unsplit_node p lc rc;
                      rebalance_after_remove fuel p gap
                end
            end
        end
  end.

Definition rebalanceAfterRemove n gap : program (loc * nat) :=
  fuel ← tree_fuel; rebalance_after_remove fuel n gap.

(** ** Insertion and removal *)

Definition InsertWithoutMergingUnchecked gap r val : program (loc * nat) :=
  gap ← rebalanceBeforeInsert gap.1 gap;
  let '(n, i) := gap in
  _ ← modify n (λ nd, set_keys nd (copy_at (keys nd) (i + 1) (slice (keys nd) i (nrSegments nd))));
  _ ← modify n (λ nd, set_values nd (copy_at (values nd) (i + 1) (slice (values nd) i (nrSegments nd))));
  _ ← SetRangeUnchecked gap r;
  _ ← SetValue gap val;
  _ ← modify n (λ nd, set_nrSegments nd (nrSegments nd + 1));
  mret gap.

(** The recursive call is on a segment of a leaf. *)
Fixpoint remove_seg (fuel : nat) seg : program (loc * nat) :=
  match fuel with
  | O => panic
  | S fuel =>
      let '(n, i) := seg in
      nd ← load n;
      if hasChildren nd then
        victim ← PrevSegment seg;
        victim ← lift victim;
        r ← seg_Range victim;
        _ ← SetRangeUnchecked seg r;
        v ← seg_Value victim;
        _ ← SetValue seg v;
        _ ← NextSegment seg;
        gap ← remove_seg fuel victim;
        g ← gap_NextGap gap;
        lift g
      else
        _ ← modify n (λ nd, set_keys nd (copy_at (keys nd) i (slice (keys nd) (i + 1) (nrSegments nd))));
        _ ← modify n (λ nd, set_values nd (copy_at (values nd) i (slice (values nd) (i + 1) (nrSegments nd))));
        v ← seg_Value (n, (nrSegments nd - 1)%nat);
        _ ← SetValue (n, (nrSegments nd - 1)%nat) (ClearValue v);
        _ ← modify n (λ nd, set_nrSegments nd (nrSegments nd - 1));
        rebalanceAfterRemove n seg
  end.

Definition Set_Remove seg : program (loc * nat) := remove_seg 2 seg.

Definition RemoveAll : program unit := modify root (λ _, new_node 0 None 0 false).

(** [prev] was extended by [r] and has the value [mval]: merge it with [next] if possible. *)
Definition extend_next prev mval r (next : Iterator) : program (loc * nat) :=
  match next with
  | None => mret prev
  | Some next =>
      nr ← seg_Range next;
      if r_Start nr =? r_End r then
        pr ← seg_Range prev;
        nv ← seg_Value next;
        match MergeValues pr mval nr nv with
        | Some mval =>
            _ ← SetEndUnchecked prev (r_End nr);
            _ ← SetValue prev mval;
            gap ← Set_Remove next;
            seg ← gap_PrevSegment gap;
            lift seg
        | None => mret prev
        end
      else mret prev
  end.

(** The new segment is not merged with the one before it. *)
Definition insert_next gap r val (next : Iterator) : program (loc * nat) :=
  mnext ← match next with
          | None => mret None
          | Some next =>
              nr ← seg_Range next;
              if r_Start nr =? r_End r then
                nv ← seg_Value next;
                mret (mval ← MergeValues r val nr nv; Some (next, mval))
              else mret None
          end;
  match mnext with
  | Some (next, mval) =>
      _ ← SetStartUnchecked next (r_Start r);
      _ ← SetValue next mval;
      mret next
  | None => InsertWithoutMergingUnchecked gap r val
  end.

Definition Insert gap r val : program (loc * nat) :=
  if Length r <=? 0 then panic
  else
    prev ← gap_PrevSegment gap;
    next ← gap_NextSegment gap;
    overlaps ← when prev (λ prev, e ← seg_End prev; mret (r_Start r <? e));
    if (overlaps : bool) then panic
    else
      overlaps ← when next (λ next, s ← seg_Start next; mret (s <? r_End r));
      if (overlaps : bool) then panic
      else
        mprev ← match prev with
                | None => mret None
                | Some prev =>
                    pr ← seg_Range prev;
                    if r_End pr =? r_Start r then
                      pv ← seg_Value prev;
                      mret (mval ← MergeValues pr pv r val; Some (prev, mval))
                    else mret None
                end;
        match mprev with
        | Some (prev, mval) =>
            _ ← SetEndUnchecked prev (r_End r);
            _ ← SetValue prev mval;
            extend_next prev mval r next
        | None => insert_next gap r val next
        end.

Definition InsertWithoutMerging gap r val : program (loc * nat) :=
  if Length r <=? 0 then panic
  else
    gr ← gap_Range gap;
    if negb (IsSupersetOf gr r) then panic else InsertWithoutMergingUnchecked gap r val.

Definition InsertRange r val : program (loc * nat) :=
  if Length r <=? 0 then panic
  else
    '(seg, gap) ← Find (r_Start r);
    match seg with
    | Some _ => panic
    | None =>
        gap ← lift gap;
        e ← gap_End gap;
        if e <? r_End r then panic else Insert gap r val
    end.

Definition InsertWithoutMergingRange r val : program (loc * nat) :=
  if Length r <=? 0 then panic
  else
    '(seg, gap) ← Find (r_Start r);
    match seg with
    | Some _ => panic
    | None =>
        gap ← lift gap;
        e ← gap_End gap;
        if e <? r_End r then panic else InsertWithoutMerging gap r val
    end.

Definition TryInsertRange r val : program Iterator :=
  if Length r <=? 0 then panic
  else
    '(seg, gap) ← Find (r_Start r);
    match seg with
    | Some _ => mret None
    | None =>
        gap ← lift gap;
        e ← gap_End gap;
        if e <? r_End r then mret None else s ← Insert gap r val; mret (Some s)
    end.

Definition TryInsertWithoutMergingRange r val : program Iterator :=
  if Length r <=? 0 then panic
  else
    '(seg, gap) ← Find (r_Start r);
    match seg with
    | Some _ => mret None
    | None =>
        gap ← lift gap;
        e ← gap_End gap;
        if e <? r_End r then mret None else s ← InsertWithoutMerging gap r val; mret (Some s)
    end.

(** ** Merging and splitting *)

Definition MergeUnchecked first second : program Iterator :=
  r1 ← seg_Range first;
  r2 ← seg_Range second;
  if r_End r1 =? r_Start r2 then
    v1 ← seg_Value first;
    v2 ← seg_Value second;
    match MergeValues r1 v1 r2 v2 with
    | Some mval =>
        _ ← SetEndUnchecked first (r_End r2);
        _ ← SetValue first mval;
        gap ← Set_Remove second;
        gap_PrevSegment gap
    | None => mret None
    end
  else mret None.

Definition Set_Merge first second : program Iterator :=
  next ← NextSegment first;
  if decide (next = Some second) then MergeUnchecked first second else panic.

(** [seg], or the merged segment if there is one. *)
Definition MergePrev seg : program (loc * nat) :=
  prev ← PrevSegment seg;
  match prev with
  | None => mret seg
  | Some prev => mseg ← MergeUnchecked prev seg; mret (default seg mseg)
  end.

Definition MergeNext seg : program (loc * nat) :=
  next ← NextSegment seg;
  match next with
  | None => mret seg
  | Some next => mseg ← MergeUnchecked seg next; mret (default seg mseg)
  end.

Definition Unisolate seg : program (loc * nat) := seg ← MergePrev seg; MergeNext seg.

(** More than the number of segments. *)
Definition set_fuel : program nat := λ h, Some ((next h * maxDegree)%nat, h).

Fixpoint merge_all (fuel : nat) seg (next : Iterator) : program unit :=
  match fuel with
  | O => panic
  | S fuel =>
      match next with
      | None => mret ()
      | Some next =>
          mseg ← MergeUnchecked seg next;
          match mseg with
          | Some mseg => next ← NextSegment mseg; merge_all fuel mseg next
          | None => next' ← NextSegment next; merge_all fuel next next'
          end
      end
  end.

Definition MergeAll : program unit :=
  seg ← FirstSegment;
  match seg with
  | None => mret ()
  | Some seg => next ← NextSegment seg; fuel ← set_fuel; merge_all fuel seg next
  end.

Fixpoint merge_inside (fuel : nat) (end_ : Z) seg (next : Iterator) : program unit :=
  match fuel with
  | O => panic
  | S fuel =>
      inside ← when next (λ next, s ← seg_Start next; mret (s <? end_));
      if (inside : bool) then
        next ← lift next;
        mseg ← MergeUnchecked seg next;
        match mseg with
        | Some mseg => next ← NextSegment mseg; merge_inside fuel end_ mseg next
        | None => next' ← NextSegment next; merge_inside fuel end_ next next'
        end
      else mret ()
  end.

Definition MergeInsideRange r : program unit :=
  seg ← LowerBoundSegment (r_Start r);
  match seg with
  | None => mret ()
  | Some seg => next ← NextSegment seg; fuel ← set_fuel; merge_inside fuel (r_End r) seg next
  end.

Definition MergeOutsideRange r : program unit :=
  first ← FindSegment (r_Start r);
  _ ← match first with
      | None => mret ()
      | Some first =>
          prev ← PrevSegment first;
          match prev with None => mret () | Some prev => _ ← Set_Merge prev first; mret () end
      end;
  last ← FindSegment (key_arith (r_End r - 1));
  match last with
  | None => mret ()
  | Some last =>
      next ← NextSegment last;
      match next with None => mret () | Some next => _ ← Set_Merge last next; mret () end
  end.

Definition SplitUnchecked seg (split : Z) : program ((loc * nat) * (loc * nat)) :=
  r ← seg_Range seg;
  v ← seg_Value seg;
  let '(val1, val2) := SplitValue r v split in
  _ ← SetEndUnchecked seg split;
  _ ← SetValue seg val1;
  gap ← NextGap seg;
  seg2 ← InsertWithoutMergingUnchecked gap (mkRange split (r_End r)) val2;
  seg1 ← PrevSegment seg2;
  seg1 ← lift seg1;
  mret (seg1, seg2).

Definition Split seg (split : Z) : program ((loc * nat) * (loc * nat)) :=
  r ← seg_Range seg;
  if negb (CanSplitAt r split) then panic else SplitUnchecked seg split.

Definition SplitBefore seg (start : Z) : program (loc * nat) :=
  r ← seg_Range seg;
  if CanSplitAt r start then '(_, s) ← SplitUnchecked seg start; mret s else mret seg.

Definition SplitAfter seg (end_ : Z) : program (loc * nat) :=
  r ← seg_Range seg;
  if CanSplitAt r end_ then '(s, _) ← SplitUnchecked seg end_; mret s else mret seg.

Definition Isolate seg r : program (loc * nat) := seg ← SplitBefore seg (r_Start r); SplitAfter seg (r_End r).

Definition LowerBoundSegmentSplitBefore (min : Z) : program Iterator :=
  '(seg, gap) ← Find min;
  match seg with
  | Some seg => s ← SplitBefore seg min; mret (Some s)
  | None => gap ← lift gap; gap_NextSegment gap
  end.

Definition UpperBoundSegmentSplitAfter (max : Z) : program Iterator :=
  '(seg, gap) ← Find max;
  match seg with
  | Some seg => s ← SplitAfter seg max; mret (Some s)
  | None => gap ← lift gap; gap_PrevSegment gap
  end.

(** ** Ranges of segments *)

(** The loop of [RemoveRangeWith]; [f] is applied to each segment before it is removed. *)
Fixpoint remove_loop (fuel : nat) (f : loc * nat → program unit) (end_ : Z) gap : program (loc * nat) :=
  match fuel with
  | O => panic
  | S fuel =>
      seg ← gap_NextSegment gap;
      inside ← when seg (λ seg, s ← seg_Start seg; mret (s <? end_));
      if (inside : bool) then
        seg ← lift seg;
        seg ← SplitAfter seg end_;
        _ ← f seg;
        gap ← Set_Remove seg;
        remove_loop fuel f end_ gap
      else mret gap
  end.

Definition RemoveRangeWith r (f : loc * nat → program unit) : program (loc * nat) :=
  '(seg, gap) ← Find (r_Start r);
  gap ← match seg with
        | Some seg => seg ← Isolate seg r; _ ← f seg; Set_Remove seg
        | None => lift gap
        end;
  fuel ← set_fuel;
  remove_loop fuel f (r_End r) gap.

Definition RemoveRange r : program (loc * nat) := RemoveRangeWith r (λ _, mret ()).

(** The loop of [RemoveFullRangeWith]. *)
Fixpoint remove_full_loop (fuel : nat) (f : loc * nat → program unit) (end_ : Z) seg : program (loc * nat) :=
  match fuel with
  | O => panic
  | S fuel =>
      seg ← SplitAfter seg end_;
      _ ← f seg;
      e ← seg_End seg;
      gap ← Set_Remove seg;
      if end_ <=? e then mret gap
      else
        seg ← gap_NextSegment gap;
        seg ← lift seg;
        s ← seg_Start seg;
        if negb (s =? e) then panic else remove_full_loop fuel f end_ seg
  end.

Definition RemoveFullRangeWith r (f : loc * nat → program unit) : program (loc * nat) :=
  seg ← FindSegment (r_Start r);
  seg ← lift seg;
  seg ← SplitBefore seg (r_Start r);
  fuel ← set_fuel;
  remove_full_loop fuel f (r_End r) seg.

Definition RemoveFullRange r : program (loc * nat) := RemoveFullRangeWith r (λ _, mret ()).

Fixpoint visit_loop (fuel : nat) (end_ : Z) (f : loc * nat → program bool) (seg : Iterator) : program unit :=
  match fuel with
  | O => panic
  | S fuel =>
      inside ← when seg (λ seg, s ← seg_Start seg; mret (s <? end_));
      if (inside : bool) then
        seg ← lift seg;
        continue ← f seg;
        if (continue : bool) then next ← NextSegment seg; visit_loop fuel end_ f next else mret ()
      else mret ()
  end.

Definition VisitRange r (f : loc * nat → program bool) : program unit :=
  seg ← LowerBoundSegment (r_Start r);
  fuel ← set_fuel;
  visit_loop fuel (r_End r) f seg.

Fixpoint visit_full_loop (fuel : nat) (end_ : Z) (f : loc * nat → program bool) (seg : Iterator) : program unit :=
  match fuel with
  | O => panic
  | S fuel =>
      seg ← lift seg;
      continue ← f seg;
      if negb continue then mret ()
      else
        pos ← seg_End seg;
        if end_ <=? pos then mret ()
        else '(seg, _) ← NextNonEmpty seg; visit_full_loop fuel end_ f seg
  end.

Definition VisitFullRange r (f : loc * nat → program bool) : program unit :=
  seg ← FindSegment (r_Start r);
  fuel ← set_fuel;
  visit_full_loop fuel (r_End r) f seg.

Fixpoint mutate_loop (fuel : nat) (end_ : Z) (f : loc * nat → program bool) (seg : Iterator) : program unit :=
  match fuel with
  | O => panic
  | S fuel =>
      inside ← when seg (λ seg, s ← seg_Start seg; mret (s <? end_));
      if (inside : bool) then
        seg ← lift seg;
        seg ← SplitAfter seg end_;
        cont ← f seg;
        seg ← MergePrev seg;
        if negb cont then _ ← MergeNext seg; mret ()
        else next ← NextSegment seg; mutate_loop fuel end_ f next
      else match seg with Some seg => _ ← MergePrev seg; mret () | None => mret () end
  end.

Definition MutateRange r (f : loc * nat → program bool) : program unit :=
  seg ← LowerBoundSegmentSplitBefore (r_Start r);
  fuel ← set_fuel;
  mutate_loop fuel (r_End r) f seg.

Fixpoint mutate_full_loop (fuel : nat) (end_ : Z) (f : loc * nat → program bool) seg : program unit :=
  match fuel with
  | O => panic
  | S fuel =>
      seg ← SplitAfter seg end_;
      cont ← f seg;
      e ← seg_End seg;
      seg ← MergePrev seg;
      if negb cont || (end_ <=? e) then _ ← MergeNext seg; mret ()
      else
        seg ← NextSegment seg;
        seg ← lift seg;
        s ← seg_Start seg;
        if negb (s =? e) then panic else mutate_full_loop fuel end_ f seg
  end.

Definition MutateFullRange r (f : loc * nat → program bool) : program unit :=
  seg ← FindSegment (r_Start r);
  seg ← lift seg;
  seg ← SplitBefore seg (r_Start r);
  fuel ← set_fuel;
  mutate_full_loop fuel (r_End r) f seg.

Fixpoint whole_span_loop (fuel : nat) (sz : Z) (seg : Iterator) : program Z :=
  match fuel with
  | O => panic
  | S fuel =>
      match seg with
      | None => mret sz
      | Some seg =>
          r ← seg_Range seg;
          next ← NextSegment seg;
          whole_span_loop fuel (key_arith (sz + Length r)) next
      end
  end.

Definition Span : program Z := seg ← FirstSegment; fuel ← set_fuel; whole_span_loop fuel 0 seg.

Fixpoint span_loop (fuel : nat) r (sz : Z) (seg : Iterator) : program Z :=
  match fuel with
  | O => panic
  | S fuel =>
      inside ← when seg (λ seg, s ← seg_Start seg; mret (s <? r_End r));
      if (inside : bool) then
        seg ← lift seg;
        sr ← seg_Range seg;
        next ← NextSegment seg;
        span_loop fuel r (key_arith (sz + Length (Intersect sr r))) next
      else mret sz
  end.

Definition SpanRange r : program Z :=
  if Length r <? 0 then panic
  else if Length r =? 0 then mret 0
  else
    seg ← LowerBoundSegment (r_Start r);
    fuel ← set_fuel;
    span_loop fuel r 0 seg.

Definition IsEmptyRange r : program bool :=
  if Length r <? 0 then panic
  else if Length r =? 0 then mret true
  else
    '(_, gap) ← Find (r_Start r);
    match gap with
    | None => mret false
    | Some gap => e ← gap_End gap; mret (r_End r <=? e)
    end.

Fixpoint export_loop (fuel : nat) (seg : Iterator) : program (list (Range * Value)) :=
  match fuel with
  | O => panic
  | S fuel =>
      match seg with
      | None => mret []
      | Some seg =>
          r ← seg_Range seg;
          v ← seg_Value seg;
          next ← NextSegment seg;
          fs ← export_loop fuel next;
          mret ((r, v) :: fs)
      end
  end.

Definition ExportSlice : program (list (Range * Value)) :=
  seg ← FirstSegment; fuel ← set_fuel; export_loop fuel seg.

(** [false] for an error. *)
Fixpoint import_loop gap (fs : list (Range * Value)) : program bool :=
  match fs with
  | [] => mret true
  | (r, v) :: fs =>
      gr ← gap_Range gap;
      if negb (IsSupersetOf gr r) then mret false
      else seg ← InsertWithoutMerging gap r v; gap ← NextGap seg; import_loop gap fs
  end.

Definition ImportSlice (fs : list (Range * Value)) : program bool :=
  empty ← IsEmpty;
  if negb empty then mret false else gap ← FirstGap; import_loop gap fs.
End Set_.

Arguments maxDegree : simpl never.
