(* ===== verification/SegHeap.v ===== *)
(** * Programs on the nodes of a segment set

    Total correctness of programs on heaps ([wp]), and the arrays of nodes as lists. *)

From stdpp Require Import base numbers decidable gmap list.
From S2P Require Import SegSet Prelude.

(** ** Arrays *)

(** An array with [cap] entries that begins with [xs]. *)
Definition arr {A} (cap : nat) (a xs : list A) : Prop := length a = cap ∧ ∃ rest, a = xs ++ rest.

Section Arrays.
Context {A : Type}.
Implicit Types (a xs ys : list A) (x y : A).

Lemma arr_length cap a xs : arr cap a xs → length xs ≤ cap.
Proof. intros [<- [rest ->]]. rewrite length_app. lia. Qed.

Lemma arr_lookup cap a xs i x : arr cap a xs → xs !! i = Some x → a !! i = Some x.
Proof. intros [_ [rest ->]] Hx. by apply lookup_app_l_Some. Qed.

Lemma arr_is_Some cap a xs i : arr cap a xs → i < cap → is_Some (a !! i).
Proof. intros [<- _]. apply lookup_lt_is_Some. Qed.

Lemma arr_nil cap a : length a = cap → arr cap a [].
Proof. intros Ha. split; [done|by exists a]. Qed.

Lemma slice_app xs ys zs : slice (xs ++ ys ++ zs) (length xs) (length xs + length ys) = ys.
Proof. unfold slice. rewrite drop_app_length, Nat.add_comm, Nat.add_sub. apply take_app_length. Qed.

(** A slice within the part that matters. *)
Lemma arr_slice cap a xs ys zs i j :
  arr cap a (xs ++ ys ++ zs) → i = length xs → j = length xs + length ys → slice a i j = ys.
Proof. intros [_ [rest ->]] -> ->. rewrite <- !(assoc_L (++)). apply slice_app. Qed.

Lemma copy_at_app xs ys zs src :
  length src = length ys → copy_at (xs ++ ys ++ zs) (length xs) src = xs ++ src ++ zs.
Proof.
  intros E. unfold copy_at. rewrite take_app_length. f_equal. rewrite E, !length_app.
  replace (length xs + (length ys + length zs) - length xs) with (length ys + length zs) by lia.
  f_equal; [apply take_ge; lia|].
  rewrite (assoc_L (++)), <- length_app. apply drop_app_length.
Qed.

(** Copying behind a prefix of what matters. *)
Lemma arr_copy cap a xs ys i src :
  arr cap a (xs ++ ys) → i = length xs → length xs + length src ≤ cap → arr cap (copy_at a i src) (xs ++ src).
Proof.
  intros [Hc [rest Ea]] -> Hle. rewrite <- (assoc_L (++)) in Ea.
  assert (E : a = xs ++ take (length src) (ys ++ rest) ++ drop (length src) (ys ++ rest)) by (by rewrite take_drop).
  assert (Hl : length src ≤ length (ys ++ rest)).
  { rewrite Ea in Hc. rewrite length_app in Hc. lia. }
  rewrite E. rewrite copy_at_app by (rewrite length_take; lia).
  split; [|by eexists; rewrite <- (assoc_L (++))].
  rewrite <- Hc, Ea, !length_app, length_drop, length_app. rewrite length_app in Hl. lia.
Qed.

(** Only a suffix of what matters is copied over. *)
Lemma arr_copy_mid cap a xs ys zs i src :
  arr cap a (xs ++ ys ++ zs) → i = length xs → length src = length ys → arr cap (copy_at a i src) (xs ++ src ++ zs).
Proof.
  intros [Hc [rest Ea]] -> Hs. rewrite <- !(assoc_L (++)) in Ea.
  rewrite Ea, copy_at_app by done. split; [|by eexists; rewrite <- !(assoc_L (++))].
  rewrite <- Hc, Ea, !length_app. lia.
Qed.

Lemma arr_set cap a xs i x : arr cap a xs → i < length xs → arr cap (<[i := x]> a) (<[i := x]> xs).
Proof.
  intros [Hc [rest ->]] Hi. split; [by rewrite length_insert|]. exists rest. by rewrite insert_app_l.
Qed.

(** A store right behind, or further behind, what matters. *)
Lemma arr_snoc cap a xs i x : arr cap a xs → i = length xs → i < cap → arr cap (<[i := x]> a) (xs ++ [x]).
Proof.
  intros [Hc [rest ->]] -> Hi. split; [by rewrite length_insert|]. rewrite length_app in Hc.
  destruct rest as [|y rest]; [simpl in Hc; lia|]. exists rest.
  rewrite insert_app_r_alt by lia. rewrite Nat.sub_diag. simpl. by rewrite <- (assoc_L (++)).
Qed.

Lemma arr_dead cap a xs i x : arr cap a xs → length xs ≤ i → arr cap (<[i := x]> a) xs.
Proof.
  intros [Hc [rest ->]] Hi. split; [by rewrite length_insert|]. exists (<[i - length xs := x]> rest).
  by rewrite insert_app_r_alt.
Qed.

Lemma arr_prefix cap a xs ys : arr cap a (xs ++ ys) → arr cap a xs.
Proof. intros [Hc [rest ->]]. split; [done|]. exists (ys ++ rest). by rewrite <- (assoc_L (++)). Qed.

Lemma arr_map_from cap a xs ys f i : arr cap a (xs ++ ys) → length xs ≤ i → arr cap (map_from f i a) xs.
Proof.
  intros [Hc [rest ->]] Hi. rewrite <- (assoc_L (++)) in *. split.
  - unfold map_from. rewrite length_app, length_fmap, <- length_app, take_drop. done.
  - unfold map_from. rewrite take_app_ge by done. eexists. by rewrite <- (assoc_L (++)).
Qed.

(** Insertion: the rest moves up by one, and then the entry is stored. *)
Lemma arr_shift cap a xs ys i n :
  arr cap a (xs ++ ys) → i = length xs → n = length (xs ++ ys) → n < cap →
  ∃ y, arr cap (copy_at a (i + 1) (slice a i n)) (xs ++ y :: ys).
Proof.
  intros Ha -> -> Hn. rewrite length_app in Hn.
  rewrite (arr_slice cap a xs ys []); [|by rewrite app_nil_r|done|by rewrite length_app].
  destruct Ha as [Hc [rest Ea]]. rewrite <- (assoc_L (++)) in Ea.
  assert (∃ y zs, ys ++ rest = y :: zs) as (y & zs & E).
  { destruct (ys ++ rest) as [|y zs] eqn:E; [|by eexists _, _].
    rewrite Ea, app_nil_r in Hc. lia. }
  assert (H1 : arr cap a ((xs ++ [y]) ++ [])).
  { rewrite app_nil_r. split; [done|]. exists zs. by rewrite Ea, E, <- (assoc_L (++)). }
  exists y. apply (arr_copy _ _ _ _ (length xs + 1) ys) in H1; [|by rewrite length_app|rewrite length_app; simpl; lia].
  by rewrite <- (assoc_L (++)) in H1.
Qed.

Lemma arr_set_mid cap a xs x y ys i : arr cap a (xs ++ y :: ys) → i = length xs → arr cap (<[i := x]> a) (xs ++ x :: ys).
Proof.
  intros Ha ->. apply (arr_set _ _ _ (length xs) x) in Ha; [|rewrite length_app; simpl; lia].
  by rewrite insert_app_r_alt, Nat.sub_diag in Ha by done.
Qed.

Lemma arr_insert cap a xs ys i n x :
  arr cap a (xs ++ ys) → i = length xs → n = length (xs ++ ys) → n < cap →
  arr cap (<[i := x]> (copy_at a (i + 1) (slice a i n))) (xs ++ x :: ys).
Proof. intros Ha Hi Hn Hc. destruct (arr_shift _ _ _ _ _ _ Ha Hi Hn Hc) as [y H]. by eapply arr_set_mid. Qed.

(** Deletion: the rest moves down by one. *)
Lemma arr_delete cap a xs x ys i n :
  arr cap a (xs ++ x :: ys) → i = length xs → n = length (xs ++ x :: ys) →
  arr cap (copy_at a i (slice a (i + 1) n)) (xs ++ ys).
Proof.
  intros Ha -> ->. assert (Hn := arr_length _ _ _ Ha). rewrite length_app in Hn. simpl in Hn.
  rewrite (arr_slice cap a (xs ++ [x]) ys []).
  - eapply arr_copy; [exact Ha|done|lia].
  - by rewrite app_nil_r, <- (assoc_L (++)).
  - by rewrite length_app.
  - rewrite !length_app. simpl. lia.
Qed.

(** Both at the front. *)
Lemma arr_push cap a ys n x :
  arr cap a ys → n = length ys → n < cap → arr cap (<[0 := x]> (copy_at a 1 (slice a 0 n))) (x :: ys).
Proof. intros Ha Hn Hc. exact (arr_insert cap a [] ys 0 n x Ha eq_refl Hn Hc). Qed.

Lemma arr_pop cap a x ys n : arr cap a (x :: ys) → n = S (length ys) → arr cap (copy_at a 0 (slice a 1 n)) ys.
Proof. intros Ha Hn. exact (arr_delete cap a [] x ys 0 n Ha eq_refl Hn). Qed.

(** An entry with copies of two lists around it, and two copies next to each other. *)
Lemma arr_merge cap a xs x ys k :
  length a = cap → k = length xs → length xs + 1 + length ys ≤ cap →
  arr cap (copy_at (copy_at (<[k := x]> a) 0 xs) (k + 1) ys) (xs ++ x :: ys).
Proof.
  intros Ha -> Hle. assert (H1 : arr cap (<[length xs := x]> a) ([] ++ take (length xs) a ++ [x])).
  { split; [by rewrite length_insert|]. exists (drop (S (length xs)) a). rewrite insert_take_drop by lia.
    simpl. by rewrite <- (assoc_L (++)). }
  apply (arr_copy_mid _ _ _ _ _ 0 xs) in H1; [|done|rewrite length_take; lia]. simpl in H1.
  rewrite <- (app_nil_r (xs ++ [x])) in H1.
  apply (arr_copy _ _ _ _ (length xs + 1) ys) in H1; [|by rewrite length_app|rewrite length_app; simpl; lia].
  by rewrite <- (assoc_L (++)) in H1.
Qed.

Lemma arr_copies cap a xs ys k :
  length a = cap → k = length xs → length xs + length ys ≤ cap → arr cap (copy_at (copy_at a 0 xs) k ys) (xs ++ ys).
Proof.
  intros Ha -> Hle. assert (H1 := arr_copy cap a [] [] 0 xs (arr_nil _ _ Ha) eq_refl). simpl in H1.
  specialize (H1 ltac:(lia)). rewrite <- (app_nil_r xs) in H1 at 2. by apply (arr_copy _ _ _ _ (length xs) ys) in H1.
Qed.

(** A fresh array with a copy of a list. *)
Lemma arr_new cap z xs : length xs ≤ cap → arr cap (copy_at (replicate cap z) 0 xs) xs.
Proof.
  intros Hle. apply (arr_copy _ _ [] []); [|done|done]. apply arr_nil, length_replicate.
Qed.
End Arrays.

(** ** Programs *)

Section Wp.
Context {Value : Type}.
Implicit Types (h : heap Value) (nd : setNode Value) (n c : loc).

(** [m] does not panic, and its result and the new heap satisfy [Q]. *)
Definition wp {A} (m : prog Value A) h (Q : A → heap Value → Prop) : Prop := ∃ a h', m h = Some (a, h') ∧ Q a h'.

Definition upd h n nd : heap Value := mkHeap (<[n := nd]> (nodes h)) (next h).

(** The heap with an address in use. *)
Definition bump h : heap Value := mkHeap (nodes h) (S (next h)).

Lemma upd_upd h n nd nd' : upd (upd h n nd) n nd' = upd h n nd'.
Proof. unfold upd. simpl. by rewrite insert_insert_eq. Qed.

Lemma upd_swap h n m nd nd' : n ≠ m → upd (upd h n nd) m nd' = upd (upd h m nd') n nd.
Proof. intros Hne. unfold upd. simpl. f_equal. by apply insert_insert_ne. Qed.

Lemma upd_rev h x p y nx np ny :
  x ≠ p → x ≠ y → p ≠ y → upd (upd (upd h x nx) p np) y ny = upd (upd (upd h y ny) p np) x nx.
Proof. intros. by rewrite (upd_swap _ p y), (upd_swap h x y), (upd_swap _ x p) by done. Qed.

Lemma bump_upd h n nd : bump (upd h n nd) = upd (bump h) n nd.
Proof. done. Qed.

Lemma lookup_upd_eq h n nd : nodes (upd h n nd) !! n = Some nd.
Proof. apply lookup_insert_eq. Qed.

Lemma lookup_upd_ne h n m nd : m ≠ n → nodes (upd h n nd) !! m = nodes h !! m.
Proof. intros Hne. by apply lookup_insert_ne. Qed.

Lemma wp_ret {A} (a : A) h Q : Q a h → wp (mret a) h Q.
Proof. intros HQ. by exists a, h. Qed.

Lemma wp_bind {A B} (m : prog Value A) (k : A → prog Value B) h Q :
  wp m h (λ a h', wp (k a) h' Q) → wp (m ≫= k) h Q.
Proof. intros (a & h' & E & b & h'' & E' & HQ). exists b, h''. split; [|done]. cbv [mbind prog_bind]. by rewrite E. Qed.

Lemma wp_mono {A} (m : prog Value A) h (P Q : A → heap Value → Prop) :
  wp m h P → (∀ a h', P a h' → Q a h') → wp m h Q.
Proof. intros (a & h' & E & HP) HPQ. exists a, h'. auto. Qed.

(** A known result. *)
Lemma wp_eq {A} (m : prog Value A) h a h' Q : m h = Some (a, h') → Q a h' → wp m h Q.
Proof. intros E HQ. by exists a, h'. Qed.

Lemma wp_load n nd h Q : nodes h !! n = Some nd → Q nd h → wp (load n) h Q.
Proof. intros E HQ. exists nd, h. unfold load. by rewrite E. Qed.

Lemma wp_modify n nd f h Q : nodes h !! n = Some nd → Q () (upd h n (f nd)) → wp (modify n f) h Q.
Proof. intros E HQ. exists (), (upd h n (f nd)). unfold modify. by rewrite E. Qed.

Lemma wp_alloc nd h Q : Q (next h) (upd (bump h) (next h) nd) → wp (alloc nd) h Q.
Proof. intros HQ. by eexists _, _. Qed.

Lemma wp_lift {A} (o : option A) a h Q : o = Some a → Q a h → wp (lift o) h Q.
Proof. intros -> HQ. by exists a, h. Qed.

Lemma wp_fuel h Q : Q (next h) h → wp tree_fuel h Q.
Proof. intros HQ. by eexists _, _. Qed.

Lemma wp_child n nd c i h Q :
  nodes h !! n = Some nd → children nd !! i = Some (Some c) → Q c h → wp (child n i) h Q.
Proof. intros E Ec HQ. eapply wp_bind, wp_load, wp_lift; [done| |done]. by rewrite Ec. Qed.

(** ** Links to parents *)

(** The heap in which the nodes of [us] got the given parents and indices. *)
Definition link h (us : list (loc * loc * nat)) : heap Value :=
  mkHeap (foldl (λ m '(c, p, i), alter (λ nd, set_parent nd (Some p) i) c m) (nodes h) us) (next h).

Lemma link_nil h : link h [] = h.
Proof. by destruct h. Qed.

Lemma link_cons h c p i us : link h ((c, p, i) :: us) = link (link h [(c, p, i)]) us.
Proof. done. Qed.

Lemma link_single h c cd p i :
  nodes h !! c = Some cd → link h [(c, p, i)] = upd h c (set_parent cd (Some p) i).
Proof.
  intros Ec. unfold link, upd. simpl. f_equal. apply map_eq. intros x. destruct (decide (x = c)) as [->|].
  - by rewrite lookup_alter_eq, lookup_insert_eq, Ec.
  - by rewrite lookup_alter_ne, lookup_insert_ne.
Qed.

Lemma link_app h us vs : link h (us ++ vs) = link (link h us) vs.
Proof. unfold link. by rewrite foldl_app. Qed.

Lemma link_ne h us c : c ∉ us.*1.*1 → nodes (link h us) !! c = nodes h !! c.
Proof.
  revert h. induction us as [|[[c' p] i] us IH]; intros h Hc; [done|].
  apply not_elem_of_cons in Hc as [Hne Hc]. rewrite link_cons, IH by done. simpl. by rewrite lookup_alter_ne.
Qed.

Lemma link_lookup h us c p i :
  NoDup us.*1.*1 → (c, p, i) ∈ us →
  nodes (link h us) !! c = (λ nd, set_parent nd (Some p) i) <$> nodes h !! c.
Proof.
  revert h. induction us as [|[[c' p'] i'] us IH]; intros h Hnd Hin; [by apply elem_of_nil in Hin|].
  apply NoDup_cons in Hnd as [Hc' Hnd]. rewrite link_cons. apply elem_of_cons in Hin as [[= -> -> ->]|Hin].
  - rewrite link_ne by done. simpl. by rewrite lookup_alter_eq.
  - rewrite IH by done. f_equal. simpl. apply lookup_alter_ne. intros ->. apply Hc'.
    apply list_elem_of_fmap. exists (c, p). split; [done|]. apply list_elem_of_fmap. by exists (c, p, i).
Qed.

(** Links change nothing but parents and indices. *)
Lemma link_node h us c nd :
  nodes h !! c = Some nd → ∃ p i, nodes (link h us) !! c = Some (set_parent nd p i).
Proof.
  revert h nd. induction us as [|[[c' p'] i'] us IH]; intros h nd E.
  { exists (parent nd), (parentIndex nd). by destruct nd. }
  rewrite link_cons. destruct (decide (c = c')) as [->|Hne].
  - destruct (IH (link h [(c', p', i')]) (set_parent nd (Some p') i')) as (p & i & E').
    { simpl. by rewrite lookup_alter_eq, E. }
    by exists p, i.
  - apply IH. simpl. by rewrite lookup_alter_ne.
Qed.

(** The links of consecutive children. *)
Fixpoint links (p : loc) (i : nat) (cs : list loc) : list (loc * loc * nat) :=
  match cs with
  | [] => []
  | c :: cs => (c, p, i) :: links p (S i) cs
  end.

Lemma links_locs p i cs : (links p i cs).*1.*1 = cs.
Proof. revert i. induction cs as [|c cs IH]; intros i; [done|]. simpl. by rewrite IH. Qed.

Lemma links_elem p i cs j c : cs !! j = Some c → (c, p, i + j) ∈ links p i cs.
Proof.
  revert i j. induction cs as [|c' cs IH]; intros i [|j] Ec; simplify_eq/=.
  - rewrite Nat.add_0_r. apply elem_of_cons. by left.
  - apply elem_of_cons. right. rewrite Nat.add_succ_r, <- Nat.add_succ_l. by apply IH.
Qed.

Lemma links_app p i cs ds : links p i (cs ++ ds) = links p i cs ++ links p (i + length cs) ds.
Proof.
  revert i. induction cs as [|c cs IH]; intros i; simpl; [by rewrite Nat.add_0_r|]. by rewrite IH, Nat.add_succ_r.
Qed.

(** The children [cs] of [n] from index [i] on, as [n] has them. *)
Definition has_kids h n i (cs : list loc) : Prop :=
  ∃ nd, nodes h !! n = Some nd ∧ ∀ j c, cs !! j = Some c → children nd !! (i + j) = Some (Some c) ∧ is_Some (nodes h !! c).

Lemma has_kids_link h us n i cs : has_kids h n i cs → has_kids (link h us) n i cs.
Proof.
  intros (nd & E & Hcs). destruct (link_node h us n nd E) as (p & i' & E'). eexists. split; [exact E'|].
  intros j c Ec. destruct (Hcs j c Ec) as [H1 [cd H2]]. split; [done|].
  destruct (link_node h us c cd H2) as (? & ? & ->). by eexists.
Qed.

Lemma has_kids_cons h n i c cs : has_kids h n i (c :: cs) → has_kids h n (S i) cs.
Proof.
  intros (nd & E & Hcs). exists nd. split; [done|]. intros j c' Ec. specialize (Hcs (S j) c' Ec).
  by rewrite Nat.add_succ_r in Hcs.
Qed.

Lemma wp_reparent n i c cs h Q :
  has_kids h n i (c :: cs) → Q () (link h [(c, n, i)]) → wp (reparent n i) h Q.
Proof.
  intros (nd & E & Hcs) HQ. destruct (Hcs 0 c eq_refl) as [Hc [cd Ec]]. rewrite Nat.add_0_r in Hc.
  eapply wp_bind, wp_child; [done|done|]. eapply wp_modify; [done|].
  by rewrite <- link_single.
Qed.

Lemma wp_reindex n i c cs h cd Q :
  has_kids h n i (c :: cs) → nodes h !! c = Some cd → parent cd = Some n →
  Q () (link h [(c, n, i)]) → wp (reindex n i) h Q.
Proof.
  intros (nd & E & Hcs) Ec Hp HQ. destruct (Hcs 0 c eq_refl) as [Hc _]. rewrite Nat.add_0_r in Hc.
  eapply wp_bind, wp_child; [done|done|]. eapply wp_modify; [done|]. rewrite Hp.
  by rewrite <- link_single.
Qed.

Lemma wp_reparent_range n i cnt cs h Q :
  has_kids h n i cs → cnt = length cs → Q () (link h (links n i cs)) → wp (for_range i cnt (reparent n)) h Q.
Proof.
  intros Hk -> HQ. revert i h Hk HQ. induction cs as [|c cs IH]; intros i h Hk HQ; [rewrite link_nil in HQ; by apply wp_ret|].
  simpl. eapply wp_bind, wp_reparent; [done|]. apply IH; [|done]. eapply has_kids_link, has_kids_cons. done.
Qed.

Lemma wp_reindex_range n i cnt cs h Q :
  has_kids h n i cs → cnt = length cs → (∀ c cd, c ∈ cs → nodes h !! c = Some cd → parent cd = Some n) →
  Q () (link h (links n i cs)) → wp (for_range i cnt (reindex n)) h Q.
Proof.
  intros Hk -> Hp HQ. revert i h Hk Hp HQ. induction cs as [|c cs IH]; intros i h Hk Hp HQ; [rewrite link_nil in HQ; by apply wp_ret|].
  destruct Hk as (nd & E & Hcs). destruct (Hcs 0 c eq_refl) as [_ [cd Ec]].
  assert (Hk : has_kids h n i (c :: cs)) by (by exists nd).
  simpl. eapply wp_bind, wp_reindex; [done|done|eapply Hp; [apply elem_of_cons; by left|done]|].
  apply IH; [by eapply has_kids_link, has_kids_cons| |done].
  intros c' cd' Hin. simpl. destruct (decide (c' = c)) as [->|Hne].
  - rewrite lookup_alter_eq, Ec. simpl. by intros [= <-].
  - rewrite lookup_alter_ne by done. apply Hp, elem_of_cons. by right.
Qed.

(** A new first child. *)
Lemma wp_relink_front n cnt c cs h Q :
  has_kids h n 0 (c :: cs) → cnt = length cs → c ∉ cs →
  (∀ c cd, c ∈ cs → nodes h !! c = Some cd → parent cd = Some n) → Q () (link h (links n 0 (c :: cs))) →
  wp (reparent n 0) h (λ _ h', wp (for_range 1 cnt (reindex n)) h' Q).
Proof.
  intros Hk Hcnt Hc Hp HQ. eapply wp_reparent; [done|].
  eapply wp_reindex_range; [by eapply has_kids_link, has_kids_cons|done| |].
  - intros c' cd Hin. rewrite link_ne; [by apply Hp|]. intros ->%list_elem_of_singleton. done.
  - by rewrite <- link_app.
Qed.

(** The loop of [split_root] over the children of both halves. *)
Fixpoint links2 (l r : loc) (i : nat) (cs ds : list loc) : list (loc * loc * nat) :=
  match cs, ds with
  | c :: cs, d :: ds => (c, l, i) :: (d, r, i) :: links2 l r (S i) cs ds
  | _, _ => []
  end.

Lemma links2_perm l r i cs ds : length cs = length ds → links2 l r i cs ds ≡ₚ links l i cs ++ links r i ds.
Proof.
  revert i ds. induction cs as [|c cs IH]; intros i [|d ds] E; simplify_eq/=; [done|].
  rewrite IH by done. by rewrite <- Permutation_middle.
Qed.

Lemma wp_reparent_both l r i cnt cs ds h Q :
  has_kids h l i cs → has_kids h r i ds → cnt = length cs → length cs = length ds →
  Q () (link h (links2 l r i cs ds)) →
  wp (for_range i cnt (λ j, _ ← reparent l j; reparent r j)) h Q.
Proof.
  intros Hl Hr -> Ed HQ. revert i ds h Hl Hr Ed HQ.
  induction cs as [|c cs IH]; intros i [|d ds] h Hl Hr Ed HQ; simplify_eq/=; [rewrite link_nil in HQ; by apply wp_ret|].
  eapply wp_bind, wp_bind, wp_reparent; [done|]. eapply wp_reparent; [by apply has_kids_link|].
  apply (IH (S i) ds); [| |done|done]; by eapply has_kids_link, has_kids_link, has_kids_cons.
Qed.
End Wp.
