(* ===== verification/SegTree.v ===== *)
(** * B-trees and the heaps that represent them

    A tree of nodes with their segments, and contexts around a node.  The segments and the
    gaps of a tree, in order, with the iterators that point to them.  Each node of a tree is a
    cell, which says what the node in the heap has to hold: parent, index, segments and
    children.  A heap represents a tree if it has all its cells. *)

From stdpp Require Import base numbers decidable gmap list_tactics list.
From S2P Require Import SegSet SegHeap Prelude.

(** ** Interleaving *)

Section Weave.
Context {A : Type}.
Implicit Types (xs : list (list A)) (ss x : list A).

(** What is in the children, separated by what is in the node. *)
Fixpoint weave xs ss : list A :=
  match xs, ss with
  | [], _ => ss
  | x :: _, [] => x
  | x :: xs, s :: ss => x ++ s :: weave xs ss
  end.

Definition pre xs ss : list A := concat (zip_with (λ x s, x ++ [s]) xs ss).

Definition post ss xs : list A := concat (zip_with cons ss xs).

Lemma weave_post x xs ss : length xs = length ss → weave (x :: xs) ss = x ++ post ss xs.
Proof.
  revert x ss. induction xs as [|y xs IH]; intros x [|s ss] E; simplify_eq/=; [by rewrite app_nil_r|].
  by rewrite IH.
Qed.

Lemma weave_split xs1 x xs2 ss1 ss2 :
  length xs1 = length ss1 → length xs2 = length ss2 →
  weave (xs1 ++ x :: xs2) (ss1 ++ ss2) = pre xs1 ss1 ++ x ++ post ss2 xs2.
Proof.
  intros E1 E2. revert ss1 E1. induction xs1 as [|y xs1 IH]; intros [|s ss1] E1; simplify_eq/=.
  - by apply weave_post.
  - rewrite IH by done. unfold pre. simpl. by rewrite <- !(assoc_L (++)).
Qed.

Lemma pre_app xs1 xs2 ss1 ss2 : length xs1 = length ss1 → pre (xs1 ++ xs2) (ss1 ++ ss2) = pre xs1 ss1 ++ pre xs2 ss2.
Proof. intros E. unfold pre. by rewrite zip_with_app, concat_app. Qed.

Lemma pre_single x s : pre [x] [s] = x ++ [s].
Proof. unfold pre. simpl. apply app_nil_r. Qed.

Lemma post_app xs1 xs2 ss1 ss2 : length ss1 = length xs1 → post (ss1 ++ ss2) (xs1 ++ xs2) = post ss1 xs1 ++ post ss2 xs2.
Proof. intros E. unfold post. by rewrite zip_with_app, concat_app. Qed.

(** A separator in the middle. *)
Lemma weave_join xs1 xs2 ss1 s ss2 :
  length xs1 = S (length ss1) → length xs2 = S (length ss2) →
  weave (xs1 ++ xs2) (ss1 ++ s :: ss2) = weave xs1 ss1 ++ s :: weave xs2 ss2.
Proof.
  revert ss1. induction xs1 as [|x xs1 IH]; intros [|s1 ss1] E1 E2; simplify_eq/=.
  - by apply nil_length_inv in E1 as ->.
  - rewrite IH by done. by rewrite <- (assoc_L (++)).
Qed.
Lemma length_pre xs ss : length xs = length ss → length (pre xs ss) = length xs + length (concat xs).
Proof.
  revert ss. induction xs as [|x xs IH]; intros [|s ss] E; simplify_eq/=; [done|].
  unfold pre in *. simpl. rewrite !length_app, IH by done. simpl. lia.
Qed.

Lemma length_post ss xs : length xs = length ss → length (post ss xs) = length xs + length (concat xs).
Proof.
  revert ss. induction xs as [|x xs IH]; intros [|s ss] E; simplify_eq/=; [done|].
  unfold post in *. simpl. rewrite !length_app, IH by done. lia.
Qed.
End Weave.

(** ** Trees *)

Inductive tree (Value : Type) : Type := T (l : loc) (ss : list (Range * Value)) (ks : list (tree Value)).
Arguments T {_} _ _ _.

(** A node on the way to the root: what is to the left and to the right of the way. *)
Record frame (Value : Type) : Type := Frame {
  f_loc : loc;
  ssL : list (Range * Value);
  ksL : list (tree Value);
  ssR : list (Range * Value);
  ksR : list (tree Value)
}.
Arguments Frame {_} _ _ _ _ _.
Arguments f_loc {_} _.
Arguments ssL {_} _.
Arguments ksL {_} _.
Arguments ssR {_} _.
Arguments ksR {_} _.

Section Trees.
Context {Value : Type}.
Local Abbreviation seg := (Range * Value)%type.
Local Abbreviation item := ((loc * nat) * seg)%type.
Implicit Types (t : tree Value) (ks : list (tree Value)) (ss : list seg) (C : list (frame Value)) (l : loc).

Definition tloc t : loc := let '(T l _ _) := t in l.

Definition tsegs t : list seg := let '(T _ ss _) := t in ss.

Definition tkids t : list (tree Value) := let '(T _ _ ks) := t in ks.

(** The segments of a node from index [i] on. *)
Fixpoint nitems l (i : nat) ss : list item :=
  match ss with
  | [] => []
  | s :: ss => ((l, i), s) :: nitems l (S i) ss
  end.

Fixpoint items t : list item :=
  match t with T l ss ks => weave (items <$> ks) (nitems l 0 ss) end.

(** The gaps of a leaf from index [i] on. *)
Definition ngaps l (i count : nat) : list (loc * nat) := pair l <$> seq i count.

Fixpoint gaps t : list (loc * nat) :=
  match t with
  | T l ss [] => ngaps l 0 (S (length ss))
  | T _ _ ks => concat (gaps <$> ks)
  end.

Fixpoint plug C t : tree Value :=
  match C with
  | [] => t
  | f :: C => plug C (T (f_loc f) (ssL f ++ ssR f) (ksL f ++ t :: ksR f))
  end.

(** What is in the context, to the left and to the right. *)
Definition frame_left (f : frame Value) : list item := pre (items <$> ksL f) (nitems (f_loc f) 0 (ssL f)).

Definition frame_right (f : frame Value) : list item :=
  post (nitems (f_loc f) (length (ssL f)) (ssR f)) (items <$> ksR f).

Fixpoint left_items C : list item :=
  match C with [] => [] | f :: C => left_items C ++ frame_left f end.

Fixpoint right_items C : list item :=
  match C with [] => [] | f :: C => frame_right f ++ right_items C end.

Fixpoint left_gaps C : list (loc * nat) :=
  match C with [] => [] | f :: C => left_gaps C ++ concat (gaps <$> ksL f) end.

Fixpoint right_gaps C : list (loc * nat) :=
  match C with [] => [] | f :: C => concat (gaps <$> ksR f) ++ right_gaps C end.

(** ** The shape of B-trees *)

Context `{Functions Value}.

(** Height [d] and at most [maxDegree - 1] segments in each node; children have at least
    [minDegree - 1]. *)
Fixpoint wf (d : nat) t : Prop :=
  match t with
  | T _ ss ks =>
      length ss ≤ maxDegree - 1 ∧
      match d with
      | O => ks = []
      | S d => length ks = S (length ss) ∧ Forall (λ k, minDegree - 1 ≤ length (tsegs k) ∧ wf d k) ks
      end
  end.

Definition kid_ok (d : nat) (k : tree Value) : Prop := minDegree - 1 ≤ length (tsegs k) ∧ wf d k.

(** A node with context [C] has enough segments; the root may have fewer, but not none if it
    has children. *)
Definition enough (d : nat) C ss : Prop :=
  match C with
  | [] => d = O ∨ 1 ≤ length ss
  | _ :: _ => minDegree - 1 ≤ length ss
  end.

(** Contexts of nodes of height [d]. *)
Fixpoint wf_ctx (d : nat) C : Prop :=
  match C with
  | [] => True
  | f :: C =>
      length (ksL f) = length (ssL f) ∧ length (ksR f) = length (ssR f) ∧
      length (ssL f ++ ssR f) ≤ maxDegree - 1 ∧ Forall (kid_ok d) (ksL f) ∧ Forall (kid_ok d) (ksR f) ∧
      enough (S d) C (ssL f ++ ssR f) ∧ wf_ctx (S d) C
  end.

(** ** Facts *)

Lemma length_nitems l i ss : length (nitems l i ss) = length ss.
Proof. revert i. induction ss as [|s ss IH]; intros i; [done|]. simpl. by rewrite IH. Qed.

Lemma nitems_app l i ss1 ss2 : nitems l i (ss1 ++ ss2) = nitems l i ss1 ++ nitems l (i + length ss1) ss2.
Proof.
  revert i. induction ss1 as [|s ss1 IH]; intros i; simpl; [by rewrite Nat.add_0_r|].
  by rewrite IH, Nat.add_succ_r.
Qed.

Lemma nitems_snd l i ss : (nitems l i ss).*2 = ss.
Proof. revert i. induction ss as [|s ss IH]; intros i; [done|]. simpl. by rewrite IH. Qed.

Lemma nitems_lookup l i ss j s : ss !! j = Some s → nitems l i ss !! j = Some ((l, i + j), s).
Proof.
  revert i j. induction ss as [|s' ss IH]; intros i [|j] E; simplify_eq/=.
  - by rewrite Nat.add_0_r.
  - by rewrite (IH (S i) j E), Nat.add_succ_r.
Qed.

Lemma nitems_inv l i ss j x :
  nitems l i ss !! j = Some x → ∃ s, ss !! j = Some s ∧ x = ((l, i + j), s).
Proof.
  intros E. assert (Hj : j < length ss) by (rewrite <- (length_nitems l i); by eapply lookup_lt_Some).
  apply lookup_lt_is_Some in Hj as [s Es]. exists s. split; [done|]. apply (nitems_lookup l i) in Es. congruence.
Qed.

Lemma items_eq l ss ks : items (T l ss ks) = weave (items <$> ks) (nitems l 0 ss).
Proof. done. Qed.

(** A node around one of its children. *)
Lemma items_node (f : frame Value) t :
  length (ksL f) = length (ssL f) → length (ksR f) = length (ssR f) →
  items (T (f_loc f) (ssL f ++ ssR f) (ksL f ++ t :: ksR f)) = frame_left f ++ items t ++ frame_right f.
Proof.
  intros E1 E2. simpl. rewrite fmap_app, fmap_cons, nitems_app. apply weave_split; by rewrite length_fmap, length_nitems.
Qed.

Lemma items_plug d C t : wf_ctx d C → items (plug C t) = left_items C ++ items t ++ right_items C.
Proof.
  revert d t. induction C as [|f C IH]; intros d t Hw; simpl; [by rewrite app_nil_r|].
  destruct Hw as (E1 & E2 & _ & _ & _ & _ & Hw). rewrite (IH _ _ Hw), items_node by done. by rewrite <- !(assoc_L (++)).
Qed.

Lemma plug_loc C t t' : tloc t = tloc t' → tloc (plug C t) = tloc (plug C t').
Proof. revert t t'. induction C as [|f C IH]; intros t t' E; [done|]. by apply IH. Qed.

Lemma gaps_node l ss ks : ks ≠ [] → gaps (T l ss ks) = concat (gaps <$> ks).
Proof. by destruct ks. Qed.

Lemma gaps_plug C t : gaps (plug C t) = left_gaps C ++ gaps t ++ right_gaps C.
Proof.
  revert t. induction C as [|f C IH]; intros t; simpl; [by rewrite app_nil_r|].
  rewrite IH, gaps_node by (by destruct (ksL f)). rewrite fmap_app, fmap_cons, concat_app. simpl.
  by rewrite <- !(assoc_L (++)).
Qed.

Lemma wf_kids d l ss ks : wf (S d) (T l ss ks) ↔ length ss ≤ maxDegree - 1 ∧ length ks = S (length ss) ∧ Forall (kid_ok d) ks.
Proof. done. Qed.

(** There is one more gap than segments. *)
Lemma gaps_count_list ks :
  Forall (λ k, length (gaps k) = S (length (items k))) ks →
  length (concat (gaps <$> ks)) = length ks + length (concat (items <$> ks)).
Proof.
  induction 1 as [|k ks Hk _ IH]; [done|]. rewrite !fmap_cons. simpl concat. rewrite !length_app, Hk, IH. simpl. lia.
Qed.

Lemma gaps_count d t : wf d t → length (gaps t) = S (length (items t)).
Proof.
  revert t. induction d as [|d IH]; intros [l ss ks] Hw.
  - destruct Hw as [_ ->]. simpl. unfold ngaps. by rewrite length_fmap, length_seq, length_nitems.
  - apply wf_kids in Hw as (_ & Hl & Hk). destruct ks as [|k ks]; [done|]. rewrite gaps_node by done.
    assert (Hg : Forall (λ k, length (gaps k) = S (length (items k))) (k :: ks)).
    { eapply Forall_impl; [exact Hk|]. intros x [_ Hx]. by apply IH. }
    rewrite gaps_count_list by done. rewrite items_eq, !fmap_cons. simpl in Hl. simpl length at 1. simpl concat.
    rewrite weave_post by (rewrite length_fmap, length_nitems; lia).
    rewrite !length_app, length_post by (rewrite length_fmap, length_nitems; lia). rewrite length_fmap. lia.
Qed.

Lemma kids_gaps d ks : Forall (kid_ok d) ks → length (concat (gaps <$> ks)) = length ks + length (concat (items <$> ks)).
Proof.
  intros Hk. apply gaps_count_list. eapply Forall_impl; [exact Hk|]. intros k [_ Hw]. by eapply gaps_count.
Qed.

Lemma left_gaps_count d C : wf_ctx d C → length (left_gaps C) = length (left_items C).
Proof.
  revert d. induction C as [|f C IH]; intros d Hw; [done|]. destruct Hw as (E1 & _ & _ & Hk & _ & _ & Hw). simpl.
  rewrite !length_app, (IH _ Hw), (kids_gaps d) by done. unfold frame_left.
  rewrite length_pre by (by rewrite length_fmap, length_nitems). by rewrite length_fmap.
Qed.

(** ** Places in a tree *)

(** A node in its context. *)
Definition tree_ok (d : nat) C t : Prop := wf_ctx d C ∧ wf d t ∧ enough d C (tsegs t).

(** Moving between a node and one of its children. *)
Lemma tree_ok_child d C l ss1 ss2 ks1 k ks2 :
  length ks1 = length ss1 → length ks2 = length ss2 →
  tree_ok (S d) C (T l (ss1 ++ ss2) (ks1 ++ k :: ks2)) ↔ tree_ok d (Frame l ss1 ks1 ss2 ks2 :: C) k.
Proof.
  intros E1 E2. unfold tree_ok. rewrite wf_kids. simpl. unfold kid_ok at 1. rewrite Forall_app, Forall_cons.
  rewrite !length_app. simpl. split.
  - intros (Hc & (Hm & _ & H1 & [Hk1 Hk2] & H2) & He). split_and!; done.
  - intros ((_ & _ & Hm & H1 & H2 & He & Hc) & Hk & Hk1). split_and!; try done. lia.
Qed.

Lemma tree_ok_root d C t : tree_ok d C t → ∃ d', tree_ok d' [] (plug C t).
Proof.
  revert d t. induction C as [|f C IH]; intros d t Ht; [by exists d|]. simpl.
  pose proof Ht as [(E1 & E2 & _) _]. destruct f as [l ss1 ks1 ss2 ks2]. simpl in *.
  by apply (IH (S d)), tree_ok_child.
Qed.

(** The segments of a node and its children, where those of the node start at index [i]. *)
Definition items_from l (i : nat) ss ks : list item := weave (items <$> ks) (nitems l i ss).

Definition split_kids (d : nat) ss1 ss2 ks1 ks2 : Prop :=
  match d with
  | O => ks1 = [] ∧ ks2 = []
  | S _ => length ks1 = S (length ss1) ∧ length ks2 = S (length ss2)
  end.

Lemma items_from_join d l i ss1 s ss2 ks1 ks2 :
  split_kids d ss1 ss2 ks1 ks2 →
  items_from l i (ss1 ++ s :: ss2) (ks1 ++ ks2) =
  items_from l i ss1 ks1 ++ ((l, i + length ss1), s) :: items_from l (S (i + length ss1)) ss2 ks2.
Proof.
  unfold items_from. destruct d as [|d].
  - intros [-> ->]. simpl. by rewrite nitems_app.
  - intros [E1 E2]. rewrite nitems_app, fmap_app. simpl. apply weave_join; by rewrite length_fmap, length_nitems.
Qed.

Lemma items_from_lookup l i ss ks (k : nat) x :
  length ks = S (length ss) → items_from l i ss ks !! k = Some x →
  (∃ ss1 s ss2 ks1 ks2, ss = ss1 ++ s :: ss2 ∧ ks = ks1 ++ ks2 ∧ length ks1 = S (length ss1) ∧
     length ks2 = S (length ss2) ∧ x = ((l, i + length ss1), s) ∧ k = length (items_from l i ss1 ks1)) ∨
  (∃ ss1 ss2 ks1 kid ks2 k', ss = ss1 ++ ss2 ∧ ks = ks1 ++ kid :: ks2 ∧ length ks1 = length ss1 ∧
     length ks2 = length ss2 ∧ items kid !! k' = Some x ∧
     k = length (pre (items <$> ks1) (nitems l i ss1)) + k').
Proof.
  revert i ks k. induction ss as [|s ss IH]; intros i [|kid ks] k E Hx; simplify_eq/=.
  - apply nil_length_inv in E as ->. right. by exists [], [], [], kid, [], k.
  - unfold items_from in Hx. rewrite fmap_cons in Hx. simpl in Hx. apply lookup_app_Some in Hx as [Hx|[Hk Hx]].
    { right. exists [], (s :: ss), [], kid, ks, k. done. }
    destruct (k - length (items kid)) as [|k'] eqn:Ek; simplify_eq/=.
    + left. exists [], s, ss, [kid], ks. split_and!; try done.
      * by rewrite Nat.add_0_r.
      * unfold items_from. simpl. lia.
    + apply (IH (S i) ks k') in Hx; [|done].
      destruct Hx as [(ss1 & s' & ss2 & ks1 & ks2 & -> & -> & E1 & E2 & -> & ->)|(ss1 & ss2 & ks1 & kid' & ks2 & k'' & -> & -> & E1 & E2 & Hx & ->)].
      * left. exists (s :: ss1), s', ss2, (kid :: ks1), ks2. simpl. split_and!; try done; [lia|by rewrite Nat.add_succ_r|].
        unfold items_from in *. rewrite fmap_cons. simpl. rewrite length_app. simpl. lia.
      * right. exists (s :: ss1), ss2, (kid :: ks1), kid', ks2, k''. simpl length at 1 2.
        split_and!; try done; [lia|]. unfold pre in *. rewrite fmap_cons. simpl. rewrite !length_app. simpl. lia.
Qed.

Lemma items_inv d C t (k n i : nat) s :
  tree_ok d C t → items t !! k = Some ((n, i), s) →
  ∃ d' C' ss1 ss2 ks1 ks2, plug C t = plug C' (T n (ss1 ++ s :: ss2) (ks1 ++ ks2)) ∧
    tree_ok d' C' (T n (ss1 ++ s :: ss2) (ks1 ++ ks2)) ∧ length ss1 = i ∧ split_kids d' ss1 ss2 ks1 ks2 ∧
    length (left_items C) + k = length (left_items C') + length (items_from n 0 ss1 ks1).
Proof.
  revert C t k. induction d as [|d IH]; intros C [l ss ks] k Ht Hx.
  - pose proof Ht as (_ & [_ ->] & _). rewrite items_eq in Hx. simpl in Hx.
    apply nitems_inv in Hx as (s' & Hs & [= -> -> ->]). exists 0, C, (take k ss), (drop (S k) ss), [], [].
    pose proof (lookup_lt_Some _ _ _ Hs). rewrite (take_drop_middle _ _ _ Hs).
    unfold items_from. simpl. rewrite length_nitems, length_take. split_and!; try done; lia.
  - pose proof Ht as (_ & (_ & Hl & _)%wf_kids & _). apply items_from_lookup in Hx; [|done].
    destruct Hx as [(ss1 & s' & ss2 & ks1 & ks2 & -> & -> & E1 & E2 & [= -> -> ->] & ->)|(ss1 & ss2 & ks1 & kid & ks2 & k' & -> & -> & E1 & E2 & Hx & ->)].
    + exists (S d), C, ss1, ss2, ks1, ks2. done.
    + apply tree_ok_child in Ht; [|done|done]. destruct (IH _ _ _ Ht Hx) as (d' & C' & ss1' & ss2' & ks1' & ks2' & Ep & Ht' & Ei & Hsp & Ek).
      exists d', C', ss1', ss2', ks1', ks2'. split; [exact Ep|]. split; [done|]. split; [done|]. split; [done|].
      rewrite <- Ek. simpl. rewrite length_app. unfold frame_left. simpl. lia.
Qed.

Lemma concat_fmap_lookup {A} (f : tree Value → list A) ks (k : nat) x :
  concat (f <$> ks) !! k = Some x →
  ∃ ks1 kid ks2 k', ks = ks1 ++ kid :: ks2 ∧ f kid !! k' = Some x ∧ k = length (concat (f <$> ks1)) + k'.
Proof.
  revert k. induction ks as [|kid ks IH]; intros k Hx; [done|]. rewrite fmap_cons in Hx. simpl in Hx.
  apply lookup_app_Some in Hx as [Hx|[Hk Hx]]; [by exists [], kid, ks, k|].
  apply IH in Hx as (ks1 & kid' & ks2 & k' & -> & Hx & Ek). exists (kid :: ks1), kid', ks2, k'.
  split; [done|]. split; [done|]. rewrite fmap_cons. simpl. rewrite length_app. lia.
Qed.

Lemma gaps_inv d C t (k n i : nat) :
  tree_ok d C t → gaps t !! k = Some (n, i) →
  ∃ C' ss1 ss2, plug C t = plug C' (T n (ss1 ++ ss2) []) ∧ tree_ok 0 C' (T n (ss1 ++ ss2) []) ∧ length ss1 = i ∧
    length (left_gaps C) + k = length (left_gaps C') + i.
Proof.
  revert C t k. induction d as [|d IH]; intros C [l ss ks] k Ht Hx.
  - pose proof Ht as (_ & [_ ->] & _). simpl in Hx. unfold ngaps in Hx.
    apply list_lookup_fmap_Some in Hx as (j & [= -> ->] & [-> Hj]%lookup_seq).
    exists C, (take k ss), (drop k ss). rewrite take_drop, length_take. split_and!; [done|done|lia|lia].
  - pose proof Ht as (_ & (_ & Hl & _)%wf_kids & _). rewrite gaps_node in Hx by (by destruct ks).
    apply concat_fmap_lookup in Hx as (ks1 & kid & ks2 & k' & -> & Hx & ->).
    rewrite length_app in Hl. simpl in Hl.
    rewrite <- (take_drop (length ks1) ss) in Ht. apply tree_ok_child in Ht;
      [|rewrite length_take; lia|rewrite length_drop; lia].
    destruct (IH _ _ _ Ht Hx) as (C' & ss1 & ss2 & Ep & Ht' & Ei & Ek). exists C', ss1, ss2.
    split; [by rewrite <- Ep; simpl; rewrite take_drop|]. split; [done|]. split; [done|].
    rewrite <- Ek. simpl. rewrite length_app. lia.
Qed.

(** The gap at a position of a leaf. *)
Lemma gaps_leaf C n ss1 ss2 :
  gaps (plug C (T n (ss1 ++ ss2) [])) !! (length (left_gaps C) + length ss1) = Some (n, length ss1).
Proof.
  rewrite gaps_plug. rewrite lookup_app_r by lia. rewrite Nat.add_comm, Nat.add_sub. apply lookup_app_l_Some.
  simpl. unfold ngaps. apply list_lookup_fmap_Some. exists (length ss1). split; [done|]. apply lookup_seq.
  rewrite length_app. lia.
Qed.
End Trees.

Record cell (Value : Type) : Type := mkCell {
  c_loc : loc;
  c_par : option loc;
  c_idx : nat;
  c_ss : list (Range * Value);
  c_kids : list loc
}.
Arguments mkCell {_} _ _ _ _ _.
Arguments c_loc {_} _.
Arguments c_par {_} _.
Arguments c_idx {_} _.
Arguments c_ss {_} _.
Arguments c_kids {_} _.

Section Rep.
Context {Value : Type} `{Functions Value}.
Local Abbreviation seg := (Range * Value)%type.
Implicit Types (t : tree Value) (ks : list (tree Value)) (ss : list seg) (C : list (frame Value)) (l : loc).
Implicit Types (h : heap Value) (nd : setNode Value) (cs : list (cell Value)).

(** ** Cells *)

Definition is_leaf (kids : list loc) : bool := match kids with [] => true | _ => false end.

Record node_ok nd (c : cell Value) : Prop := {
  ok_nr : nrSegments nd = length (c_ss c);
  ok_parent : parent nd = c_par c;
  ok_index : parentIndex nd = c_idx c;
  ok_hasChildren : hasChildren nd = negb (is_leaf (c_kids c));
  ok_keys : arr (maxDegree - 1) (keys nd) (c_ss c).*1;
  ok_values : arr (maxDegree - 1) (values nd) (c_ss c).*2;
  ok_children : arr maxDegree (children nd) (Some <$> c_kids c)
}.

Definition cell_ok h (c : cell Value) : Prop :=
  c_loc c < next h ∧ ∃ nd, nodes h !! c_loc c = Some nd ∧ node_ok nd c.

Definition root_cell (par : option loc) (idx : nat) t : cell Value :=
  mkCell (tloc t) par idx (tsegs t) (tloc <$> tkids t).

(** The cells of the children of [l] from index [i] on, without what is below them. *)
Fixpoint roots l (i : nat) ks : list (cell Value) :=
  match ks with
  | [] => []
  | k :: ks => root_cell (Some l) i k :: roots l (S i) ks
  end.

(** The cells below a node. *)
Fixpoint sub_cells t : list (cell Value) :=
  match t with
  | T l ss ks =>
      (fix go i ks := match ks with [] => [] | k :: ks => root_cell (Some l) i k :: sub_cells k ++ go (S i) ks end) 0 ks
  end.

Definition subs ks : list (cell Value) := concat (sub_cells <$> ks).

Definition cells (par : option loc) (idx : nat) t : list (cell Value) := root_cell par idx t :: sub_cells t.

(** The parent and the index of a node with context [C]. *)
Definition ctx_par C : option loc := match C with [] => None | f :: _ => Some (f_loc f) end.

Definition ctx_idx C : nat := match C with [] => 0 | f :: _ => length (ksL f) end.

Definition frame_cell C (f : frame Value) (hole : loc) : cell Value :=
  mkCell (f_loc f) (ctx_par C) (ctx_idx C) (ssL f ++ ssR f) ((tloc <$> ksL f) ++ hole :: (tloc <$> ksR f)).

Fixpoint ctx_cells C (hole : loc) : list (cell Value) :=
  match C with
  | [] => []
  | f :: C =>
      frame_cell C f hole :: roots (f_loc f) 0 (ksL f) ++ roots (f_loc f) (S (length (ksL f))) (ksR f) ++
      subs (ksL f) ++ subs (ksR f) ++ ctx_cells C (f_loc f)
  end.

(** The heap has all the cells, at different places. *)
Definition models h cs : Prop := NoDup (c_loc <$> cs) ∧ Forall (cell_ok h) cs.

#[export] Instance models_proper : Proper (eq ==> (≡ₚ) ==> iff) models.
Proof.
  intros h ? <- cs cs' E. unfold models. by rewrite E.
Qed.

Definition rep h t : Prop := tloc t = root ∧ models h (cells None 0 t).

(** ** Facts on cells *)

Lemma sub_cells_eq l ss ks : sub_cells (T l ss ks) ≡ₚ roots l 0 ks ++ subs ks.
Proof.
  simpl. generalize 0. induction ks as [|k ks IH]; intros i; [done|]. rewrite IH. unfold subs.
  rewrite fmap_cons. simpl. solve_Permutation.
Qed.

Lemma cells_eq par idx l ss ks :
  cells par idx (T l ss ks) ≡ₚ mkCell l par idx ss (tloc <$> ks) :: roots l 0 ks ++ subs ks.
Proof. unfold cells. by rewrite sub_cells_eq. Qed.

Lemma roots_app l i ks1 ks2 : roots l i (ks1 ++ ks2) = roots l i ks1 ++ roots l (i + length ks1) ks2.
Proof.
  revert i. induction ks1 as [|k ks1 IH]; intros i; simpl; [by rewrite Nat.add_0_r|]. by rewrite IH, Nat.add_succ_r.
Qed.

Lemma subs_app ks1 ks2 : subs (ks1 ++ ks2) = subs ks1 ++ subs ks2.
Proof. unfold subs. by rewrite fmap_app, concat_app. Qed.

Lemma subs_cons k ks : subs (k :: ks) = sub_cells k ++ subs ks.
Proof. done. Qed.

Lemma roots_loc l i ks : c_loc <$> roots l i ks = tloc <$> ks.
Proof. revert i. induction ks as [|k ks IH]; intros i; [done|]. simpl. f_equal. apply IH. Qed.

Lemma cells_plug C t :
  cells None 0 (plug C t) ≡ₚ ctx_cells C (tloc t) ++ cells (ctx_par C) (ctx_idx C) t.
Proof.
  revert t. induction C as [|f C IH]; intros t; [done|]. cbn [plug]. rewrite IH, cells_eq.
  rewrite roots_app, subs_app, subs_cons, fmap_app, fmap_cons. cbn [ctx_cells roots ctx_par ctx_idx Nat.add tloc].
  unfold cells, frame_cell. solve_Permutation.
Qed.

(** A node and what surrounds it. *)
Lemma cells_plug_node C l ss ks :
  cells None 0 (plug C (T l ss ks)) ≡ₚ
  mkCell l (ctx_par C) (ctx_idx C) ss (tloc <$> ks) :: roots l 0 ks ++ subs ks ++ ctx_cells C l.
Proof. rewrite cells_plug, cells_eq. simpl tloc. solve_Permutation. Qed.

Lemma models_app h cs1 cs2 : models h (cs1 ++ cs2) → models h cs1.
Proof. intros [Hnd Hok]. rewrite fmap_app in Hnd. apply NoDup_app in Hnd as [? _]. apply Forall_app in Hok as [? _]. done. Qed.

(** A change to the nodes of some cells, and new nodes. *)
Lemma models_update h h' A A' R :
  models h (A ++ R) → next h ≤ next h' →
  (∀ x, x ∉ (c_loc <$> A) → x < next h → nodes h' !! x = nodes h !! x) →
  models h' A' →
  (∀ x, x ∈ (c_loc <$> A') → x ∈ (c_loc <$> A) ∨ next h ≤ x) →
  models h' (A' ++ R).
Proof.
  intros [Hnd Hok] Hnext Hsame [Hnd' Hok'] Hsub. rewrite fmap_app in Hnd. apply NoDup_app in Hnd as (_ & Hdisj & HndR).
  apply Forall_app in Hok as [_ HokR]. split.
  - rewrite fmap_app. apply NoDup_app. split; [done|]. split; [|done]. intros x Hx HxR.
    destruct (Hsub x Hx) as [HA|Hge]; [by eapply Hdisj|].
    apply list_elem_of_fmap in HxR as (c & -> & Hc). rewrite Forall_forall in HokR. destruct (HokR c Hc) as [? _]. lia.
  - apply Forall_app. split; [done|]. rewrite Forall_forall in HokR |- *. intros c Hc. destruct (HokR c Hc) as [Hlt (nd & E & Hn)].
    split; [lia|]. exists nd. split; [|done]. rewrite Hsame; [done| |done]. intros HA. apply (Hdisj _ HA).
    apply list_elem_of_fmap. by exists c.
Qed.

(** ** Reading *)

Lemma models_cell h cs c : models h cs → c ∈ cs → ∃ nd, nodes h !! c_loc c = Some nd ∧ node_ok nd c.
Proof. intros [_ Hok] Hc. rewrite Forall_forall in Hok. by destruct (Hok c Hc). Qed.

Lemma rep_node h C l ss ks :
  rep h (plug C (T l ss ks)) →
  ∃ nd, nodes h !! l = Some nd ∧ node_ok nd (mkCell l (ctx_par C) (ctx_idx C) ss (tloc <$> ks)).
Proof.
  intros [_ Hm]. rewrite cells_plug_node in Hm. destruct (models_cell _ _ (mkCell l (ctx_par C) (ctx_idx C) ss (tloc <$> ks)) Hm)
    as (nd & E & Hn); [apply elem_of_cons; by left|]. by exists nd.
Qed.

Lemma node_has nd l par idx ss ks d : node_ok nd (mkCell l par idx ss (tloc <$> ks)) → wf d (T l ss ks) →
  hasChildren nd = match d with O => false | S _ => true end.
Proof.
  intros Hn Hw. rewrite (ok_hasChildren _ _ Hn). simpl. destruct d as [|d].
  - by destruct Hw as [_ ->].
  - apply wf_kids in Hw as (_ & Hl & _). by destruct ks.
Qed.

Lemma node_child nd l par idx ss ks i k :
  node_ok nd (mkCell l par idx ss (tloc <$> ks)) → ks !! i = Some k → children nd !! i = Some (Some (tloc k)).
Proof.
  intros Hn Hk. eapply arr_lookup; [apply (ok_children _ _ Hn)|]. simpl. by rewrite !list_lookup_fmap, Hk.
Qed.

Lemma node_key nd l par idx ss kids i s :
  node_ok nd (mkCell l par idx ss kids) → ss !! i = Some s → keys nd !! i = Some s.1 ∧ values nd !! i = Some s.2.
Proof.
  intros Hn Hs. split; (eapply arr_lookup; [apply Hn|]); simpl; by rewrite list_lookup_fmap, Hs.
Qed.

(** A node is not on the way from itself to the root. *)
Lemma ctx_cells_locs C hole x : x ∈ f_loc <$> C → x ∈ c_loc <$> ctx_cells C hole.
Proof.
  revert hole. induction C as [|f C IH]; intros hole Hx; [by apply elem_of_nil in Hx|].
  rewrite fmap_cons in Hx. cbn [ctx_cells]. rewrite fmap_cons. apply elem_of_cons in Hx as [->|Hx]; [left|right].
  rewrite !fmap_app, !elem_of_app. do 4 right. by apply IH.
Qed.

Lemma rep_ctx h C t : rep h (plug C t) → tloc t ∉ f_loc <$> C.
Proof.
  intros [_ [Hnd _]] Hx. rewrite cells_plug, fmap_app, NoDup_app in Hnd. destruct Hnd as (_ & Hd & _).
  eapply Hd; [by apply ctx_cells_locs|]. left.
Qed.

(** ** Fuel *)

Lemma NoDup_bound (xs : list nat) n : NoDup xs → Forall (λ x, x < n) xs → length xs ≤ n.
Proof.
  intros Hnd Hlt. rewrite <- (length_seq n 0). apply submseteq_length, NoDup_submseteq; [done|].
  intros x Hx. rewrite Forall_forall in Hlt. apply elem_of_seq. specialize (Hlt x Hx). lia.
Qed.

Lemma models_bound h cs : models h cs → length cs ≤ next h.
Proof.
  intros [Hnd Hok]. rewrite <- (length_fmap c_loc). apply NoDup_bound; [done|]. apply Forall_fmap.
  eapply Forall_impl; [exact Hok|]. by intros c [? _].
Qed.

Lemma roots_subs_length l i ks : length ks ≤ length (roots l i ks ++ subs ks).
Proof. rewrite length_app, <- (length_fmap c_loc (roots _ _ _)), roots_loc, length_fmap. lia. Qed.

Lemma height_cells d par idx t : wf d t → S d ≤ length (cells par idx t).
Proof.
  revert par idx t. induction d as [|d IH]; intros par idx [l ss ks] Hw; [simpl; lia|].
  apply wf_kids in Hw as (_ & Hl & Hk). destruct ks as [|k ks]; [done|]. apply Forall_cons in Hk as [[_ Hk] _].
  rewrite cells_eq. rewrite subs_cons. cbn [roots]. specialize (IH (Some l) 0 k Hk). unfold cells in IH. simpl in IH |- *.
  rewrite !length_app. lia.
Qed.

Lemma ctx_cells_length C hole : length C ≤ length (ctx_cells C hole).
Proof. revert hole. induction C as [|f C IH]; intros hole; simpl; [lia|]. rewrite !length_app. specialize (IH (f_loc f)). lia. Qed.

(** No walk along the tree is longer than the number of nodes. *)
Lemma rep_fuel h d C t : rep h (plug C t) → wf d t → length C + S d ≤ next h.
Proof.
  intros [_ Hm] Hw. apply models_bound in Hm. rewrite cells_plug, length_app in Hm.
  pose proof (ctx_cells_length C (tloc t)). pose proof (height_cells d (ctx_par C) (ctx_idx C) t Hw). lia.
Qed.
End Rep.
