(* ===== verification/SegIter.v ===== *)
(** * Iterators of a segment set and search

    What the operations on iterators do to the position of the iterator among the segments
    and gaps of the tree, and what a search finds. *)

From stdpp Require Import base numbers decidable gmap sorting list.
From S2P Require Import SegSet SegHeap SegTree Prelude.

(** What the code relies on in the parameters of the template. *)
Class FunctionsLaws (Value : Type) `{Functions Value} : Prop := {
  minDegree_3 : 3 ≤ minDegree;
  key_arith_id z : (0 <= z <= MaxKey - MinKey)%Z → key_arith z = z
}.

(** The entry before position [k]. *)
Definition prev_at {A} (l : list A) (k : nat) : option A := match k with O => None | S k => l !! k end.

Lemma prev_at_app {A} (l1 l2 : list A) x k : k = S (length l1) → prev_at (l1 ++ x :: l2) k = Some x.
Proof. intros ->. simpl. by apply list_lookup_middle. Qed.

Lemma prev_at_last {A} (l1 l2 : list A) : prev_at (l1 ++ l2) (length l1) = last l1.
Proof.
  destruct (decide (l1 = [])) as [->|Hne]; [done|]. destruct l1 as [|x l1 _] using rev_ind; [done|].
  rewrite last_snoc, length_app, Nat.add_comm, <- (assoc_L (++)). simpl. by apply list_lookup_middle.
Qed.

Lemma lookup_middle_eq {A} (l l1 l2 : list A) x k : l = l1 ++ x :: l2 → k = length l1 → l !! k = Some x.
Proof. intros -> ->. by apply list_lookup_middle. Qed.

Section Iter.
Context {Value : Type} `{FL : FunctionsLaws Value}.
Local Abbreviation seg := (Range * Value)%type.
Implicit Types (t : tree Value) (ks : list (tree Value)) (ss : list seg) (C : list (frame Value)) (l n : loc).
Implicit Types (h : heap Value) (nd : setNode Value).

Local Ltac get_node Hr nd E Hn :=
  let Hx := fresh in
  pose proof (rep_node _ _ _ _ _ Hr) as Hx; destruct Hx as (nd & E & Hn).

Lemma run_bind {A B} (m : prog Value A) (k : A → prog Value B) h a h' r :
  m h = Some (a, h') → k a h' = r → (m ≫= k) h = r.
Proof. intros E <-. cbv [mbind prog_bind]. by rewrite E. Qed.

Lemma run_load h n nd : nodes h !! n = Some nd → load n h = Some (nd, h).
Proof. intros E. unfold load. by rewrite E. Qed.

Lemma run_child h n nd c i : nodes h !! n = Some nd → children nd !! i = Some (Some c) → child n i h = Some (c, h).
Proof. intros E Ec. eapply run_bind; [by apply run_load|]. by rewrite Ec. Qed.

(** ** The first and the last segment *)

(** The first child of a node, with its context. *)
Lemma first_child d C l ss ks :
  tree_ok (S d) C (T l ss ks) →
  ∃ k ks', ks = k :: ks' ∧ tree_ok d (Frame l [] [] ss ks' :: C) k ∧ length ks' = length ss.
Proof.
  intros Ht. pose proof Ht as (_ & (_ & Hl & _)%wf_kids & _). destruct ks as [|k ks]; [done|]. simpl in Hl.
  exists k, ks. split; [done|]. split; [|lia]. apply (tree_ok_child d C l [] ss [] k ks); [done|simpl; lia|done].
Qed.

Lemma last_child d C l ss ks :
  tree_ok (S d) C (T l ss ks) →
  ∃ k ks', ks = ks' ++ [k] ∧ tree_ok d (Frame l ss ks' [] [] :: C) k ∧ length ks' = length ss.
Proof.
  intros Ht. pose proof Ht as (_ & (_ & Hl & _)%wf_kids & _). destruct ks as [|k ks _] using rev_ind; [done|].
  rewrite length_app in Hl. simpl in Hl. exists k, ks. split; [done|]. split; [|lia].
  apply (tree_ok_child d C l ss [] ks k []); [simpl; lia|done|by rewrite app_nil_r].
Qed.

Lemma kid_nonempty d f C t : tree_ok d (f :: C) t → 1 ≤ length (tsegs t).
Proof. intros (_ & _ & He). simpl in He. pose proof minDegree_3. lia. Qed.

Definition in_leaf h (it : loc * nat) : Prop := ∃ nd, nodes h !! it.1 = Some nd ∧ hasChildren nd = false.

Lemma first_segment_spec fuel d C t h :
  rep h (plug C t) → tree_ok d C t → 1 ≤ length (tsegs t) → d < fuel →
  ∃ x, first_segment fuel (tloc t) h = Some (x.1, h) ∧ items t !! 0 = Some x ∧ in_leaf h x.1.
Proof.
  revert fuel C t. induction d as [|d IH]; intros [|fuel] C [l ss ks] Hr Ht Hne Hf; try lia.
  - get_node Hr nd E Hn. pose proof Ht as (_ & [_ ->] & _). destruct ss as [|s ss]; [simpl in Hne; lia|].
    assert (Hc : hasChildren nd = false) by (by rewrite (ok_hasChildren _ _ Hn)).
    exists ((l, 0), s). split; [|split; [done|by exists nd]]. simpl. eapply run_bind; [by apply run_load|]. by rewrite Hc.
  - get_node Hr nd E Hn. destruct (first_child _ _ _ _ _ Ht) as (k & ks' & -> & Hk & Hl).
    destruct (IH fuel (Frame l [] [] ss ks' :: C) k) as (x & Ex & Hx & Hleaf);
      [done|done|by eapply kid_nonempty|lia|]. exists x. split; [|split; [|done]].
    + simpl. eapply run_bind; [by apply run_load|]. rewrite (ok_hasChildren _ _ Hn). simpl.
      eapply run_bind; [|exact Ex]. eapply run_child; [done|]. by eapply node_child.
    + rewrite items_eq, fmap_cons, weave_post by (rewrite length_fmap, length_nitems; done).
      by apply lookup_app_l_Some.
Qed.

Lemma last_segment_spec fuel d C t h :
  rep h (plug C t) → tree_ok d C t → 1 ≤ length (tsegs t) → d < fuel →
  ∃ x, last_segment fuel (tloc t) h = Some (x.1, h) ∧ last (items t) = Some x ∧ in_leaf h x.1.
Proof.
  revert fuel C t. induction d as [|d IH]; intros [|fuel] C [l ss ks] Hr Ht Hne Hf; try lia.
  - get_node Hr nd E Hn. pose proof Ht as (_ & [_ ->] & _). destruct ss as [|s ss _] using rev_ind; [simpl in Hne; lia|].
    assert (Hc : hasChildren nd = false) by (by rewrite (ok_hasChildren _ _ Hn)).
    exists ((l, length ss), s). split; [|split; [|by exists nd]].
    + simpl. eapply run_bind; [by apply run_load|]. rewrite Hc, (ok_nr _ _ Hn). simpl.
      by rewrite length_app, Nat.add_sub.
    + rewrite items_eq. simpl. rewrite nitems_app. simpl. apply last_snoc.
  - get_node Hr nd E Hn. destruct (last_child _ _ _ _ _ Ht) as (k & ks' & -> & Hk & Hl).
    destruct (IH fuel (Frame l ss ks' [] [] :: C) k) as (x & Ex & Hx & Hleaf);
      [simpl; by rewrite app_nil_r|done|by eapply kid_nonempty|lia|]. exists x. split; [|split; [|done]].
    + simpl. eapply run_bind; [by apply run_load|]. rewrite (node_has _ _ _ _ _ _ (S d) Hn (proj1 (proj2 Ht))).
      eapply run_bind; [|exact Ex]. eapply run_child; [done|]. eapply node_child; [done|].
      rewrite (ok_nr _ _ Hn). simpl. rewrite <- Hl. by apply list_lookup_middle.
    + rewrite items_eq, fmap_app. rewrite <- (app_nil_r (nitems l 0 ss)).
      rewrite (weave_split (items <$> ks') (items k) [] _ []) by (rewrite ?length_fmap, ?length_nitems; done).
      unfold post. simpl. by rewrite app_nil_r, last_app, Hx.
Qed.

Lemma firstSegment_spec d C t h :
  rep h (plug C t) → tree_ok d C t → 1 ≤ length (tsegs t) →
  ∃ x, firstSegment (tloc t) h = Some (x.1, h) ∧ items t !! 0 = Some x ∧ in_leaf h x.1.
Proof.
  intros Hr Ht Hne. pose proof (rep_fuel _ _ _ _ Hr (proj1 (proj2 Ht))).
  destruct (first_segment_spec (next h) d C t h) as (x & E & Hx); [done|done|done|lia|]. by exists x.
Qed.

Lemma lastSegment_spec d C t h :
  rep h (plug C t) → tree_ok d C t → 1 ≤ length (tsegs t) →
  ∃ x, lastSegment (tloc t) h = Some (x.1, h) ∧ last (items t) = Some x ∧ in_leaf h x.1.
Proof.
  intros Hr Ht Hne. pose proof (rep_fuel _ _ _ _ Hr (proj1 (proj2 Ht))).
  destruct (last_segment_spec (next h) d C t h) as (x & E & Hx); [done|done|done|lia|]. by exists x.
Qed.

(** ** Positions *)

(** The last segment to the left of the way down to a child. *)
Lemma before_up fuel d C t h :
  rep h (plug C t) → wf_ctx d C → length C < fuel →
  before_position fuel (tloc t) 0 h = Some (fst <$> last (left_items C), h).
Proof.
  revert d t fuel. induction C as [|f C IH]; intros d [l ss ks] [|fuel] Hr Hw Hf; simpl in Hf; try lia.
  - get_node Hr nd E Hn. simpl. eapply run_bind; [by apply run_load|]. by rewrite (ok_parent _ _ Hn).
  - get_node Hr nd E Hn. simpl. eapply run_bind; [by apply run_load|]. rewrite (ok_parent _ _ Hn), (ok_index _ _ Hn). simpl.
    destruct Hw as (E1 & _ & _ & _ & _ & _ & Hw). unfold frame_left.
    destruct f as [l' ss1 ks1 ss2 ks2]. simpl in *. destruct ss1 as [|s ss1 _] using rev_ind.
    + apply nil_length_inv in E1 as ->. unfold pre. simpl. rewrite app_nil_r.
      by apply (IH (S d) (T l' ss2 (T l ss ks :: ks2))); [|done|lia].
    + destruct ks1 as [|k ks1 _] using rev_ind; [rewrite length_app in E1; simpl in E1; lia|].
      rewrite !length_app in E1. rewrite length_app. simpl in E1 |- *. assert (E1' : length ks1 = length ss1) by lia.
      rewrite fmap_app, nitems_app, pre_app by (by rewrite length_fmap, length_nitems).
      unfold pre at 2. simpl. rewrite app_nil_r, !(assoc_L (++)), last_snoc.
      replace (length ks1 + 1) with (S (length ss1)) by lia. by destruct fuel.
Qed.

Lemma after_up fuel d C t h :
  rep h (plug C t) → wf_ctx d C → length C < fuel →
  after_position fuel (tloc t) (length (tsegs t)) h = Some (fst <$> head (right_items C), h).
Proof.
  revert d t fuel. induction C as [|f C IH]; intros d [l ss ks] [|fuel] Hr Hw Hf; simpl in Hf; try lia.
  - get_node Hr nd E Hn. simpl. eapply run_bind; [by apply run_load|].
    by rewrite (ok_parent _ _ Hn), (ok_nr _ _ Hn), Nat.eqb_refl.
  - get_node Hr nd E Hn. simpl. eapply run_bind; [by apply run_load|].
    rewrite (ok_parent _ _ Hn), (ok_index _ _ Hn), (ok_nr _ _ Hn), Nat.eqb_refl. simpl.
    destruct Hw as (E1 & E2 & _ & _ & _ & _ & Hw). unfold frame_right.
    destruct f as [l' ss1 ks1 ss2 ks2]. simpl in *. destruct ss2 as [|s ss2].
    + apply nil_length_inv in E2 as ->. unfold post. simpl. rewrite E1.
      assert (IH' := IH (S d) (T l' ss1 (ks1 ++ [T l ss ks])) fuel). simpl in IH'. rewrite app_nil_r in Hr.
      apply IH'; [done|done|lia].
    + destruct ks2 as [|k ks2]; [done|]. simpl in *. destruct fuel as [|fuel]; [lia|]. simpl. get_node Hr nd' E' Hn'.
      eapply run_bind; [by apply run_load|]. rewrite (ok_nr _ _ Hn'). simpl. rewrite length_app. simpl.
      destruct (Nat.eqb_spec (length ks1) (length ss1 + S (length ss2))) as [?|_]; [lia|]. by rewrite E1.
Qed.

(** The same from the position in the parent. *)
Lemma before_frame fuel d f C t h :
  rep h (plug (f :: C) t) → wf_ctx d (f :: C) → length C < fuel →
  before_position fuel (f_loc f) (length (ksL f)) h = Some (fst <$> last (left_items (f :: C)), h).
Proof.
  intros Hr Hw Hf. rewrite <- (before_up (S fuel) d (f :: C) t) by (simpl; done || lia).
  destruct t as [l ss ks]. get_node Hr nd E Hn. simpl. symmetry. eapply run_bind; [by apply run_load|].
  by rewrite (ok_parent _ _ Hn), (ok_index _ _ Hn).
Qed.

Lemma after_frame fuel d f C t h :
  rep h (plug (f :: C) t) → wf_ctx d (f :: C) → length C < fuel →
  after_position fuel (f_loc f) (length (ksL f)) h = Some (fst <$> head (right_items (f :: C)), h).
Proof.
  intros Hr Hw Hf. rewrite <- (after_up (S fuel) d (f :: C) t) by (simpl; done || lia).
  destruct t as [l ss ks]. get_node Hr nd E Hn. simpl. symmetry. eapply run_bind; [by apply run_load|].
  by rewrite (ok_parent _ _ Hn), (ok_index _ _ Hn), (ok_nr _ _ Hn), Nat.eqb_refl.
Qed.

(** ** Iterators of a tree *)

(** The heap represents the tree, which is a B-tree. *)
Definition is_tree h t : Prop := rep h t ∧ ∃ d, tree_ok d [] t.

Lemma is_tree_plug h d C t : rep h (plug C t) → tree_ok d C t → is_tree h (plug C t).
Proof. intros Hr Ht. split; [done|by eapply tree_ok_root]. Qed.

Lemma gap_place t k n i :
  (∃ d, tree_ok d [] t) → gaps t !! k = Some (n, i) →
  ∃ C ss1 ss2, t = plug C (T n (ss1 ++ ss2) []) ∧ tree_ok 0 C (T n (ss1 ++ ss2) []) ∧ length ss1 = i ∧
    k = length (left_items C) + i.
Proof.
  intros [d Ht] Hg. destruct (gaps_inv d [] t k n i Ht Hg) as (C & ss1 & ss2 & E & Ht' & Ei & Ek).
  exists C, ss1, ss2. split; [done|]. split; [done|]. split; [done|]. simpl in Ek.
  by rewrite <- (left_gaps_count 0 C (proj1 Ht')).
Qed.

Lemma item_place t k n i s :
  (∃ d, tree_ok d [] t) → items t !! k = Some ((n, i), s) →
  ∃ d C ss1 ss2 ks1 ks2, t = plug C (T n (ss1 ++ s :: ss2) (ks1 ++ ks2)) ∧
    tree_ok d C (T n (ss1 ++ s :: ss2) (ks1 ++ ks2)) ∧ length ss1 = i ∧ split_kids d ss1 ss2 ks1 ks2 ∧
    k = length (left_items C) + length (items_from n 0 ss1 ks1).
Proof. intros [d Ht] Hx. exact (items_inv d [] t k n i s Ht Hx). Qed.

(** The segments around those of a leaf. *)
Lemma items_leaf C n ss :
  wf_ctx 0 C → items (plug C (T n ss [])) = left_items C ++ nitems n 0 ss ++ right_items C.
Proof. intros Hw. by rewrite (items_plug 0). Qed.

Lemma gap_PrevSegment_spec h t k g :
  is_tree h t → gaps t !! k = Some g → gap_PrevSegment g h = Some (fst <$> prev_at (items t) k, h).
Proof.
  destruct g as [n i]. intros [Hr Ht] Hg. destruct (gap_place t k n i Ht Hg) as (C & ss1 & ss2 & -> & Ht' & <- & ->).
  pose proof (rep_fuel _ _ _ _ Hr (proj1 (proj2 Ht'))) as Hf. destruct Ht' as (Hw & _).
  change (before_position (next h) n (length ss1) h = Some (fst <$> prev_at (items (plug C (T n (ss1 ++ ss2) []))) (length (left_items C) + length ss1), h)).
  rewrite items_leaf by done. destruct ss1 as [|s ss1 _] using rev_ind.
  - rewrite Nat.add_0_r, prev_at_last. apply (before_up _ 0 C (T n ss2 [])); [done|done|lia].
  - rewrite length_app, Nat.add_comm. simpl. rewrite <- (assoc_L (++) ss1), nitems_app, <- (assoc_L (++) (nitems _ _ _)), (assoc_L (++)).
    simpl. rewrite prev_at_app by (rewrite length_app, length_nitems; lia).
    by destruct (next h).
Qed.

Lemma gap_NextSegment_spec h t k g :
  is_tree h t → gaps t !! k = Some g → gap_NextSegment g h = Some (fst <$> items t !! k, h).
Proof.
  destruct g as [n i]. intros [Hr Ht] Hg. destruct (gap_place t k n i Ht Hg) as (C & ss1 & ss2 & -> & Ht' & <- & ->).
  pose proof (rep_fuel _ _ _ _ Hr (proj1 (proj2 Ht'))) as Hf. destruct Ht' as (Hw & _).
  change (after_position (next h) n (length ss1) h = Some (fst <$> items (plug C (T n (ss1 ++ ss2) [])) !! (length (left_items C) + length ss1), h)).
  rewrite items_leaf by done. rewrite lookup_app_r by lia. rewrite (Nat.add_comm (length (left_items C))), Nat.add_sub.
  destruct ss2 as [|s ss2].
  - rewrite app_nil_r in *. rewrite lookup_app_r by (rewrite length_nitems; done). rewrite length_nitems, Nat.sub_diag.
    rewrite <- head_lookup. apply (after_up _ 0 C (T n ss1 [])); [done|done|lia].
  - rewrite nitems_app, <- (assoc_L (++)). simpl. rewrite list_lookup_middle by (by rewrite length_nitems).
    destruct (next h) as [|fuel]; [lia|]. simpl. get_node Hr nd E Hn. eapply run_bind; [by apply run_load|].
    rewrite (ok_nr _ _ Hn). simpl. rewrite length_app. simpl.
    destruct (Nat.eqb_spec (length ss1) (length ss1 + S (length ss2))); [lia|done].
Qed.

Lemma item_split d n ss1 s ss2 ks1 ks2 :
  split_kids d ss1 ss2 ks1 ks2 →
  items (T n (ss1 ++ s :: ss2) (ks1 ++ ks2)) =
  items_from n 0 ss1 ks1 ++ ((n, length ss1), s) :: items_from n (S (length ss1)) ss2 ks2.
Proof. apply (items_from_join d n 0). Qed.

Lemma seg_Range_spec h t k x : is_tree h t → items t !! k = Some x → seg_Range x.1 h = Some (x.2.1, h).
Proof.
  destruct x as [[n i] s]. intros [Hr Ht] Hx. destruct (item_place t k n i s Ht Hx) as (d & C & ss1 & ss2 & ks1 & ks2 & -> & _ & <- & _).
  get_node Hr nd E Hn. eapply run_bind; [by apply run_load|]. simpl.
  destruct (node_key _ _ _ _ _ _ (length ss1) s Hn) as [-> _]; [by apply list_lookup_middle|done].
Qed.

Lemma seg_Value_spec h t k x : is_tree h t → items t !! k = Some x → seg_Value x.1 h = Some (x.2.2, h).
Proof.
  destruct x as [[n i] s]. intros [Hr Ht] Hx. destruct (item_place t k n i s Ht Hx) as (d & C & ss1 & ss2 & ks1 & ks2 & -> & _ & <- & _).
  get_node Hr nd E Hn. eapply run_bind; [by apply run_load|]. simpl.
  destruct (node_key _ _ _ _ _ _ (length ss1) s Hn) as [_ ->]; [by apply list_lookup_middle|done].
Qed.

(** The child before and the child after a segment. *)
Lemma kid_before d C n ss1 s ss2 ks1 ks2 :
  tree_ok (S d) C (T n (ss1 ++ s :: ss2) (ks1 ++ ks2)) → split_kids (S d) ss1 ss2 ks1 ks2 →
  ∃ k0 ks0, ks1 = ks0 ++ [k0] ∧ length ks0 = length ss1 ∧ tree_ok d (Frame n ss1 ks0 (s :: ss2) ks2 :: C) k0.
Proof.
  intros Ht [E1 E2]. destruct ks1 as [|k0 ks0 _] using rev_ind; [done|]. rewrite length_app in E1. simpl in E1.
  exists k0, ks0. split; [done|]. split; [lia|]. apply tree_ok_child; [lia|done|]. by rewrite <- (assoc_L (++)) in Ht.
Qed.

Lemma kid_after d C n ss1 s ss2 ks1 ks2 :
  tree_ok (S d) C (T n (ss1 ++ s :: ss2) (ks1 ++ ks2)) → split_kids (S d) ss1 ss2 ks1 ks2 →
  ∃ k0 ks0, ks2 = k0 :: ks0 ∧ length ks0 = length ss2 ∧ tree_ok d (Frame n (ss1 ++ [s]) ks1 ss2 ks0 :: C) k0.
Proof.
  intros Ht [E1 E2]. destruct ks2 as [|k0 ks0]; [done|]. simpl in E2. exists k0, ks0. split; [done|]. split; [lia|].
  apply tree_ok_child; [rewrite length_app; simpl; lia|lia|]. by rewrite <- (assoc_L (++)).
Qed.

Lemma items_from_last n i ss1 ks0 (k0 : tree Value) :
  length ks0 = length ss1 → items_from n i ss1 (ks0 ++ [k0]) = pre (items <$> ks0) (nitems n i ss1) ++ items k0.
Proof.
  intros E. unfold items_from. rewrite fmap_app. rewrite <- (app_nil_r (nitems n i ss1)) at 1.
  rewrite (weave_split (items <$> ks0) (items k0) [] _ []) by (rewrite ?length_fmap, ?length_nitems; done).
  unfold post. simpl. by rewrite app_nil_r.
Qed.

Lemma items_from_first n i ss2 (k0 : tree Value) ks0 :
  length ks0 = length ss2 → items_from n i ss2 (k0 :: ks0) = items k0 ++ post (nitems n i ss2) (items <$> ks0).
Proof. intros E. unfold items_from. rewrite fmap_cons. apply weave_post. by rewrite length_fmap, length_nitems. Qed.

(** The segment before one of an internal node is the last one of a child. *)
Lemma internal_prev h t k n i s nd :
  is_tree h t → items t !! k = Some ((n, i), s) → nodes h !! n = Some nd → hasChildren nd = true →
  ∃ c y k', k = S k' ∧ child n i h = Some (c, h) ∧ lastSegment c h = Some (y.1, h) ∧ items t !! k' = Some y ∧ in_leaf h y.1.
Proof.
  intros [Hr Ht] Hx E Hc.
  destruct (item_place t k n i s Ht Hx) as (d & C & ss1 & ss2 & ks1 & ks2 & -> & Hok & <- & Hsp & ->).
  pose proof Hok as (Hw & Hwf & _). destruct (rep_node _ _ _ _ _ Hr) as (nd' & E' & Hn). simplify_eq.
  rewrite (node_has _ _ _ _ _ _ d Hn Hwf) in Hc. destruct d as [|d]; [done|].
  destruct (kid_before _ _ _ _ _ _ _ _ Hok Hsp) as (k0 & ks0 & -> & E0 & Hk).
  rewrite <- !(assoc_L (++)) in Hr, Hn.
  destruct (lastSegment_spec d (Frame n ss1 ks0 (s :: ss2) ks2 :: C) k0 h Hr Hk) as (y & Ey & Hl & Hleaf); [by eapply kid_nonempty|].
  rewrite (items_plug (S d)), (item_split (S d)), items_from_last by done.
  apply last_Some in Hl as [l' El]. rewrite El, <- !(assoc_L (++)).
  exists (tloc k0), y, (length (left_items C ++ pre (items <$> ks0) (nitems n 0 ss1) ++ l')).
  split; [rewrite !length_app; simpl; lia|]. split.
  { eapply run_child; [done|]. eapply node_child; [done|]. rewrite <- E0. by apply list_lookup_middle. }
  split; [done|]. split; [|done].
  eapply lookup_middle_eq; [|done]. by rewrite <- !(assoc_L (++)).
Qed.

Lemma internal_next h t k n i s nd :
  is_tree h t → items t !! k = Some ((n, i), s) → nodes h !! n = Some nd → hasChildren nd = true →
  ∃ c y, child n (i + 1) h = Some (c, h) ∧ firstSegment c h = Some (y.1, h) ∧ items t !! S k = Some y ∧ in_leaf h y.1.
Proof.
  intros [Hr Ht] Hx E Hc.
  destruct (item_place t k n i s Ht Hx) as (d & C & ss1 & ss2 & ks1 & ks2 & -> & Hok & <- & Hsp & ->).
  pose proof Hok as (Hw & Hwf & _). destruct (rep_node _ _ _ _ _ Hr) as (nd' & E' & Hn). simplify_eq.
  rewrite (node_has _ _ _ _ _ _ d Hn Hwf) in Hc. destruct d as [|d]; [done|].
  destruct (kid_after _ _ _ _ _ _ _ _ Hok Hsp) as (k0 & ks0 & -> & E0 & Hk).
  assert (Hr' : rep h (plug (Frame n (ss1 ++ [s]) ks1 ss2 ks0 :: C) k0)) by (simpl; by rewrite <- (assoc_L (++))).
  destruct (firstSegment_spec d _ k0 h Hr' Hk) as (y & Ey & Hl & Hleaf); [by eapply kid_nonempty|].
  rewrite (items_plug (S d)), (item_split (S d)), items_from_first by done.
  exists (tloc k0), y. split.
  { eapply run_child; [done|]. eapply node_child; [done|]. destruct Hsp as [E1 _].
    rewrite Nat.add_1_r, <- E1. by apply list_lookup_middle. }
  split; [done|]. split; [|done]. destruct (items k0) as [|y' l']; [done|]. injection Hl as ->.
  eapply (lookup_middle_eq _ (left_items C ++ items_from n 0 ss1 ks1 ++ [((n, length ss1), s)]));
    [by rewrite <- !(assoc_L (++))|rewrite !length_app; simpl; lia].
Qed.

Lemma PrevSegment_spec h t k x :
  is_tree h t → items t !! k = Some x → PrevSegment x.1 h = Some (fst <$> prev_at (items t) k, h).
Proof.
  destruct x as [[n i] s]. intros [Hr Ht] Hx.
  destruct (item_place t k n i s Ht Hx) as (d & C & ss1 & ss2 & ks1 & ks2 & Et & Hok & <- & Hsp & Ek).
  assert (Hr' := Hr). rewrite Et in Hr'. get_node Hr' nd E Hn. pose proof Hok as (Hw & Hwf & _).
  pose proof (rep_fuel _ _ _ _ Hr' Hwf) as Hf.
  assert (Hc := node_has _ _ _ _ _ _ d Hn Hwf). eapply run_bind; [by apply run_load|]. simpl. rewrite Hc.
  destruct d as [|d].
  - rewrite Ek, Et, (items_plug 0), (item_split 0), <- (assoc_L (++)), (assoc_L (++) (left_items C)), <- length_app, prev_at_last by done.
    destruct Hsp as [-> ->]. unfold items_from. simpl. destruct ss1 as [|s1 ss1 _] using rev_ind.
    + simpl. rewrite app_nil_r, (ok_parent _ _ Hn), (ok_index _ _ Hn). simpl. destruct C as [|f C]; [done|].
      simpl ctx_par. cbn iota. eapply run_bind; [done|].
      apply (before_frame _ 0 f C (T n (s :: ss2) [])); [done|done|simpl in Hf; lia].
    + rewrite nitems_app, (assoc_L (++)). simpl. rewrite last_snoc, length_app, Nat.add_comm. simpl. by rewrite Nat.sub_0_r.
  - destruct (internal_prev h t k n (length ss1) s nd) as (c & y & k' & -> & Ec & Ey & Hy & _); [done|done|done|done|].
    eapply run_bind; [exact Ec|]. eapply run_bind; [exact Ey|]. simpl. by rewrite Hy.
Qed.

Lemma NextSegment_spec h t k x :
  is_tree h t → items t !! k = Some x → NextSegment x.1 h = Some (fst <$> items t !! S k, h).
Proof.
  destruct x as [[n i] s]. intros [Hr Ht] Hx.
  destruct (item_place t k n i s Ht Hx) as (d & C & ss1 & ss2 & ks1 & ks2 & Et & Hok & <- & Hsp & Ek).
  assert (Hr' := Hr). rewrite Et in Hr'. get_node Hr' nd E Hn. pose proof Hok as (Hw & Hwf & _).
  pose proof (rep_fuel _ _ _ _ Hr' Hwf) as Hf.
  assert (Hc := node_has _ _ _ _ _ _ d Hn Hwf). eapply run_bind; [by apply run_load|]. simpl. rewrite Hc.
  destruct d as [|d].
  - rewrite Ek, Et, (items_plug 0), (item_split 0), <- (assoc_L (++)), (assoc_L (++) (left_items C)), <- length_app by done.
    rewrite <- app_comm_cons, lookup_app_r by lia. rewrite Nat.sub_succ_l, Nat.sub_diag by done. simpl lookup.
    destruct Hsp as [-> ->]. unfold items_from. simpl. rewrite (ok_nr _ _ Hn). simpl. rewrite length_app.
    destruct ss2 as [|s2 ss2].
    + simpl. rewrite Nat.ltb_irrefl, (ok_parent _ _ Hn), (ok_index _ _ Hn). simpl. destruct C as [|f C]; [done|].
      simpl ctx_par. cbn iota. eapply run_bind; [done|]. rewrite <- head_lookup.
      apply (after_frame _ 0 f C (T n (ss1 ++ [s]) [])); [done|done|simpl in Hf; lia].
    + destruct (Nat.ltb_spec (length ss1 + 1) (length ss1 + length (s :: s2 :: ss2))) as [_|]; [|simpl in *; lia].
      simpl. by rewrite Nat.add_1_r.
  - destruct (internal_next h t k n (length ss1) s nd) as (c & y & Ec & Ey & Hy & _); [done|done|done|done|].
    eapply run_bind; [exact Ec|]. eapply run_bind; [exact Ey|]. by rewrite Hy.
Qed.

(** The gaps around a segment of a leaf. *)
Lemma leaf_gaps h t k it s :
  is_tree h t → items t !! k = Some (it, s) → in_leaf h it →
  gaps t !! k = Some it ∧ gaps t !! (S k) = Some (it.1, it.2 + 1).
Proof.
  destruct it as [n i]. intros [Hr Ht] Hx (nd & E & Hl).
  destruct (item_place t k n i s Ht Hx) as (d & C & ss1 & ss2 & ks1 & ks2 & -> & Hok & <- & Hsp & ->).
  pose proof Hok as (Hw & Hwf & _). destruct (rep_node _ _ _ _ _ Hr) as (nd' & E' & Hn). simpl in E. simplify_eq.
  rewrite (node_has _ _ _ _ _ _ d Hn Hwf) in Hl. destruct d as [|d]; [|done]. destruct Hsp as [-> ->].
  unfold items_from. simpl. rewrite length_nitems, <- (left_gaps_count 0 C Hw). split; [apply gaps_leaf|].
  assert (Hg := gaps_leaf C n (ss1 ++ [s]) ss2). rewrite <- (assoc_L (++)), length_app, Nat.add_assoc in Hg. simpl in Hg.
  by rewrite (Nat.add_1_r (length (left_gaps C) + length ss1)) in Hg.
Qed.

Lemma item_node h t k n i s : is_tree h t → items t !! k = Some ((n, i), s) → is_Some (nodes h !! n).
Proof.
  intros [Hr Ht] Hx. destruct (item_place t k n i s Ht Hx) as (d & C & ss1 & ss2 & ks1 & ks2 & -> & _).
  destruct (rep_node _ _ _ _ _ Hr) as (nd & -> & _). by eexists.
Qed.

Lemma PrevGap_spec h t k x :
  is_tree h t → items t !! k = Some x → ∃ g, gaps t !! k = Some g ∧ PrevGap x.1 h = Some (g, h).
Proof.
  destruct x as [[n i] s]. intros Ht Hx. destruct (item_node _ _ _ _ _ _ Ht Hx) as [nd E]. unfold PrevGap.
  destruct (hasChildren nd) eqn:Hc.
  - destruct (internal_prev h t k n i s nd) as (c & [[n' i'] s'] & k' & -> & Ec & Ey & Hy & Hl); [done|done|done|done|].
    destruct (leaf_gaps h t k' (n', i') s') as [_ Hg]; [done|done|done|]. eexists. split; [exact Hg|].
    simpl. eapply run_bind; [by apply run_load|]. rewrite Hc. eapply run_bind; [exact Ec|]. eapply run_bind; [exact Ey|].
    destruct Hl as (nd' & E' & Hl). eapply run_bind; [by apply run_load|]. by rewrite Hl.
  - destruct (leaf_gaps h t k (n, i) s) as [Hg _]; [done|done|by exists nd|]. eexists. split; [exact Hg|].
    simpl. eapply run_bind; [by apply run_load|]. by rewrite Hc.
Qed.

Lemma NextGap_spec h t k x :
  is_tree h t → items t !! k = Some x → ∃ g, gaps t !! S k = Some g ∧ NextGap x.1 h = Some (g, h).
Proof.
  destruct x as [[n i] s]. intros Ht Hx. destruct (item_node _ _ _ _ _ _ Ht Hx) as [nd E]. unfold NextGap.
  destruct (hasChildren nd) eqn:Hc.
  - destruct (internal_next h t k n i s nd) as (c & [[n' i'] s'] & Ec & Ey & Hy & Hl); [done|done|done|done|].
    destruct (leaf_gaps h t (S k) (n', i') s') as [Hg _]; [done|done|done|]. eexists. split; [exact Hg|].
    simpl. eapply run_bind; [by apply run_load|]. rewrite Hc. eapply run_bind; [exact Ec|]. eapply run_bind; [exact Ey|].
    destruct Hl as (nd' & E' & Hl). eapply run_bind; [by apply run_load|]. by rewrite Hl.
  - destruct (leaf_gaps h t k (n, i) s) as [_ Hg]; [done|done|by exists nd|]. eexists. split; [exact Hg|].
    simpl. eapply run_bind; [by apply run_load|]. by rewrite Hc.
Qed.

(** ** Gaps *)

(** Where the gap before segment [k] starts and ends. *)
Definition gap_lower (L : list seg) (k : nat) : Z := match prev_at L k with Some s => r_End s.1 | None => MinKey end.

Definition gap_upper (L : list seg) (k : nat) : Z := match L !! k with Some s => r_Start s.1 | None => MaxKey end.

Lemma prev_at_fmap {A B} (f : A → B) (l : list A) k : prev_at (f <$> l) k = f <$> prev_at l k.
Proof. destruct k; [done|]. apply list_lookup_fmap. Qed.

Lemma prev_at_lookup {A} (l : list A) k x : prev_at l k = Some x → ∃ k', k = S k' ∧ l !! k' = Some x.
Proof. destruct k as [|k]; [done|]. intros E. by exists k. Qed.

Lemma gap_Start_spec h t k g :
  is_tree h t → gaps t !! k = Some g → gap_Start g h = Some (gap_lower (items t).*2 k, h).
Proof.
  intros Ht Hg. eapply run_bind; [by apply (gap_PrevSegment_spec h t k g)|]. unfold gap_lower. rewrite prev_at_fmap.
  destruct (prev_at (items t) k) as [x|] eqn:E; [|done]. apply prev_at_lookup in E as (k' & -> & E). simpl.
  eapply run_bind; [by eapply seg_Range_spec|done].
Qed.

Lemma gap_End_spec h t k g :
  is_tree h t → gaps t !! k = Some g → gap_End g h = Some (gap_upper (items t).*2 k, h).
Proof.
  intros Ht Hg. eapply run_bind; [by apply (gap_NextSegment_spec h t k g)|]. unfold gap_upper. rewrite list_lookup_fmap.
  destruct (items t !! k) as [x|] eqn:E; [|done]. simpl. eapply run_bind; [by eapply seg_Range_spec|done].
Qed.

Lemma gap_Range_spec h t k g :
  is_tree h t → gaps t !! k = Some g →
  gap_Range g h = Some (mkRange (gap_lower (items t).*2 k) (gap_upper (items t).*2 k), h).
Proof.
  intros Ht Hg. eapply run_bind; [by eapply gap_Start_spec|]. eapply run_bind; [by eapply gap_End_spec|done].
Qed.

(** ** The ends of a set *)

Lemma root_node h t : is_tree h t →
  ∃ d nd, tree_ok d [] t ∧ nodes h !! root = Some nd ∧ nrSegments nd = length (tsegs t) ∧
    (length (tsegs t) = 0 → items t = []).
Proof.
  intros [Hr [d Ht]]. destruct t as [l ss ks]. assert (El : l = root) by apply Hr. subst l.
  destruct (rep_node h [] _ _ _ Hr) as (nd & E & Hn). exists d, nd. split; [done|]. split; [done|].
  split; [apply (ok_nr _ _ Hn)|]. simpl tsegs. intros E0. apply nil_length_inv in E0 as ->.
  destruct Ht as (_ & Hw & [->|He]); [|simpl in He; lia]. by destruct Hw as [_ ->].
Qed.

Lemma items_nonempty h t : is_tree h t → 1 ≤ length (tsegs t) → items t ≠ [].
Proof.
  intros [Hr [d Ht]] Hne E. destruct t as [l ss ks].
  destruct (firstSegment_spec d [] _ h Hr Ht Hne) as (x & _ & Hx & _). by rewrite E in Hx.
Qed.

Lemma IsEmpty_spec h t : is_tree h t → IsEmpty h = Some (bool_decide (items t = []), h).
Proof.
  intros Ht. destruct (root_node h t Ht) as (d & nd & _ & E & En & H0). eapply run_bind; [by apply run_load|].
  rewrite En. unfold mret, prog_ret. f_equal. f_equal. destruct (Nat.eqb_spec (length (tsegs t)) 0) as [E0|Hne].
  - symmetry. by apply bool_decide_eq_true, H0.
  - symmetry. apply bool_decide_eq_false, (items_nonempty h); [done|lia].
Qed.

Lemma FirstSegment_spec h t : is_tree h t → FirstSegment h = Some (fst <$> items t !! 0, h).
Proof.
  intros Ht. destruct (root_node h t Ht) as (d & nd & Hd & E & En & H0). eapply run_bind; [by apply run_load|].
  rewrite En. destruct (Nat.eqb_spec (length (tsegs t)) 0) as [E0|Hne]; [by rewrite H0|].
  destruct (firstSegment_spec d [] t h) as (x & Ex & Hx & _); [apply Ht|done|lia|]. rewrite Hx.
  eapply run_bind; [|done]. rewrite <- Ex. f_equal. symmetry. apply Ht.
Qed.

Lemma LastSegment_spec h t : is_tree h t → LastSegment h = Some (fst <$> last (items t), h).
Proof.
  intros Ht. destruct (root_node h t Ht) as (d & nd & Hd & E & En & H0). eapply run_bind; [by apply run_load|].
  rewrite En. destruct (Nat.eqb_spec (length (tsegs t)) 0) as [E0|Hne]; [by rewrite H0|].
  destruct (lastSegment_spec d [] t h) as (x & Ex & Hx & _); [apply Ht|done|lia|]. rewrite Hx.
  eapply run_bind; [|done]. rewrite <- Ex. f_equal. symmetry. apply Ht.
Qed.

Lemma first_gap_spec fuel d C t h :
  rep h (plug C t) → tree_ok d C t → d < fuel →
  ∃ g, first_gap fuel (tloc t) h = Some (g, h) ∧ gaps t !! 0 = Some g.
Proof.
  revert fuel C t. induction d as [|d IH]; intros [|fuel] C [l ss ks] Hr Ht Hf; try lia.
  - get_node Hr nd E Hn. pose proof Ht as (_ & [_ ->] & _). exists (l, 0). split; [|done].
    simpl. eapply run_bind; [by apply run_load|]. by rewrite (ok_hasChildren _ _ Hn).
  - get_node Hr nd E Hn. destruct (first_child _ _ _ _ _ Ht) as (k & ks' & -> & Hk & Hl).
    destruct (IH fuel (Frame l [] [] ss ks' :: C) k) as (g & Eg & Hg); [done|done|lia|]. exists g. split.
    + simpl. eapply run_bind; [by apply run_load|]. rewrite (ok_hasChildren _ _ Hn). simpl.
      eapply run_bind; [|exact Eg]. eapply run_child; [done|]. by eapply node_child.
    + rewrite gaps_node, fmap_cons by done. by apply lookup_app_l_Some.
Qed.

Lemma FirstGap_spec h t : is_tree h t → ∃ g, FirstGap h = Some (g, h) ∧ gaps t !! 0 = Some g.
Proof.
  intros [Hr [d Ht]]. pose proof (rep_fuel h d [] t Hr (proj1 (proj2 Ht))) as Hf. simpl in Hf.
  destruct (first_gap_spec (next h) d [] t h) as (g & Eg & Hg); [done|done|lia|]. exists g. split; [|done].
  eapply run_bind; [done|]. rewrite <- Eg. f_equal. symmetry. apply Hr.
Qed.

Lemma last_gap_spec fuel d C t h :
  rep h (plug C t) → tree_ok d C t → d < fuel →
  ∃ g, last_gap fuel (tloc t) h = Some (g, h) ∧ last (gaps t) = Some g.
Proof.
  revert fuel C t. induction d as [|d IH]; intros [|fuel] C [l ss ks] Hr Ht Hf; try lia.
  - get_node Hr nd E Hn. pose proof Ht as (_ & [_ ->] & _). exists (l, length ss). split.
    + simpl. eapply run_bind; [by apply run_load|]. by rewrite (ok_hasChildren _ _ Hn), (ok_nr _ _ Hn).
    + cbn [gaps]. unfold ngaps. rewrite seq_S, fmap_app. apply last_snoc.
  - get_node Hr nd E Hn. destruct (last_child _ _ _ _ _ Ht) as (k & ks' & -> & Hk & Hl).
    destruct (IH fuel (Frame l ss ks' [] [] :: C) k) as (g & Eg & Hg); [simpl; by rewrite app_nil_r|done|lia|]. exists g. split.
    + simpl. eapply run_bind; [by apply run_load|]. rewrite (node_has _ _ _ _ _ _ (S d) Hn (proj1 (proj2 Ht))).
      eapply run_bind; [|exact Eg]. eapply run_child; [done|]. eapply node_child; [done|].
      rewrite (ok_nr _ _ Hn). simpl. rewrite <- Hl. by apply list_lookup_middle.
    + rewrite gaps_node by (by destruct ks'). rewrite fmap_app, concat_app. simpl. by rewrite app_nil_r, last_app, Hg.
Qed.

Lemma LastGap_spec h t : is_tree h t → ∃ g, LastGap h = Some (g, h) ∧ last (gaps t) = Some g.
Proof.
  intros [Hr [d Ht]]. pose proof (rep_fuel h d [] t Hr (proj1 (proj2 Ht))) as Hf. simpl in Hf.
  destruct (last_gap_spec (next h) d [] t h) as (g & Eg & Hg); [done|done|lia|]. exists g. split; [|done].
  eapply run_bind; [done|]. rewrite <- Eg. f_equal. symmetry. apply Hr.
Qed.
End Iter.

Section Find.
Context {Value : Type} `{FL : FunctionsLaws Value}.
Local Abbreviation seg := (Range * Value)%type.
Implicit Types (t : tree Value) (ks : list (tree Value)) (ss L : list seg) (C : list (frame Value)) (l n : loc).
Implicit Types (h : heap Value) (nd : setNode Value).

(** Segments in order, not empty and within the keys. *)
Definition seg_valid (s : seg) : Prop := (MinKey <= r_Start s.1 < r_End s.1 ∧ r_End s.1 <= MaxKey)%Z.

Definition seg_before (s1 s2 : seg) : Prop := (r_End s1.1 <= r_Start s2.1)%Z.

Definition segs_ok L : Prop := Forall seg_valid L ∧ StronglySorted seg_before L.

Lemma segs_ok_app L1 L2 :
  segs_ok (L1 ++ L2) ↔ segs_ok L1 ∧ segs_ok L2 ∧ ∀ s1 s2, s1 ∈ L1 → s2 ∈ L2 → seg_before s1 s2.
Proof.
  unfold segs_ok. rewrite Forall_app. split.
  - intros [[H1 H2] Hs]. split_and!; [done|by eapply StronglySorted_app_1_l|done|by eapply StronglySorted_app_1_r|].
    intros s1 s2. by eapply StronglySorted_app_1_elem_of.
  - intros ((H1 & Hs1) & (H2 & Hs2) & Hb). split; [done|]. by apply StronglySorted_app_2.
Qed.

Lemma segs_ok_cons s L : segs_ok (s :: L) ↔ seg_valid s ∧ segs_ok L ∧ Forall (seg_before s) L.
Proof.
  change (s :: L) with ([s] ++ L). rewrite segs_ok_app. unfold segs_ok at 1. rewrite Forall_singleton, Forall_forall. split.
  - intros ([Hs _] & HL & Hb). split_and!; [done|done|]. intros s2 Hin. apply Hb; [by apply list_elem_of_singleton|done].
  - intros (Hs & HL & Hb). split_and!; [done|by repeat constructor|done|]. by intros s1 s2 ->%list_elem_of_singleton; apply Hb.
Qed.

Lemma segs_ok_ne L i j si sj :
  segs_ok L → i < j → L !! i = Some si → L !! j = Some sj → seg_before si sj.
Proof.
  intros HL Hij Hi Hj. rewrite <- (take_drop_middle L i si Hi) in HL. apply segs_ok_app in HL as (_ & HL & _).
  apply segs_ok_cons in HL as (_ & _ & Hb). rewrite Forall_forall in Hb. apply Hb.
  apply list_elem_of_lookup. exists (j - S i). rewrite lookup_drop. rewrite <- Hj. f_equal. lia.
Qed.

Lemma segs_ok_valid L i s : segs_ok L → L !! i = Some s → seg_valid s.
Proof. intros [HL _] Hi. by eapply Forall_lookup_1. Qed.

(** Segments that are before a key, and those after it. *)
Definition below (key : Z) (s : seg) : Prop := (r_End s.1 <= key)%Z.

Definition above (key : Z) (s : seg) : Prop := (key < r_Start s.1)%Z.

Lemma search_keys_spec fuel cap a ss key lower upper :
  arr cap a ss.*1 → segs_ok ss → lower ≤ upper ≤ length ss → upper - lower ≤ fuel →
  Forall (below key) (take lower ss) → Forall (above key) (drop upper ss) →
  (∃ i s, search_keys fuel a key lower upper = Some (true, i) ∧ ss !! i = Some s ∧ Contains s.1 key = true) ∨
  (∃ i, search_keys fuel a key lower upper = Some (false, i) ∧ i ≤ length ss ∧
        Forall (below key) (take i ss) ∧ Forall (above key) (drop i ss)).
Proof.
  revert lower upper. induction fuel as [|fuel IH]; intros lower upper Ha Hss Hlu Hf Hlo Hhi; cbn [search_keys].
  - destruct (Nat.ltb_spec lower upper) as [|_]; [lia|]. right. exists lower. split; [done|]. split; [lia|].
    split; [done|]. by replace lower with upper by lia.
  - destruct (Nat.ltb_spec lower upper) as [Hlt|Hge].
    2: { right. exists lower. split; [done|]. split; [lia|]. split; [done|]. by replace lower with upper by lia. }
    set (i := lower + (upper - lower) / 2).
    assert (Hi : lower ≤ i < upper).
    { subst i. pose proof (Nat.div_lt (upper - lower) 2). lia. }
    destruct (lookup_lt_is_Some_2 ss i) as [s Es]; [lia|].
    assert (Ea : a !! i = Some s.1) by (eapply arr_lookup; [done|]; by rewrite list_lookup_fmap, Es).
    rewrite Ea. simpl. pose proof (segs_ok_valid _ _ _ Hss Es) as Hv. unfold seg_valid in Hv.
    destruct (Z.ltb_spec key (r_End s.1)) as [Hend|Hend].
    + destruct (Z.leb_spec (r_Start s.1) key) as [Hst|Hst].
      { left. exists i, s. split; [done|]. split; [done|]. unfold Contains. apply andb_true_iff. split; [by apply Z.leb_le|by apply Z.ltb_lt]. }
      apply IH; try done; [lia|lia|]. apply Forall_forall. intros s' (j & Hj)%list_elem_of_lookup. rewrite lookup_drop in Hj.
      unfold above. destruct (decide (j = 0)) as [->|Hne]; [rewrite Nat.add_0_r in Hj; congruence|].
      assert (Hb := segs_ok_ne ss i (i + j) s s' Hss ltac:(lia) Es Hj). unfold seg_before in Hb. lia.
    + apply IH; try done; [lia|lia|]. apply Forall_forall. intros s' (j & Hj)%list_elem_of_lookup.
      apply lookup_take_Some in Hj as [Hj Hjl]. unfold below. destruct (decide (j = i)) as [->|Hne]; [congruence|].
      assert (Hb := segs_ok_ne ss j i s' s Hss ltac:(lia) Hj Es). unfold seg_before in Hb.
      pose proof (segs_ok_valid _ _ _ Hss Hj) as Hv'. unfold seg_valid in Hv'. lia.
Qed.

(** What a search in a subtree finds. *)
Definition found (key : Z) t (r : option (loc * nat) * option (loc * nat)) : Prop :=
  (∃ k x, r = (Some x.1, None) ∧ items t !! k = Some x ∧ Contains x.2.1 key = true) ∨
  (∃ k g, r = (None, Some g) ∧ gaps t !! k = Some g ∧
          Forall (below key) (take k (items t).*2) ∧ Forall (above key) (drop k (items t).*2)).

(** All of what is before a segment that is below a key is below it, and so on. *)
Lemma before_below key L1 s : segs_ok (L1 ++ [s]) → below key s → Forall (below key) (L1 ++ [s]).
Proof.
  intros Hok Hs. apply Forall_app. split; [|by apply Forall_singleton]. apply segs_ok_app in Hok as (_ & [Hv _] & Hb).
  rewrite Forall_singleton in Hv. apply Forall_forall. intros s1 H1. specialize (Hb s1 s H1 ltac:(by apply list_elem_of_singleton)).
  unfold below, seg_before, seg_valid in *. lia.
Qed.

Lemma after_above key s L2 : segs_ok (s :: L2) → above key s → Forall (above key) (s :: L2).
Proof.
  intros (Hv & _ & Hb)%segs_ok_cons Hs. constructor; [done|]. eapply Forall_impl; [exact Hb|]. intros s2 H2.
  unfold above, seg_before, seg_valid in *. simpl in *. lia.
Qed.

(** The segments of a node itself are in order. *)
Lemma pre_snd (xs : list (list ((loc * nat) * seg))) l i ss :
  (pre xs (nitems l i ss)).*2 = pre ((λ x, x.*2) <$> xs) ss.
Proof.
  revert i ss. induction xs as [|x xs IH]; intros i [|s ss]; try done. unfold pre in *. simpl.
  rewrite !fmap_app. simpl. f_equal. apply IH.
Qed.

Lemma post_snd (xs : list (list ((loc * nat) * seg))) l i ss :
  (post (nitems l i ss) xs).*2 = post ss ((λ x, x.*2) <$> xs).
Proof.
  revert i ss. induction xs as [|x xs IH]; intros i [|s ss]; try done. unfold post in *. simpl.
  rewrite !fmap_app. f_equal. f_equal. apply IH.
Qed.

Lemma weave_snd (xs : list (list ((loc * nat) * seg))) l i ss :
  (weave xs (nitems l i ss)).*2 = weave ((λ x, x.*2) <$> xs) ss.
Proof.
  revert i ss. induction xs as [|x xs IH]; intros i [|s ss]; try done.
  - simpl. by rewrite nitems_snd.
  - simpl. rewrite fmap_app. simpl. by rewrite IH.
Qed.

Lemma weave_ok (xs : list (list seg)) ss : segs_ok (weave xs ss) → length ss ≤ length xs → segs_ok ss.
Proof.
  revert ss. induction xs as [|x xs IH]; intros [|s ss] Hok Hl; simpl in *; try done.
  - split; constructor.
  - apply segs_ok_app in Hok as (_ & Hok & _). apply segs_ok_cons in Hok as (Hv & Hok & Hb).
    apply segs_ok_cons. split; [done|]. split; [apply IH; [done|lia]|].
    eapply Forall_forall. intros s' Hin. rewrite Forall_forall in Hb. apply Hb. clear -Hin Hl.
    assert (Hl' : length ss ≤ length xs) by lia. clear Hl. revert ss Hin Hl'. induction xs as [|y xs IH]; intros [|s ss] Hin Hl; simpl in *; try done.
    + by apply elem_of_nil in Hin.
    + apply elem_of_app. right. apply elem_of_cons in Hin as [->|Hin]; apply elem_of_cons; [by left|right; apply IH; [done|lia]].
Qed.

(** What surrounds the child to which the search in a node leads. *)
Lemma frame_left_below key (f : frame Value) :
  length (ksL f) = length (ssL f) → segs_ok (frame_left f).*2 → Forall (below key) (ssL f) → Forall (below key) (frame_left f).*2.
Proof.
  destruct f as [l ss1 ks1 ss2 ks2]. unfold frame_left. simpl. intros E Hok Hb. rewrite pre_snd in *.
  destruct ss1 as [|s ss1 _] using rev_ind; [by destruct ks1|]. destruct ks1 as [|k ks1 _] using rev_ind; [rewrite length_app in E; simpl in E; lia|].
  rewrite !length_app in E. simpl in E. rewrite !fmap_app, pre_app in * by (rewrite !length_fmap; lia).
  rewrite !fmap_cons, !fmap_nil, pre_single, (assoc_L (++)) in *.
  apply before_below; [done|]. apply Forall_app in Hb as [_ Hb]. by rewrite Forall_singleton in Hb.
Qed.

Lemma frame_right_above key (f : frame Value) :
  length (ksR f) = length (ssR f) → segs_ok (frame_right f).*2 → Forall (above key) (ssR f) → Forall (above key) (frame_right f).*2.
Proof.
  destruct f as [l ss1 ks1 ss2 ks2]. unfold frame_right. simpl. intros E Hok Hb. rewrite post_snd in *.
  destruct ss2 as [|s ss2]; [done|]. destruct ks2 as [|k ks2]; [done|]. unfold post in *. simpl in *.
  apply after_above; [done|]. by apply Forall_cons in Hb as [Hb _].
Qed.

(** A result in a child is one in the node. *)
Lemma found_child key d (f : frame Value) k r :
  length (ksL f) = length (ssL f) → length (ksR f) = length (ssR f) → Forall (kid_ok d) (ksL f) → wf d k →
  segs_ok (items (T (f_loc f) (ssL f ++ ssR f) (ksL f ++ k :: ksR f))).*2 →
  Forall (below key) (ssL f) → Forall (above key) (ssR f) →
  found key k r → found key (T (f_loc f) (ssL f ++ ssR f) (ksL f ++ k :: ksR f)) r.
Proof.
  intros E1 E2 Hk Hw Hok Hlo Hhi Hf. unfold found. rewrite items_node, gaps_node by (done || by destruct (ksL f)).
  rewrite items_node, !fmap_app in Hok by done. apply segs_ok_app in Hok as (Hl & Hok & _). apply segs_ok_app in Hok as (_ & Hr & _).
  apply (frame_left_below key) in Hl; [|done|done]. apply (frame_right_above key) in Hr; [|done|done].
  destruct Hf as [(i & x & -> & Hx & Hc)|(i & g & -> & Hg & Hb & Ha)].
  - left. exists (length (frame_left f) + i), x. split; [done|]. split; [|done].
    rewrite lookup_app_r by lia. rewrite Nat.add_comm, Nat.add_sub. by apply lookup_app_l_Some.
  - right. exists (length (frame_left f) + i), g. split; [done|].
    assert (Hi : i ≤ length (items k)).
    { apply lookup_lt_Some in Hg. rewrite (gaps_count d) in Hg by done. lia. }
    split.
    + rewrite fmap_app, fmap_cons, concat_app.
      assert (El : length (concat (gaps <$> ksL f)) = length (frame_left f)).
      { rewrite (kids_gaps d) by done. unfold frame_left. rewrite length_pre by (by rewrite length_fmap, length_nitems). by rewrite length_fmap. }
      rewrite <- El, lookup_app_r by lia. rewrite Nat.add_comm, Nat.add_sub. simpl. by apply lookup_app_l_Some.
    + rewrite !fmap_app. rewrite <- (length_fmap snd (frame_left f)). rewrite take_app_add, drop_app_add.
      split; [apply Forall_app; split; [done|]|].
      * rewrite take_app_le by (by rewrite length_fmap). done.
      * rewrite drop_app_le by (by rewrite length_fmap). by apply Forall_app.
Qed.

Lemma find_from_spec fuel d C t h key :
  rep h (plug C t) → tree_ok d C t → segs_ok (items t).*2 → d < fuel →
  ∃ r, find_from fuel (tloc t) key h = Some (r, h) ∧ found key t r.
Proof.
  revert fuel C t. induction d as [|d IH]; intros [|fuel] C [l ss ks] Hr Ht Hok Hf; try lia;
    destruct (rep_node _ _ _ _ _ Hr) as (nd & E & Hn); pose proof Ht as (_ & Hw & _);
    assert (Hc := node_has _ _ _ _ _ _ _ Hn Hw).
  - destruct Hw as [_ ->]. rewrite items_eq in Hok. simpl in Hok. rewrite nitems_snd in Hok. cbn [find_from tloc].
    destruct (search_keys_spec (nrSegments nd) _ _ ss key 0 (nrSegments nd) (ok_keys _ _ Hn) Hok) as
      [(i & s & Es & Hs & Hcs)|(i & Es & Hi & Hb & Ha)]; [rewrite (ok_nr _ _ Hn); simpl; lia|lia|done|
        rewrite (ok_nr _ _ Hn); simpl; by rewrite drop_all| |].
    + exists (Some (l, i), None). split; [|left; exists i, ((l, i), s); split; [done|]; split; [|done]; by apply (nitems_lookup l 0)].
      eapply run_bind; [by apply run_load|]. eapply run_bind; [by rewrite Es|done].
    + exists (None, Some (l, i)). split.
      { eapply run_bind; [by apply run_load|]. eapply run_bind; [by rewrite Es|]. by rewrite Hc. }
      right. exists i, (l, i). split; [done|]. rewrite items_eq. simpl. rewrite nitems_snd. split; [|done].
      unfold ngaps. apply list_lookup_fmap_Some. exists i. split; [done|]. apply lookup_seq. lia.
  - apply wf_kids in Hw as (_ & Hl & Hk). assert (Hss : segs_ok ss).
    { rewrite items_eq, weave_snd in Hok. eapply weave_ok; [exact Hok|]. rewrite !length_fmap. lia. }
    cbn [find_from tloc].
    destruct (search_keys_spec (nrSegments nd) _ _ ss key 0 (nrSegments nd) (ok_keys _ _ Hn) Hss) as
      [(i & s & Es & Hs & Hcs)|(i & Es & Hi & Hb & Ha)]; [rewrite (ok_nr _ _ Hn); simpl; lia|lia|done|
        rewrite (ok_nr _ _ Hn); simpl; by rewrite drop_all| |].
    + exists (Some (l, i), None). split.
      { eapply run_bind; [by apply run_load|]. eapply run_bind; [by rewrite Es|done]. }
      pose proof (lookup_lt_Some _ _ _ Hs) as Hi. left.
      exists (length (items_from l 0 (take i ss) (take (S i) ks))), ((l, i), s). split; [done|]. split; [|done].
      rewrite <- (take_drop_middle ss i s Hs) at 2. rewrite <- (take_drop (S i) ks) at 2.
      rewrite (item_split 1) by (simpl; rewrite !length_take, !length_drop; lia).
      rewrite length_take, Nat.min_l by lia. by apply list_lookup_middle.
    + destruct (lookup_lt_is_Some_2 ks i) as [k Ek]; [lia|]. pose proof (take_drop_middle ks i k Ek) as Eks.
      assert (Hlen : i < length ks) by lia.
      assert (Ht' : tree_ok d (Frame l (take i ss) (take i ks) (drop i ss) (drop (S i) ks) :: C) k).
      { apply tree_ok_child; [rewrite !length_take; lia|rewrite !length_drop; lia|]. by rewrite Eks, take_drop. }
      assert (Hfr : length (ksL (Frame l (take i ss) (take i ks) (drop i ss) (drop (S i) ks))) = length (ssL (Frame l (take i ss) (take i ks) (drop i ss) (drop (S i) ks))) ∧ length (ksR (Frame l (take i ss) (take i ks) (drop i ss) (drop (S i) ks))) = length (ssR (Frame l (take i ss) (take i ks) (drop i ss) (drop (S i) ks)))).
      { simpl. rewrite !length_take, !length_drop. lia. }
      destruct Hfr as [Hf1 Hf2].
      destruct (IH fuel (Frame l (take i ss) (take i ks) (drop i ss) (drop (S i) ks) :: C) k) as (r & Er & Hr').
      { simpl. by rewrite take_drop, Eks. }
      { done. }
      { assert (Hok' := Hok). rewrite <- Eks, <- (take_drop i ss) in Hok'.
        rewrite (items_node (Frame l (take i ss) (take i ks) (drop i ss) (drop (S i) ks))), !fmap_app in Hok' by done.
        apply segs_ok_app in Hok' as (_ & Hok' & _). by apply segs_ok_app in Hok' as (? & _). }
      { lia. }
      exists r. split.
      * eapply run_bind; [by apply run_load|]. eapply run_bind; [by rewrite Es|]. cbn iota. rewrite Hc. simpl.
        eapply run_bind; [eapply run_child; [done|by eapply node_child]|done].
      * assert (Hres := found_child key d (Frame l (take i ss) (take i ks) (drop i ss) (drop (S i) ks)) k r Hf1 Hf2).
        simpl in Hres. rewrite Eks, take_drop in Hres. apply Hres; try done; [by apply Forall_take|apply Ht'].
Qed.

Lemma Find_spec h t key :
  is_tree h t → segs_ok (items t).*2 → ∃ r, Find key h = Some (r, h) ∧ found key t r.
Proof.
  intros [Hr [d Ht]] Hok. pose proof (rep_fuel h d [] t Hr (proj1 (proj2 Ht))) as Hf. simpl in Hf.
  destruct (find_from_spec (next h) d [] t h key) as (r & Er & Hfd); [done|done|done|lia|]. exists r. split; [|done].
  eapply run_bind; [done|]. rewrite <- Er. f_equal. symmetry. apply Hr.
Qed.
End Find.
