(* ===== verification/SegChange.v ===== *)
(** * Changes to the nodes of a segment set

    A change to a tree replaces some nodes ([stores]) and gives some children other parents
    ([link]).  [models_change] says when the new heap has the cells of the new tree.  The
    tactics at the end run programs and keep heaps in this form. *)

From stdpp Require Import base numbers decidable gmap list list_tactics.
From S2P Require Import SegSet SegHeap SegTree SegIter Prelude.

Section Change.
Context {Value : Type} `{FL : FunctionsLaws Value}.
Local Abbreviation seg := (Range * Value)%type.
Implicit Types (t : tree Value) (ks : list (tree Value)) (ss : list seg) (C : list (frame Value)) (l n : loc).
Implicit Types (h : heap Value) (nd : setNode Value) (K : list (loc * nat * list (tree Value))) (O R : list (cell Value)).
Implicit Types (ws : list (loc * setNode Value)).

(** ** Stores *)

Definition stores h ws : heap Value := foldr (λ '(n, nd) h, upd h n nd) h ws.

Lemma stores_next h ws : next (stores h ws) = next h.
Proof. induction ws as [|[n nd] ws IH]; [done|exact IH]. Qed.

Lemma stores_ne h ws x : x ∉ ws.*1 → nodes (stores h ws) !! x = nodes h !! x.
Proof.
  induction ws as [|[n nd] ws IH]; [done|]. rewrite fmap_cons, not_elem_of_cons. intros [Hn Hx].
  cbn [stores foldr]. rewrite lookup_upd_ne by done. by apply IH.
Qed.

Lemma stores_eq h ws n nd : NoDup ws.*1 → (n, nd) ∈ ws → nodes (stores h ws) !! n = Some nd.
Proof.
  induction ws as [|[n' nd'] ws IH]; [by intros _ ?%elem_of_nil|]. rewrite fmap_cons, NoDup_cons. intros [Hn Hnd] Hin.
  cbn [stores foldr]. apply elem_of_cons in Hin as [[= -> ->]|Hin]; [apply lookup_upd_eq|].
  rewrite lookup_upd_ne; [by apply IH|]. intros ->. apply Hn, list_elem_of_fmap. by exists (n', nd).
Qed.

(** ** Families: the children of a node from some index on *)

Definition froots K : list (cell Value) := concat ((λ '(p, i, ks), roots p i ks) <$> K).

Definition flinks K : list (loc * loc * nat) := concat ((λ '(p, i, ks), links p i (tloc <$> ks)) <$> K).

Definition ftrees K : list (tree Value) := concat K.*2.

Lemma flinks_loc K : (flinks K).*1.*1 = tloc <$> ftrees K.
Proof.
  induction K as [|[[p i] ks] K IH]; [done|]. unfold flinks, ftrees in *. rewrite !fmap_cons. simpl concat.
  by rewrite !fmap_app, links_locs, IH.
Qed.

Lemma froots_loc K : c_loc <$> froots K = tloc <$> ftrees K.
Proof.
  induction K as [|[[p i] ks] K IH]; [done|]. unfold froots, ftrees in *. rewrite !fmap_cons. simpl concat.
  by rewrite !fmap_app, roots_loc, IH.
Qed.

Lemma roots_elem p i ks c : c ∈ roots p i ks → ∃ j k, ks !! j = Some k ∧ c = root_cell (Some p) (i + j) k.
Proof.
  revert i. induction ks as [|k ks IH]; intros i Hc; [by apply elem_of_nil in Hc|].
  apply elem_of_cons in Hc as [->|Hc]; [exists 0, k; by rewrite Nat.add_0_r|].
  destruct (IH _ Hc) as (j & k' & Hj & ->). exists (S j), k'. by rewrite Nat.add_succ_r.
Qed.

Lemma elem_roots p i ks k : k ∈ ks → ∃ j, root_cell (Some p) j k ∈ roots p i ks.
Proof.
  revert i. induction ks as [|k' ks IH]; intros i Hk; [by apply elem_of_nil in Hk|].
  apply elem_of_cons in Hk as [->|Hk]; [exists i; apply elem_of_cons; by left|].
  destruct (IH (S i) Hk) as [j Hj]. exists j. apply elem_of_cons. by right.
Qed.

Lemma froots_elem K c : c ∈ froots K → ∃ p i k, k ∈ ftrees K ∧ c = root_cell (Some p) i k ∧ (tloc k, p, i) ∈ flinks K.
Proof.
  induction K as [|[[p i] ks] K IH]; [by intros ?%elem_of_nil|]. unfold froots, flinks, ftrees in *.
  rewrite !fmap_cons. simpl concat. intros [Hc|Hc]%elem_of_app.
  - destruct (roots_elem _ _ _ _ Hc) as (j & k & Hj & ->). exists p, (i + j), k. rewrite !elem_of_app. split_and!; [|done|].
    + left. by eapply list_elem_of_lookup_2.
    + left. apply links_elem. by rewrite list_lookup_fmap, Hj.
  - destruct (IH Hc) as (p' & i' & k & Hk & -> & Hl). exists p', i', k. rewrite !elem_of_app. auto.
Qed.

Lemma elem_froots K k : k ∈ ftrees K → ∃ p j, root_cell (Some p) j k ∈ froots K.
Proof.
  induction K as [|[[p i] ks] K IH]; [by intros ?%elem_of_nil|]. unfold froots, ftrees in *.
  rewrite !fmap_cons. simpl concat. intros [Hk|Hk]%elem_of_app.
  - destruct (elem_roots p i _ _ Hk) as [j Hj]. exists p, j. apply elem_of_app. by left.
  - destruct (IH Hk) as (p' & j & Hj). exists p', j. apply elem_of_app. by right.
Qed.

Lemma cell_relink h h' k q j p i :
  cell_ok h (root_cell q j k) → next h ≤ next h' →
  nodes h' !! tloc k = (λ nd, set_parent nd (Some p) i) <$> nodes h !! tloc k →
  cell_ok h' (root_cell (Some p) i k).
Proof.
  intros [Hlt (nd & E & Hn)] Hle E'. cbn [c_loc root_cell] in *. split; [cbn; lia|].
  exists (set_parent nd (Some p) i). split; [cbn [c_loc root_cell]; by rewrite E', E|]. destruct Hn. by constructor.
Qed.

Lemma cells_root l ss ks :
  cells None 0 (T l ss ks) ≡ₚ [mkCell l None 0 ss (tloc <$> ks)] ++ froots [(l, 0, ks)] ++ subs ks.
Proof. rewrite cells_eq. unfold froots. simpl. by rewrite app_nil_r. Qed.

(** Nodes [O] become [O'], and children [K] become [K']. *)
Lemma models_change h h1 h' O O' K K' R ws :
  h' = stores (link h1 (flinks K')) ws →
  models h (O ++ froots K ++ R) → nodes h1 = nodes h → next h ≤ next h1 → ftrees K' ≡ₚ ftrees K →
  ws.*1 = c_loc <$> O' → NoDup (c_loc <$> O') → Forall2 node_ok ws.*2 O' →
  (∀ x, x ∈ c_loc <$> O' → x < next h1 ∧ (x ∈ c_loc <$> O ∨ next h ≤ x)) →
  models h' (O' ++ froots K' ++ R).
Proof.
  intros -> Hm Eh Hle HK Ews HndO Hws HO. rewrite (assoc_L (++)) in Hm |- *.
  pose proof Hm as [Hnd Hok]. rewrite fmap_app, NoDup_app, fmap_app, froots_loc in Hnd. destruct Hnd as (Hnd & _ & _).
  apply NoDup_app in Hnd as (_ & Hdisj & HndK). apply Forall_app in Hok as [Hok _]. apply Forall_app in Hok as [_ HokK].
  rewrite Forall_forall in HokK. pose proof (fmap_Permutation tloc _ _ HK) as HKl.
  assert (Hkid : ∀ k, k ∈ ftrees K' → ∃ q j, cell_ok h (root_cell (Some q) j k)).
  { intros k Hk. rewrite HK in Hk. destruct (elem_froots _ _ Hk) as (q & j & Hc). exists q, j. by apply HokK. }
  assert (HOK : ∀ x, x ∈ c_loc <$> O' → x ∉ tloc <$> ftrees K').
  { intros x Hx HxK. destruct (HO x Hx) as [_ [HxO|Hge]].
    - apply (Hdisj _ HxO). by rewrite <- HKl.
    - apply list_elem_of_fmap in HxK as (k & -> & Hk). destruct (Hkid k Hk) as (q & j & [Hlt _]). simpl in Hlt. lia. }
  assert (HndF : NoDup (flinks K').*1.*1) by (by rewrite flinks_loc, HKl).
  eapply models_update; [exact Hm|by rewrite stores_next| | |].
  - intros x Hx Hlt. rewrite fmap_app, froots_loc, not_elem_of_app in Hx. destruct Hx as [HxO HxK].
    rewrite stores_ne, link_ne, Eh; [done|by rewrite flinks_loc, HKl|].
    rewrite Ews. intros HxO'. destruct (HO x HxO') as [_ [?|?]]; [done|lia].
  - split.
    + rewrite fmap_app, froots_loc. apply NoDup_app. split_and!; [done|exact HOK|by rewrite HKl].
    + apply Forall_app. split; apply Forall_forall.
      * intros c Hc. apply list_elem_of_lookup in Hc as [i Hi]. destruct (Forall2_lookup_r _ _ _ _ _ Hws Hi) as (nd & Hnd & Hn).
        apply list_lookup_fmap_Some in Hnd as ([n nd'] & -> & Hw).
        assert (n = c_loc c) as ->.
        { assert (H1 : ws.*1 !! i = Some n) by (by rewrite list_lookup_fmap, Hw).
          rewrite Ews, list_lookup_fmap, Hi in H1. by injection H1. }
        split; [rewrite stores_next; apply HO, list_elem_of_fmap; exists c; split; [done|by eapply list_elem_of_lookup_2]|].
        exists nd'. split; [|done]. apply stores_eq; [by rewrite Ews|by eapply list_elem_of_lookup_2].
      * intros c Hc. destruct (froots_elem _ _ Hc) as (p & i & k & Hk & -> & Hl). destruct (Hkid k Hk) as (q & j & Hq).
        eapply cell_relink; [exact Hq|by rewrite stores_next|].
        rewrite stores_ne by (rewrite Ews; intros Hx; apply (HOK _ Hx), list_elem_of_fmap; by exists k).
        rewrite (link_lookup _ _ _ p i) by done. by rewrite Eh.
  - intros x. rewrite !fmap_app, !froots_loc, !elem_of_app, HKl. intros [Hx|Hx]; [|by left; right].
    destruct (HO x Hx) as [_ [?|?]]; [by left; left|by right].
Qed.

(** What a heap that has some cells says of the nodes and the children. *)
Lemma models_facts h O K R :
  models h (O ++ froots K ++ R) →
  NoDup (c_loc <$> O) ∧ Forall (cell_ok h) O ∧ Forall (λ c, c_loc c ∉ tloc <$> ftrees K) O ∧
  NoDup (tloc <$> ftrees K) ∧ Forall (λ k, is_Some (nodes h !! tloc k)) (ftrees K) ∧
  ∀ a, next h ≤ a → a ∉ tloc <$> ftrees K.
Proof.
  intros [Hnd Hok]. rewrite !fmap_app, NoDup_app in Hnd. destruct Hnd as (HO & Hdisj & Hnd).
  apply NoDup_app in Hnd as (HK & _ & _). rewrite froots_loc in HK, Hdisj.
  apply Forall_app in Hok as [HokO Hok]. apply Forall_app in Hok as [HokK _]. split_and!; try done; [apply Forall_forall..|].
  - intros c Hc Hin. eapply Hdisj; [apply list_elem_of_fmap; by exists c|]. apply elem_of_app. by left.
  - intros k Hk. destruct (elem_froots _ _ Hk) as (p & j & Hc). rewrite Forall_forall in HokK.
    destruct (HokK _ Hc) as [_ (nd & E & _)]. by eexists.
  - intros a Ha Hin. rewrite <- froots_loc in Hin. apply list_elem_of_fmap in Hin as (c & -> & Hc).
    rewrite Forall_forall in HokK. destruct (HokK _ Hc) as [Hlt _]. lia.
Qed.

Lemma froots_parent h O K R p i ks :
  models h (O ++ froots K ++ R) → (p, i, ks) ∈ K →
  ∀ c cd, c ∈ tloc <$> ks → nodes h !! c = Some cd → parent cd = Some p.
Proof.
  intros [_ Hok] HK c cd Hc E. apply Forall_app in Hok as [_ Hok]. apply Forall_app in Hok as [Hok _].
  apply list_elem_of_fmap in Hc as (k & -> & Hk). destruct (elem_roots p i _ _ Hk) as [j Hj].
  rewrite Forall_forall in Hok. destruct (Hok (root_cell (Some p) j k)) as [_ (nd & E' & Hn)].
  - unfold froots. rewrite list_elem_of_In, in_concat. exists (roots p i ks). rewrite <- !list_elem_of_In. split; [|done].
    apply list_elem_of_fmap. by exists (p, i, ks).
  - simpl in E'. rewrite E in E'. injection E' as ->. apply (ok_parent _ _ Hn).
Qed.

(** Other segments in a node. *)
Lemma rep_set_node h C n ss ks nd' ss' :
  rep h (plug C (T n ss ks)) → node_ok nd' (mkCell n (ctx_par C) (ctx_idx C) ss' (tloc <$> ks)) →
  rep (upd h n nd') (plug C (T n ss' ks)).
Proof.
  intros [El Hm] Hn. split; [rewrite <- El; by apply plug_loc|]. rewrite cells_plug_node in Hm |- *.
  change (?c :: ?R) with ([c] ++ froots [] ++ R) in Hm |- *.
  pose proof (models_facts _ _ _ _ Hm) as (_ & HO & _). rewrite Forall_singleton in HO. destruct HO as [Hl _]. simpl in Hl.
  eapply (models_change h h _ _ _ _ _ _ [(n, nd')]); [|exact Hm|done|done|done|done| | |].
  - cbn. by rewrite link_nil.
  - cbn. apply NoDup_singleton.
  - by apply Forall2_cons.
  - intros x. cbn. rewrite !list_elem_of_singleton. lia.
Qed.

(** ** More on links *)

Lemma link_upd h us n nd : n ∉ us.*1.*1 → link (upd h n nd) us = upd (link h us) n nd.
Proof.
  revert h. induction us as [|[[c p] i] us IH]; intros h Hn; [by rewrite !link_nil|].
  apply not_elem_of_cons in Hn as [Hne Hn]. rewrite link_cons, (link_cons h), <- IH by done. f_equal.
  unfold link, upd. cbn [foldl nodes next]. f_equal. symmetry. by apply insert_alter_ne.
Qed.

(** A link to a node that was stored. *)
Lemma link_relay h us vs x nd p i :
  (x ∉ us.*1.*1) → (x ∉ vs.*1.*1) →
  link (upd h x nd) (us ++ (x, p, i) :: vs) = upd (link h (us ++ vs)) x (set_parent nd (Some p) i).
Proof.
  intros Hu Hv. rewrite !link_app, link_upd by done. rewrite link_cons, (link_single _ x nd) by apply lookup_upd_eq.
  by rewrite upd_upd, link_upd.
Qed.

Lemma bump_link h us : bump (link h us) = link (bump h) us.
Proof. done. Qed.

Lemma link_perm h us vs : NoDup us.*1.*1 → us ≡ₚ vs → link h us = link h vs.
Proof.
  intros Hnd E. unfold link. f_equal. apply map_eq. intros x.
  change (nodes (link h us) !! x = nodes (link h vs) !! x).
  destruct (decide (x ∈ us.*1.*1)) as [Hx|Hx]; [|rewrite !link_ne; [done|by rewrite <- E|done]].
  apply list_elem_of_fmap in Hx as ([c' p'] & -> & Hx). apply list_elem_of_fmap in Hx as ([[c p] i] & [= -> ->] & Hx).
  rewrite !(link_lookup _ _ c p i); [done|by rewrite <- E|by rewrite <- E|done|done].
Qed.

Lemma has_kids_intro h n nd i ks cs cap rest :
  nodes h !! n = Some nd → arr cap (children nd) (rest ++ (Some <$> (tloc <$> ks))) → i = length rest → cs = tloc <$> ks →
  Forall (λ k, is_Some (nodes h !! tloc k)) ks → has_kids h n i cs.
Proof.
  intros E Ha -> -> Hks. exists nd. split; [done|]. intros j c Hj. apply list_lookup_fmap_Some in Hj as (k & -> & Hj). split.
  - eapply arr_lookup; [exact Ha|]. rewrite lookup_app_r by lia. rewrite Nat.add_comm, Nat.add_sub.
    by rewrite !list_lookup_fmap, Hj.
  - rewrite Forall_forall in Hks. apply Hks. by eapply list_elem_of_lookup_2.
Qed.

Lemma upd_alloc h n nd x : is_Some (nodes h !! x) → is_Some (nodes (upd h n nd) !! x).
Proof. intros Hx. destruct (decide (x = n)) as [->|]; [rewrite lookup_upd_eq; by eexists|by rewrite lookup_upd_ne]. Qed.

Lemma link_alloc h us x : is_Some (nodes h !! x) → is_Some (nodes (link h us) !! x).
Proof. intros [nd E]. destruct (link_node h us x nd E) as (p & i & ->). by eexists. Qed.
End Change.

(** ** Symbolic execution

    Heaps are kept as a heap with links, and one store per node around them. *)

Ltac neq := first [assumption | congruence | lia].

(** A node is not among those that get a new parent. *)
Ltac fresh_loc := rewrite ?fmap_app, ?links_locs, ?not_elem_of_app; (assumption || (split; assumption)).

Ltac heap_lookup :=
  repeat first
    [ rewrite lookup_upd_eq
    | rewrite lookup_upd_ne by neq
    | rewrite link_ne by fresh_loc
    | progress cbn [nodes bump] ];
  first [eassumption | reflexivity | idtac].

(** The outermost store moves in to an earlier one to the same node, and replaces it. *)
Ltac heap_norm :=
  repeat match goal with
  | |- context [bump (upd ?h ?n ?x)] => rewrite (bump_upd h n x)
  | |- context [link (upd ?h ?n ?x) ?us] => rewrite (link_upd h us n x) by fresh_loc
  | |- context [bump (link ?h ?us)] => rewrite (bump_link h us)
  | |- context [link (link ?h ?us) ?vs] => rewrite <- (link_app h us vs)
  | |- context [upd (upd ?h ?n ?x) ?n ?y] => rewrite (upd_upd h n x y)
  | |- context [upd (upd ?h ?n ?x) ?m ?y] =>
      lazymatch h with context [upd _ m _] => rewrite (upd_swap h n m x y) by neq end
  end.

Ltac node_norm :=
  cbn [set_nrSegments set_parent set_hasChildren set_keys set_values set_children new_node
       nrSegments parent parentIndex hasChildren keys values children].

Ltac wp_step :=
  lazymatch goal with
  | |- wp (mbind _ _) _ _ => apply wp_bind
  | |- wp (load _) _ _ => eapply wp_load; [by heap_lookup | cbn beta]
  | |- wp (modify _ _) _ _ => eapply wp_modify; [by heap_lookup | cbn beta; heap_norm; node_norm]
  | |- wp (alloc _) _ _ => apply wp_alloc; cbn beta; heap_norm; node_norm
  | |- wp (lift _) _ _ => eapply wp_lift; [by node_norm; eassumption | cbn beta]
  | |- wp (mret _) _ _ => apply wp_ret
  end.

(** The children are allocated, whatever was stored since. *)
Ltac kids_alloc :=
  eapply Forall_impl; [eassumption|]; cbn beta; intros; repeat (apply upd_alloc || apply link_alloc).

(** Lists of few locations. *)
Ltac nodup := cbn; rewrite ?NoDup_cons, ?not_elem_of_cons; repeat split; (apply not_elem_of_nil || apply NoDup_nil_2 || lia).

Ltac nodup_in H := cbn in H; rewrite ?NoDup_cons, ?not_elem_of_cons in H.

Ltac cell_norm := cbn [c_loc c_par c_idx c_ss c_kids] in *; node_norm.
