(* ===== verification/SegInsert.v ===== *)
(** * Insertion into a segment set

    Splitting a full node, at the root and below it, and the insertion of a segment into a
    leaf that was made room in: the tree stays balanced, and its segments are those before
    with the new one in its place. *)

From stdpp Require Import base numbers decidable gmap list_tactics list.
From S2P Require Import SegSet SegHeap SegTree SegIter SegChange Prelude.

Section Split.
Context {Value : Type} `{FL : FunctionsLaws Value}.
Local Abbreviation seg := (Range * Value)%type.
Implicit Types (t : tree Value) (ks ksA ksB kL kR : list (tree Value)) (ss ssA ssB sL sR : list seg) (C : list (frame Value)) (l n : loc).
Implicit Types (h : heap Value) (nd : setNode Value).

(** The median segment, and what is before and after it. *)
Lemma split_full ss :
  length ss = maxDegree - 1 →
  ∃ ssA m ssB, ss = ssA ++ m :: ssB ∧ length ssA = minDegree - 1 ∧ length ssB = minDegree - 1.
Proof.
  intros E. pose proof minDegree_3. unfold maxDegree in E. destruct (lookup_lt_is_Some_2 ss (minDegree - 1)) as [m Em]; [lia|].
  exists (take (minDegree - 1) ss), m, (drop (S (minDegree - 1)) ss). rewrite take_drop_middle by done.
  rewrite length_take, length_drop. split_and!; [done|lia|lia].
Qed.

(** A new node with copies of some segments. *)
Lemma new_node_ok nr par idx hc a ss kids chs :
  nr = length ss → hc = negb (is_leaf kids) → length ss ≤ maxDegree - 1 → arr maxDegree chs (Some <$> kids) →
  node_ok (mkNode nr par idx hc (copy_at (replicate (maxDegree - 1) (mkRange 0 0)) 0 ss.*1)
    (copy_at (replicate (maxDegree - 1) zeroValue) 0 ss.*2) chs) (mkCell a par idx ss kids).
Proof. intros -> -> Hle Hc. constructor; try done; apply arr_new; by rewrite length_fmap. Qed.

(** The halves of a full node. *)
Lemma node_halves nd l par idx ssA m ssB kids :
  node_ok nd (mkCell l par idx (ssA ++ m :: ssB) kids) →
  length ssA = minDegree - 1 → length ssB = minDegree - 1 →
  slice (keys nd) 0 (minDegree - 1) = ssA.*1 ∧ slice (values nd) 0 (minDegree - 1) = ssA.*2 ∧
  keys nd !! (minDegree - 1) = Some m.1 ∧ values nd !! (minDegree - 1) = Some m.2 ∧
  slice (keys nd) minDegree (maxDegree - 1) = ssB.*1 ∧ slice (values nd) minDegree (maxDegree - 1) = ssB.*2.
Proof.
  intros Hn EA EB. pose proof minDegree_3. unfold maxDegree.
  destruct (node_key _ _ _ _ _ _ (minDegree - 1) m Hn) as [-> ->]; [rewrite <- EA; by apply list_lookup_middle|].
  pose proof (ok_keys _ _ Hn) as Hk. pose proof (ok_values _ _ Hn) as Hv. simpl in Hk, Hv.
  rewrite fmap_app, fmap_cons in Hk. rewrite fmap_app, fmap_cons in Hv. unfold maxDegree in *. split_and!; try done.
  - eapply (arr_slice _ _ [] ssA.*1 (m.1 :: ssB.*1)); [exact Hk|done|by rewrite length_fmap].
  - eapply (arr_slice _ _ [] ssA.*2 (m.2 :: ssB.*2)); [exact Hv|done|by rewrite length_fmap].
  - eapply (arr_slice _ _ (ssA.*1 ++ [m.1]) ssB.*1 []); rewrite ?length_app, ?length_fmap; simpl; [|lia|lia].
    by rewrite app_nil_r, <- (assoc_L (++)).
  - eapply (arr_slice _ _ (ssA.*2 ++ [m.2]) ssB.*2 []); rewrite ?length_app, ?length_fmap; simpl; [|lia|lia].
    by rewrite app_nil_r, <- (assoc_L (++)).
Qed.

Lemma kids_halves nd l par idx ss (ksA ksB : list (tree Value)) :
  node_ok nd (mkCell l par idx ss (tloc <$> (ksA ++ ksB))) → length ksA = minDegree → length ksB = minDegree →
  slice (children nd) 0 minDegree = Some <$> (tloc <$> ksA) ∧
  slice (children nd) minDegree maxDegree = Some <$> (tloc <$> ksB).
Proof.
  intros Hn EA EB. pose proof (ok_children _ _ Hn) as Hc. simpl in Hc. rewrite !fmap_app in Hc. unfold maxDegree. split.
  - eapply (arr_slice _ _ [] (Some <$> (tloc <$> ksA)) (Some <$> (tloc <$> ksB))); [exact Hc|done|by rewrite !length_fmap].
  - eapply (arr_slice _ _ (Some <$> (tloc <$> ksA)) (Some <$> (tloc <$> ksB)) []); [by rewrite app_nil_r|by rewrite !length_fmap|].
    rewrite !length_fmap. lia.
Qed.

(** Arrays with one or two entries, whatever they held before. *)
Lemma arr_one {A} cap (a : list A) x : length a = cap → 0 < cap → arr cap (<[0 := x]> a) [x].
Proof. intros Ha Hc. by apply (arr_snoc _ _ [] 0); [apply arr_nil| |]. Qed.

Lemma arr_two {A} cap (a : list A) x y : length a = cap → 1 < cap → arr cap (<[1 := y]> (<[0 := x]> a)) [x; y].
Proof. intros Ha Hc. apply (arr_snoc _ _ [x] 1); [|done|lia]. apply arr_one; [done|lia]. Qed.

Lemma split_root_top nd l par idx ss kids m chs a b :
  node_ok nd (mkCell l par idx ss kids) → length chs = maxDegree →
  node_ok (mkNode 1 (parent nd) (parentIndex nd) true (<[0 := m.1]> (keys nd))
    (map_from ClearValue 1 (<[0 := m.2]> (values nd))) (<[1 := Some b]> (<[0 := Some a]> chs)))
    (mkCell l par idx [m] [a; b]).
Proof.
  intros Hn Hc. pose proof minDegree_3. assert (1 < maxDegree) by (unfold maxDegree; lia).
  destruct (ok_keys _ _ Hn) as [Lk _]. destruct (ok_values _ _ Hn) as [Lv _].
  constructor; try (done || apply Hn); cbn.
  - apply arr_one; [done|lia].
  - apply (arr_map_from _ _ _ []); [apply arr_one; [done|lia]|done].
  - by apply arr_two.
Qed.

Lemma split_root_rep h l ss m ssA ssB ksA ksB a b x y z :
  rep h (T l ss (ksA ++ ksB)) → a = next h → b = S a →
  node_ok z (mkCell l None 0 [m] [a; b]) →
  node_ok y (mkCell b (Some l) 1 ssB (tloc <$> ksB)) →
  node_ok x (mkCell a (Some l) 0 ssA (tloc <$> ksA)) →
  rep (upd (upd (upd (link (bump (bump h)) (flinks [(a, 0, ksA); (b, 0, ksB)])) a x) b y) l z)
    (T l [m] [T a ssA ksA; T b ssB ksB]).
Proof.
  intros [El Hm] -> -> Hz Hy Hx. split; [done|]. rewrite cells_root in Hm.
  pose proof (models_facts _ _ _ _ Hm) as (_ & HO & _). rewrite Forall_singleton in HO. destruct HO as [Hl _]. simpl in Hl.
  assert (E : cells None 0 (T l [m] [T (next h) ssA ksA; T (S (next h)) ssB ksB]) ≡ₚ
    [mkCell l None 0 [m] [next h; S (next h)]; mkCell (S (next h)) (Some l) 1 ssB (tloc <$> ksB);
     mkCell (next h) (Some l) 0 ssA (tloc <$> ksA)] ++
     froots [(next h, 0, ksA); (S (next h), 0, ksB)] ++ subs (ksA ++ ksB)).
  { rewrite cells_eq, !subs_cons, !sub_cells_eq, subs_app. unfold froots, root_cell. cbn.
    rewrite ?app_nil_r. solve_Permutation. }
  rewrite E. eapply (models_change h (bump (bump h)) _ _ _ _ _ _ [(l, z); (S (next h), y); (next h, x)]); [done|exact Hm|done|simpl; lia| |done| | |].
  - unfold ftrees. cbn. by rewrite !app_nil_r.
  - nodup.
  - cbn. rewrite !Forall2_cons. done.
  - intros v. cbn. rewrite !elem_of_cons, elem_of_nil. lia.
Qed.

Lemma split_root_spec h l ssA m ssB ksA ksB d Q :
  rep h (T l (ssA ++ m :: ssB) (ksA ++ ksB)) → wf d (T l (ssA ++ m :: ssB) (ksA ++ ksB)) →
  length ssA = minDegree - 1 → length ssB = minDegree - 1 → split_kids d ssA ssB ksA ksB →
  (∀ a b h', rep h' (T l [m] [T a ssA ksA; T b ssB ksB]) → Q (a, b) h') →
  wp (split_root l) h Q.
Proof.
  intros Hr Hw EA EB Hsp HQ. pose proof minDegree_3 as Hmin. pose proof Hr as [_ Hm]. rewrite cells_root in Hm.
  destruct (models_facts _ _ _ _ Hm) as (_ & HO & HlK & HndK & HK & Hnew). rewrite Forall_singleton in HO, HlK.
  destruct HO as [Hl (nd & E & Hn)]. assert (Hc := node_has _ _ _ _ _ _ _ Hn Hw). cbn [c_loc] in *.
  destruct (node_halves _ _ _ _ _ _ _ _ Hn EA EB) as (SkA & SvA & Km & Vm & SkB & SvB).
  unfold split_root. wp_step. wp_step. wp_step. wp_step. remember (next h) as a eqn:Ea. wp_step. wp_step.
  cbn [upd bump next]. rewrite <- Ea. remember (S a) as b eqn:Eb. rewrite SkA, SvA, SkB, SvB.
  repeat wp_step. rewrite Hc.
  assert (Hmax : minDegree - 1 ≤ maxDegree - 1) by (unfold maxDegree; lia). destruct d as [|d].
  - destruct Hsp as [-> ->]. repeat wp_step. apply HQ. rewrite <- (link_nil (bump (bump h))).
    apply (split_root_rep h l (ssA ++ m :: ssB) m ssA ssB [] []); [exact Hr|done|done| | |].
    + eapply (split_root_top nd _ _ _ _ _ _ (children nd)); [exact Hn|apply (ok_children _ _ Hn)].
    + apply new_node_ok; [done|done|lia|by apply arr_nil, length_replicate].
    + apply new_node_ok; [done|done|lia|by apply arr_nil, length_replicate].
  - destruct Hsp as [LA LB]. unfold ftrees in *. cbn in HlK, HndK, HK, Hnew. rewrite app_nil_r in HlK, HndK, HK, Hnew.
    apply Forall_app in HK as [HKA HKB].
    destruct (kids_halves _ _ _ _ _ ksA ksB Hn) as [ScA ScB]; [lia|lia|].
    repeat wp_step. rewrite ScA, ScB.
    assert (Lk : length ksA = length ksB) by lia.
    assert (ArrA : arr maxDegree (copy_at (replicate maxDegree None) 0 (Some <$> (tloc <$> ksA))) (Some <$> (tloc <$> ksA)))
      by (apply arr_new; rewrite !length_fmap; unfold maxDegree; lia).
    assert (ArrB : arr maxDegree (copy_at (replicate maxDegree None) 0 (Some <$> (tloc <$> ksB))) (Some <$> (tloc <$> ksB)))
      by (apply arr_new; rewrite !length_fmap; unfold maxDegree; lia).
    eapply wp_reparent_both;
      [eapply (has_kids_intro _ _ _ _ ksA _ maxDegree []); [by heap_lookup|done|done|done|by kids_alloc]
      |eapply (has_kids_intro _ _ _ _ ksB _ maxDegree []); [by heap_lookup|done|done|done|by kids_alloc]
      |rewrite length_fmap; lia|by rewrite !length_fmap|].
    assert (HF : (flinks [(a, 0, ksA); (b, 0, ksB)]).*1.*1 = tloc <$> (ksA ++ ksB))
      by (rewrite flinks_loc; unfold ftrees; cbn; by rewrite app_nil_r).
    assert (HFp : links2 a b 0 (tloc <$> ksA) (tloc <$> ksB) ≡ₚ flinks [(a, 0, ksA); (b, 0, ksB)])
      by (rewrite links2_perm by (by rewrite !length_fmap); unfold flinks; cbn; by rewrite app_nil_r).
    rewrite (link_perm _ _ (flinks [(a, 0, ksA); (b, 0, ksB)])) by (done || by rewrite HFp, HF).
    assert (l ∉ (flinks [(a, 0, ksA); (b, 0, ksB)]).*1.*1) by (by rewrite HF).
    assert (a ∉ (flinks [(a, 0, ksA); (b, 0, ksB)]).*1.*1) by (rewrite HF; apply Hnew; lia).
    assert (b ∉ (flinks [(a, 0, ksA); (b, 0, ksB)]).*1.*1) by (rewrite HF; apply Hnew; lia).
    heap_norm. repeat wp_step. apply HQ. eapply split_root_rep; [exact Hr|done|done| | |].
    + eapply (split_root_top nd _ _ _ _ _ _ (map_from _ 2 (children nd))); [exact Hn|].
      apply (arr_map_from _ _ [] (Some <$> (tloc <$> (ksA ++ ksB)))); [apply (ok_children _ _ Hn)|simpl; lia].
    + apply new_node_ok; [done|by destruct ksB|lia|done].
    + apply new_node_ok; [done|by destruct ksA|lia|done].
Qed.

(** The nodes and children that [split_node] changes, and the rest. *)
Lemma split_node_cells C p sL sR kL kR l ss ksA ksB :
  cells None 0 (plug C (T p (sL ++ sR) (kL ++ T l ss (ksA ++ ksB) :: kR))) ≡ₚ
  [mkCell l (Some p) (length kL) ss (tloc <$> (ksA ++ ksB));
   mkCell p (ctx_par C) (ctx_idx C) (sL ++ sR) (tloc <$> (kL ++ T l ss (ksA ++ ksB) :: kR))] ++
  froots [(p, S (length kL), kR); (l, length ksA, ksB)] ++
  (roots p 0 kL ++ roots l 0 ksA ++ subs (ksA ++ ksB) ++ subs kL ++ subs kR ++ ctx_cells C p).
Proof.
  rewrite cells_plug_node, roots_app, subs_app, subs_cons, sub_cells_eq. cbn [roots].
  rewrite roots_app. unfold froots, root_cell. cbn. rewrite ?app_nil_r. solve_Permutation.
Qed.

Lemma split_node_rep h C p sL sR kL kR l m ssA ssB ksA ksB a x y z us :
  us = links p (length kL + 2) (tloc <$> kR) ++ links a 0 (tloc <$> ksB) →
  rep h (plug C (T p (sL ++ sR) (kL ++ T l (ssA ++ m :: ssB) (ksA ++ ksB) :: kR))) → a = next h →
  node_ok x (mkCell p (ctx_par C) (ctx_idx C) (sL ++ m :: sR) (tloc <$> (kL ++ T l ssA ksA :: T a ssB ksB :: kR))) →
  node_ok y (mkCell a (Some p) (length kL + 1) ssB (tloc <$> ksB)) →
  node_ok z (mkCell l (Some p) (length kL) ssA (tloc <$> ksA)) →
  rep (upd (upd (upd (link (bump h) us) p x) a y) l z)
    (plug C (T p (sL ++ m :: sR) (kL ++ T l ssA ksA :: T a ssB ksB :: kR))).
Proof.
  intros -> [El Hm] -> Hx Hy Hz. rewrite Nat.add_1_r in Hy. split; [rewrite <- El; by apply plug_loc|].
  rewrite split_node_cells in Hm. pose proof (models_facts _ _ _ _ Hm) as (Hnd & HO & _).
  nodup_in Hnd. rewrite !Forall_cons in HO. destruct HO as ([Hl _] & [Hp _] & _). cbn in Hl, Hp.
  assert (E : cells None 0 (plug C (T p (sL ++ m :: sR) (kL ++ T l ssA ksA :: T (next h) ssB ksB :: kR))) ≡ₚ
    [mkCell l (Some p) (length kL) ssA (tloc <$> ksA); mkCell (next h) (Some p) (S (length kL)) ssB (tloc <$> ksB);
     mkCell p (ctx_par C) (ctx_idx C) (sL ++ m :: sR) (tloc <$> (kL ++ T l ssA ksA :: T (next h) ssB ksB :: kR))] ++
    froots [(p, length kL + 2, kR); (next h, 0, ksB)] ++
    (roots p 0 kL ++ roots l 0 ksA ++ subs (ksA ++ ksB) ++ subs kL ++ subs kR ++ ctx_cells C p)).
  { rewrite cells_plug_node, roots_app, !subs_app, !subs_cons, !sub_cells_eq. unfold froots, root_cell. cbn.
    rewrite ?app_nil_r, (Nat.add_comm _ 2). solve_Permutation. }
  rewrite E. eapply (models_change h (bump h) _ _ _ _ _ _ [(l, z); (next h, y); (p, x)]); [unfold flinks; cbn; by rewrite app_nil_r|exact Hm|done|simpl; lia|done|done| | |].
  - nodup.
  - cbn. rewrite !Forall2_cons. done.
  - intros v. cbn. rewrite !elem_of_cons, elem_of_nil. lia.
Qed.

(** Room for one more child. *)
Lemma insert_kid pd p par idx ss kL (k : tree Value) kR :
  node_ok pd (mkCell p par idx ss (tloc <$> (kL ++ k :: kR))) →
  length (kL ++ k :: kR) = length ss + 1 → length ss < maxDegree - 1 →
  ∃ y, arr maxDegree (copy_at (children pd) (length kL + 2) (slice (children pd) (length kL + 1) (length ss + 1)))
    (((Some <$> (tloc <$> (kL ++ [k]))) ++ [y]) ++ (Some <$> (tloc <$> kR))).
Proof.
  intros Hn El Hle. pose proof (ok_children _ _ Hn) as Hc. cbn in Hc. replace (length kL + 2) with (length kL + 1 + 1) by lia.
  replace (kL ++ k :: kR) with ((kL ++ [k]) ++ kR) in Hc, El by (by rewrite <- (assoc_L (++))).
  rewrite !(fmap_app _ (kL ++ [k])), fmap_app in Hc. rewrite !length_app in El. simpl in El.
  destruct (arr_shift _ _ _ _ (length kL + 1) (length ss + 1) Hc) as [y Ha];
    [by rewrite !length_fmap, length_app|rewrite !length_app, !length_fmap, !length_app; simpl; lia|lia|]. exists y. by rewrite <- !(assoc_L (++)).
Qed.

Lemma insert_node_ok pd p par idx sL sR m kL k kR a (k1 k2 : tree Value) y :
  node_ok pd (mkCell p par idx (sL ++ sR) (tloc <$> (kL ++ k :: kR))) →
  length kL = length sL → length (sL ++ sR) < maxDegree - 1 → tloc k1 = tloc k → tloc k2 = a →
  arr maxDegree (copy_at (children pd) (length kL + 2) (slice (children pd) (length kL + 1) (length (sL ++ sR) + 1)))
    (((Some <$> (tloc <$> (kL ++ [k]))) ++ [y]) ++ (Some <$> (tloc <$> kR))) →
  node_ok (mkNode (length (sL ++ sR) + 1) (parent pd) (parentIndex pd) (hasChildren pd)
    (<[length kL := m.1]> (copy_at (keys pd) (length kL + 1) (slice (keys pd) (length kL) (length (sL ++ sR)))))
    (<[length kL := m.2]> (copy_at (values pd) (length kL + 1) (slice (values pd) (length kL) (length (sL ++ sR)))))
    (<[length kL + 1 := Some a]>
       (copy_at (children pd) (length kL + 2) (slice (children pd) (length kL + 1) (length (sL ++ sR) + 1)))))
    (mkCell p par idx (sL ++ m :: sR) (tloc <$> (kL ++ k1 :: k2 :: kR))).
Proof.
  intros Hn EL Hle E1 E2 Ha. destruct Hn as [Hnr Hpar Hidx Hhas Hk Hv Hc]. cell_norm. constructor; cell_norm; try done.
  - rewrite !length_app. simpl. lia.
  - rewrite Hhas, !fmap_app. by destruct kL.
  - rewrite fmap_app in Hk. rewrite fmap_app, fmap_cons. apply arr_insert; [done|by rewrite length_fmap|by rewrite !length_app, !length_fmap|done].
  - rewrite fmap_app in Hv. rewrite fmap_app, fmap_cons. apply arr_insert; [done|by rewrite length_fmap|by rewrite !length_app, !length_fmap|done].
  - rewrite <- (assoc_L (++)) in Ha. eapply arr_set_mid in Ha; [|by rewrite !length_fmap, length_app].
    replace (kL ++ k1 :: k2 :: kR) with ((kL ++ [k1]) ++ k2 :: kR) by (by rewrite <- (assoc_L (++))).
    rewrite !(fmap_app _ (kL ++ _)), !fmap_app, !fmap_cons, E1, E2. by rewrite !fmap_app in Ha.
Qed.

Lemma trim_node_ok nd l par idx ssA m ssB ksA ksB chs :
  node_ok nd (mkCell l par idx (ssA ++ m :: ssB) (tloc <$> (ksA ++ ksB))) → length ssA = minDegree - 1 →
  (ksA = [] → ksB = []) → arr maxDegree chs (Some <$> (tloc <$> ksA)) →
  node_ok (mkNode (minDegree - 1) (parent nd) (parentIndex nd) (hasChildren nd) (keys nd)
    (map_from ClearValue (minDegree - 1) (values nd)) chs) (mkCell l par idx ssA (tloc <$> ksA)).
Proof.
  intros [Hnr Hpar Hidx Hhas Hk Hv Hc] EA Hks Ha. cell_norm. rewrite fmap_app in Hk. rewrite fmap_app in Hv. constructor; cell_norm; try done.
  - rewrite Hhas. destruct ksA as [|k ksA]; [by rewrite Hks|done].
  - by eapply arr_prefix.
  - eapply arr_map_from; [exact Hv|rewrite length_fmap; lia].
Qed.

Lemma split_node_spec h C p sL sR kL kR l ssA m ssB ksA ksB d Q :
  rep h (plug C (T p (sL ++ sR) (kL ++ T l (ssA ++ m :: ssB) (ksA ++ ksB) :: kR))) →
  length kL = length sL → length kR = length sR → length (sL ++ sR) < maxDegree - 1 →
  wf d (T l (ssA ++ m :: ssB) (ksA ++ ksB)) →
  length ssA = minDegree - 1 → length ssB = minDegree - 1 → split_kids d ssA ssB ksA ksB →
  (∀ a h', rep h' (plug C (T p (sL ++ m :: sR) (kL ++ T l ssA ksA :: T a ssB ksB :: kR))) → Q a h') →
  wp (split_node l p) h Q.
Proof.
  intros Hr EL ER Hle Hw EA EB Hsp HQ. pose proof minDegree_3 as Hmin. pose proof Hr as [_ Hm]. rewrite split_node_cells in Hm.
  destruct (models_facts _ _ _ _ Hm) as (Hnd & HO & HlK & HndK & HK & Hnew).
  nodup_in Hnd. rewrite !Forall_cons in HO, HlK. destruct HO as ([Hl (nd & E & Hn)] & [Hp (pd & Ep & Hpn)] & _).
  assert (Hc := node_has _ _ _ _ _ _ _ Hn Hw). cbn [c_loc] in *.
  destruct (node_halves _ _ _ _ _ _ _ _ Hn EA EB) as (SkA & SvA & Km & Vm & SkB & SvB).
  pose proof (ok_index _ _ Hn) as Hidx. pose proof (ok_nr _ _ Hpn) as Hnr. cbn in Hidx, Hnr.
  unfold ftrees in *. cbn in HlK, HndK, HK, Hnew. rewrite app_nil_r in HlK, HndK, HK, Hnew.
  apply Forall_app in HK as [HKR HKB]. destruct HlK as (HlK & HpK & _).
  rewrite fmap_app in HlK, HpK, Hnew. rewrite not_elem_of_app in HlK, HpK. destruct HlK as [HlR HlB]. destruct HpK as [HpR HpB].
  destruct (insert_kid _ _ _ _ _ kL (T l (ssA ++ m :: ssB) (ksA ++ ksB)) kR Hpn) as [y ArrC];
    [rewrite !length_app; simpl; lia|done|].
  unfold split_node. wp_step. wp_step. repeat wp_step. node_norm. rewrite Hidx, Hnr.
  eapply (wp_reindex_range _ _ _ (tloc <$> kR));
    [eapply (has_kids_intro _ _ _ _ kR _ maxDegree); [by heap_lookup|exact ArrC| |done|by kids_alloc]| | |].
  { rewrite length_app, !length_fmap, length_app. simpl. lia. }
  { rewrite length_app, length_fmap. lia. }
  { intros c cd Hck. rewrite lookup_upd_ne by (by intros ->). by eapply (froots_parent h _ _ _ p); [exact Hm|left|]. }
  assert (Hmax : minDegree - 1 ≤ maxDegree - 1) by (unfold maxDegree; lia).
  heap_norm. wp_step. wp_step. cbn [link upd bump next]. remember (next h) as a eqn:Ea.
  rewrite SkB, SvB. repeat wp_step. rewrite Hc.
  destruct d as [|d].
  - destruct Hsp as [-> ->]. repeat wp_step. rewrite ?Hnr. apply HQ. eapply split_node_rep; [by rewrite app_nil_r|exact Hr|done| | |].
    + by eapply (insert_node_ok pd _ _ _ _ _ _ _ (T l _ _) _ _ (T l _ _) (T a _ _)).
    + apply new_node_ok; [done|done|lia|by apply arr_nil, length_replicate].
    + eapply (trim_node_ok nd _ _ _ _ _ _ _ _ (children nd)); [exact Hn|done|done|apply (ok_children _ _ Hn)].
  - destruct Hsp as [LA LB]. destruct (kids_halves _ _ _ _ _ ksA ksB Hn) as [ScA ScB]; [lia|lia|].
    repeat wp_step. rewrite ScB.
    assert (ArrB : arr maxDegree (copy_at (replicate maxDegree None) 0 (Some <$> (tloc <$> ksB))) (Some <$> (tloc <$> ksB)))
      by (apply arr_new; rewrite !length_fmap; unfold maxDegree; lia).
    eapply (wp_reparent_range _ _ _ (tloc <$> ksB));
      [eapply (has_kids_intro _ _ _ _ ksB _ maxDegree []); [by heap_lookup|done|done|done|by kids_alloc]|rewrite length_fmap; lia|].
    assert (a ∉ tloc <$> ksB) by (eapply not_elem_of_app, Hnew; lia).
    heap_norm. repeat wp_step. apply HQ. rewrite ?Hnr. eapply split_node_rep; [done|exact Hr|done| | |].
    + by eapply (insert_node_ok pd _ _ _ _ _ _ _ (T l _ _) _ _ (T l _ _) (T a _ _)).
    + apply new_node_ok; [done|by destruct ksB|lia|done].
    + eapply (trim_node_ok nd _ _ _ _ _ _ _ _ (map_from _ _ (children nd))); [exact Hn|done|by destruct ksA|].
      pose proof (ok_children _ _ Hn) as Hch. cell_norm. rewrite !fmap_app in Hch.
      eapply arr_map_from; [exact Hch|rewrite !length_fmap; lia].
Qed.
End Split.

Section Insert.
Context {Value : Type} `{FL : FunctionsLaws Value}.
Local Abbreviation seg := (Range * Value)%type.
Implicit Types (t : tree Value) (ks ksA ksB kL kR : list (tree Value)) (ss ssA ssB sL sR : list seg).
Implicit Types (C : list (frame Value)) (f : frame Value) (l n : loc) (h : heap Value) (nd : setNode Value).

(** ** Segments without their places *)

Definition flat t : list seg := (items t).*2.

Definition lsegs C : list seg := (left_items C).*2.

Definition rsegs C : list seg := (right_items C).*2.

Lemma flat_fmap ks : (λ x : list ((loc * nat) * seg), x.*2) <$> (items <$> ks) = flat <$> ks.
Proof. by rewrite <- list_fmap_compose. Qed.

Lemma flat_eq l ss ks : flat (T l ss ks) = weave (flat <$> ks) ss.
Proof. unfold flat at 1. by rewrite items_eq, weave_snd, flat_fmap. Qed.

Lemma lsegs_cons f C : lsegs (f :: C) = lsegs C ++ pre (flat <$> ksL f) (ssL f).
Proof. unfold lsegs. simpl. unfold frame_left. by rewrite fmap_app, pre_snd, flat_fmap. Qed.

Lemma rsegs_cons f C : rsegs (f :: C) = post (ssR f) (flat <$> ksR f) ++ rsegs C.
Proof. unfold rsegs. simpl. unfold frame_right. by rewrite fmap_app, post_snd, flat_fmap. Qed.

Lemma flat_plug d C t : wf_ctx d C → flat (plug C t) = lsegs C ++ flat t ++ rsegs C.
Proof. intros Hw. unfold flat. by rewrite (items_plug d), !fmap_app. Qed.

Lemma pre_join (xs1 xs2 : list (list seg)) ss1 s ss2 :
  length xs1 = S (length ss1) → pre (xs1 ++ xs2) (ss1 ++ s :: ss2) = weave xs1 ss1 ++ s :: pre xs2 ss2.
Proof.
  revert ss1. induction xs1 as [|x xs1 IH]; intros [|s1 ss1] E; simplify_eq/=.
  - apply nil_length_inv in E as ->. unfold pre. simpl. by rewrite <- (assoc_L (++)).
  - rewrite <- (assoc_L (++)). simpl. rewrite <- IH by done. unfold pre. simpl. by rewrite <- (assoc_L (++)).
Qed.

Lemma post_join (xs1 xs2 : list (list seg)) ss1 s ss2 :
  length xs1 = length ss1 → length xs2 = S (length ss2) →
  post (ss1 ++ s :: ss2) (xs1 ++ xs2) = post ss1 xs1 ++ s :: weave xs2 ss2.
Proof.
  intros E1 E2. rewrite post_app by done. f_equal. destruct xs2 as [|x xs2]; [done|]. simpl in E2.
  rewrite weave_post by lia. done.
Qed.

(** ** Splitting a node *)

(** A full node became [x] and [y], with contexts [CA] and [CB]. *)
Record split_result h d C (x y : loc) CA CB ssA (m : seg) ssB ksA ksB : Prop := {
  sr_rep : rep h (plug CA (T x ssA ksA));
  sr_same : plug CB (T y ssB ksB) = plug CA (T x ssA ksA);
  sr_okA : tree_ok d CA (T x ssA ksA);
  sr_okB : tree_ok d CB (T y ssB ksB);
  sr_lA : lsegs CA = lsegs C;
  sr_rA : rsegs CA = m :: weave (flat <$> ksB) ssB ++ rsegs C;
  sr_lB : lsegs CB = lsegs C ++ weave (flat <$> ksA) ssA ++ [m];
  sr_rB : rsegs CB = rsegs C
}.

Lemma split_result_intro h d C C1 q sL sR kL kR x y ssA m ssB ksA ksB :
  rep h (plug C1 (T q (sL ++ m :: sR) (kL ++ T x ssA ksA :: T y ssB ksB :: kR))) →
  tree_ok (S d) C1 (T q (sL ++ m :: sR) (kL ++ T x ssA ksA :: T y ssB ksB :: kR)) →
  length kL = length sL → length kR = length sR →
  lsegs C = lsegs C1 ++ pre (flat <$> kL) sL → rsegs C = post sR (flat <$> kR) ++ rsegs C1 →
  split_result h d C x y (Frame q sL kL (m :: sR) (T y ssB ksB :: kR) :: C1)
    (Frame q (sL ++ [m]) (kL ++ [T x ssA ksA]) sR kR :: C1) ssA m ssB ksA ksB.
Proof.
  intros Hr Ht EL ER El Er. constructor; rewrite ?lsegs_cons, ?rsegs_cons; cbn [ksL ksR ssL ssR].
  - done.
  - simpl. by rewrite <- !(assoc_L (++)).
  - apply tree_ok_child; [done|simpl; by f_equal|done].
  - apply tree_ok_child; [rewrite !length_app; simpl; lia|done|]. by rewrite <- !(assoc_L (++)).
  - done.
  - rewrite Er, fmap_cons, flat_eq. unfold post. simpl. by rewrite <- !(assoc_L (++)).
  - rewrite El, fmap_app, pre_app, fmap_cons, fmap_nil, pre_single, flat_eq by (by rewrite length_fmap). by rewrite <- !(assoc_L (++)).
  - done.
Qed.

Lemma wf_halves d n x y ssA m ssB ksA ksB :
  wf d (T n (ssA ++ m :: ssB) (ksA ++ ksB)) → split_kids d ssA ssB ksA ksB →
  length ssA = minDegree - 1 → length ssB = minDegree - 1 → kid_ok d (T x ssA ksA) ∧ kid_ok d (T y ssB ksB).
Proof.
  intros Hw Hsp EA EB. assert (minDegree - 1 ≤ maxDegree - 1) by (unfold maxDegree; lia). unfold kid_ok. simpl tsegs.
  destruct d as [|d].
  - destruct Hsp as [-> ->]. repeat split; simpl; lia.
  - apply wf_kids in Hw as (_ & _ & Hk). apply Forall_app in Hk as [HA HB]. destruct Hsp as [LA LB].
    rewrite !wf_kids. split_and!; try done; lia.
Qed.

Lemma enough_mono d C ss ss' : enough d C ss → length ss ≤ length ss' → enough d C ss'.
Proof. unfold enough. destruct C; lia. Qed.

(** The parent has room. *)
Definition room C : Prop := match C with [] => True | f :: _ => length (ssL f ++ ssR f) < maxDegree - 1 end.

(** Where a gap is after the split of [n] into [x] and [y]. *)
Definition split_gap n (x y : loc) (gap : loc * nat) : loc * nat :=
  if negb (gap.1 =? n) then gap else if gap.2 <? minDegree then (x, gap.2) else (y, gap.2 - minDegree).

Lemma split_any_spec h d C n ssA m ssB ksA ksB gap Q :
  rep h (plug C (T n (ssA ++ m :: ssB) (ksA ++ ksB))) → tree_ok d C (T n (ssA ++ m :: ssB) (ksA ++ ksB)) →
  length ssA = minDegree - 1 → length ssB = minDegree - 1 → split_kids d ssA ssB ksA ksB → room C →
  (∀ h' x y CA CB, split_result h' d C x y CA CB ssA m ssB ksA ksB → Q (split_gap n x y gap) h') →
  wp (nd ← load n;
      match parent nd with
      | None =>
          '(lc, rc) ← split_root n;
          if negb (gap.1 =? n) then mret gap
          else if gap.2 <? minDegree then mret (lc, gap.2) else mret (rc, gap.2 - minDegree)
      | Some p =>
          sibling ← split_node n p;
          if negb (gap.1 =? n) then mret gap
          else if gap.2 <? minDegree then mret gap else mret (sibling, gap.2 - minDegree)
      end) h Q.
Proof.
  intros Hr Ht EA EB Hsp Hroom HQ. destruct (rep_node _ _ _ _ _ Hr) as (nd & E & Hn). wp_step. wp_step.
  rewrite (ok_parent _ _ Hn). pose proof Ht as (_ & Hw & _). pose proof minDegree_3.
  assert (Hmax : 1 ≤ maxDegree - 1) by (unfold maxDegree; lia).
  destruct C as [|[p sL kL sR kR] C]; cbn [ctx_par c_par]; wp_step.
  - eapply split_root_spec; [exact Hr|exact Hw|done|done|done|]. intros a b h' Hr'.
    destruct (wf_halves _ _ a b _ _ _ _ _ Hw Hsp EA EB) as [HA HB].
    eassert (Hs : split_result h' d [] a b _ _ ssA m ssB ksA ksB).
    { apply (split_result_intro h' d [] [] n [] [] [] []); try done. split; [done|]. split; [|by right; simpl].
      apply wf_kids. split_and!; [done|done|]. cbn [app]. by rewrite !Forall_cons. }
    specialize (HQ _ _ _ _ _ Hs). unfold split_gap in HQ. repeat case_match; by apply wp_ret.
  - pose proof Ht as [(EL & ER & Hle & HkL & HkR & He & HC) _]. simpl in *.
    eapply split_node_spec; [exact Hr|done|done|done|exact Hw|done|done|done|]. intros a h' Hr'.
    destruct (wf_halves _ _ n a _ _ _ _ _ Hw Hsp EA EB) as [HA HB].
    eassert (Hs : split_result h' d (Frame p sL kL sR kR :: C) n a _ _ ssA m ssB ksA ksB).
    { eapply split_result_intro; [exact Hr'| |done|done|by rewrite lsegs_cons|by rewrite rsegs_cons].
      split; [done|]. split; [|eapply enough_mono; [exact He|cbn [tsegs]; rewrite !length_app; simpl; lia]].
      apply wf_kids. rewrite !length_app in *. simpl. split_and!; [lia|lia|]. by rewrite Forall_app, !Forall_cons. }
    specialize (HQ _ _ _ _ _ Hs). destruct gap as [g i]. unfold split_gap in HQ. simpl in HQ |- *.
    destruct (Nat.eqb_spec g n) as [->|]; [|by apply wp_ret]. simpl in *. by case_match; apply wp_ret.
Qed.

Lemma app_longer {A} (l1 l2 k1 k2 : list A) :
  l1 ++ l2 = k1 ++ k2 → length k1 ≤ length l1 → ∃ k, l1 = k1 ++ k ∧ k2 = k ++ l2.
Proof.
  intros [(k & -> & ->)|(k & -> & ->)]%app_eq_inv Hle; [by exists k|]. rewrite length_app in Hle.
  destruct k as [|x k]; [|simpl in Hle; lia]. exists []. by rewrite !app_nil_r.
Qed.

(** A child of a node that was split, in its new context. *)
Lemma refocus h d C x y CA CB ssA m ssB ksA ksB sL sR kL kid kR :
  split_result h (S d) C x y CA CB ssA m ssB ksA ksB →
  sL ++ sR = ssA ++ m :: ssB → kL ++ kid :: kR = ksA ++ ksB → length kL = length sL →
  length ssA = minDegree - 1 → length ssB = minDegree - 1 →
  ∃ f' C', rep h (plug (f' :: C') kid) ∧ tree_ok d (f' :: C') kid ∧ room (f' :: C') ∧
    lsegs (f' :: C') = lsegs C ++ pre (flat <$> kL) sL ∧ rsegs (f' :: C') = post sR (flat <$> kR) ++ rsegs C.
Proof.
  intros [Hr Hsame HA HB lA rA lB rB] Es Ek EL EA EB. pose proof minDegree_3.
  assert (Hmax : minDegree - 1 < maxDegree - 1) by (unfold maxDegree; lia).
  pose proof HA as (_ & (_ & LA & _)%wf_kids & _). pose proof HB as (_ & (_ & LB & _)%wf_kids & _).
  destruct (decide (length ksA ≤ length kL)) as [Hle|Hlt].
  - destruct (app_longer _ _ _ _ Ek Hle) as (kL' & -> & ->). rewrite length_app in *.
    rewrite (cons_middle m ssA ssB), (assoc_L (++)) in Es.
    destruct (app_longer _ _ _ _ Es) as (sL' & -> & ->); [rewrite length_app; simpl; lia|].
    exists (Frame y sL' kL' sR kR), CB. rewrite lsegs_cons, rsegs_cons, lB, rB. cbn [ksL ksR ssL ssR].
    rewrite !length_app in *. simpl in *. split_and!; [by rewrite <- Hsame in Hr|apply tree_ok_child; [lia|lia|done]| | |done].
    + rewrite length_app in *. simpl in *. lia.
    + rewrite fmap_app, <- (assoc_L (++) ssA). cbn [app]. rewrite pre_join by (by rewrite length_fmap). by rewrite <- !(assoc_L (++)).
  - destruct (app_longer _ _ _ _ (eq_sym Ek)) as ([|k kR'] & -> & E2); [lia|rewrite app_nil_r in Hlt; lia|].
    injection E2 as <- ->. destruct (app_longer _ _ _ _ (eq_sym Es)) as (sR' & -> & ->); [rewrite !length_app in *; simpl in *; lia|].
    exists (Frame x sL kL sR' kR'), CA. rewrite lsegs_cons, rsegs_cons, lA, rA. cbn [ksL ksR ssL ssR].
    rewrite !length_app in *. simpl in *.
    split_and!; [done|apply tree_ok_child; [lia|lia|done]|by rewrite !length_app in *; simpl in *; lia|done| ].
    rewrite fmap_app, post_join by (rewrite !length_fmap; lia). by rewrite <- !(assoc_L (++)).
Qed.

(** A node that is full: its halves. *)
Lemma full_halves d n ss ks :
  wf d (T n ss ks) → length ss = maxDegree - 1 →
  ∃ ssA m ssB ksA ksB, ss = ssA ++ m :: ssB ∧ ks = ksA ++ ksB ∧ length ssA = minDegree - 1 ∧ length ssB = minDegree - 1 ∧
    split_kids d ssA ssB ksA ksB.
Proof.
  intros Hw Hfull. destruct (split_full ss Hfull) as (ssA & m & ssB & -> & EA & EB). pose proof minDegree_3.
  exists ssA, m, ssB, (take minDegree ks), (drop minDegree ks). rewrite take_drop. split_and!; try done. destruct d as [|d].
  - destruct Hw as [_ ->]. by rewrite take_nil, drop_nil.
  - apply wf_kids in Hw as (_ & Hl & _). simpl. rewrite length_app in Hl. simpl in Hl. rewrite length_take, length_drop. lia.
Qed.

(** One call, given what the call for the parent does. *)
Definition makes_room fuel h d C t gap : Prop := ∀ Q : loc * nat → heap Value → Prop,
  (∀ h' C', rep h' (plug C' t) → tree_ok d C' t → room C' → lsegs C' = lsegs C → rsegs C' = rsegs C → Q gap h') →
  wp (match ctx_par C with Some p => rebalance_before_insert fuel p gap | None => mret gap end) h Q.

Lemma rebalance_step fuel h d C n ss ks gap Q :
  rep h (plug C (T n ss ks)) → tree_ok d C (T n ss ks) → makes_room fuel h d C (T n ss ks) gap →
  (length ss < maxDegree - 1 → Q gap h) →
  (∀ h' C' x y CA CB ssA m ssB ksA ksB, ss = ssA ++ m :: ssB → ks = ksA ++ ksB →
     length ssA = minDegree - 1 → length ssB = minDegree - 1 → split_kids d ssA ssB ksA ksB →
     lsegs C' = lsegs C → rsegs C' = rsegs C →
     split_result h' d C' x y CA CB ssA m ssB ksA ksB → Q (split_gap n x y gap) h') →
  wp (rebalance_before_insert (S fuel) n gap) h Q.
Proof.
  intros Hr Ht Hp HQ1 HQ2. destruct (rep_node _ _ _ _ _ Hr) as (nd & E & Hn). cbn [rebalance_before_insert]. wp_step. wp_step.
  rewrite (ok_nr _ _ Hn), (ok_parent _ _ Hn). cell_norm.
  destruct (Nat.ltb_spec (length ss) (maxDegree - 1)) as [Hroom|Hfull]; [by apply wp_ret, HQ1|].
  apply wp_bind, Hp. intros h1 C1 Hr1 Ht1 Hroom El Er. pose proof Ht1 as (_ & Hw & _).
  assert (Hlen : length ss = maxDegree - 1) by (destruct d; destruct Hw; lia).
  destruct (full_halves _ _ _ _ Hw Hlen) as (ssA & m & ssB & ksA & ksB & -> & -> & EA & EB & Hsp).
  eapply split_any_spec; [exact Hr1|exact Ht1|done|done|done|done|]. intros h' x y CA CB Hs. by eapply HQ2.
Qed.

(** Making room in the nodes of the context, from the parent up. *)
Lemma make_room_spec fuel h d C t gap :
  rep h (plug C t) → tree_ok d C t → length C ≤ fuel → gap.1 ∉ f_loc <$> C → makes_room fuel h d C t gap.
Proof.
  revert fuel h d t. induction C as [|f C IH]; intros fuel h d t Hr Ht Hf Hg Q HQ; [apply wp_ret; by eapply HQ|].
  destruct fuel as [|fuel]; [simpl in Hf; lia|]. destruct f as [n sL kL sR kR].
  pose proof Ht as [(EL & ER & Hle & _) _]. simpl in EL, ER, Hle.
  rewrite fmap_cons, not_elem_of_cons in Hg. destruct Hg as [Hn Hg].
  assert (Ht' := Ht). apply tree_ok_child in Ht'; [|done|done].
  apply (rebalance_step _ _ (S d) C n (sL ++ sR) (kL ++ t :: kR)); [done|done| | |].
  - apply IH; [done|done|simpl in Hf; lia|done].
  - intros Hroom. by eapply HQ.
  - intros h' C' x y CA CB ssA m ssB ksA ksB Es Ek EA EB Hsp El Er Hs.
    destruct (refocus _ _ _ _ _ _ _ _ _ _ _ _ _ _ _ _ _ Hs Es Ek EL EA EB) as (f' & C1 & Hr1 & Ht1 & Hroom & El1 & Er1).
    unfold split_gap. destruct (Nat.eqb_spec gap.1 n) as [?|_]; [done|]. simpl.
    eapply HQ; [exact Hr1|exact Ht1|exact Hroom| |].
    + by rewrite El1, lsegs_cons, El.
    + by rewrite Er1, rsegs_cons, Er.
Qed.

Lemma rebalanceBeforeInsert_spec h C n ss1 ss2 Q :
  rep h (plug C (T n (ss1 ++ ss2) [])) → tree_ok 0 C (T n (ss1 ++ ss2) []) →
  (∀ h' C' n' ss1' ss2', rep h' (plug C' (T n' (ss1' ++ ss2') [])) → tree_ok 0 C' (T n' (ss1' ++ ss2') []) →
     length (ss1' ++ ss2') < maxDegree - 1 → lsegs C' ++ ss1' = lsegs C ++ ss1 → ss2' ++ rsegs C' = ss2 ++ rsegs C →
     Q (n', length ss1') h') →
  wp (rebalanceBeforeInsert n (n, length ss1)) h Q.
Proof.
  intros Hr Ht HQ. pose proof Ht as (_ & Hw & _). pose proof (rep_fuel _ _ _ _ Hr Hw) as Hf.
  apply wp_bind, wp_fuel. destruct (next h) as [|fuel]; [lia|].
  eapply rebalance_step; [exact Hr|exact Ht| |intros Hroom; by eapply HQ|].
  { apply make_room_spec; [done|done|lia|]. apply (rep_ctx _ _ _ Hr). }
  intros h' C' x y CA CB ssA m ssB ksA ksB Es Ek EA EB Hsp El Er [Hr' Hsame HA HB lA rA lB rB].
  destruct Hsp as [-> ->]. unfold split_gap. simpl in *. rewrite Nat.eqb_refl. simpl.
  pose proof minDegree_3. assert (Hmax : minDegree - 1 < maxDegree - 1) by (unfold maxDegree; lia).
  destruct (Nat.ltb_spec (length ss1) minDegree) as [Hlt|Hge].
  - destruct (app_longer _ _ _ _ (eq_sym Es)) as (ss2' & -> & ->); [lia|].
    eapply HQ; [exact Hr'|exact HA|lia|by rewrite lA, El|]. rewrite rA, Er. by rewrite <- !(assoc_L (++)).
  - rewrite (cons_middle m ssA ssB), (assoc_L (++)) in Es.
    destruct (app_longer _ _ _ _ Es) as (ss1' & -> & ->); [rewrite length_app; simpl; lia|].
    rewrite <- Hsame in Hr'. replace (length ((ssA ++ [m]) ++ ss1') - minDegree) with (length ss1')
      by (rewrite !length_app; simpl; lia).
    eapply HQ; [exact Hr'|exact HB|lia| |by rewrite rB, Er]. rewrite lB, El. by rewrite <- !(assoc_L (++)).
Qed.

(** ** Segments of a node *)

Lemma tree_ok_segs d C n ss ss' ks :
  length ss = length ss' → tree_ok d C (T n ss ks) → tree_ok d C (T n ss' ks).
Proof.
  intros E (HC & Hw & He). split; [done|]. split; [|by eapply enough_mono; [|cbn; rewrite E]].
  destruct d; simpl in *; rewrite <- E; done.
Qed.

(** The same segments and gaps, at the same places. *)
Definition same_shape t t' : Prop := (items t').*1 = (items t).*1 ∧ gaps t' = gaps t.

(** Another range or another value for a segment. *)
Lemma set_seg_spec h t k n i s s' upd_node Q :
  is_tree h t → items t !! k = Some ((n, i), s) →
  (∀ nd ss1 ss2 par idx kids, length ss1 = i → node_ok nd (mkCell n par idx (ss1 ++ s :: ss2) kids) →
     node_ok (upd_node nd) (mkCell n par idx (ss1 ++ s' :: ss2) kids)) →
  (∀ h' t', is_tree h' t' → same_shape t t' → flat t' = <[k := s']> (flat t) → Q () h') →
  wp (modify n upd_node) h Q.
Proof.
  intros [Hr Hd] Hx Hf HQ. destruct (item_place _ _ _ _ _ Hd Hx) as (d & C & ss1 & ss2 & ks1 & ks2 & -> & Ht & Ei & Hsp & Ek).
  destruct (rep_node _ _ _ _ _ Hr) as (nd & E & Hn). eapply wp_modify; [done|].
  assert (Ht' : tree_ok d C (T n (ss1 ++ s' :: ss2) (ks1 ++ ks2))).
  { eapply tree_ok_segs; [|exact Ht]. by rewrite !length_app. }
  apply (HQ _ (plug C (T n (ss1 ++ s' :: ss2) (ks1 ++ ks2)))).
  - eapply is_tree_plug; [|exact Ht']. eapply rep_set_node; [exact Hr|]. by eapply Hf.
  - pose proof Ht as [Hw _]. unfold same_shape. rewrite !(items_plug d), !(item_split d), !gaps_plug by done. split.
    + by rewrite !fmap_app, !fmap_cons.
    + f_equal. f_equal. destruct (ks1 ++ ks2); [|done]. simpl. by rewrite !length_app.
  - pose proof Ht as [Hw _]. unfold flat. rewrite !(items_plug d), !(item_split d) by done. rewrite !fmap_app, !fmap_cons.
    rewrite Ek. rewrite <- !(assoc_L (++)), <- (length_fmap snd (left_items C)), insert_app_r. f_equal.
    rewrite insert_app_r_alt by (by rewrite length_fmap). by rewrite length_fmap, Nat.sub_diag.
Qed.

Lemma SetRangeUnchecked_spec h t k it s r Q :
  is_tree h t → items t !! k = Some (it, s) →
  (∀ h' t', is_tree h' t' → same_shape t t' → flat t' = <[k := (r, s.2)]> (flat t) → Q () h') →
  wp (SetRangeUnchecked it r) h Q.
Proof.
  intros Ht Hx HQ. destruct it as [n i]. apply wp_bind. eapply wp_eq; [by eapply (seg_Range_spec h t k ((n, i), s))|].
  eapply set_seg_spec; [done|done| |done]. intros nd ss1 ss2 par idx kids <- [Hnr Hpar Hidx Hhas Hk Hv Hc]. cell_norm.
  constructor; cell_norm; rewrite ?length_app, ?fmap_app, ?fmap_cons in *; try done.
  eapply arr_set_mid; [exact Hk|by rewrite length_fmap].
Qed.

Lemma SetValue_spec h t k it s v Q :
  is_tree h t → items t !! k = Some (it, s) →
  (∀ h' t', is_tree h' t' → same_shape t t' → flat t' = <[k := (s.1, v)]> (flat t) → Q () h') →
  wp (SetValue it v) h Q.
Proof.
  intros Ht Hx HQ. destruct it as [n i]. apply wp_bind. eapply wp_eq; [by eapply (seg_Value_spec h t k ((n, i), s))|].
  eapply set_seg_spec; [done|done| |done]. intros nd ss1 ss2 par idx kids <- [Hnr Hpar Hidx Hhas Hk Hv Hc]. cell_norm.
  constructor; cell_norm; rewrite ?length_app, ?fmap_app, ?fmap_cons in *; try done.
  eapply arr_set_mid; [exact Hv|by rewrite length_fmap].
Qed.

(** The store of a segment in a leaf that has room. *)
Lemma leaf_insert_ok nd n par idx ss1 ss2 (s : seg) :
  node_ok nd (mkCell n par idx (ss1 ++ ss2) []) → length (ss1 ++ ss2) < maxDegree - 1 →
  node_ok (mkNode (length (ss1 ++ ss2) + 1) (parent nd) (parentIndex nd) (hasChildren nd)
    (<[length ss1 := s.1]> (copy_at (keys nd) (length ss1 + 1) (slice (keys nd) (length ss1) (length (ss1 ++ ss2)))))
    (<[length ss1 := s.2]> (copy_at (values nd) (length ss1 + 1) (slice (values nd) (length ss1) (length (ss1 ++ ss2)))))
    (children nd)) (mkCell n par idx (ss1 ++ s :: ss2) []).
Proof.
  intros [Hnr Hpar Hidx Hhas Hk Hv Hc] Hle. cell_norm. rewrite fmap_app in Hk. rewrite fmap_app in Hv.
  constructor; cell_norm; try done.
  - rewrite !length_app. simpl. lia.
  - rewrite fmap_app, fmap_cons. apply arr_insert; [done|by rewrite length_fmap|by rewrite !length_app, !length_fmap|done].
  - rewrite fmap_app, fmap_cons. apply arr_insert; [done|by rewrite length_fmap|by rewrite !length_app, !length_fmap|done].
Qed.

Lemma leaf_room C n ss1 ss2 (s : seg) :
  tree_ok 0 C (T n (ss1 ++ ss2) []) → length (ss1 ++ ss2) < maxDegree - 1 → tree_ok 0 C (T n (ss1 ++ s :: ss2) []).
Proof.
  intros (HC & _ & He) Hle. split; [done|]. rewrite length_app in *. split; [split; [|done]; rewrite length_app; simpl; lia|].
  eapply enough_mono; [exact He|]. cbn. rewrite !length_app. simpl. lia.
Qed.

Lemma flat_leaf C n ss : wf_ctx 0 C → flat (plug C (T n ss [])) = lsegs C ++ ss ++ rsegs C.
Proof. intros HC. by rewrite (flat_plug 0), flat_eq. Qed.

Lemma InsertWithoutMergingUnchecked_spec h t k g r v Q :
  is_tree h t → gaps t !! k = Some g →
  (∀ h' t' it, is_tree h' t' → flat t' = take k (flat t) ++ (r, v) :: drop k (flat t) → (items t').*1 !! k = Some it →
     Q it h') →
  wp (InsertWithoutMergingUnchecked g r v) h Q.
Proof.
  intros [Hr Hd] Hg HQ. destruct g as [n i]. destruct (gap_place _ _ _ _ Hd Hg) as (C & ss1 & ss2 & -> & Ht & <- & Ek).
  unfold InsertWithoutMergingUnchecked. wp_step.
  eapply rebalanceBeforeInsert_spec; [exact Hr|exact Ht|]. clear Hg. intros h' C' n' ss1' ss2' Hr' Ht' Hroom El Er.
  destruct (rep_node _ _ _ _ _ Hr') as (nd & E & Hn). pose proof Hn as [Hnr _ _ _ Hk Hv _]. cell_norm.
  rewrite fmap_app in Hk. rewrite fmap_app in Hv.
  destruct (arr_shift _ _ _ _ (length ss1') (length (ss1' ++ ss2')) Hk) as [yk Ak];
    [by rewrite length_fmap|by rewrite !length_app, !length_fmap|done|].
  destruct (arr_shift _ _ _ _ (length ss1') (length (ss1' ++ ss2')) Hv) as [yv Av];
    [by rewrite length_fmap|by rewrite !length_app, !length_fmap|done|].
  assert (Lk := arr_lookup _ _ _ (length ss1') yk Ak). assert (Lv := arr_lookup _ _ _ (length ss1') yv Av).
  rewrite list_lookup_middle in Lk by (by rewrite length_fmap). rewrite list_lookup_middle in Lv by (by rewrite length_fmap). specialize (Lk eq_refl). specialize (Lv eq_refl).
  repeat wp_step. rewrite Hnr. unfold SetRangeUnchecked, SetValue, seg_Range, seg_Value. cbn [fst snd]. repeat wp_step. rewrite Hnr.
  assert (Hn' := leaf_insert_ok _ _ _ _ _ _ (r, v) Hn Hroom).
  apply (HQ _ (plug C' (T n' (ss1' ++ (r, v) :: ss2') []))).
  - eapply is_tree_plug; [by eapply rep_set_node|]. by apply leaf_room.
  - rewrite !flat_leaf by (apply Ht || apply Ht'). rewrite Ek, <- (length_fmap snd (left_items C)).
    rewrite !(assoc_L (++)), <- (assoc_L (++) _ ss2), <- length_app.
    change ((left_items C).*2) with (lsegs C). rewrite <- El, <- Er.
    rewrite take_app_length, drop_app_length. by rewrite <- !(assoc_L (++)).
  - rewrite (items_leaf C') by apply Ht'. rewrite !fmap_app, nitems_app. simpl. rewrite fmap_app, fmap_cons, <- (assoc_L (++)).
    eapply lookup_middle_eq; [by rewrite (assoc_L (++))|].
    rewrite length_app, !length_fmap, length_nitems. apply (f_equal length) in El. unfold lsegs in El.
    rewrite !length_app, !length_fmap in El. lia.
Qed.
End Insert.
