(* ===== verification/SegRemove.v ===== *)
(** * Removal from a segment set

    Rotating a segment from a sibling, merging siblings, at the root and below it, and the
    removal of a segment: the tree stays balanced, and its segments are those before without
    the removed one. *)

From stdpp Require Import base numbers decidable gmap list_tactics list.
From S2P Require Import SegSet SegHeap SegTree SegIter SegChange SegInsert Prelude.

Section Merge.
Context {Value : Type} `{FL : FunctionsLaws Value}.
Local Abbreviation seg := (Range * Value)%type.
Implicit Types (t : tree Value) (ks kA kX kY kL kR : list (tree Value)) (ss sX sY sL sR sP : list seg).
Implicit Types (C : list (frame Value)) (l n p x y : loc) (h : heap Value) (nd : setNode Value).

(** ** Two adjacent siblings *)

Lemma pair_cells C p sP kL kR x sX kA kX y sY kY :
  cells None 0 (plug C (T p sP (kL ++ T x sX (kA ++ kX) :: T y sY kY :: kR))) ≡ₚ
  [mkCell x (Some p) (length kL) sX (tloc <$> (kA ++ kX));
   mkCell p (ctx_par C) (ctx_idx C) sP (tloc <$> (kL ++ T x sX (kA ++ kX) :: T y sY kY :: kR));
   mkCell y (Some p) (S (length kL)) sY (tloc <$> kY)] ++
  froots [(x, length kA, kX); (y, 0, kY)] ++
  (roots p 0 kL ++ roots p (S (S (length kL))) kR ++ roots x 0 kA ++
   subs kA ++ subs (kX ++ kY) ++ subs kL ++ subs kR ++ ctx_cells C p).
Proof.
  rewrite cells_plug_node, roots_app, !subs_app, !subs_cons, !sub_cells_eq. cbn [roots].
  rewrite !roots_app, !subs_app. unfold froots, root_cell. cbn. rewrite ?app_nil_r. solve_Permutation.
Qed.

(** Segments and children that moved between siblings. *)
Lemma rotate_rep h us C p sP kL kR x sX kA kX y sY kY sP' sX' kX' sY' kY' ny np nx :
  rep h (plug C (T p sP (kL ++ T x sX (kA ++ kX) :: T y sY kY :: kR))) → kX' ++ kY' = kX ++ kY →
  us = links x (length kA) (tloc <$> kX') ++ links y 0 (tloc <$> kY') →
  node_ok nx (mkCell x (Some p) (length kL) sX' (tloc <$> (kA ++ kX'))) →
  node_ok np (mkCell p (ctx_par C) (ctx_idx C) sP' (tloc <$> (kL ++ T x sX (kA ++ kX) :: T y sY kY :: kR))) →
  node_ok ny (mkCell y (Some p) (S (length kL)) sY' (tloc <$> kY')) →
  rep (upd (upd (upd (link h us) y ny) p np) x nx)
    (plug C (T p sP' (kL ++ T x sX' (kA ++ kX') :: T y sY' kY' :: kR))).
Proof.
  intros [El Hm] Ek -> Hx Hp Hy. split; [rewrite <- El; by apply plug_loc|]. rewrite pair_cells in Hm |- *. rewrite Ek.
  pose proof (models_facts _ _ _ _ Hm) as (Hnd & HO & _). rewrite !Forall_cons in HO.
  destruct HO as ([Hlx _] & [Hlp _] & [Hly _] & _). cbn in Hlx, Hlp, Hly.
  eapply (models_change h h _ _ _ _ _ _ [(x, nx); (p, np); (y, ny)]); [|exact Hm|done|done| |done|done| |].
  - unfold flinks. cbn. by rewrite app_nil_r.
  - unfold ftrees. cbn. by rewrite !app_nil_r, Ek.
  - apply Forall2_cons; split; [done|]. apply Forall2_cons; split; [|by apply Forall2_cons].
    rewrite !fmap_app, !fmap_cons in Hp. by rewrite !fmap_app, !fmap_cons.
  - intros v. cbn. rewrite !elem_of_cons, elem_of_nil. lia.
Qed.

(** What is known of the three nodes. *)
Lemma pair_facts h C p sP kL kR x sX kA kX y sY kY :
  rep h (plug C (T p sP (kL ++ T x sX (kA ++ kX) :: T y sY kY :: kR))) →
  (x ≠ p ∧ x ≠ y ∧ p ≠ y) ∧
  (∃ nd, nodes h !! x = Some nd ∧ node_ok nd (mkCell x (Some p) (length kL) sX (tloc <$> (kA ++ kX)))) ∧
  (∃ nd, nodes h !! p = Some nd ∧ node_ok nd (mkCell p (ctx_par C) (ctx_idx C) sP (tloc <$> (kL ++ T x sX (kA ++ kX) :: T y sY kY :: kR)))) ∧
  (∃ nd, nodes h !! y = Some nd ∧ node_ok nd (mkCell y (Some p) (S (length kL)) sY (tloc <$> kY))) ∧
  (∀ l, l = x ∨ l = p ∨ l = y → (l ∉ tloc <$> kX) ∧ (l ∉ tloc <$> kY)) ∧
  NoDup (tloc <$> (kX ++ kY)) ∧
  Forall (λ k, is_Some (nodes h !! tloc k)) kX ∧ Forall (λ k, is_Some (nodes h !! tloc k)) kY ∧
  (∀ c cd, c ∈ tloc <$> kY → nodes h !! c = Some cd → parent cd = Some y).
Proof.
  intros [_ Hm]. rewrite pair_cells in Hm. pose proof (froots_parent _ _ _ _ y 0 kY Hm) as Hpar.
  destruct (models_facts _ _ _ _ Hm) as (Hnd & HO & HlK & HndK & HK & _). nodup_in Hnd.
  rewrite !Forall_cons in HO, HlK. unfold ftrees in *. cbn in HlK, HndK, HK. rewrite app_nil_r in HlK, HndK, HK.
  rewrite fmap_app, !not_elem_of_app in HlK. apply Forall_app in HK as [HKX HKY].
  destruct HO as ([_ Hx] & [_ Hp] & [_ Hy] & _). cell_norm. split_and!; try done; try lia.
  - intros l Hl. destruct Hl as [-> | [-> | ->]]; apply HlK.
  - apply Hpar. do 1 right. left.
Qed.

(** ** Nodes after a rotation *)

Lemma push_front_ok nd n par idx ss kids (s : seg) chs kids' :
  node_ok nd (mkCell n par idx ss kids) → length ss < maxDegree - 1 → is_leaf kids' = is_leaf kids →
  arr maxDegree chs (Some <$> kids') →
  node_ok (mkNode (length ss + 1) (parent nd) (parentIndex nd) (hasChildren nd)
    (<[0 := s.1]> (copy_at (keys nd) 1 (slice (keys nd) 0 (length ss))))
    (<[0 := s.2]> (copy_at (values nd) 1 (slice (values nd) 0 (length ss)))) chs) (mkCell n par idx (s :: ss) kids').
Proof.
  intros [Hnr Hpar Hidx Hhas Hk Hv Hc] Hle Hl Ha. cell_norm. constructor; cell_norm; try done.
  - simpl. lia.
  - by rewrite Hl.
  - rewrite fmap_cons. apply arr_push; [done|by rewrite length_fmap|done].
  - rewrite fmap_cons. apply arr_push; [done|by rewrite length_fmap|done].
Qed.

Lemma pop_back_ok nd n par idx ss (s : seg) kids v chs kids' :
  node_ok nd (mkCell n par idx (ss ++ [s]) kids) → is_leaf kids' = is_leaf kids → arr maxDegree chs (Some <$> kids') →
  node_ok (mkNode (S (length ss) - 1) (parent nd) (parentIndex nd) (hasChildren nd) (keys nd)
    (<[length ss := v]> (values nd)) chs) (mkCell n par idx ss kids').
Proof.
  intros [Hnr Hpar Hidx Hhas Hk Hv Hc] Hl Ha. cell_norm. rewrite fmap_app in Hk. rewrite fmap_app in Hv.
  constructor; cell_norm; try done.
  - simpl. lia.
  - by rewrite Hl.
  - by eapply arr_prefix.
  - apply arr_dead; [by eapply arr_prefix|by rewrite length_fmap].
Qed.

Lemma push_back_ok nd n par idx ss kids (s : seg) chs kids' :
  node_ok nd (mkCell n par idx ss kids) → length ss < maxDegree - 1 → is_leaf kids' = is_leaf kids →
  arr maxDegree chs (Some <$> kids') →
  node_ok (mkNode (length ss + 1) (parent nd) (parentIndex nd) (hasChildren nd)
    (<[length ss := s.1]> (keys nd)) (<[length ss := s.2]> (values nd)) chs) (mkCell n par idx (ss ++ [s]) kids').
Proof.
  intros [Hnr Hpar Hidx Hhas Hk Hv Hc] Hle Hl Ha. cell_norm. constructor; cell_norm; try done.
  - by rewrite length_app.
  - by rewrite Hl.
  - rewrite fmap_app. apply arr_snoc; [done|by rewrite length_fmap|done].
  - rewrite fmap_app. apply arr_snoc; [done|by rewrite length_fmap|done].
Qed.

Lemma pop_front_ok nd n par idx (s : seg) ss kids v chs kids' :
  node_ok nd (mkCell n par idx (s :: ss) kids) → is_leaf kids' = is_leaf kids → arr maxDegree chs (Some <$> kids') →
  node_ok (mkNode (S (length ss) - 1) (parent nd) (parentIndex nd) (hasChildren nd)
    (copy_at (keys nd) 0 (slice (keys nd) 1 (S (length ss))))
    (<[length ss := v]> (copy_at (values nd) 0 (slice (values nd) 1 (S (length ss))))) chs) (mkCell n par idx ss kids').
Proof.
  intros [Hnr Hpar Hidx Hhas Hk Hv Hc] Hl Ha. cell_norm. rewrite fmap_cons in Hk. rewrite fmap_cons in Hv.
  constructor; cell_norm; try done.
  - simpl. lia.
  - by rewrite Hl.
  - eapply arr_pop; [done|by rewrite length_fmap].
  - apply arr_dead; [|by rewrite length_fmap]. eapply arr_pop; [done|by rewrite length_fmap].
Qed.

Lemma set_mid_ok nd n par idx sL (s s' : seg) sR kids i :
  node_ok nd (mkCell n par idx (sL ++ s :: sR) kids) → i = length sL →
  node_ok (mkNode (nrSegments nd) (parent nd) (parentIndex nd) (hasChildren nd)
    (<[i := s'.1]> (keys nd)) (<[i := s'.2]> (values nd)) (children nd)) (mkCell n par idx (sL ++ s' :: sR) kids).
Proof.
  intros [Hnr Hpar Hidx Hhas Hk Hv Hc] ->. cell_norm.
  constructor; cell_norm; rewrite ?length_app, ?fmap_app, ?fmap_cons in *; try done.
  - eapply arr_set_mid; [exact Hk|by rewrite length_fmap].
  - eapply arr_set_mid; [exact Hv|by rewrite length_fmap].
Qed.

Lemma rotate_from_prev_spec h d C p sL s sR kL kR x sX s' kA kX y sY kY Q :
  rep h (plug C (T p (sL ++ s :: sR) (kL ++ T x (sX ++ [s']) (kA ++ kX) :: T y sY kY :: kR))) →
  length kL = length sL → length sY < maxDegree - 1 →
  match d with
  | O => kA = [] ∧ kX = [] ∧ kY = []
  | S _ => length kA = S (length sX) ∧ length kX = 1 ∧ length kY = S (length sY)
  end →
  (∀ h', rep h' (plug C (T p (sL ++ s' :: sR) (kL ++ T x sX kA :: T y (s :: sY) (kX ++ kY) :: kR))) → Q () h') →
  wp (rotate_from_prev y p x) h Q.
Proof.
  intros Hr EL Hle Hk HQ. destruct (pair_facts _ _ _ _ _ _ _ _ _ _ _ _ _ Hr) as
    (Hne & (xd & Ex & Hxn) & (pd & Ep & Hpn) & (yd & Ey & Hyn) & Hfr & HndK & HKX & HKY & Hpar).
  destruct (node_key _ _ _ _ _ _ (length kL) s Hpn) as [Kp Vp]; [rewrite EL; by apply list_lookup_middle|].
  destruct (node_key _ _ _ _ _ _ (length sX) s' Hxn) as [Kx Vx]; [by apply list_lookup_middle|].
  pose proof (ok_index _ _ Hyn) as Hidx. pose proof (ok_nr _ _ Hyn) as Hny. pose proof (ok_nr _ _ Hxn) as Hnx.
  pose proof (ok_hasChildren _ _ Hyn) as Hc. cell_norm. rewrite length_app, Nat.add_1_r in Hnx.
  unfold rotate_from_prev. do 6 wp_step. rewrite Hidx, Hnx, Hny, Hc. cbn [Nat.sub]. rewrite !Nat.sub_0_r.
  repeat wp_step. rewrite ?Hnx, ?Hny. destruct d as [|d].
  - destruct Hk as (-> & -> & ->). simpl is_leaf. cbn [negb]. repeat wp_step. rewrite ?Hnx, ?Hny.
    apply HQ. rewrite <- (link_nil h). eapply (rotate_rep h [] C p _ kL kR x _ [] [] y _ [] _ _ [] _ []); [exact Hr|done|done| | |].
    + eapply (pop_back_ok xd); [exact Hxn|done|apply (ok_children _ _ Hxn)].
    + by eapply (set_mid_ok pd).
    + eapply (push_front_ok yd); [exact Hyn|done|done|apply (ok_children _ _ Hyn)].
  - destruct Hk as (LA & LX & LY). destruct kX as [|k [|? ?]]; [done| |done].
    destruct kY as [|k0 kY]; [done|]. simpl is_leaf. cbn [negb].
    assert (Ck : children xd !! S (length sX) = Some (Some (tloc k))).
    { eapply node_child; [exact Hxn|]. rewrite <- LA. by apply list_lookup_middle. }
    repeat wp_step. eapply wp_child; [by heap_lookup|exact Ck|]. repeat wp_step. node_norm. rewrite ?Hny.
    assert (ArrY : arr maxDegree (<[0 := Some (tloc k)]> (copy_at (children yd) 1 (slice (children yd) 0 (length sY + 1))))
      (Some <$> (tloc <$> (k :: k0 :: kY)))).
    { rewrite (fmap_cons _ k), (fmap_cons _ (tloc k)). apply arr_push; [apply (ok_children _ _ Hyn)|rewrite !length_fmap, LY; lia|lia]. }
    assert (HKXY : Forall (λ k, is_Some (nodes h !! tloc k)) (k :: k0 :: kY)) by (apply Forall_cons in HKX as [? _]; by constructor).
    destruct (Hfr y) as [HyX HyY]; [auto|]. destruct (Hfr x) as [HxX HxY]; [auto|]. destruct (Hfr p) as [HpX HpY]; [auto|].
    rewrite fmap_app, fmap_cons in HndK. cbn [app fmap list_fmap] in HndK.
    eapply (wp_relink_front _ _ (tloc k) (tloc <$> (k0 :: kY)));
      [eapply (has_kids_intro _ _ _ _ (k :: k0 :: kY) _ maxDegree []); [by heap_lookup|exact ArrY|done|done|by kids_alloc]| | | |].
    { rewrite length_fmap, LY. lia. }
    { by apply NoDup_cons in HndK as [? _]. }
    { intros c cd Hin. rewrite !lookup_upd_ne by (by intros ->). by apply Hpar. }
    change (tloc k :: (tloc <$> k0 :: kY)) with (tloc <$> ([k] ++ k0 :: kY)).
    rewrite !link_upd by (rewrite links_locs, fmap_app, not_elem_of_app; done). repeat wp_step. node_norm. rewrite ?Hnx, ?Hny.
    apply HQ. rewrite <- (app_nil_r kA). eapply (rotate_rep h _ C p _ kL kR x _ kA [k] y _ (k0 :: kY) _ _ [] _ ([k] ++ k0 :: kY)); [exact Hr|done|done| | |].
    + eapply (pop_back_ok xd); [exact Hxn|by destruct kA|].
      pose proof (ok_children _ _ Hxn) as Hch. cell_norm. rewrite app_nil_r. rewrite !fmap_app in Hch.
      apply arr_dead; [by eapply arr_prefix|rewrite !length_fmap; lia].
    + by eapply (set_mid_ok pd).
    + eapply (push_front_ok yd); [exact Hyn|done|done|exact ArrY].
Qed.

Lemma rotate_from_next_spec h d C p sL s sR kL kR x sX kA y s' sY kY0 kY Q :
  rep h (plug C (T p (sL ++ s :: sR) (kL ++ T x sX kA :: T y (s' :: sY) (kY0 ++ kY) :: kR))) →
  length kL = length sL → length sX < maxDegree - 1 →
  match d with
  | O => kA = [] ∧ kY0 = [] ∧ kY = []
  | S _ => length kA = S (length sX) ∧ length kY0 = 1 ∧ length kY = S (length sY)
  end →
  (∀ h', rep h' (plug C (T p (sL ++ s' :: sR) (kL ++ T x (sX ++ [s]) (kA ++ kY0) :: T y sY kY :: kR))) → Q () h') →
  wp (rotate_from_next x p y) h Q.
Proof.
  intros Hr EL Hle Hk HQ. rewrite <- (app_nil_r kA) in Hr. destruct (pair_facts _ _ _ _ _ _ _ _ _ _ _ _ _ Hr) as
    (Hne & (xd & Ex & Hxn) & (pd & Ep & Hpn) & (yd & Ey & Hyn) & Hfr & HndK & _ & HKY & Hpar).
  destruct (node_key _ _ _ _ _ _ (length kL) s Hpn) as [Kp Vp]; [rewrite EL; by apply list_lookup_middle|].
  destruct (node_key _ _ _ _ _ _ 0 s' Hyn) as [Ky Vy]; [done|].
  destruct (lookup_lt_is_Some_2 (s' :: sY) (length sY)) as [sl Esl]; [simpl; lia|].
  destruct (node_key _ _ _ _ _ _ (length sY) sl Hyn) as [_ Vl]; [done|].
  pose proof (ok_index _ _ Hxn) as Hidx. pose proof (ok_nr _ _ Hyn) as Hny. pose proof (ok_nr _ _ Hxn) as Hnx.
  pose proof (ok_hasChildren _ _ Hxn) as Hc. cell_norm. simpl in Hny.
  unfold rotate_from_next. do 6 wp_step. rewrite Hidx, Hnx, Hny, Hc, app_nil_r. cbn [Nat.sub]. rewrite !Nat.sub_0_r.
  repeat wp_step. rewrite ?Hnx, ?Hny. destruct d as [|d].
  - destruct Hk as (-> & -> & ->). simpl is_leaf. cbn [negb]. repeat wp_step. rewrite ?Hnx, ?Hny, upd_rev by lia.
    apply HQ. rewrite <- (link_nil h). eapply (rotate_rep h [] C p _ kL kR x _ [] [] y _ [] _ _ [] _ []); [exact Hr|done|done| | |].
    + eapply (push_back_ok xd); [exact Hxn|done|done|apply (ok_children _ _ Hxn)].
    + by eapply (set_mid_ok pd).
    + eapply (pop_front_ok yd); [exact Hyn|done|apply (ok_children _ _ Hyn)].
  - destruct Hk as (LA & LX & LY). destruct kY0 as [|k [|? ?]]; [done| |done]. cbn [app] in *.
    destruct kA as [|k0 kA]; [done|]. simpl is_leaf. cbn [negb].
    assert (Ck : children yd !! 0 = Some (Some (tloc k))) by (by eapply node_child).
    repeat wp_step. eapply wp_child; [by heap_lookup|exact Ck|]. repeat wp_step. node_norm. rewrite ?Hnx.
    pose proof (ok_children _ _ Hxn) as HcX. pose proof (ok_children _ _ Hyn) as HcY. cell_norm. rewrite app_nil_r in HcX.
    assert (ArrX : arr maxDegree (<[length sX + 1 := Some (tloc k)]> (children xd)) ((Some <$> (tloc <$> (k0 :: kA))) ++ (Some <$> (tloc <$> [k])))).
    { apply arr_snoc; [done|rewrite !length_fmap; lia|lia]. }
    assert (ArrY : arr maxDegree (<[S (length sY) := None]> (copy_at (children yd) 0 (slice (children yd) 1 (S (length sY) + 1)))) (Some <$> (tloc <$> kY))).
    { apply arr_dead; [|rewrite !length_fmap; lia]. eapply arr_pop; [exact HcY|rewrite !length_fmap; lia]. }
    apply Forall_cons in HKY as [HKk HKY]. assert (HKk' : Forall (λ k, is_Some (nodes h !! tloc k)) [k]) by (by apply Forall_singleton).
    destruct (Hfr y) as [_ Hy]; [auto|]. destruct (Hfr x) as [_ Hx]; [auto|]. destruct (Hfr p) as [_ Hp]; [auto|].
    cbn [app] in HndK. rewrite fmap_cons in HndK, Hx, Hy, Hp. apply NoDup_cons in HndK as [Hkk _].
    rewrite not_elem_of_cons in Hx, Hy, Hp. destruct Hx as [Hxk HxY]. destruct Hy as [Hyk HyY]. destruct Hp as [Hpk HpY].
    eapply (wp_reparent _ _ (tloc k) []);
      [eapply (has_kids_intro _ _ _ _ [k] _ maxDegree); [by heap_lookup|exact ArrX|rewrite !length_fmap; lia|done|by kids_alloc]|].
    rewrite !link_upd by (cbn; rewrite list_elem_of_singleton; assumption).
    eapply (wp_reindex_range _ _ _ (tloc <$> kY));
      [eapply (has_kids_intro _ _ _ _ kY _ maxDegree []); [by heap_lookup|exact ArrY|done|done|by kids_alloc]|rewrite length_fmap; lia| |].
    { intros c cd Hin. rewrite !lookup_upd_ne by (by intros ->). rewrite link_ne by (cbn; rewrite list_elem_of_singleton; by intros ->).
      apply Hpar. rewrite fmap_cons. by right. }
    rewrite !link_upd by (by rewrite links_locs). rewrite <- link_app. repeat wp_step. node_norm. rewrite ?Hnx, ?Hny.
    apply HQ. rewrite upd_rev by lia.
    eapply (rotate_rep h _ C p _ kL kR x _ (k0 :: kA) [] y _ (k :: kY) _ _ [k] _ kY); [exact Hr|done| | | |].
    + by rewrite LA, Nat.add_1_r.
    + eapply (push_back_ok xd); [exact Hxn|done|by rewrite app_nil_r|]. by rewrite <- !fmap_app in ArrX.
    + by eapply (set_mid_ok pd).
    + eapply (pop_front_ok yd); [exact Hyn|by destruct kY|exact ArrY].
Qed.

(** ** Merging *)

(** All the segments and children of a node. *)
Lemma node_slices nd n par idx ss ks d :
  node_ok nd (mkCell n par idx ss (tloc <$> ks)) → match d with O => ks = [] | S _ => length ks = S (length ss) end →
  slice (keys nd) 0 (length ss) = ss.*1 ∧ slice (values nd) 0 (length ss) = ss.*2 ∧
  (d ≠ 0 → slice (children nd) 0 (length ss + 1) = Some <$> (tloc <$> ks)).
Proof.
  intros [_ _ _ _ Hk Hv Hc] Hd. cell_norm. split_and!.
  - eapply (arr_slice _ _ [] ss.*1 []); [by rewrite app_nil_r|done|by rewrite length_fmap].
  - eapply (arr_slice _ _ [] ss.*2 []); [by rewrite app_nil_r|done|by rewrite length_fmap].
  - intros Hne. destruct d as [|d]; [done|]. eapply (arr_slice _ _ [] (Some <$> (tloc <$> ks)) []); [by rewrite app_nil_r|done|].
    rewrite !length_fmap. simpl. lia.
Qed.

Lemma unsplit_root_rep h us p s x sX kX y sY kY np :
  rep h (T p [s] [T x sX kX; T y sY kY]) → us = links p 0 (tloc <$> (kX ++ kY)) →
  node_ok np (mkCell p None 0 (sX ++ s :: sY) (tloc <$> (kX ++ kY))) →
  rep (upd (link h us) p np) (T p (sX ++ s :: sY) (kX ++ kY)).
Proof.
  intros [El Hm] -> Hp. split; [done|].
  change (T p [s] [T x sX kX; T y sY kY]) with (plug [] (T p [s] ([] ++ T x sX ([] ++ kX) :: T y sY kY :: []))) in Hm.
  rewrite pair_cells in Hm. pose proof (models_facts _ _ _ _ Hm) as (_ & HO & _). rewrite !Forall_cons in HO.
  destruct HO as (_ & [Hlp _] & _). cbn in Hlp.
  assert (E : cells None 0 (T p (sX ++ s :: sY) (kX ++ kY)) ≡ₚ
    [mkCell p None 0 (sX ++ s :: sY) (tloc <$> (kX ++ kY))] ++ froots [(p, 0, kX ++ kY)] ++
    (roots p 0 [] ++ roots p (S (S (length (@nil (tree Value))))) [] ++ roots x 0 [] ++
     subs [] ++ subs (kX ++ kY) ++ subs [] ++ subs [] ++ ctx_cells [] p)).
  { rewrite cells_root. change (subs []) with (@nil (cell Value)). cbn [roots ctx_cells app]. by rewrite !app_nil_r. }
  rewrite E. eapply (models_change h h _ _ _ _ _ _ [(p, np)]); [|exact Hm|done|done| |done|apply NoDup_singleton|by apply Forall2_cons|].
  - unfold flinks. cbn. by rewrite app_nil_r.
  - unfold ftrees. cbn. by rewrite !app_nil_r.
  - intros v. cbn. rewrite !elem_of_cons, elem_of_nil. lia.
Qed.

(** The children of two nodes of the same height. *)
Definition kids_of (d : nat) sX kX sY kY : Prop :=
  match d with O => kX = [] ∧ kY = [] | S _ => length kX = S (length sX) ∧ length kY = S (length sY) end.

Lemma unsplit_root_spec h d p s x sX kX y sY kY Q :
  rep h (T p [s] [T x sX kX; T y sY kY]) → length sX + length sY + 1 ≤ maxDegree - 1 → kids_of d sX kX sY kY →
  (∀ h', rep h' (T p (sX ++ s :: sY) (kX ++ kY)) → Q () h') →
  wp (unsplit_root p x y) h Q.
Proof.
  intros Hr Hle Hk HQ.
  destruct (pair_facts h [] p [s] [] [] x sX [] kX y sY kY Hr) as
    (Hne & (xd & Ex & Hxn) & (pd & Ep & Hpn) & (yd & Ey & Hyn) & Hfr & HndK & HKX & HKY & _). cbn [app] in *.
  destruct (node_key _ _ _ _ _ _ 0 s Hpn) as [Kp Vp]; [done|].
  destruct (node_slices _ _ _ _ _ _ d Hxn) as (SkX & SvX & ScX); [by destruct d; destruct Hk|].
  destruct (node_slices _ _ _ _ _ _ d Hyn) as (SkY & SvY & ScY); [by destruct d; destruct Hk|].
  pose proof (ok_nr _ _ Hxn) as Hnx. pose proof (ok_nr _ _ Hyn) as Hny. pose proof (ok_hasChildren _ _ Hxn) as Hc. cell_norm.
  unfold unsplit_root. do 4 wp_step. rewrite Hnx, Hny, Hc, SkX, SvX, SkY, SvY. repeat wp_step.
  destruct Hpn as [_ Hpar Hidx _ [LK _] [LV _] [LC _]]. cell_norm.
  assert (AK : arr (maxDegree - 1) (copy_at (copy_at (<[length sX := s.1]> (keys pd)) 0 sX.*1) (length sX + 1) sY.*1) (sX ++ s :: sY).*1).
  { rewrite fmap_app, fmap_cons. apply arr_merge; [done|by rewrite length_fmap|rewrite !length_fmap; lia]. }
  assert (AV : arr (maxDegree - 1) (copy_at (copy_at (<[length sX := s.2]> (values pd)) 0 sX.*2) (length sX + 1) sY.*2) (sX ++ s :: sY).*2).
  { rewrite fmap_app, fmap_cons. apply arr_merge; [done|by rewrite length_fmap|rewrite !length_fmap; lia]. }
  destruct d as [|d].
  - destruct Hk as [-> ->]. simpl is_leaf. cbn [negb]. repeat wp_step. apply HQ. rewrite <- (link_nil h).
    eapply (unsplit_root_rep h [] _ _ _ _ [] _ _ []); [exact Hr|done|].
    constructor; cell_norm; try done; [rewrite length_app; simpl; lia|]. apply arr_nil. by rewrite !length_insert.
  - destruct Hk as [LX LY]. destruct kX as [|k kX]; [done|]. simpl is_leaf. cbn [negb].
    rewrite ScX, ScY by done. repeat wp_step.
    assert (AC : arr maxDegree (copy_at (copy_at (children pd) 0 (Some <$> (tloc <$> (k :: kX)))) (length sX + 1) (Some <$> (tloc <$> kY)))
      (Some <$> (tloc <$> ((k :: kX) ++ kY)))).
    { rewrite !(fmap_app _ (k :: kX)), fmap_app. apply arr_copies; [done|rewrite !length_fmap, LX; lia|rewrite !length_fmap, LX; lia]. }
    assert (HK : Forall (λ k, is_Some (nodes h !! tloc k)) ((k :: kX) ++ kY)) by (by apply Forall_app).
    eapply (wp_reparent_range _ _ _ (tloc <$> ((k :: kX) ++ kY)));
      [eapply (has_kids_intro _ _ _ _ ((k :: kX) ++ kY) _ maxDegree []); [by heap_lookup|exact AC|done|done|by kids_alloc]| |].
    { rewrite length_fmap, length_app, LX, LY. lia. }
    destruct (Hfr p) as [HpX HpY]; [auto|]. rewrite link_upd by (rewrite links_locs, fmap_app, not_elem_of_app; done).
    apply HQ. eapply unsplit_root_rep; [exact Hr|done|]. constructor; cell_norm; try done. rewrite length_app. simpl. lia.
Qed.

Lemma merge_cells C p sP kL kR x sX kX y sY kY :
  cells None 0 (plug C (T p sP (kL ++ T x sX kX :: T y sY kY :: kR))) ≡ₚ
  [mkCell x (Some p) (length kL) sX (tloc <$> kX);
   mkCell p (ctx_par C) (ctx_idx C) sP (tloc <$> (kL ++ T x sX kX :: T y sY kY :: kR));
   mkCell y (Some p) (S (length kL)) sY (tloc <$> kY)] ++
  froots [(y, 0, kY); (p, 0, kL); (p, S (S (length kL)), kR)] ++
  (roots x 0 kX ++ subs (kX ++ kY) ++ subs kL ++ subs kR ++ ctx_cells C p).
Proof.
  rewrite cells_plug_node, roots_app, !subs_app, !subs_cons, !sub_cells_eq. cbn [roots].
  unfold froots, root_cell. cbn. rewrite ?app_nil_r. solve_Permutation.
Qed.

Lemma unsplit_node_rep h us C p sP kL kR x sX kX y sY kY sP' sX' np nx :
  rep h (plug C (T p sP (kL ++ T x sX kX :: T y sY kY :: kR))) →
  us = links x (length kX) (tloc <$> kY) ++ links p 0 (tloc <$> kL) ++ links p (S (length kL)) (tloc <$> kR) →
  node_ok np (mkCell p (ctx_par C) (ctx_idx C) sP' (tloc <$> (kL ++ T x sX' (kX ++ kY) :: kR))) →
  node_ok nx (mkCell x (Some p) (length kL) sX' (tloc <$> (kX ++ kY))) →
  rep (upd (upd (link h us) x nx) p np) (plug C (T p sP' (kL ++ T x sX' (kX ++ kY) :: kR))).
Proof.
  intros [El Hm] -> Hp Hx. split; [rewrite <- El; by apply plug_loc|]. rewrite merge_cells in Hm.
  pose proof (models_facts _ _ _ _ Hm) as (Hnd & HO & _). nodup_in Hnd. rewrite !Forall_cons in HO.
  destruct HO as ([Hlx _] & [Hlp _] & _). cbn in Hlx, Hlp.
  assert (E : cells None 0 (plug C (T p sP' (kL ++ T x sX' (kX ++ kY) :: kR))) ≡ₚ
    [mkCell p (ctx_par C) (ctx_idx C) sP' (tloc <$> (kL ++ T x sX' (kX ++ kY) :: kR));
     mkCell x (Some p) (length kL) sX' (tloc <$> (kX ++ kY))] ++
    froots [(x, length kX, kY); (p, 0, kL); (p, S (length kL), kR)] ++
    (roots x 0 kX ++ subs (kX ++ kY) ++ subs kL ++ subs kR ++ ctx_cells C p)).
  { rewrite cells_plug_node, roots_app, !subs_app, !subs_cons, !sub_cells_eq. cbn [roots].
    rewrite roots_app, subs_app. unfold froots, root_cell. cbn. rewrite ?app_nil_r. solve_Permutation. }
  rewrite E. eapply (models_change h h _ _ _ _ _ _ [(p, np); (x, nx)]); [|exact Hm|done|done|done|done|nodup| |].
  - unfold flinks. cbn. by rewrite app_nil_r.
  - apply Forall2_cons; split; [done|]. by apply Forall2_cons.
  - intros v. cbn. rewrite !elem_of_cons, elem_of_nil. lia.
Qed.

(** The children of the right node become those of the left one. *)
Lemma unsplit_kids h d x par idx sX kX (yd : setNode Value) sY kY xd (xd' : setNode Value) :
  node_ok xd (mkCell x par idx sX (tloc <$> kX)) → length sX + length sY + 1 ≤ maxDegree - 1 → kids_of d sX kX sY kY →
  (d ≠ 0 → slice (children yd) 0 (length sY + 1) = Some <$> (tloc <$> kY)) →
  Forall (λ k, is_Some (nodes h !! tloc k)) kY → (x ∉ tloc <$> kY) →
  children xd' = children xd → set_children xd' (children xd') = xd' →
  wp (if negb (is_leaf (tloc <$> kX)) then
        _ ← modify x (λ l : setNode Value, set_children l (copy_at (children l) (length sX + 1) (slice (children yd) 0 (length sY + 1))));
        for_range (length sX + 1) (length sY + 1) (reparent x)
      else mret ()) (upd h x xd')
    (λ _ h', ∃ chs, arr maxDegree chs (Some <$> (tloc <$> (kX ++ kY))) ∧
       h' = upd (link h (links x (length kX) (tloc <$> kY))) x (set_children xd' chs)).
Proof.
  intros Hxn Hle Hk Sc HKY Hx Ec Eta. pose proof (ok_children _ _ Hxn) as Hc. cell_norm. destruct d as [|d].
  - destruct Hk as [-> ->]. simpl is_leaf. cbn [negb]. apply wp_ret. exists (children xd'). rewrite link_nil, Eta. split; [|done].
    by rewrite Ec.
  - destruct Hk as [LX LY]. rewrite Sc by done. destruct kX as [|k kX]; [done|]. simpl is_leaf. cbn [negb]. repeat wp_step. rewrite Ec.
    assert (AC : arr maxDegree (copy_at (children xd) (length sX + 1) (Some <$> (tloc <$> kY)))
      ((Some <$> (tloc <$> (k :: kX))) ++ (Some <$> (tloc <$> kY)))).
    { eapply (arr_copy _ _ _ []); [by rewrite app_nil_r|rewrite !length_fmap, LX; lia|rewrite !length_fmap, LX; lia]. }
    eapply (wp_reparent_range _ _ _ (tloc <$> kY));
      [eapply (has_kids_intro _ _ _ _ kY _ maxDegree); [by heap_lookup|exact AC|rewrite !length_fmap, LX; lia|done|by kids_alloc]
      |rewrite length_fmap, LY; lia|].
    eexists. rewrite !(fmap_app _ (k :: kX)), fmap_app. split; [exact AC|]. rewrite link_upd by (by rewrite links_locs).
    by rewrite LX, Nat.add_1_r.
Qed.

Lemma merge_node_ok nd n par idx sX (s : seg) sY kids chs kids' :
  node_ok nd (mkCell n par idx sX kids) → length sX + length sY + 1 ≤ maxDegree - 1 → is_leaf kids' = is_leaf kids →
  arr maxDegree chs (Some <$> kids') →
  node_ok (mkNode (length sX + (length sY + 1)) par idx (hasChildren nd)
    (copy_at (<[length sX := s.1]> (keys nd)) (length sX + 1) sY.*1)
    (copy_at (<[length sX := s.2]> (values nd)) (length sX + 1) sY.*2) chs) (mkCell n par idx (sX ++ s :: sY) kids').
Proof.
  intros [Hnr Hpar Hidx Hhas Hk Hv Hc] Hle Hl Ha. cell_norm. constructor; cell_norm; try done.
  - rewrite length_app. simpl. lia.
  - by rewrite Hl.
  - rewrite fmap_app, fmap_cons, cons_middle, (assoc_L (++)). eapply (arr_copy _ _ _ []).
    + rewrite app_nil_r. apply arr_snoc; [done|by rewrite length_fmap|lia].
    + by rewrite length_app, length_fmap.
    + rewrite length_app, !length_fmap. simpl. lia.
  - rewrite fmap_app, fmap_cons, cons_middle, (assoc_L (++)). eapply (arr_copy _ _ _ []).
    + rewrite app_nil_r. apply arr_snoc; [done|by rewrite length_fmap|lia].
    + by rewrite length_app, length_fmap.
    + rewrite length_app, !length_fmap. simpl. lia.
Qed.

Lemma drop_mid_ok nd n par idx sL (s : seg) sR kids i v chs kids' :
  node_ok nd (mkCell n par idx (sL ++ s :: sR) kids) → i = length sL → is_leaf kids' = is_leaf kids →
  arr maxDegree chs (Some <$> kids') →
  node_ok (mkNode (S (length sL + length sR) - 1) (parent nd) (parentIndex nd) (hasChildren nd)
    (copy_at (keys nd) i (slice (keys nd) (i + 1) (S (length sL + length sR))))
    (<[length sL + length sR := v]> (copy_at (values nd) i (slice (values nd) (i + 1) (S (length sL + length sR))))) chs)
    (mkCell n par idx (sL ++ sR) kids').
Proof.
  intros [Hnr Hpar Hidx Hhas Hk Hv Hc] -> Hl Ha. cell_norm. rewrite fmap_app, fmap_cons in Hk. rewrite fmap_app, fmap_cons in Hv.
  constructor; cell_norm; try done.
  - rewrite length_app. lia.
  - by rewrite Hl.
  - rewrite fmap_app. eapply arr_delete; [exact Hk|by rewrite length_fmap|rewrite length_app; simpl; rewrite !length_fmap; lia].
  - rewrite fmap_app. apply arr_dead; [|rewrite length_app, !length_fmap; lia].
    eapply arr_delete; [exact Hv|by rewrite length_fmap|rewrite length_app; simpl; rewrite !length_fmap; lia].
Qed.

Lemma drop_kid nd n par idx ss kL (k k' : tree Value) kR (m : tree Value) cnt :
  node_ok nd (mkCell n par idx ss (tloc <$> (kL ++ k :: k' :: kR))) → tloc m = tloc k → cnt = length kL + length kR + 2 →
  arr maxDegree (copy_at (children nd) (length kL + 1) (slice (children nd) (length kL + 2) cnt)) (Some <$> (tloc <$> (kL ++ m :: kR))).
Proof.
  intros Hn Em ->. pose proof (ok_children _ _ Hn) as Hc. cell_norm.
  assert (E1 : Some <$> (tloc <$> (kL ++ k :: k' :: kR)) = (Some <$> (tloc <$> (kL ++ [k]))) ++ Some (tloc k') :: (Some <$> (tloc <$> kR))).
  { by rewrite !fmap_app, <- (assoc_L (++)). }
  assert (E2 : Some <$> (tloc <$> (kL ++ m :: kR)) = (Some <$> (tloc <$> (kL ++ [k]))) ++ (Some <$> (tloc <$> kR))).
  { rewrite !fmap_app, <- (assoc_L (++)), !fmap_cons. by rewrite Em. }
  rewrite E1 in Hc. rewrite E2. replace (length kL + 2) with (length kL + 1 + 1) by lia.
  eapply arr_delete; [exact Hc|by rewrite !length_fmap, length_app|].
  rewrite length_app. simpl. rewrite !length_fmap, length_app. simpl. lia.
Qed.

Lemma unsplit_node_spec h d C p sL s sR kL kR x sX kX y sY kY Q :
  rep h (plug C (T p (sL ++ s :: sR) (kL ++ T x sX kX :: T y sY kY :: kR))) →
  length kL = length sL → length kR = length sR → length sX + length sY + 1 ≤ maxDegree - 1 → kids_of d sX kX sY kY →
  (∀ h', rep h' (plug C (T p (sL ++ sR) (kL ++ T x (sX ++ s :: sY) (kX ++ kY) :: kR))) → Q () h') →
  wp (unsplit_node p x y) h Q.
Proof.
  intros Hr EL ER Hle Hk HQ. pose proof Hr as [_ Hm]. rewrite merge_cells in Hm.
  destruct (models_facts _ _ _ _ Hm) as (Hnd & HO & HlK & HndK & HK & _).
  nodup_in Hnd. rewrite !Forall_cons in HO, HlK. destruct HO as ([_ (xd & Ex & Hxn)] & [_ (pd & Ep & Hpn)] & [_ (yd & Ey & Hyn)] & _).
  unfold ftrees in *. cbn in HlK, HndK, HK. rewrite app_nil_r in HlK, HndK, HK. apply Forall_app in HK as [HKY HK].
  apply Forall_app in HK as [HKL HKR]. rewrite !fmap_app, !not_elem_of_app in HlK.
  destruct HlK as ((HxY & HxL & HxR) & (HpY & HpL & HpR) & _). cell_norm.
  rewrite fmap_app, NoDup_app, fmap_app in HndK. destruct HndK as (_ & HdY & _).
  destruct (node_key _ _ _ _ _ _ (length kL) s Hpn) as [Kp Vp]; [rewrite EL; by apply list_lookup_middle|].
  destruct (lookup_lt_is_Some_2 (sL ++ s :: sR) (length sL + length sR)) as [sl Esl]; [rewrite length_app; simpl; lia|].
  destruct (node_key _ _ _ _ _ _ _ sl Hpn Esl) as [_ Vl].
  destruct (node_slices _ _ _ _ _ _ d Hyn) as (SkY & SvY & ScY); [by destruct d; destruct Hk|].
  pose proof (ok_nr _ _ Hxn) as Hnx. pose proof (ok_nr _ _ Hyn) as Hny. pose proof (ok_nr _ _ Hpn) as Hnp.
  pose proof (ok_hasChildren _ _ Hxn) as Hc. pose proof (ok_index _ _ Hxn) as Hidx. cell_norm.
  rewrite length_app in Hnp. simpl in Hnp. rewrite Nat.add_succ_r in Hnp.
  unfold unsplit_node. do 6 wp_step. rewrite Hnx, Hny, Hc, Hidx, Hnp, SkY, SvY. cbn [Nat.sub]. rewrite Nat.sub_0_r. repeat wp_step.
  eapply wp_mono.
  { eapply (unsplit_kids h d); [exact Hxn|exact Hle|exact Hk|done|exact HKY|done|done|done]. }
  cbn beta. intros _ h' (chs & Achs & ->). repeat wp_step. node_norm. rewrite Hnp, Hnx.
  assert (ACp : arr maxDegree (copy_at (children pd) (length kL + 1) (slice (children pd) (length kL + 2) (S (length sL + length sR) + 1)))
    (Some <$> (tloc <$> (kL ++ T x (sX ++ s :: sY) (kX ++ kY) :: kR)))).
  { eapply drop_kid; [exact Hpn|done|lia]. }
  assert (HKp : Forall (λ k, is_Some (nodes h !! tloc k)) (kL ++ T x sX kX :: kR)).
  { apply Forall_app. split; [done|]. constructor; [by exists xd|done]. }
  eapply (wp_reindex_range _ _ _ (tloc <$> (kL ++ T x (sX ++ s :: sY) (kX ++ kY) :: kR)));
    [eapply (has_kids_intro _ _ _ _ (kL ++ T x sX kX :: kR) _ maxDegree []);
      [by heap_lookup|by rewrite !fmap_app, !fmap_cons in ACp |- *|done|by rewrite !fmap_app, !fmap_cons|by kids_alloc]| | |].
  { rewrite length_fmap, length_app. simpl. lia. }
  { intros c cd. rewrite fmap_app, fmap_cons, elem_of_app, elem_of_cons. cbn [tloc]. intros Hin.
    assert (Hcp : c ≠ p) by (destruct Hin as [? | [-> | ?]]; [by intros ->|lia|by intros ->]). rewrite lookup_upd_ne by done.
    destruct (decide (c = x)) as [->|Hcx].
    { rewrite lookup_upd_eq. intros [= <-]. node_norm. apply (ok_parent _ _ Hxn). }
    assert (Hin' : c ∈ (tloc <$> kL) ++ (tloc <$> kR)) by (apply elem_of_app; destruct Hin as [? | [? | ?]]; auto; lia).
    rewrite lookup_upd_ne, link_ne by (done || rewrite links_locs; intros ?; by eapply HdY).
    destruct Hin as [HcL | [? | HcR]]; [by eapply (froots_parent h _ _ _ p 0 kL Hm); [by right; left|]|lia|].
    eapply (froots_parent h _ _ _ p (S (S (length kL))) kR Hm); [|done]. by right; right; left. }
  rewrite link_upd by (rewrite links_locs, fmap_app, fmap_cons, not_elem_of_app, not_elem_of_cons; cbn [tloc]; split_and!; (done || lia)).
  rewrite fmap_app, fmap_cons, links_app. cbn [links tloc]. rewrite length_fmap, link_relay by (by rewrite links_locs).
  rewrite <- link_app. cbn [Nat.add]. repeat wp_step. node_norm. rewrite Hnp. apply HQ.
  eapply unsplit_node_rep; [exact Hr|done| |].
  - eapply (drop_mid_ok pd); [exact Hpn|done|by rewrite !fmap_app; destruct kL|].
    apply arr_dead; [exact ACp|]. rewrite !length_fmap, length_app. simpl. lia.
  - eapply (merge_node_ok xd); [exact Hxn|done| |exact Achs]. destruct d; destruct Hk; [by subst|by destruct kX].
Qed.
End Merge.

Section Remove.
Context {Value : Type} `{FL : FunctionsLaws Value}.
Local Abbreviation seg := (Range * Value)%type.
Implicit Types (t a b : tree Value) (ks kA kM kB kL kR : list (tree Value)) (ss sA sB sL sR : list seg) (s : seg).
Implicit Types (C : list (frame Value)) (f : frame Value) (l n p x y : loc) (h : heap Value) (nd : setNode Value).

(** ** Joining and splitting nodes *)

Lemma flat_join d l la lb sA s sB kA kB :
  split_kids d sA sB kA kB → flat (T l (sA ++ s :: sB) (kA ++ kB)) = flat (T la sA kA) ++ s :: flat (T lb sB kB).
Proof.
  rewrite !flat_eq. destruct d as [|d]; [by intros [-> ->]|]. intros [EA EB]. rewrite fmap_app. apply weave_join; by rewrite length_fmap.
Qed.

Lemma wf_join d l la lb sA s sB kA kB :
  split_kids d sA sB kA kB →
  wf d (T l (sA ++ s :: sB) (kA ++ kB)) ↔ length sA + length sB + 1 ≤ maxDegree - 1 ∧ wf d (T la sA kA) ∧ wf d (T lb sB kB).
Proof.
  intros Hsp. destruct d as [|d].
  - destruct Hsp as [-> ->]. simpl. rewrite length_app. simpl. split; [intros [? _]; split_and!; (lia || done)|intros (? & _); split; [lia|done]].
  - destruct Hsp as [EA EB]. rewrite !wf_kids, !length_app, Forall_app. simpl. rewrite EA, EB. split.
    + intros (? & _ & ? & ?). split_and!; (lia || done).
    + intros (? & (_ & _ & ?) & (_ & _ & ?)). split_and!; (lia || done).
Qed.

Lemma gaps_join d l la lb sA s sB kA kB :
  split_kids (S d) sA sB kA kB → gaps (T l (sA ++ s :: sB) (kA ++ kB)) = gaps (T la sA kA) ++ gaps (T lb sB kB).
Proof.
  intros [EA EB]. rewrite !gaps_node by (by destruct kA, kB). by rewrite fmap_app, concat_app.
Qed.

(** A node around one child, and around two adjacent ones. *)
Lemma flat_one l sL sR kL kR a :
  length kL = length sL → length kR = length sR →
  flat (T l (sL ++ sR) (kL ++ a :: kR)) = pre (flat <$> kL) sL ++ flat a ++ post sR (flat <$> kR).
Proof. intros EL ER. rewrite flat_eq, fmap_app, fmap_cons. apply weave_split; by rewrite length_fmap. Qed.

Lemma flat_two l sL s sR kL kR a b :
  length kL = length sL → length kR = length sR →
  flat (T l (sL ++ s :: sR) (kL ++ a :: b :: kR)) = pre (flat <$> kL) sL ++ (flat a ++ s :: flat b) ++ post sR (flat <$> kR).
Proof.
  intros EL ER. rewrite (flat_one l sL (s :: sR) kL (b :: kR)) by (simpl; lia).
  unfold post. simpl. by rewrite <- !(assoc_L (++)).
Qed.

Lemma gaps_two l ss kL kR a b :
  gaps (T l ss (kL ++ a :: b :: kR)) = concat (gaps <$> kL) ++ (gaps a ++ gaps b) ++ concat (gaps <$> kR).
Proof.
  rewrite gaps_node by (by destruct kL). rewrite fmap_app, !fmap_cons, concat_app. simpl. by rewrite <- !(assoc_L (++)).
Qed.

Lemma gaps_one l ss kL kR a :
  gaps (T l ss (kL ++ a :: kR)) = concat (gaps <$> kL) ++ gaps a ++ concat (gaps <$> kR).
Proof. rewrite gaps_node by (by destruct kL). by rewrite fmap_app, !fmap_cons, concat_app. Qed.

(** ** Gaps are in leaves *)

Lemma tree_rect' (P : tree Value → Prop) : (∀ l ss ks, Forall P ks → P (T l ss ks)) → ∀ t, P t.
Proof.
  intros H1. fix IH 1. intros [l ss ks]. apply H1. induction ks as [|k ks IHks]; constructor; [apply IH|apply IHks].
Qed.

Lemma gaps_cells g t par idx : g ∈ gaps t → ∃ c, c ∈ cells par idx t ∧ c_loc c = g.1 ∧ c_kids c = [].
Proof.
  revert par idx. induction t as [l ss ks IH] using tree_rect'. intros par idx Hg. destruct ks as [|k0 ks].
  - simpl in Hg. unfold ngaps in Hg. apply list_elem_of_fmap in Hg as (i & -> & _).
    eexists. split; [left|done].
  - rewrite gaps_node, list_elem_of_In, in_concat in Hg by done. destruct Hg as (gs & Hgs & Hg).
    apply list_elem_of_In in Hgs, Hg. apply list_elem_of_fmap in Hgs as (k & -> & Hk).
    rewrite Forall_forall in IH. pose proof (IH k Hk) as IHk. apply list_elem_of_lookup in Hk as [i Hi].
    destruct (IHk (Some l) i Hg) as (c & Hc & Hl). exists c. split; [|done]. rewrite cells_eq. right.
    unfold cells in Hc. rewrite <- (take_drop_middle (k0 :: ks) i k Hi), roots_app, subs_app, subs_cons. cbn [roots].
    rewrite length_take, Nat.min_l by (apply lookup_lt_Some in Hi; lia).
    rewrite !elem_of_app, elem_of_cons. apply elem_of_cons in Hc as [->|Hc]; [|by auto].
    left. right. by left.
Qed.

Lemma gap_leaf_node h t g : rep h t → g ∈ gaps t → ∃ nd, nodes h !! g.1 = Some nd ∧ hasChildren nd = false.
Proof.
  intros [_ [_ Hok]] Hg. destruct (gaps_cells g t None 0 Hg) as (c & Hc & El & Ek). rewrite Forall_forall in Hok.
  destruct (Hok c Hc) as [_ (nd & E & Hn)]. rewrite El in E. exists nd. split; [done|]. by rewrite (ok_hasChildren _ _ Hn), Ek.
Qed.

(** ** Siblings *)

Lemma kid_node h C p ss ks k : rep h (plug C (T p ss ks)) → k ∈ ks →
  ∃ nd, nodes h !! tloc k = Some nd ∧ nrSegments nd = length (tsegs k).
Proof.
  intros [_ Hm] Hk. rewrite cells_plug_node in Hm. destruct (elem_roots p 0 _ _ Hk) as [j Hj].
  destruct (models_cell _ _ (root_cell (Some p) j k) Hm) as (nd & E & Hn).
  { right. apply elem_of_app. by left. }
  exists nd. split; [done|]. apply (ok_nr _ _ Hn).
Qed.

Lemma prevSibling_spec h C p sL sR kL t kR :
  rep h (plug C (T p (sL ++ sR) (kL ++ t :: kR))) → prevSibling (tloc t) h = Some (tloc <$> last kL, h).
Proof.
  intros Hr. destruct (rep_node _ _ _ _ _ Hr) as (pd & Ep & Hpn). destruct t as [n ss ks].
  destruct (rep_node h (Frame p sL kL sR kR :: C) n ss ks Hr) as (nd & E & Hn).
  eapply run_bind; [by apply run_load|]. rewrite (ok_parent _ _ Hn), (ok_index _ _ Hn). cbn [c_par c_idx ctx_par ctx_idx ksL f_loc].
  destruct kL as [|k kL _] using rev_ind; [done|]. rewrite length_app, last_snoc. change (length [k]) with 1.
  destruct (Nat.eqb_spec (length kL + 1) 0) as [|_]; [lia|]. rewrite Nat.add_sub.
  eapply run_bind; [eapply run_child; [done|]|done]. eapply node_child; [exact Hpn|]. rewrite <- (assoc_L (++)). by apply list_lookup_middle.
Qed.

Lemma nextSibling_spec h C p sL sR kL t kR :
  rep h (plug C (T p (sL ++ sR) (kL ++ t :: kR))) → length kL = length sL → length kR = length sR →
  nextSibling (tloc t) h = Some (tloc <$> head kR, h).
Proof.
  intros Hr EL ER. destruct (rep_node _ _ _ _ _ Hr) as (pd & Ep & Hpn). destruct t as [n ss ks].
  destruct (rep_node h (Frame p sL kL sR kR :: C) n ss ks Hr) as (nd & E & Hn).
  eapply run_bind; [by apply run_load|]. rewrite (ok_parent _ _ Hn), (ok_index _ _ Hn). cbn [c_par c_idx ctx_par ctx_idx ksL f_loc].
  eapply run_bind; [by apply run_load|]. rewrite (ok_nr _ _ Hpn). cbn [c_ss]. rewrite length_app.
  destruct kR as [|k kR]; simpl in ER.
  - by destruct (Nat.eqb_spec (length kL) (length sL + length sR)) as [|]; [|lia].
  - destruct (Nat.eqb_spec (length kL) (length sL + length sR)) as [|_]; [lia|].
    eapply run_bind; [eapply run_child; [done|]|done]. eapply node_child; [exact Hpn|].
    rewrite lookup_app_r by lia. by replace (length kL + 1 - length kL) with 1 by lia.
Qed.

(** A sibling that can spare a segment. *)
Definition donor (o : option (tree Value)) : option loc :=
  match o with
  | Some k => if minDegree <=? length (tsegs k) then Some (tloc k) else None
  | None => None
  end.

Lemma donor_spec h C p ss ks o (Q : option loc → heap Value → Prop) :
  rep h (plug C (T p ss ks)) → (∀ k, o = Some k → k ∈ ks) → Q (donor o) h →
  wp (match tloc <$> o with
      | None => mret None
      | Some s => sd ← load s; mret (if minDegree <=? nrSegments sd then Some s else None)
      end) h Q.
Proof.
  intros Hr Ho HQ. destruct o as [k|]; [|by apply wp_ret]. destruct (kid_node _ _ _ _ _ k Hr) as (nd & E & En); [by apply Ho|].
  simpl. wp_step. wp_step. apply wp_ret. rewrite En. exact HQ.
Qed.

(** ** One step *)

(** What surrounds two adjacent children. *)
Record around d C sL s sR kL kR : Prop := {
  ar_L : length kL = length sL;
  ar_R : length kR = length sR;
  ar_le : length sL + length sR + 1 ≤ maxDegree - 1;
  ar_kL : Forall (kid_ok d) kL;
  ar_kR : Forall (kid_ok d) kR;
  ar_enough : enough (S d) C (sL ++ s :: sR);
  ar_ctx : wf_ctx (S d) C
}.

Lemma around_ok d C p sL s s' sR kL kR a b :
  around d C sL s sR kL kR → kid_ok d a → kid_ok d b → tree_ok (S d) C (T p (sL ++ s' :: sR) (kL ++ a :: b :: kR)).
Proof.
  intros [EL ER Hle HL HR He HC] Ha Hb. split; [done|]. split.
  - apply wf_kids. rewrite !length_app. simpl. split_and!; [lia|lia|]. by rewrite Forall_app, !Forall_cons.
  - eapply enough_mono; [exact He|]. cbn. by rewrite !length_app.
Qed.

(** The gap with position [k] in the tree; in a leaf, it is one of its own. *)
Definition gap_pos (d : nat) C t (gap : loc * nat) (k : nat) : Prop :=
  match d with
  | O => ∃ i, gap = (tloc t, i) ∧ i ≤ length (tsegs t) ∧ k = length (left_gaps C) + i
  | S _ => gaps (plug C t) !! k = Some gap
  end.

Lemma gaps_at C n ss i : i ≤ length ss → gaps (plug C (T n ss [])) !! (length (left_gaps C) + i) = Some (n, i).
Proof.
  intros Hi. pose proof (gaps_leaf C n (take i ss) (drop i ss)) as Hg.
  by rewrite take_drop, length_take, Nat.min_l in Hg.
Qed.

Lemma gap_pos_lookup d C t gap k : wf d t → gap_pos d C t gap k → gaps (plug C t) !! k = Some gap.
Proof.
  destruct t as [n ss ks]. destruct d as [|d]; [|done]. intros [_ ->] (i & -> & Hi & ->). by apply gaps_at.
Qed.

Lemma gap_internal h d C t gap k m md :
  rep h (plug C t) → gap_pos (S d) C t gap k → nodes h !! m = Some md → hasChildren md = true → (gap.1 =? m) = false.
Proof.
  intros Hr Hg E Hc. apply Nat.eqb_neq. intros <-.
  destruct (gap_leaf_node h _ gap Hr) as (nd & E' & Hf); [by eapply list_elem_of_lookup_2|]. congruence.
Qed.

(** The end of a step: the parent has the same segments, and the gap the same position. *)
Definition done_with (Q : loc * nat → heap Value → Prop) (L : list seg) (k : nat) : Prop :=
  ∀ h' t' gap', is_tree h' t' → flat t' = L → gaps t' !! k = Some gap' → Q gap' h'.

Lemma done_step (Q : loc * nat → heap Value → Prop) h' d C X X' k gap' :
  done_with Q (flat (plug C X)) k → rep h' (plug C X') → tree_ok d C X' → flat X' = flat X →
  gaps (plug C X') !! k = Some gap' → Q gap' h'.
Proof.
  intros HQ Hr Ht Hf Hg. eapply HQ; [by eapply is_tree_plug| |done]. pose proof Ht as [HC _]. by rewrite !(flat_plug d), Hf.
Qed.

Lemma rotate_kids d sA sB kA kM kB :
  split_kids d sA [] kA kM → split_kids d [] sB kM kB →
  match d with
  | O => kA = [] ∧ kM = [] ∧ kB = []
  | S _ => length kA = S (length sA) ∧ length kM = 1 ∧ length kB = S (length sB)
  end.
Proof. destruct d; simpl; naive_solver. Qed.

(** The segments of both siblings, whichever has those in the middle. *)
Lemma rotate_flat d x n sA s1 s2 sB kA kM kB :
  split_kids d sA [] kA kM → split_kids d [] sB kM kB →
  flat (T x (sA ++ [s1]) (kA ++ kM)) ++ s2 :: flat (T n sB kB) = flat (T x sA kA) ++ s1 :: flat (T n (s2 :: sB) (kM ++ kB)).
Proof.
  intros H1 H2. rewrite (flat_join d x x n sA s1 [] kA kM H1). rewrite (flat_join d n n n [] s2 sB kM kB H2 : flat (T n (s2 :: sB) (kM ++ kB)) = _).
  by rewrite <- !(assoc_L (++)).
Qed.

Lemma rotate_gaps d x n sA s1 s2 sB kA kM kB :
  split_kids (S d) sA [] kA kM → split_kids (S d) [] sB kM kB →
  gaps (T x (sA ++ [s1]) (kA ++ kM)) ++ gaps (T n sB kB) = gaps (T x sA kA) ++ gaps (T n (s2 :: sB) (kM ++ kB)).
Proof.
  intros H1 H2. rewrite (gaps_join d x x n sA s1 [] kA kM H1). rewrite (gaps_join d n n n [] s2 sB kM kB H2 : gaps (T n (s2 :: sB) (kM ++ kB)) = _).
  by rewrite <- !(assoc_L (++)).
Qed.

Lemma plug_right C p sL s sR kL kR a b :
  plug (Frame p (sL ++ [s]) (kL ++ [a]) sR kR :: C) b = plug C (T p (sL ++ s :: sR) (kL ++ a :: b :: kR)).
Proof. simpl. by rewrite <- !(assoc_L (++)). Qed.

Lemma left_gaps_right C p sL sR kL kR a :
  length (left_gaps (Frame p sL (kL ++ [a]) sR kR :: C)) = length (left_gaps C) + length (concat (gaps <$> kL)) + length (gaps a).
Proof. simpl. rewrite fmap_app, concat_app, !length_app. simpl. rewrite app_nil_r. lia. Qed.

Lemma length_gaps_leaf n ss : length (gaps (T n ss [])) = S (length ss).
Proof. simpl. unfold ngaps. by rewrite length_fmap, length_seq. Qed.

Lemma rotate_prev_step h d C p sL s sR kL kR x sA s' kA kM n sB kB gap k Q :
  rep h (plug C (T p (sL ++ s :: sR) (kL ++ T x (sA ++ [s']) (kA ++ kM) :: T n sB kB :: kR))) →
  around d C sL s sR kL kR → wf d (T x (sA ++ [s']) (kA ++ kM)) → minDegree ≤ length (sA ++ [s']) →
  wf d (T n sB kB) → length sB = minDegree - 2 → split_kids d sA [] kA kM → split_kids d [] sB kM kB →
  gap_pos d (Frame p (sL ++ [s]) (kL ++ [T x (sA ++ [s']) (kA ++ kM)]) sR kR :: C) (T n sB kB) gap k →
  done_with Q (flat (plug C (T p (sL ++ s :: sR) (kL ++ T x (sA ++ [s']) (kA ++ kM) :: T n sB kB :: kR)))) k →
  wp (_ ← rotate_from_prev n p x;
      sd ← load x;
      if (gap.1 =? x) && (gap.2 =? nrSegments sd) then mret (n, 0)
      else if gap.1 =? n then mret (n, gap.2 + 1) else mret gap) h Q.
Proof.
  intros Hr Ha Hwx Hx Hwn Hn Hs1 Hs2 Hg HQ. pose proof minDegree_3 as Hmin. pose proof Ha as [EL ER _ _ _ _ HC].
  assert (Hlen : length sB < maxDegree - 1) by (unfold maxDegree; lia).
  assert (Hwx' := proj1 (wf_join d x x n sA s' [] kA kM Hs1) Hwx). destruct Hwx' as (_ & HwA & HwM).
  rewrite length_app in Hx. simpl in Hx.
  assert (HwB : wf d (T n (s :: sB) (kM ++ kB))).
  { apply (wf_join d n n n [] s sB kM kB Hs2). simpl. split_and!; [unfold maxDegree; lia|done|done]. }
  assert (Hok : tree_ok (S d) C (T p (sL ++ s' :: sR) (kL ++ T x sA kA :: T n (s :: sB) (kM ++ kB) :: kR))).
  { eapply around_ok; [exact Ha|split; [simpl; lia|done]|split; [simpl; lia|done]]. }
  assert (Hflat : flat (T p (sL ++ s' :: sR) (kL ++ T x sA kA :: T n (s :: sB) (kM ++ kB) :: kR)) =
    flat (T p (sL ++ s :: sR) (kL ++ T x (sA ++ [s']) (kA ++ kM) :: T n sB kB :: kR))).
  { rewrite !flat_two by done. by rewrite (rotate_flat d). }
  wp_step. eapply (rotate_from_prev_spec h d); [exact Hr|done|done|by apply rotate_kids|]. intros h' Hr'.
  destruct (pair_facts h' C p (sL ++ s' :: sR) kL kR x sA kA [] n (s :: sB) (kM ++ kB)) as (Hne & (xd & Ex & Hxn) & _ & (yd & Ey & Hyn) & _).
  { by rewrite app_nil_r. }
  wp_step. wp_step. rewrite (ok_nr _ _ Hxn). cell_norm. destruct d as [|d].
  - destruct Hg as (i & -> & Hi & ->). simpl in Hi. destruct Hs1 as [-> ->]. destruct Hs2 as [_ ->]. simpl fst. simpl snd.
    destruct (Nat.eqb_spec n x) as [|_]; [lia|]. rewrite Nat.eqb_refl. simpl andb. apply wp_ret.
    eapply (done_step _ _ _ _ _ _ _ _ HQ Hr' Hok Hflat).
    assert (HG := gaps_at (Frame p (sL ++ [s']) (kL ++ [T x sA []]) sR kR :: C) n (s :: sB) (i + 1) ltac:(simpl; lia)).
    rewrite plug_right in HG. rewrite <- HG. f_equal. rewrite !left_gaps_right. cbn [app]. rewrite !length_gaps_leaf, length_app. simpl. lia.
  - assert (Hg' : gaps (plug C (T p (sL ++ s' :: sR) (kL ++ T x sA kA :: T n (s :: sB) (kM ++ kB) :: kR))) !! k = Some gap).
    { cbn [gap_pos] in Hg. rewrite plug_right in Hg. rewrite <- Hg, !gaps_plug, !gaps_two. by rewrite (rotate_gaps d x n sA s' s). }
    rewrite (gap_internal h' d C _ gap k x xd Hr' Hg' Ex), (gap_internal h' d C _ gap k n yd Hr' Hg' Ey).
    + simpl. apply wp_ret. by eapply (done_step _ _ _ _ _ _ _ _ HQ Hr' Hok Hflat).
    + rewrite (ok_hasChildren _ _ Hyn). cell_norm. destruct Hs2 as [? ?]. by destruct kM.
    + rewrite (ok_hasChildren _ _ Hxn). cell_norm. destruct Hs1 as [? ?]. by destruct kA.
Qed.

Lemma rotate_next_step h d C p sL s sR kL kR n sA kA y s' sB kM kB gap k Q :
  rep h (plug C (T p (sL ++ s :: sR) (kL ++ T n sA kA :: T y (s' :: sB) (kM ++ kB) :: kR))) →
  around d C sL s sR kL kR → wf d (T y (s' :: sB) (kM ++ kB)) → minDegree ≤ length (s' :: sB) →
  wf d (T n sA kA) → length sA = minDegree - 2 → split_kids d sA [] kA kM → split_kids d [] sB kM kB →
  gap_pos d (Frame p sL kL (s :: sR) (T y (s' :: sB) (kM ++ kB) :: kR) :: C) (T n sA kA) gap k →
  done_with Q (flat (plug C (T p (sL ++ s :: sR) (kL ++ T n sA kA :: T y (s' :: sB) (kM ++ kB) :: kR)))) k →
  wp (_ ← rotate_from_next n p y;
      nd ← load n;
      if gap.1 =? y then if gap.2 =? 0 then mret (n, nrSegments nd) else mret (y, gap.2 - 1) else mret gap) h Q.
Proof.
  intros Hr Ha Hwy Hy Hwn Hn Hs1 Hs2 Hg HQ. pose proof minDegree_3 as Hmin. pose proof Ha as [EL ER _ _ _ _ HC].
  assert (Hlen : length sA < maxDegree - 1) by (unfold maxDegree; lia).
  assert (Hwy' := proj1 (wf_join d y n y [] s' sB kM kB Hs2) Hwy). destruct Hwy' as (_ & HwM & HwB). simpl in Hy.
  assert (HwA : wf d (T n (sA ++ [s]) (kA ++ kM))).
  { apply (wf_join d n n n sA s [] kA kM Hs1). simpl. split_and!; [unfold maxDegree; lia|done|done]. }
  assert (Hok : tree_ok (S d) C (T p (sL ++ s' :: sR) (kL ++ T n (sA ++ [s]) (kA ++ kM) :: T y sB kB :: kR))).
  { eapply around_ok; [exact Ha|split; [simpl; rewrite length_app; simpl; lia|done]|split; [simpl; lia|done]]. }
  assert (Hflat : flat (T p (sL ++ s' :: sR) (kL ++ T n (sA ++ [s]) (kA ++ kM) :: T y sB kB :: kR)) =
    flat (T p (sL ++ s :: sR) (kL ++ T n sA kA :: T y (s' :: sB) (kM ++ kB) :: kR))).
  { rewrite !flat_two by done. by rewrite (rotate_flat d). }
  wp_step. eapply (rotate_from_next_spec h d); [exact Hr|done|done|by apply rotate_kids|]. intros h' Hr'.
  destruct (pair_facts h' C p (sL ++ s' :: sR) kL kR n (sA ++ [s]) kA kM y sB kB Hr') as (Hne & (xd & Ex & Hxn) & _ & (yd & Ey & Hyn) & _).
  wp_step. wp_step. destruct d as [|d].
  - destruct Hg as (i & -> & Hi & ->). simpl in Hi. destruct Hs1 as [-> ->]. destruct Hs2 as [_ ->]. simpl fst. simpl snd.
    destruct (Nat.eqb_spec n y) as [|_]; [lia|]. apply wp_ret.
    eapply (done_step _ _ _ _ _ _ _ _ HQ Hr' Hok Hflat).
    apply (gaps_at (Frame p sL kL (s' :: sR) (T y sB [] :: kR) :: C) n (sA ++ [s]) i). rewrite length_app. simpl. lia.
  - assert (Hg' : gaps (plug C (T p (sL ++ s' :: sR) (kL ++ T n (sA ++ [s]) (kA ++ kM) :: T y sB kB :: kR))) !! k = Some gap).
    { rewrite <- Hg. cbn [plug f_loc ssL ssR ksL ksR]. rewrite !gaps_plug, !gaps_two. by rewrite (rotate_gaps d n y sA s s'). }
    rewrite (gap_internal h' d C _ gap k y yd Hr' Hg' Ey).
    + apply wp_ret. by eapply (done_step _ _ _ _ _ _ _ _ HQ Hr' Hok Hflat).
    + rewrite (ok_hasChildren _ _ Hyn). cell_norm. destruct Hs2 as [? ?]. by destruct kB.
Qed.

(** ** Merging *)

Lemma merge_ok d l sA s sB kA kB :
  wf d (T l sA kA) → wf d (T l sB kB) → split_kids d sA sB kA kB → length sA + length sB + 1 ≤ maxDegree - 1 →
  minDegree - 1 ≤ length sA + length sB + 1 → kid_ok d (T l (sA ++ s :: sB) (kA ++ kB)).
Proof.
  intros HA HB Hs Hle Hge. split; [simpl; rewrite length_app; simpl; lia|]. by apply (wf_join d l l l sA s sB kA kB Hs).
Qed.

Lemma kids_of_split d sA sB kA kB : split_kids d sA sB kA kB → kids_of d sA kA sB kB.
Proof. by destruct d. Qed.

(** The root and its two children become one node; the gap was in [x] or in [y]. *)
Lemma unsplit_root_step h d p s x sA kA y sB kB gap k Q (in_left : bool) :
  rep h (T p [s] [T x sA kA; T y sB kB]) → wf d (T x sA kA) → wf d (T y sB kB) → split_kids d sA sB kA kB →
  length sA + length sB + 1 ≤ maxDegree - 1 →
  (if in_left then gap_pos d [Frame p [] [] [s] [T y sB kB]] (T x sA kA) gap k
   else gap_pos d [Frame p [s] [T x sA kA] [] []] (T y sB kB) gap k) →
  done_with Q (flat (T p [s] [T x sA kA; T y sB kB])) k →
  wp (left ← child p 0; right ← child p 1;
      ld ← load left;
      _ ← unsplit_root p left right;
      if gap.1 =? left then mret (p, gap.2)
      else if gap.1 =? right then mret (p, gap.2 + nrSegments ld + 1) else mret gap) h Q.
Proof.
  intros Hr HwA HwB Hs Hle Hg HQ.
  destruct (pair_facts h [] p [s] [] [] x sA [] kA y sB kB Hr) as (Hne & (xd & Ex & Hxn) & (pd & Ep & Hpn) & (yd & Ey & Hyn) & _).
  cell_norm. cbn [app] in *.
  wp_step. eapply wp_child; [exact Ep|by eapply (node_child _ _ _ _ _ _ 0 (T x sA kA) Hpn)|]. cbn [tloc].
  wp_step. eapply wp_child; [exact Ep|by eapply (node_child _ _ _ _ _ _ 1 (T y sB kB) Hpn)|]. cbn [tloc].
  wp_step. wp_step. wp_step. eapply (unsplit_root_spec h d); [exact Hr|done|by apply kids_of_split|]. intros h' Hr'.
  assert (Hok : tree_ok d [] (T p (sA ++ s :: sB) (kA ++ kB))).
  { split; [done|]. split; [by apply (wf_join d p x y sA s sB kA kB Hs)|]. right. simpl. rewrite length_app. simpl. lia. }
  assert (Hflat : flat (T p (sA ++ s :: sB) (kA ++ kB)) = flat (T p [s] [T x sA kA; T y sB kB])).
  { rewrite (flat_join d p x y) by done. rewrite (flat_eq p [s]), !fmap_cons. done. }
  rewrite (ok_nr _ _ Hxn). cell_norm. destruct d as [|d].
  - destruct Hs as [-> ->]. assert (HG : ∀ i, i ≤ length (sA ++ s :: sB) → gaps (T p (sA ++ s :: sB) []) !! i = Some (p, i)).
    { intros i Hi. apply (gaps_at [] p (sA ++ s :: sB) i Hi). }
    rewrite length_app in HG. simpl in HG. destruct in_left; destruct Hg as (i & -> & Hi & ->); simpl in Hi; simpl fst; simpl snd.
    + rewrite Nat.eqb_refl. apply wp_ret. eapply (done_step _ _ _ [] _ _ _ _ HQ Hr' Hok Hflat). apply HG. lia.
    + destruct (Nat.eqb_spec y x) as [|_]; [lia|]. rewrite Nat.eqb_refl. apply wp_ret.
      eapply (done_step _ _ _ [] _ _ _ _ HQ Hr' Hok Hflat).
      rewrite (left_gaps_right [] p [s] [] [] [] (T x sA []) : length (left_gaps [Frame p [s] [T x sA []] [] []]) = _), length_gaps_leaf.
      replace (_ + i) with (i + length sA + 1) by (simpl; lia). apply HG. lia.
  - assert (Hg0 : gaps (T p [s] [T x sA kA; T y sB kB]) !! k = Some gap) by (by destruct in_left).
    assert (Hg' : gaps (plug [] (T p (sA ++ s :: sB) (kA ++ kB))) !! k = Some gap).
    { simpl plug. rewrite <- Hg0, (gaps_join d p x y) by done. rewrite (gaps_node p [s]) by done. cbn [fmap list_fmap concat]. by rewrite app_nil_r. }
    destruct Hs as [LA LB]. rewrite (gap_internal h d [] _ gap k x xd Hr Hg0 Ex), (gap_internal h d [] _ gap k y yd Hr Hg0 Ey).
    + apply wp_ret. by eapply (done_step _ _ _ [] _ _ _ _ HQ Hr' Hok Hflat).
    + rewrite (ok_hasChildren _ _ Hyn). cell_norm. by destruct kB.
    + rewrite (ok_hasChildren _ _ Hxn). cell_norm. by destruct kA.
Qed.

Lemma unsplit_node_step h d C p sL s sR kL kR x sA kA y sB kB gap k (in_left : bool) (next : loc * nat → prog Value (loc * nat)) Q :
  rep h (plug C (T p (sL ++ s :: sR) (kL ++ T x sA kA :: T y sB kB :: kR))) →
  length kL = length sL → length kR = length sR → split_kids d sA sB kA kB → length sA + length sB + 1 ≤ maxDegree - 1 →
  (if in_left then gap_pos d (Frame p sL kL (s :: sR) (T y sB kB :: kR) :: C) (T x sA kA) gap k
   else gap_pos d (Frame p (sL ++ [s]) (kL ++ [T x sA kA]) sR kR :: C) (T y sB kB) gap k) →
  (∀ h' gap', rep h' (plug C (T p (sL ++ sR) (kL ++ T x (sA ++ s :: sB) (kA ++ kB) :: kR))) →
     gaps (plug C (T p (sL ++ sR) (kL ++ T x (sA ++ s :: sB) (kA ++ kB) :: kR))) !! k = Some gap' → wp (next gap') h' Q) →
  wp (ld ← load x;
      let gap := if gap.1 =? y then (x, gap.2 + nrSegments ld + 1) else gap in
      _ ← unsplit_node p x y; next gap) h Q.
Proof.
  intros Hr EL ER Hs Hle Hg Hnext. rewrite <- (app_nil_r kA) in Hr.
  destruct (pair_facts _ _ _ _ _ _ _ _ _ _ _ _ _ Hr) as (Hne & (xd & Ex & Hxn) & _ & (yd & Ey & Hyn) & _).
  rewrite app_nil_r in Hr. wp_step. wp_step. rewrite (ok_nr _ _ Hxn). cell_norm. wp_step.
  eapply (unsplit_node_spec h d); [exact Hr|done|done|done|by apply kids_of_split|]. intros h' Hr'. eapply Hnext; [exact Hr'|].
  destruct d as [|d].
  - destruct Hs as [-> ->]. assert (HG := gaps_at (Frame p sL kL sR kR :: C) x (sA ++ s :: sB)).
    rewrite length_app in HG. simpl in HG. destruct in_left; destruct Hg as (i & -> & Hi & ->); simpl in Hi; simpl fst; simpl snd.
    + destruct (Nat.eqb_spec x y) as [|_]; [lia|]. apply HG. lia.
    + rewrite Nat.eqb_refl, left_gaps_right, length_gaps_leaf. rewrite <- (HG (i + length sA + 1)) by lia. f_equal.
      simpl. rewrite length_app. lia.
  - assert (Hg0 : gaps (plug C (T p (sL ++ s :: sR) (kL ++ T x sA kA :: T y sB kB :: kR))) !! k = Some gap).
    { destruct in_left; [done|]. cbn [gap_pos] in Hg. by rewrite plug_right in Hg. }
    rewrite (gap_internal h d C _ gap k y yd Hr Hg0 Ey).
    + rewrite <- Hg0, !gaps_plug, gaps_two, gaps_one. by rewrite (gaps_join d x x y) by done.
    + rewrite (ok_hasChildren _ _ Hyn). cell_norm. destruct Hs as [_ ?]. by destruct kB.
Qed.

Lemma pop_last d x ss ks :
  wf d (T x ss ks) → 1 ≤ length ss → ∃ sA s' kA kM, ss = sA ++ [s'] ∧ ks = kA ++ kM ∧ split_kids d sA [] kA kM.
Proof.
  intros Hw Hl. destruct ss as [|s' sA _] using rev_ind; [simpl in Hl; lia|]. destruct d as [|d].
  - destruct Hw as [_ ->]. by exists sA, s', [], [].
  - apply wf_kids in Hw as (_ & Hk & _). destruct ks as [|k kA _] using rev_ind; [done|]. exists sA, s', kA, [k].
    rewrite !length_app in Hk. simpl in Hk. split_and!; [done|done|]. split; simpl; lia.
Qed.

Lemma pop_first d y ss ks :
  wf d (T y ss ks) → 1 ≤ length ss → ∃ s' sB kM kB, ss = s' :: sB ∧ ks = kM ++ kB ∧ split_kids d [] sB kM kB.
Proof.
  intros Hw Hl. destruct ss as [|s' sB]; [simpl in Hl; lia|]. destruct d as [|d].
  - destruct Hw as [_ ->]. by exists s', sB, [], [].
  - apply wf_kids in Hw as (_ & Hk & _). destruct ks as [|k kB]; [done|]. exists s', sB, [k], kB.
    simpl in Hk. split_and!; [done|done|]. split; simpl; lia.
Qed.

Lemma split_kids_trans d sA sM sB kA kM kB : split_kids d sA sM kA kM → split_kids d sM sB kM kB → split_kids d sA sB kA kB.
Proof. destruct d; simpl; naive_solver. Qed.

Lemma wf_split_kids d x y sA sB kA kB : wf d (T x sA kA) → wf d (T y sB kB) → split_kids d sA sB kA kB.
Proof. destruct d; simpl; naive_solver. Qed.

Lemma split_kids_right d n sA kA kM sB kB : split_kids d sA [] kA kM → wf d (T n sB kB) → split_kids d [] sB kM kB.
Proof. destruct d; simpl; naive_solver. Qed.

Lemma split_kids_left d n sA kA kM sB kB : split_kids d [] sB kM kB → wf d (T n sA kA) → split_kids d sA [] kA kM.
Proof. destruct d; simpl; naive_solver. Qed.

(** ** Rebalancing *)

(** One segment may be missing. *)
Definition lacks (d : nat) C ss : Prop := enough d C ss ∨ (C ≠ [] ∧ length ss = minDegree - 2).

Definition rebalances fuel C : Prop := ∀ h d t gap k Q,
  rep h (plug C t) → wf_ctx d C → wf d t → lacks d C (tsegs t) → gap_pos d C t gap k →
  done_with Q (flat (plug C t)) k → wp (rebalance_after_remove fuel (tloc t) gap) h Q.

(** The frame of a node as what surrounds it and its left or right sibling. *)
Lemma around_left d C p sL s sR kL a kR :
  wf_ctx d (Frame p (sL ++ [s]) (kL ++ [a]) sR kR :: C) → around d C sL s sR kL kR ∧ kid_ok d a.
Proof.
  intros (EL & ER & Hle & HL & HR & He & HC). cbn [ssL ssR ksL ksR] in *. rewrite <- !(assoc_L (++)) in *.
  rewrite !length_app in *. simpl in *. apply Forall_app in HL as [HL Ha]. rewrite Forall_singleton in Ha.
  split; [|done]. constructor; (done || lia).
Qed.

Lemma around_right d C p sL s sR kL a kR :
  wf_ctx d (Frame p sL kL (s :: sR) (a :: kR) :: C) → around d C sL s sR kL kR ∧ kid_ok d a.
Proof.
  intros (EL & ER & Hle & HL & HR & He & HC). cbn [ssL ssR ksL ksR] in *.
  rewrite !length_app in *. simpl in *. apply Forall_cons in HR as [Ha HR]. split; [|done]. constructor; (done || lia).
Qed.

Lemma donor_none o k : donor o = None → o = Some k → length (tsegs k) < minDegree.
Proof. intros Hd ->. simpl in Hd. by destruct (Nat.leb_spec minDegree (length (tsegs k))). Qed.

Lemma donor_some o x : donor o = Some x → ∃ ss ks, o = Some (T x ss ks) ∧ minDegree ≤ length ss.
Proof.
  destruct o as [[x' ss ks]|]; [|done]. simpl. destruct (Nat.leb_spec minDegree (length ss)); [|done]. intros [= ->]. by exists ss, ks.
Qed.

(** The merged node and its parent, after which the parent may lack a segment. *)
Lemma merged_parent d C p sL s sR kL kR x sA kA y sB kB :
  around d C sL s sR kL kR → wf d (T x sA kA) → wf d (T y sB kB) →
  length sA + length sB + 1 ≤ maxDegree - 1 → minDegree - 1 ≤ length sA + length sB + 1 → length sL + length sR ≠ 0 →
  wf (S d) (T p (sL ++ sR) (kL ++ T x (sA ++ s :: sB) (kA ++ kB) :: kR)) ∧ lacks (S d) C (sL ++ sR) ∧
  flat (T p (sL ++ sR) (kL ++ T x (sA ++ s :: sB) (kA ++ kB) :: kR)) =
  flat (T p (sL ++ s :: sR) (kL ++ T x sA kA :: T y sB kB :: kR)).
Proof.
  intros [EL ER Hle HL HR He HC] HA HB Hm Hge Hne. pose proof minDegree_3. pose proof (wf_split_kids _ _ _ _ _ _ _ HA HB) as Hs.
  split_and!.
  - apply wf_kids. rewrite !length_app. simpl. split_and!; [lia|lia|]. rewrite Forall_app, Forall_cons. split_and!; [done| |done].
    split; [simpl; rewrite length_app; simpl; lia|]. by apply (wf_join d x x y sA s sB kA kB Hs).
  - unfold lacks, enough in *. destruct C; rewrite !length_app in *; simpl in *; [left; right; lia|].
    destruct (decide (minDegree - 1 ≤ length sL + length sR)); [by left|right]. split; [done|lia].
  - rewrite flat_one, flat_two by done. by rewrite (flat_join d x x y).
Qed.

Lemma merge_left_step fuel h d C p sL s sR kL x sA kA kR n sB kB gap k Q :
  rep h (plug C (T p (sL ++ s :: sR) (kL ++ T x sA kA :: T n sB kB :: kR))) → around d C sL s sR kL kR →
  wf d (T x sA kA) → wf d (T n sB kB) → length sA + length sB + 1 ≤ maxDegree - 1 → minDegree - 1 ≤ length sA + length sB + 1 →
  length sL + length sR ≠ 0 → rebalances fuel C → ∀ in_left : bool,
  (if in_left then gap_pos d (Frame p sL kL (s :: sR) (T n sB kB :: kR) :: C) (T x sA kA) gap k
   else gap_pos d (Frame p (sL ++ [s]) (kL ++ [T x sA kA]) sR kR :: C) (T n sB kB) gap k) →
  done_with Q (flat (plug C (T p (sL ++ s :: sR) (kL ++ T x sA kA :: T n sB kB :: kR)))) k →
  wp (ld ← load x;
      let gap := if gap.1 =? n then (x, gap.2 + nrSegments ld + 1) else gap in
      _ ← unsplit_node p x n; rebalance_after_remove fuel p gap) h Q.
Proof.
  intros Hr Ha HA HB Hm Hge Hne IH in_left Hg HQ. pose proof (wf_split_kids _ _ _ _ _ _ _ HA HB) as Hs.
  pose proof Ha as [EL ER _ _ _ _ HC].
  destruct (merged_parent d C p sL s sR kL kR x sA kA n sB kB) as (Hw & Hl & Hf); [done..|].
  eapply (unsplit_node_step h d C p sL s sR kL kR x sA kA n sB kB gap k in_left (rebalance_after_remove fuel p)); [done..|].
  intros h' gap' Hr' Hg'. eapply (IH h' (S d) (T p _ _)); [exact Hr'|done|exact Hw|exact Hl|exact Hg'|].
  intros h2 t2 g2 Ht2 Hf2. apply HQ; [done|]. by rewrite Hf2, !(flat_plug (S d)), Hf.
Qed.

Lemma merge_step fuel h d C p sL kL sR kR n ss ks (idx : nat) gap k Q :
  rep h (plug C (T p (sL ++ sR) (kL ++ T n ss ks :: kR))) → wf_ctx d (Frame p sL kL sR kR :: C) →
  wf d (T n ss ks) → length ss = minDegree - 2 → donor (last kL) = None → donor (head kR) = None → idx = length kL →
  gap_pos d (Frame p sL kL sR kR :: C) (T n ss ks) gap k → rebalances fuel C →
  done_with Q (flat (plug C (T p (sL ++ sR) (kL ++ T n ss ks :: kR)))) k →
  wp (pd ← load p;
      if nrSegments pd =? 1 then
        left ← child p 0; right ← child p 1;
        ld ← load left;
        _ ← unsplit_root p left right;
        if gap.1 =? left then mret (p, gap.2)
        else if gap.1 =? right then mret (p, gap.2 + nrSegments ld + 1) else mret gap
      else
        '(lc, rc) ← (if 0 <? idx
                     then s ← prevSibling n; s ← lift s; mret (s, n)
                     else s ← nextSibling n; s ← lift s; mret (n, s));
        ld ← load lc;
        let gap := if gap.1 =? rc then (lc, gap.2 + nrSegments ld + 1) else gap in
        _ ← unsplit_node p lc rc;
        rebalance_after_remove fuel p gap) h Q.
Proof.
  intros Hr Hctx Hw Hn HdL HdR -> Hg IH HQ. pose proof minDegree_3 as Hmin. pose proof Hctx as (EL & ER & _ & _ & _ & He & _).
  cbn [ssL ssR ksL ksR] in *. destruct (rep_node _ _ _ _ _ Hr) as (pd & Ep & Hpn). wp_step. wp_step.
  rewrite (ok_nr _ _ Hpn). cell_norm. rewrite length_app.
  assert (Hroot : length sL + length sR = 1 → C = []) by (intros E1; destruct C; [done|]; simpl in He; rewrite length_app in He; lia).
  destruct kL as [|[x sA kA] kL _] using rev_ind.
  - apply symmetry, nil_length_inv in EL as ->. destruct kR as [|[y sB kB] kR].
    { apply symmetry, nil_length_inv in ER as ->. destruct C; simpl in He; [destruct He; lia|lia]. }
    destruct sR as [|s sR]; [done|]. destruct (around_right _ _ _ _ _ _ _ _ _ Hctx) as [Ha [Hy Hwy]]. cbn [tsegs] in Hy.
    pose proof (donor_none _ _ HdR eq_refl) as Hy'. cbn [tsegs] in Hy'. pose proof (wf_split_kids _ _ _ _ _ _ _ Hw Hwy) as Hs.
    assert (Hsz : length ss + length sB + 1 ≤ maxDegree - 1) by (unfold maxDegree; lia).
    destruct (Nat.eqb_spec (length (@nil seg) + length (s :: sR)) 1) as [E1|E1].
    + rewrite (Hroot E1) in *. simpl in E1, ER. destruct sR; [|simpl in E1; lia]. destruct kR; [|simpl in ER; lia].
      by eapply (unsplit_root_step h d p s n ss ks y sB kB gap k Q true).
    + wp_step. change (0 <? length []) with false. cbn iota. wp_step. eapply wp_eq; [by eapply (nextSibling_spec h C p [] _ [] (T n ss ks))|].
      wp_step. eapply wp_lift; [done|]. wp_step. cbn [tloc].
      eapply (merge_left_step fuel h d C p [] s sR [] n ss ks kR y sB kB gap k Q) with (in_left := true); try done; [lia|simpl in E1; simpl; lia].
  - destruct sL as [|s sL _] using rev_ind; [rewrite length_app in EL; simpl in EL; lia|].
    destruct (around_left _ _ _ _ _ _ _ _ _ Hctx) as [Ha [Hx Hwx]]. cbn [tsegs] in Hx. rewrite last_snoc in HdL.
    pose proof (donor_none _ _ HdL eq_refl) as Hx'. cbn [tsegs] in Hx'. pose proof (wf_split_kids _ _ _ _ _ _ _ Hwx Hw) as Hs.
    assert (Hsz : length sA + length ss + 1 ≤ maxDegree - 1) by (unfold maxDegree; lia).
    assert (Hr' := Hr). rewrite <- !(assoc_L (++)) in Hr', HQ. rewrite !length_app in *. simpl in EL, ER.
    destruct (Nat.eqb_spec (length sL + length [s] + length sR) 1) as [E1|E1]; simpl in E1.
    + rewrite (Hroot E1) in *. destruct sL; [|simpl in E1; lia]. destruct sR; [|simpl in E1; lia].
      destruct kR; [|simpl in ER; lia]. destruct kL; [|simpl in EL; lia].
      by eapply (unsplit_root_step h d p s x sA kA n ss ks gap k Q false).
    + wp_step. destruct (Nat.ltb_spec 0 (length kL + length [T x sA kA])) as [_|]; [|simpl in *; lia].
      wp_step. eapply wp_eq; [by eapply (prevSibling_spec h C p _ _ _ (T n ss ks))|]. rewrite last_snoc.
      wp_step. eapply wp_lift; [done|]. wp_step. cbn [tloc].
      eapply (merge_left_step fuel h d C p sL s sR kL x sA kA kR n ss ks gap k Q) with (in_left := false); try done; lia.
Qed.

Lemma rebalance_after_remove_spec C fuel : length C < fuel → rebalances fuel C.
Proof.
  revert fuel. induction C as [|[p sL kL sR kR] C IH]; intros [|fuel] Hf; try (simpl in Hf; lia);
    intros h d [n ss ks] gap k Q Hr HC Hw Hl Hg HQ; destruct (rep_node _ _ _ _ _ Hr) as (nd & E & Hn);
    cbn [rebalance_after_remove tloc]; wp_step; wp_step; rewrite (ok_nr _ _ Hn), (ok_parent _ _ Hn), (ok_index _ _ Hn);
    cbn [c_ss c_par c_idx ctx_par ctx_idx f_loc ksL]; pose proof (gap_pos_lookup _ _ _ _ _ Hw Hg) as Hg0;
    pose proof minDegree_3 as Hmin; simpl tsegs in Hl.
  - destruct Hl as [He|[? _]]; [|done]. destruct (minDegree - 1 <=? length ss); by apply wp_ret; eapply HQ; [eapply (is_tree_plug _ d [])|..].
  - destruct (Nat.leb_spec (minDegree - 1) (length ss)) as [Hle|Hlt].
    { apply wp_ret. eapply HQ; [by eapply is_tree_plug|done|done]. }
    assert (Hss : length ss = minDegree - 2) by (destruct Hl as [He|[_ ?]]; [simpl in He; lia|done]).
    pose proof HC as (EL & ER & _). cbn [ssL ssR ksL ksR] in EL, ER.
    wp_step. eapply wp_eq; [by eapply (prevSibling_spec h C p sL sR kL (T n ss ks) kR)|]. wp_step.
    eapply (donor_spec h C p (sL ++ sR) (kL ++ T n ss ks :: kR)); [exact Hr| |].
    { intros k0 (kL' & ->)%last_Some. rewrite !elem_of_app. left. right. left. }
    destruct (donor (last kL)) as [x'|] eqn:HdL.
    { destruct (donor_some _ _ HdL) as (sX & kX & (kL' & ->)%last_Some & Hx).
      destruct sL as [|s sL _] using rev_ind; [rewrite length_app in EL; simpl in EL; lia|].
      destruct (around_left _ _ _ _ _ _ _ _ _ HC) as [Ha [_ Hwx]]. rewrite plug_right in Hr, HQ.
      destruct (pop_last _ _ _ _ Hwx) as (sA & s' & kA & kM & -> & -> & Hs1); [lia|].
      by eapply (rotate_prev_step h d C p sL s sR kL' kR x' sA s' kA kM n ss ks gap k Q); [..|eapply split_kids_right| |]. }
    wp_step. eapply wp_eq; [by eapply (nextSibling_spec h C p sL sR kL (T n ss ks) kR)|]. wp_step.
    eapply (donor_spec h C p (sL ++ sR) (kL ++ T n ss ks :: kR)); [exact Hr| |].
    { intros k0 Hk0. destruct kR as [|k1 kR]; [done|]. injection Hk0 as ->. rewrite elem_of_app. right. right. left. }
    destruct (donor (head kR)) as [y'|] eqn:HdR.
    { destruct (donor_some _ _ HdR) as (sY & kY & Hhd & Hy). destruct kR as [|k1 kR]; [done|]. injection Hhd as ->.
      destruct sR as [|s sR]; [done|]. destruct (around_right _ _ _ _ _ _ _ _ _ HC) as [Ha [_ Hwy]].
      destruct (pop_first _ _ _ _ Hwy) as (s' & sB & kM & kB & -> & -> & Hs2); [lia|].
      by eapply (rotate_next_step h d C p sL s sR kL kR n ss ks y' s' sB kM kB gap k Q); [..|eapply split_kids_left| | |]. }
    eapply (merge_step fuel h d C p sL kL sR kR n ss ks); try done. apply IH. simpl in Hf. lia.
Qed.

(** ** Removal *)

Lemma gap_NextGap_spec h t k g :
  is_tree h t → gaps t !! k = Some g → k < length (flat t) →
  ∃ g', gaps t !! S k = Some g' ∧ gap_NextGap g h = Some (Some g', h).
Proof.
  intros Ht Hg Hk. unfold flat in Hk. rewrite length_fmap in Hk. apply lookup_lt_is_Some in Hk as [x Hx].
  destruct (NextGap_spec h t k x Ht Hx) as (g' & Hg' & E). exists g'. split; [done|].
  eapply run_bind; [by eapply gap_NextSegment_spec|]. rewrite Hx. simpl. by eapply run_bind; [exact E|].
Qed.

(** A segment of a leaf that is not there any more. *)
Lemma leaf_remove_ok nd n par idx ss1 s ss2 v :
  node_ok nd (mkCell n par idx (ss1 ++ s :: ss2) []) →
  node_ok (mkNode (length (ss1 ++ s :: ss2) - 1) (parent nd) (parentIndex nd) (hasChildren nd)
    (copy_at (keys nd) (length ss1) (slice (keys nd) (length ss1 + 1) (length (ss1 ++ s :: ss2))))
    (<[length (ss1 ++ s :: ss2) - 1 := v]>
       (copy_at (values nd) (length ss1) (slice (values nd) (length ss1 + 1) (length (ss1 ++ s :: ss2)))))
    (children nd)) (mkCell n par idx (ss1 ++ ss2) []).
Proof.
  intros Hn. rewrite length_app. simpl. rewrite Nat.add_succ_r. replace (S (length ss1 + length ss2) - 1) with (length ss1 + length ss2) by lia.
  assert (Hn' := drop_mid_ok nd n par idx ss1 s ss2 [] _ v (children nd) [] Hn eq_refl eq_refl (ok_children _ _ Hn)).
  by replace (S (length ss1 + length ss2) - 1) with (length ss1 + length ss2) in Hn' by lia.
Qed.

Lemma delete_middle_eq {A} (l1 : list A) (x : A) (l2 : list A) k : k = length l1 → delete k (l1 ++ x :: l2) = l1 ++ l2.
Proof. intros ->. by apply delete_middle. Qed.

Lemma remove_leaf_spec fuel h t k n i s Q :
  is_tree h t → items t !! k = Some ((n, i), s) → in_leaf h (n, i) →
  done_with Q (delete k (flat t)) k → wp (remove_seg (S fuel) (n, i)) h Q.
Proof.
  intros [Hr Hd] Hx (nd & E & Hl) HQ. destruct (item_place _ _ _ _ _ Hd Hx) as (d & C & ss1 & ss2 & ks1 & ks2 & -> & Ht & <- & Hsp & Ek).
  simpl in E. destruct (rep_node _ _ _ _ _ Hr) as (nd' & E' & Hn). rewrite E in E'. injection E' as <-.
  pose proof Ht as (HC & Hw & He). destruct d as [|d]; [|by rewrite (node_has _ _ _ _ _ _ _ Hn Hw) in Hl].
  destruct Hsp as [-> ->]. pose proof (ok_nr _ _ Hn) as Hnr. cell_norm.
  assert (Hn' := λ v, leaf_remove_ok nd n _ _ ss1 s ss2 v Hn). cell_norm.
  assert (Hlen : length (ss1 ++ s :: ss2) ≤ maxDegree - 1) by apply Hw.
  destruct (lookup_lt_is_Some_2 (copy_at (values nd) (length ss1) (slice (values nd) (length ss1 + 1) (length (ss1 ++ s :: ss2))))
    (length (ss1 ++ s :: ss2) - 1)) as [v Ev].
  { destruct (ok_values _ _ (Hn' s.2)) as [Lv _]. cbn [values] in Lv. rewrite length_insert in Lv. rewrite Lv. rewrite length_app in *. simpl in *. lia. }
  cbn [remove_seg]. wp_step. wp_step. rewrite Hl. repeat wp_step. rewrite Hnr. unfold SetValue, seg_Value. cbn [fst snd]. repeat wp_step.
  node_norm. rewrite ?Hnr. unfold rebalanceAfterRemove. wp_step. apply wp_fuel. cbn [upd next].
  pose proof (rep_fuel _ _ _ _ Hr Hw) as Hf. assert (Hb : length C < next h) by lia.
  eapply (rebalance_after_remove_spec C _ Hb _ 0 (T n (ss1 ++ ss2) []) _ k).
  - eapply rep_set_node; [exact Hr|exact (Hn' _)].
  - done.
  - split; [|done]. rewrite length_app in *. simpl in *. lia.
  - unfold lacks, enough in *. destruct C; [by left; left|]. rewrite !length_app in *. simpl in *. rewrite !length_app in *. simpl in He.
    destruct (decide (minDegree - 1 ≤ length ss1 + length ss2)); [by left|right; split; [done|lia]].
  - exists (length ss1). split_and!; [done| |]; [simpl; rewrite length_app; lia|]. rewrite (left_gaps_count 0) by done. rewrite Ek.
    unfold items_from. simpl. by rewrite length_nitems.
  - intros h2 t2 g2 Ht2 Hf2. apply HQ; [done|]. rewrite Hf2.
    replace (flat (plug C (T n (ss1 ++ s :: ss2) ([] ++ [])))) with ((lsegs C ++ ss1) ++ s :: ss2 ++ rsegs C)
      by (cbn [app]; rewrite flat_leaf by done; by rewrite <- !(assoc_L (++))).
    rewrite delete_middle_eq, flat_leaf by (done || rewrite Ek, length_app; unfold lsegs, items_from; simpl; by rewrite length_fmap, length_nitems).
    by rewrite <- !(assoc_L (++)).
Qed.

(** Segments by their positions. *)
Lemma items_at t k it s : items t !! k = Some (it, s) ↔ (items t).*1 !! k = Some it ∧ flat t !! k = Some s.
Proof.
  unfold flat. rewrite !list_lookup_fmap. destruct (items t !! k) as [[it' s']|]; simpl; naive_solver.
Qed.

Lemma shape_trans t1 t2 t3 : same_shape t1 t2 → same_shape t2 t3 → same_shape t1 t3.
Proof. unfold same_shape. intros [-> ->] [-> ->]. done. Qed.

Lemma delete_insert_next {A} (l : list A) (k : nat) (x y : A) :
  l !! k = Some x → l !! S k = Some y → delete k (<[S k := x]> l) = delete (S k) l.
Proof.
  revert k. induction l as [|a l IH]; intros [|k] Hx Hy; simplify_eq/=; [by destruct l|]. f_equal. by apply IH.
Qed.

(** A segment of an internal node: the one before it takes its place. *)
Lemma remove_internal_spec fuel h t k it s Q :
  (∀ h t k it s Q, is_tree h t → items t !! k = Some (it, s) → in_leaf h it → done_with Q (delete k (flat t)) k →
     wp (remove_seg fuel it) h Q) →
  is_tree h t → items t !! k = Some (it, s) → (∀ nd, nodes h !! it.1 = Some nd → hasChildren nd = true) →
  done_with Q (delete k (flat t)) k → wp (remove_seg (S fuel) it) h Q.
Proof.
  intros Hleaf Ht Hx Hint HQ. destruct it as [n i]. destruct (item_node _ _ _ _ _ _ Ht Hx) as [nd E].
  assert (Hc := Hint nd E).
  destruct (internal_prev h t k n i s nd) as (c & [v sv] & k' & -> & Ec & Ev & Hv & Hlv); [done|done|done|done|].
  destruct (leaf_gaps h t k' v sv Ht Hv Hlv) as [Hgv _]. apply items_at in Hx as Hxx. apply items_at in Hv as Hvv. destruct Hxx as [Hx1 Hx2]. destruct Hvv as [Hv1 Hv2].
  cbn [remove_seg]. wp_step. wp_step. rewrite Hc.
  wp_step. eapply wp_eq; [by eapply (PrevSegment_spec h t (S k') ((n, i), s))|]. simpl prev_at. rewrite Hv.
  wp_step. eapply wp_lift; [done|]. cbn [fst]. wp_step. eapply wp_eq; [by eapply (seg_Range_spec h t k' (v, sv))|]. cbn [fst snd].
  wp_step. eapply SetRangeUnchecked_spec; [done|exact Hx|]. intros h1 t1 Ht1 Hs1 Hf1.
  assert (Hlen := lookup_lt_Some _ _ _ Hx2).
  assert (Hv' : items t1 !! k' = Some (v, sv)).
  { apply items_at. rewrite (proj1 Hs1), Hf1, list_lookup_insert_ne by lia. done. }
  wp_step. eapply wp_eq; [by eapply (seg_Value_spec h1 t1 k' (v, sv))|]. cbn [fst snd].
  assert (Hx' : items t1 !! S k' = Some ((n, i), (sv.1, s.2))).
  { apply items_at. rewrite (proj1 Hs1), Hf1, list_lookup_insert_eq by done. done. }
  wp_step. eapply SetValue_spec; [done|exact Hx'|]. intros h2 t2 Ht2 Hs2 Hf2. pose proof (shape_trans _ _ _ Hs1 Hs2) as [Hsh Hgs].
  assert (Hf : flat t2 = <[S k' := sv]> (flat t)).
  { rewrite Hf2, Hf1, list_insert_insert_eq. by destruct sv. }
  assert (Hx'' : items t2 !! S k' = Some ((n, i), sv)).
  { apply items_at. rewrite Hsh, Hf, list_lookup_insert_eq by done. done. }
  wp_step. eapply wp_eq; [by eapply (NextSegment_spec h2 t2 (S k') ((n, i), sv))|]. wp_step.
  eapply (Hleaf h2 t2 k' v sv); [done| | |].
  - apply items_at. rewrite Hsh, Hf, list_lookup_insert_ne by lia. done.
  - destruct Ht2 as [Hr2 _]. eapply gap_leaf_node; [exact Hr2|]. eapply list_elem_of_lookup_2. by rewrite Hgs.
  - intros h3 t3 g Ht3 Hf3 Hg3. assert (Hf' : flat t3 = delete (S k') (flat t)).
    { rewrite Hf3, Hf. by eapply delete_insert_next. }
    destruct (gap_NextGap_spec h3 t3 k' g Ht3 Hg3) as (g' & Hg' & E').
    { rewrite Hf', length_delete by done. lia. }
    wp_step. eapply wp_eq; [exact E'|]. eapply wp_lift; [done|]. by eapply HQ.
Qed.

(** All but the segment at position [k] are left, and the gap is where it was. *)
Lemma Remove_spec h t k it s Q :
  is_tree h t → items t !! k = Some (it, s) → done_with Q (delete k (flat t)) k → wp (Set_Remove it) h Q.
Proof.
  intros Ht Hx HQ. destruct it as [n i]. destruct (item_node _ _ _ _ _ _ Ht Hx) as [nd E]. unfold Set_Remove.
  destruct (hasChildren nd) eqn:Hc; [|eapply remove_leaf_spec; [done|done|by exists nd|done]].
  eapply remove_internal_spec; [|done|done| |done].
  - intros h1 t1 k1 [n1 i1] s1 Q1 Ht1 Hx1 Hl1 HQ1. by eapply remove_leaf_spec.
  - intros nd' E'. simpl in E'. congruence.
Qed.
End Remove.
