(* ===== verification/SegView.v ===== *)
(** * Segment sets by position

    What a client of the B-tree relies on: the heap holds a list of segments, with an
    iterator for each of them and one for each gap.  Every operation on iterators is
    specified by positions in these lists, so that the clients never look at the tree. *)

From stdpp Require Import base numbers decidable gmap sorting list.
From S2P Require Import SegSet SegHeap SegTree SegIter SegChange SegInsert SegRemove Prelude.

Section View.
Context {Value : Type} `{FL : FunctionsLaws Value}.
Local Abbreviation seg := (Range * Value)%type.
Local Abbreviation pos := (loc * nat)%type.
Implicit Types (t : tree Value) (s : seg) (A B L : list seg) (P G : list pos) (it g : pos).
Implicit Types (h : heap Value).

(** The segments [L] of the set, their iterators [P] and the iterators [G] of the gaps. *)
Definition view h L P G : Prop := ∃ t, is_tree h t ∧ flat t = L ∧ (items t).*1 = P ∧ gaps t = G.

(** ** Lists at a position *)

Lemma view_lengths h L P G : view h L P G → length P = length L ∧ length G = S (length L).
Proof.
  intros (t & [_ [d [_ [Hw _]]]] & <- & <- & <-). unfold flat. rewrite !length_fmap. split; [done|]. by eapply gaps_count.
Qed.

Lemma view_seg h A s B P G : view h (A ++ s :: B) P G → ∃ it, P !! length A = Some it.
Proof.
  intros [E _]%view_lengths. apply lookup_lt_is_Some. rewrite E, length_app. simpl. lia.
Qed.

Lemma view_end h A P G : view h A P G → P !! length A = None.
Proof. intros [E _]%view_lengths. apply lookup_ge_None. lia. Qed.

Lemma view_gap h A B P G : view h (A ++ B) P G → ∃ g, G !! length A = Some g.
Proof. intros [_ E]%view_lengths. apply lookup_lt_is_Some. rewrite E, length_app. lia. Qed.

Lemma lookup_mid A s B : (A ++ s :: B) !! length A = Some s.
Proof. by apply list_lookup_middle. Qed.

Lemma insert_mid A s s' B : <[length A := s']> (A ++ s :: B) = A ++ s' :: B.
Proof. by rewrite insert_app_r_alt, Nat.sub_diag. Qed.

Lemma prev_snoc {X} (P : list X) A s : prev_at P (length (A ++ [s])) = P !! length A.
Proof. by rewrite length_app, Nat.add_comm. Qed.

Lemma next_snoc A s : length (A ++ [s]) = S (length A).
Proof. rewrite length_app. simpl. lia. Qed.

Lemma snoc_app A s B : (A ++ [s]) ++ B = A ++ s :: B.
Proof. by rewrite <- (assoc_L (++)). Qed.

(** ** Reading *)

Lemma wp_Range h A s B P G it Q :
  view h (A ++ s :: B) P G → P !! length A = Some it → Q s.1 h → wp (seg_Range it) h Q.
Proof.
  intros (t & Ht & Ef & <- & _) Hit HQ. eapply wp_eq; [|exact HQ]. apply (seg_Range_spec h t (length A) (it, s)); [done|].
  apply items_at. by rewrite Ef, lookup_mid.
Qed.

Lemma wp_Value h A s B P G it Q :
  view h (A ++ s :: B) P G → P !! length A = Some it → Q s.2 h → wp (seg_Value it) h Q.
Proof.
  intros (t & Ht & Ef & <- & _) Hit HQ. eapply wp_eq; [|exact HQ]. apply (seg_Value_spec h t (length A) (it, s)); [done|].
  apply items_at. by rewrite Ef, lookup_mid.
Qed.

Lemma wp_Start h A s B P G it Q :
  view h (A ++ s :: B) P G → P !! length A = Some it → Q (r_Start s.1) h → wp (seg_Start it) h Q.
Proof. intros Hv Hit HQ. eapply wp_bind, wp_Range, wp_ret; done. Qed.

Lemma wp_End h A s B P G it Q :
  view h (A ++ s :: B) P G → P !! length A = Some it → Q (r_End s.1) h → wp (seg_End it) h Q.
Proof. intros Hv Hit HQ. eapply wp_bind, wp_Range, wp_ret; done. Qed.

(** The item behind an iterator. *)
Lemma view_item t k it : (items t).*1 !! k = Some it → ∃ x, items t !! k = Some x ∧ x.1 = it.
Proof. rewrite list_lookup_fmap. intros (x & E & ->)%fmap_Some. by exists x. Qed.

Lemma wp_NextSegment h L P G k it Q :
  view h L P G → P !! k = Some it → Q (P !! S k) h → wp (NextSegment it) h Q.
Proof.
  intros (t & Ht & _ & <- & _) Hit HQ. destruct (view_item _ _ _ Hit) as (x & Hx & <-).
  eapply wp_eq; [by eapply NextSegment_spec|]. by rewrite <- list_lookup_fmap.
Qed.

Lemma wp_PrevSegment h L P G k it Q :
  view h L P G → P !! k = Some it → Q (prev_at P k) h → wp (PrevSegment it) h Q.
Proof.
  intros (t & Ht & _ & <- & _) Hit HQ. destruct (view_item _ _ _ Hit) as (x & Hx & <-).
  eapply wp_eq; [by eapply PrevSegment_spec|]. by rewrite <- prev_at_fmap.
Qed.

Lemma wp_NextGap h L P G k it Q :
  view h L P G → P !! k = Some it → (∀ g, G !! S k = Some g → Q g h) → wp (NextGap it) h Q.
Proof.
  intros (t & Ht & _ & <- & <-) Hit HQ. destruct (view_item _ _ _ Hit) as (x & Hx & <-).
  destruct (NextGap_spec _ _ _ _ Ht Hx) as (g & Hg & E). eapply wp_eq; [exact E|]. by apply HQ.
Qed.

Lemma wp_PrevGap h L P G k it Q :
  view h L P G → P !! k = Some it → (∀ g, G !! k = Some g → Q g h) → wp (PrevGap it) h Q.
Proof.
  intros (t & Ht & _ & <- & <-) Hit HQ. destruct (view_item _ _ _ Hit) as (x & Hx & <-).
  destruct (PrevGap_spec _ _ _ _ Ht Hx) as (g & Hg & E). eapply wp_eq; [exact E|]. by apply HQ.
Qed.

Lemma wp_gap_NextSegment h L P G k g Q :
  view h L P G → G !! k = Some g → Q (P !! k) h → wp (gap_NextSegment g) h Q.
Proof.
  intros (t & Ht & _ & <- & <-) Hg HQ. eapply wp_eq; [by eapply gap_NextSegment_spec|]. by rewrite <- list_lookup_fmap.
Qed.

Lemma wp_gap_PrevSegment h L P G k g Q :
  view h L P G → G !! k = Some g → Q (prev_at P k) h → wp (gap_PrevSegment g) h Q.
Proof.
  intros (t & Ht & _ & <- & <-) Hg HQ. eapply wp_eq; [by eapply gap_PrevSegment_spec|]. by rewrite <- prev_at_fmap.
Qed.

Lemma wp_gap_End h L P G k g Q :
  view h L P G → G !! k = Some g → Q (gap_upper L k) h → wp (gap_End g) h Q.
Proof. intros (t & Ht & <- & _ & <-) Hg HQ. by eapply wp_eq; [by eapply gap_End_spec|]. Qed.

Lemma wp_gap_Start h L P G k g Q :
  view h L P G → G !! k = Some g → Q (gap_lower L k) h → wp (gap_Start g) h Q.
Proof. intros (t & Ht & <- & _ & <-) Hg HQ. by eapply wp_eq; [by eapply gap_Start_spec|]. Qed.

Lemma wp_gap_Range h L P G k g Q :
  view h L P G → G !! k = Some g → Q (mkRange (gap_lower L k) (gap_upper L k)) h → wp (gap_Range g) h Q.
Proof. intros (t & Ht & <- & _ & <-) Hg HQ. by eapply wp_eq; [by eapply gap_Range_spec|]. Qed.

Lemma wp_IsEmpty h L P G Q : view h L P G → Q (bool_decide (L = [])) h → wp IsEmpty h Q.
Proof.
  intros (t & Ht & <- & _) HQ. eapply wp_eq; [by eapply IsEmpty_spec|]. replace (bool_decide (items t = [])) with (bool_decide (flat t = [])); [done|].
  apply bool_decide_ext. unfold flat. by destruct (items t).
Qed.

Lemma wp_FirstSegment h L P G Q : view h L P G → Q (P !! 0) h → wp FirstSegment h Q.
Proof. intros (t & Ht & _ & <- & _) HQ. eapply wp_eq; [by eapply FirstSegment_spec|]. by rewrite <- list_lookup_fmap. Qed.

Lemma wp_LastSegment h L P G Q : view h L P G → Q (last P) h → wp LastSegment h Q.
Proof. intros (t & Ht & _ & <- & _) HQ. eapply wp_eq; [by eapply LastSegment_spec|]. by rewrite <- fmap_last. Qed.

Lemma wp_FirstGap h L P G Q : view h L P G → (∀ g, G !! 0 = Some g → Q g h) → wp FirstGap h Q.
Proof.
  intros (t & Ht & _ & _ & <-) HQ. destruct (FirstGap_spec _ _ Ht) as (g & E & Hg). eapply wp_eq; [exact E|]. by apply HQ.
Qed.

Lemma wp_LastGap h L P G Q : view h L P G → (∀ g, G !! length L = Some g → Q g h) → wp LastGap h Q.
Proof.
  intros Hv HQ. pose proof (view_lengths _ _ _ _ Hv) as [_ Hl]. destruct Hv as (t & Ht & _ & _ & <-).
  destruct (LastGap_spec _ _ Ht) as (g & E & Hg). eapply wp_eq; [exact E|]. apply HQ. by rewrite last_lookup, Hl in Hg.
Qed.

Lemma wp_Find h L P G key Q :
  view h L P G → segs_ok L →
  (∀ A s B it, L = A ++ s :: B → (r_Start s.1 <= key < r_End s.1)%Z → P !! length A = Some it → Q (Some it, None) h) →
  (∀ A B g, L = A ++ B → Forall (below key) A → Forall (above key) B → G !! length A = Some g → Q (None, Some g) h) →
  wp (Find key) h Q.
Proof.
  intros (t & Ht & <- & <- & <-) Hok Hs Hg. destruct (Find_spec _ _ key Ht Hok) as (r & E & Hr). eapply wp_eq; [exact E|].
  destruct Hr as [(k & [it s] & -> & [Hi Hf]%items_at & Hc)|(k & g & -> & Hk & Hb & Ha)].
  - pose proof (take_drop_middle _ _ _ Hf) as Em. pose proof (lookup_lt_Some _ _ _ Hf) as Hlt. unfold Contains in Hc.
    apply (Hs (take k (flat t)) s (drop (S k) (flat t))); [done|simpl in Hc; lia|]. by rewrite length_take_le by lia.
  - pose proof (lookup_lt_Some _ _ _ Hk) as Hlt. pose proof Ht as [_ [d [_ [Hw _]]]]. rewrite (gaps_count d) in Hlt by done.
    apply (Hg (take k (flat t)) (drop k (flat t))); [by rewrite take_drop|done|done|].
    rewrite length_take_le; [done|]. unfold flat. rewrite length_fmap. lia.
Qed.

(** ** Writing *)

Lemma wp_SetRange h A s B P G it r Q :
  view h (A ++ s :: B) P G → P !! length A = Some it → (∀ h', view h' (A ++ (r, s.2) :: B) P G → Q () h') →
  wp (SetRangeUnchecked it r) h Q.
Proof.
  intros (t & Ht & Ef & <- & <-) Hit HQ. eapply (SetRangeUnchecked_spec h t (length A) it s); [done| |].
  { apply items_at. by rewrite Ef, lookup_mid. }
  intros h' t' Ht' [Es Eg] Ef'. apply HQ. exists t'. by rewrite Ef', Ef, insert_mid.
Qed.

Lemma wp_SetValue h A s B P G it v Q :
  view h (A ++ s :: B) P G → P !! length A = Some it → (∀ h', view h' (A ++ (s.1, v) :: B) P G → Q () h') →
  wp (SetValue it v) h Q.
Proof.
  intros (t & Ht & Ef & <- & <-) Hit HQ. eapply (SetValue_spec h t (length A) it s); [done| |].
  { apply items_at. by rewrite Ef, lookup_mid. }
  intros h' t' Ht' [Es Eg] Ef'. apply HQ. exists t'. by rewrite Ef', Ef, insert_mid.
Qed.

Lemma wp_InsertUnchecked h A B P G g r v Q :
  view h (A ++ B) P G → G !! length A = Some g →
  (∀ h' P' G' it, view h' (A ++ (r, v) :: B) P' G' → P' !! length A = Some it → Q it h') →
  wp (InsertWithoutMergingUnchecked g r v) h Q.
Proof.
  intros (t & Ht & Ef & <- & <-) Hg HQ. eapply InsertWithoutMergingUnchecked_spec; [done|done|].
  intros h' t' it Ht' Ef' Hit. eapply HQ; [|exact Hit]. exists t'. split; [done|]. split; [|done].
  by rewrite Ef', Ef, take_app_length, drop_app_length.
Qed.

Lemma wp_Remove h A s B P G it Q :
  view h (A ++ s :: B) P G → P !! length A = Some it →
  (∀ h' P' G' g, view h' (A ++ B) P' G' → G' !! length A = Some g → Q g h') →
  wp (Set_Remove it) h Q.
Proof.
  intros (t & Ht & Ef & <- & <-) Hit HQ. eapply (Remove_spec h t (length A) it s); [done| |].
  { apply items_at. by rewrite Ef, lookup_mid. }
  rewrite Ef, delete_middle. intros h' t' g Ht' Ef' Hg. eapply HQ; [|exact Hg]. by exists t'.
Qed.

Lemma wp_SetEnd h A s B P G it e Q :
  view h (A ++ s :: B) P G → P !! length A = Some it →
  (∀ h', view h' (A ++ (mkRange (r_Start s.1) e, s.2) :: B) P G → Q () h') → wp (SetEndUnchecked it e) h Q.
Proof. intros Hv Hit HQ. eapply wp_bind, wp_Range, wp_SetRange; done. Qed.

Lemma wp_SetStart h A s B P G it b Q :
  view h (A ++ s :: B) P G → P !! length A = Some it →
  (∀ h', view h' (A ++ (mkRange b (r_End s.1), s.2) :: B) P G → Q () h') → wp (SetStartUnchecked it b) h Q.
Proof. intros Hv Hit HQ. eapply wp_bind, wp_Range, wp_SetRange; done. Qed.

(** ** Sets without segments *)

Lemma arr_replicate {X} (cap : nat) (x : X) : arr cap (replicate cap x) [].
Proof. apply arr_nil, length_replicate. Qed.

Lemma new_root_view h : nodes h !! root = Some (new_node 0 None 0 false) → 1 ≤ next h → view h [] [] [(root, 0)].
Proof.
  intros E Hn. exists (T root [] []). split; [|done]. split; [split; [done|]|].
  - split; [by apply NoDup_singleton|]. apply Forall_singleton. split; [simpl; lia|]. eexists. split; [exact E|].
    constructor; try done; apply arr_replicate.
  - exists 0. split; [done|]. split; [|by left]. split; [simpl; lia|done].
Qed.

Lemma empty_set_view : view empty_set [] [] [(root, 0)].
Proof. apply new_root_view; [done|simpl; lia]. Qed.

Lemma wp_RemoveAll h L P G Q : view h L P G → (∀ h', view h' [] [] [(root, 0)] → Q () h') → wp RemoveAll h Q.
Proof.
  intros (t & [[Hroot Hm] _] & _) HQ. destruct t as [l ss ks]. simpl in Hroot. subst l.
  destruct Hm as [_ Hc]. unfold cells in Hc. apply Forall_cons in Hc as [[Hlt (nd & E & _)] _]. simpl in *.
  eapply wp_modify; [exact E|]. apply HQ, new_root_view; simpl; [by rewrite lookup_insert_eq|lia].
Qed.

(** ** The number of segments *)

Lemma weave_bound {X} (xs : list (list X)) (ys : list X) : length (weave xs ys) ≤ length ys + length (concat xs).
Proof.
  revert ys. induction xs as [|x xs IH]; intros [|y ys]; simpl; rewrite ?length_app; [lia..|].
  simpl. specialize (IH ys). lia.
Qed.

Lemma items_bound d t : wf d t → length (items t) ≤ S (length (sub_cells t)) * (maxDegree - 1).
Proof.
  revert t. induction d as [|d IH]; intros [l ss ks] Hw.
  - destruct Hw as [Hss ->]. rewrite items_eq. cbn. rewrite length_nitems. lia.
  - apply wf_kids in Hw as (Hss & _ & Hk). rewrite items_eq, sub_cells_eq.
    etransitivity; [apply weave_bound|]. rewrite length_nitems, length_app, <- (length_fmap c_loc (roots _ _ _)), roots_loc, length_fmap.
    assert (Hc : length (concat (items <$> ks)) ≤ (length ks + length (subs ks)) * (maxDegree - 1)); [|lia].
    clear Hss. induction Hk as [|k ks [_ Hk] _ IHk]; [simpl; lia|]. rewrite fmap_cons, subs_cons. simpl. rewrite !length_app.
    specialize (IH k Hk). lia.
Qed.

(** The loops over a set have enough fuel. *)
Lemma wp_set_fuel h L P G Q : view h L P G → (∀ fuel, length L < fuel → Q fuel h) → wp set_fuel h Q.
Proof.
  intros (t & [[_ Hm] [d (_ & Hw & _)]] & <- & _) HQ. eexists _, _. split; [done|]. apply HQ.
  apply models_bound in Hm. simpl in Hm. pose proof (items_bound d t Hw) as Hb. unfold flat. rewrite length_fmap.
  pose proof minDegree_3. assert (6 ≤ maxDegree) by (unfold maxDegree; lia). nia.
Qed.
End View.
