(* ===== verification/SegOps.v ===== *)
(** * The operations of a segment set as operations on lists

    For each operation, the list of segments it leaves and the position of the iterator it
    returns.  A position is given by the segments [A] before it: [P !! length A] is the
    iterator of the segment after them, [G !! length A] the one of the gap after them. *)

From stdpp Require Import base numbers decidable gmap sorting list.
From S2P Require Import SegSet SegHeap SegIter SegView Prelude.

(** One step of a program on a set whose view is known. *)
Ltac view_step :=
  lazymatch goal with
  | |- wp (mbind _ _) _ _ => apply wp_bind
  | |- wp (mret _) _ _ => apply wp_ret
  | |- wp (lift (Some _)) _ _ => eapply wp_lift; [reflexivity|]
  | |- wp (seg_Range ?it) _ _ => eapply (wp_Range _ _ _ _ _ _ it); [|eassumption|cbn [fst snd]]; [eassumption|]
  | |- wp (seg_Value ?it) _ _ => eapply (wp_Value _ _ _ _ _ _ it); [|eassumption|cbn [fst snd]]; [eassumption|]
  | |- wp (seg_Start ?it) _ _ => eapply (wp_Start _ _ _ _ _ _ it); [|eassumption|cbn [fst snd]]; [eassumption|]
  | |- wp (seg_End ?it) _ _ => eapply (wp_End _ _ _ _ _ _ it); [|eassumption|cbn [fst snd]]; [eassumption|]
  | |- wp (SetEndUnchecked ?it _) _ _ => eapply (wp_SetEnd _ _ _ _ _ _ it); [|eassumption|cbn [fst snd]]; [eassumption|]
  | |- wp (SetStartUnchecked ?it _) _ _ => eapply (wp_SetStart _ _ _ _ _ _ it); [|eassumption|cbn [fst snd]]; [eassumption|]
  | |- wp (SetValue ?it _) _ _ => eapply (wp_SetValue _ _ _ _ _ _ it); [|eassumption|cbn [fst snd]]; [eassumption|]
  end.

Section Ops.
Context {Value : Type} `{FL : FunctionsLaws Value}.
Local Abbreviation seg := (Range * Value)%type.
Local Abbreviation pos := (loc * nat)%type.
Implicit Types (s m : seg) (A B L : list seg) (P G : list pos) (it g : pos) (r : Range) (v : Value).
Implicit Types (h : heap Value).

(** A panic after a program that runs. *)
Lemma fails_bind {X Y} (p : prog Value X) (k : X → prog Value Y) h : wp p h (λ a h', k a h' = None) → (p ≫= k) h = None.
Proof. intros (a & h' & E & Ek). cbv [mbind prog_bind]. by rewrite E. Qed.

(** ** Merging *)

(** Two neighbouring segments as one, if they can be merged. *)
Definition join s1 s2 : option seg :=
  if decide (r_End s1.1 = r_Start s2.1) then
    v ← MergeValues s1.1 s1.2 s2.1 s2.2; Some (mkRange (r_Start s1.1) (r_End s2.1), v)
  else None.

Lemma wp_MergeUnchecked h A s1 s2 B P G i1 i2 Q :
  view h (A ++ s1 :: s2 :: B) P G → P !! length A = Some i1 → P !! S (length A) = Some i2 →
  (∀ m h' P' G' it, join s1 s2 = Some m → view h' (A ++ m :: B) P' G' → P' !! length A = Some it → Q (Some it) h') →
  (join s1 s2 = None → Q None h) →
  wp (MergeUnchecked i1 i2) h Q.
Proof.
  intros Hv H1 H2 HS HN. unfold join in *. rewrite <- (next_snoc A s1) in H2.
  assert (Hv2 : view h ((A ++ [s1]) ++ s2 :: B) P G) by (by rewrite snoc_app).
  unfold MergeUnchecked. repeat view_step.
  case_decide as Hadj; [rewrite (proj2 (Z.eqb_eq _ _) Hadj)|rewrite (proj2 (Z.eqb_neq _ _) Hadj); view_step; by apply HN].
  repeat view_step. destruct (MergeValues _ _ _ _) as [mv|]; [|view_step; by apply HN].
  repeat view_step. intros h1 Hv1. repeat view_step. intros h2 Hv2'. clear Hv Hv2 Hv1. repeat view_step.
  eapply (wp_Remove h2 (A ++ [_]) s2); [by rewrite snoc_app| |]. { rewrite <- H2. f_equal. by rewrite !next_snoc. }
  intros h3 P' G' g Hv3 Hg. eapply wp_gap_PrevSegment; [exact Hv3|exact Hg|]. rewrite prev_snoc.
  rewrite snoc_app in Hv3. destruct (view_seg _ _ _ _ _ _ Hv3) as [it Hit]. rewrite Hit. by eapply HS.
Qed.

(** A segment merged with the first of the ones after it, and with the last of the ones
    before it. *)
Definition join_next s B : list seg :=
  match B with
  | [] => [s]
  | n :: B' => match join s n with Some m => m :: B' | None => s :: B end
  end.

Definition join_prev A s : list seg * seg :=
  match last A with
  | None => (A, s)
  | Some p => match join p s with Some m => (removelast A, m) | None => (A, s) end
  end.

Lemma join_prev_snoc A p s :
  join_prev (A ++ [p]) s = match join p s with Some m => (A, m) | None => (A ++ [p], s) end.
Proof. unfold join_prev. by rewrite last_snoc, removelast_last. Qed.

Lemma join_prev_cons a A s : A ≠ [] → join_prev (a :: A) s = (a :: (join_prev A s).1, (join_prev A s).2).
Proof.
  intros Hne. destruct A as [|p A _] using rev_ind; [done|]. rewrite (join_prev_snoc A), (join_prev_snoc (a :: A) p s : join_prev (a :: A ++ [p]) s = _).
  by destruct (join p s).
Qed.

(** The position of a segment in terms of the ones before it. *)
Lemma view_snoc h A p s B P G : view h ((A ++ [p]) ++ s :: B) P G → ∃ it, P !! length A = Some it.
Proof. rewrite snoc_app. apply view_seg. Qed.

Lemma wp_MergePrev h A s B P G it Q :
  view h (A ++ s :: B) P G → P !! length A = Some it →
  (∀ h' P' G' it', view h' ((join_prev A s).1 ++ (join_prev A s).2 :: B) P' G' →
     P' !! length (join_prev A s).1 = Some it' → Q it' h') →
  wp (MergePrev it) h Q.
Proof.
  intros Hv Hit HQ. unfold MergePrev. view_step. eapply wp_PrevSegment; [done|done|].
  destruct A as [|p A _] using rev_ind; [cbn; view_step; by eapply HQ|]. rewrite prev_snoc. rewrite join_prev_snoc in HQ.
  destruct (view_snoc _ _ _ _ _ _ _ Hv) as [ip Hip]. rewrite Hip. rewrite snoc_app in Hv. rewrite next_snoc in Hit. view_step.
  eapply wp_MergeUnchecked; [done|done|done| |].
  - intros m h' P' G' it' E Hv' Hit'. view_step. rewrite E in HQ. by eapply HQ.
  - intros E. view_step. rewrite E in HQ. cbn [fst snd] in HQ. eapply HQ; [by rewrite snoc_app|]. by rewrite next_snoc.
Qed.

Lemma wp_MergeNext h A s B P G it Q :
  view h (A ++ s :: B) P G → P !! length A = Some it →
  (∀ h' P' G' it', view h' (A ++ join_next s B) P' G' → P' !! length A = Some it' → Q it' h') →
  wp (MergeNext it) h Q.
Proof.
  intros Hv Hit HQ. unfold MergeNext. view_step. eapply wp_NextSegment; [done|done|]. rewrite <- (next_snoc A s).
  destruct B as [|n B].
  { rewrite (view_end _ _ _ _ Hv). view_step. by eapply HQ. }
  destruct (view_seg h (A ++ [s]) n B P G) as [i2 H2]; [by rewrite snoc_app|]. rewrite H2. rewrite next_snoc in H2. view_step.
  eapply wp_MergeUnchecked; [done|done|done| |].
  - intros m h' P' G' it' E Hv' Hit'. view_step. simpl in HQ. rewrite E in HQ. by eapply HQ.
  - intros E. view_step. simpl in HQ. rewrite E in HQ. by eapply HQ.
Qed.

(** A segment merged with both neighbours. *)
Definition join_both A s B : list seg := (join_prev A s).1 ++ join_next (join_prev A s).2 B.

(** What holds of all segments, if merging keeps it. *)
Lemma join_both_Forall (Φ : seg → Prop) A s B :
  (∀ s1 s2 m, Φ s1 → Φ s2 → join s1 s2 = Some m → Φ m) → Forall Φ (A ++ s :: B) → Forall Φ (join_both A s B).
Proof.
  intros Hj [HA [Hs HB]%Forall_cons]%Forall_app. unfold join_both.
  assert (Hn : ∀ m, Φ m → Forall Φ (join_next m B)).
  { intros m Hm. destruct B as [|n B]; [by constructor|]. simpl. pose proof HB as [Hhd HB']%Forall_cons.
    destruct (join m n) as [m'|] eqn:E; [constructor; [exact (Hj _ _ _ Hm Hhd E)|done]|by constructor]. }
  destruct A as [|p A _] using rev_ind; [by apply Hn|]. rewrite join_prev_snoc. apply Forall_app in HA as [HA [Hp _]%Forall_cons].
  destruct (join p s) as [m|] eqn:E; cbn [fst snd]; apply Forall_app.
  - split; [done|]. exact (Hn _ (Hj _ _ _ Hp Hs E)).
  - split; [|by apply Hn]. apply Forall_app. by rewrite Forall_singleton.
Qed.

Lemma wp_Unisolate h A s B P G it Q :
  view h (A ++ s :: B) P G → P !! length A = Some it →
  (∀ h' P' G' it', view h' (join_both A s B) P' G' → P' !! length (join_prev A s).1 = Some it' → Q it' h') →
  wp (Unisolate it) h Q.
Proof.
  intros Hv Hit HQ. unfold Unisolate. view_step. eapply wp_MergePrev; [done|done|]. intros h' P' G' it' Hv' Hit'.
  by eapply wp_MergeNext.
Qed.

(** All segments, each merged with the ones after it as long as they can be. *)
Fixpoint join_from s L : list seg :=
  match L with
  | [] => [s]
  | n :: L => match join s n with Some m => join_from m L | None => s :: join_from n L end
  end.

Definition join_all L : list seg := match L with [] => [] | s :: L => join_from s L end.

Lemma wp_merge_all fuel h A s B P G it Q :
  view h (A ++ s :: B) P G → P !! length A = Some it → length B < fuel →
  (∀ h' P' G', view h' (A ++ join_from s B) P' G' → Q () h') →
  wp (merge_all fuel it (P !! S (length A))) h Q.
Proof.
  revert h A s B P G it. induction fuel as [|fuel IH]; intros h A s B P G it Hv Hit Hf HQ; [lia|]. cbn [merge_all].
  destruct B as [|n B]; simpl in Hf, HQ.
  { rewrite <- (next_snoc A s), (view_end _ _ _ _ Hv). view_step. by eapply HQ. }
  destruct (view_seg h (A ++ [s]) n B P G) as [i2 H2]; [by rewrite snoc_app|]. rewrite next_snoc in H2. rewrite H2. view_step.
  eapply wp_MergeUnchecked; [done|done|done| |].
  - intros m h' P' G' it' E Hv' Hit'. rewrite E in HQ. view_step. eapply wp_NextSegment; [done|done|].
    eapply IH; [done|done|lia|done].
  - intros E. rewrite E in HQ. view_step. eapply wp_NextSegment; [done|done|]. rewrite <- (next_snoc A s) in *.
    eapply (IH h (A ++ [s]) n B); [by rewrite snoc_app|done|lia|]. intros h' P' G'. rewrite snoc_app. apply HQ.
Qed.

Lemma wp_MergeAll h L P G Q :
  view h L P G → (∀ h' P' G', view h' (join_all L) P' G' → Q () h') → wp MergeAll h Q.
Proof.
  intros Hv HQ. unfold MergeAll. view_step. eapply wp_FirstSegment; [done|]. destruct L as [|s L].
  { rewrite (view_end h [] P G Hv : P !! 0 = None). view_step. by eapply HQ. }
  destruct (view_seg h [] s L P G Hv) as [it Hit]. cbn [length] in Hit. rewrite Hit. view_step.
  eapply wp_NextSegment; [done|exact Hit|]. view_step. eapply wp_set_fuel; [done|]. intros fuel Hf. simpl in Hf.
  eapply (wp_merge_all fuel h [] s L P G); [done|done|lia|done].
Qed.

(** The segments up to the first one that starts at [e] or later, merged. *)
Fixpoint join_inside (e : Z) s L : list seg :=
  match L with
  | [] => [s]
  | n :: L' =>
      if (r_Start n.1 <? e)%Z then
        match join s n with Some m => join_inside e m L' | None => s :: join_inside e n L' end
      else s :: L
  end.

Lemma wp_merge_inside fuel h A s B P G it (e : Z) Q :
  view h (A ++ s :: B) P G → P !! length A = Some it → length B < fuel →
  (∀ h' P' G', view h' (A ++ join_inside e s B) P' G' → Q () h') →
  wp (merge_inside fuel e it (P !! S (length A))) h Q.
Proof.
  revert h A s B P G it. induction fuel as [|fuel IH]; intros h A s B P G it Hv Hit Hf HQ; [lia|]. cbn [merge_inside].
  destruct B as [|n B]; simpl in Hf, HQ.
  { rewrite <- (next_snoc A s), (view_end _ _ _ _ Hv). cbn [when]. repeat view_step. by eapply HQ. }
  assert (Hv2 : view h ((A ++ [s]) ++ n :: B) P G) by (by rewrite snoc_app).
  destruct (view_seg _ _ _ _ _ _ Hv2) as [i2 H2]. rewrite <- (next_snoc A s), H2. cbn [when]. repeat view_step.
  destruct (r_Start n.1 <? e)%Z; [|view_step; by eapply HQ]. repeat view_step. clear Hv2. rewrite next_snoc in H2.
  eapply wp_MergeUnchecked; [done|done|done| |].
  - intros m h' P' G' it' E Hv' Hit'. rewrite E in HQ. view_step. eapply wp_NextSegment; [done|done|].
    eapply IH; [done|done|lia|done].
  - intros E. rewrite E in HQ. view_step. eapply wp_NextSegment; [done|done|]. rewrite <- (next_snoc A s) in *.
    eapply (IH h (A ++ [s]) n B); [by rewrite snoc_app|done|lia|]. intros h' P' G'. rewrite snoc_app. apply HQ.
Qed.

(** [Set_Merge] of neighbours does not panic. *)
Lemma wp_Merge h A s1 s2 B P G i1 i2 Q :
  view h (A ++ s1 :: s2 :: B) P G → P !! length A = Some i1 → P !! S (length A) = Some i2 →
  (∀ m h' P' G' it, join s1 s2 = Some m → view h' (A ++ m :: B) P' G' → P' !! length A = Some it → Q (Some it) h') →
  (join s1 s2 = None → Q None h) →
  wp (Set_Merge i1 i2) h Q.
Proof.
  intros Hv H1 H2 HS HN. unfold Set_Merge. view_step. eapply wp_NextSegment; [done|done|]. rewrite H2, decide_True by done.
  by eapply wp_MergeUnchecked.
Qed.

(** ** Insertion *)

Lemma join_inv s1 s2 m :
  join s1 s2 = Some m ↔
  r_End s1.1 = r_Start s2.1 ∧ ∃ v, MergeValues s1.1 s1.2 s2.1 s2.2 = Some v ∧ m = (mkRange (r_Start s1.1) (r_End s2.1), v).
Proof.
  unfold join. case_decide as E; [|naive_solver]. destruct (MergeValues _ _ _ _) as [v|]; simpl; naive_solver.
Qed.

Lemma join_None s1 s2 : r_End s1.1 = r_Start s2.1 → join s1 s2 = None → MergeValues s1.1 s1.2 s2.1 s2.2 = None.
Proof. unfold join. intros E. rewrite decide_True by done. by destruct (MergeValues _ _ _ _). Qed.

(** Whether the last of the segments before a place ends after [x], and whether the first one
    after it starts before [x]. *)
Definition ends_after A (x : Z) : bool := match last A with Some p => (x <? r_End p.1)%Z | None => false end.

Definition starts_before B (x : Z) : bool := match head B with Some n => (r_Start n.1 <? x)%Z | None => false end.

Lemma wp_when_prev h A B P G (x : Z) Q :
  view h (A ++ B) P G → Q (ends_after A x) h →
  wp (when (prev_at P (length A)) (λ prev, e ← seg_End prev; mret (x <? e)%Z)) h Q.
Proof.
  unfold ends_after. intros Hv HQ. destruct A as [|p A _] using rev_ind; [by apply wp_ret|]. rewrite snoc_app in Hv.
  destruct (view_seg _ _ _ _ _ _ Hv) as [ip Hip]. rewrite prev_snoc, Hip. rewrite last_snoc in HQ. cbn [when]. by repeat view_step.
Qed.

Lemma wp_when_next h A B P G (x : Z) Q :
  view h (A ++ B) P G → Q (starts_before B x) h →
  wp (when (P !! length A) (λ next, s ← seg_Start next; mret (s <? x)%Z)) h Q.
Proof.
  unfold starts_before. intros Hv HQ. destruct B as [|n B].
  { rewrite app_nil_r in Hv. rewrite (view_end _ _ _ _ Hv). by apply wp_ret. }
  destruct (view_seg _ _ _ _ _ _ Hv) as [it Hit]. rewrite Hit. cbn [when]. by repeat view_step.
Qed.

Lemma wp_extend_next h A (b : Z) v0 r1 B P G it Q :
  view h (A ++ (mkRange b (r_End r1), v0) :: B) P G → P !! length A = Some it →
  (∀ h' P' G' it', view h' (A ++ join_next (mkRange b (r_End r1), v0) B) P' G' → P' !! length A = Some it' → Q it' h') →
  wp (extend_next it v0 r1 (P !! S (length A))) h Q.
Proof.
  set (m := (mkRange b (r_End r1), v0)). intros Hv Hit HQ. rewrite <- (next_snoc A m). destruct B as [|n B].
  { rewrite (view_end _ _ _ _ Hv). cbn [extend_next]. view_step. by eapply HQ. }
  assert (Hv2 : view h ((A ++ [m]) ++ n :: B) P G) by (by rewrite snoc_app).
  destruct (view_seg _ _ _ _ _ _ Hv2) as [i2 H2]. rewrite H2. cbn [extend_next]. repeat view_step.
  simpl in HQ. unfold join in HQ. cbn [fst snd r_End r_Start m] in HQ.
  case_decide as E; [rewrite (proj2 (Z.eqb_eq _ _) (eq_sym E))|rewrite (proj2 (Z.eqb_neq _ _) (not_eq_sym E)); view_step; by eapply HQ].
  repeat view_step. destruct (MergeValues _ _ _ _) as [mv|]; [|view_step; by eapply HQ]. simpl in HQ.
  repeat view_step. intros h1 Hv1. repeat view_step. intros h2 Hv2'. clear Hv Hv2 Hv1. repeat view_step.
  eapply (wp_Remove h2 (A ++ [_]) n); [by rewrite snoc_app| |]. { rewrite <- H2. f_equal. by rewrite !next_snoc. }
  intros h3 P' G' g Hv3 Hg. view_step. eapply wp_gap_PrevSegment; [exact Hv3|exact Hg|]. rewrite prev_snoc.
  rewrite snoc_app in Hv3. destruct (view_seg _ _ _ _ _ _ Hv3) as [it' Hit']. rewrite Hit'. view_step. by eapply HQ.
Qed.

Lemma wp_insert_next h A r v B P G g Q :
  view h (A ++ B) P G → G !! length A = Some g →
  (∀ h' P' G' it', view h' (A ++ join_next (r, v) B) P' G' → P' !! length A = Some it' → Q it' h') →
  wp (insert_next g r v (P !! length A)) h Q.
Proof.
  intros Hv Hg HQ. unfold insert_next. view_step. destruct B as [|n B].
  { rewrite app_nil_r in Hv. rewrite (view_end _ _ _ _ Hv). view_step. eapply (wp_InsertUnchecked h A []); [by rewrite app_nil_r|done|done]. }
  destruct (view_seg _ _ _ _ _ _ Hv) as [it Hit]. rewrite Hit. repeat view_step.
  simpl in HQ. unfold join in HQ. cbn [fst snd] in HQ.
  case_decide as E; [rewrite (proj2 (Z.eqb_eq _ _) (eq_sym E))|rewrite (proj2 (Z.eqb_neq _ _) (not_eq_sym E)); view_step; by eapply wp_InsertUnchecked].
  repeat view_step. destruct (MergeValues _ _ _ _) as [mv|]; simpl; [|by eapply wp_InsertUnchecked].
  repeat view_step. intros h1 Hv1. repeat view_step. intros h2 Hv2. view_step. by eapply HQ.
Qed.

(** The segment fits between the ones before the gap and the ones after it. *)
Definition fits A r B : Prop :=
  (0 < Length r)%Z ∧ (∀ p, last A = Some p → (r_End p.1 <= r_Start r)%Z) ∧ (∀ n, head B = Some n → (r_End r <= r_Start n.1)%Z).

Lemma decide_fits A r B : fits A r B ↔
  (Length r <=? 0)%Z = false ∧ ends_after A (r_Start r) = false ∧ starts_before B (r_End r) = false.
Proof.
  unfold fits, ends_after, starts_before. rewrite Z.leb_gt.
  destruct (last A) as [p|], (head B) as [n|]; rewrite ?Z.ltb_ge; naive_solver.
Qed.

Lemma wp_Insert h A B P G g r v Q :
  view h (A ++ B) P G → G !! length A = Some g → fits A r B →
  (∀ h' P' G' it, view h' (join_both A (r, v) B) P' G' → P' !! length (join_prev A (r, v)).1 = Some it → Q it h') →
  wp (Insert g r v) h Q.
Proof.
  intros Hv Hg (Hlen & Hp & Hn)%decide_fits HQ. unfold Insert. rewrite Hlen. unfold join_both in HQ.
  view_step. eapply wp_gap_PrevSegment; [done|done|]. view_step. eapply wp_gap_NextSegment; [done|done|].
  view_step. eapply wp_when_prev; [done|]. rewrite Hp.
  view_step. eapply wp_when_next; [done|]. rewrite Hn. view_step.
  destruct A as [|p A _] using rev_ind.
  { cbn [length prev_at] in *. view_step. by eapply (wp_insert_next h []). }
  rewrite snoc_app in Hv. destruct (view_seg _ _ _ _ _ _ Hv) as [ip Hip]. rewrite prev_snoc, Hip. rewrite join_prev_snoc in HQ.
  repeat view_step.
  unfold join in HQ. cbn [fst snd] in HQ.
  assert (Hno : (∀ h' P' G' it, view h' ((A ++ [p]) ++ join_next (r, v) B) P' G' → P' !! length (A ++ [p]) = Some it → Q it h') →
    wp (insert_next g r v (P !! length (A ++ [p]))) h Q).
  { intros HQ'. eapply wp_insert_next; [by rewrite snoc_app|done|exact HQ']. }
  case_decide as E; [rewrite (proj2 (Z.eqb_eq _ _) E)|rewrite (proj2 (Z.eqb_neq _ _) E); view_step; by apply Hno].
  repeat view_step. destruct (MergeValues _ _ _ _) as [mv|]; simpl; [|by apply Hno].
  view_step. view_step. intros h1 Hv1. view_step. view_step. intros h2 Hv2. rewrite next_snoc.
  eapply wp_extend_next; [exact Hv2|exact Hip|exact HQ].
Qed.

Lemma wp_InsertWithoutMerging h A B P G g r v Q :
  view h (A ++ B) P G → G !! length A = Some g → (0 < Length r)%Z →
  IsSupersetOf (mkRange (gap_lower (A ++ B) (length A)) (gap_upper (A ++ B) (length A))) r = true →
  (∀ h' P' G' it, view h' (A ++ (r, v) :: B) P' G' → P' !! length A = Some it → Q it h') →
  wp (InsertWithoutMerging g r v) h Q.
Proof.
  intros Hv Hg Hlen Hs HQ. unfold InsertWithoutMerging. rewrite (proj2 (Z.leb_gt _ _) Hlen). view_step.
  eapply wp_gap_Range; [done|done|]. rewrite Hs. by eapply wp_InsertUnchecked.
Qed.

(** Segments that start at a key or after it. *)
Definition from (e : Z) s : Prop := (e <= r_Start s.1)%Z.

Lemma segs_from e s B : segs_ok (s :: B) → from e s → Forall (from e) (s :: B).
Proof.
  intros (Hv & _ & Hb)%segs_ok_cons Hs. constructor; [done|]. eapply Forall_impl; [exact Hb|]. intros s2 H2.
  unfold from, seg_before, seg_valid in *. lia.
Qed.

Lemma valid_length r v : seg_valid (r, v) → (0 < Length r)%Z.
Proof. intros [H1 H2]. simpl in *. unfold Length. rewrite key_arith_id; lia. Qed.

Lemma gap_upper_app A B : gap_upper (A ++ B) (length A) = match B with n :: _ => r_Start n.1 | [] => MaxKey end.
Proof. unfold gap_upper. rewrite lookup_app_r, Nat.sub_diag by lia. by destruct B. Qed.

Lemma gap_lower_app A B : gap_lower (A ++ B) (length A) = match last A with Some p => r_End p.1 | None => MinKey end.
Proof. unfold gap_lower. by rewrite prev_at_last. Qed.

Lemma below_fits A B r v : seg_valid (r, v) → Forall (below (r_Start r)) A → Forall (from (r_End r)) B → fits A r B.
Proof.
  intros Hr HA HB. split; [by eapply valid_length|]. split.
  - intros p Hp. rewrite Forall_forall in HA. apply HA. apply last_Some in Hp as [A' ->]. set_solver.
  - intros n Hn. destruct B; simplify_eq/=. by apply Forall_cons in HB as [? _].
Qed.

(** The place of a range: it overlaps a segment, or it fits into a gap. *)
Lemma wp_place h L P G r v Q :
  view h L P G → segs_ok L → seg_valid (r, v) →
  (∀ A s B it, L = A ++ s :: B → (r_Start s.1 <= r_Start r < r_End s.1)%Z → P !! length A = Some it → Q (Some it, None) h) →
  (∀ A n B g, L = A ++ n :: B → above (r_Start r) n → (r_Start n.1 < r_End r)%Z → G !! length A = Some g → Q (None, Some g) h) →
  (∀ A B g, L = A ++ B → Forall (below (r_Start r)) A → Forall (from (r_End r)) B → G !! length A = Some g →
    (r_End r <= gap_upper L (length A))%Z → Q (None, Some g) h) →
  wp (Find (r_Start r)) h Q.
Proof.
  intros Hv Hok Hr H1 H2 H3. eapply wp_Find; [done|done|done|]. intros A B g -> HA HB Hg.
  destruct (decide (r_End r <= gap_upper (A ++ B) (length A))%Z) as [Hu|Hu].
  - eapply (H3 A B); [done|done| |done|done]. rewrite gap_upper_app in Hu. destruct B as [|n B]; [done|].
    apply segs_from; [|done]. by apply segs_ok_app in Hok as (_ & Hok & _).
  - rewrite gap_upper_app in Hu. destruct B as [|n B]; [unfold seg_valid in Hr; simpl in Hr; lia|].
    apply Forall_cons in HB as [Hn _]. eapply H2; [done|done|lia|done].
Qed.

Definition overlapping L r : Prop := Exists (λ s, Overlaps s.1 r = true) L.

Lemma overlapping_mid A s B r : (r_Start s.1 < r_End r)%Z → (r_Start r < r_End s.1)%Z → overlapping (A ++ s :: B) r.
Proof. intros H1 H2. apply Exists_exists. exists s. split; [set_solver|]. unfold Overlaps. lia. Qed.

Lemma not_overlapping_gap A B r :
  Forall (below (r_Start r)) A → Forall (from (r_End r)) B → ¬ overlapping (A ++ B) r.
Proof.
  intros HA HB. unfold overlapping. rewrite Exists_app, !Exists_exists. rewrite Forall_forall in HA, HB.
  intros [(s & Hs & E)|(s & Hs & E)]; [specialize (HA s Hs)|specialize (HB s Hs)]; unfold Overlaps, below, from in *; lia.
Qed.
Lemma wp_FindSegment h L P G (key : Z) Q :
  view h L P G → segs_ok L →
  (∀ A s B it, L = A ++ s :: B → (r_Start s.1 <= key < r_End s.1)%Z → P !! length A = Some it → Q (Some it) h) →
  (Forall (λ s, key < r_Start s.1 ∨ r_End s.1 <= key)%Z L → Q None h) →
  wp (FindSegment key) h Q.
Proof.
  intros Hv Hok HS HN. unfold FindSegment. view_step. eapply wp_Find; [done|done| |].
  - intros A s B it E Hs Hit. view_step. by eapply HS.
  - intros A B g -> HA HB _. view_step. apply HN. apply Forall_app.
    split; (eapply Forall_impl; [eassumption|]); unfold below, above; intros s; simpl; lia.
Qed.

(** What the insertions into a range share: [ins] is the insertion into the gap. *)
Lemma wp_try_insert h L P G r v (ins : pos → prog Value pos) (Q : option pos → heap Value → Prop) :
  view h L P G → segs_ok L → seg_valid (r, v) →
  (overlapping L r → Q None h) →
  (∀ A B g, L = A ++ B → Forall (below (r_Start r)) A → Forall (from (r_End r)) B → G !! length A = Some g →
     (r_End r <= gap_upper L (length A))%Z → wp (ins g) h (λ it, Q (Some it))) →
  wp ('(seg, gap) ← Find (r_Start r);
      match seg with
      | Some _ => mret None
      | None =>
          gap ← lift gap;
          e ← gap_End gap;
          if (e <? r_End r)%Z then mret None else s ← ins gap; mret (Some s)
      end) h Q.
Proof.
  intros Hv Hok Hr HN HS. pose proof Hr as [Hr1 Hr2]. simpl in Hr1, Hr2. view_step. eapply wp_place; [done|done|done| | |].
  - intros A s B it -> Hs Hit. view_step. apply HN, overlapping_mid; lia.
  - intros A n B g -> Hn Hlt Hg. view_step. view_step. view_step. eapply wp_gap_End; [done|done|].
    rewrite gap_upper_app, (proj2 (Z.ltb_lt _ _) Hlt). view_step. apply HN, overlapping_mid; [done|].
    apply segs_ok_app in Hok as (_ & Hok & _). apply segs_ok_cons in Hok as ([? ?] & _). unfold above in Hn. lia.
  - intros A B g E HA HB Hg Hu. repeat view_step. eapply wp_gap_End; [done|done|]. rewrite (proj2 (Z.ltb_ge _ _) Hu). view_step.
    eapply wp_mono; [by eapply HS|]. intros it h' HQ. by view_step.
Qed.

Lemma wp_TryInsertRange h L P G r v Q :
  view h L P G → segs_ok L → seg_valid (r, v) →
  (overlapping L r → Q None h) →
  (∀ A B h' P' G' it, L = A ++ B → Forall (below (r_Start r)) A → Forall (from (r_End r)) B →
     view h' (join_both A (r, v) B) P' G' → P' !! length (join_prev A (r, v)).1 = Some it → Q (Some it) h') →
  wp (TryInsertRange r v) h Q.
Proof.
  intros Hv Hok Hr HN HS. unfold TryInsertRange. rewrite (proj2 (Z.leb_gt _ _) (valid_length _ _ Hr)).
  eapply wp_try_insert; [done|done|done|done|]. intros A B g -> HA HB Hg _.
  eapply wp_Insert; [done|done|by eapply below_fits|]. intros. by eapply HS.
Qed.

Lemma wp_TryInsertWithoutMergingRange h L P G r v Q :
  view h L P G → segs_ok L → seg_valid (r, v) →
  (overlapping L r → Q None h) →
  (∀ A B h' P' G' it, L = A ++ B → Forall (below (r_Start r)) A → Forall (from (r_End r)) B →
     view h' (A ++ (r, v) :: B) P' G' → P' !! length A = Some it → Q (Some it) h') →
  wp (TryInsertWithoutMergingRange r v) h Q.
Proof.
  intros Hv Hok Hr HN HS. unfold TryInsertWithoutMergingRange. rewrite (proj2 (Z.leb_gt _ _) (valid_length _ _ Hr)).
  eapply wp_try_insert; [done|done|done|done|]. intros A B g -> HA HB Hg Hu. pose proof Hr as [Hr1 Hr2]. simpl in Hr1, Hr2.
  eapply wp_InsertWithoutMerging; [done|done|by eapply valid_length| |by intros; eapply HS].
  unfold IsSupersetOf. rewrite gap_lower_app. simpl. apply andb_true_iff. split; [|lia].
  destruct (below_fits A B r v Hr HA HB) as (_ & Hp & _). destruct (last A); [specialize (Hp _ eq_refl)|]; lia.
Qed.

(** The variants that panic where these return a terminal iterator. *)
Definition must_Ok {X} (m : prog Value (option X)) : prog Value X := o ← m; lift o.

Lemma bind_assoc {X Y Z} (m : prog Value X) (f : X → prog Value Y) (k : Y → prog Value Z) h :
  ((m ≫= f) ≫= k) h = (m ≫= λ x, f x ≫= k) h.
Proof. cbv [mbind prog_bind]. by destruct (m h) as [[? ?]|]. Qed.

Lemma bind_ext {X Y} (m : prog Value X) (f g : X → prog Value Y) h :
  (∀ x h', f x h' = g x h') → (m ≫= f) h = (m ≫= g) h.
Proof. intros E. cbv [mbind prog_bind]. destruct (m h) as [[? ?]|]; [apply E|done]. Qed.

Lemma bind_ret {X} (m : prog Value X) h : (m ≫= mret) h = m h.
Proof. cbv [mbind prog_bind mret prog_ret]. by destruct (m h) as [[? ?]|]. Qed.

Lemma InsertRange_try r v h : InsertRange r v h = must_Ok (TryInsertRange r v) h.
Proof.
  unfold must_Ok, InsertRange, TryInsertRange. destruct (Length r <=? 0)%Z; [done|]. rewrite bind_assoc.
  apply bind_ext. intros [[seg|] gap] h'; [done|]. rewrite bind_assoc. apply bind_ext. intros g h1. rewrite bind_assoc.
  apply bind_ext. intros e h2. destruct (e <? r_End r)%Z; [done|]. rewrite bind_assoc. symmetry. apply bind_ret.
Qed.

Lemma InsertWithoutMergingRange_try r v h :
  InsertWithoutMergingRange r v h = must_Ok (TryInsertWithoutMergingRange r v) h.
Proof.
  unfold must_Ok, InsertWithoutMergingRange, TryInsertWithoutMergingRange. destruct (Length r <=? 0)%Z; [done|]. rewrite bind_assoc.
  apply bind_ext. intros [[seg|] gap] h'; [done|]. rewrite bind_assoc. apply bind_ext. intros g h1. rewrite bind_assoc.
  apply bind_ext. intros e h2. destruct (e <? r_End r)%Z; [done|]. rewrite bind_assoc. symmetry. apply bind_ret.
Qed.

(** ** Splitting *)

Definition cut s (x : Z) : seg * seg :=
  let '(v1, v2) := SplitValue s.1 s.2 x in ((mkRange (r_Start s.1) x, v1), (mkRange x (r_End s.1), v2)).

Lemma wp_SplitUnchecked h A s B P G it x Q :
  view h (A ++ s :: B) P G → P !! length A = Some it →
  (∀ h' P' G' i1 i2, view h' (A ++ (cut s x).1 :: (cut s x).2 :: B) P' G' →
     P' !! length A = Some i1 → P' !! S (length A) = Some i2 → Q (i1, i2) h') →
  wp (SplitUnchecked it x) h Q.
Proof.
  intros Hv Hit HQ. unfold SplitUnchecked, cut in *. repeat view_step. destruct (SplitValue s.1 s.2 x) as [v1 v2].
  repeat view_step. intros h1 Hv1. repeat view_step. intros h2 Hv2. clear Hv Hv1. cbn [fst snd] in *. view_step.
  eapply wp_NextGap; [exact Hv2|exact Hit|]. intros g Hg. view_step. rewrite <- snoc_app in Hv2. rewrite <- (next_snoc A (mkRange (r_Start s.1) x, v1)) in Hg.
  eapply wp_InsertUnchecked; [exact Hv2|exact Hg|]. intros h3 P' G' i2 Hv3 H2. view_step.
  eapply wp_PrevSegment; [exact Hv3|exact H2|]. rewrite prev_snoc. rewrite snoc_app in Hv3.
  destruct (view_seg _ _ _ _ _ _ Hv3) as [i1 H1]. rewrite H1. repeat view_step.
  eapply HQ; [exact Hv3|done|]. by rewrite next_snoc in H2.
Qed.

(** The part of a segment from [x] on with what is cut off before it, and the part up to [x]
    with what is cut off after it. *)
Definition cut_before s (x : Z) : list seg * seg :=
  if CanSplitAt s.1 x then ([(cut s x).1], (cut s x).2) else ([], s).

Definition cut_after s (x : Z) : seg * list seg :=
  if CanSplitAt s.1 x then ((cut s x).1, [(cut s x).2]) else (s, []).

Lemma wp_SplitBefore h A s B P G it x Q :
  view h (A ++ s :: B) P G → P !! length A = Some it →
  (∀ h' P' G' it', view h' ((A ++ (cut_before s x).1) ++ (cut_before s x).2 :: B) P' G' →
     P' !! length (A ++ (cut_before s x).1) = Some it' → Q it' h') →
  wp (SplitBefore it x) h Q.
Proof.
  intros Hv Hit HQ. unfold SplitBefore, cut_before in *. repeat view_step. destruct (CanSplitAt s.1 x); cbn [fst snd] in HQ.
  - view_step. eapply wp_SplitUnchecked; [done|done|]. intros h' P' G' i1 i2 Hv' H1 H2. view_step.
    eapply HQ; [by rewrite snoc_app|by rewrite next_snoc].
  - view_step. rewrite app_nil_r in HQ. by eapply HQ.
Qed.

Lemma wp_SplitAfter h A s B P G it x Q :
  view h (A ++ s :: B) P G → P !! length A = Some it →
  (∀ h' P' G' it', view h' (A ++ (cut_after s x).1 :: (cut_after s x).2 ++ B) P' G' →
     P' !! length A = Some it' → Q it' h') →
  wp (SplitAfter it x) h Q.
Proof.
  intros Hv Hit HQ. unfold SplitAfter, cut_after in *. repeat view_step. destruct (CanSplitAt s.1 x); cbn [fst snd] in HQ.
  - view_step. eapply wp_SplitUnchecked; [done|done|]. intros h' P' G' i1 i2 Hv' H1 H2. view_step. by eapply HQ.
  - view_step. by eapply HQ.
Qed.

Lemma wp_Isolate h A s B P G it r Q :
  view h (A ++ s :: B) P G → P !! length A = Some it →
  (∀ h' P' G' it', let '(l, m) := cut_before s (r_Start r) in
     view h' ((A ++ l) ++ (cut_after m (r_End r)).1 :: (cut_after m (r_End r)).2 ++ B) P' G' →
     P' !! length (A ++ l) = Some it' → Q it' h') →
  wp (Isolate it r) h Q.
Proof.
  intros Hv Hit HQ. unfold Isolate. view_step. eapply wp_SplitBefore; [done|done|]. destruct (cut_before s (r_Start r)) as [l m].
  intros h' P' G' it' Hv' Hit'. by eapply wp_SplitAfter.
Qed.

Lemma Split_panics h A s B P G it x :
  view h (A ++ s :: B) P G → P !! length A = Some it → CanSplitAt s.1 x = false → Split it x h = None.
Proof.
  intros Hv Hit Hc. unfold Split. edestruct (wp_Range h A s B P G it (λ r h', r = s.1 ∧ h' = h)) as (r & h' & E & -> & ->); [done|done|done|].
  cbv [mbind prog_bind]. by rewrite E, Hc.
Qed.

(** ** Checked changes of a range *)

Lemma wp_SetRange_checked h A s B P G it r Q :
  view h (A ++ s :: B) P G → P !! length A = Some it → fits A r B →
  (∀ h', view h' (A ++ (r, s.2) :: B) P G → Q () h') → wp (SetRange it r) h Q.
Proof.
  intros Hv Hit (H1 & H2 & H3)%decide_fits HQ. unfold SetRange. rewrite H1. view_step. eapply wp_PrevSegment; [done|exact Hit|].
  view_step. eapply wp_when_prev; [done|]. rewrite H2. view_step. eapply wp_NextSegment; [done|exact Hit|]. view_step.
  rewrite <- (next_snoc A s). eapply wp_when_next; [by rewrite snoc_app|]. rewrite H3. by eapply wp_SetRange.
Qed.

Lemma SetRange_panics h A s B P G it r :
  view h (A ++ s :: B) P G → P !! length A = Some it → ¬ fits A r B → SetRange it r h = None.
Proof.
  rewrite decide_fits. intros Hv Hit Hno. unfold SetRange. destruct (Length r <=? 0)%Z; [done|].
  apply fails_bind. eapply wp_PrevSegment; [done|exact Hit|]. apply fails_bind. eapply wp_when_prev; [done|].
  destruct (ends_after A (r_Start r)); [done|]. apply fails_bind. eapply wp_NextSegment; [done|exact Hit|]. apply fails_bind.
  rewrite <- (next_snoc A s). eapply wp_when_next; [by rewrite snoc_app|]. destruct (starts_before B (r_End r)); [done|]. naive_solver.
Qed.

Lemma wp_SetStart_checked h A s B P G it (b : Z) Q :
  view h (A ++ s :: B) P G → P !! length A = Some it → (b < r_End s.1)%Z → ends_after A b = false →
  (∀ h', view h' (A ++ (mkRange b (r_End s.1), s.2) :: B) P G → Q () h') → wp (SetStart it b) h Q.
Proof.
  intros Hv Hit Hb HA HQ. unfold SetStart. repeat view_step. rewrite (proj2 (Z.leb_gt _ _) Hb). view_step.
  eapply wp_PrevSegment; [done|exact Hit|]. view_step. eapply wp_when_prev; [done|]. rewrite HA. by view_step.
Qed.

Lemma wp_SetEnd_checked h A s B P G it (e : Z) Q :
  view h (A ++ s :: B) P G → P !! length A = Some it → (r_Start s.1 < e)%Z → starts_before B e = false →
  (∀ h', view h' (A ++ (mkRange (r_Start s.1) e, s.2) :: B) P G → Q () h') → wp (SetEnd it e) h Q.
Proof.
  intros Hv Hit He HB HQ. unfold SetEnd. repeat view_step. rewrite (proj2 (Z.leb_gt _ _) He). view_step.
  eapply wp_NextSegment; [done|exact Hit|]. view_step. rewrite <- (next_snoc A s). eapply wp_when_next; [by rewrite snoc_app|].
  rewrite HB. by view_step.
Qed.

(** ** Neighbours *)

(** The segment after [s] if it starts where [s] ends, and the gap after it otherwise. *)
Lemma wp_NextNonEmpty h A s B P G it Q :
  view h (A ++ s :: B) P G → P !! length A = Some it →
  (∀ n B' i2, B = n :: B' → P !! length (A ++ [s]) = Some i2 → r_Start n.1 = r_End s.1 → Q (Some i2, None) h) →
  (∀ g, (∀ n B', B = n :: B' → r_Start n.1 ≠ r_End s.1) → G !! length (A ++ [s]) = Some g → Q (None, Some g) h) →
  wp (NextNonEmpty it) h Q.
Proof.
  intros Hv Hit HS HN. unfold NextNonEmpty. view_step. eapply wp_NextSegment; [done|exact Hit|]. rewrite <- (next_snoc A s).
  assert (Hgap : (∀ n B', B = n :: B' → r_Start n.1 ≠ r_End s.1) → wp (gap ← NextGap it; mret (None, Some gap)) h Q).
  { intros Hne. view_step. eapply wp_NextGap; [done|exact Hit|]. intros g Hg. view_step. apply HN; [done|]. by rewrite next_snoc. }
  destruct B as [|n B].
  { rewrite (view_end _ _ _ _ Hv). cbn [when]. view_step. view_step. by apply Hgap. }
  assert (Hv2 : view h ((A ++ [s]) ++ n :: B) P G) by (by rewrite snoc_app).
  destruct (view_seg _ _ _ _ _ _ Hv2) as [i2 H2]. rewrite H2. cbn [when]. repeat view_step.
  destruct (Z.eqb_spec (r_Start n.1) (r_End s.1)).
  - view_step. by eapply HS.
  - apply Hgap. by intros ? ? [= <- <-].
Qed.

Lemma wp_PrevNonEmpty h A s B P G it Q :
  view h (A ++ s :: B) P G → P !! length A = Some it →
  (∀ A' p ip, A = A' ++ [p] → P !! length A' = Some ip → r_End p.1 = r_Start s.1 → Q (Some ip, None) h) →
  (∀ g, (∀ A' p, A = A' ++ [p] → r_End p.1 ≠ r_Start s.1) → G !! length A = Some g → Q (None, Some g) h) →
  wp (PrevNonEmpty it) h Q.
Proof.
  intros Hv Hit HS HN. unfold PrevNonEmpty. view_step. eapply wp_PrevSegment; [done|exact Hit|].
  assert (Hgap : (∀ A' p, A = A' ++ [p] → r_End p.1 ≠ r_Start s.1) → wp (gap ← PrevGap it; mret (None, Some gap)) h Q).
  { intros Hne. view_step. eapply wp_PrevGap; [done|exact Hit|]. intros g Hg. view_step. by apply HN. }
  destruct A as [|p A _] using rev_ind.
  { cbn [length prev_at when]. view_step. view_step. apply Hgap. intros A' p E. by destruct A'. }
  destruct (view_snoc _ _ _ _ _ _ _ Hv) as [ip Hip]. rewrite prev_snoc, Hip. cbn [when].
  assert (Hv2 : view h (A ++ p :: s :: B) P G) by (by rewrite snoc_app in Hv). repeat view_step.
  destruct (Z.eqb_spec (r_End p.1) (r_Start s.1)).
  - view_step. by eapply HS.
  - apply Hgap. by intros A' p' [-> [= ->]]%app_inj_tail.
Qed.
End Ops.
