(* ===== verification/SegLoops.v ===== *)
(** * Operations over ranges of a segment set

    The loops over segments: removal, mutation, visits, spans, and the conversion to and from
    slices.  All of them end within the bound that the number of nodes gives.  The variants
    for ranges that have to be covered panic if a key of the range is in no segment; if all
    are, they do what the others do. *)

From stdpp Require Import base numbers decidable gmap sorting list.
From S2P Require Import SegSet SegHeap SegIter SegView SegOps Prelude.

Section Loops.
Context {Value : Type} `{FL : FunctionsLaws Value}.
Local Abbreviation seg := (Range * Value)%type.
Local Abbreviation pos := (loc * nat)%type.
Implicit Types (s m : seg) (A B L : list seg) (P G : list pos) (it g : pos) (r : Range) (v : Value).
Implicit Types (h : heap Value).

(** Whether the next segment starts before [e]. *)
Lemma wp_inside h A B P G (e : Z) Q :
  view h (A ++ B) P G →
  (∀ s B' it, B = s :: B' → P !! length A = Some it → (r_Start s.1 < e)%Z → Q true h) →
  ((∀ s B', B = s :: B' → (e <= r_Start s.1)%Z) → Q false h) →
  wp (when (P !! length A) (λ seg, s ← seg_Start seg; mret (s <? e)%Z)) h Q.
Proof.
  intros Hv HT HF. destruct B as [|s B].
  - rewrite app_nil_r in Hv. rewrite (view_end _ _ _ _ Hv). simpl. view_step. by apply HF.
  - destruct (view_seg _ _ _ _ _ _ Hv) as [it Hit]. rewrite Hit. simpl. repeat view_step.
    destruct (Z.ltb_spec (r_Start s.1) e); [by eapply HT|]. apply HF. by intros ? ? [= <- <-].
Qed.

(** ** Removal *)

(** A function applied to a segment, which may change its value. *)
Definition visits (f : pos → prog Value unit) : Prop :=
  ∀ h A s B P G it, view h (A ++ s :: B) P G → P !! length A = Some it →
    wp (f it) h (λ _ h', ∃ v, view h' (A ++ (s.1, v) :: B) P G).

(** What is left of the segments after a gap when the keys before [e] are removed. *)
Fixpoint trim (e : Z) B : list seg :=
  match B with
  | [] => []
  | s :: B' =>
      if (r_Start s.1 <? e)%Z then
        match (cut_after s e).2 with [] => trim e B' | rest => rest ++ B' end
      else B
  end.

Lemma cut_after_cases s (e : Z) : (cut_after s e).2 = [] ∨ ∃ s2, (cut_after s e).2 = [s2] ∧ r_Start s2.1 = e.
Proof.
  unfold cut_after, cut. destruct (CanSplitAt s.1 e); [|by left]. right. destruct (SplitValue _ _ _). by eexists.
Qed.

Lemma wp_remove_stop fuel f h A B P G g (e : Z) Q :
  view h (A ++ B) P G → G !! length A = Some g → 0 < fuel → (∀ s B', B = s :: B' → (e <= r_Start s.1)%Z) → Q g h →
  wp (remove_loop fuel f e g) h Q.
Proof.
  intros Hv Hg Hlt Hno HQ. destruct fuel as [|fuel]; [lia|]. cbn [remove_loop].
  view_step. eapply wp_gap_NextSegment; [done|done|]. view_step. eapply wp_inside; [done| |intros _; by view_step].
  intros s B' it E _ Hs. specialize (Hno _ _ E). lia.
Qed.

Lemma wp_remove_loop fuel f h A B P G g (e : Z) Q :
  visits f → view h (A ++ B) P G → G !! length A = Some g → length B < fuel →
  (∀ h' P' G' g', view h' (A ++ trim e B) P' G' → G' !! length A = Some g' → Q g' h') →
  wp (remove_loop fuel f e g) h Q.
Proof.
  intros Hf. revert h B P G g. induction fuel as [|fuel IH]; intros h B P G g Hv Hg Hlt HQ; [lia|]. cbn [remove_loop].
  view_step. eapply wp_gap_NextSegment; [done|done|]. view_step. eapply wp_inside; [done| |].
  2: { intros Hno. view_step. eapply HQ; [|done]. destruct B as [|s B]; [done|]. simpl.
       by rewrite (proj2 (Z.ltb_ge _ _) (Hno s B eq_refl)). }
  intros s B' it -> Hit Hs. rewrite Hit. view_step. view_step. view_step. simpl in HQ, Hlt. rewrite (proj2 (Z.ltb_lt _ _) Hs) in HQ.
  eapply wp_SplitAfter; [done|done|]. intros h1 P1 G1 it1 Hv1 Hit1. view_step. eapply wp_mono; [by eapply Hf|].
  intros _ h2 [v Hv2]. view_step. eapply wp_Remove; [exact Hv2|exact Hit1|]. intros h3 P3 G3 g3 Hv3 Hg3.
  destruct (cut_after_cases s e) as [E|(s2 & E & Es2)]; rewrite E in *.
  - eapply IH; [done|done|simpl; lia|done].
  - eapply wp_remove_stop; [done|done|lia| |by eapply HQ]. intros ? ? [= <- <-]. lia.
Qed.

(** What is left of a set when the keys of [r] are removed, before the gap and after it. *)
Definition removed L r A B : Prop :=
  (∃ A' s B', L = A' ++ s :: B' ∧ (r_Start s.1 <= r_Start r < r_End s.1)%Z ∧
    let '(l, m) := cut_before s (r_Start r) in
    A = A' ++ l ∧ B = trim (r_End r) ((cut_after m (r_End r)).2 ++ B')) ∨
  (∃ B', L = A ++ B' ∧ Forall (below (r_Start r)) A ∧ Forall (above (r_Start r)) B' ∧ B = trim (r_End r) B').

Lemma wp_RemoveRangeWith f h L P G r Q :
  visits f → view h L P G → segs_ok L →
  (∀ A B h' P' G' g, removed L r A B → view h' (A ++ B) P' G' → G' !! length A = Some g → Q g h') →
  wp (RemoveRangeWith r f) h Q.
Proof.
  intros Hf Hv Hok HQ. unfold RemoveRangeWith. view_step. eapply wp_Find; [done|done| |].
  - intros A s B it -> Hs Hit. view_step. view_step. eapply wp_Isolate; [done|done|].
    destruct (cut_before s (r_Start r)) as [l m] eqn:E. intros h1 P1 G1 it1 Hv1 Hit1. view_step.
    eapply wp_mono; [by eapply Hf|]. intros _ h2 [v Hv2]. eapply wp_Remove; [exact Hv2|exact Hit1|].
    intros h3 P3 G3 g3 Hv3 Hg3. view_step. eapply wp_set_fuel; [done|]. intros fuel Hfu.
    eapply wp_remove_loop; [done|exact Hv3|done|rewrite length_app in Hfu; lia|]. intros h' P' G' g' Hv' Hg'.
    eapply HQ; [|exact Hv'|done]. left. exists A, s, B. by rewrite E.
  - intros A B g -> HA HB Hg. view_step. view_step. view_step. eapply wp_set_fuel; [done|]. intros fuel Hfu.
    eapply wp_remove_loop; [done|exact Hv|done|rewrite length_app in Hfu; lia|]. intros h' P' G' g' Hv' Hg'.
    eapply HQ; [|exact Hv'|done]. right. by exists B.
Qed.

(** ** Mutation *)

(** A function applied to a segment that gives it a new value and says whether to go on. *)
Definition mutates (f : pos → prog Value bool) (u : Range → Value → Value * bool) : Prop :=
  ∀ h A s B P G it, view h (A ++ s :: B) P G → P !! length A = Some it →
    wp (f it) h (λ b h', b = (u s.1 s.2).2 ∧ view h' (A ++ (s.1, (u s.1 s.2).1) :: B) P G).

Definition merge_prev A s B : list seg := (join_prev A s).1 ++ (join_prev A s).2 :: B.

(** The set after the segments of [B] that start before [e] were mutated, those of [A] being
    done. *)
Fixpoint mutated (u : Range → Value → Value * bool) (e : Z) A B : list seg :=
  match B with
  | [] => A
  | s :: B' =>
      if (r_Start s.1 <? e)%Z then
        let c := (cut_after s e).1 in
        let m := join_prev A (c.1, (u c.1 c.2).1) in
        if (u c.1 c.2).2 then
          match (cut_after s e).2 with
          | [] => mutated u e (m.1 ++ [m.2]) B'
          | s2 :: _ => merge_prev (m.1 ++ [m.2]) s2 B'
          end
        else m.1 ++ join_next m.2 ((cut_after s e).2 ++ B')
      else merge_prev A s B'
  end.

Lemma wp_mutate_stop fuel f h A s B P G (e : Z) Q :
  view h (A ++ s :: B) P G → 0 < fuel → (e <= r_Start s.1)%Z →
  (∀ h' P' G', view h' (merge_prev A s B) P' G' → Q () h') →
  wp (mutate_loop fuel e f (P !! length A)) h Q.
Proof.
  intros Hv Hlt Hs HQ. destruct fuel as [|fuel]; [lia|]. cbn [mutate_loop]. view_step. eapply wp_inside; [done| |].
  { intros s' B' it [= <- <-]. lia. }
  intros _. destruct (view_seg _ _ _ _ _ _ Hv) as [it Hit]. rewrite Hit. view_step. eapply wp_MergePrev; [done|done|].
  intros h' P' G' it' Hv' _. view_step. by eapply HQ.
Qed.

Lemma wp_mutate_loop fuel f u h A B P G (e : Z) Q :
  mutates f u → view h (A ++ B) P G → length B < fuel →
  (∀ h' P' G', view h' (mutated u e A B) P' G' → Q () h') →
  wp (mutate_loop fuel e f (P !! length A)) h Q.
Proof.
  intros Hf. revert h A B P G. induction fuel as [|fuel IH]; intros h A B P G Hv Hlt HQ; [lia|].
  destruct B as [|s B].
  { cbn [mutate_loop]. view_step. eapply wp_inside; [done|by intros|]. intros _. rewrite app_nil_r in Hv.
    rewrite (view_end _ _ _ _ Hv). view_step. by eapply HQ. }
  cbn [mutated] in HQ. destruct (Z.ltb_spec (r_Start s.1) e) as [Hs|Hs]; [|eapply wp_mutate_stop; [done|lia|done|done]].
  cbn [mutate_loop]. simpl in Hlt. view_step. eapply wp_inside; [done| |].
  2: { intros Hno. specialize (Hno _ _ eq_refl). lia. }
  intros ? ? it _ Hit _. rewrite Hit. repeat view_step. eapply wp_SplitAfter; [done|done|]. intros h1 P1 G1 it1 Hv1 Hit1.
  set (c := (cut_after s e).1) in *. view_step. eapply wp_mono; [by eapply Hf|]. cbn beta. intros ? h2 [-> Hv2]. view_step.
  eapply wp_MergePrev; [exact Hv2|exact Hit1|]. set (m := join_prev A (c.1, (u c.1 c.2).1)) in *. intros h3 P3 G3 it3 Hv3 Hit3.
  destruct (u c.1 c.2).2; simpl negb; cbn match.
  - view_step. eapply wp_NextSegment; [exact Hv3|exact Hit3|]. rewrite <- (next_snoc m.1 m.2). rewrite <- snoc_app in Hv3.
    destruct (cut_after_cases s e) as [E|(s2 & E & Es2)]; rewrite E in *.
    + eapply IH; [exact Hv3|simpl; lia|done].
    + eapply wp_mutate_stop; [exact Hv3|lia|lia|done].
  - view_step. eapply wp_MergeNext; [exact Hv3|exact Hit3|]. intros h4 P4 G4 it4 Hv4 _. view_step. by eapply HQ.
Qed.

(** The first segment to be mutated, after what comes before it. *)
Definition lower_split L (x : Z) A B : Prop :=
  (∃ A' s B', L = A' ++ s :: B' ∧ (r_Start s.1 <= x < r_End s.1)%Z ∧ A = A' ++ (cut_before s x).1 ∧ B = (cut_before s x).2 :: B') ∨
  (L = A ++ B ∧ Forall (below x) A ∧ Forall (above x) B).

Lemma wp_LowerBoundSegmentSplitBefore h L P G (x : Z) Q :
  view h L P G → segs_ok L →
  (∀ A B h' P' G', lower_split L x A B → view h' (A ++ B) P' G' → Q (P' !! length A) h') →
  wp (LowerBoundSegmentSplitBefore x) h Q.
Proof.
  intros Hv Hok HQ. unfold LowerBoundSegmentSplitBefore. view_step. eapply wp_Find; [done|done| |].
  - intros A s B it -> Hs Hit. view_step. eapply wp_SplitBefore; [done|done|]. intros h' P' G' it' Hv' Hit'. view_step.
    rewrite <- Hit'. eapply HQ; [|exact Hv']. left. by exists A, s, B.
  - intros A B g -> HA HB Hg. repeat view_step. eapply wp_gap_NextSegment; [done|done|]. eapply HQ; [|exact Hv]. by right.
Qed.

Lemma wp_MutateRange f u h L P G r Q :
  mutates f u → view h L P G → segs_ok L →
  (∀ A B h' P' G', lower_split L (r_Start r) A B → view h' (mutated u (r_End r) A B) P' G' → Q () h') →
  wp (MutateRange r f) h Q.
Proof.
  intros Hf Hv Hok HQ. unfold MutateRange. view_step. eapply wp_LowerBoundSegmentSplitBefore; [done|done|].
  intros A B h' P' G' Hl Hv'. view_step. eapply wp_set_fuel; [done|]. intros fuel Hfu.
  eapply wp_mutate_loop; [done|exact Hv'|rewrite length_app in Hfu; lia|]. intros. by eapply HQ.
Qed.

(** ** Visits *)

(** The segments from the first one that starts before [e] on, after a visit. *)
Fixpoint visited (u : Range → Value → Value * bool) (e : Z) B : list seg :=
  match B with
  | [] => []
  | s :: B' =>
      if (r_Start s.1 <? e)%Z then
        (s.1, (u s.1 s.2).1) :: (if (u s.1 s.2).2 then visited u e B' else B')
      else B
  end.

Lemma wp_visit_loop fuel f u h A B P G (e : Z) Q :
  mutates f u → view h (A ++ B) P G → length B < fuel →
  (∀ h' P' G', view h' (A ++ visited u e B) P' G' → Q () h') →
  wp (visit_loop fuel e f (P !! length A)) h Q.
Proof.
  intros Hf. revert h A B P G. induction fuel as [|fuel IH]; intros h A B P G Hv Hlt HQ; [lia|]. cbn [visit_loop].
  view_step. eapply wp_inside; [done| |].
  - intros s B' it -> Hit Hs. simpl in Hlt, HQ. rewrite (proj2 (Z.ltb_lt _ _) Hs) in HQ. rewrite Hit. view_step. view_step. view_step.
    eapply wp_mono; [by eapply Hf|]. cbn beta. intros ? h2 [-> Hv2]. destruct (u s.1 s.2) as [v [|]]; cbn [fst snd] in *.
    + view_step. eapply wp_NextSegment; [exact Hv2|exact Hit|]. rewrite <- (next_snoc A (s.1, v)).
      eapply IH; [by rewrite snoc_app|lia|]. intros h' P' G'. rewrite snoc_app. apply HQ.
    + view_step. by eapply HQ.
  - intros Hno. view_step. eapply HQ. destruct B as [|s B]; [done|]. simpl.
    by rewrite (proj2 (Z.ltb_ge _ _) (Hno s B eq_refl)).
Qed.

Lemma wp_LowerBoundSegment h L P G (x : Z) Q :
  view h L P G → segs_ok L →
  (∀ A B, L = A ++ B → Forall (below x) A → (∀ s B', B = s :: B' → (x < r_End s.1)%Z) → Q (P !! length A) h) →
  wp (LowerBoundSegment x) h Q.
Proof.
  intros Hv Hok HQ. unfold LowerBoundSegment. view_step. eapply wp_Find; [done|done| |].
  - intros A s B it -> Hs Hit. view_step. rewrite <- Hit. apply (HQ A (s :: B)); [done| |].
    + apply segs_ok_app in Hok as (HA & _ & Hb). apply Forall_forall. intros s1 H1.
      assert (Hb1 := Hb s1 s H1 ltac:(set_solver)). unfold seg_before, below in *. lia.
    + intros ? ? [= <- <-]. lia.
  - intros A B g -> HA HB Hg. repeat view_step. eapply wp_gap_NextSegment; [done|done|]. eapply (HQ A B); [done|done|].
    intros s B' ->. apply segs_ok_app in Hok as (_ & [Hok _]%segs_ok_cons & _). apply Forall_cons in HB as [Hs _].
    unfold above, seg_valid in *. lia.
Qed.

Lemma wp_VisitRange f u h L P G r Q :
  mutates f u → view h L P G → segs_ok L →
  (∀ A B h' P' G', L = A ++ B → Forall (below (r_Start r)) A → (∀ s B', B = s :: B' → (r_Start r < r_End s.1)%Z) →
     view h' (A ++ visited u (r_End r) B) P' G' → Q () h') →
  wp (VisitRange r f) h Q.
Proof.
  intros Hf Hv Hok HQ. unfold VisitRange. view_step. eapply wp_LowerBoundSegment; [done|done|]. intros A B -> HA HB.
  view_step. eapply wp_set_fuel; [done|]. intros fuel Hfu.
  eapply wp_visit_loop; [done|exact Hv|rewrite length_app in Hfu; lia|]. intros. by eapply HQ.
Qed.

(** ** Slices *)

Lemma wp_export_loop fuel h A B P G Q :
  view h (A ++ B) P G → length B < fuel → Q B h → wp (export_loop fuel (P !! length A)) h Q.
Proof.
  revert A B Q. induction fuel as [|fuel IH]; intros A B Q Hv Hlt HQ; [lia|]. cbn [export_loop]. destruct B as [|s B].
  { rewrite app_nil_r in Hv. rewrite (view_end _ _ _ _ Hv). by view_step. }
  destruct (view_seg _ _ _ _ _ _ Hv) as [it Hit]. rewrite Hit. simpl in Hlt. repeat view_step. eapply wp_NextSegment; [done|exact Hit|].
  view_step. rewrite <- (next_snoc A s). apply (IH _ B); [by rewrite snoc_app|lia|]. view_step. by destruct s.
Qed.

Lemma wp_ExportSlice h L P G Q : view h L P G → Q L h → wp ExportSlice h Q.
Proof.
  intros Hv HQ. unfold ExportSlice. view_step. eapply wp_FirstSegment; [done|]. view_step. eapply wp_set_fuel; [done|].
  intros fuel Hfu. by eapply (wp_export_loop fuel h []).
Qed.

Lemma wp_import_loop h A B P G g Q :
  view h A P G → G !! length A = Some g → segs_ok (A ++ B) →
  (∀ h' P' G', view h' (A ++ B) P' G' → Q true h') → wp (import_loop g B) h Q.
Proof.
  revert h A P G g. induction B as [|[r v] B IH]; intros h A P G g Hv Hg Hok HQ; cbn [import_loop].
  { view_step. rewrite app_nil_r in HQ. by eapply HQ. }
  rewrite <- (app_nil_r A) in Hv. rewrite <- snoc_app in Hok. pose proof Hok as ((HA & (Hr & _)%segs_ok_cons & Hb)%segs_ok_app & _)%segs_ok_app.
  assert (Hin : IsSupersetOf (mkRange (gap_lower (A ++ []) (length A)) (gap_upper (A ++ []) (length A))) r = true).
  { rewrite gap_lower_app, gap_upper_app. unfold IsSupersetOf. cbn [r_Start r_End]. destruct Hr as [Hr1 Hr2]. cbn [fst] in *.
    destruct (last A) as [p|] eqn:Ep; [|lia]. apply last_Some in Ep as [A' ->].
    specialize (Hb p (r, v) ltac:(set_solver) ltac:(set_solver)). unfold seg_before in Hb. simpl in Hb. lia. }
  view_step. eapply wp_gap_Range; [done|done|]. rewrite Hin. cbn [negb]. view_step.
  eapply wp_InsertWithoutMerging; [done|done|by eapply valid_length|done|].
  intros h1 P1 G1 it Hv1 Hit. view_step. eapply wp_NextGap; [exact Hv1|exact Hit|]. intros g1 Hg1.
  rewrite <- (next_snoc A (r, v)) in Hg1. eapply IH; [exact Hv1|exact Hg1|done|]. intros h' P' G'. rewrite snoc_app. apply HQ.
Qed.

Lemma wp_ImportSlice h P G fs Q :
  view h [] P G → segs_ok fs → (∀ h' P' G', view h' fs P' G' → Q true h') → wp (ImportSlice fs) h Q.
Proof.
  intros Hv Hok HQ. unfold ImportSlice. view_step. eapply wp_IsEmpty; [done|]. rewrite bool_decide_true by done. cbn [negb]. view_step.
  eapply wp_FirstGap; [done|]. intros g Hg. by eapply (wp_import_loop h []).
Qed.

Lemma wp_ImportSlice_nonempty h L P G fs Q :
  view h L P G → L ≠ [] → Q false h → wp (ImportSlice fs) h Q.
Proof.
  intros Hv Hne HQ. unfold ImportSlice. view_step. eapply wp_IsEmpty; [done|]. rewrite bool_decide_false by done.
  cbn [negb]. by view_step.
Qed.

(** ** Spans *)

(** How many keys a segment shares with a range, and all of them do. *)
Definition shared r s : Z := Z.max 0 (Z.min (r_End s.1) (r_End r) - Z.max (r_Start s.1) (r_Start r)).

Definition span_of r L : Z := foldr (λ s, Z.add (shared r s)) 0%Z L.

Lemma span_of_app r A B : span_of r (A ++ B) = (span_of r A + span_of r B)%Z.
Proof. induction A as [|s A IH]; simpl; [done|]. rewrite IH. lia. Qed.

Lemma span_of_none r L : Forall (λ s, (r_End s.1 <= r_Start r ∨ r_End r <= r_Start s.1)%Z) L → span_of r L = 0%Z.
Proof. induction 1 as [|s L Hs _ IH]; [done|]. simpl. rewrite IH. unfold shared. lia. Qed.

Lemma span_of_nonneg r L : (0 <= span_of r L)%Z.
Proof. induction L as [|s L IH]; simpl; [lia|]. unfold shared. lia. Qed.

Lemma span_of_bound r L (a : Z) : segs_ok L → Forall (from a) L → (span_of r L <= Z.max 0 (r_End r - Z.max a (r_Start r)))%Z.
Proof.
  revert a. induction L as [|s L IH]; intros a Hok Ha; [simpl; lia|]. apply segs_ok_cons in Hok as (Hs & Hok & Hb).
  apply Forall_cons in Ha as [Hfs _]. specialize (IH (r_End s.1) Hok Hb). simpl. unfold shared, from, seg_valid in *. lia.
Qed.

Lemma Length_Intersect r s : seg_valid s → (MinKey <= r_Start r)%Z → (r_End r <= MaxKey)%Z → Length (Intersect s.1 r) = shared r s.
Proof.
  intros Hs H1 H2. unfold Length, Intersect, shared, seg_valid in *.
  repeat match goal with |- context [(?a <? ?b)%Z] => destruct (Z.ltb_spec a b); cbn [r_Start r_End] in * end;
    rewrite key_arith_id by lia; lia.
Qed.

Lemma wp_span_loop fuel h A B P G r (sz : Z) Q :
  view h (A ++ B) P G → segs_ok B → length B < fuel → (MinKey <= r_Start r)%Z → (r_End r <= MaxKey)%Z →
  (0 <= sz)%Z → (sz + span_of r B <= MaxKey - MinKey)%Z → Q (sz + span_of r B)%Z h →
  wp (span_loop fuel r sz (P !! length A)) h Q.
Proof.
  revert A B sz. induction fuel as [|fuel IH]; intros A B sz Hv Hok Hlt Hr1 Hr2 Hsz Hb HQ; [lia|]. cbn [span_loop].
  view_step. eapply wp_inside; [done| |].
  - intros s B' it -> Hit Hs. simpl in Hlt. apply segs_ok_cons in Hok as (Hvs & Hok & _). rewrite Hit. repeat view_step.
    eapply wp_NextSegment; [done|exact Hit|]. rewrite <- (next_snoc A s). simpl in Hb. pose proof (span_of_nonneg r B').
    rewrite Length_Intersect by done. rewrite key_arith_id by (unfold shared in *; lia).
    eapply IH; [by rewrite snoc_app|done|lia|done|done|unfold shared; lia|lia|]. by rewrite <- Z.add_assoc.
  - intros Hno. view_step. enough (span_of r B = 0%Z) as E by (by rewrite E, Z.add_0_r in HQ).
    apply span_of_none. destruct B as [|s B]; [constructor|]. specialize (Hno s B eq_refl).
    eapply Forall_impl; [by apply segs_from|]. unfold from. intros s'. simpl. lia.
Qed.

Lemma wp_SpanRange h L P G r v Q :
  view h L P G → segs_ok L → seg_valid (r, v) → Q (span_of r L) h → wp (SpanRange r) h Q.
Proof.
  intros Hv Hok Hr HQ. unfold SpanRange. pose proof (valid_length _ _ Hr) as Hlen. destruct Hr as [Hr1 Hr2]. cbn [fst] in *.
  rewrite (proj2 (Z.ltb_ge _ _)) by lia. rewrite (proj2 (Z.eqb_neq _ _)) by lia.
  view_step. eapply wp_LowerBoundSegment; [done|done|]. intros A B -> HA HB. view_step. eapply wp_set_fuel; [done|]. intros fuel Hfu.
  apply segs_ok_app in Hok as (_ & Hok & _). rewrite span_of_app in HQ. rewrite (span_of_none r A) in HQ.
  2: { eapply Forall_impl; [exact HA|]. unfold below. intros s. simpl. lia. }
  eapply wp_span_loop; [exact Hv|done|rewrite length_app in Hfu; lia|lia|lia|lia| |exact HQ].
  assert (Hf : Forall (from MinKey) B).
  { eapply Forall_impl; [exact (proj1 Hok)|]. unfold seg_valid, from. intros s. lia. }
  pose proof (span_of_bound r B MinKey Hok Hf). lia.
Qed.

Lemma wp_IsEmptyRange h L P G r v Q :
  view h L P G → segs_ok L → seg_valid (r, v) → Q (bool_decide (¬ overlapping L r)) h → wp (IsEmptyRange r) h Q.
Proof.
  intros Hv Hok Hr HQ. unfold IsEmptyRange. pose proof (valid_length _ _ Hr) as Hlen.
  rewrite (proj2 (Z.ltb_ge _ _)) by lia. rewrite (proj2 (Z.eqb_neq _ _)) by lia. pose proof Hr as [Hr1 Hr2]. cbn [fst] in *.
  view_step. eapply wp_place; [done|done|done| | |].
  - intros A s B it -> Hs Hit. view_step. rewrite bool_decide_false in HQ; [done|]. intros Hno. apply Hno, overlapping_mid; lia.
  - intros A n B g -> Hn Hlt Hg. view_step. eapply wp_gap_End; [done|done|]. rewrite gap_upper_app. view_step.
    rewrite (proj2 (Z.leb_gt _ _) Hlt). rewrite bool_decide_false in HQ; [done|]. intros Hno. apply Hno, overlapping_mid; [done|].
    apply segs_ok_app in Hok as (_ & Hok & _). apply segs_ok_cons in Hok as ([? ?] & _). unfold above in Hn. lia.
  - intros A B g -> HA HB Hg Hu. view_step. eapply wp_gap_End; [done|done|]. view_step. rewrite (proj2 (Z.leb_le _ _) Hu).
    rewrite bool_decide_true in HQ; [done|]. by apply not_overlapping_gap.
Qed.

Lemma wp_whole_span_loop fuel h A B P G (sz : Z) Q :
  view h (A ++ B) P G → segs_ok B → length B < fuel → (0 <= sz)%Z →
  (sz + span_of (mkRange MinKey MaxKey) B <= MaxKey - MinKey)%Z → Q (sz + span_of (mkRange MinKey MaxKey) B)%Z h →
  wp (whole_span_loop fuel sz (P !! length A)) h Q.
Proof.
  revert A B sz. induction fuel as [|fuel IH]; intros A B sz Hv Hok Hlt Hsz Hb HQ; [lia|]. cbn [whole_span_loop].
  destruct B as [|s B].
  { rewrite app_nil_r in Hv. rewrite (view_end _ _ _ _ Hv). view_step. simpl in HQ. by rewrite Z.add_0_r in HQ. }
  destruct (view_seg _ _ _ _ _ _ Hv) as [it Hit]. rewrite Hit. simpl in Hlt. repeat view_step.
  eapply wp_NextSegment; [done|exact Hit|]. rewrite <- (next_snoc A s). apply segs_ok_cons in Hok as ([Hs1 Hs2] & Hok & _).
  pose proof (span_of_nonneg (mkRange MinKey MaxKey) B). cbn [span_of foldr] in Hb, HQ. fold (span_of (mkRange MinKey MaxKey) B) in Hb, HQ.
  assert (E : shared (mkRange MinKey MaxKey) s = (r_End s.1 - r_Start s.1)%Z) by (unfold shared; simpl; lia).
  rewrite E in Hb, HQ. unfold Length. rewrite !key_arith_id by (rewrite ?key_arith_id; lia).
  eapply IH; [by rewrite snoc_app|done|lia|lia|lia|]. by rewrite <- Z.add_assoc.
Qed.

(** The number of keys in the set. *)
Lemma wp_Span h L P G Q :
  view h L P G → segs_ok L → (MinKey <= MaxKey)%Z → Q (span_of (mkRange MinKey MaxKey) L) h → wp Span h Q.
Proof.
  intros Hv Hok Hk HQ. unfold Span. view_step. eapply wp_FirstSegment; [done|]. view_step. eapply wp_set_fuel; [done|].
  intros fuel Hfu. eapply (wp_whole_span_loop fuel h [] L); [done|done|done|done| |exact HQ].
  assert (Hf : Forall (from MinKey) L).
  { eapply Forall_impl; [exact (proj1 Hok)|]. unfold seg_valid, from. intros s. lia. }
  pose proof (span_of_bound (mkRange MinKey MaxKey) L MinKey Hok Hf) as Hb. simpl in Hb. lia.
Qed.

Lemma wp_MergeInsideRange h L P G r Q :
  view h L P G → segs_ok L → Q () h →
  (∀ A s B h' P' G', L = A ++ s :: B → view h' (A ++ join_inside (r_End r) s B) P' G' → Q () h') →
  wp (MergeInsideRange r) h Q.
Proof.
  intros Hv Hok HN HS. unfold MergeInsideRange. view_step. eapply wp_LowerBoundSegment; [done|done|]. intros A B -> _ _.
  destruct B as [|s B].
  { rewrite app_nil_r in Hv. rewrite (view_end _ _ _ _ Hv). by view_step. }
  destruct (view_seg _ _ _ _ _ _ Hv) as [it Hit]. rewrite Hit. view_step. eapply wp_NextSegment; [done|exact Hit|]. view_step.
  eapply wp_set_fuel; [done|]. intros fuel Hfu. rewrite length_app in Hfu. simpl in Hfu.
  eapply wp_merge_inside; [exact Hv|exact Hit|lia|]. intros. by eapply HS.
Qed.
End Loops.

Section Full.
Context {Value : Type} `{FL : FunctionsLaws Value}.
Local Abbreviation seg := (Range * Value)%type.
Local Abbreviation pos := (loc * nat)%type.
Implicit Types (s m : seg) (A B L : list seg) (P G : list pos) (it g : pos) (r : Range) (v : Value).
Implicit Types (h : heap Value).

(** The segments of [B] cover the keys from [x] to [e] without a gap, starting at [x]. *)
Fixpoint contiguous (e x : Z) B : bool :=
  match B with
  | [] => false
  | s :: B' => (r_Start s.1 =? x)%Z && ((e <=? r_End s.1)%Z || contiguous e (r_End s.1) B')
  end.

Lemma trim_id (e : Z) B : (∀ s B', B = s :: B' → (e <= r_Start s.1)%Z) → trim e B = B.
Proof. intros HB. destruct B as [|s B]; [done|]. simpl. by rewrite (proj2 (Z.ltb_ge _ _)) by (by eapply HB). Qed.

(** The end of the part before [e], with what is cut off. *)
Lemma cut_after_end s (e : Z) :
  seg_valid s → (r_Start s.1 < e)%Z →
  r_End (cut_after s e).1.1 = Z.min (r_End s.1) e ∧ ((cut_after s e).2 = [] ↔ (r_End s.1 <= e)%Z).
Proof.
  intros Hs He. unfold cut_after, cut, CanSplitAt, Contains, seg_valid in *. destruct (_ && _) eqn:E; cbn [fst snd].
  - destruct (SplitValue _ _ _) as [v1 v2]. simpl. split; [lia|]. split; [done|lia].
  - split; [lia|]. split; [lia|done].
Qed.

Lemma after_segment s B : segs_ok (s :: B) → seg_valid s ∧ segs_ok B ∧ Forall (from (r_End s.1)) B.
Proof. by intros (? & ? & ?)%segs_ok_cons. Qed.

(** What the next segment has to be. *)
Lemma wp_next_at h A B P G (x : Z) {X} (k : pos → prog Value X) Q :
  view h (A ++ B) P G →
  (∀ s B' it, B = s :: B' → P !! length A = Some it → r_Start s.1 = x → wp (k it) h Q) →
  (∃ s B', B = s :: B' ∧ r_Start s.1 = x) →
  wp (seg ← lift (P !! length A); s ← seg_Start seg; if negb (s =? x)%Z then panic else k seg) h Q.
Proof.
  intros Hv HQ (s & B' & -> & Hs). destruct (view_seg _ _ _ _ _ _ Hv) as [it Hit]. rewrite Hit. repeat view_step.
  rewrite (proj2 (Z.eqb_eq _ _) Hs). by eapply HQ.
Qed.

Lemma wp_remove_full fuel f h A s B P G it (e : Z) Q :
  visits f → view h (A ++ s :: B) P G → P !! length A = Some it → segs_ok (s :: B) → length B < fuel → (r_Start s.1 < e)%Z →
  contiguous e (r_Start s.1) (s :: B) = true →
  (∀ h' P' G' g, view h' (A ++ trim e (s :: B)) P' G' → G' !! length A = Some g → Q g h') →
  wp (remove_full_loop fuel f e it) h Q.
Proof.
  intros Hf. revert h s B P G it. induction fuel as [|fuel IH]; intros h s B P G it Hv Hit Hok Hlt He Hc HQ; [lia|].
  cbn [remove_full_loop]. view_step. eapply wp_SplitAfter; [done|done|]. intros h1 P1 G1 it1 Hv1 Hit1.
  view_step. eapply wp_mono; [by eapply Hf|]. intros _ h2 [v Hv2]. view_step. view_step. view_step.
  eapply wp_Remove; [exact Hv2|exact Hit1|]. intros h3 P3 G3 g3 Hv3 Hg3.
  destruct (after_segment _ _ Hok) as (Hs & HokB & HB). destruct (cut_after_end s e Hs He) as [Ee Er]. cbn [fst]. rewrite Ee.
  cbn [trim] in HQ. rewrite (proj2 (Z.ltb_lt _ _) He) in HQ. simpl in Hc. rewrite Z.eqb_refl in Hc. simpl in Hc.
  destruct (Z.leb_spec e (Z.min (r_End s.1) e)) as [Hend|Hend].
  - view_step. eapply HQ; [|exact Hg3]. destruct (cut_after_cases s e) as [E|(s2 & E & _)]; rewrite E in *; [|done].
    rewrite trim_id; [done|]. intros n B' ->. apply Forall_cons in HB as [Hn _]. unfold from in Hn. lia.
  - rewrite (proj2 (Z.leb_gt _ _)) in Hc by lia. simpl in Hc. assert (E : (cut_after s e).2 = []) by (apply Er; lia). rewrite E in *.
    rewrite Z.min_l by lia. view_step. eapply wp_gap_NextSegment; [done|done|]. destruct B as [|n B]; [done|].
    pose proof Hc as Hc'. simpl in Hc'. apply andb_true_iff in Hc' as [Hn%Z.eqb_eq _]. cbn [app] in Hv3. simpl in Hlt.
    eapply wp_next_at; [exact Hv3| |by eauto]. intros ? ? it3 [= <- <-] Hit3 _.
    eapply IH; [exact Hv3|exact Hit3|done|lia|lia|by rewrite Hn|done].
Qed.

Lemma remove_full_panics fuel f h A s B P G it (e : Z) :
  visits f → view h (A ++ s :: B) P G → P !! length A = Some it → segs_ok (s :: B) → (r_Start s.1 < e)%Z →
  contiguous e (r_Start s.1) (s :: B) = false → remove_full_loop fuel f e it h = None.
Proof.
  intros Hf. revert h s B P G it. induction fuel as [|fuel IH]; intros h s B P G it Hv Hit Hok He Hc; [done|].
  cbn [remove_full_loop]. apply fails_bind. eapply wp_SplitAfter; [done|done|]. intros h1 P1 G1 it1 Hv1 Hit1.
  apply fails_bind. eapply wp_mono; [by eapply Hf|]. intros _ h2 [v Hv2]. apply fails_bind. view_step. apply fails_bind.
  eapply wp_Remove; [exact Hv2|exact Hit1|]. intros h3 P3 G3 g3 Hv3 Hg3.
  destruct (after_segment _ _ Hok) as (Hs & HokB & HB). destruct (cut_after_end s e Hs He) as [Ee Er]. cbn [fst]. rewrite Ee.
  simpl in Hc. rewrite Z.eqb_refl in Hc. apply orb_false_iff in Hc as [He2%Z.leb_gt Hc].
  assert (E : (cut_after s e).2 = []) by (apply Er; lia). rewrite E in *. rewrite (proj2 (Z.leb_gt _ _)) by lia.
  rewrite Z.min_l by lia. apply fails_bind. eapply wp_gap_NextSegment; [done|done|]. cbn [app] in Hv3. destruct B as [|n B].
  { rewrite app_nil_r in Hv3. by rewrite (view_end _ _ _ _ Hv3). }
  destruct (view_seg _ _ _ _ _ _ Hv3) as [it3 Hit3]. rewrite Hit3. apply fails_bind. view_step. apply fails_bind. view_step.
  destruct (Z.eqb_spec (r_Start n.1) (r_End s.1)) as [Hn|Hn]; [|done]. simpl negb. cbn match.
  eapply IH; [exact Hv3|exact Hit3|done|lia|by rewrite Hn].
Qed.

(** ** Mutation *)

Lemma merge_prev_snoc A m s B : merge_prev (A ++ [m]) s B = A ++ join_next m (s :: B).
Proof. unfold merge_prev. rewrite join_prev_snoc. cbn [join_next]. destruct (join m s); cbn [fst snd]; [done|]. apply snoc_app. Qed.

(** After the last segment, which is merged with the next one. *)
Lemma mutated_last u (e : Z) A m B :
  (∀ s B', B = s :: B' → (e <= r_Start s.1)%Z) → mutated u e (A ++ [m]) B = A ++ join_next m B.
Proof.
  intros HB. destruct B as [|s B]; [done|]. cbn [mutated]. rewrite (proj2 (Z.ltb_ge _ _)) by (by eapply HB). apply merge_prev_snoc.
Qed.

Section Mutate.
Context (f : pos → prog Value bool) (u : Range → Value → Value * bool).
Context (Hf : mutates f u) (Hu : ∀ r v, (u r v).2 = true).

Lemma wp_mutate_full fuel h A s B P G it (e : Z) Q :
  view h (A ++ s :: B) P G → P !! length A = Some it → segs_ok (s :: B) → length B < fuel → (r_Start s.1 < e)%Z →
  contiguous e (r_Start s.1) (s :: B) = true →
  (∀ h' P' G', view h' (mutated u e A (s :: B)) P' G' → Q () h') →
  wp (mutate_full_loop fuel e f it) h Q.
Proof.
  revert h A s B P G it. induction fuel as [|fuel IH]; intros h A s B P G it Hv Hit Hok Hlt He Hc HQ; [lia|].
  cbn [mutate_full_loop]. view_step. eapply wp_SplitAfter; [done|done|]. intros h1 P1 G1 it1 Hv1 Hit1.
  set (c := (cut_after s e).1) in *. view_step. eapply wp_mono; [by eapply Hf|]. cbn beta. intros ? h2 [-> Hv2]. view_step. view_step.
  view_step. eapply wp_MergePrev; [exact Hv2|exact Hit1|]. intros h3 P3 G3 it3 Hv3 Hit3. cbn [fst].
  cbn [mutated] in HQ. rewrite (proj2 (Z.ltb_lt _ _) He) in HQ. rewrite Hu in *. fold c in HQ.
  set (m := join_prev A (c.1, (u c.1 c.2).1)) in *.
  destruct (after_segment _ _ Hok) as (Hs & HokB & HB). destruct (cut_after_end s e Hs He) as [Ee Er]. fold c in Ee. rewrite Ee. simpl negb. cbn [orb].
  simpl in Hc. rewrite Z.eqb_refl in Hc. simpl in Hc. destruct (Z.leb_spec e (Z.min (r_End s.1) e)) as [Hend|Hend].
  - view_step. eapply wp_MergeNext; [exact Hv3|exact Hit3|]. intros h4 P4 G4 it4 Hv4 _. view_step. eapply HQ.
    destruct (cut_after_cases s e) as [E|(s2 & E & _)]; rewrite E in *; [|by rewrite merge_prev_snoc].
    rewrite mutated_last; [done|]. intros n B' ->. apply Forall_cons in HB as [Hn _]. unfold from in Hn. lia.
  - rewrite (proj2 (Z.leb_gt _ _)) in Hc by lia. simpl in Hc. assert (E : (cut_after s e).2 = []) by (apply Er; lia). rewrite E in *.
    rewrite Z.min_l by lia. view_step. eapply wp_NextSegment; [exact Hv3|exact Hit3|]. destruct B as [|n B]; [done|].
    pose proof Hc as Hc'. simpl in Hc'. apply andb_true_iff in Hc' as [Hn%Z.eqb_eq _]. cbn [app] in Hv3. simpl in Hlt.
    rewrite <- (next_snoc m.1 m.2). rewrite <- snoc_app in Hv3.
    eapply wp_next_at; [exact Hv3| |by eauto]. intros ? ? it4 [= <- <-] Hit4 _.
    eapply IH; [exact Hv3|exact Hit4|done|lia|lia|by rewrite Hn|done].
Qed.

Lemma mutate_full_panics fuel h A s B P G it (e : Z) :
  view h (A ++ s :: B) P G → P !! length A = Some it → segs_ok (s :: B) → (r_Start s.1 < e)%Z →
  contiguous e (r_Start s.1) (s :: B) = false → mutate_full_loop fuel e f it h = None.
Proof.
  revert h A s B P G it. induction fuel as [|fuel IH]; intros h A s B P G it Hv Hit Hok He Hc; [done|].
  cbn [mutate_full_loop]. apply fails_bind. eapply wp_SplitAfter; [done|done|]. intros h1 P1 G1 it1 Hv1 Hit1.
  set (c := (cut_after s e).1) in *. apply fails_bind. eapply wp_mono; [by eapply Hf|]. cbn beta. intros ? h2 [-> Hv2].
  apply fails_bind. view_step. apply fails_bind. eapply wp_MergePrev; [exact Hv2|exact Hit1|]. intros h3 P3 G3 it3 Hv3 Hit3. cbn [fst].
  rewrite Hu. set (m := join_prev A (c.1, (u c.1 c.2).1)) in *.
  destruct (after_segment _ _ Hok) as (Hs & HokB & HB). destruct (cut_after_end s e Hs He) as [Ee Er]. fold c in Ee. rewrite Ee. simpl negb. cbn [orb].
  simpl in Hc. rewrite Z.eqb_refl in Hc. apply orb_false_iff in Hc as [He2%Z.leb_gt Hc].
  assert (E : (cut_after s e).2 = []) by (apply Er; lia). rewrite E in *. rewrite (proj2 (Z.leb_gt _ _)) by lia.
  rewrite Z.min_l by lia. apply fails_bind. eapply wp_NextSegment; [exact Hv3|exact Hit3|]. cbn [app] in Hv3.
  rewrite <- (next_snoc m.1 m.2). rewrite <- snoc_app in Hv3. destruct B as [|n B].
  { rewrite app_nil_r in Hv3. by rewrite (view_end _ _ _ _ Hv3). }
  destruct (view_seg _ _ _ _ _ _ Hv3) as [it4 Hit4]. rewrite Hit4. apply fails_bind. view_step. apply fails_bind. view_step.
  destruct (Z.eqb_spec (r_Start n.1) (r_End s.1)) as [Hn|Hn]; [|done]. simpl negb. cbn match.
  eapply IH; [exact Hv3|exact Hit4|done|lia|by rewrite Hn].
Qed.

(** ** Visits *)

Lemma wp_visit_full fuel h A s B P G (e : Z) Q :
  view h (A ++ s :: B) P G → segs_ok (s :: B) → length B < fuel → (r_Start s.1 < e)%Z →
  contiguous e (r_Start s.1) (s :: B) = true →
  (∀ h' P' G', view h' (A ++ visited u e (s :: B)) P' G' → Q () h') →
  wp (visit_full_loop fuel e f (P !! length A)) h Q.
Proof.
  revert h A s B P G. induction fuel as [|fuel IH]; intros h A s B P G Hv Hok Hlt He Hc HQ; [lia|].
  cbn [visit_full_loop]. destruct (view_seg _ _ _ _ _ _ Hv) as [it Hit]. rewrite Hit. view_step. view_step. view_step.
  eapply wp_mono; [by eapply Hf|]. cbn beta. intros ? h2 [-> Hv2]. rewrite Hu. cbn [negb]. view_step. view_step. cbn [fst].
  destruct (after_segment _ _ Hok) as (Hs & HokB & HB). cbn [visited] in HQ. rewrite (proj2 (Z.ltb_lt _ _) He), Hu in HQ.
  simpl in Hc. rewrite Z.eqb_refl in Hc. simpl in Hc. destruct (Z.leb_spec e (r_End s.1)) as [Hend|Hend].
  - view_step. eapply HQ. destruct B as [|n B]; [done|]. cbn [visited]. apply Forall_cons in HB as [Hn _]. unfold from in Hn.
    by rewrite (proj2 (Z.ltb_ge _ _)) by lia.
  - simpl in Hc. destruct B as [|n B]; [done|]. pose proof Hc as Hc'. simpl in Hc'. apply andb_true_iff in Hc' as [Hn%Z.eqb_eq _].
    view_step. eapply wp_NextNonEmpty; [exact Hv2|exact Hit| |].
    + intros ? ? i2 [= <- <-] H2 _. rewrite <- H2. simpl in Hlt.
      eapply IH; [by rewrite snoc_app|done|lia|lia|by rewrite Hn|]. intros h' P' G'. rewrite snoc_app. apply HQ.
    + intros g Hne _. by destruct (Hne n B eq_refl).
Qed.

Lemma visit_full_panics fuel h A s B P G (e : Z) :
  view h (A ++ s :: B) P G → segs_ok (s :: B) → (r_Start s.1 < e)%Z →
  contiguous e (r_Start s.1) (s :: B) = false → visit_full_loop fuel e f (P !! length A) h = None.
Proof.
  revert h A s B P G. induction fuel as [|fuel IH]; intros h A s B P G Hv Hok He Hc; [done|].
  cbn [visit_full_loop]. destruct (view_seg _ _ _ _ _ _ Hv) as [it Hit]. rewrite Hit. apply fails_bind. view_step. apply fails_bind.
  eapply wp_mono; [by eapply Hf|]. cbn beta. intros ? h2 [-> Hv2]. rewrite Hu. cbn [negb]. apply fails_bind. view_step. cbn [fst].
  destruct (after_segment _ _ Hok) as (Hs & HokB & HB). simpl in Hc. rewrite Z.eqb_refl in Hc.
  apply orb_false_iff in Hc as [He2%Z.leb_gt Hc]. rewrite (proj2 (Z.leb_gt _ _)) by lia. apply fails_bind.
  eapply wp_NextNonEmpty; [exact Hv2|exact Hit| |by intros; destruct fuel].
  intros n B' i2 -> H2 Hn. rewrite <- H2. eapply IH; [by rewrite snoc_app|done|cbn [fst] in Hn; lia|].
  cbn [fst] in Hn. by rewrite Hn.
Qed.
End Mutate.
End Full.
