(* ===== verification/SegMeaning.v ===== *)
(** * What a segment set means

    A set of segments stands for a partial function on keys: a key in a segment is mapped to
    what the value of the segment means there.  Merging and splitting keep the meaning. *)

From stdpp Require Import base numbers decidable gmap sorting option list.
From S2P Require Import SegSet SegIter SegView SegOps SegLoops Prelude.

#[export] Instance option_union_assoc {D} : Assoc (=@{option D}) (∪).
Proof. by intros [] [] []. Qed.

(** What the documentation of [Functions] says of [Merge] and [Split]: a merged value stands
    for the two values on their ranges, and the two values of a split stand for the value. *)
Class FunctionsMeaning (Value : Type) `{Functions Value} := {
  Datum : Type;
  datum : Range → Value → Z → Datum;
  datum_merge r1 v1 r2 v2 v x :
    (r_Start r1 < r_End r1)%Z → r_End r1 = r_Start r2 → (r_Start r2 < r_End r2)%Z →
    MergeValues r1 v1 r2 v2 = Some v → (r_Start r1 <= x < r_End r2)%Z →
    datum (mkRange (r_Start r1) (r_End r2)) v x = if (x <? r_End r1)%Z then datum r1 v1 x else datum r2 v2 x;
  datum_split r v k x :
    (r_Start r < k < r_End r)%Z → (r_Start r <= x < r_End r)%Z →
    datum r v x = if (x <? k)%Z then datum (mkRange (r_Start r) k) (SplitValue r v k).1 x
                  else datum (mkRange k (r_End r)) (SplitValue r v k).2 x
}.

Section Meaning.
Context {Value : Type} `{FL : FunctionsLaws Value} `{FM : !FunctionsMeaning Value}.
Local Abbreviation seg := (Range * Value)%type.
Implicit Types (s m : seg) (A B L M : list seg) (r : Range) (v : Value) (x : Z).

Definition seg_denote s x : option Datum := if Contains s.1 x then Some (datum s.1 s.2 x) else None.

Fixpoint denote L x : option Datum := match L with [] => None | s :: L => seg_denote s x ∪ denote L x end.

Lemma denote_app A B x : denote (A ++ B) x = denote A x ∪ denote B x.
Proof. induction A as [|s A IH]; simpl; [by rewrite (left_id_L None (∪))|]. by rewrite IH, (assoc_L (∪)). Qed.

Lemma seg_denote_out s x : (x < r_Start s.1 ∨ r_End s.1 <= x)%Z → seg_denote s x = None.
Proof. intros Hx. unfold seg_denote, Contains. destruct (_ && _) eqn:E; [lia|done]. Qed.

Lemma seg_denote_in s x : (r_Start s.1 <= x < r_End s.1)%Z → seg_denote s x = Some (datum s.1 s.2 x).
Proof. intros Hx. unfold seg_denote, Contains. destruct (_ && _) eqn:E; [done|lia]. Qed.

Lemma denote_none L x : Forall (λ s, (x < r_Start s.1 ∨ r_End s.1 <= x)%Z) L → denote L x = None.
Proof. induction 1 as [|s L Hs _ IH]; [done|]. simpl. by rewrite seg_denote_out, IH by done. Qed.

Lemma denote_below (k : Z) A x : Forall (below k) A → (k <= x)%Z → denote A x = None.
Proof. intros HA Hx. apply denote_none. eapply Forall_impl; [exact HA|]. unfold below. intros s. simpl. lia. Qed.

Lemma denote_from (e : Z) B x : Forall (from e) B → (x < e)%Z → denote B x = None.
Proof. intros HB Hx. apply denote_none. eapply Forall_impl; [exact HB|]. unfold from. intros s. simpl. lia. Qed.

(** ** Lists with the same meaning *)

(** What [M'] covers lies within what [M] covers. *)
Definition within M M' : Prop :=
  ∀ s', s' ∈ M' → (∃ s, s ∈ M ∧ r_Start s.1 <= r_Start s'.1)%Z ∧ (∃ s, s ∈ M ∧ r_End s'.1 <= r_End s.1)%Z.

Lemma segs_ok_within A M M' B : segs_ok (A ++ M ++ B) → segs_ok M' → within M M' → segs_ok (A ++ M' ++ B).
Proof.
  intros Hok HM' Hw. apply segs_ok_app in Hok as (HA & Hok & HAM). apply segs_ok_app in Hok as (HM & HB & HMB).
  apply segs_ok_app. split; [done|]. split; [apply segs_ok_app; split_and!; [done|done|]|].
  - intros s1 s2 H1 H2. destruct (Hw s1 H1) as [_ (s & Hs & Hle)]. specialize (HMB s s2 Hs H2). unfold seg_before in *. lia.
  - intros s1 s2 H1 [H2|H2]%elem_of_app; [|apply HAM; set_solver].
    destruct (Hw s2 H2) as [(s & Hs & Hle) _]. assert (Hb := HAM s1 s H1 ltac:(set_solver)). unfold seg_before in *. lia.
Qed.

(** [L'] is as good as [L]. *)
Definition same L L' : Prop := segs_ok L → segs_ok L' ∧ ∀ x, denote L' x = denote L x.

#[export] Instance same_preorder : PreOrder same.
Proof.
  split; [by intros L HL|]. intros L1 L2 L3 H12 H23 HL. destruct (H12 HL) as [HL2 E12]. destruct (H23 HL2) as [HL3 E23].
  split; [done|]. intros x. by rewrite E23.
Qed.

Lemma same_mid A M M' B :
  (segs_ok M → segs_ok M' ∧ within M M' ∧ ∀ x, denote M' x = denote M x) → same (A ++ M ++ B) (A ++ M' ++ B).
Proof.
  intros HM Hok. destruct HM as (HM' & Hw & E). { by apply segs_ok_app in Hok as (_ & (Hok & _)%segs_ok_app & _). }
  split; [by eapply segs_ok_within|]. intros x. by rewrite !denote_app, E.
Qed.

Lemma segs_ok_one s : segs_ok [s] ↔ seg_valid s.
Proof. rewrite segs_ok_cons. split; [by intros (? & _)|]. intros Hs. split_and!; [done| |constructor]. split; constructor. Qed.

Lemma segs_ok_two s1 s2 : segs_ok [s1; s2] ↔ seg_valid s1 ∧ seg_valid s2 ∧ seg_before s1 s2.
Proof.
  rewrite segs_ok_cons, segs_ok_one, Forall_singleton. tauto.
Qed.

Lemma join_same A s1 s2 m B : join s1 s2 = Some m → same (A ++ s1 :: s2 :: B) (A ++ m :: B).
Proof.
  intros (E & v & Em & ->)%join_inv. apply (same_mid A [s1; s2] [_] B). rewrite segs_ok_two, segs_ok_one. intros (H1 & H2 & _).
  unfold seg_valid in *. cbn [fst snd r_Start r_End]. split_and!; [lia..| |].
  - intros s' ->%list_elem_of_singleton. split; [exists s1|exists s2]; (split; [set_solver|simpl; lia]).
  - intros x. simpl. rewrite !(right_id_L None (∪)).
    destruct (decide (r_Start s1.1 <= x < r_End s2.1)%Z) as [Hx|Hx].
    + rewrite seg_denote_in by done. cbn [fst snd]. erewrite datum_merge by (done || lia). destruct (Z.ltb_spec x (r_End s1.1)).
      * rewrite (seg_denote_in s1) by lia. simpl. by destruct (seg_denote s2 x).
      * by rewrite (seg_denote_out s1), (seg_denote_in s2), (left_id_L None (∪)) by lia.
    + by rewrite !seg_denote_out by (simpl; lia).
Qed.

Lemma cut_same A s (k : Z) B : CanSplitAt s.1 k = true → same (A ++ s :: B) (A ++ (cut s k).1 :: (cut s k).2 :: B).
Proof.
  intros Hc. apply (same_mid A [s] [_; _] B). rewrite segs_ok_two, segs_ok_one. intros Hs. unfold CanSplitAt, Contains in Hc.
  unfold cut. destruct (SplitValue s.1 s.2 k) as [v1 v2] eqn:Ev. unfold seg_valid, seg_before in *. cbn [fst snd r_Start r_End].
  split_and!; [lia..| |].
  - intros s' Hs'. rewrite !elem_of_cons, elem_of_nil in Hs'.
    destruct Hs' as [-> | [-> | []]]; (split; exists s; (split; [set_solver|simpl; lia])).
  - intros x. simpl. rewrite !(right_id_L None (∪)).
    destruct (decide (r_Start s.1 <= x < r_End s.1)%Z) as [Hx|Hx].
    + rewrite (seg_denote_in s) by done. rewrite (datum_split _ _ k) by lia. rewrite Ev. cbn [fst snd]. destruct (Z.ltb_spec x k).
      * rewrite (seg_denote_in (mkRange _ k, v1)) by (simpl; lia). by destruct (seg_denote _ x).
      * by rewrite (seg_denote_out (mkRange _ k, v1)), seg_denote_in, (left_id_L None (∪)) by (simpl; lia).
    + by rewrite !seg_denote_out by (simpl; lia).
Qed.

Lemma join_next_same A s B : same (A ++ s :: B) (A ++ join_next s B).
Proof. destruct B as [|n B]; [done|]. simpl. destruct (join s n) as [m|] eqn:E; [by apply join_same|done]. Qed.

Lemma merge_prev_same A s B : same (A ++ s :: B) (merge_prev A s B).
Proof.
  unfold merge_prev. destruct A as [|p A _] using rev_ind; [done|]. rewrite join_prev_snoc.
  destruct (join p s) as [m|] eqn:E; [|done]. rewrite snoc_app. by apply join_same.
Qed.

Lemma join_both_same A s B : same (A ++ s :: B) (join_both A s B).
Proof. etransitivity; [apply merge_prev_same|]. apply join_next_same. Qed.

Lemma join_from_same A s B : same (A ++ s :: B) (A ++ join_from s B).
Proof.
  revert A s. induction B as [|n B IH]; intros A s; [done|]. simpl. destruct (join s n) as [m|] eqn:E.
  - etransitivity; [by apply join_same|]. apply IH.
  - specialize (IH (A ++ [s]) n). by rewrite !snoc_app in IH.
Qed.

Lemma join_inside_same (e : Z) A s B : same (A ++ s :: B) (A ++ join_inside e s B).
Proof.
  revert A s. induction B as [|n B IH]; intros A s; [done|]. cbn [join_inside]. destruct (r_Start n.1 <? e)%Z; [|done].
  destruct (join s n) as [m|] eqn:E.
  - etransitivity; [by apply join_same|]. apply IH.
  - specialize (IH (A ++ [s]) n). by rewrite !snoc_app in IH.
Qed.

Lemma join_all_same L : same L (join_all L).
Proof. destruct L as [|s L]; [done|]. apply (join_from_same []). Qed.

Lemma cut_before_same A s (k : Z) B : same (A ++ s :: B) ((A ++ (cut_before s k).1) ++ (cut_before s k).2 :: B).
Proof.
  unfold cut_before. destruct (CanSplitAt s.1 k) eqn:E; cbn [fst snd]; [|by rewrite app_nil_r].
  rewrite snoc_app. by apply cut_same.
Qed.

Lemma cut_after_same A s (k : Z) B : same (A ++ s :: B) (A ++ (cut_after s k).1 :: (cut_after s k).2 ++ B).
Proof.
  unfold cut_after. destruct (CanSplitAt s.1 k) eqn:E; cbn [fst snd]; [|done]. by apply cut_same.
Qed.

(** ** Insertion *)

Lemma insert_meaning A r v B :
  segs_ok (A ++ B) → seg_valid (r, v) → Forall (below (r_Start r)) A → Forall (from (r_End r)) B →
  segs_ok (A ++ (r, v) :: B) ∧
  ∀ x, denote (A ++ (r, v) :: B) x = if Contains r x then Some (datum r v x) else denote (A ++ B) x.
Proof.
  intros (HokA & HokB & HAB)%segs_ok_app Hr HA HB. split.
  - apply segs_ok_app. rewrite segs_ok_cons. split_and!; [done|done|done|exact HB|].
    intros s1 s2 H1 [-> | H2]%elem_of_cons; [|by apply HAB]. rewrite Forall_forall in HA. by apply HA.
  - intros x. rewrite !denote_app. cbn [denote]. unfold seg_denote at 1. cbn [fst snd].
    destruct (Contains r x) eqn:E; [|by rewrite (left_id_L None (∪))]. unfold Contains in E.
    rewrite (denote_below _ A x HA), (denote_from _ B x HB) by lia. done.
Qed.

(** A range that overlaps no segment has no key of the set. *)
Lemma not_overlapping L r x : ¬ overlapping L r → (r_Start r <= x < r_End r)%Z → denote L x = None.
Proof.
  intros Hno Hx. apply denote_none. apply Forall_forall. intros s Hs.
  destruct (decide (x < r_Start s.1 ∨ r_End s.1 <= x)%Z); [done|]. exfalso. apply Hno. apply Exists_exists.
  exists s. split; [done|]. unfold Overlaps. lia.
Qed.

Lemma denote_some L x : is_Some (denote L x) ↔ ∃ s, s ∈ L ∧ (r_Start s.1 <= x < r_End s.1)%Z.
Proof.
  induction L as [|s L IH]; simpl; [split; [by intros []|set_solver]|].
  destruct (decide (r_Start s.1 <= x < r_End s.1)%Z) as [Hx|Hx].
  - rewrite seg_denote_in by done. split; [|by destruct (denote L x)]. intros _. exists s. set_solver.
  - rewrite seg_denote_out, (left_id_L None (∪)), IH by lia. set_solver.
Qed.

Lemma overlapping_key L r : segs_ok L → (r_Start r < r_End r)%Z →
  (overlapping L r ↔ ∃ x, (r_Start r <= x < r_End r)%Z ∧ is_Some (denote L x)).
Proof.
  intros [HL _] Hr. unfold overlapping. rewrite Exists_exists. split.
  - intros (s & Hs & Ho). rewrite Forall_forall in HL. specialize (HL s Hs). unfold seg_valid, Overlaps in *.
    exists (Z.max (r_Start s.1) (r_Start r)). split; [lia|]. apply denote_some. exists s. split; [done|lia].
  - intros (x & Hx & (s & Hs & Hs')%denote_some). exists s. split; [done|]. unfold Overlaps. lia.
Qed.

(** ** Removal *)

(** The part of a segment up to [e]. *)
Lemma cut_after_below s (e : Z) : seg_valid s → (r_Start s.1 < e)%Z → below e (cut_after s e).1.
Proof.
  intros Hs He. unfold cut_after, cut, CanSplitAt, Contains, seg_valid, below in *. destruct (_ && _) eqn:E; cbn [fst]; [|lia].
  destruct (SplitValue _ _ _). simpl. lia.
Qed.

(** The part of a segment from [k] on. *)
Lemma cut_before_start s (k : Z) : (r_Start s.1 <= k < r_End s.1)%Z → r_Start (cut_before s k).2.1 = k.
Proof.
  intros Hk. unfold cut_before, cut, CanSplitAt, Contains. destruct (_ && _) eqn:E; cbn [fst snd]; [|lia].
  by destruct (SplitValue _ _ _).
Qed.

Lemma trim_cut (e : Z) m B : (r_Start m.1 < e)%Z → trim e ((cut_after m e).2 ++ B) = trim e (m :: B).
Proof.
  intros He. simpl. rewrite (proj2 (Z.ltb_lt _ _) He). destruct (cut_after_cases m e) as [-> | (s2 & -> & E)]; [done|].
  simpl. by rewrite E, Z.ltb_irrefl.
Qed.

Lemma denote_skip (e : Z) s B x : below e s → (e <= x)%Z → denote (s :: B) x = denote B x.
Proof. unfold below. intros Hs Hx. cbn [denote]. by rewrite seg_denote_out, (left_id_L None (∪)) by lia. Qed.

Lemma trim_meaning (e : Z) B :
  segs_ok B → segs_ok (trim e B) ∧ Forall (from e) (trim e B) ∧
    ∀ x, denote (trim e B) x = if (x <? e)%Z then None else denote B x.
Proof.
  induction B as [|s B IH]; intros Hok; cbn [trim].
  { split_and!; [done|constructor|]. intros x. by destruct (x <? e)%Z. }
  assert (Hpart : ∀ c B', segs_ok (c :: B') → below e c → segs_ok B') by (by intros c B' (_ & ? & _)%segs_ok_cons).
  destruct (Z.ltb_spec (r_Start s.1) e) as [He|He].
  - pose proof Hok as (Hs & HokB & _)%segs_ok_cons. pose proof (cut_after_below s e Hs He) as Hc.
    destruct (cut_after_same [] s e B Hok) as [Hok' Hd]. cbn [app] in Hok', Hd.
    destruct (cut_after_cases s e) as [E|(s2 & E & Es2)]; rewrite E in *; cbn [app] in Hok', Hd.
    + destruct (IH HokB) as (H1 & H2 & H3). split_and!; [done|done|]. intros x. rewrite H3. destruct (Z.ltb_spec x e); [done|].
      rewrite <- Hd. by rewrite (denote_skip e (cut_after s e).1).
    + apply Hpart in Hok'; [|done]. assert (HF : Forall (from e) (s2 :: B)) by (apply segs_from; [done|unfold from; lia]).
      split_and!; [done|done|]. intros x. destruct (Z.ltb_spec x e); [by eapply denote_from|].
      rewrite <- Hd. by rewrite (denote_skip e (cut_after s e).1).
  - assert (HF : Forall (from e) (s :: B)) by (by apply segs_from). split_and!; [done|done|]. intros x.
    destruct (Z.ltb_spec x e); [by apply (denote_from e)|done].
Qed.

Lemma trim_removes A B r :
  segs_ok (A ++ B) → (r_Start r <= r_End r)%Z → Forall (below (r_Start r)) A → Forall (from (r_Start r)) B →
  segs_ok (A ++ trim (r_End r) B) ∧
  ∀ x, denote (A ++ trim (r_End r) B) x = if Contains r x then None else denote (A ++ B) x.
Proof.
  intros (HA & HB & _)%segs_ok_app Hr HbA HfB. destruct (trim_meaning (r_End r) B HB) as (H1 & H2 & H3). split.
  - apply segs_ok_app. split_and!; [done|done|]. intros s1 s2 Hs1 Hs2. rewrite Forall_forall in HbA, H2.
    specialize (HbA _ Hs1). specialize (H2 _ Hs2). unfold below, from, seg_before in *. lia.
  - intros x. rewrite !denote_app, H3. unfold Contains. destruct (Z.leb_spec (r_Start r) x), (Z.ltb_spec x (r_End r)); simpl.
    + by rewrite (denote_below _ _ x HbA).
    + done.
    + by rewrite (denote_from _ _ x HfB).
    + done.
Qed.

Lemma before_segment A s B : segs_ok (A ++ s :: B) → Forall (below (r_Start s.1)) A ∧ Forall (from (r_Start s.1)) (s :: B).
Proof.
  intros (_ & Hs & Hb)%segs_ok_app. split; [|apply segs_from; [done|unfold from; lia]].
  apply Forall_forall. intros s1 H1. apply Hb; [done|set_solver].
Qed.

Lemma denote_at A s B x :
  segs_ok (A ++ s :: B) → (r_Start s.1 <= x < r_End s.1)%Z → denote (A ++ s :: B) x = Some (datum s.1 s.2 x).
Proof.
  intros [HA _]%before_segment Hx. rewrite denote_app, (denote_below (r_Start s.1)) by (done || lia). cbn [denote].
  rewrite seg_denote_in by done. by destruct (denote B x).
Qed.

Lemma isolate_same A s r B :
  let '(l, m) := cut_before s (r_Start r) in
  same (A ++ s :: B) ((A ++ l) ++ (cut_after m (r_End r)).1 :: (cut_after m (r_End r)).2 ++ B).
Proof.
  assert (Hc := cut_before_same A s (r_Start r) B). destruct (cut_before s (r_Start r)) as [l m].
  etransitivity; [exact Hc|]. apply cut_after_same.
Qed.

Lemma removed_meaning L r A B :
  segs_ok L → (r_Start r < r_End r)%Z → removed L r A B →
  segs_ok (A ++ B) ∧ Forall (below (r_Start r)) A ∧ Forall (from (r_End r)) B ∧
  ∀ x, denote (A ++ B) x = if Contains r x then None else denote L x.
Proof.
  intros Hok Hr [(A' & s & B' & -> & Hs & Hc)|(B' & -> & HA & HB & ->)].
  - destruct (cut_before_same A' s (r_Start r) B' Hok) as [Hok' Hd]. pose proof (cut_before_start s _ Hs) as Hst.
    destruct (cut_before s (r_Start r)) as [l m]. cbn [fst snd] in *. destruct Hc as [-> ->]. rewrite trim_cut by lia.
    pose proof (before_segment _ _ _ Hok') as [HA HB]. rewrite Hst in HA, HB.
    destruct (trim_removes _ _ r Hok' ltac:(lia) HA HB) as [H1 H2]. split_and!; [done|done| |].
    + apply segs_ok_app in Hok' as (_ & Hok' & _). by apply (trim_meaning (r_End r)) in Hok' as (_ & ? & _).
    + intros x. rewrite H2. by destruct (Contains r x).
  - assert (HB' : Forall (from (r_Start r)) B').
    { eapply Forall_impl; [exact HB|]. unfold above, from. intros ?. lia. }
    destruct (trim_removes _ _ r Hok ltac:(lia) HA HB') as [H1 H2]. split_and!; [done|done| |done].
    apply segs_ok_app in Hok as (_ & Hok & _). by apply (trim_meaning (r_End r)) in Hok as (_ & ? & _).
Qed.

(** ** Mutation *)

Section Mutate.
Context (u : Range → Value → Value * bool) (g : Z → Datum → Datum).

(** Every value is changed key by key, and the mutation goes on. *)
Definition pointwise : Prop :=
  ∀ r v, (u r v).2 = true ∧ ∀ x, (r_Start r <= x < r_End r)%Z → datum r (u r v).1 x = g x (datum r v x).

Context (Hu : pointwise).

Lemma seg_denote_mut s x : seg_denote (s.1, (u s.1 s.2).1) x = g x <$> seg_denote s x.
Proof.
  unfold seg_denote. cbn [fst snd]. destruct (Contains s.1 x) eqn:E; [|done]. unfold Contains in E.
  simpl. f_equal. apply (Hu s.1 s.2). lia.
Qed.

(** Only the ranges matter for the order. *)
Lemma segs_ok_value A s v B : segs_ok (A ++ s :: B) → segs_ok (A ++ (s.1, v) :: B).
Proof.
  intros Hok. apply (segs_ok_within A [s] [(s.1, v)] B Hok).
  - apply segs_ok_one. by apply segs_ok_app in Hok as (_ & (Hs & _)%segs_ok_cons & _).
  - intros s' ->%list_elem_of_singleton. split; exists s; (split; [set_solver|simpl; lia]).
Qed.

(** The meaning with [g] applied below [e]. *)
Definition mut_below (e : Z) (o : option Datum) x : option Datum := if (x <? e)%Z then g x <$> o else o.

Lemma mut_below_union e o1 o2 x : mut_below e (o1 ∪ o2) x = mut_below e o1 x ∪ mut_below e o2 x.
Proof. unfold mut_below. destruct (x <? e)%Z; [|done]. by destruct o1, o2. Qed.

Lemma mut_below_seg e s x : below e s → mut_below e (seg_denote s x) x = seg_denote (s.1, (u s.1 s.2).1) x.
Proof.
  unfold below, mut_below. intros Hs. rewrite seg_denote_mut. destruct (Z.ltb_spec x e); [done|].
  by rewrite seg_denote_out by lia.
Qed.

Lemma mut_below_from e B x : Forall (from e) B → mut_below e (denote B x) x = denote B x.
Proof. intros HB. unfold mut_below. destruct (Z.ltb_spec x e); [|done]. by rewrite (denote_from e) by done. Qed.

Lemma mutated_meaning e A B :
  segs_ok (A ++ B) →
  segs_ok (mutated u e A B) ∧ ∀ x, denote (mutated u e A B) x = denote A x ∪ mut_below e (denote B x) x.
Proof.
  revert A. induction B as [|s B IH]; intros A Hok; cbn [mutated].
  { rewrite app_nil_r in Hok. split; [done|]. intros x. unfold mut_below. simpl.
    by destruct (x <? e)%Z; rewrite (right_id_L None (∪)). }
  destruct (Z.ltb_spec (r_Start s.1) e) as [He|He].
  2: { destruct (merge_prev_same A s B Hok) as [H1 H2]. split; [done|]. intros x. rewrite H2, denote_app, mut_below_from; [done|].
       apply segs_from; [|done]. by apply segs_ok_app in Hok as (_ & ? & _). }
  rewrite (proj1 (Hu _ _)). destruct (cut_after_same A s e B Hok) as [Hok1 Hd]. assert (Hok2 := segs_ok_value A _ (u (cut_after s e).1.1 (cut_after s e).1.2).1 _ Hok1).
  pose proof Hok as (_ & (Hs & _)%segs_ok_cons & _)%segs_ok_app. assert (Hc := cut_after_below s e Hs He).
  set (c := (cut_after s e).1) in *. set (c' := (c.1, (u c.1 c.2).1)) in *. set (m := join_prev A c').
  destruct (merge_prev_same A c' _ Hok2) as [Hok3 _]. unfold merge_prev in Hok3. fold m in Hok3.
  assert (Hm : ∀ x, denote (m.1 ++ [m.2]) x = denote A x ∪ mut_below e (seg_denote c x) x).
  { intros x. rewrite mut_below_seg by done. destruct (merge_prev_same A c' []) as [_ E].
    - rewrite <- snoc_app in Hok2. by apply segs_ok_app in Hok2 as [? _].
    - unfold m. rewrite (E x : denote ((join_prev A c').1 ++ [(join_prev A c').2]) x = _), denote_app. simpl. by rewrite (right_id_L None (∪)). }
  assert (Hmid : ∀ x, denote (s :: B) x = seg_denote c x ∪ denote ((cut_after s e).2 ++ B) x).
  { intros x. destruct (cut_after_same [] s e B) as [_ E]; [by apply segs_ok_app in Hok as (_ & ? & _)|]. symmetry. exact (E x). }
  destruct (cut_after_cases s e) as [E|(s2 & E & Es2)]; rewrite E in *; cbn [app] in *.
  - rewrite <- snoc_app in Hok3. destruct (IH _ Hok3) as [H1 H2]. split; [done|]. intros x.
    by rewrite H2, Hm, Hmid, mut_below_union, (assoc_L (∪)).
  - rewrite <- snoc_app in Hok3. destruct (merge_prev_same _ _ _ Hok3) as [H1 H2]. split; [done|]. intros x.
    rewrite H2, denote_app, Hm, Hmid, mut_below_union, (assoc_L (∪)). f_equal. symmetry. apply mut_below_from.
    apply segs_from; [by apply segs_ok_app in Hok3 as (_ & ? & _)|unfold from; lia].
Qed.
End Mutate.

Lemma lower_split_same L (k : Z) A B :
  segs_ok L → lower_split L k A B →
  segs_ok (A ++ B) ∧ Forall (below k) A ∧ Forall (from k) B ∧ ∀ x, denote (A ++ B) x = denote L x.
Proof.
  intros Hok [(A' & s & B' & -> & Hs & -> & ->)|(-> & HA & HB)].
  - destruct (cut_before_same A' s k B' Hok) as [Hok' Hd]. pose proof (before_segment _ _ _ Hok') as [HA HB].
    rewrite (cut_before_start s k Hs) in HA, HB. done.
  - split_and!; [done|done| |done]. eapply Forall_impl; [exact HB|]. unfold above, from. intros ?. lia.
Qed.

(** ** Ranges without gaps *)

Lemma contiguous_covered (e x : Z) B :
  segs_ok B → Forall (from x) B → (x < e)%Z →
  contiguous e x B = true ↔ ∀ k, (x <= k < e)%Z → is_Some (denote B k).
Proof.
  revert x. induction B as [|s B IH]; intros x Hok Hx He; cbn [contiguous].
  { split; [done|]. intros Hall. destruct (Hall x) as [d Hd]; [lia|done]. }
  destruct (after_segment _ _ Hok) as (Hs & HokB & HB). apply Forall_cons in Hx as [Hxs _]. unfold from in Hxs.
  assert (Htail : ∀ k, (r_End s.1 <= k)%Z → denote (s :: B) k = denote B k) by (intros k Hk; apply (denote_skip (r_End s.1)); [unfold below; lia|done]).
  rewrite andb_true_iff, orb_true_iff, Z.eqb_eq, Z.leb_le. unfold seg_valid in Hs. split.
  - intros [Hst Hrest] k Hk. destruct (decide (k < r_End s.1)%Z).
    + apply denote_some. exists s. split; [set_solver|lia].
    + rewrite Htail by lia. destruct Hrest as [?|Hc]; [lia|]. apply (proj1 (IH (r_End s.1) HokB HB ltac:(lia)) Hc). lia.
  - intros Hall. split.
    + destruct (Hall x ltac:(lia)) as [d Hd]. destruct (proj1 (denote_some (s :: B) x) ltac:(eauto)) as (s' & Hs' & Hin).
      apply elem_of_cons in Hs' as [-> | Hs']; [lia|]. rewrite Forall_forall in HB. specialize (HB s' Hs'). unfold from in HB. lia.
    + destruct (decide (e <= r_End s.1)%Z); [by left|]. right. apply (IH (r_End s.1)); [done|done|lia|]. intros k Hk.
      rewrite <- Htail by lia. apply Hall. lia.
Qed.

(** ** Counting keys *)

Definition keys_of r : list Z := seqZ (r_Start r) (r_End r - r_Start r).

Lemma elem_of_keys_of r x : x ∈ keys_of r ↔ (r_Start r <= x < r_End r)%Z.
Proof. unfold keys_of. rewrite elem_of_seqZ. lia. Qed.

Lemma shared_count r s :
  (r_Start r <= r_End r)%Z →
  shared r s = Z.of_nat (length (filter (λ x, r_Start s.1 <= x < r_End s.1)%Z (keys_of r))).
Proof.
  intros Hr. unfold keys_of, shared. rewrite <- (Z2Nat.id (r_End r - r_Start r)) by lia. rewrite count_range, Z2Nat.id by lia. lia.
Qed.

Lemma span_keys r L :
  segs_ok L → (r_Start r <= r_End r)%Z →
  span_of r L = Z.of_nat (length (filter (λ x, is_Some (denote L x)) (keys_of r))).
Proof.
  intros Hok Hr. induction L as [|s L IH].
  { rewrite (length_filter_ext _ (λ _, False)); [|intros x; split; [by intros []|done]]. by induction (keys_of r). }
  apply segs_ok_cons in Hok as (Hs & Hok & Hsl). cbn [span_of foldr]. fold (span_of r L). rewrite IH, shared_count by done.
  rewrite <- Nat2Z.inj_add, <- length_filter_or.
  - f_equal. apply length_filter_ext. intros x. rewrite !denote_some. set_solver.
  - intros x Hx [d Hd]. by rewrite (denote_from (r_End s.1) L) in Hd by (done || lia).
Qed.
End Meaning.
