(* ===== verification/IdMapFunctions.v ===== *)
(** * The functions of ID mappings (src/pkg/sentry/kernel/auth/id_map_functions.go)

    The parameters with which the build instantiates the segment sets for the ID mappings of
    user namespaces: keys and values are of type uint32, and a segment maps its range of IDs
    to the IDs from its value on. *)

From stdpp Require Import base numbers decidable list.
From S2P Require Import SegSet SegIter SegMeaning Prelude.

Local Open Scope Z_scope.

(** [r1.Length()] with keys of type uint32. *)
Definition idMap_Length (r : Range) : Z := wrap32 (r_End r - r_Start r).

Definition idMap_Merge (r1 : Range) (val1 : Z) (r2 : Range) (val2 : Z) : option Z :=
  if negb (wrap32 (val1 + idMap_Length r1) =? val2) then None else Some val1.

Definition idMap_Split (r : Range) (val : Z) (split : Z) : Z * Z := (val, wrap32 (val + wrap32 (split - r_Start r))).

#[export] Instance idMapFunctions : Functions Z := {|
  zeroValue := 0;
  key_arith := wrap32;
  minDegree := 3;
  MinKey := 0;
  MaxKey := 2 ^ 32 - 1;
  ClearValue v := v;
  MergeValues := idMap_Merge;
  SplitValue := idMap_Split
|}.

#[export] Instance idMapFunctions_laws : FunctionsLaws Z.
Proof. split; [done|]. intros z Hz. simpl in *. apply wrap32_small. unfold in_u32. lia. Qed.

(** The ID a key is mapped to. *)
Definition idMap_datum (r : Range) (v x : Z) : Z := wrap32 (v + (x - r_Start r)).

Lemma wrap32_add_l a b : wrap32 (wrap32 a + b) = wrap32 (a + b).
Proof. unfold wrap32. apply Zplus_mod_idemp_l. Qed.

Lemma wrap32_add_r a b : wrap32 (a + wrap32 b) = wrap32 (a + b).
Proof. unfold wrap32. apply Zplus_mod_idemp_r. Qed.

Lemma wrap32_add_mid a b c : wrap32 (wrap32 (a + wrap32 b) + c) = wrap32 (a + b + c).
Proof. by rewrite wrap32_add_r, wrap32_add_l. Qed.

#[export] Instance idMapFunctions_meaning : FunctionsMeaning Z.
Proof.
  refine {| Datum := Z; datum := idMap_datum |}.
  - intros r1 v1 r2 v2 v x Hr1 Ha Hr2 Hm Hx. unfold idMap_datum. simpl in *. unfold idMap_Merge, idMap_Length in Hm.
    destruct (Z.eqb_spec (wrap32 (v1 + wrap32 (r_End r1 - r_Start r1))) v2) as [<-|]; simplify_eq/=.
    destruct (x <? r_End r1); [done|]. rewrite wrap32_add_mid. f_equal. lia.
  - intros r v k x Hk Hx. unfold idMap_datum. simpl. destruct (x <? k); [done|]. rewrite wrap32_add_mid. f_equal. lia.
Defined.
