(* ===== verification/SegProps.v ===== *)
(** * Segment sets implement maps from keys

    The operations of a segment set, from the empty set on, against an abstract
    specification: a partial function from keys to data.  Every sequence of operations runs
    without a panic, gives the answers of the specification and leaves a set that stands for
    the same partial function, with its segments in order, in a balanced tree. *)

From stdpp Require Import base numbers decidable gmap sorting option list.
From S2P Require Import SegSet SegHeap SegTree SegIter SegChange SegInsert SegView SegOps SegLoops SegMeaning Prelude.

(** Operations on a set, and what they answer. *)
Inductive set_op (Value : Type) : Type :=
  | OpTryInsert (r : Range) (v : Value)
  | OpTryInsertWithoutMerging (r : Range) (v : Value)
  | OpRemove (r : Range)
  | OpRemoveAll
  | OpMergeAll
  | OpMergeInside (r : Range)
  | OpMergeOutside (r : Range)
  | OpIsolate (key : Z) (r : Range)
  | OpUnisolate (key : Z)
  | OpFind (key : Z)
  | OpSpan (r : Range)
  | OpIsEmptyRange (r : Range)
  | OpSpanAll.
Arguments OpTryInsert {_} _ _.
Arguments OpTryInsertWithoutMerging {_} _ _.
Arguments OpRemove {_} _.
Arguments OpRemoveAll {_}.
Arguments OpMergeAll {_}.
Arguments OpMergeInside {_} _.
Arguments OpMergeOutside {_} _.
Arguments OpIsolate {_} _ _.
Arguments OpUnisolate {_} _.
Arguments OpFind {_} _.
Arguments OpSpan {_} _.
Arguments OpIsEmptyRange {_} _.
Arguments OpSpanAll {_}.

(** [Iterator.Ok]. *)
Definition isOk {A} (o : option A) : bool := match o with Some _ => true | None => false end.

Inductive answer (D : Type) : Type := ANone | ABool (b : bool) | ASize (n : Z) | ADatum (d : option D).
Arguments ANone {_}.
Arguments ABool {_} _.
Arguments ASize {_} _.
Arguments ADatum {_} _.

Section Props.
Context {Value : Type} `{FL : FunctionsLaws Value} `{FM : !FunctionsMeaning Value}.
Local Abbreviation seg := (Range * Value)%type.
Local Abbreviation pos := (loc * nat)%type.
Implicit Types (s : seg) (A B L : list seg) (P G : list pos) (r : Range) (v : Value) (h : heap Value).
Implicit Types (op : set_op Value) (m : Z → option Datum).

(** ** The specification *)

Definition op_ok op : Prop :=
  match op with
  | OpTryInsert r _ | OpTryInsertWithoutMerging r _ | OpRemove r | OpSpan r | OpIsEmptyRange r =>
      (MinKey <= r_Start r < r_End r ∧ r_End r <= MaxKey)%Z
  | OpSpanAll => (MinKey <= MaxKey)%Z
  | _ => True
  end.

Definition map_free m r : bool := forallb (λ x, negb (isOk (m x))) (keys_of r).

Definition map_insert m r v : Z → option Datum := λ x, if Contains r x then Some (datum r v x) else m x.

Definition map_remove m r : Z → option Datum := λ x, if Contains r x then None else m x.

(** How many keys of [r] are mapped. *)
Definition map_span m r : Z := Z.of_nat (length (filter (λ x, is_Some (m x)) (keys_of r))).

Definition spec_op op m : answer Datum * (Z → option Datum) :=
  match op with
  | OpTryInsert r v | OpTryInsertWithoutMerging r v =>
      if map_free m r then (ABool true, map_insert m r v) else (ABool false, m)
  | OpRemove r => (ANone, map_remove m r)
  | OpRemoveAll => (ANone, λ _, None)
  | OpMergeAll | OpMergeInside _ | OpMergeOutside _ | OpIsolate _ _ | OpUnisolate _ => (ANone, m)
  | OpFind key => (ADatum (m key), m)
  | OpSpan r => (ASize (map_span m r), m)
  | OpSpanAll => (ASize (map_span m (mkRange MinKey MaxKey)), m)
  | OpIsEmptyRange r => (ABool (map_free m r), m)
  end.

(** ** The code *)

(** The segment with the key, if there is one, is passed to [f]. *)
Definition at_key (key : Z) (f : pos → prog Value pos) : prog Value unit :=
  it ← FindSegment key;
  match it with None => mret () | Some it => _ ← f it; mret () end.

Definition run_op op : prog Value (answer Datum) :=
  match op with
  | OpTryInsert r v => it ← TryInsertRange r v; mret (ABool (isOk it))
  | OpTryInsertWithoutMerging r v => it ← TryInsertWithoutMergingRange r v; mret (ABool (isOk it))
  | OpRemove r => _ ← RemoveRange r; mret ANone
  | OpRemoveAll => _ ← RemoveAll; mret ANone
  | OpMergeAll => _ ← MergeAll; mret ANone
  | OpMergeInside r => _ ← MergeInsideRange r; mret ANone
  | OpMergeOutside r => _ ← MergeOutsideRange r; mret ANone
  | OpIsolate key r => _ ← at_key key (λ it, Isolate it r); mret ANone
  | OpUnisolate key => _ ← at_key key Unisolate; mret ANone
  | OpFind key =>
      it ← FindSegment key;
      match it with
      | None => mret (ADatum None)
      | Some it => r ← seg_Range it; v ← seg_Value it; mret (ADatum (Some (datum r v key)))
      end
  | OpSpan r => n ← SpanRange r; mret (ASize n)
  | OpSpanAll => n ← Span; mret (ASize n)
  | OpIsEmptyRange r => b ← IsEmptyRange r; mret (ABool b)
  end.

Fixpoint run_ops (ops : list (set_op Value)) : prog Value (list (answer Datum)) :=
  match ops with
  | [] => mret []
  | op :: ops => a ← run_op op; l ← run_ops ops; mret (a :: l)
  end.

Fixpoint spec_ops (ops : list (set_op Value)) m : list (answer Datum) * (Z → option Datum) :=
  match ops with
  | [] => ([], m)
  | op :: ops => let '(a, m) := spec_op op m in let '(l, m) := spec_ops ops m in (a :: l, m)
  end.

(** The heap is a set that stands for [m]. *)
Definition stands_for h m : Prop :=
  ∃ L P G, view h L P G ∧ segs_ok L ∧ ∀ x, denote L x = m x.

Definition op_refines op h m : Prop :=
  wp (run_op op) h (λ a h', a = (spec_op op m).1 ∧ stands_for h' (spec_op op m).2).

(** ** Simulation *)

Lemma map_free_spec L r m :
  segs_ok L → (∀ x, denote L x = m x) → (r_Start r < r_End r)%Z → map_free m r = bool_decide (¬ overlapping L r).
Proof.
  intros Hok Hm Hr. apply eq_true_iff_eq. rewrite bool_decide_eq_true, overlapping_key by done. unfold map_free.
  rewrite forallb_forall. split.
  - intros Hf (x & Hx & [d Hd]). rewrite Hm in Hd. specialize (Hf x). rewrite <- list_elem_of_In, elem_of_keys_of, Hd in Hf.
    simpl in Hf. naive_solver.
  - intros Hno x Hx. rewrite <- list_elem_of_In, elem_of_keys_of in Hx. destruct (m x) as [d|] eqn:E; [|done].
    exfalso. apply Hno. exists x. rewrite Hm, E. eauto.
Qed.

Lemma stands_same L L' P G h m :
  view h L' P G → segs_ok L → (∀ x, denote L x = m x) → same L L' → stands_for h m.
Proof. intros Hv Hok Hm Hs. destruct (Hs Hok) as [Hok' Hd]. exists L', P, G. split_and!; [done|done|]. intros x. by rewrite Hd. Qed.

Lemma insert_refines A r v B L' P G h m :
  view h L' P G → segs_ok (A ++ B) → (∀ x, denote (A ++ B) x = m x) → seg_valid (r, v) →
  Forall (below (r_Start r)) A → Forall (from (r_End r)) B → same (A ++ (r, v) :: B) L' → stands_for h (map_insert m r v).
Proof.
  intros Hv Hok Hm Hr HA HB Hs. destruct (insert_meaning A r v B Hok Hr HA HB) as [Hok' Hd].
  eapply stands_same; [exact Hv|exact Hok'| |exact Hs]. intros x. rewrite Hd. unfold map_insert. by rewrite Hm.
Qed.


Lemma at_key_same key (f : pos → prog Value pos) h L P G m Q :
  view h L P G → segs_ok L → (∀ x, denote L x = m x) →
  (∀ A s B it, L = A ++ s :: B → (r_Start s.1 <= key < r_End s.1)%Z → P !! length A = Some it →
     wp (f it) h (λ _ h', ∃ L' P' G', view h' L' P' G' ∧ same L L')) →
  (∀ h', stands_for h' m → Q () h') → wp (at_key key f) h Q.
Proof.
  intros Hv Hok Hm Hf HQ. unfold at_key. view_step. eapply wp_FindSegment; [done|done| |].
  - intros A s B it E Hs Hit. view_step. eapply wp_mono; [by eapply Hf|]. intros _ h' (L' & P' & G' & Hv' & Hsame).
    view_step. apply HQ. by eapply stands_same.
  - intros _. view_step. apply HQ. by exists L, P, G.
Qed.

Lemma merge_outside h L P G r Q :
  view h L P G → segs_ok L → (∀ h' P' G' L', view h' L' P' G' → same L L' → Q () h') → wp (MergeOutsideRange r) h Q.
Proof.
  intros Hv Hok HQ. unfold MergeOutsideRange.
  set (last_part := (last ← FindSegment (key_arith (r_End r - 1)); match last with None => mret () | Some last =>
    next ← NextSegment last; match next with None => mret () | Some next => _ ← Set_Merge last next; mret () end end)).
  assert (Hlast : ∀ h' L' P' G', view h' L' P' G' → same L L' → wp last_part h' Q).
  { clear h P G Hv. intros h L' P G Hv Hs. destruct (Hs Hok) as [Hok' _]. unfold last_part. view_step.
    eapply wp_FindSegment; [done|done| |intros _; view_step; by eapply HQ].
    intros A s B it -> _ Hit. view_step. eapply wp_NextSegment; [done|exact Hit|]. destruct B as [|n B].
    { rewrite <- (next_snoc A s), (view_end _ _ _ _ Hv). view_step. by eapply HQ. }
    destruct (view_seg h (A ++ [s]) n B P G) as [i2 H2]; [by rewrite snoc_app|]. rewrite next_snoc in H2. rewrite H2. view_step.
    eapply wp_Merge; [done|done|done| |intros _; view_step; by eapply HQ].
    intros m h' P' G' it' E Hv' _. view_step. eapply HQ; [exact Hv'|]. etransitivity; [done|]. by apply join_same. }
  view_step. eapply wp_FindSegment; [done|done| |intros _; view_step; view_step; by eapply Hlast].
  intros A s B it E _ Hit. rewrite E in Hv. view_step. view_step. eapply wp_PrevSegment; [done|exact Hit|].
  destruct A as [|p A _] using rev_ind; [cbn; view_step; by eapply Hlast; [|by rewrite E]|].
  destruct (view_snoc _ _ _ _ _ _ _ Hv) as [ip Hip]. rewrite prev_snoc, Hip. rewrite snoc_app in Hv, E. rewrite next_snoc in Hit. view_step.
  eapply wp_Merge; [done|done|done| |].
  - intros m h' P' G' it' Ej Hv' _. view_step. eapply Hlast; [exact Hv'|]. rewrite E. by apply join_same.
  - intros _. view_step. eapply Hlast; [exact Hv|]. by rewrite E.
Qed.

Lemma op_refined op h m : stands_for h m → op_ok op → op_refines op h m.
Proof.
  intros (L & P & G & Hv & Hok & Hm) Hop. unfold op_refines. destruct op as [r v|r v|r| | |r|r|key r|key|key|r|r|]; simpl in *.
  - rewrite (map_free_spec L) by (done || lia). eapply wp_bind, wp_TryInsertRange; [done|done|done| |].
    + intros Ho. apply wp_ret. rewrite bool_decide_false by tauto. split; [done|]. by exists L, P, G.
    + intros A B h' P' G' it -> HA HB Hv' _. apply wp_ret. rewrite bool_decide_true by (by apply not_overlapping_gap). split; [done|].
      eapply insert_refines; [exact Hv'|done|done|done|done|done|]. apply join_both_same.
  - rewrite (map_free_spec L) by (done || lia). eapply wp_bind, wp_TryInsertWithoutMergingRange; [done|done|done| |].
    + intros Ho. apply wp_ret. rewrite bool_decide_false by tauto. split; [done|]. by exists L, P, G.
    + intros A B h' P' G' it -> HA HB Hv' _. apply wp_ret. rewrite bool_decide_true by (by apply not_overlapping_gap). split; [done|].
      eapply insert_refines; [exact Hv'|done|done|done|done|done|]. done.
  - eapply wp_bind, wp_RemoveRangeWith; [|done|done|].
    { intros h0 A s B P0 G0 it Hv0 _. apply wp_ret. exists s.2. by destruct s. }
    intros A B h' P' G' g Hr Hv' _. apply wp_ret. split; [done|]. destruct (removed_meaning L r A B) as (Hok' & _ & _ & Hd); [done|lia|done|].
    exists (A ++ B), P', G'. split_and!; [done|done|]. intros x. rewrite Hd. unfold map_remove. by rewrite Hm.
  - eapply wp_bind, wp_RemoveAll; [done|]. intros h' Hv'. apply wp_ret. split; [done|]. eexists _, _, _. split_and!; [exact Hv'| |done].
    split; constructor.
  - eapply wp_bind, wp_MergeAll; [done|]. intros h' P' G' Hv'. apply wp_ret. split; [done|].
    eapply stands_same; [exact Hv'|done|done|]. apply join_all_same.
  - eapply wp_bind, wp_MergeInsideRange; [done|done|apply wp_ret; split; [done|by exists L, P, G]|]. intros A s B h' P' G' -> Hv'.
    apply wp_ret. split; [done|]. eapply stands_same; [exact Hv'|done|done|]. apply join_inside_same.
  - eapply wp_bind, merge_outside; [done|done|]. intros h' P' G' L' Hv' Hs. apply wp_ret. split; [done|]. by eapply stands_same.
  - eapply wp_bind, at_key_same; [done|done|done| |intros h' Hs; by apply wp_ret]. intros A s B it -> Hs Hit.
    eapply wp_Isolate; [done|done|]. assert (Hi := isolate_same A s r B). destruct (cut_before s (r_Start r)) as [l c].
    intros h' P' G' it' Hv' _. by eexists _, _, _.
  - eapply wp_bind, at_key_same; [done|done|done| |intros h' Hs; by apply wp_ret]. intros A s B it -> Hs Hit.
    eapply wp_Unisolate; [done|done|]. intros h' P' G' it' Hv' _. eexists _, _, _. split; [exact Hv'|]. apply join_both_same.
  - eapply wp_bind, wp_FindSegment; [done|done| |].
    + intros A s B it -> Hs Hit. repeat view_step. split; [|by eexists _, _, _]. by rewrite <- Hm, denote_at.
    + intros Hno. apply wp_ret. split; [|by eexists _, _, _]. by rewrite <- Hm, denote_none.
  - eapply wp_bind, (wp_SpanRange _ _ _ _ r zeroValue); [done|done|done|]. apply wp_ret. split; [|by exists L, P, G].
    rewrite span_keys by (done || lia). f_equal. unfold map_span. f_equal. apply length_filter_ext. intros x. by rewrite Hm.
  - eapply wp_bind, (wp_IsEmptyRange _ _ _ _ r zeroValue); [done|done|done|]. apply wp_ret. split; [|by exists L, P, G].
    by rewrite (map_free_spec L) by (done || lia).
  - eapply wp_bind, wp_Span; [done|done|done|]. apply wp_ret. split; [|by exists L, P, G].
    rewrite span_keys by (done || lia). f_equal. unfold map_span. f_equal. apply length_filter_ext. intros x. by rewrite Hm.
Qed.

Lemma ops_refined ops h m :
  stands_for h m → Forall op_ok ops →
  wp (run_ops ops) h (λ l h', l = (spec_ops ops m).1 ∧ stands_for h' (spec_ops ops m).2).
Proof.
  revert h m. induction ops as [|op ops IH]; intros h m Hm Hops; [by apply wp_ret|]. apply Forall_cons in Hops as [Hop Hops].
  simpl. apply wp_bind. eapply wp_mono; [by apply op_refined|]. cbn beta. intros a h1 [Ha H1].
  destruct (spec_op op m) as [a' m1]. simpl in Ha, H1. subst a'. apply wp_bind. eapply wp_mono; [by apply IH|].
  cbn beta. intros l h2 [Hl H2]. destruct (spec_ops ops m1) as [l' m2]. simpl in Hl, H2. subst l'. by apply wp_ret.
Qed.

Lemma empty_stands : stands_for empty_set (λ _, None).
Proof. exists [], [], [(root, 0)]. split_and!; [apply empty_set_view| |done]. split; constructor. Qed.


(** ** Balance *)

Lemma kids_least d (ks : list (tree Value)) :
  Forall (λ k, minDegree ^ d ≤ S (length (items k))) ks →
  length ks * minDegree ^ d ≤ length (concat (items <$> ks)) + length ks.
Proof. induction 1 as [|k ks Hk _ IH]; [done|]. rewrite fmap_cons. simpl. rewrite length_app. lia. Qed.

Lemma items_kids d l ss (ks : list (tree Value)) :
  wf (S d) (T l ss ks) → length (items (T l ss ks)) = length ss + length (concat (items <$> ks)).
Proof.
  intros (_ & Hl & _)%wf_kids. destruct ks as [|k ks]; [done|]. simpl in Hl.
  rewrite items_eq, !fmap_cons. rewrite weave_post by (rewrite length_fmap, length_nitems; lia).
  simpl concat. rewrite !length_app, length_post by (rewrite length_fmap, length_nitems; lia).
  rewrite length_fmap. lia.
Qed.

(** A node that is not the root and has height [d]. *)
Lemma kid_least d (k : tree Value) : kid_ok d k → minDegree ^ S d ≤ S (length (items k)).
Proof.
  pose proof minDegree_3. revert k. induction d as [|d IH]; intros [l ss ks] [Hss Hw]; simpl in Hss.
  - destruct Hw as [_ ->]. rewrite items_eq. simpl. rewrite length_nitems, Nat.mul_1_r. lia.
  - rewrite (items_kids d) by done. apply wf_kids in Hw as (_ & Hl & Hk).
    assert (Hks : Forall (λ k, minDegree ^ S d ≤ S (length (items k))) ks) by (eapply Forall_impl; [exact Hk|done]).
    apply kids_least in Hks. rewrite (Nat.pow_succ_r' minDegree (S d)).
    assert (minDegree * minDegree ^ S d ≤ length ks * minDegree ^ S d) by (apply Nat.mul_le_mono_r; lia). lia.
Qed.

Lemma tree_least d (t : tree Value) : tree_ok (S d) [] t → 2 * minDegree ^ S d ≤ S (length (items t)).
Proof.
  destruct t as [l ss ks]. intros (_ & Hw & He). simpl in He. destruct He as [He|He]; [done|]. rewrite (items_kids d) by done.
  apply wf_kids in Hw as (_ & Hl & Hk).
  assert (Hks : Forall (λ k, minDegree ^ S d ≤ S (length (items k))) ks) by (eapply Forall_impl; [exact Hk|apply kid_least]).
  apply kids_least in Hks. assert (2 * minDegree ^ S d ≤ length ks * minDegree ^ S d) by (apply Nat.mul_le_mono_r; lia). lia.
Qed.

(** C19. Segment sets are balanced: after every sequence of operations all leaves of the tree
    are at the same depth [d], every node but the root has at least [minDegree - 1] segments
    and none has more than [maxDegree - 1], so that [d] is at most the logarithm, to the base
    [minDegree], of half the number of gaps. *)
Theorem Set_balanced ops :
  Forall op_ok ops →
  ∃ l h (t : tree Value) d, run_ops ops empty_set = Some (l, h) ∧ rep h t ∧ tree_ok d [] t ∧
    (d = 0 ∨ 2 * minDegree ^ d ≤ S (length (items t))).
Proof.
  intros Hops. destruct (ops_refined ops _ _ empty_stands Hops) as (l & h & E & _ & L & P & G & (t & [Hr [d Ht]] & _) & _).
  exists l, h, t, d. split_and!; [done|done|done|]. destruct d as [|d]; [by left|right]. by apply tree_least.
Qed.

(** ** Mutation and slices *)

Lemma mutated_stands h A B P G m r u (g : Z → Datum → Datum) :
  pointwise u g → segs_ok (A ++ B) → Forall (below (r_Start r)) A → Forall (from (r_Start r)) B → (∀ x, denote (A ++ B) x = m x) →
  view h (mutated u (r_End r) A B) P G → stands_for h (λ x, if Contains r x then g x <$> m x else m x).
Proof.
  intros Hu Hok HA HB Hm Hv. destruct (mutated_meaning u g Hu (r_End r) A B Hok) as [Hok2 Hd2].
  eexists _, _, _. split_and!; [exact Hv|exact Hok2|]. intros x. rewrite Hd2, <- Hm, denote_app. unfold mut_below, Contains.
  destruct (Z.leb_spec (r_Start r) x), (Z.ltb_spec x (r_End r)); simpl; try done.
  - rewrite (denote_below _ A x HA) by done. by rewrite !(left_id_L None (∪)).
  - by rewrite (denote_from _ B x HB) by done.
Qed.

(** C23. [MutateRange] with a function that changes the data of a segment key by key changes
    the map at exactly the keys of the range: segments are split at its ends before they are
    passed to the function, and merging them again afterwards loses nothing. *)
Theorem MutateRange_pointwise h m r f u (g : Z → Datum → Datum) :
  stands_for h m → mutates f u → pointwise u g →
  ∃ h', MutateRange r f h = Some ((), h') ∧ stands_for h' (λ x, if Contains r x then g x <$> m x else m x).
Proof.
  intros (L & P & G & Hv & Hok & Hm) Hf Hu.
  enough (wp (MutateRange r f) h (λ _ h', stands_for h' (λ x, if Contains r x then g x <$> m x else m x))) as ([] & h' & E & HQ) by eauto.
  eapply wp_MutateRange; [done|done|done|]. intros A B h' P' G' Hl Hv'.
  destruct (lower_split_same _ _ _ _ Hok Hl) as (Hok' & HA & HB & Hd). eapply mutated_stands; [done|done|done|done| |exact Hv'].
  intros x. by rewrite Hd.
Qed.

(** C30. A set is saved and restored without loss: [ExportSlice] gives the segments in order,
    [ImportSlice] of them into an empty set succeeds, gives a set that stands for the same
    map, and exporting that gives the same slice. *)
Theorem Export_Import h m :
  stands_for h m →
  ∃ fs h', ExportSlice h = Some (fs, h) ∧ ImportSlice fs empty_set = Some (true, h') ∧
    ExportSlice h' = Some (fs, h') ∧ stands_for h' m.
Proof.
  intros (L & P & G & Hv & Hok & Hm).
  destruct (wp_ExportSlice h L P G (λ fs h', fs = L ∧ h' = h) Hv) as (fs & ? & E1 & -> & ->); [done|].
  destruct (wp_ImportSlice _ _ _ L (λ b h', b = true ∧ ∃ P' G', view h' L P' G') empty_set_view Hok) as (b & h' & E2 & -> & P' & G' & Hv').
  { eauto. }
  destruct (wp_ExportSlice h' L P' G' (λ fs h2, fs = L ∧ h2 = h') Hv') as (fs & ? & E3 & -> & ->); [done|].
  exists L, h'. split_and!; [done|done|done|]. by exists L, P', G'.
Qed.

(** [InsertRange] of a valid range panics exactly if some key of the range is in the set;
    otherwise it returns the segment that holds the new keys, and the map has them. *)
Theorem InsertRange_panics h m r v :
  stands_for h m → (MinKey <= r_Start r < r_End r ∧ r_End r <= MaxKey)%Z →
  (InsertRange r v h = None ↔ ∃ x, (r_Start r <= x < r_End r)%Z ∧ is_Some (m x)) ∧
  (∀ it h', InsertRange r v h = Some (it, h') → stands_for h' (map_insert m r v)).
Proof.
  intros (L & P & G & Hv & Hok & Hm) Hr. rewrite InsertRange_try.
  assert (Hw : wp (TryInsertRange r v) h (λ o h', (o = None ∧ overlapping L r) ∨
    (is_Some o ∧ ¬ overlapping L r ∧ stands_for h' (map_insert m r v)))).
  { eapply wp_TryInsertRange; [done|done|done|by left|]. intros A B h' P' G' it -> HA HB Hv' _. right.
    split_and!; [done|by apply not_overlapping_gap|]. eapply insert_refines; [exact Hv'|done|done|done|done|done|]. apply join_both_same. }
  assert (Hov := overlapping_key L r Hok ltac:(lia)). setoid_rewrite Hm in Hov. rewrite <- Hov.
  destruct Hw as (o & h' & E & Hcase). unfold must_Ok. cbv [mbind prog_bind]. rewrite E.
  destruct Hcase as [[-> Ho]|([it ->] & Ho & Hs)]; simpl; split; try done. naive_solver.
Qed.

(** ** Ranges that have to be covered *)

Definition map_full m r : bool := forallb (λ x, isOk (m x)) (keys_of r).

Lemma map_full_spec m r : map_full m r = true ↔ ∀ x, (r_Start r <= x < r_End r)%Z → is_Some (m x).
Proof.
  unfold map_full. rewrite forallb_forall. setoid_rewrite <- list_elem_of_In. setoid_rewrite elem_of_keys_of.
  split; intros Hf x Hx; specialize (Hf x Hx); destruct (m x); naive_solver.
Qed.

(** The start of the operations on a range that has to be covered: the first segment of the
    range, cut at its start, or a panic. *)
Lemma full_start {X} h L P G m r (k : pos → prog Value X) :
  view h L P G → segs_ok L → (∀ x, denote L x = m x) →
  let p := (seg ← FindSegment (r_Start r); seg ← lift seg; seg ← SplitBefore seg (r_Start r); k seg) in
  (m (r_Start r) = None ∧ p h = None) ∨
  ∃ A c B h1 P1 G1 it, view h1 (A ++ c :: B) P1 G1 ∧ P1 !! length A = Some it ∧ segs_ok (A ++ c :: B) ∧
    r_Start c.1 = r_Start r ∧ (∀ x, denote (A ++ c :: B) x = m x) ∧ p h = k it h1.
Proof.
  intros Hv Hok Hm. cbn zeta.
  edestruct (wp_FindSegment h L P G (r_Start r) (λ o h', h' = h ∧ ((o = None ∧ m (r_Start r) = None) ∨
    ∃ A s B it, o = Some it ∧ L = A ++ s :: B ∧ (r_Start s.1 <= r_Start r < r_End s.1)%Z ∧ P !! length A = Some it)) Hv Hok)
    as (o & ? & E & -> & Hcase).
  - intros A s B it HL Hs Hit. split; [done|]. right. by exists A, s, B, it.
  - intros Hno. split; [done|]. left. by rewrite <- Hm, denote_none.
  - destruct Hcase as [[-> Hn]|(A & s & B & it & -> & -> & Hs & Hit)].
    + left. split; [done|]. cbv [mbind prog_bind]. by rewrite E.
    + right. destruct (cut_before_same A s (r_Start r) B Hok) as [Hok' Hd].
      edestruct (wp_SplitBefore h A s B P G it (r_Start r) (λ it' h', ∃ P' G',
        view h' ((A ++ (cut_before s (r_Start r)).1) ++ (cut_before s (r_Start r)).2 :: B) P' G' ∧
        P' !! length (A ++ (cut_before s (r_Start r)).1) = Some it') Hv Hit) as (it' & h' & E2 & P' & G' & Hv' & Hit'); [eauto|].
      eexists _, _, _, h', P', G', it'. split_and!; [exact Hv'|exact Hit'|done|by apply cut_before_start| |].
      * intros x. by rewrite Hd.
      * cbv [mbind prog_bind lift]. by rewrite E, E2.
Qed.

(** Whether the range is covered, by the segments from its start on. *)
Lemma full_contiguous A c B m r :
  segs_ok (A ++ c :: B) → r_Start c.1 = r_Start r → (∀ x, denote (A ++ c :: B) x = m x) → (r_Start r < r_End r)%Z →
  contiguous (r_End r) (r_Start c.1) (c :: B) = map_full m r.
Proof.
  intros Hok Hc Hm Hr. destruct (before_segment _ _ _ Hok) as [HA HB]. apply eq_true_iff_eq.
  rewrite contiguous_covered, map_full_spec; [|by apply segs_ok_app in Hok as (_ & ? & _)|done|lia]. rewrite Hc in *.
  split; intros Hf x Hx; specialize (Hf x Hx).
  - rewrite <- Hm, denote_app, (denote_below _ A x HA), (left_id_L None (∪)) by lia. done.
  - by rewrite <- Hm, denote_app, (denote_below _ A x HA), (left_id_L None (∪)) in Hf by lia.
Qed.


Theorem MutateFullRange_correct h m r f u (g : Z → Datum → Datum) :
  stands_for h m → (r_Start r < r_End r)%Z → mutates f u → pointwise u g →
  if map_full m r then
    ∃ h', MutateFullRange r f h = Some ((), h') ∧ stands_for h' (λ x, if Contains r x then g x <$> m x else m x)
  else MutateFullRange r f h = None.
Proof.
  intros (L & P & G & Hv & Hok & Hm) Hr Hf Hu. unfold MutateFullRange. assert (Hu' : ∀ r v, (u r v).2 = true) by (intros; apply Hu).
  destruct (full_start h L P G m r (λ seg, fuel ← set_fuel; mutate_full_loop fuel (r_End r) f seg) Hv Hok Hm)
    as [[Hn ->]|(A & c & B & h1 & P1 & G1 & it & Hv1 & Hit & Hok1 & Hc & Hd & ->)].
  { destruct (map_full m r) eqn:E; [|done]. destruct (proj1 (map_full_spec m r) E (r_Start r)) as [d Hd]; [lia|]. by rewrite Hn in Hd. }
  pose proof (full_contiguous _ _ _ _ _ Hok1 Hc Hd Hr) as Hcont. pose proof Hok1 as (_ & HokB & _)%segs_ok_app.
  destruct (map_full m r).
  - enough (wp (fuel ← set_fuel; mutate_full_loop fuel (r_End r) f it) h1
      (λ _ h', stands_for h' (λ x, if Contains r x then g x <$> m x else m x))) as ([] & h' & E & HQ) by eauto.
    eapply wp_bind, wp_set_fuel; [exact Hv1|]. intros fuel Hfu. rewrite length_app in Hfu. simpl in Hfu.
    eapply wp_mutate_full; [exact Hf|exact Hu'|exact Hv1|exact Hit|done|lia|lia|done|]. intros h' P' G' Hv'.
    destruct (before_segment _ _ _ Hok1) as [HA HB]. rewrite Hc in HA, HB. by eapply mutated_stands.
  - apply fails_bind. eapply wp_set_fuel; [exact Hv1|]. intros fuel _.
    eapply mutate_full_panics; [exact Hf|exact Hu'|exact Hv1|exact Hit|done|lia|done].
Qed.
End Props.

(** ** Samples *)

From S2P Require Import IdMapFunctions.

(** Enough segments for a tree with two levels, some of which are merged, and then removals. *)
Definition sample_ops : list (set_op Z) :=
  (((λ i, OpTryInsert (mkRange (20 * i) (20 * i + 10)) (7 * i)) <$> seqZ 0 16) ++
  [OpTryInsert (mkRange 330 340) 5; OpTryInsert (mkRange 310 330) 115; OpTryInsert (mkRange 305 308) 0;
   OpFind 315; OpIsolate 25 (mkRange 22 28); OpSpan (mkRange 0 50); OpRemove (mkRange 27 125); OpFind 26; OpFind 27;
   OpUnisolate 25; OpMergeAll; OpIsEmptyRange (mkRange 27 125); OpSpan (mkRange 0 400)])%Z.

Lemma sample_ops_ok : Forall op_ok sample_ops.
Proof. by repeat constructor. Qed.


Lemma Set_balanced_witness :
  ∃ l h (t : tree Z) d, run_ops sample_ops empty_set = Some (l, h) ∧ rep h t ∧ tree_ok d [] t ∧ (d = 0 ∨ 2 * 3 ^ d ≤ S (length (items t))).
Proof. exact (Set_balanced sample_ops sample_ops_ok). Defined.

(** The set that the sample leaves. *)
Definition sample_set : heap Z := match run_ops sample_ops empty_set with Some (_, h) => h | None => empty_set end.

Lemma sample_stands : stands_for sample_set (spec_ops sample_ops (λ _, None)).2.
Proof.
  unfold sample_set. destruct (ops_refined sample_ops empty_set (λ _, None) empty_stands sample_ops_ok) as (l & h & E & _ & Hs).
  by rewrite E.
Qed.

(** Adds 5 to the IDs that a segment is mapped to. *)
Definition add_five (it : loc * nat) : prog Z bool := v ← seg_Value it; _ ← SetValue it (wrap32 (v + 5)%Z); mret true.

Lemma add_five_mutates : mutates add_five (λ _ v, (wrap32 (v + 5)%Z, true)).
Proof.
  intros h A s B P G it Hv Hit. unfold add_five. repeat view_step. intros h' Hv'. by view_step.
Qed.

Lemma add_five_pointwise : pointwise (λ _ v, (wrap32 (v + 5)%Z, true)) (λ _ d, wrap32 (d + 5)%Z).
Proof.
  intros r v. split; [done|]. intros x _. simpl. unfold idMap_datum. rewrite !wrap32_add_l. f_equal. lia.
Qed.

(** The segment [[300, 330)] is split at both ends of the range. *)
Lemma MutateRange_pointwise_witness :
  ∃ h', MutateRange (mkRange 310 320) add_five sample_set = Some ((), h') ∧
    stands_for h' (λ x, if Contains (mkRange 310 320) x then (λ d, wrap32 (d + 5)%Z) <$> (spec_ops sample_ops (λ _, None)).2 x
                        else (spec_ops sample_ops (λ _, None)).2 x).
Proof. exact (MutateRange_pointwise _ _ (mkRange 310 320) _ _ _ sample_stands add_five_mutates add_five_pointwise). Defined.

Lemma Export_Import_witness :
  ∃ fs h', ExportSlice sample_set = Some (fs, sample_set) ∧ ImportSlice fs empty_set = Some (true, h') ∧
    ExportSlice h' = Some (fs, h') ∧ length fs = 13.
Proof.
  destruct (Export_Import _ _ sample_stands) as (fs & h' & E1 & E2 & E3 & _). exists fs, h'. split_and!; [done|done|done|].
  change fs with (match Some (fs, sample_set) with Some (l, _) => l | None => [] end). rewrite <- E1. vm_compute. reflexivity.
Defined.


(** [RemoveRange] with an empty range within a segment removes the segment from there on:
    [Isolate] does not split it at the end of the range, as the end is where it now starts. *)
Example RemoveRange_empty_range :
  (_ ← InsertRange (mkRange 0 10) 7%Z; _ ← RemoveRange (mkRange 4 4); fs ← ExportSlice; mret fs) empty_set
  ≫= (λ x, Some x.1) = Some [(mkRange 0 4, 7%Z)].
Proof. by vm_compute. Qed.
