(* ===== verification/IdMapSet.v ===== *)
(** * Sets of mapped ID ranges

    The user namespaces of the sentry keep their ID mappings in [idMapSet], which the build
    instantiates from the template src/pkg/segment/set.go with the functions of
    src/pkg/sentry/kernel/auth/id_map_functions.go.  [IdMapSet] has the operations in use and
    [IdMapSetLaws] their documented behaviour; user namespaces are verified against these.
    [seglist] is an instance that keeps the segments in a list, a reference for the B-tree. *)

From stdpp Require Import base numbers decidable sorting list.
From S2P Require Import Prelude.

Local Open Scope Z_scope.

(** The range [[start, end)] mapped to [[value, value + (end - start))]. *)
Record segment : Type := mkSegment { seg_start : Z; seg_end : Z; seg_value : Z }.

#[export] Instance segment_eq_dec : EqDecision segment.
Proof. solve_decision. Defined.

(** [MinKey] is 0. *)
Definition MaxKey : Z := 2 ^ 32 - 1.

Class IdMapSet : Type := {
  idMapSet : Type;
  empty_set : idMapSet;                               (* the zero value; also [RemoveAll] *)
  segments : idMapSet → list segment;                 (* [FirstSegment] and [NextSegment] *)
  IsEmpty : idMapSet → bool;
  FindSegment : idMapSet → Z → option segment;
  SpanRange : idMapSet → Z → Z → Z;
  (* the new set, or [None] for a terminal iterator *)
  TryInsertRange : idMapSet → Z → Z → Z → option idMapSet
}.

Definition contains (s : segment) (key : Z) : bool := (seg_start s <=? key) && (key <? seg_end s).

(** What [key] is mapped to. *)
Definition seg_image (s : segment) (key : Z) : Z := wrap32 (seg_value s + (key - seg_start s)).

Definition image `{IdMapSet} (m : idMapSet) (key : Z) : option Z :=
  s ← FindSegment m key; Some (seg_image s key).

(** The keys of a range that are in a segment. *)
Definition covered `{IdMapSet} (m : idMapSet) (r_start r_end : Z) : list Z :=
  filter (λ key, is_Some (FindSegment m key)) (seqZ r_start (r_end - r_start)).

(** Segments that are in order, not empty and do not overlap. *)
Definition segments_ok (l : list segment) : Prop :=
  Forall (λ s, 0 <= seg_start s < seg_end s ∧ seg_end s <= MaxKey ∧ in_u32 (seg_value s)) l ∧
  StronglySorted (λ s1 s2, seg_end s1 <= seg_start s2) l.

(** What the documentation of the set promises. *)
Class IdMapSetLaws `{IdMapSet} : Type := {
  set_ok : idMapSet → Prop;
  set_ok_segments m : set_ok m → segments_ok (segments m);
  empty_set_ok : set_ok empty_set;
  segments_empty : segments empty_set = [];
  IsEmpty_spec m : set_ok m → IsEmpty m = true ↔ segments m = [];
  FindSegment_spec m key s : set_ok m →
    FindSegment m key = Some s ↔ s ∈ segments m ∧ contains s key = true;
  SpanRange_spec m r_start r_end : set_ok m → 0 <= r_start <= r_end → r_end <= MaxKey →
    SpanRange m r_start r_end = Z.of_nat (length (covered m r_start r_end));
  (* insertion succeeds unless the new segment would overlap another *)
  TryInsertRange_None m r_start r_end v : set_ok m → 0 <= r_start < r_end → r_end <= MaxKey → in_u32 v →
    TryInsertRange m r_start r_end v = None ↔
    ∃ key, r_start <= key < r_end ∧ is_Some (FindSegment m key);
  TryInsertRange_Some m r_start r_end v m' : set_ok m → 0 <= r_start < r_end → r_end <= MaxKey → in_u32 v →
    TryInsertRange m r_start r_end v = Some m' →
    set_ok m' ∧
    ∀ key, image m' key =
      if (r_start <=? key) && (key <? r_end) then Some (wrap32 (v + (key - r_start))) else image m key
}.

(** ** Segments in a list *)

(** The segment of two adjacent ones, as [idMapFunctions.Merge] allows it. *)
Definition join (s1 s2 : segment) : option segment :=
  if (seg_end s1 =? seg_start s2) && (wrap32 (seg_value s1 + (seg_end s1 - seg_start s1)) =? seg_value s2)
  then Some (mkSegment (seg_start s1) (seg_end s2) (seg_value s1)) else None.

Fixpoint find_seg (l : list segment) (key : Z) : option segment :=
  match l with
  | [] => None
  | s :: l' => if contains s key then Some s else find_seg l' key
  end.

(** The length of [Range.Intersect]. *)
Definition overlap (s : segment) (r_start r_end : Z) : Z :=
  Z.max 0 (Z.min (seg_end s) r_end - Z.max (seg_start s) r_start).

Definition span (l : list segment) (r_start r_end : Z) : Z :=
  foldr (λ s n, overlap s r_start r_end + n) 0 l.

(** [new] before the segments of [l], joined with the first if possible. *)
Definition insert_front (l : list segment) (new : segment) : option (list segment) :=
  match l with
  | [] => Some [new]
  | s :: l' =>
      if seg_start s <? seg_end new then None
      else Some match join new s with Some j => j :: l' | None => new :: s :: l' end
  end.

Fixpoint insert_seg (l : list segment) (new : segment) : option (list segment) :=
  match l with
  | [] => Some [new]
  | s :: l' =>
      if seg_end s <=? seg_start new then
        match join s new with
        | Some j => insert_front l' j
        | None => cons s <$> insert_seg l' new
        end
      else insert_front (s :: l') new
  end.

#[local] Instance seglist : IdMapSet := {|
  idMapSet := list segment;
  empty_set := [];
  segments l := l;
  IsEmpty l := bool_decide (l = []);
  FindSegment := find_seg;
  SpanRange := span;
  TryInsertRange l r_start r_end v := insert_seg l (mkSegment r_start r_end v)
|}.

(** ** Facts *)

Lemma contains_spec s key : contains s key = true ↔ seg_start s <= key < seg_end s.
Proof. unfold contains. rewrite andb_true_iff, Z.leb_le, Z.ltb_lt. done. Qed.

Definition list_image (l : list segment) (key : Z) : option Z := s ← find_seg l key; Some (seg_image s key).

Definition seg_ok (s : segment) : Prop :=
  0 <= seg_start s < seg_end s ∧ seg_end s <= MaxKey ∧ in_u32 (seg_value s).

Lemma segments_ok_cons s l :
  segments_ok (s :: l) ↔ seg_ok s ∧ Forall (λ s', seg_end s <= seg_start s') l ∧ segments_ok l.
Proof.
  unfold segments_ok. rewrite Forall_cons. split.
  - intros [[? ?] [? ?]%StronglySorted_cons]. done.
  - intros (? & ? & ? & ?). split; [done|]. by constructor.
Qed.

Lemma find_seg_None l key : find_seg l key = None ↔ Forall (λ s, contains s key = false) l.
Proof.
  induction l as [|s l IH]; simpl; [by rewrite Forall_nil|]. rewrite Forall_cons, <- IH.
  destruct (contains s key); naive_solver.
Qed.

(** Keys before all segments are in none. *)
Lemma find_seg_before l key :
  Forall (λ s, key < seg_start s) l → find_seg l key = None.
Proof.
  intros Hl. apply find_seg_None. eapply Forall_impl; [exact Hl|]. intros s Hs.
  unfold contains. apply andb_false_iff. left. by apply Z.leb_gt.
Qed.

Lemma find_seg_spec l key s :
  segments_ok l → find_seg l key = Some s ↔ s ∈ l ∧ contains s key = true.
Proof.
  induction l as [|s' l IH]; simpl; intros Hok; [split; [done|by intros [?%elem_of_nil _]]|].
  apply segments_ok_cons in Hok as (Hs' & Hl & Hok). rewrite elem_of_cons.
  destruct (contains s' key) eqn:E; [|rewrite IH by done; split; [tauto|intros [[->|?] ?]; [congruence|done]]].
  split; [intros [= <-]; auto|]. intros [[->|Hin] Hk]; [done|]. exfalso.
  rewrite Forall_forall in Hl. specialize (Hl s Hin). apply contains_spec in E, Hk. lia.
Qed.

Lemma list_image_cons s l key :
  list_image (s :: l) key = if contains s key then Some (seg_image s key) else list_image l key.
Proof. unfold list_image. simpl. by destruct (contains s key). Qed.

Lemma list_image_None l key : list_image l key = None ↔ find_seg l key = None.
Proof. unfold list_image. by destruct (find_seg l key). Qed.

Lemma join_Some s1 s2 j :
  seg_ok s1 → seg_ok s2 → join s1 s2 = Some j →
  seg_ok j ∧ seg_start j = seg_start s1 ∧ seg_end j = seg_end s2 ∧ seg_end s1 = seg_start s2 ∧
  (∀ key, contains j key = contains s1 key || contains s2 key) ∧
  (∀ key, seg_image j key = seg_image s1 key) ∧ (∀ key, seg_image j key = seg_image s2 key).
Proof.
  unfold join, seg_ok, in_u32. intros H1 H2. case_if; [|done]. to_prop. intros [= <-]. simpl.
  split_and!; try lia; try done; intros key.
  - apply eq_true_iff_eq. rewrite orb_true_iff, !contains_spec. simpl. lia.
  - unfold seg_image. simpl. rewrite <- H0. unfold wrap32. rewrite Zplus_mod_idemp_l. f_equal. lia.
Qed.

(** What inserting [new] into [l] is to give. *)
Definition insert_spec (l : list segment) (new : segment) (r : option (list segment)) : Prop :=
  match r with
  | None => ∃ key, contains new key = true ∧ is_Some (find_seg l key)
  | Some l' =>
      segments_ok l' ∧
      (∀ key, contains new key = true → find_seg l key = None) ∧
      (∀ key, list_image l' key = if contains new key then Some (seg_image new key) else list_image l key) ∧
      (∀ lo, lo <= seg_start new → Forall (λ s, lo <= seg_start s) l → Forall (λ s, lo <= seg_start s) l')
  end.

Lemma insert_front_spec l new :
  segments_ok l → seg_ok new → Forall (λ s, seg_start new < seg_end s) l →
  insert_spec l new (insert_front l new).
Proof.
  intros Hl Hnew Hafter. destruct l as [|s l]; simpl.
  { split_and!; [by apply segments_ok_cons|done|intros key; by rewrite list_image_cons|].
    intros lo Hlo _. by constructor. }
  apply segments_ok_cons in Hl as (Hs & Hsl & Hl). apply Forall_cons in Hafter as [Hns _].
  destruct (Z.ltb_spec (seg_start s) (seg_end new)) as [Hlt|Hge].
  { exists (Z.max (seg_start s) (seg_start new)). split; [apply contains_spec; unfold seg_ok in *; lia|].
    simpl. assert (contains s (Z.max (seg_start s) (seg_start new)) = true) as -> by (apply contains_spec; unfold seg_ok in *; lia).
    by eexists. }
  assert (Hall : Forall (λ s', seg_end new <= seg_start s') (s :: l)).
  { constructor; [done|]. eapply Forall_impl; [exact Hsl|]. intros s' Hs'. unfold seg_ok in *. simpl. lia. }
  assert (Hnone : ∀ key, contains new key = true → find_seg (s :: l) key = None).
  { intros key Hk%contains_spec. apply find_seg_before. eapply Forall_impl; [exact Hall|]. simpl. lia. }
  destruct (join new s) as [j|] eqn:Ej.
  - apply join_Some in Ej as (Hj & Ejs & Eje & Eadj & Hjc & Hjn & Hjs); [|done|done].
    split_and!.
    + apply segments_ok_cons. rewrite Eje. done.
    + done.
    + intros key. rewrite !list_image_cons, Hjc. destruct (contains new key) eqn:En; simpl; [by rewrite Hjn|].
      destruct (contains s key); [by rewrite Hjs|done].
    + intros lo Hlo [_ Hl']%Forall_cons. constructor; [lia|done].
  - split_and!; [|done|intros key; by rewrite list_image_cons|intros lo Hlo Hl'; by constructor].
    apply segments_ok_cons. split; [done|]. split; [done|]. by apply segments_ok_cons.
Qed.

Lemma insert_seg_spec l new : segments_ok l → seg_ok new → insert_spec l new (insert_seg l new).
Proof.
  intros Hl Hnew. induction l as [|s l IH]; simpl.
  { apply (insert_front_spec []); done. }
  pose proof Hl as (Hs & Hsl & Hl')%segments_ok_cons. specialize (IH Hl').
  destruct (Z.leb_spec (seg_end s) (seg_start new)) as [Hle|Hgt].
  2: { apply (insert_front_spec (s :: l)); [done|done|]. constructor; [lia|].
       eapply Forall_impl; [|intros s' Hs'; exact Hs']. rewrite Forall_forall in *.
       intros s' Hin. specialize (Hsl s' Hin). destruct Hl' as [Hl' _]. rewrite Forall_forall in Hl'.
       specialize (Hl' s' Hin). simpl in *. unfold seg_ok in *. lia. }
  assert (Hsn : ∀ key, contains new key = true → contains s key = false).
  { intros key Hk%contains_spec. apply not_true_iff_false. rewrite contains_spec. lia. }
  destruct (join s new) as [j|] eqn:Ej.
  - apply join_Some in Ej as (Hj & Ejs & Eje & Eadj & Hjc & Hji & Hjn); [|done|done].
    assert (Hf : insert_spec l j (insert_front l j)).
    { apply insert_front_spec; [done|done|]. rewrite Forall_forall in *. intros s' Hin. specialize (Hsl s' Hin).
      destruct Hl' as [Hl' _]. rewrite Forall_forall in Hl'. specialize (Hl' s' Hin). simpl in *. unfold seg_ok in *. lia. }
    assert (Hsl' : ∀ key, contains s key = true → find_seg l key = None).
    { intros key Hk%contains_spec. apply find_seg_before. eapply Forall_impl; [exact Hsl|]. simpl. lia. }
    destruct (insert_front l j) as [l'|]; simpl in *.
    + destruct Hf as (Hok & Hn & Hi & Hlo). split_and!; [done| | |].
      * intros key Hk. rewrite (Hsn key Hk). apply Hn. rewrite Hjc, Hk. apply orb_true_r.
      * intros key. rewrite Hi, list_image_cons, Hjc. destruct (contains s key) eqn:Es; simpl.
        -- destruct (contains new key) eqn:En; [by rewrite Hsn in Es|]. by rewrite Hji.
        -- destruct (contains new key); [by rewrite Hjn|done].
      * intros lo Hlo' [? ?]%Forall_cons. apply Hlo; [lia|done].
    + destruct Hf as (key & Hk & Hf). exists key. rewrite Hjc in Hk. apply orb_true_iff in Hk as [Hk|Hk].
      * rewrite Hsl' in Hf by done. by destruct Hf.
      * by rewrite (Hsn key Hk).
  - destruct (insert_seg l new) as [l'|]; simpl in *.
    + destruct IH as (Hok & Hn & Hi & Hlo). split_and!.
      * apply segments_ok_cons. split; [done|]. split; [|done]. by apply Hlo.
      * intros key Hk. rewrite (Hsn key Hk). by apply Hn.
      * intros key. rewrite !list_image_cons, Hi. destruct (contains s key) eqn:Es; [|done].
        destruct (contains new key) eqn:En; [by rewrite Hsn in Es|done].
      * intros lo Hlo' [? ?]%Forall_cons. constructor; [done|by apply Hlo].
    + destruct IH as (key & Hk & Hf). exists key. by rewrite (Hsn key Hk).
Qed.

Lemma count_segment s a b :
  a <= b → Z.of_nat (length (filter (λ key, contains s key = true) (seqZ a (b - a)))) = overlap s a b.
Proof.
  intros Hab. rewrite (length_filter_ext _ (λ key, seg_start s <= key < seg_end s)) by apply contains_spec.
  rewrite <- (Z2Nat.id (b - a)) by lia. rewrite count_range. unfold overlap. rewrite Z2Nat.id by lia. lia.
Qed.

Lemma span_count l a b :
  segments_ok l → a <= b →
  span l a b = Z.of_nat (length (filter (λ key, is_Some (find_seg l key)) (seqZ a (b - a)))).
Proof.
  intros Hok Hab. induction l as [|s l IH]; simpl.
  { rewrite (length_filter_ext _ (λ _, False)); [|intros key; split; [by intros []|done]].
    by induction (seqZ a (b - a)). }
  apply segments_ok_cons in Hok as (Hs & Hsl & Hok). rewrite IH, <- count_segment by done.
  rewrite <- Nat2Z.inj_add, <- length_filter_or.
  - f_equal. apply length_filter_ext. intros key. simpl. destruct (contains s key); [|naive_solver].
    split; [intros _; by eexists|by left].
  - intros key Hk%contains_spec Hf. rewrite find_seg_before in Hf; [by destruct Hf|].
    eapply Forall_impl; [exact Hsl|]. simpl. lia.
Qed.

#[local] Instance seglist_laws : IdMapSetLaws.
Proof.
  refine {| set_ok := segments_ok |}; simpl.
  - done.
  - split; [done|constructor].
  - done.
  - intros m _. apply bool_decide_eq_true.
  - intros m key s. apply find_seg_spec.
  - intros m a b Hm Hab Hb. apply span_count; [done|lia].
  - intros m a b v Hm Hab Hb Hv. pose proof (insert_seg_spec m (mkSegment a b v) Hm) as Hi.
    destruct (insert_seg m _) as [m'|]; simpl in Hi.
    + split; [done|]. destruct Hi as (_ & Hn & _); [done|]. intros (key & Hk & Hs).
      rewrite Hn in Hs by (by apply contains_spec). by destruct Hs.
    + split; [intros _|done]. destruct Hi as (key & Hk & Hs); [done|]. exists key. by apply contains_spec in Hk.
  - intros m a b v m' Hm Hab Hb Hv Em. pose proof (insert_seg_spec m (mkSegment a b v) Hm) as Hi.
    rewrite Em in Hi. destruct Hi as (Hok & _ & Hi & _); [done|]. split; [done|]. exact Hi.
Defined.
