(* ===== verification/IdMapBtree.v ===== *)
(** * ID mappings in a B-tree

    The instance of [IdMapSet] that the program has: the segment set of
    src/pkg/segment/set.go with the functions of ID mappings.  It has the laws that user
    namespaces rely on, and agrees with the one that keeps the segments in a list. *)

From stdpp Require Import base numbers decidable gmap sorting option list.
From S2P Require Import SegSet SegHeap SegIter SegView SegOps SegLoops SegMeaning IdMapFunctions IdMapSet Prelude.

Local Open Scope Z_scope.

Definition seg_of (s : Range * Z) : segment := mkSegment (r_Start s.1) (r_End s.1) s.2.

(** The result of a program that does not panic. *)
Definition result_of {A} (d : A) (p : prog Z A) (h : heap Z) : A := match p h with Some (a, _) => a | None => d end.

Definition find_segment (key : Z) : prog Z (option segment) :=
  it ← SegSet.FindSegment key;
  match it with
  | None => mret None
  | Some it => r ← seg_Range it; v ← seg_Value it; mret (Some (seg_of (r, v)))
  end.

#[local] Instance btree : IdMapSet := {|
  idMapSet := heap Z;
  empty_set := SegSet.empty_set;
  segments h := seg_of <$> result_of [] ExportSlice h;
  IsEmpty := result_of false SegSet.IsEmpty;
  FindSegment h key := result_of None (find_segment key) h;
  SpanRange h r_start r_end := result_of 0 (SegSet.SpanRange (mkRange r_start r_end)) h;
  TryInsertRange h r_start r_end v :=
    match SegSet.TryInsertRange (mkRange r_start r_end) v h with
    | Some (Some _, h') => Some h'
    | _ => None
    end
|}.

Lemma result_wp {A} (d a : A) (p : prog Z A) h : wp p h (λ a' _, a' = a) → result_of d p h = a.
Proof. intros (a' & h' & E & <-). unfold result_of. by rewrite E. Qed.

(** The set holds the segments [L]. *)
Definition holds (h : heap Z) (L : list (Range * Z)) : Prop :=
  (∃ P G, view h L P G) ∧ segs_ok L ∧ Forall (λ s, in_u32 s.2) L.

Definition btree_ok (h : heap Z) : Prop := ∃ L, holds h L.

Lemma holds_segments h L : holds h L → segments h = seg_of <$> L.
Proof.
  intros [(P & G & Hv) _]. simpl. f_equal. apply result_wp. by eapply wp_ExportSlice.
Qed.

Lemma segs_segments L : segs_ok L → Forall (λ s, in_u32 s.2) L → segments_ok (seg_of <$> L).
Proof.
  induction L as [|s L IH]; intros Hok Hu; [split; constructor|]. rewrite fmap_cons. apply segs_ok_cons in Hok as ([Hs1 Hs2] & Hok & Hb).
  apply Forall_cons in Hu as [Hs Hu]. apply segments_ok_cons. split_and!; [done|by apply Forall_fmap|by apply IH].
Qed.

Lemma holds_find h L key : holds h L → FindSegment h key = find_seg (seg_of <$> L) key.
Proof.
  intros ((P & G & Hv) & Hok & Hu). apply result_wp. unfold find_segment. eapply wp_bind, wp_FindSegment; [done|done| |].
  - intros A s B it E Hs Hit. rewrite E in Hv. repeat view_step. symmetry. apply find_seg_spec; [by apply segs_segments|].
    split; [|by apply contains_spec]. rewrite E. apply list_elem_of_fmap. exists s. split; [by destruct s|set_solver].
  - intros Hno. apply wp_ret. symmetry. apply find_seg_None. apply Forall_fmap. eapply Forall_impl; [exact Hno|].
    cbn beta. intros s Hs. apply not_true_iff_false. simpl. rewrite contains_spec. simpl. lia.
Qed.

Lemma find_denote L key : segs_ok L → (s ← find_seg (seg_of <$> L) key; Some (seg_image s key)) = denote L key.
Proof.
  induction L as [|s L IH]; intros Hok; [done|]. apply segs_ok_cons in Hok as (_ & Hok & _). cbn [denote]. rewrite <- IH by done.
  rewrite fmap_cons. cbn [find_seg]. unfold seg_denote. change (Contains s.1 key) with (contains (seg_of s) key).
  destruct (contains (seg_of s) key); simpl; [by destruct (find_seg _ _)|by rewrite (left_id_L None (∪))].
Qed.

Lemma holds_image h L key : holds h L → image h key = denote L key.
Proof. intros Hh. unfold image. rewrite (holds_find _ _ _ Hh). apply find_denote, Hh. Qed.

Lemma holds_span h L a b : holds h L → 0 <= a <= b → b <= MaxKey → SpanRange h a b = span (seg_of <$> L) a b.
Proof.
  intros ((P & G & Hv) & Hok & Hu) Ha Hb. apply result_wp.
  assert (E : span_of (mkRange a b) L = span (seg_of <$> L) a b).
  { clear. induction L as [|s L IH]; [done|]. rewrite fmap_cons. simpl. by rewrite IH. }
  destruct (decide (a = b)) as [<-|Hne].
  - unfold SegSet.SpanRange, Length. cbn [r_Start r_End]. rewrite Z.sub_diag. apply wp_ret. rewrite <- E.
    clear. induction L as [|s L IH]; [done|]. simpl. rewrite <- IH. unfold shared. simpl. lia.
  - eapply (wp_SpanRange _ _ _ _ _ 0); [done|done| |by rewrite E]. split; simpl; unfold MaxKey in *; lia.
Qed.

(** ** Insertion *)

Lemma join_value s1 s2 m : in_u32 s1.2 → SegOps.join s1 s2 = Some m → in_u32 m.2.
Proof.
  intros Hs (_ & v & E & ->)%join_inv. simpl in E |- *. unfold idMap_Merge in E. destruct (negb _); by simplify_eq/=.
Qed.

Lemma seg_join s1 s2 :
  seg_valid s1 → seg_of <$> SegOps.join s1 s2 = IdMapSet.join (seg_of s1) (seg_of s2).
Proof.
  intros [Hs1 Hs2]. simpl in *. unfold SegOps.join, IdMapSet.join. simpl. unfold idMap_Merge, idMap_Length.
  rewrite (wrap32_small (r_End s1.1 - r_Start s1.1)) by (unfold in_u32; lia).
  case_decide as E; [rewrite (proj2 (Z.eqb_eq _ _) E)|by rewrite (proj2 (Z.eqb_neq _ _) E)]. simpl.
  by destruct (wrap32 _ =? _).
Qed.

Lemma insert_front_at (s : Range * Z) (B : list (Range * Z)) :
  seg_valid s → Forall (from (r_End s.1)) B → insert_front (seg_of <$> B) (seg_of s) = Some (seg_of <$> join_next s B).
Proof.
  intros Hs HB. destruct B as [|n B]; [done|]. apply Forall_cons in HB as [Hn _]. unfold from in Hn. rewrite fmap_cons. simpl.
  rewrite (proj2 (Z.ltb_ge _ _) Hn), <- seg_join by done. by destruct (SegOps.join s n).
Qed.

Lemma insert_at (A B : list (Range * Z)) (s : Range * Z) :
  segs_ok (A ++ s :: B) → insert_seg (seg_of <$> A ++ B) (seg_of s) = Some (seg_of <$> join_both A s B).
Proof.
  unfold join_both. induction A as [|a A IH]; intros Hok.
  - apply segs_ok_cons in Hok as (Hs & HokB & HB). cbn [app]. trans (Some (seg_of <$> join_next s B)); [|done]. rewrite <- insert_front_at by done.
    destruct B as [|n B]; [done|]. rewrite fmap_cons. cbn [insert_seg]. apply Forall_cons in HB as [Hn _].
    apply segs_ok_cons in HokB as (Hvn & _). unfold seg_valid, seg_before in *. simpl. by rewrite (proj2 (Z.leb_gt _ _)) by lia.
  - cbn [app] in *. apply segs_ok_cons in Hok as (Ha & Hok & Hb). specialize (IH Hok). rewrite fmap_cons. cbn [insert_seg].
    apply Forall_app in Hb as [HbA [Has _]%Forall_cons]. pose proof Hok as (HokA & (Hs & _ & HB)%segs_ok_cons & HAs)%segs_ok_app.
    change (seg_end (seg_of a)) with (r_End a.1). change (seg_start (seg_of s)) with (r_Start s.1).
    rewrite (proj2 (Z.leb_le _ _) Has), <- seg_join, IH by done. destruct A as [|p A _] using rev_ind.
    + rewrite (join_prev_snoc [] a s : join_prev [a] s = _). destruct (SegOps.join a s) as [j|] eqn:Ej; [|done].
      pose proof Ej as (Hadj & v & _ & ->)%join_inv. cbn [fst snd app fmap option_fmap option_map]. apply insert_front_at; [|done].
      unfold seg_valid in *. simpl in *. lia.
    + rewrite join_prev_cons by (by destruct A). assert (Hp : seg_valid p) by (by apply segs_ok_app in HokA as (_ & (? & _)%segs_ok_cons & _)).
      apply Forall_app in HbA as [_ [Hap _]%Forall_cons]. specialize (HAs p s ltac:(set_solver) ltac:(set_solver)).
      destruct (SegOps.join a s) as [j|] eqn:Ej; [|done]. apply join_inv in Ej as [Hadj _].
      unfold seg_before, seg_valid in *. lia.
Qed.

Lemma holds_insert h L a b v :
  holds h L → 0 <= a < b → b <= MaxKey → in_u32 v →
  match TryInsertRange h a b v with
  | None => overlapping L (mkRange a b)
  | Some h' => ∃ A B, L = A ++ B ∧ Forall (below a) A ∧ Forall (from b) B ∧ holds h' (join_both A (mkRange a b, v) B)
  end.
Proof.
  intros ((P & G & Hv) & Hok & Hu) Ha Hb Hvu.
  assert (Hr : seg_valid (mkRange a b, v)) by (split; simpl; unfold MaxKey in *; lia).
  assert (Hw : wp (SegSet.TryInsertRange (mkRange a b) v) h (λ o h', match o with
    | None => overlapping L (mkRange a b)
    | Some _ => ∃ A B, L = A ++ B ∧ Forall (below a) A ∧ Forall (from b) B ∧ holds h' (join_both A (mkRange a b, v) B)
    end)).
  { eapply wp_TryInsertRange; [done|done|done|done|]. intros A B h' P' G' it -> HA HB Hv' _. exists A, B. split_and!; [done|done|done|].
    destruct (insert_meaning A (mkRange a b) v B Hok Hr HA HB) as [Hok' _]. split; [by exists P', G'|].
    split; [by apply (join_both_same A (mkRange a b, v) B)|]. apply join_both_Forall.
    - intros s1 s2 m Hs1 _. by apply join_value.
    - apply Forall_app in Hu as [HuA HuB]. apply Forall_app. split; [done|]. by constructor. }
  destruct Hw as (o & h' & E & Hcase). simpl. rewrite E. by destruct o.
Qed.

#[local] Instance btree_laws : IdMapSetLaws.
Proof.
  refine {| set_ok := btree_ok |}.
  - intros h [L Hh]. rewrite (holds_segments _ _ Hh). by apply segs_segments; apply Hh.
  - exists []. split; [by eexists _, _; apply empty_set_view|]. split; [split; constructor|constructor].
  - apply (holds_segments _ []). split; [by eexists _, _; apply empty_set_view|]. split; [split; constructor|constructor].
  - intros h [L Hh]. rewrite (holds_segments _ _ Hh). destruct Hh as [(P & G & Hv) _].
    replace (IsEmpty h) with (bool_decide (L = [])); [|symmetry; apply result_wp; by eapply wp_IsEmpty].
    rewrite bool_decide_eq_true. by destruct L.
  - intros h key s [L Hh]. rewrite (holds_find _ _ _ Hh), (holds_segments _ _ Hh). apply find_seg_spec. by apply segs_segments; apply Hh.
  - intros h a b [L Hh] Ha Hb. rewrite (holds_span _ _ _ _ Hh) by done. rewrite span_count; [|by apply segs_segments; apply Hh|lia].
    f_equal. apply length_filter_ext. intros key. by rewrite (holds_find _ _ _ Hh).
  - intros h a b v [L Hh] Ha Hb Hvu. pose proof (holds_insert _ _ _ _ _ Hh Ha Hb Hvu) as Hi. pose proof Hh as (_ & Hok & _).
    assert (Hov := overlapping_key L (mkRange a b) Hok ltac:(simpl; lia)). cbn [r_Start r_End] in Hov.
    assert (E : ∀ key, is_Some (FindSegment h key) ↔ is_Some (denote L key)).
    { intros key. rewrite <- (holds_image _ _ _ Hh). unfold image. destruct (FindSegment h key); simpl; [split; eauto|]. by split; intros []. }
    setoid_rewrite E. rewrite <- Hov. destruct (TryInsertRange h a b v); [|done]. split; [done|].
    destruct Hi as (A & B & -> & HA & HB & _). intros Ho. exfalso. by eapply (not_overlapping_gap A B (mkRange a b)).
  - intros h a b v h' [L Hh] Ha Hb Hvu E. pose proof (holds_insert _ _ _ _ _ Hh Ha Hb Hvu) as Hi. rewrite E in Hi.
    destruct Hi as (A & B & -> & HA & HB & Hh'). split; [by eexists|]. intros key. rewrite (holds_image _ _ _ Hh), (holds_image _ _ _ Hh').
    destruct Hh as (_ & Hok & _). assert (Hr : seg_valid (mkRange a b, v)) by (split; simpl; unfold MaxKey in *; lia).
    destruct (insert_meaning A (mkRange a b) v B Hok Hr HA HB) as [Hok' Hd].
    destruct (join_both_same A (mkRange a b, v) B Hok') as [_ Hj]. by rewrite Hj, Hd.
Defined.

Lemma insert_overlapping L a b v :
  segs_ok L → Forall (λ s, in_u32 s.2) L → 0 <= a < b → b <= MaxKey → in_u32 v → overlapping L (mkRange a b) →
  insert_seg (seg_of <$> L) (mkSegment a b v) = None.
Proof.
  intros Hok Hu Ha Hb Hv Ho. apply overlapping_key in Ho as (key & Hk & Hd); [|done|simpl; lia]. simpl in Hk.
  pose proof (insert_seg_spec (seg_of <$> L) (mkSegment a b v) (segs_segments L Hok Hu)) as Hi.
  destruct (insert_seg _ _) as [l|]; [|done]. destruct Hi as (_ & Hn & _); [done|].
  rewrite <- find_denote, Hn in Hd by (done || by apply contains_spec). by destruct Hd.
Qed.

(** C15. The ID mappings of a user namespace, kept in the B-tree of the segment set, are the
    list of their segments: searching, spans and insertion (with the merging of adjacent
    mappings) agree with the same operations on the list, and insertion keeps the set well
    formed. *)
Theorem btree_refines_list (h : idMapSet) :
  btree_ok h →
  (∀ key, FindSegment h key = find_seg (segments h) key) ∧
  (∀ a b, 0 <= a <= b → b <= MaxKey → SpanRange h a b = span (segments h) a b) ∧
  (∀ a b v, 0 <= a < b → b <= MaxKey → in_u32 v →
     segments <$> TryInsertRange h a b v = insert_seg (segments h) (mkSegment a b v) ∧
     ∀ h', TryInsertRange h a b v = Some h' → btree_ok h').
Proof.
  intros [L Hh]. rewrite (holds_segments _ _ Hh). split_and!.
  - intros key. by apply holds_find.
  - intros a b. by apply holds_span.
  - intros a b v Ha Hb Hv. pose proof (holds_insert _ _ _ _ _ Hh Ha Hb Hv) as Hi. pose proof Hh as (_ & Hok & Hu).
    destruct (TryInsertRange (IdMapSet := btree) h a b v) as [h'|].
    + destruct Hi as (A & B & -> & HA & HB & Hh'). split; [|intros ? [= <-]; by eexists].
      cbn [fmap option_fmap option_map]. rewrite (holds_segments _ _ Hh'). symmetry. apply (insert_at A B (mkRange a b, v)).
      apply insert_meaning; [done| |done|done]. split; simpl; unfold MaxKey in *; lia.
    + split; [|done]. symmetry. by apply insert_overlapping.
Qed.

(** Two ranges that merge, and one that overlaps them. *)
Definition btree_example : idMapSet := default empty_set (TryInsertRange empty_set 0 1000 100000).

Lemma btree_refines_list_witness :
  segments <$> TryInsertRange btree_example 1000 2000 101000 = Some [mkSegment 0 2000 100000] ∧
  segments <$> TryInsertRange btree_example 999 2000 7 = None.
Proof.
  assert (Hok : btree_ok btree_example).
  { eapply (proj1 (TryInsertRange_Some empty_set 0 1000 100000 btree_example empty_set_ok ltac:(lia) ltac:(done) ltac:(done) eq_refl)). }
  destruct (btree_refines_list btree_example Hok) as (_ & _ & Hi). split.
  - destruct (Hi 1000 2000 101000) as [-> _]; [lia|done|done|]. by vm_compute.
  - destruct (Hi 999 2000 7) as [-> _]; [lia|done|done|]. by vm_compute.
Defined.
