(* ===== verification/Capability.v ===== *)
(** * Capabilities (src/pkg/abi/linux/capability.go, src/pkg/sentry/kernel/auth/capability_set.go)

    Capabilities by number and name, sets of capabilities as 64-bit masks, and the file
    capabilities stored in extended attributes.  Their generated marshalling code is the class
    [CapMarshal]. *)

From stdpp Require Import base numbers decidable strings list.
From S2P Require Import Prelude.

Local Open Scope Z_scope.
Local Open Scope bits_scope.

(** ** Capabilities *)

(** A [Capability] is a Go [int]. *)
Abbreviation CAP_CHOWN := (0)%Z (only parsing).
Abbreviation CAP_DAC_OVERRIDE := (1)%Z (only parsing).
Abbreviation CAP_DAC_READ_SEARCH := (2)%Z (only parsing).
Abbreviation CAP_FOWNER := (3)%Z (only parsing).
Abbreviation CAP_FSETID := (4)%Z (only parsing).
Abbreviation CAP_KILL := (5)%Z (only parsing).
Abbreviation CAP_SETGID := (6)%Z (only parsing).
Abbreviation CAP_SETUID := (7)%Z (only parsing).
Abbreviation CAP_SETPCAP := (8)%Z (only parsing).
Abbreviation CAP_LINUX_IMMUTABLE := (9)%Z (only parsing).
Abbreviation CAP_NET_BIND_SERVICE := (10)%Z (only parsing).
Abbreviation CAP_NET_BROADCAST := (11)%Z (only parsing).
Abbreviation CAP_NET_ADMIN := (12)%Z (only parsing).
Abbreviation CAP_NET_RAW := (13)%Z (only parsing).
Abbreviation CAP_IPC_LOCK := (14)%Z (only parsing).
Abbreviation CAP_IPC_OWNER := (15)%Z (only parsing).
Abbreviation CAP_SYS_MODULE := (16)%Z (only parsing).
Abbreviation CAP_SYS_RAWIO := (17)%Z (only parsing).
Abbreviation CAP_SYS_CHROOT := (18)%Z (only parsing).
Abbreviation CAP_SYS_PTRACE := (19)%Z (only parsing).
Abbreviation CAP_SYS_PACCT := (20)%Z (only parsing).
Abbreviation CAP_SYS_ADMIN := (21)%Z (only parsing).
Abbreviation CAP_SYS_BOOT := (22)%Z (only parsing).
Abbreviation CAP_SYS_NICE := (23)%Z (only parsing).
Abbreviation CAP_SYS_RESOURCE := (24)%Z (only parsing).
Abbreviation CAP_SYS_TIME := (25)%Z (only parsing).
Abbreviation CAP_SYS_TTY_CONFIG := (26)%Z (only parsing).
Abbreviation CAP_MKNOD := (27)%Z (only parsing).
Abbreviation CAP_LEASE := (28)%Z (only parsing).
Abbreviation CAP_AUDIT_WRITE := (29)%Z (only parsing).
Abbreviation CAP_AUDIT_CONTROL := (30)%Z (only parsing).
Abbreviation CAP_SETFCAP := (31)%Z (only parsing).
Abbreviation CAP_MAC_OVERRIDE := (32)%Z (only parsing).
Abbreviation CAP_MAC_ADMIN := (33)%Z (only parsing).
Abbreviation CAP_SYSLOG := (34)%Z (only parsing).
Abbreviation CAP_WAKE_ALARM := (35)%Z (only parsing).
Abbreviation CAP_BLOCK_SUSPEND := (36)%Z (only parsing).
Abbreviation CAP_AUDIT_READ := (37)%Z (only parsing).
Abbreviation CAP_PERFMON := (38)%Z (only parsing).
Abbreviation CAP_BPF := (39)%Z (only parsing).
Abbreviation CAP_CHECKPOINT_RESTORE := (40)%Z (only parsing).

Abbreviation CAP_LAST_CAP := (CAP_CHECKPOINT_RESTORE)%Z (only parsing).

Definition cap_Ok (cp : Z) : bool := (0 <=? cp) && (cp <=? CAP_LAST_CAP).

(** The cases of [String]. *)
Definition cap_names : list (Z * string) :=
  [
   (CAP_CHOWN, "CAP_CHOWN");
   (CAP_DAC_OVERRIDE, "CAP_DAC_OVERRIDE");
   (CAP_DAC_READ_SEARCH, "CAP_DAC_READ_SEARCH");
   (CAP_FOWNER, "CAP_FOWNER");
   (CAP_FSETID, "CAP_FSETID");
   (CAP_KILL, "CAP_KILL");
   (CAP_SETGID, "CAP_SETGID");
   (CAP_SETUID, "CAP_SETUID");
   (CAP_SETPCAP, "CAP_SETPCAP");
   (CAP_LINUX_IMMUTABLE, "CAP_LINUX_IMMUTABLE");
   (CAP_NET_BIND_SERVICE, "CAP_NET_BIND_SERVICE");
   (CAP_NET_BROADCAST, "CAP_NET_BROADCAST");
   (CAP_NET_ADMIN, "CAP_NET_ADMIN");
   (CAP_NET_RAW, "CAP_NET_RAW");
   (CAP_IPC_LOCK, "CAP_IPC_LOCK");
   (CAP_IPC_OWNER, "CAP_IPC_OWNER");
   (CAP_SYS_MODULE, "CAP_SYS_MODULE");
   (CAP_SYS_RAWIO, "CAP_SYS_RAWIO");
   (CAP_SYS_CHROOT, "CAP_SYS_CHROOT");
   (CAP_SYS_PTRACE, "CAP_SYS_PTRACE");
   (CAP_SYS_PACCT, "CAP_SYS_PACCT");
   (CAP_SYS_ADMIN, "CAP_SYS_ADMIN");
   (CAP_SYS_BOOT, "CAP_SYS_BOOT");
   (CAP_SYS_NICE, "CAP_SYS_NICE");
   (CAP_SYS_RESOURCE, "CAP_SYS_RESOURCE");
   (CAP_SYS_TIME, "CAP_SYS_TIME");
   (CAP_SYS_TTY_CONFIG, "CAP_SYS_TTY_CONFIG");
   (CAP_MKNOD, "CAP_MKNOD");
   (CAP_LEASE, "CAP_LEASE");
   (CAP_AUDIT_WRITE, "CAP_AUDIT_WRITE");
   (CAP_AUDIT_CONTROL, "CAP_AUDIT_CONTROL");
   (CAP_SETFCAP, "CAP_SETFCAP");
   (CAP_MAC_OVERRIDE, "CAP_MAC_OVERRIDE");
   (CAP_MAC_ADMIN, "CAP_MAC_ADMIN");
   (CAP_SYSLOG, "CAP_SYSLOG");
   (CAP_WAKE_ALARM, "CAP_WAKE_ALARM");
   (CAP_BLOCK_SUSPEND, "CAP_BLOCK_SUSPEND");
   (CAP_AUDIT_READ, "CAP_AUDIT_READ")].

Definition cap_String (cp : Z) : string :=
  match list_find (λ c, c.1 = cp) cap_names with
  | Some (_, c) => c.2
  | None => "UNKNOWN"
  end.

(** The loop of [CapabilityFromString], from [cp] on. *)
Fixpoint cap_search (n : nat) (cp : Z) (capability : string) : Z * bool :=
  match n with
  | O => (-1, false)
  | S n' =>
      if negb (cap_Ok cp) then cap_search n' (cp + 1) capability
      else if bool_decide (cap_String cp = capability) then (cp, true)
      else cap_search n' (cp + 1) capability
  end.

Definition CapabilityFromString (capability : string) : Z * bool :=
  cap_search (Z.to_nat (CAP_LAST_CAP + 1)) 0 capability.

(** ** Sets of capabilities *)

(** [MaskOf] of package bits, for [uint64]: [T(1) << T(i)]. *)
Definition MaskOf (i : Z) : Z := if wrap64 i <? 64 then Z.shiftl 1 (wrap64 i) else 0.

Definition CapabilitySetOf (cp : Z) : Z := MaskOf cp.

Definition CapabilitySetOfMany (cps : list Z) : Z := foldl (λ cs cp, cs .| MaskOf cp) 0 cps.

Definition AllCapabilities : Z := CapabilitySetOf (CAP_LAST_CAP + 1) - 1.

(** [cs & ^x] on 64 bits. *)
Definition and_not (cs x : Z) : Z := Z.ldiff cs x.

Definition caps_Add (cs cp : Z) : Z := cs .| CapabilitySetOf cp.

Definition caps_Clear (cs cp : Z) : Z := and_not cs (CapabilitySetOf cp).

Definition IsSubsetOf (cs super : Z) : bool := cs .& super =? cs.

(** ** File capabilities *)

Abbreviation VFS_CAP_FLAGS_EFFECTIVE := (0x000001)%Z (only parsing).
Abbreviation VFS_CAP_REVISION_2 := (0x02000000)%Z (only parsing).
Abbreviation VFS_CAP_REVISION_3 := (0x03000000)%Z (only parsing).
Abbreviation VFS_CAP_REVISION_MASK := (0xFF000000)%Z (only parsing).
Abbreviation XATTR_CAPS_SZ_2 := (20)%nat (only parsing).
Abbreviation XATTR_CAPS_SZ_3 := (24)%nat (only parsing).

Record VfsCapData : Type := mkVfsCap {
  MagicEtc : Z;
  PermittedLo : Z;
  InheritableLo : Z;
  PermittedHi : Z;
  InheritableHi : Z
}.

Record VfsNsCapData : Type := mkVfsNsCap {
  VfsCap : VfsCapData;                      (* embedded *)
  RootID : Z
}.

Definition vfs_Permitted (c : VfsCapData) : Z := Z.shiftl (PermittedHi c) 32 .| PermittedLo c.

Definition vfs_Inheritable (c : VfsCapData) : Z := Z.shiftl (InheritableHi c) 32 .| InheritableLo c.

Definition IsRevision2 (c : VfsCapData) : bool := MagicEtc c .& VFS_CAP_REVISION_MASK =? VFS_CAP_REVISION_2.

Definition set_MagicEtc (c : VfsCapData) (magic : Z) : VfsCapData :=
  mkVfsCap magic (PermittedLo c) (InheritableLo c) (PermittedHi c) (InheritableHi c).

Definition ConvertToV3 (c : VfsNsCapData) (rootid : Z) : VfsNsCapData :=
  if IsRevision2 (VfsCap c)
  then mkVfsNsCap (set_MagicEtc (VfsCap c) (VFS_CAP_REVISION_3 .| (MagicEtc (VfsCap c) .& VFS_CAP_FLAGS_EFFECTIVE))) rootid
  else mkVfsNsCap (VfsCap c) rootid.

Definition ConvertToV2 (c : VfsNsCapData) : VfsNsCapData :=
  if negb (IsRevision2 (VfsCap c))
  then mkVfsNsCap (set_MagicEtc (VfsCap c) (VFS_CAP_REVISION_2 .| (MagicEtc (VfsCap c) .& VFS_CAP_FLAGS_EFFECTIVE))) 0
  else mkVfsNsCap (VfsCap c) 0.

(** The generated [MarshalUnsafe] and [UnmarshalUnsafe] of the two types. *)
Class CapMarshal : Type := {
  marshal_v2 : VfsCapData → list Z;
  unmarshal_v2 : list Z → VfsCapData;
  marshal_v3 : VfsNsCapData → list Z;
  unmarshal_v3 : list Z → VfsNsCapData
}.

Definition vfs_range (c : VfsCapData) : Prop :=
  in_u32 (MagicEtc c) ∧ in_u32 (PermittedLo c) ∧ in_u32 (InheritableLo c) ∧
  in_u32 (PermittedHi c) ∧ in_u32 (InheritableHi c).

(** They are inverse to each other on the sizes of the two structs. *)
Class CapMarshalLaws `{CapMarshal} : Prop := {
  marshal_v2_length c : length (marshal_v2 c) = XATTR_CAPS_SZ_2;
  marshal_v3_length c : length (marshal_v3 c) = XATTR_CAPS_SZ_3;
  unmarshal_marshal_v2 c : vfs_range c → unmarshal_v2 (marshal_v2 c) = c;
  unmarshal_marshal_v3 c : vfs_range (VfsCap c) → in_u32 (RootID c) → unmarshal_v3 (marshal_v3 c) = c;
  marshal_unmarshal_v2 b : Forall in_u8 b → length b = XATTR_CAPS_SZ_2 →
    vfs_range (unmarshal_v2 b) ∧ marshal_v2 (unmarshal_v2 b) = b;
  marshal_unmarshal_v3 b : Forall in_u8 b → length b = XATTR_CAPS_SZ_3 →
    vfs_range (VfsCap (unmarshal_v3 b)) ∧ in_u32 (RootID (unmarshal_v3 b)) ∧ marshal_v3 (unmarshal_v3 b) = b
}.

(** Little-endian fields one after the other. *)
Definition field (b : list Z) (i : nat) : Z := le_value (take 4 (drop (4 * i) b)).

Definition le_vfs (c : VfsCapData) : list Z :=
  le_bytes 4 (MagicEtc c) ++ le_bytes 4 (PermittedLo c) ++ le_bytes 4 (InheritableLo c) ++
  le_bytes 4 (PermittedHi c) ++ le_bytes 4 (InheritableHi c).

Definition vfs_of (b : list Z) : VfsCapData := mkVfsCap (field b 0) (field b 1) (field b 2) (field b 3) (field b 4).

Definition le_cap_marshal : CapMarshal := {|
  marshal_v2 := le_vfs;
  unmarshal_v2 := vfs_of;
  marshal_v3 c := le_vfs (VfsCap c) ++ le_bytes 4 (RootID c);
  unmarshal_v3 b := mkVfsNsCap (vfs_of b) (field b 5)
|}.

Section Vfs.
Context `{CapMarshal}.

(** [ToString] of the two types. *)
Definition vfs_ToString (c : VfsCapData) : list Z := marshal_v2 c.

Definition vfsns_ToString (c : VfsNsCapData) : list Z :=
  if IsRevision2 (VfsCap c) then vfs_ToString (VfsCap c) else marshal_v3 c.

Definition VfsCapDataOf (data : list Z) : result Errno VfsNsCapData :=
  let size := length data in
  if negb (size =? XATTR_CAPS_SZ_2)%nat && negb (size =? XATTR_CAPS_SZ_3)%nat then Err EINVAL
  else
    let capData :=
      if (size =? XATTR_CAPS_SZ_3)%nat then unmarshal_v3 data
      else mkVfsNsCap (unmarshal_v2 data) 0 in
    let sansflags := and_not (MagicEtc (VfsCap capData)) VFS_CAP_FLAGS_EFFECTIVE in
    if ((size =? XATTR_CAPS_SZ_2)%nat && negb (sansflags =? VFS_CAP_REVISION_2)) ||
       ((size =? XATTR_CAPS_SZ_3)%nat && negb (sansflags =? VFS_CAP_REVISION_3)) then Err EINVAL
    else Ok capData.
End Vfs.
