(* ===== verification/FileMode.v ===== *)
(** * File modes and flags (src/pkg/abi/linux/file.go)

    The bits of file modes, open flags and stat masks that permission checks look at.  Octal
    constants of the source are written in hexadecimal. *)

From stdpp Require Import base numbers.
From S2P Require Import Prelude.

Local Open Scope Z_scope.
Local Open Scope bits_scope.

Abbreviation O_ACCMODE := (3)%Z (only parsing).
Abbreviation O_RDONLY := (0)%Z (only parsing).
Abbreviation O_WRONLY := (1)%Z (only parsing).
Abbreviation O_RDWR := (2)%Z (only parsing).
Abbreviation O_TRUNC := (0x200)%Z (only parsing).

Abbreviation UTIME_NOW := (Z.shiftl 1 30 - 1)%Z (only parsing).

Abbreviation S_IFMT := (0xF000)%Z (only parsing).
Abbreviation S_IFLNK := (0xA000)%Z (only parsing).
Abbreviation S_IFREG := (0x8000)%Z (only parsing).
Abbreviation S_IFDIR := (0x4000)%Z (only parsing).
Abbreviation S_ISUID := (0x800)%Z (only parsing).
Abbreviation S_ISGID := (0x400)%Z (only parsing).
Abbreviation S_ISVTX := (0x200)%Z (only parsing).

Abbreviation FileTypeMask := (S_IFMT)%Z (only parsing).
Abbreviation ModeSymlink := (S_IFLNK)%Z (only parsing).
Abbreviation ModeRegular := (S_IFREG)%Z (only parsing).
Abbreviation ModeDirectory := (S_IFDIR)%Z (only parsing).
Abbreviation ModeSetUID := (S_ISUID)%Z (only parsing).
Abbreviation ModeSetGID := (S_ISGID)%Z (only parsing).
Abbreviation ModeSticky := (S_ISVTX)%Z (only parsing).

Abbreviation ModeUserAll := (0x1C0)%Z (only parsing).
Abbreviation ModeGroupAll := (0x38)%Z (only parsing).
Abbreviation ModeGroupExec := (0x8)%Z (only parsing).
Abbreviation ModeOtherAll := (0x7)%Z (only parsing).
Abbreviation PermissionsMask := (0x1FF)%Z (only parsing).

Abbreviation STATX_MODE := (0x00000002)%Z (only parsing).
Abbreviation STATX_UID := (0x00000008)%Z (only parsing).
Abbreviation STATX_GID := (0x00000010)%Z (only parsing).
Abbreviation STATX_ATIME := (0x00000020)%Z (only parsing).
Abbreviation STATX_MTIME := (0x00000040)%Z (only parsing).
Abbreviation STATX_CTIME := (0x00000080)%Z (only parsing).
Abbreviation STATX_SIZE := (0x00000200)%Z (only parsing).

(** A [FileMode] is a [uint16]. *)
Definition Permissions (m : Z) : Z := m .& PermissionsMask.

Definition FileType (m : Z) : Z := m .& FileTypeMask.

Definition IsDir (m : Z) : bool := FileType m =? S_IFDIR.
