(* ===== verification/UserNs.v ===== *)
(** * User namespaces (src/pkg/sentry/kernel/auth/id.go, id_map.go, user_namespace.go)

    IDs, user namespaces and the translation of IDs between them.  The fields of a namespace
    that never change are in [UserNamespace], with the parent as part of the value and a number
    for pointer comparison; its ID maps and flag are in a store by that number.  The operations
    that check credentials are in Credentials.v.  Keys, inodes and reference counts are left
    out; the locks make each operation atomic. *)

From stdpp Require Import base numbers decidable gmap list.
From S2P Require Import IdMapSet Prelude.

Local Open Scope Z_scope.

(** ** IDs *)

Definition NoID : Z := 2 ^ 32 - 1.

Abbreviation OverflowUID := (65534)%Z (only parsing).
Abbreviation OverflowGID := (65534)%Z (only parsing).
Abbreviation NobodyKUID := (65534)%Z (only parsing).
Abbreviation NobodyKGID := (65534)%Z (only parsing).
Abbreviation RootKUID := (0)%Z (only parsing).
Abbreviation RootKGID := (0)%Z (only parsing).
Abbreviation RootUID := (0)%Z (only parsing).
Abbreviation RootGID := (0)%Z (only parsing).

(** [Ok] of [UID], [GID], [KUID] and [KGID]. *)
Definition id_Ok (id : Z) : bool := negb (id =? NoID).

Definition uid_OrOverflow (uid : Z) : Z := if id_Ok uid then uid else OverflowUID.

Definition gid_OrOverflow (gid : Z) : Z := if id_Ok gid then gid else OverflowGID.

(** ** Namespaces *)

Inductive UserNamespace : Type :=
  | mkUserNamespace (id : nat) (parent : option UserNamespace) (owner : Z) (parentHadSetfcap : bool).

Definition ns_id (ns : UserNamespace) : nat := let '(mkUserNamespace id _ _ _) := ns in id.

Definition parent (ns : UserNamespace) : option UserNamespace := let '(mkUserNamespace _ p _ _) := ns in p.

Definition owner (ns : UserNamespace) : Z := let '(mkUserNamespace _ _ o _) := ns in o.

Definition parentHadSetfcap (ns : UserNamespace) : bool := let '(mkUserNamespace _ _ _ b) := ns in b.

(** Equality of pointers to namespaces. *)
Definition same_ns (ns1 ns2 : UserNamespace) : bool := (ns_id ns1 =? ns_id ns2)%nat.

Fixpoint Root (ns : UserNamespace) : UserNamespace :=
  match ns with
  | mkUserNamespace _ (Some p) _ _ => Root p
  | mkUserNamespace _ None _ _ => ns
  end.

Definition maxUserNamespaceDepth : nat := 32.

Fixpoint depth (ns : UserNamespace) : nat :=
  match ns with
  | mkUserNamespace _ (Some p) _ _ => S (depth p)
  | mkUserNamespace _ None _ _ => 1
  end.

(** [IDMapEntry] *)
Record IDMapEntry : Type := mkIDMapEntry { FirstID : Z; FirstParentID : Z; Length : Z }.

Section Maps.
Context `{IdMapSet}.

(** The part of a namespace that its lock protects. *)
Record ns_state : Type := mkNsState {
  uidMapFromParent : idMapSet;
  uidMapToParent : idMapSet;
  gidMapFromParent : idMapSet;
  gidMapToParent : idMapSet;
  setgroupsAllowed : bool
}.

Definition ns_state0 : ns_state := mkNsState empty_set empty_set empty_set empty_set false.

(** All namespaces; the next one gets the number [next_ns]. *)
Record ns_store : Type := mkStore { next_ns : nat; states : gmap nat ns_state }.

Definition state_of (st : ns_store) (ns : UserNamespace) : ns_state := default ns_state0 (states st !! ns_id ns).

Definition set_state (st : ns_store) (ns : UserNamespace) (s : ns_state) : ns_store :=
  mkStore (next_ns st) (<[ns_id ns := s]> (states st)).

Definition mapID (m : idMapSet) (id : Z) : Z :=
  if id =? NoID then NoID
  else match FindSegment m id with
       | Some it => wrap32 (seg_value it + wrap32 (id - seg_start it))
       | None => NoID
       end.

(** The translation from and to the root namespace along the given maps. *)
Fixpoint map_from_root (sel : ns_state → idMapSet) (st : ns_store) (ns : UserNamespace) (kid : Z) : Z :=
  match ns with
  | mkUserNamespace _ None _ _ => kid
  | mkUserNamespace _ (Some p) _ _ => mapID (sel (state_of st ns)) (map_from_root sel st p kid)
  end.

Fixpoint map_to_root (sel : ns_state → idMapSet) (st : ns_store) (ns : UserNamespace) (id : Z) : Z :=
  match ns with
  | mkUserNamespace _ None _ _ => id
  | mkUserNamespace _ (Some p) _ _ => map_to_root sel st p (mapID (sel (state_of st ns)) id)
  end.

Definition MapFromKUID : ns_store → UserNamespace → Z → Z := map_from_root uidMapFromParent.

Definition MapFromKGID : ns_store → UserNamespace → Z → Z := map_from_root gidMapFromParent.

Definition MapToKUID : ns_store → UserNamespace → Z → Z := map_to_root uidMapToParent.

Definition MapToKGID : ns_store → UserNamespace → Z → Z := map_to_root gidMapToParent.

(** [KUID.In] and [KGID.In] *)
Definition kuid_In (st : ns_store) (kuid : Z) (ns : UserNamespace) : Z := MapFromKUID st ns kuid.

Definition kgid_In (st : ns_store) (kgid : Z) (ns : UserNamespace) : Z := MapFromKGID st ns kgid.

Definition allIDsMapped (m : idMapSet) (r_start r_end : Z) : bool :=
  SpanRange m r_start r_end =? wrap32 (r_end - r_start).

(** [InsertRange] panics where [TryInsertRange] returns a terminal iterator. *)
Definition InsertRange (m : idMapSet) (r_start r_end v : Z) : option idMapSet := TryInsertRange m r_start r_end v.

Definition NewRootUserNamespace (st : ns_store) : option (UserNamespace * ns_store) :=
  let ns := mkUserNamespace (next_ns st) None 0 false in
  m1 ← InsertRange empty_set 0 NoID 0;
  m2 ← InsertRange empty_set 0 NoID 0;
  m3 ← InsertRange empty_set 0 NoID 0;
  m4 ← InsertRange empty_set 0 NoID 0;
  Some (ns, set_state (mkStore (S (next_ns st)) (states st)) ns (mkNsState m1 m2 m3 m4 true)).

(** [getIDMap] *)
Definition getIDMap (m : idMapSet) : list IDMapEntry :=
  (λ it, mkIDMapEntry (seg_start it) (seg_value it) (wrap32 (seg_end it - seg_start it))) <$> segments m.

Definition UIDMap (st : ns_store) (ns : UserNamespace) : list IDMapEntry := getIDMap (uidMapToParent (state_of st ns)).

Definition GIDMap (st : ns_store) (ns : UserNamespace) : list IDMapEntry := getIDMap (gidMapToParent (state_of st ns)).

(** The loop of [trySetUIDMap] and [trySetGIDMap]: the maps it leaves, and how it ends.
    [parent_to] is the map of the parent to its own parent. *)
Fixpoint try_set_map (parent_to : idMapSet) (entries : list IDMapEntry) (from to : idMapSet)
    : idMapSet * idMapSet * option Errno :=
  match entries with
  | [] => (from, to, None)
  | e :: entries' =>
      let lastID := wrap32 (FirstID e + Length e) in
      if lastID <=? FirstID e then (from, to, Some EINVAL)
      else
        let lastParentID := wrap32 (FirstParentID e + Length e) in
        if lastParentID <=? FirstParentID e then (from, to, Some EINVAL)
        else if negb (allIDsMapped parent_to (FirstParentID e) lastParentID) then (from, to, Some EPERM)
        else
          match TryInsertRange from (FirstParentID e) lastParentID (FirstID e) with
          | None => (from, to, Some EINVAL)
          | Some from' =>
              match TryInsertRange to (FirstID e) lastID (FirstParentID e) with
              | None => (from', to, Some EINVAL)
              | Some to' => try_set_map parent_to entries' from' to'
              end
          end
  end.

Definition set_uid_maps (s : ns_state) (from to : idMapSet) : ns_state :=
  mkNsState from to (gidMapFromParent s) (gidMapToParent s) (setgroupsAllowed s).

Definition set_gid_maps (s : ns_state) (from to : idMapSet) : ns_state :=
  mkNsState (uidMapFromParent s) (uidMapToParent s) from to (setgroupsAllowed s).

Definition set_setgroups (s : ns_state) (allow : bool) : ns_state :=
  mkNsState (uidMapFromParent s) (uidMapToParent s) (gidMapFromParent s) (gidMapToParent s) allow.

(** Both leave data in the maps when they fail. *)
Definition trySetUIDMap (st : ns_store) (ns p : UserNamespace) (entries : list IDMapEntry) : ns_state * option Errno :=
  let s := state_of st ns in
  let '(from, to, err) := try_set_map (uidMapToParent (state_of st p)) entries (uidMapFromParent s) (uidMapToParent s) in
  (set_uid_maps s from to, err).

Definition trySetGIDMap (st : ns_store) (ns p : UserNamespace) (entries : list IDMapEntry) : ns_state * option Errno :=
  let s := state_of st ns in
  let '(from, to, err) := try_set_map (gidMapToParent (state_of st p)) entries (gidMapFromParent s) (gidMapToParent s) in
  (set_gid_maps s from to, err).

Definition SetgroupsAllowed (st : ns_store) (ns : UserNamespace) : bool := setgroupsAllowed (state_of st ns).

Definition MaySetgroups (st : ns_store) (ns : UserNamespace) : bool :=
  negb (IsEmpty (gidMapFromParent (state_of st ns))) && setgroupsAllowed (state_of st ns).
End Maps.
