(* ===== verification/Credentials.v ===== *)
(** * Credentials (src/pkg/sentry/kernel/auth/credentials.go, user_namespace.go, id_map.go)

    The credentials of a task, the capabilities they give in user namespaces, and the operations
    on user namespaces that depend on them.  Credentials are immutable in the code as well: a
    change forks them. *)

From stdpp Require Import base numbers decidable gmap list.
From S2P Require Import IdMapSet Capability UserNs Prelude.

Local Open Scope Z_scope.
Local Open Scope bits_scope.

Record Credentials : Type := mkCredentials {
  RealKUID : Z;
  EffectiveKUID : Z;
  SavedKUID : Z;
  RealKGID : Z;
  EffectiveKGID : Z;
  SavedKGID : Z;
  ExtraKGIDs : list Z;
  PermittedCaps : Z;
  InheritableCaps : Z;
  EffectiveCaps : Z;
  BoundingCaps : Z;
  AmbientCaps : Z;
  KeepCaps : bool;
  cred_ns : UserNamespace                   (* UserNamespace *)
}.

(** Copies with some fields set. *)
Definition set_kuids (c : Credentials) (r e s : Z) : Credentials :=
  mkCredentials r e s (RealKGID c) (EffectiveKGID c) (SavedKGID c) (ExtraKGIDs c) (PermittedCaps c)
    (InheritableCaps c) (EffectiveCaps c) (BoundingCaps c) (AmbientCaps c) (KeepCaps c) (cred_ns c).

Definition set_kgids (c : Credentials) (r e s : Z) : Credentials :=
  mkCredentials (RealKUID c) (EffectiveKUID c) (SavedKUID c) r e s (ExtraKGIDs c) (PermittedCaps c)
    (InheritableCaps c) (EffectiveCaps c) (BoundingCaps c) (AmbientCaps c) (KeepCaps c) (cred_ns c).

Definition set_ExtraKGIDs (c : Credentials) (kgids : list Z) : Credentials :=
  mkCredentials (RealKUID c) (EffectiveKUID c) (SavedKUID c) (RealKGID c) (EffectiveKGID c) (SavedKGID c)
    kgids (PermittedCaps c) (InheritableCaps c) (EffectiveCaps c) (BoundingCaps c) (AmbientCaps c)
    (KeepCaps c) (cred_ns c).

Definition set_caps (c : Credentials) (permitted inheritable effective bounding ambient : Z) : Credentials :=
  mkCredentials (RealKUID c) (EffectiveKUID c) (SavedKUID c) (RealKGID c) (EffectiveKGID c) (SavedKGID c)
    (ExtraKGIDs c) permitted inheritable effective bounding ambient (KeepCaps c) (cred_ns c).

Definition set_KeepCaps (c : Credentials) (k : bool) : Credentials :=
  mkCredentials (RealKUID c) (EffectiveKUID c) (SavedKUID c) (RealKGID c) (EffectiveKGID c) (SavedKGID c)
    (ExtraKGIDs c) (PermittedCaps c) (InheritableCaps c) (EffectiveCaps c) (BoundingCaps c) (AmbientCaps c)
    k (cred_ns c).

Definition set_ns (c : Credentials) (ns : UserNamespace) : Credentials :=
  mkCredentials (RealKUID c) (EffectiveKUID c) (SavedKUID c) (RealKGID c) (EffectiveKGID c) (SavedKGID c)
    (ExtraKGIDs c) (PermittedCaps c) (InheritableCaps c) (EffectiveCaps c) (BoundingCaps c) (AmbientCaps c)
    (KeepCaps c) ns.

Definition set_PermittedCaps (c : Credentials) (cs : Z) : Credentials :=
  set_caps c cs (InheritableCaps c) (EffectiveCaps c) (BoundingCaps c) (AmbientCaps c).

Definition set_EffectiveCaps (c : Credentials) (cs : Z) : Credentials :=
  set_caps c (PermittedCaps c) (InheritableCaps c) cs (BoundingCaps c) (AmbientCaps c).

Definition set_BoundingCaps (c : Credentials) (cs : Z) : Credentials :=
  set_caps c (PermittedCaps c) (InheritableCaps c) (EffectiveCaps c) cs (AmbientCaps c).

Definition set_AmbientCaps (c : Credentials) (cs : Z) : Credentials :=
  set_caps c (PermittedCaps c) (InheritableCaps c) (EffectiveCaps c) (BoundingCaps c) cs.

(** ** Construction *)

Record TaskCapabilities : Type := mkTaskCaps {
  tc_PermittedCaps : Z;
  tc_InheritableCaps : Z;
  tc_EffectiveCaps : Z;
  tc_BoundingCaps : Z;
  tc_AmbientCaps : Z
}.

Definition NewRootCredentials (ns : UserNamespace) : Credentials :=
  mkCredentials RootKUID RootKUID RootKUID RootKGID RootKGID RootKGID [] AllCapabilities 0 AllCapabilities
    AllCapabilities 0 false ns.

(** [NewAnonymousCredentials], in a new root namespace. *)
Definition anonymous_in (ns : UserNamespace) : Credentials :=
  mkCredentials NobodyKUID NobodyKUID NobodyKUID NobodyKGID NobodyKGID NobodyKGID [] 0 0 0 0 0 false ns.

Definition NewUserCredentials (kuid kgid : Z) (extraKGIDs : list Z) (capabilities : option TaskCapabilities)
    (ns : UserNamespace) : Credentials :=
  let creds := NewRootCredentials ns in
  let creds := set_kuids creds kuid kuid kuid in
  let creds := set_kgids creds kgid kgid kgid in
  let creds := set_ExtraKGIDs creds (ExtraKGIDs creds ++ extraKGIDs) in
  match capabilities with
  | Some tc =>
      set_caps creds (tc_PermittedCaps tc) (tc_InheritableCaps tc) (tc_EffectiveCaps tc) (tc_BoundingCaps tc)
        (tc_AmbientCaps tc)
  | None =>
      let creds :=
        if kuid =? RootKUID
        then set_EffectiveCaps (set_PermittedCaps creds AllCapabilities) AllCapabilities
        else set_EffectiveCaps (set_PermittedCaps creds 0) 0 in
      set_BoundingCaps creds AllCapabilities
  end.

Definition ForkIntoUserNamespace (c : Credentials) (ns : UserNamespace) : Credentials :=
  let nc := set_ns c ns in
  let nc := set_caps nc AllCapabilities 0 AllCapabilities AllCapabilities 0 in
  set_KeepCaps nc false.

(** ** Checks *)

Definition InGroup (c : Credentials) (kgid : Z) : bool :=
  if EffectiveKGID c =? kgid then true else existsb (λ extraKGID, extraKGID =? kgid) (ExtraKGIDs c).

Fixpoint HasCapabilityIn (c : Credentials) (cp : Z) (ns : UserNamespace) : bool :=
  if same_ns (cred_ns c) ns then negb (CapabilitySetOf cp .& EffectiveCaps c =? 0)
  else
    match ns with
    | mkUserNamespace _ None _ _ => false
    | mkUserNamespace _ (Some p) o _ =>
        if same_ns (cred_ns c) p && (EffectiveKUID c =? o) then true else HasCapabilityIn c cp p
    end.

Definition HasSelfCapability (c : Credentials) (cp : Z) : bool := HasCapabilityIn c cp (cred_ns c).

Definition HasRootCapability (c : Credentials) (cp : Z) : bool := HasCapabilityIn c cp (Root (cred_ns c)).

Section Creds.
Context `{IdMapSet}.

Definition NewAnonymousCredentials (st : ns_store) : option (Credentials * ns_store) :=
  '(ns, st) ← NewRootUserNamespace st; Some (anonymous_in ns, st).

Definition HasCapabilityOnFile (st : ns_store) (c : Credentials) (cp kuid kgid : Z) : bool :=
  HasSelfCapability c cp && id_Ok (MapFromKUID st (cred_ns c) kuid) && id_Ok (MapFromKGID st (cred_ns c) kgid).

Definition UseUID (st : ns_store) (c : Credentials) (uid : Z) : result Errno Z :=
  let kuid := MapToKUID st (cred_ns c) uid in
  if negb (id_Ok kuid) then Err EINVAL
  else if HasSelfCapability c CAP_SETUID then Ok kuid
  else if (kuid =? RealKUID c) || (kuid =? EffectiveKUID c) || (kuid =? SavedKUID c) then Ok kuid
  else Err EPERM.

Definition UseGID (st : ns_store) (c : Credentials) (gid : Z) : result Errno Z :=
  let kgid := MapToKGID st (cred_ns c) gid in
  if negb (id_Ok kgid) then Err EINVAL
  else if HasSelfCapability c CAP_SETGID then Ok kgid
  else if (kgid =? RealKGID c) || (kgid =? EffectiveKGID c) || (kgid =? SavedKGID c) then Ok kgid
  else Err EPERM.

(** ** Operations on namespaces *)

Definition NewChildUserNamespace (st : ns_store) (c : Credentials) : result Errno (UserNamespace * ns_store) :=
  if (maxUserNamespaceDepth <=? depth (cred_ns c))%nat then Err EUSERS
  else if negb (id_Ok (kuid_In st (EffectiveKUID c) (cred_ns c))) then Err EPERM
  else if negb (id_Ok (kgid_In st (EffectiveKGID c) (cred_ns c))) then Err EPERM
  else
    let parentSetgroupsAllowed := setgroupsAllowed (state_of st (cred_ns c)) in
    let ns := mkUserNamespace (next_ns st) (Some (cred_ns c)) (EffectiveKUID c) (HasSelfCapability c CAP_SETFCAP) in
    Ok (ns, set_state (mkStore (S (next_ns st)) (states st)) ns (set_setgroups ns_state0 parentSetgroupsAllowed)).

(** [verifyRootUserMapping], where [p] is the parent of [ns]. *)
Definition verifyRootUserMapping (c : Credentials) (ns p : UserNamespace) (entries : list IDMapEntry) : bool :=
  if negb (existsb (λ e, FirstParentID e =? 0) entries) then true
  else if same_ns (cred_ns c) ns then parentHadSetfcap ns
  else HasCapabilityIn c CAP_SETFCAP p.

(** The conditions on an unprivileged writer of an ID map, for the ID [kid] that it has. *)
Definition single_own_id (to_root : Z → Z) (entries : list IDMapEntry) (kid : Z) : bool :=
  match entries with
  | [e] => (to_root (FirstParentID e) =? kid) && (Length e =? 1)
  | _ => false
  end.

(** The new store and the result.  A namespace without a parent and without a map panics. *)
Definition SetUIDMap (st : ns_store) (c : Credentials) (ns : UserNamespace) (entries : list IDMapEntry)
    : ns_store * result Errno unit :=
  if negb (IsEmpty (uidMapFromParent (state_of st ns))) then (st, Err EPERM)
  else if (length entries =? 0)%nat then (st, Err EINVAL)
  else if negb (HasCapabilityIn c CAP_SETUID ns) then (st, Err EPERM)
  else
    match parent ns with
    | None => if negb (same_ns (cred_ns c) ns) then (st, Err EPERM) else (st, Panic)
    | Some p =>
        if negb (same_ns (cred_ns c) ns) && negb (same_ns (cred_ns c) p) then (st, Err EPERM)
        else if negb (HasCapabilityIn c CAP_SETUID p) &&
                (negb (single_own_id (MapToKUID st p) entries (EffectiveKUID c)) ||
                 negb (EffectiveKUID c =? owner ns)) then (st, Err EPERM)
        else if negb (verifyRootUserMapping c ns p entries) then (st, Err EPERM)
        else
          match trySetUIDMap st ns p entries with
          | (s, Some err) => (set_state st ns (set_uid_maps s empty_set empty_set), Err err)
          | (s, None) => (set_state st ns s, Ok ())
          end
    end.

Definition SetGIDMap (st : ns_store) (c : Credentials) (ns : UserNamespace) (entries : list IDMapEntry)
    : ns_store * result Errno unit :=
  if negb (IsEmpty (gidMapFromParent (state_of st ns))) then (st, Err EPERM)
  else if (length entries =? 0)%nat then (st, Err EINVAL)
  else if negb (HasCapabilityIn c CAP_SETGID ns) then (st, Err EPERM)
  else
    match parent ns with
    | None => if negb (same_ns (cred_ns c) ns) then (st, Err EPERM) else (st, Panic)
    | Some p =>
        if negb (same_ns (cred_ns c) ns) && negb (same_ns (cred_ns c) p) then (st, Err EPERM)
        else if negb (HasCapabilityIn c CAP_SETGID p) &&
                (negb (single_own_id (MapToKGID st p) entries (EffectiveKGID c)) ||
                 negb (EffectiveKUID c =? owner ns) || setgroupsAllowed (state_of st ns)) then (st, Err EPERM)
        else
          match trySetGIDMap st ns p entries with
          | (s, Some err) => (set_state st ns (set_gid_maps s empty_set empty_set), Err err)
          | (s, None) => (set_state st ns s, Ok ())
          end
    end.

Definition SetSetgroupsAllowed (st : ns_store) (c : Credentials) (ns : UserNamespace) (allow : bool)
    : ns_store * result Errno unit :=
  if negb (HasCapabilityIn c CAP_SYS_ADMIN ns) then (st, Err EPERM)
  else if allow then
    if negb (setgroupsAllowed (state_of st ns)) then (st, Err EPERM) else (st, Ok ())
  else if negb (IsEmpty (gidMapFromParent (state_of st ns))) then (st, Err EPERM)
  else (set_state st ns (set_setgroups (state_of st ns) false), Ok ()).
End Creds.
