(* ===== verification/ExecCreds.v ===== *)
(** * Credentials across execve (src/pkg/sentry/kernel/auth/capability_set.go)

    The privileges that an executable file gives, the credentials after an execve, and the
    conversion of file capabilities when they are set and read.  [GetFilePrivileges] is from
    src/pkg/sentry/vfs/file_description.go; the attributes of the file are its arguments.
    Warnings that are logged are left out. *)

From stdpp Require Import base numbers decidable gmap list.
From S2P Require Import IdMapSet Capability FileMode UserNs Credentials Prelude.

Local Open Scope Z_scope.
Local Open Scope bits_scope.

Record FilePrivileges : Type := mkFilePrivs {
  SetUserID : Z;
  SetGroupID : Z;
  HasCaps : bool;
  CapRootID : Z;
  f_PermittedCaps : Z;
  f_InheritableCaps : Z;
  f_Effective : bool
}.

(** Copies with some fields set. *)
Definition set_ids (f : FilePrivileges) (uid gid : Z) : FilePrivileges :=
  mkFilePrivs uid gid (HasCaps f) (CapRootID f) (f_PermittedCaps f) (f_InheritableCaps f) (f_Effective f).

Definition set_Effective (f : FilePrivileges) (b : bool) : FilePrivileges :=
  mkFilePrivs (SetUserID f) (SetGroupID f) (HasCaps f) (CapRootID f) (f_PermittedCaps f) (f_InheritableCaps f) b.

Definition drop_caps (f : FilePrivileges) : FilePrivileges :=
  mkFilePrivs (SetUserID f) (SetGroupID f) false (CapRootID f) (f_PermittedCaps f) (f_InheritableCaps f) false.

Section Exec.
Context `{IdMapSet}.

(** The loop over [ns] and its ancestors. *)
Fixpoint root_owns (st : ns_store) (ns : UserNamespace) (rootID : Z) : bool :=
  if MapFromKUID st ns rootID =? RootUID then true
  else match ns with
       | mkUserNamespace _ (Some p) _ _ => root_owns st p rootID
       | mkUserNamespace _ None _ _ => false
       end.

Definition rootIDOwnsCurrentUserns (st : ns_store) (creds : Credentials) (rootID : Z) : bool :=
  if negb (id_Ok rootID) then false else root_owns st (cred_ns creds) rootID.

Definition handlePrivilegedRoot (st : ns_store) (c : Credentials) (f : FilePrivileges) : Credentials * FilePrivileges :=
  let root := MapToKUID st (cred_ns c) RootUID in
  if HasCaps f && negb (RealKUID c =? root) && (EffectiveKUID c =? root) then (c, f)
  else
    let c :=
      if (RealKUID c =? root) || (EffectiveKUID c =? root)
      then set_PermittedCaps c (BoundingCaps c .| InheritableCaps c) else c in
    (c, set_Effective f ((EffectiveKUID c =? root) || f_Effective f)).

(** The privileges of the file that are not to be ignored. *)
Definition heeded_privs (st : ns_store) (c : Credentials) (f : FilePrivileges) (noNewPrivs allowSUID : bool)
    : FilePrivileges :=
  let f := if noNewPrivs || negb allowSUID then set_ids f NoID NoID else f in
  let f := if noNewPrivs then drop_caps f else f in
  let f := if negb (id_Ok (kuid_In st (SetUserID f) (cred_ns c))) then set_ids f NoID (SetGroupID f) else f in
  let f := if negb (id_Ok (kgid_In st (SetGroupID f) (cred_ns c))) then set_ids f (SetUserID f) NoID else f in
  if negb (rootIDOwnsCurrentUserns st c (CapRootID f)) then drop_caps f else f.

Definition fileIsPrivileged (f : FilePrivileges) : bool := id_Ok (SetUserID f) || id_Ok (SetGroupID f) || HasCaps f.

(** The credentials with the IDs and the permitted capabilities that the file gives. *)
Definition apply_privs (c : Credentials) (f : FilePrivileges) (ambientCaps : Z) : Credentials :=
  let newC := c in
  let newC := if id_Ok (SetUserID f) then set_kuids newC (RealKUID newC) (SetUserID f) (SavedKUID newC) else newC in
  let newC := if id_Ok (SetGroupID f) then set_kgids newC (RealKGID newC) (SetGroupID f) (SavedKGID newC) else newC in
  let newC := set_PermittedCaps newC (if negb (fileIsPrivileged f) then ambientCaps else 0) in
  if HasCaps f
  then set_PermittedCaps newC (PermittedCaps newC .|
         ((InheritableCaps c .& f_InheritableCaps f) .| (f_PermittedCaps f .& BoundingCaps c)))
  else newC.

(** Where a gain of privileges is denied. *)
Definition deny_gain (c newC : Credentials) (noNewPrivs : bool) : Credentials :=
  let newC :=
    if noNewPrivs || negb (HasSelfCapability c CAP_SETUID)
    then set_kgids (set_kuids newC (RealKUID newC) (RealKUID c) (SavedKUID newC))
           (RealKGID newC) (RealKGID c) (SavedKGID newC)
    else newC in
  set_PermittedCaps newC (PermittedCaps newC .& PermittedCaps c).

(** The fields that follow from the others. *)
Definition finish_creds (newC : Credentials) (ambientCaps : Z) (effective : bool) : Credentials :=
  let newC := set_kuids newC (RealKUID newC) (EffectiveKUID newC) (EffectiveKUID newC) in
  let newC := set_kgids newC (RealKGID newC) (EffectiveKGID newC) (EffectiveKGID newC) in
  let newC := set_EffectiveCaps newC ambientCaps in
  let newC := if effective then set_EffectiveCaps newC (PermittedCaps newC) else newC in
  let newC := set_AmbientCaps newC ambientCaps in
  set_KeepCaps newC false.

(** The new credentials and whether privileges were elevated. *)
Definition ComputeCredsForExec (st : ns_store) (c : Credentials) (f : FilePrivileges)
    (noNewPrivs stopPrivGain allowSUID : bool) : result Errno (Credentials * bool) :=
  let f := heeded_privs st c f noNewPrivs allowSUID in
  let ambientCaps := if fileIsPrivileged f then 0 else AmbientCaps c in
  let newC := apply_privs c f ambientCaps in
  if HasCaps f && f_Effective f && negb (PermittedCaps newC .& f_PermittedCaps f =? f_PermittedCaps f) then Err EPERM
  else
    let '(newC, f) := handlePrivilegedRoot st newC f in
    let gainedID := negb (EffectiveKUID newC =? RealKUID c) || negb (EffectiveKGID newC =? RealKGID c) in
    let gainedCaps := negb (IsSubsetOf (PermittedCaps newC) (PermittedCaps c)) in
    let newC :=
      if (gainedID || gainedCaps) && (noNewPrivs || stopPrivGain) then deny_gain c newC noNewPrivs else newC in
    let newC := finish_creds newC ambientCaps (f_Effective f) in
    let root := MapToKUID st (cred_ns c) RootUID in
    let secureExec :=
      gainedID ||
      (negb (RealKUID newC =? root) && (f_Effective f || negb (IsSubsetOf (PermittedCaps newC) ambientCaps))) in
    Ok (newC, secureExec).

(** ** File capabilities of namespaces *)

Context `{CapMarshal}.

Definition FixupVfsCapDataOnSet (st : ns_store) (creds : Credentials) (value : list Z) (kuid kgid : Z)
    : result Errno (list Z) :=
  vfsCaps ← VfsCapDataOf value;
  if negb (HasCapabilityOnFile st creds CAP_SETFCAP kuid kgid) then Err EPERM
  else if IsRevision2 (VfsCap vfsCaps) && HasRootCapability creds CAP_SETFCAP then Ok value
  else
    let rootID := MapToKUID st (cred_ns creds) (RootID vfsCaps) in
    if negb (id_Ok rootID) then Err EINVAL
    else Ok (vfsns_ToString (ConvertToV3 vfsCaps rootID)).

Definition FixupVfsCapDataOnGet (st : ns_store) (creds : Credentials) (value : list Z) : result Errno (list Z) :=
  vfsCaps ← VfsCapDataOf value;
  let rootID := RootID vfsCaps in
  let mappedRoot := MapFromKUID st (cred_ns creds) rootID in
  if id_Ok mappedRoot && negb (mappedRoot =? RootUID) then Ok (vfsns_ToString (ConvertToV3 vfsCaps mappedRoot))
  else if negb (rootIDOwnsCurrentUserns st creds rootID) then Err EOVERFLOW
  else Ok (vfsns_ToString (ConvertToV2 vfsCaps)).

(** What [GetFilePrivileges] learns of a file: the fields of [Stat], whether the mount has the
    option nosuid, and the extended attribute with its capabilities. *)
Definition GetFilePrivileges (stat_mask stat_mode stat_uid stat_gid : Z) (nosuid : bool)
    (xattr : result Errno (list Z)) : result Errno FilePrivileges :=
  let filePrivs := mkFilePrivs NoID NoID false 0 0 0 false in
  if nosuid then Ok filePrivs
  else
    let filePrivs :=
      if negb (stat_mask .& STATX_MODE =? 0) then
        let f :=
          if negb (stat_mode .& ModeSetUID =? 0) && negb (stat_mask .& STATX_UID =? 0)
          then set_ids filePrivs stat_uid (SetGroupID filePrivs) else filePrivs in
        if negb (stat_mode .& ModeSetGID =? 0) && negb (stat_mask .& STATX_GID =? 0)
        then set_ids f (SetUserID f) stat_gid else f
      else filePrivs in
    match xattr with
    | Panic => Panic
    | Err err => if bool_decide (err = ENODATA ∨ err = EOPNOTSUPP) then Ok filePrivs else Err err
    | Ok fileCaps =>
        vfsCaps ← VfsCapDataOf fileCaps;
        Ok (mkFilePrivs (SetUserID filePrivs) (SetGroupID filePrivs) true (RootID vfsCaps)
              (vfs_Permitted (VfsCap vfsCaps)) (vfs_Inheritable (VfsCap vfsCaps))
              (MagicEtc (VfsCap vfsCaps) .& VFS_CAP_FLAGS_EFFECTIVE >? 0))
    end.
End Exec.
