(* ===== verification/TaskIdentity.v ===== *)
(** * The identity of a task (src/pkg/sentry/kernel/task_identity.go and its callers)

    The methods of [Task] that change the user and group IDs, groups and capabilities of a task.
    The system calls that lead to them are in IdentitySyscalls.v. *)

From stdpp Require Import base numbers decidable gmap list.
From S2P Require Import IdMapSet Capability UserNs Credentials Prelude.

Local Open Scope Z_scope.
Local Open Scope bits_scope.

Inductive Dumpability : Type := NotDumpable | UserDumpable | RootDumpable.

(** The fields of a task that have to do with its identity; [dumpability] is that of its memory
    manager. *)
Record task_identity : Type := mkIdentity {
  creds : Credentials;
  noNewPrivs : bool;
  dumpability : Dumpability;
  parentDeathSignal : Z
}.

Definition store_creds (t : task_identity) (c : Credentials) : task_identity :=
  mkIdentity c (noNewPrivs t) (dumpability t) (parentDeathSignal t).

(** When the effective user or group changes. *)
Definition reset_dumpability (t : task_identity) : task_identity :=
  mkIdentity (creds t) (noNewPrivs t) NotDumpable 0.

Section Identity.
Context `{IdMapSet}.

(** ** User IDs *)

Definition setKUIDsUnchecked (st : ns_store) (t : task_identity) (newR newE newS : Z) : task_identity :=
  let c := creds t in
  let root := MapToKUID st (cred_ns c) RootUID in
  let oldR := RealKUID c in
  let oldE := EffectiveKUID c in
  let oldS := SavedKUID c in
  let c := set_kuids c newR newE newS in
  let c :=
    if ((oldR =? root) || (oldE =? root) || (oldS =? root)) &&
       (negb (newR =? root) && negb (newE =? root) && negb (newS =? root)) then
      let c := set_AmbientCaps c 0 in
      if negb (KeepCaps c) then set_EffectiveCaps (set_PermittedCaps c 0) 0 else c
    else c in
  let c :=
    if (oldE =? root) && negb (newE =? root) then set_EffectiveCaps c 0
    else if negb (oldE =? root) && (newE =? root) then set_EffectiveCaps c (PermittedCaps c)
    else c in
  let t := if negb (oldE =? newE) then reset_dumpability t else t in
  store_creds t c.

Definition SetUID (st : ns_store) (t : task_identity) (uid : Z) : result Errno task_identity :=
  if negb (id_Ok uid) then Err EINVAL
  else
    let c := creds t in
    let kuid := MapToKUID st (cred_ns c) uid in
    if negb (id_Ok kuid) then Err EINVAL
    else if HasSelfCapability c CAP_SETUID then Ok (setKUIDsUnchecked st t kuid kuid kuid)
    else if negb (kuid =? RealKUID c) && negb (kuid =? SavedKUID c) then Err EPERM
    else Ok (setKUIDsUnchecked st t (RealKUID c) kuid (SavedKUID c)).

(** An ID that is changed if [id] is not -1; it must be mapped. *)
Definition new_kuid (st : ns_store) (c : Credentials) (id old : Z) : result Errno Z :=
  if id_Ok id then
    let k := MapToKUID st (cred_ns c) id in
    if negb (id_Ok k) then Err EINVAL else Ok k
  else Ok old.

Definition SetREUID (st : ns_store) (t : task_identity) (r e : Z) : result Errno task_identity :=
  let c := creds t in
  newR ← new_kuid st c r (RealKUID c);
  newE ← new_kuid st c e (EffectiveKUID c);
  if negb (HasSelfCapability c CAP_SETUID) &&
     (negb (newE =? RealKUID c) && negb (newE =? EffectiveKUID c) && negb (newE =? SavedKUID c)) then Err EPERM
  else if negb (HasSelfCapability c CAP_SETUID) &&
          (negb (newR =? RealKUID c) && negb (newR =? EffectiveKUID c)) then Err EPERM
  else
    let newS := if id_Ok r || (id_Ok e && negb (newE =? EffectiveKUID c)) then newE else SavedKUID c in
    Ok (setKUIDsUnchecked st t newR newE newS).

(** An ID that is changed if [id] is not -1; the credentials must allow its use. *)
Definition use_kuid (st : ns_store) (c : Credentials) (id old : Z) : result Errno Z :=
  if id_Ok id then UseUID st c id else Ok old.

Definition SetRESUID (st : ns_store) (t : task_identity) (r e s : Z) : result Errno task_identity :=
  let c := creds t in
  newR ← use_kuid st c r (RealKUID c);
  newE ← use_kuid st c e (EffectiveKUID c);
  newS ← use_kuid st c s (SavedKUID c);
  Ok (setKUIDsUnchecked st t newR newE newS).

(** ** Group IDs *)

Definition setKGIDsUnchecked (t : task_identity) (newR newE newS : Z) : task_identity :=
  let c := creds t in
  let oldE := EffectiveKGID c in
  let c := set_kgids c newR newE newS in
  let t := if negb (oldE =? newE) then reset_dumpability t else t in
  store_creds t c.

Definition SetGID (st : ns_store) (t : task_identity) (gid : Z) : result Errno task_identity :=
  if negb (id_Ok gid) then Err EINVAL
  else
    let c := creds t in
    let kgid := MapToKGID st (cred_ns c) gid in
    if negb (id_Ok kgid) then Err EINVAL
    else if HasSelfCapability c CAP_SETGID then Ok (setKGIDsUnchecked t kgid kgid kgid)
    else if negb (kgid =? RealKGID c) && negb (kgid =? SavedKGID c) then Err EPERM
    else Ok (setKGIDsUnchecked t (RealKGID c) kgid (SavedKGID c)).

Definition new_kgid (st : ns_store) (c : Credentials) (id old : Z) : result Errno Z :=
  if id_Ok id then
    let k := MapToKGID st (cred_ns c) id in
    if negb (id_Ok k) then Err EINVAL else Ok k
  else Ok old.

Definition SetREGID (st : ns_store) (t : task_identity) (r e : Z) : result Errno task_identity :=
  let c := creds t in
  newR ← new_kgid st c r (RealKGID c);
  newE ← new_kgid st c e (EffectiveKGID c);
  if negb (HasSelfCapability c CAP_SETGID) &&
     (negb (newE =? RealKGID c) && negb (newE =? EffectiveKGID c) && negb (newE =? SavedKGID c)) then Err EPERM
  else if negb (HasSelfCapability c CAP_SETGID) &&
          (negb (newR =? RealKGID c) && negb (newR =? EffectiveKGID c)) then Err EPERM
  else
    let newS := if id_Ok r || (id_Ok e && negb (newE =? EffectiveKGID c)) then newE else SavedKGID c in
    Ok (setKGIDsUnchecked t newR newE newS).

Definition use_kgid (st : ns_store) (c : Credentials) (id old : Z) : result Errno Z :=
  if id_Ok id then UseGID st c id else Ok old.

Definition SetRESGID (st : ns_store) (t : task_identity) (r e s : Z) : result Errno task_identity :=
  let c := creds t in
  newR ← use_kgid st c r (RealKGID c);
  newE ← use_kgid st c e (EffectiveKGID c);
  newS ← use_kgid st c s (SavedKGID c);
  Ok (setKGIDsUnchecked t newR newE newS).

Fixpoint map_kgids (st : ns_store) (ns : UserNamespace) (gids : list Z) : result Errno (list Z) :=
  match gids with
  | [] => Ok []
  | gid :: gids' =>
      let kgid := MapToKGID st ns gid in
      if negb (id_Ok kgid) then Err EINVAL
      else kgids ← map_kgids st ns gids'; Ok (kgid :: kgids)
  end.

Definition SetExtraGIDs (st : ns_store) (t : task_identity) (gids : list Z) : result Errno task_identity :=
  let c := creds t in
  if negb (HasSelfCapability c CAP_SETGID) then Err EPERM
  else
    kgids ← map_kgids st (cred_ns c) gids;
    Ok (store_creds t (set_ExtraKGIDs c kgids)).

(** ** Capabilities *)

Definition weakCaps : Z := CapabilitySetOf CAP_NET_RAW.

Definition SetCapabilitySets (t : task_identity) (permitted inheritable effective : Z) : result Errno task_identity :=
  if negb (and_not effective permitted =? 0) then Err EPERM
  else
    let c := creds t in
    let mask := (weakCaps .& BoundingCaps c) .| and_not AllCapabilities weakCaps in
    let permitted := permitted .& mask in
    let inheritable := inheritable .& mask in
    let effective := effective .& mask in
    if negb (HasSelfCapability c CAP_SETPCAP) &&
       negb (and_not inheritable (InheritableCaps c .| PermittedCaps c) =? 0) then Err EPERM
    else if negb (and_not permitted (PermittedCaps c) =? 0) then Err EPERM
    else if negb (and_not inheritable (InheritableCaps c .| BoundingCaps c) =? 0) then Err EPERM
    else
      Ok (store_creds t
            (set_caps c permitted inheritable effective (BoundingCaps c)
               (AmbientCaps c .& (permitted .& inheritable)))).

Definition DropBoundingCapability (t : task_identity) (cp : Z) : result Errno task_identity :=
  let c := creds t in
  if negb (HasSelfCapability c CAP_SETPCAP) then Err EPERM
  else Ok (store_creds t (set_BoundingCaps c (and_not (BoundingCaps c) (CapabilitySetOf cp)))).

Definition SetKeepCaps (t : task_identity) (k : bool) : task_identity := store_creds t (set_KeepCaps (creds t) k).

Definition SECBIT_KEEP_CAPS : Z := Z.shiftl 1 4.

Definition PrivilegedSecureBits : Z := SECBIT_KEEP_CAPS.

Definition SetSecurebits (t : task_identity) (arg2 : Z) : result Errno task_identity :=
  if negb (and_not arg2 SECBIT_KEEP_CAPS =? 0) then Err EPERM
  else
    let oldSec := if KeepCaps (creds t) then SECBIT_KEEP_CAPS else 0 in
    let changed := Z.lxor oldSec arg2 in
    if negb (HasSelfCapability (creds t) CAP_SETPCAP) &&
       ((changed =? 0) || negb (changed .& PrivilegedSecureBits =? 0)) then Err EPERM
    else Ok (SetKeepCaps t (negb (arg2 .& SECBIT_KEEP_CAPS =? 0))).

Definition id_SetNoNewPrivs (t : task_identity) : task_identity :=
  mkIdentity (creds t) true (dumpability t) (parentDeathSignal t).

Definition AmbientCapability (t : task_identity) (cp : Z) : result Errno bool :=
  if negb (cap_Ok cp) then Err EINVAL else Ok (negb (CapabilitySetOf cp .& AmbientCaps (creds t) =? 0)).

Definition RaiseAmbientCapability (t : task_identity) (cp : Z) : result Errno task_identity :=
  if negb (cap_Ok cp) then Err EINVAL
  else
    let c := creds t in
    let cs := CapabilitySetOf cp in
    if (cs .& PermittedCaps c =? 0) || (cs .& InheritableCaps c =? 0) then Err EPERM
    else Ok (store_creds t (set_AmbientCaps c (AmbientCaps c .| cs))).

Definition LowerAmbientCapability (t : task_identity) (cp : Z) : result Errno task_identity :=
  if negb (cap_Ok cp) then Err EINVAL
  else Ok (store_creds t (set_AmbientCaps (creds t) (and_not (AmbientCaps (creds t)) (CapabilitySetOf cp)))).

Definition ClearAmbientCapabilities (t : task_identity) : task_identity :=
  store_creds t (set_AmbientCaps (creds t) 0).
End Identity.
