(* ===== verification/IdentitySyscalls.v ===== *)
(** * System calls on identities (src/pkg/sentry/syscalls/linux/sys_identity.go, sys_capability.go, sys_prctl.go)

    The system calls that read and change user IDs, groups and capabilities, on the arguments
    as the application passes them, and the options of prctl(2) that are about privileges.
    User memory is seen through the results of reading it, which are arguments, and the list
    of what was written to it. *)

From stdpp Require Import base numbers decidable gmap list.
From S2P Require Import IdMapSet Capability UserNs Credentials TaskIdentity Prelude.

Local Open Scope Z_scope.
Local Open Scope bits_scope.

(** ** Arguments (src/pkg/sentry/arch/arch.go) *)

(** The values of the registers. *)
Definition SyscallArguments : Type := list Z.

Definition arg (args : SyscallArguments) (i : nat) : Z := nth i args 0.

Definition arg_Int (v : Z) : Z := let w := wrap32 v in if w <? 2 ^ 31 then w else w - 2 ^ 32.

(** [auth.UID(args[i].Int())] and [auth.GID(args[i].Int())] *)
Definition arg_id (args : SyscallArguments) (i : nat) : Z := wrap32 (arg_Int (arg args i)).

(** [linux.Capability(args[i].Uint64())] *)
Definition arg_cap (args : SyscallArguments) (i : nat) : Z :=
  let w := wrap64 (arg args i) in if w <? 2 ^ 63 then w else w - 2 ^ 64.

(** ** User memory *)

(** What is written at which address. *)
Definition writes : Type := list (Z * list Z).

(** Copies [v] out to [addr]; [fault] says whether the address is bad. *)
Definition CopyOut (fault : Z → option Errno) (addr : Z) (v : list Z) : writes * result Errno unit :=
  match fault addr with Some err => ([], Err err) | None => ([(addr, v)], Ok ()) end.

(** The copies of a list one after the other, until one fails. *)
Fixpoint CopyOutAll (fault : Z → option Errno) (vs : list (Z * list Z)) : writes * result Errno unit :=
  match vs with
  | [] => ([], Ok ())
  | (addr, v) :: vs' =>
      match CopyOut fault addr v with
      | (w, Ok _) => let '(w', r) := CopyOutAll fault vs' in (w ++ w', r)
      | (w, r) => (w, r)
      end
  end.

(** ** Constants *)

Abbreviation maxNGroups := (65536)%Z (only parsing).
Abbreviation LINUX_CAPABILITY_VERSION_1 := (0x19980330)%Z (only parsing).
Abbreviation LINUX_CAPABILITY_VERSION_2 := (0x20071026)%Z (only parsing).
Abbreviation LINUX_CAPABILITY_VERSION_3 := (0x20080522)%Z (only parsing).
Abbreviation HighestCapabilityVersion := (LINUX_CAPABILITY_VERSION_3)%Z (only parsing).
Abbreviation PR_SET_PDEATHSIG := (1)%Z (only parsing).
Abbreviation PR_GET_PDEATHSIG := (2)%Z (only parsing).
Abbreviation PR_GET_DUMPABLE := (3)%Z (only parsing).
Abbreviation PR_SET_DUMPABLE := (4)%Z (only parsing).
Abbreviation PR_GET_KEEPCAPS := (7)%Z (only parsing).
Abbreviation PR_SET_KEEPCAPS := (8)%Z (only parsing).
Abbreviation PR_CAPBSET_READ := (23)%Z (only parsing).
Abbreviation PR_CAPBSET_DROP := (24)%Z (only parsing).
Abbreviation PR_GET_SECUREBITS := (27)%Z (only parsing).
Abbreviation PR_SET_SECUREBITS := (28)%Z (only parsing).
Abbreviation PR_SET_NO_NEW_PRIVS := (38)%Z (only parsing).
Abbreviation PR_GET_NO_NEW_PRIVS := (39)%Z (only parsing).
Abbreviation PR_CAP_AMBIENT := (47)%Z (only parsing).
Abbreviation PR_CAP_AMBIENT_IS_SET := (1)%Z (only parsing).
Abbreviation PR_CAP_AMBIENT_RAISE := (2)%Z (only parsing).
Abbreviation PR_CAP_AMBIENT_LOWER := (3)%Z (only parsing).
Abbreviation PR_CAP_AMBIENT_CLEAR_ALL := (4)%Z (only parsing).
Abbreviation SUID_DUMP_DISABLE := (0)%Z (only parsing).
Abbreviation SUID_DUMP_USER := (1)%Z (only parsing).
Abbreviation SUID_DUMP_ROOT := (2)%Z (only parsing).
Abbreviation SignalMaximum := (64)%Z (only parsing).

Section Syscalls.
Context `{IdMapSet}.

(** ** IDs (sys_identity.go) *)

Definition view_uid (st : ns_store) (c : Credentials) (kuid : Z) : Z := uid_OrOverflow (kuid_In st kuid (cred_ns c)).

Definition view_gid (st : ns_store) (c : Credentials) (kgid : Z) : Z := gid_OrOverflow (kgid_In st kgid (cred_ns c)).

Definition Getuid (st : ns_store) (t : task_identity) : Z := view_uid st (creds t) (RealKUID (creds t)).

Definition Geteuid (st : ns_store) (t : task_identity) : Z := view_uid st (creds t) (EffectiveKUID (creds t)).

Definition Getresuid (st : ns_store) (t : task_identity) (fault : Z → option Errno) (args : SyscallArguments)
    : writes * result Errno unit :=
  let c := creds t in
  CopyOutAll fault
    [(arg args 0, [view_uid st c (RealKUID c)]);
     (arg args 1, [view_uid st c (EffectiveKUID c)]);
     (arg args 2, [view_uid st c (SavedKUID c)])].

Definition Getgid (st : ns_store) (t : task_identity) : Z := view_gid st (creds t) (RealKGID (creds t)).

Definition Getegid (st : ns_store) (t : task_identity) : Z := view_gid st (creds t) (EffectiveKGID (creds t)).

Definition Getresgid (st : ns_store) (t : task_identity) (fault : Z → option Errno) (args : SyscallArguments)
    : writes * result Errno unit :=
  let c := creds t in
  CopyOutAll fault
    [(arg args 0, [view_gid st c (RealKGID c)]);
     (arg args 1, [view_gid st c (EffectiveKGID c)]);
     (arg args 2, [view_gid st c (SavedKGID c)])].

Definition Setuid (st : ns_store) (t : task_identity) (args : SyscallArguments) : result Errno task_identity :=
  SetUID st t (arg_id args 0).

Definition Setreuid (st : ns_store) (t : task_identity) (args : SyscallArguments) : result Errno task_identity :=
  SetREUID st t (arg_id args 0) (arg_id args 1).

Definition Setresuid (st : ns_store) (t : task_identity) (args : SyscallArguments) : result Errno task_identity :=
  SetRESUID st t (arg_id args 0) (arg_id args 1) (arg_id args 2).

Definition Setgid (st : ns_store) (t : task_identity) (args : SyscallArguments) : result Errno task_identity :=
  SetGID st t (arg_id args 0).

Definition Setregid (st : ns_store) (t : task_identity) (args : SyscallArguments) : result Errno task_identity :=
  SetREGID st t (arg_id args 0) (arg_id args 1).

Definition Setresgid (st : ns_store) (t : task_identity) (args : SyscallArguments) : result Errno task_identity :=
  SetRESGID st t (arg_id args 0) (arg_id args 1) (arg_id args 2).

(** The number of groups, and what is written. *)
Definition Getgroups (st : ns_store) (t : task_identity) (fault : Z → option Errno) (args : SyscallArguments)
    : writes * result Errno Z :=
  let size := arg_Int (arg args 0) in
  if size <? 0 then ([], Err EINVAL)
  else
    let kgids := ExtraKGIDs (creds t) in
    if size =? 0 then ([], Ok (Z.of_nat (length kgids)))
    else if size <? Z.of_nat (length kgids) then ([], Err EINVAL)
    else
      let gids := view_gid st (creds t) <$> kgids in
      let '(w, r) := CopyOut fault (arg args 1) gids in
      (w, _ ← r; Ok (Z.of_nat (length gids))).

(** [copy_in n] is the result of reading [n] group IDs at the address of the second argument. *)
Definition Setgroups (st : ns_store) (t : task_identity) (copy_in : Z → result Errno (list Z))
    (args : SyscallArguments) : result Errno task_identity :=
  if negb (MaySetgroups st (cred_ns (creds t))) then Err EPERM
  else
    let size := arg_Int (arg args 0) in
    if (size <? 0) || (size >? maxNGroups) then Err EINVAL
    else if size =? 0 then SetExtraGIDs st t []
    else
      gids ← copy_in size;
      SetExtraGIDs st t gids.

(** ** Capabilities (sys_capability.go) *)

Record CapUserHeader : Type := mkCapHdr { Version : Z; Pid : Z }.

Record CapUserData : Type := mkCapUser { cu_Effective : Z; cu_Permitted : Z; cu_Inheritable : Z }.

(** As the application sees it. *)
Definition user_words (d : CapUserData) : list Z := [cu_Effective d; cu_Permitted d; cu_Inheritable d].

(** [with_id] finds the other tasks of the PID namespace. *)
Definition lookupCaps (with_id : Z → option task_identity) (t : task_identity) (tid : Z) : result Errno (Z * Z * Z) :=
  if tid <? 0 then Err EINVAL
  else
    match (if tid >? 0 then with_id tid else Some t) with
    | None => Err ESRCH
    | Some t =>
        let c := creds t in
        Ok (PermittedCaps c, InheritableCaps c, EffectiveCaps c)
    end.

Definition Capget (with_id : Z → option task_identity) (t : task_identity) (fault : Z → option Errno)
    (hdr_in : result Errno CapUserHeader) (args : SyscallArguments) : writes * result Errno unit :=
  let hdrAddr := arg args 0 in
  let dataAddr := arg args 1 in
  match hdr_in with
  | Err err => ([], Err err)
  | Panic => ([], Panic)
  | Ok hdr =>
      if Version hdr =? LINUX_CAPABILITY_VERSION_1 then
        if dataAddr =? 0 then ([], Ok ())
        else
          match lookupCaps with_id t (Pid hdr) with
          | Ok (p, i, e) => CopyOut fault dataAddr (user_words (mkCapUser (wrap32 e) (wrap32 p) (wrap32 i)))
          | Err err => ([], Err err)
          | Panic => ([], Panic)
          end
      else if (Version hdr =? LINUX_CAPABILITY_VERSION_2) || (Version hdr =? LINUX_CAPABILITY_VERSION_3) then
        if dataAddr =? 0 then ([], Ok ())
        else
          match lookupCaps with_id t (Pid hdr) with
          | Ok (p, i, e) =>
              CopyOut fault dataAddr
                (user_words (mkCapUser (wrap32 e) (wrap32 p) (wrap32 i)) ++
                 user_words (mkCapUser (wrap32 (Z.shiftr e 32)) (wrap32 (Z.shiftr p 32)) (wrap32 (Z.shiftr i 32))))
          | Err err => ([], Err err)
          | Panic => ([], Panic)
          end
      else
        match CopyOut fault hdrAddr [HighestCapabilityVersion; Pid hdr] with
        | (w, Ok _) => (w, if negb (dataAddr =? 0) then Err EINVAL else Ok ())
        | (w, r) => (w, r)
        end
  end.

(** [tid] is the thread ID of the caller in its PID namespace. *)
Definition Capset (t : task_identity) (tid : Z) (fault : Z → option Errno) (hdr_in : result Errno CapUserHeader)
    (data1_in : result Errno CapUserData) (data2_in : result Errno (CapUserData * CapUserData))
    (args : SyscallArguments) : writes * result Errno task_identity :=
  match hdr_in with
  | Err err => ([], Err err)
  | Panic => ([], Panic)
  | Ok hdr =>
      if Version hdr =? LINUX_CAPABILITY_VERSION_1 then
        if negb (Pid hdr =? 0) && negb (Pid hdr =? tid) then ([], Err EPERM)
        else
          ([], data ← data1_in;
               let p := cu_Permitted data .& AllCapabilities in
               let i := cu_Inheritable data .& AllCapabilities in
               let e := cu_Effective data .& AllCapabilities in
               SetCapabilitySets t p i e)
      else if (Version hdr =? LINUX_CAPABILITY_VERSION_2) || (Version hdr =? LINUX_CAPABILITY_VERSION_3) then
        if negb (Pid hdr =? 0) && negb (Pid hdr =? tid) then ([], Err EPERM)
        else
          ([], '(d0, d1) ← data2_in;
               let p := (cu_Permitted d0 .| wrap64 (Z.shiftl (cu_Permitted d1) 32)) .& AllCapabilities in
               let i := (cu_Inheritable d0 .| wrap64 (Z.shiftl (cu_Inheritable d1) 32)) .& AllCapabilities in
               let e := (cu_Effective d0 .| wrap64 (Z.shiftl (cu_Effective d1) 32)) .& AllCapabilities in
               SetCapabilitySets t p i e)
      else
        match CopyOut fault (arg args 0) [HighestCapabilityVersion; Pid hdr] with
        | (w, Ok _) => (w, Err EINVAL)
        | (w, Err err) => (w, Err err)
        | (w, Panic) => (w, Panic)
        end
  end.

(** ** Options of prctl(2) (sys_prctl.go) *)

Definition sig_IsValid (s : Z) : bool := (s >? 0) && (s <=? SignalMaximum).

Definition set_parentDeathSignal (t : task_identity) (sig : Z) : task_identity :=
  mkIdentity (creds t) (noNewPrivs t) (dumpability t) sig.

Definition set_dumpability (t : task_identity) (d : Dumpability) : task_identity :=
  mkIdentity (creds t) (noNewPrivs t) d (parentDeathSignal t).

Definition dumpability_value (d : Dumpability) : Z :=
  match d with
  | NotDumpable => SUID_DUMP_DISABLE
  | UserDumpable => SUID_DUMP_USER
  | RootDumpable => SUID_DUMP_ROOT
  end.

(** Are the arguments from [i] on zero? *)
Definition zero_from (args : SyscallArguments) (i : nat) : bool :=
  forallb (λ j, arg_Int (arg args j) =? 0) (seq i (5 - i)).

(** The cases of [PR_CAP_AMBIENT]: the identity after the call and the value returned. *)
Definition prctl_ambient (t : task_identity) (args : SyscallArguments) : result Errno (task_identity * Z) :=
  let suboption := arg_Int (arg args 1) in
  let cp := arg_cap args 2 in
  if suboption =? PR_CAP_AMBIENT_IS_SET then
    if negb (zero_from args 3) then Err EINVAL
    else if negb (cap_Ok cp) then Err EINVAL
    else exist ← AmbientCapability t cp; Ok (t, Z.b2z exist)
  else if suboption =? PR_CAP_AMBIENT_RAISE then
    if negb (zero_from args 3) then Err EINVAL
    else if negb (cap_Ok cp) then Err EINVAL
    else t ← RaiseAmbientCapability t cp; Ok (t, 0)
  else if suboption =? PR_CAP_AMBIENT_LOWER then
    if negb (zero_from args 3) then Err EINVAL
    else if negb (cap_Ok cp) then Err EINVAL
    else t ← LowerAmbientCapability t cp; Ok (t, 0)
  else if suboption =? PR_CAP_AMBIENT_CLEAR_ALL then
    if negb (zero_from args 2) then Err EINVAL
    else Ok (ClearAmbientCapabilities t, 0)
  else Err EINVAL.

(** [None] for the options that have nothing to do with privileges; [PR_GET_PDEATHSIG] writes to
    memory and is [prctl_get_pdeathsig]. *)
Definition Prctl (t : task_identity) (args : SyscallArguments) : option (result Errno (task_identity * Z)) :=
  let opt := arg_Int (arg args 0) in
  if opt =? PR_SET_PDEATHSIG then
    let sig := arg_Int (arg args 1) in
    Some (if negb (sig =? 0) && negb (sig_IsValid sig) then Err EINVAL else Ok (set_parentDeathSignal t sig, 0))
  else if opt =? PR_GET_DUMPABLE then Some (Ok (t, dumpability_value (dumpability t)))
  else if opt =? PR_SET_DUMPABLE then
    let v := arg_Int (arg args 1) in
    Some (if v =? SUID_DUMP_DISABLE then Ok (set_dumpability t NotDumpable, 0)
          else if v =? SUID_DUMP_USER then Ok (set_dumpability t UserDumpable, 0)
          else Err EINVAL)
  else if opt =? PR_GET_KEEPCAPS then Some (Ok (t, if KeepCaps (creds t) then 1 else 0))
  else if opt =? PR_SET_KEEPCAPS then
    let val := arg_Int (arg args 1) in
    Some (if val =? 0 then Ok (SetKeepCaps t false, 0)
          else if val =? 1 then Ok (SetKeepCaps t true, 0)
          else Err EINVAL)
  else if opt =? PR_GET_SECUREBITS then Some (Ok (t, if KeepCaps (creds t) then SECBIT_KEEP_CAPS else 0))
  else if opt =? PR_SET_SECUREBITS then
    Some (t ← SetSecurebits t (wrap64 (arg args 1)); Ok (t, 0))
  else if opt =? PR_SET_NO_NEW_PRIVS then
    Some (if negb (arg_Int (arg args 1) =? 1) || negb (zero_from args 2) then Err EINVAL
          else Ok (id_SetNoNewPrivs t, 0))
  else if opt =? PR_GET_NO_NEW_PRIVS then
    Some (if negb (zero_from args 1) then Err EINVAL else Ok (t, if noNewPrivs t then 1 else 0))
  else if opt =? PR_CAPBSET_READ then
    let cp := arg_cap args 1 in
    Some (if negb (cap_Ok cp) then Err EINVAL
          else Ok (t, if negb (CapabilitySetOf cp .& BoundingCaps (creds t) =? 0) then 1 else 0))
  else if opt =? PR_CAPBSET_DROP then
    let cp := arg_cap args 1 in
    Some (if negb (cap_Ok cp) then Err EINVAL else t ← DropBoundingCapability t cp; Ok (t, 0))
  else if opt =? PR_CAP_AMBIENT then Some (prctl_ambient t args)
  else None.

Definition prctl_get_pdeathsig (t : task_identity) (fault : Z → option Errno) (args : SyscallArguments)
    : writes * result Errno unit :=
  CopyOut fault (arg args 1) [parentDeathSignal t].
End Syscalls.
