(* ===== verification/NsFacts.v ===== *)
(** * Translation of IDs between user namespaces

    The two maps of a namespace are inverse to each other and lead into what its parent maps
    ([maps_ok]); this holds for all namespaces whatever is written to them ([world_ok]).  So
    translations to and from the root namespace are inverse to each other, and writing a map
    has the effect it documents or none. *)

From stdpp Require Import base numbers decidable gmap list.
From S2P Require Import IdMapSet Capability UserNs Credentials Prelude.

Local Open Scope Z_scope.

Lemma UserNamespace_parent_ind (P : UserNamespace → Prop) :
  (∀ i o b, P (mkUserNamespace i None o b)) →
  (∀ i p o b, P p → P (mkUserNamespace i (Some p) o b)) → ∀ ns, P ns.
Proof. intros Hr Hc. fix IH 1. intros [i [p|] o b]; [apply Hc, IH|apply Hr]. Qed.

Lemma length_filter_all {A} (P : A → Prop) `{∀ x, Decision (P x)} l :
  length (filter P l) = length l ↔ Forall P l.
Proof.
  split.
  - intros E. apply Forall_forall. intros x Hx. destruct (decide (P x)) as [|Hn]; [done|].
    pose proof (length_filter_lt P l x Hx Hn). lia.
  - induction 1 as [|x l Hx _ IH]; [done|]. rewrite filter_cons_True by done. simpl. by rewrite IH.
Qed.

(** The namespaces that were created, by number. *)
Abbreviation known := (gmap nat UserNamespace).

Section Facts.
Context `{IML : IdMapSetLaws}.

(** ** Maps *)

Lemma FindSegment_bounds m key s :
  set_ok m → FindSegment m key = Some s → 0 <= key < MaxKey ∧ 0 <= seg_start s <= key ∧ key < seg_end s.
Proof.
  intros Hm [Hin Hk]%FindSegment_spec; [|done]. apply set_ok_segments in Hm as [Hs _].
  rewrite Forall_forall in Hs. specialize (Hs s Hin). apply contains_spec in Hk. lia.
Qed.

Lemma image_bounds m key v : set_ok m → image m key = Some v → 0 <= key < MaxKey ∧ in_u32 v.
Proof.
  intros Hm. unfold image. destruct (FindSegment m key) as [s|] eqn:E; [|done]. intros [= <-].
  split; [by eapply FindSegment_bounds|apply wrap32_range].
Qed.

Lemma image_is_Some m key : is_Some (image m key) ↔ is_Some (FindSegment m key).
Proof. unfold image. destruct (FindSegment m key); simpl; [split; by eexists|done]. Qed.

Lemma mapID_image m id : set_ok m → mapID m id = default NoID (image m id).
Proof.
  intros Hm. unfold mapID. destruct (Z.eqb_spec id NoID) as [->|Hne].
  - destruct (image m NoID) as [v|] eqn:E; [|done]. apply image_bounds in E as [? _]; [|done].
    unfold MaxKey, NoID in *. lia.
  - unfold image. destruct (FindSegment m id) as [s|] eqn:E; [|done]. simpl. unfold seg_image.
    apply FindSegment_bounds in E; [|done]. rewrite (wrap32_small (id - seg_start s)); [done|].
    unfold in_u32, MaxKey in *. lia.
Qed.

(** The maps of a namespace from and to its parent, whose own map is [parent_to]. *)
Record maps_ok (parent_to from to : idMapSet) : Prop := mkMapsOk {
  mo_from : set_ok from;
  mo_to : set_ok to;
  mo_inverse id pid : image to id = Some pid ↔ image from pid = Some id;
  mo_closed id pid : image to id = Some pid → is_Some (image parent_to pid)
}.

Lemma image_empty key : image empty_set key = None.
Proof.
  unfold image. destruct (FindSegment empty_set key) as [s|] eqn:E; [|done].
  apply FindSegment_spec in E as [Hin _]; [|apply empty_set_ok]. rewrite segments_empty in Hin. by apply elem_of_nil in Hin.
Qed.

Lemma maps_ok_empty parent_to : maps_ok parent_to empty_set empty_set.
Proof.
  split; [apply empty_set_ok..| |].
  - intros id pid. by rewrite !image_empty.
  - intros id pid. by rewrite image_empty.
Qed.

Lemma IsEmpty_image m : set_ok m → IsEmpty m = true ↔ ∀ key, image m key = None.
Proof.
  intros Hm. rewrite IsEmpty_spec by done. split.
  - intros E key. unfold image. destruct (FindSegment m key) as [s|] eqn:F; [|done].
    apply FindSegment_spec in F as [Hin _]; [|done]. rewrite E in Hin. by apply elem_of_nil in Hin.
  - intros Hn. destruct (segments m) as [|s l] eqn:E; [done|]. exfalso.
    assert (Hf : FindSegment m (seg_start s) = Some s).
    { apply FindSegment_spec; [done|]. rewrite E. split; [left|]. apply contains_spec.
      apply set_ok_segments in Hm as [Hs _]. rewrite E, Forall_cons in Hs. lia. }
    specialize (Hn (seg_start s)). unfold image in Hn. by rewrite Hf in Hn.
Qed.

Lemma allIDsMapped_spec m r_start r_end :
  set_ok m → 0 <= r_start < r_end → r_end <= MaxKey →
  allIDsMapped m r_start r_end = true ↔ ∀ key, r_start <= key < r_end → is_Some (image m key).
Proof.
  intros Hm Hr He. unfold allIDsMapped. rewrite SpanRange_spec, Z.eqb_eq by (done || lia).
  rewrite wrap32_small by (unfold in_u32, MaxKey in *; lia).
  transitivity (length (covered m r_start r_end) = length (seqZ r_start (r_end - r_start))).
  { rewrite length_seqZ. lia. }
  unfold covered. rewrite length_filter_all, Forall_forall. setoid_rewrite elem_of_seqZ. split.
  - intros Hall key Hk. apply image_is_Some, Hall. lia.
  - intros Hall key Hk. apply image_is_Some, Hall. lia.
Qed.

(** An entry that is neither empty nor wraps around. *)
Definition entry_ok (e : IDMapEntry) : Prop :=
  in_u32 (FirstID e) ∧ in_u32 (FirstParentID e) ∧ in_u32 (Length e) ∧ 0 < Length e ∧
  FirstID e + Length e <= NoID ∧ FirstParentID e + Length e <= NoID.

Definition entry_range (e : IDMapEntry) : Prop :=
  in_u32 (FirstID e) ∧ in_u32 (FirstParentID e) ∧ in_u32 (Length e).

Lemma entry_last x n : in_u32 x → in_u32 n → x < wrap32 (x + n) → 0 < n ∧ x + n <= NoID ∧ wrap32 (x + n) = x + n.
Proof.
  unfold in_u32, wrap32, NoID. intros Hx Hn Hlt.
  assert (Hlt' : x + n < 2 ^ 32).
  { destruct (Z.lt_ge_cases (x + n) (2 ^ 32)); [done|].
    assert ((x + n) mod 2 ^ 32 = x + n - 2 ^ 32); [|lia].
    symmetry. apply Z.mod_unique with 1; lia. }
  rewrite Z.mod_small in * by lia. lia.
Qed.

(** The ID of the parent that [id] is mapped to by some entry. *)
Definition entry_image (entries : list IDMapEntry) (id : Z) : option Z :=
  e ← snd <$> list_find (λ e, FirstID e <= id < FirstID e + Length e) entries;
  Some (FirstParentID e + (id - FirstID e)).

Lemma entry_image_cons e entries id :
  entry_image (e :: entries) id =
  if decide (FirstID e <= id < FirstID e + Length e) then Some (FirstParentID e + (id - FirstID e))
  else entry_image entries id.
Proof.
  unfold entry_image. simpl. case_decide; [done|]. by destruct (list_find _ entries) as [[]|].
Qed.

Lemma TryInsertRange_image m r_start r_end v m' :
  set_ok m → 0 <= r_start < r_end → r_end <= NoID → in_u32 v → v + (r_end - r_start) <= NoID →
  TryInsertRange m r_start r_end v = Some m' →
  set_ok m' ∧ (∀ key, r_start <= key < r_end → image m key = None) ∧
  ∀ key, image m' key = if decide (r_start <= key < r_end) then Some (v + (key - r_start)) else image m key.
Proof.
  intros Hm Hr He Hv Hve E. destruct (TryInsertRange_Some m r_start r_end v m') as [Hm' Hi]; try done.
  split; [done|]. split.
  - intros key Hk. destruct (image m key) as [w|] eqn:Ei; [|done]. exfalso.
    assert (TryInsertRange m r_start r_end v = None); [|congruence].
    apply TryInsertRange_None; try done. exists key. split; [done|]. apply image_is_Some. by eexists.
  - intros key. rewrite Hi. case_decide as Hk.
    + assert ((r_start <=? key) && (key <? r_end) = true) as -> by (apply andb_true_iff; rewrite Z.leb_le, Z.ltb_lt; lia).
      f_equal. apply wrap32_small. unfold in_u32, NoID in *. lia.
    + assert ((r_start <=? key) && (key <? r_end) = false) as ->; [|done].
      apply not_true_iff_false. rewrite andb_true_iff, Z.leb_le, Z.ltb_lt. lia.
Qed.

(** What the loop over the entries leaves. *)
Lemma try_set_map_result parent_to entries from to :
  set_ok parent_to → Forall entry_range entries → maps_ok parent_to from to →
  match try_set_map parent_to entries from to with
  | (from', to', None) =>
      maps_ok parent_to from' to' ∧ Forall entry_ok entries ∧
      (∀ id, image to' id = match image to id with Some pid => Some pid | None => entry_image entries id end)
  | (_, _, Some _) => True
  end.
Proof.
  intros Hp He. revert from to. induction He as [|e entries (Hf & Hfp & Hlen) He IH]; intros from to Hok; cbn [try_set_map].
  { split; [done|]. split; [done|]. intros id. by destruct (image to id). }
  destruct (Z.leb_spec (wrap32 (FirstID e + Length e)) (FirstID e)) as [|Hl1]; [done|].
  destruct (Z.leb_spec (wrap32 (FirstParentID e + Length e)) (FirstParentID e)) as [|Hl2]; [done|].
  apply entry_last in Hl1 as (Hpos & Hb1 & E1), Hl2 as (_ & Hb2 & E2); try done. rewrite E1, E2.
  destruct (allIDsMapped _ _ _) eqn:Em; [|done]. cbn [negb].
  pose proof Hf as Hf'. pose proof Hfp as Hfp'. unfold in_u32 in Hf', Hfp'.
  rewrite allIDsMapped_spec in Em by (done || lia).
  destruct (TryInsertRange from _ _ _) as [from'|] eqn:Ef; [|done].
  destruct (TryInsertRange to _ _ _) as [to'|] eqn:Et; [|done].
  apply TryInsertRange_image in Ef as (Hf1 & Hf2 & Hf3); [|apply Hok|lia|done|done|lia].
  apply TryInsertRange_image in Et as (Ht1 & Ht2 & Ht3); [|apply Hok|lia|done|done|lia].
  assert (Hok' : maps_ok parent_to from' to').
  { destruct Hok as [_ _ Hinv Hcl]. split; [done|done| |].
    - intros id pid. rewrite Hf3, Ht3. case_decide as Hi; case_decide as Hj.
      + split; intros [= <-]; f_equal; lia.
      + split; [intros [= <-]; lia|]. intros Hp'%Hinv. by rewrite Ht2 in Hp'.
      + split; [|intros [= <-]; lia]. intros Hp'%Hinv. by rewrite Hf2 in Hp'.
      + apply Hinv.
    - intros id pid. rewrite Ht3. case_decide as Hi; [|apply Hcl]. intros [= <-]. apply Em. lia. }
  specialize (IH from' to' Hok'). destruct (try_set_map parent_to entries from' to') as [[from'' to''] [err|]]; [done|].
  destruct IH as (Hok'' & Hall & Himg). split; [done|]. split; [constructor; [|done]; done|].
  intros id. rewrite Himg, Ht3, entry_image_cons. case_decide as Hi; [by rewrite Ht2|done].
Qed.
(** ** All namespaces *)

Lemma state_of_set st ns s ns' :
  state_of (set_state st ns s) ns' = if (ns_id ns =? ns_id ns')%nat then s else state_of st ns'.
Proof.
  unfold state_of, set_state. simpl. destruct (Nat.eqb_spec (ns_id ns) (ns_id ns')) as [->|Hne].
  - by rewrite lookup_insert_eq.
  - by rewrite lookup_insert_ne.
Qed.


Definition knows (K : known) (ns : UserNamespace) : Prop := K !! ns_id ns = Some ns.

(** Namespaces are created and their maps are written, by anyone. *)
Inductive reachable : ns_store → known → Prop :=
  | reach_none : reachable (mkStore 0 ∅) ∅
  | reach_root st K ns st' :
      reachable st K → NewRootUserNamespace st = Some (ns, st') → reachable st' (<[ns_id ns := ns]> K)
  | reach_child st K c ns st' :
      reachable st K → knows K (cred_ns c) → NewChildUserNamespace st c = Ok (ns, st') →
      reachable st' (<[ns_id ns := ns]> K)
  | reach_uid_map st K c ns entries :
      reachable st K → knows K (cred_ns c) → knows K ns → Forall entry_range entries →
      reachable (SetUIDMap st c ns entries).1 K
  | reach_gid_map st K c ns entries :
      reachable st K → knows K (cred_ns c) → knows K ns → Forall entry_range entries →
      reachable (SetGIDMap st c ns entries).1 K
  | reach_setgroups st K c ns allow :
      reachable st K → knows K (cred_ns c) → knows K ns → reachable (SetSetgroupsAllowed st c ns allow).1 K.

(** The map of the root namespace. *)
Definition identity_map (m : idMapSet) : Prop :=
  set_ok m ∧ ∀ id, image m id = if decide (0 <= id < NoID) then Some id else None.

Definition root_state (s : ns_state) : Prop :=
  identity_map (uidMapFromParent s) ∧ identity_map (uidMapToParent s) ∧
  identity_map (gidMapFromParent s) ∧ identity_map (gidMapToParent s).

Definition child_state (sp s : ns_state) : Prop :=
  maps_ok (uidMapToParent sp) (uidMapFromParent s) (uidMapToParent s) ∧
  maps_ok (gidMapToParent sp) (gidMapFromParent s) (gidMapToParent s).

Definition ns_ok (st : ns_store) (K : known) (ns : UserNamespace) : Prop :=
  (ns_id ns < next_ns st)%nat ∧
  match parent ns with
  | None => root_state (state_of st ns)
  | Some p => knows K p ∧ (ns_id p < ns_id ns)%nat ∧ child_state (state_of st p) (state_of st ns)
  end.

Definition world_ok (st : ns_store) (K : known) : Prop :=
  ∀ i ns, K !! i = Some ns → ns_id ns = i ∧ ns_ok st K ns.

Lemma world_knows st K ns : world_ok st K → knows K ns → ns_ok st K ns.
Proof. intros Hw Hk. by destruct (Hw _ _ Hk). Qed.

(** A larger map of the parent keeps the maps of its children in order. *)
Lemma maps_ok_mono parent_to parent_to' from to :
  (∀ id, is_Some (image parent_to id) → is_Some (image parent_to' id)) →
  maps_ok parent_to from to → maps_ok parent_to' from to.
Proof. intros Hm [H1 H2 H3 H4]. split; [done|done|done|]. intros id pid Hi. by eapply Hm, H4. Qed.

Definition grows (s s' : ns_state) : Prop :=
  (∀ id, is_Some (image (uidMapToParent s) id) → is_Some (image (uidMapToParent s') id)) ∧
  (∀ id, is_Some (image (gidMapToParent s) id) → is_Some (image (gidMapToParent s') id)).

Lemma world_set_state st K ns p s' :
  world_ok st K → knows K ns → parent ns = Some p →
  child_state (state_of st p) s' → grows (state_of st ns) s' → world_ok (set_state st ns s') K.
Proof.
  intros Hw Hk Hp Hc [Hg1 Hg2] i ns' E. destruct (Hw i ns' E) as [<- [Hlt Hns']]. split; [done|]. split; [done|].
  destruct (world_knows _ _ _ Hw Hk) as [_ Hns]. rewrite Hp in Hns. destruct Hns as (Hkp & Hltp & _).
  destruct (parent ns') as [p'|] eqn:Ep'.
  - destruct Hns' as (Hkp' & Hltp' & Hc1 & Hc2). split; [done|]. split; [done|]. rewrite !state_of_set.
    destruct (Nat.eqb_spec (ns_id ns) (ns_id ns')) as [Ei|Hne].
    + assert (ns' = ns) as -> by (unfold knows in Hk; rewrite Ei in Hk; congruence).
      assert (p' = p) as -> by congruence. destruct (Nat.eqb_spec (ns_id ns) (ns_id p)); [lia|done].
    + destruct (Nat.eqb_spec (ns_id ns) (ns_id p')) as [Ei|]; [|done].
      assert (p' = ns) as -> by (unfold knows in *; rewrite Ei in Hk; congruence).
      split; [by eapply maps_ok_mono|by eapply maps_ok_mono].
  - rewrite state_of_set. destruct (Nat.eqb_spec (ns_id ns) (ns_id ns')) as [Ei|Hne]; [|done].
    assert (ns' = ns) as -> by (unfold knows in Hk; rewrite Ei in Hk; congruence). congruence.
Qed.

(** A new namespace changes no other. *)
Lemma world_new st K ns s :
  world_ok st K → ns_id ns = next_ns st →
  match parent ns with
  | None => root_state s
  | Some p => knows K p ∧ child_state (state_of st p) s
  end →
  world_ok (set_state (mkStore (S (next_ns st)) (states st)) ns s) (<[ns_id ns := ns]> K).
Proof.
  intros Hw Hid Hs i ns' E.
  assert (Hold : ∀ ns', knows K ns' → (ns_id ns' < ns_id ns)%nat).
  { intros ns0 [Hlt _]%(world_knows _ _ _ Hw). lia. }
  assert (Hst : ∀ ns', knows K ns' →
    state_of (set_state (mkStore (S (next_ns st)) (states st)) ns s) ns' = state_of st ns').
  { intros ns0 Hk0. rewrite state_of_set. specialize (Hold ns0 Hk0).
    destruct (Nat.eqb_spec (ns_id ns) (ns_id ns0)); [lia|done]. }
  assert (Hkn : ∀ ns', knows K ns' → knows (<[ns_id ns := ns]> K) ns').
  { intros ns0 Hk0. specialize (Hold ns0 Hk0). unfold knows. rewrite lookup_insert_ne by lia. done. }
  destruct (decide (ns_id ns = i)) as [Ei|Hne].
  - subst i. rewrite lookup_insert_eq in E. injection E as <-. split; [done|]. split; [simpl; lia|].
    rewrite state_of_set, Nat.eqb_refl. destruct (parent ns) as [p|]; [|done].
    destruct Hs as [Hkp Hc]. split; [by apply Hkn|]. split; [by apply Hold|]. by rewrite Hst.
  - rewrite lookup_insert_ne in E by done. destruct (Hw i ns' E) as [<- [Hlt Hns']]. split; [done|].
    split; [simpl; lia|]. rewrite (Hst ns') by done. destruct (parent ns') as [p|]; [|done].
    destruct Hns' as (Hkp & Hltp & Hc). split; [by apply Hkn|]. split; [done|]. by rewrite Hst.
Qed.
(** ** Writing maps *)

(** Who may write which map: [kid] is the ID of the writer and [to_root] the translation of the
    parent. *)
Record may_write (c : Credentials) (cp : Z) (ns p : UserNamespace) (to_root : Z → Z) (kid : Z)
    (entries : list IDMapEntry) : Prop := mkMayWrite {
  mw_cap : HasCapabilityIn c cp ns = true;
  mw_near : same_ns (cred_ns c) ns = true ∨ same_ns (cred_ns c) p = true;
  mw_own : HasCapabilityIn c cp p = true ∨
    (single_own_id to_root entries kid = true ∧ EffectiveKUID c = owner ns)
}.

Lemma maps_ok_no_image parent_to from to :
  maps_ok parent_to from to → IsEmpty from = true → ∀ id, image to id = None.
Proof.
  intros [Hf Ht Hinv _] He id. destruct (image to id) as [pid|] eqn:E; [|done].
  apply Hinv in E. rewrite IsEmpty_image in He by done. by rewrite He in E.
Qed.

Lemma identity_not_empty m : identity_map m → IsEmpty m = false.
Proof.
  intros [Hm Hi]. apply not_true_iff_false. rewrite IsEmpty_image by done. intros Hn.
  specialize (Hn 0). rewrite Hi in Hn. by rewrite decide_True in Hn.
Qed.

Lemma parent_to_ok st K p sel :
  sel = uidMapToParent ∨ sel = gidMapToParent → world_ok st K → knows K p → set_ok (sel (state_of st p)).
Proof.
  intros Hsel Hw [_ Hp]%(world_knows _ _ _ Hw). destruct (parent p).
  - destruct Hp as (_ & _ & [? ? _ _] & [? ? _ _]). by destruct Hsel as [->| ->].
  - destruct Hp as (_ & [? _] & _ & [? _]). by destruct Hsel as [->| ->].
Qed.

(** What [SetUIDMap] does: a result that maps as the entries say, or a store without change of
    any map. *)
Definition uid_map_written (st st' : ns_store) (c : Credentials) (ns : UserNamespace) (entries : list IDMapEntry) : Prop :=
  ∃ p from to,
    parent ns = Some p ∧ may_write c CAP_SETUID ns p (MapToKUID st p) (EffectiveKUID c) entries ∧
    st' = set_state st ns (set_uid_maps (state_of st ns) from to) ∧
    maps_ok (uidMapToParent (state_of st p)) from to ∧ Forall entry_ok entries ∧ entries ≠ [] ∧
    (∀ id, image (uidMapToParent (state_of st ns)) id = None) ∧
    (∀ id, image to id = entry_image entries id).

Definition gid_map_written (st st' : ns_store) (c : Credentials) (ns : UserNamespace) (entries : list IDMapEntry) : Prop :=
  ∃ p from to,
    parent ns = Some p ∧ may_write c CAP_SETGID ns p (MapToKGID st p) (EffectiveKGID c) entries ∧
    st' = set_state st ns (set_gid_maps (state_of st ns) from to) ∧
    maps_ok (gidMapToParent (state_of st p)) from to ∧ Forall entry_ok entries ∧ entries ≠ [] ∧
    (∀ id, image (gidMapToParent (state_of st ns)) id = None) ∧
    (∀ id, image to id = entry_image entries id).

Definition uid_map_reset (st st' : ns_store) (ns : UserNamespace) : Prop :=
  st' = st ∨
  (∃ p, parent ns = Some p ∧ st' = set_state st ns (set_uid_maps (state_of st ns) empty_set empty_set) ∧
     (∀ id, image (uidMapFromParent (state_of st ns)) id = None) ∧
     (∀ id, image (uidMapToParent (state_of st ns)) id = None)).

Definition gid_map_reset (st st' : ns_store) (ns : UserNamespace) : Prop :=
  st' = st ∨
  (∃ p, parent ns = Some p ∧ st' = set_state st ns (set_gid_maps (state_of st ns) empty_set empty_set) ∧
     (∀ id, image (gidMapFromParent (state_of st ns)) id = None) ∧
     (∀ id, image (gidMapToParent (state_of st ns)) id = None)).

Lemma SetUIDMap_result st K c ns entries :
  world_ok st K → knows K ns → Forall entry_range entries →
  match SetUIDMap st c ns entries with
  | (st', Ok _) => uid_map_written st st' c ns entries
  | (st', Err _) => uid_map_reset st st' ns
  | (_, Panic) => False
  end.
Proof.
  intros Hw Hk He. destruct (world_knows _ _ _ Hw Hk) as [_ Hns]. unfold SetUIDMap.
  destruct (IsEmpty _) eqn:Eempty; cbn [negb]; [|by left].
  destruct (Nat.eqb_spec (length entries) 0) as [|Hlen]; [by left|].
  destruct (HasCapabilityIn c CAP_SETUID ns) eqn:Ecap; cbn [negb]; [|by left].
  destruct (parent ns) as [p|] eqn:Ep.
  2: { destruct Hns as [Hid _]. by rewrite identity_not_empty in Eempty. }
  destruct Hns as (Hkp & _ & Hok & _).
  destruct (negb (same_ns (cred_ns c) ns) && _) eqn:Enear; [by left|].
  destruct (negb (HasCapabilityIn c CAP_SETUID p) && _) eqn:Eown; [by left|].
  destruct (negb (verifyRootUserMapping _ _ _ _)); [by left|].
  unfold trySetUIDMap.
  pose proof (try_set_map_result (uidMapToParent (state_of st p)) entries _ _
    (parent_to_ok st K p _ (or_introl eq_refl) Hw Hkp) He Hok) as Ht.
  destruct (try_set_map _ _ _ _) as [[from to] [err|]].
  - right. exists p. split; [done|]. split; [done|]. split.
    + rewrite IsEmpty_image in Eempty; [done|apply Hok].
    + by eapply maps_ok_no_image.
  - destruct Ht as (Hok' & Hent & Himg). exists p, from, to.
    pose proof (maps_ok_no_image _ _ _ Hok Eempty) as Hnone.
    split_and!; try done.
    + split; [done| |].
      * apply andb_false_iff in Enear as [?%negb_false_iff|?%negb_false_iff]; auto.
      * apply andb_false_iff in Eown as [?%negb_false_iff|Eown]; [by left|right].
        apply orb_false_iff in Eown as [E1%negb_false_iff E2%negb_false_iff]. by apply Z.eqb_eq in E2.
    + by intros ->.
    + intros id. by rewrite Himg, Hnone.
Qed.

Lemma SetGIDMap_result st K c ns entries :
  world_ok st K → knows K ns → Forall entry_range entries →
  match SetGIDMap st c ns entries with
  | (st', Ok _) => gid_map_written st st' c ns entries
  | (st', Err _) => gid_map_reset st st' ns
  | (_, Panic) => False
  end.
Proof.
  intros Hw Hk He. destruct (world_knows _ _ _ Hw Hk) as [_ Hns]. unfold SetGIDMap.
  destruct (IsEmpty _) eqn:Eempty; cbn [negb]; [|by left].
  destruct (Nat.eqb_spec (length entries) 0) as [|Hlen]; [by left|].
  destruct (HasCapabilityIn c CAP_SETGID ns) eqn:Ecap; cbn [negb]; [|by left].
  destruct (parent ns) as [p|] eqn:Ep.
  2: { destruct Hns as (_ & _ & Hid & _). by rewrite identity_not_empty in Eempty. }
  destruct Hns as (Hkp & _ & _ & Hok).
  destruct (negb (same_ns (cred_ns c) ns) && _) eqn:Enear; [by left|].
  destruct (negb (HasCapabilityIn c CAP_SETGID p) && _) eqn:Eown; [by left|].
  unfold trySetGIDMap.
  pose proof (try_set_map_result (gidMapToParent (state_of st p)) entries _ _
    (parent_to_ok st K p _ (or_intror eq_refl) Hw Hkp) He Hok) as Ht.
  destruct (try_set_map _ _ _ _) as [[from to] [err|]].
  - right. exists p. split; [done|]. split; [done|]. split.
    + rewrite IsEmpty_image in Eempty; [done|apply Hok].
    + by eapply maps_ok_no_image.
  - destruct Ht as (Hok' & Hent & Himg). exists p, from, to.
    pose proof (maps_ok_no_image _ _ _ Hok Eempty) as Hnone.
    split_and!; try done.
    + split; [done| |].
      * apply andb_false_iff in Enear as [?%negb_false_iff|?%negb_false_iff]; auto.
      * apply andb_false_iff in Eown as [?%negb_false_iff|Eown]; [by left|right].
        apply orb_false_iff in Eown as [[E1%negb_false_iff E2%negb_false_iff]%orb_false_iff _]. by apply Z.eqb_eq in E2.
    + by intros ->.
    + intros id. by rewrite Himg, Hnone.
Qed.
(** ** Reachable stores *)

Lemma insert_identity m : TryInsertRange empty_set 0 NoID 0 = Some m → identity_map m.
Proof.
  intros E. apply TryInsertRange_image in E as (Hm & _ & Hi); [|apply empty_set_ok|done..].
  split; [done|]. intros id. rewrite Hi, image_empty. case_decide; [|done]. f_equal. lia.
Qed.

Lemma child_state_uid sp s from to :
  child_state sp s → maps_ok (uidMapToParent sp) from to → child_state sp (set_uid_maps s from to).
Proof. by intros [_ ?] ?. Qed.

Lemma child_state_gid sp s from to :
  child_state sp s → maps_ok (gidMapToParent sp) from to → child_state sp (set_gid_maps s from to).
Proof. by intros [? _] ?. Qed.

Lemma uid_map_reset_world st st' K ns : world_ok st K → knows K ns → uid_map_reset st st' ns → world_ok st' K.
Proof.
  intros Hw Hk [->|(p & Hp & -> & Hf & Ht)]; [done|].
  destruct (world_knows _ _ _ Hw Hk) as [_ Hns]. rewrite Hp in Hns. destruct Hns as (_ & _ & Hc).
  eapply world_set_state; [done|done|done|apply child_state_uid; [done|apply maps_ok_empty]|].
  split; [|done]. intros id. rewrite Ht. by intros [].
Qed.

Lemma gid_map_reset_world st st' K ns : world_ok st K → knows K ns → gid_map_reset st st' ns → world_ok st' K.
Proof.
  intros Hw Hk [->|(p & Hp & -> & Hf & Ht)]; [done|].
  destruct (world_knows _ _ _ Hw Hk) as [_ Hns]. rewrite Hp in Hns. destruct Hns as (_ & _ & Hc).
  eapply world_set_state; [done|done|done|apply child_state_gid; [done|apply maps_ok_empty]|].
  split; [done|]. intros id. rewrite Ht. by intros [].
Qed.

Lemma uid_map_written_world st st' K c ns entries :
  world_ok st K → knows K ns → uid_map_written st st' c ns entries → world_ok st' K.
Proof.
  intros Hw Hk (p & from & to & Hp & _ & -> & Hok & _ & _ & Hnone & _).
  destruct (world_knows _ _ _ Hw Hk) as [_ Hns]. rewrite Hp in Hns. destruct Hns as (_ & _ & Hc).
  eapply world_set_state; [done|done|done|by apply child_state_uid|].
  split; [|done]. intros id. rewrite Hnone. by intros [].
Qed.

Lemma gid_map_written_world st st' K c ns entries :
  world_ok st K → knows K ns → gid_map_written st st' c ns entries → world_ok st' K.
Proof.
  intros Hw Hk (p & from & to & Hp & _ & -> & Hok & _ & _ & Hnone & _).
  destruct (world_knows _ _ _ Hw Hk) as [_ Hns]. rewrite Hp in Hns. destruct Hns as (_ & _ & Hc).
  eapply world_set_state; [done|done|done|by apply child_state_gid|].
  split; [done|]. intros id. rewrite Hnone. by intros [].
Qed.

(** A change of the flag alone. *)
Lemma set_setgroups_world st K ns b :
  world_ok st K → knows K ns → world_ok (set_state st ns (set_setgroups (state_of st ns) b)) K.
Proof.
  intros Hw Hk. destruct (world_knows _ _ _ Hw Hk) as [Hlt Hns]. destruct (parent ns) as [p|] eqn:Hp.
  - destruct Hns as (_ & _ & Hc). eapply world_set_state; [done|done|done|exact Hc|]. by split.
  - intros i ns' E. destruct (Hw i ns' E) as [<- [Hlt' Hns']]. split; [done|]. split; [done|].
    assert (Hsame : ∀ ns', state_of (set_state st ns (set_setgroups (state_of st ns) b)) ns' =
      if (ns_id ns =? ns_id ns')%nat then set_setgroups (state_of st ns') b else state_of st ns').
    { intros ns0. rewrite state_of_set. destruct (Nat.eqb_spec (ns_id ns) (ns_id ns0)) as [E0|]; [|done].
      unfold state_of. by rewrite E0. }
    destruct (parent ns') as [p'|].
    + destruct Hns' as (Hkp & Hltp & Hc). split; [done|]. split; [done|]. rewrite !Hsame. by do 2 case_if.
    + rewrite Hsame. by case_if.
Qed.

Lemma reachable_world st K : reachable st K → world_ok st K.
Proof.
  induction 1 as [|st K ns st' _ IH E|st K c ns st' _ IH Hc E|st K c ns entries _ IH _ Hk He|
                  st K c ns entries _ IH _ Hk He|st K c ns allow _ IH _ Hk].
  - intros i ns E. by rewrite lookup_empty in E.
  - unfold NewRootUserNamespace, InsertRange in E.
    destruct (TryInsertRange _ _ _ _) as [m|] eqn:Em; [|done]. injection E as <- <-.
    apply (world_new st K (mkUserNamespace (next_ns st) None 0 false)); [done|done|]. simpl.
    apply insert_identity in Em. done.
  - unfold NewChildUserNamespace in E. do 3 (case_if_in E; [done|]). injection E as <- <-.
    apply (world_new st K (mkUserNamespace _ _ _ _)); [done|done|]. simpl. split; [done|].
    split; apply maps_ok_empty.
  - pose proof (SetUIDMap_result st K c ns entries IH Hk He) as Hr.
    destruct (SetUIDMap st c ns entries) as [st' [u|err|]]; simpl; [| |done].
    + by eapply uid_map_written_world.
    + by eapply uid_map_reset_world.
  - pose proof (SetGIDMap_result st K c ns entries IH Hk He) as Hr.
    destruct (SetGIDMap st c ns entries) as [st' [u|err|]]; simpl; [| |done].
    + by eapply gid_map_written_world.
    + by eapply gid_map_reset_world.
  - unfold SetSetgroupsAllowed. destruct (negb _); [done|]. destruct allow; [by destruct (negb _)|].
    destruct (negb _); [done|]. by apply set_setgroups_world.
Qed.

(** ** Translations *)

Inductive id_kind : Type := Users | Groups.

Definition from_of (k : id_kind) : ns_state → idMapSet :=
  match k with Users => uidMapFromParent | Groups => gidMapFromParent end.

Definition to_of (k : id_kind) : ns_state → idMapSet :=
  match k with Users => uidMapToParent | Groups => gidMapToParent end.

Lemma child_maps_ok k sp s : child_state sp s → maps_ok (to_of k sp) (from_of k s) (to_of k s).
Proof. intros [? ?]. by destruct k. Qed.

Lemma root_identity k s : root_state s → identity_map (to_of k s).
Proof. intros (? & ? & ? & ?). by destruct k. Qed.

Lemma mapID_NoID m : mapID m NoID = NoID.
Proof. done. Qed.

Lemma map_to_root_NoID sel st ns : map_to_root sel st ns NoID = NoID.
Proof. induction ns as [|i p o b IH] using UserNamespace_parent_ind; [done|]. cbn [map_to_root]. by rewrite mapID_NoID. Qed.

Lemma map_from_root_NoID sel st ns : map_from_root sel st ns NoID = NoID.
Proof.
  induction ns as [|i p o b IH] using UserNamespace_parent_ind; [done|]. cbn [map_from_root]. by rewrite IH.
Qed.

Lemma knows_child st K i p o b :
  world_ok st K → knows K (mkUserNamespace i (Some p) o b) →
  knows K p ∧ child_state (state_of st p) (state_of st (mkUserNamespace i (Some p) o b)).
Proof. intros Hw [_ (? & _ & ?)]%(world_knows _ _ _ Hw). done. Qed.

Lemma map_to_from st K k ns id :
  world_ok st K → knows K ns → map_to_root (to_of k) st ns id ≠ NoID →
  map_from_root (from_of k) st ns (map_to_root (to_of k) st ns id) = id.
Proof.
  intros Hw. revert id. induction ns as [|i p o b IH] using UserNamespace_parent_ind; intros id Hk Hn; [done|].
  cbn [map_to_root map_from_root] in *. destruct (knows_child _ _ _ _ _ _ Hw Hk) as [Hkp Hc].
  apply (child_maps_ok k) in Hc. destruct Hc as [Hf Ht Hinv _].
  rewrite (mapID_image _ id Ht) in *. destruct (image _ id) as [pid|] eqn:E; simpl in *.
  - rewrite IH by done. apply Hinv in E. by rewrite mapID_image, E.
  - by rewrite map_to_root_NoID in Hn.
Qed.

Lemma map_from_to st K k ns kid :
  world_ok st K → knows K ns → map_from_root (from_of k) st ns kid ≠ NoID →
  map_to_root (to_of k) st ns (map_from_root (from_of k) st ns kid) = kid.
Proof.
  intros Hw. revert kid. induction ns as [|i p o b IH] using UserNamespace_parent_ind; intros kid Hk Hn; [done|].
  cbn [map_to_root map_from_root] in *. destruct (knows_child _ _ _ _ _ _ Hw Hk) as [Hkp Hc].
  apply (child_maps_ok k) in Hc. destruct Hc as [Hf Ht Hinv _].
  rewrite (mapID_image _ _ Hf) in *. destruct (image (from_of k _) _) as [id|] eqn:E; [|done]. simpl in *.
  rewrite mapID_image by done. pose proof E as E'. apply Hinv in E'. rewrite E'. simpl. apply IH; [done|].
  apply image_bounds in E as [? _]; [|done]. unfold MaxKey, NoID in *. lia.
Qed.

(** IDs that a namespace maps are mapped all the way to the root. *)
Lemma map_to_root_total st K k ns id :
  world_ok st K → knows K ns → is_Some (image (to_of k (state_of st ns)) id) →
  map_to_root (to_of k) st ns id ≠ NoID.
Proof.
  intros Hw. revert id. induction ns as [i o b|i p o b IH] using UserNamespace_parent_ind; intros id Hk Hs.
  - destruct (world_knows _ _ _ Hw Hk) as [_ Hr]. apply (root_identity k) in Hr as [_ Hi].
    simpl. rewrite Hi in Hs. case_decide; [lia|by destruct Hs].
  - destruct (knows_child _ _ _ _ _ _ Hw Hk) as [Hkp Hc]. apply (child_maps_ok k) in Hc as [_ Ht _ Hcl].
    cbn [map_to_root]. rewrite mapID_image by done. destruct Hs as [pid E]. rewrite E. simpl. apply IH; [done|].
    by eapply Hcl.
Qed.

(** ** Ranges *)

Lemma mapID_range m id : in_u32 (mapID m id).
Proof. unfold mapID. case_if; [done|]. destruct (FindSegment m id); [apply wrap32_range|done]. Qed.

Lemma map_to_root_range sel st ns id : in_u32 id → in_u32 (map_to_root sel st ns id).
Proof.
  revert id. induction ns as [|i p o b IH] using UserNamespace_parent_ind; intros id Hi; [done|]. apply IH, mapID_range.
Qed.

Lemma map_from_root_range sel st ns id : in_u32 id → in_u32 (map_from_root sel st ns id).
Proof. induction ns using UserNamespace_parent_ind; intros Hi; [done|]. apply mapID_range. Qed.
End Facts.
