(* ===== verification/NsProps.v ===== *)
(** * Properties of user namespaces

    The translation of IDs is a bijection on what is mapped, and writing a map is all or
    nothing, once. *)

From stdpp Require Import base numbers decidable gmap list.
From S2P Require Import IdMapBtree IdMapSet Capability UserNs Credentials NsFacts Prelude.

Local Open Scope Z_scope.

Section Props.
Context `{IML : IdMapSetLaws}.

(** ** Stores with the same maps *)

Lemma map_to_root_ext sel st st' ns id :
  (∀ ns' id, mapID (sel (state_of st' ns')) id = mapID (sel (state_of st ns')) id) →
  map_to_root sel st' ns id = map_to_root sel st ns id.
Proof.
  intros Heq. revert id. induction ns as [|i p o b IH] using UserNamespace_parent_ind; intros id; [done|].
  cbn [map_to_root]. by rewrite IH, Heq.
Qed.

Lemma map_from_root_ext sel st st' ns id :
  (∀ ns' id, mapID (sel (state_of st' ns')) id = mapID (sel (state_of st ns')) id) →
  map_from_root sel st' ns id = map_from_root sel st ns id.
Proof.
  intros Heq. induction ns as [|i p o b IH] using UserNamespace_parent_ind; [done|].
  cbn [map_from_root]. by rewrite IH, Heq.
Qed.

(** A later namespace has no part in a translation. *)
Lemma map_to_root_older st K sel ns s p id :
  world_ok st K → knows K p → (ns_id p < ns_id ns)%nat →
  map_to_root sel (set_state st ns s) p id = map_to_root sel st p id.
Proof.
  intros Hw. revert id. induction p as [|i p o b IH] using UserNamespace_parent_ind; intros id Hk Hlt; [done|].
  cbn [map_to_root]. rewrite state_of_set. destruct (Nat.eqb_spec (ns_id ns) (ns_id (mkUserNamespace i (Some p) o b))); [lia|].
  destruct (world_knows _ _ _ Hw Hk) as [_ (Hkp & Hltp & _)]. simpl in *. apply IH; [done|lia].
Qed.

Lemma uid_map_reset_same st K st' ns ns' id :
  world_ok st K → knows K ns → uid_map_reset st st' ns →
  MapToKUID st' ns' id = MapToKUID st ns' id ∧ MapFromKUID st' ns' id = MapFromKUID st ns' id.
Proof.
  intros Hw Hk [->|(p & Hp & -> & Hf & Ht)]; [done|].
  destruct (world_knows _ _ _ Hw Hk) as [_ Hns]. rewrite Hp in Hns. destruct Hns as (_ & _ & [Hof Hot _ _] & _).
  split; [apply map_to_root_ext|apply map_from_root_ext]; intros ns0 id0; rewrite state_of_set;
    (destruct (Nat.eqb_spec (ns_id ns) (ns_id ns0)) as [E|]; [|done]);
    replace (state_of st ns0) with (state_of st ns) by (unfold state_of; by rewrite E); simpl.
  - by rewrite !mapID_image, image_empty, Ht by (done || apply empty_set_ok).
  - by rewrite !mapID_image, image_empty, Hf by (done || apply empty_set_ok).
Qed.

Lemma uid_map_written_maps st K st' c ns p entries :
  world_ok st K → knows K ns → parent ns = Some p → uid_map_written st st' c ns entries →
  (∀ id, MapToKUID st' p id = MapToKUID st p id) ∧
  (∀ uid, MapToKUID st' ns uid = match entry_image entries uid with Some pid => MapToKUID st p pid | None => NoID end) ∧
  IsEmpty (uidMapFromParent (state_of st' ns)) = false.
Proof.
  intros Hw Hk Hp (p' & from & to & Hp' & _ & -> & [Hf Ht Hinv _] & He & Hne & _ & Himg).
  assert (p' = p) as -> by congruence. clear Hp'.
  destruct (world_knows _ _ _ Hw Hk) as [_ Hns]. rewrite Hp in Hns. destruct Hns as (Hkp & Hlt & _).
  assert (Hold : ∀ id, MapToKUID (set_state st ns (set_uid_maps (state_of st ns) from to)) p id = MapToKUID st p id).
  { intros id. by eapply map_to_root_older. }
  split; [done|]. split.
  - intros uid. destruct ns as [i [p0|] o b]; [|done]. injection Hp as ->. unfold MapToKUID in *. cbn [map_to_root].
    rewrite Hold, state_of_set, Nat.eqb_refl. simpl. rewrite mapID_image, Himg by done.
    destruct (entry_image entries uid); [done|]. apply map_to_root_NoID.
  - rewrite state_of_set, Nat.eqb_refl. simpl. destruct entries as [|e entries]; [done|].
    apply not_true_iff_false. rewrite IsEmpty_image by done. intros Hn.
    apply Forall_cons in He as [(_ & _ & _ & Hpos & _) _].
    assert (E : image to (FirstID e) = Some (FirstParentID e + (FirstID e - FirstID e))).
    { rewrite Himg, entry_image_cons. by rewrite decide_True by lia. }
    apply Hinv in E. by rewrite Hn in E.
Qed.
End Props.

(** ** A sample *)

#[local] Existing Instance btree.
#[local] Existing Instance btree_laws.

Definition empty_store : ns_store := mkStore 0 ∅.

Definition root_ns : UserNamespace := mkUserNamespace 0 None 0 false.

Definition root_store : ns_store := snd (default (root_ns, empty_store) (NewRootUserNamespace empty_store)).

Definition root_creds : Credentials := NewRootCredentials root_ns.

Definition child_ns : UserNamespace := mkUserNamespace 1 (Some root_ns) 0 true.

Definition child_store : ns_store :=
  match NewChildUserNamespace root_store root_creds with Ok (_, st) => st | _ => root_store end.

Definition sample_entries : list IDMapEntry := [mkIDMapEntry 0 1000 10; mkIDMapEntry 100 5000 1].

Definition mapped_store : ns_store := (SetUIDMap child_store root_creds child_ns sample_entries).1.

Definition sample_known : gmap nat UserNamespace := <[1%nat := child_ns]> (<[0%nat := root_ns]> ∅).

Lemma root_reachable : reachable root_store (<[0%nat := root_ns]> ∅).
Proof. apply (reach_root empty_store ∅ root_ns); [constructor|reflexivity]. Qed.

Lemma child_reachable : reachable child_store sample_known.
Proof.
  apply (reach_child root_store _ root_creds child_ns); [apply root_reachable|done|reflexivity].
Qed.

Lemma sample_entries_range : Forall entry_range sample_entries.
Proof. by repeat constructor. Qed.

Lemma mapped_reachable : reachable mapped_store sample_known.
Proof. apply reach_uid_map; [apply child_reachable|done|done|apply sample_entries_range]. Qed.

(** ** Claims *)

(** C14. In every store that can come about, translating an ID of a namespace to the root and
    back gives the ID, and so does translating an ID of the root to a namespace and back, where
    they are mapped; and an ID that a namespace maps to its parent is mapped to the root. *)
Theorem id_translation_roundtrip `{IML : IdMapSetLaws} st K ns :
  reachable st K → knows K ns →
  (∀ uid, MapToKUID st ns uid ≠ NoID → MapFromKUID st ns (MapToKUID st ns uid) = uid) ∧
  (∀ kuid, MapFromKUID st ns kuid ≠ NoID → MapToKUID st ns (MapFromKUID st ns kuid) = kuid) ∧
  (∀ gid, MapToKGID st ns gid ≠ NoID → MapFromKGID st ns (MapToKGID st ns gid) = gid) ∧
  (∀ kgid, MapFromKGID st ns kgid ≠ NoID → MapToKGID st ns (MapFromKGID st ns kgid) = kgid) ∧
  (∀ uid, is_Some (FindSegment (uidMapToParent (state_of st ns)) uid) → MapToKUID st ns uid ≠ NoID) ∧
  (∀ gid, is_Some (FindSegment (gidMapToParent (state_of st ns)) gid) → MapToKGID st ns gid ≠ NoID).
Proof.
  intros Hw%reachable_world Hk. split_and!; intros id Hid.
  - by apply (map_to_from st K Users).
  - by apply (map_from_to st K Users).
  - by apply (map_to_from st K Groups).
  - by apply (map_from_to st K Groups).
  - apply (map_to_root_total st K Users); [done|done|by apply image_is_Some].
  - apply (map_to_root_total st K Groups); [done|done|by apply image_is_Some].
Qed.

Lemma id_translation_roundtrip_witness :
  MapToKUID mapped_store child_ns 7 = 1007 ∧ MapFromKUID mapped_store child_ns 1007 = 7.
Proof.
  split; [reflexivity|].
  destruct (id_translation_roundtrip mapped_store sample_known child_ns mapped_reachable) as [H _]; [reflexivity|].
  apply (H 7). by vm_compute.
Defined.

(** C7. [SetUIDMap] never panics.  If it succeeds, the namespace maps each ID of an entry to
    where its parent maps the corresponding ID, which is mapped to the root, and nothing else;
    the translations of the parent are as before, and any further write fails with EPERM.  If
    it fails, the translations of all namespaces are as before. *)
Theorem SetUIDMap_correct `{IML : IdMapSetLaws} st K c ns entries :
  reachable st K → knows K (cred_ns c) → knows K ns → Forall entry_range entries →
  match SetUIDMap st c ns entries with
  | (st', Ok _) =>
      ∃ p, parent ns = Some p ∧
        (∀ id, MapToKUID st' p id = MapToKUID st p id) ∧
        (∀ uid, MapToKUID st' ns uid =
           match entry_image entries uid with Some pid => MapToKUID st p pid | None => NoID end) ∧
        (∀ uid, is_Some (entry_image entries uid) → MapToKUID st' ns uid ≠ NoID) ∧
        (∀ c' entries', (SetUIDMap st' c' ns entries').2 = Err EPERM)
  | (st', Err _) =>
      ∀ ns' id, MapToKUID st' ns' id = MapToKUID st ns' id ∧ MapFromKUID st' ns' id = MapFromKUID st ns' id
  | (_, Panic) => False
  end.
Proof.
  intros Hreach Hc Hk He. pose proof (reachable_world _ _ Hreach) as Hw.
  pose proof (SetUIDMap_result st K c ns entries Hw Hk He) as Hr.
  destruct (SetUIDMap st c ns entries) as [st' [u|err|]]; [| |done].
  - pose proof Hr as (p & from & to & Hp & _ & Est & _ & _ & _ & _ & Himg). exists p. split; [done|].
    destruct (uid_map_written_maps st K st' c ns p entries Hw Hk Hp Hr) as (Hold & Hnew & Hempty).
    split; [done|]. split; [done|]. split.
    + intros uid Hs. apply (map_to_root_total st' K Users); [by eapply uid_map_written_world|done|].
      subst st'. rewrite state_of_set, Nat.eqb_refl. simpl. by rewrite Himg.
    + intros c' entries'. unfold SetUIDMap. by rewrite Hempty.
  - intros ns' id. by apply (uid_map_reset_same st K st' ns ns' id).
Qed.

Lemma SetUIDMap_correct_witness :
  (SetUIDMap mapped_store root_creds child_ns [mkIDMapEntry 0 1 1]).2 = Err EPERM ∧
  MapToKUID mapped_store child_ns 100 = 5000.
Proof.
  pose proof (SetUIDMap_correct child_store sample_known root_creds child_ns sample_entries child_reachable
    eq_refl eq_refl sample_entries_range) as H.
  assert (E : SetUIDMap child_store root_creds child_ns sample_entries = (mapped_store, Ok ())).
  { rewrite <- (eq_refl : (SetUIDMap child_store root_creds child_ns sample_entries).2 = Ok ()). apply surjective_pairing. }
  rewrite E in H. destruct H as (p & [= <-] & _ & Hnew & _ & Honce). split; [apply Honce|].
  rewrite Hnew. reflexivity.
Defined.
