(* ===== verification/Privileges.v ===== *)
(** * Changes of privileges (src/pkg/sentry/kernel/task_exec.go, task_clone.go, task.go)

    The parts of execve(2), clone(2), unshare(2) and setns(2) that change the identity of a
    task, and the steps by which a group of tasks can change their privileges: the system calls
    of IdentitySyscalls.v, these four, and writes to the ID maps of user namespaces, in any
    order.  The executable file, the tracer and the directories involved are arguments. *)

From stdpp Require Import base numbers decidable gmap relations list.
From S2P Require Import IdMapSet Capability UserNs Credentials ExecCreds TaskIdentity IdentitySyscalls NsFacts.
From S2P Require Import Prelude.

Local Open Scope Z_scope.
Local Open Scope bits_scope.

Section Privileges.
Context `{IdMapSet}.

(** [shouldStopPrivGainDueToPtracerLocked] *)
Definition shouldStopPrivGain (t : task_identity) (tracer : option Credentials) : bool :=
  match tracer with
  | None => false
  | Some tracerCreds => negb (HasCapabilityIn tracerCreds CAP_SYS_PTRACE (cred_ns (creds t)))
  end.

(** The end of [runExecveAfterSiblingExitStop.execute]. *)
Definition exec_commit (t : task_identity) (newCreds : Credentials) (secureExec : bool) : task_identity :=
  let death := if secureExec then 0 else parentDeathSignal t in
  let oldCreds := creds t in
  let dump :=
    if negb (EffectiveKUID oldCreds =? RealKUID oldCreds) || negb (EffectiveKGID oldCreds =? RealKGID oldCreds)
    then NotDumpable else UserDumpable in
  let lowered :=
    negb (EffectiveKUID newCreds =? EffectiveKUID oldCreds) ||
    negb (EffectiveKGID newCreds =? EffectiveKGID oldCreds) ||
    negb (IsSubsetOf (PermittedCaps newCreds) (PermittedCaps oldCreds)) in
  mkIdentity newCreds (noNewPrivs t) (if lowered then NotDumpable else dump) (if lowered then 0 else death).

(** execve(2) of a file with privileges [f]; [shared] says whether the task's FSContext is shared
    outside of its thread group. *)
Definition execve (st : ns_store) (t : task_identity) (f : FilePrivileges) (tracer : option Credentials)
    (shared allowSUID : bool) : result Errno task_identity :=
  let stopPrivGain := shouldStopPrivGain t tracer in
  let stopPrivGain := if shared then true else stopPrivGain in
  '(newCreds, secureExec) ← ComputeCredsForExec st (creds t) f (noNewPrivs t) stopPrivGain allowSUID;
  Ok (exec_commit t newCreds secureExec).

(** unshare(2) with CLONE_NEWUSER. *)
Definition unshare_user (st : ns_store) (t : task_identity) (chrooted : bool)
    : result Errno (UserNamespace * ns_store * task_identity) :=
  if chrooted then Err EPERM
  else
    '(ns, st) ← NewChildUserNamespace st (creds t);
    Ok (ns, st, store_creds t (ForkIntoUserNamespace (creds t) ns)).

(** The identity of a child of clone(2), without and with CLONE_NEWUSER; [dump] is that of the
    memory it gets. *)
Definition clone_child (t : task_identity) (dump : Dumpability) : task_identity :=
  mkIdentity (creds t) (noNewPrivs t) dump 0.

Definition clone_child_user (st : ns_store) (t : task_identity) (dump : Dumpability) (chrooted : bool)
    : result Errno (UserNamespace * ns_store * task_identity) :=
  if chrooted then Err EPERM
  else
    '(ns, st) ← NewChildUserNamespace st (creds t);
    Ok (ns, st, mkIdentity (ForkIntoUserNamespace (creds t) ns) (noNewPrivs t) dump 0).

(** setns(2) with a user namespace; [single] and [private] say whether the task is alone in its
    thread group and with its directories. *)
Definition setns_user (t : task_identity) (ns : UserNamespace) (single private : bool) : result Errno task_identity :=
  let c := creds t in
  if same_ns ns (cred_ns c) then Err EINVAL
  else if negb single then Err EINVAL
  else if negb private then Err EINVAL
  else if negb (HasCapabilityIn c CAP_SYS_ADMIN ns) then Err EPERM
  else Ok (store_creds t (ForkIntoUserNamespace c ns)).

(** ** Calls that only change the identity of the caller *)

Inductive id_call : Type :=
  | CallSetuid (args : SyscallArguments)
  | CallSetreuid (args : SyscallArguments)
  | CallSetresuid (args : SyscallArguments)
  | CallSetgid (args : SyscallArguments)
  | CallSetregid (args : SyscallArguments)
  | CallSetresgid (args : SyscallArguments)
  | CallSetgroups (copy_in : Z → result Errno (list Z)) (args : SyscallArguments)
  | CallCapset (tid : Z) (fault : Z → option Errno) (hdr : result Errno CapUserHeader)
      (data1 : result Errno CapUserData) (data2 : result Errno (CapUserData * CapUserData)) (args : SyscallArguments)
  | CallPrctl (args : SyscallArguments)
  | CallExecve (f : FilePrivileges) (tracer : option Credentials) (shared allowSUID : bool).

Definition run_call (st : ns_store) (t : task_identity) (call : id_call) : result Errno task_identity :=
  match call with
  | CallSetuid args => Setuid st t args
  | CallSetreuid args => Setreuid st t args
  | CallSetresuid args => Setresuid st t args
  | CallSetgid args => Setgid st t args
  | CallSetregid args => Setregid st t args
  | CallSetresgid args => Setresgid st t args
  | CallSetgroups copy_in args => Setgroups st t copy_in args
  | CallCapset tid fault hdr data1 data2 args => snd (Capset t tid fault hdr data1 data2 args)
  | CallPrctl args =>
      match Prctl t args with
      | Some r => '(t, _) ← r; Ok t
      | None => Ok t
      end
  | CallExecve f tracer shared allowSUID => execve st t f tracer shared allowSUID
  end.

(** ** Steps of a group of tasks *)

(** The namespaces, which of them exist, and the tasks of the group. *)
Record world : Type := mkWorld {
  w_store : ns_store;
  w_known : gmap nat UserNamespace;
  w_tasks : list task_identity
}.

(** A step of one task; what it creates joins the group. *)
Inductive step : world → world → Prop :=
  | step_call st K ts i t call t' :
      ts !! i = Some t → run_call st t call = Ok t' →
      step (mkWorld st K ts) (mkWorld st K (<[i := t']> ts))
  | step_unshare st K ts i t chrooted ns st' t' :
      ts !! i = Some t → unshare_user st t chrooted = Ok (ns, st', t') →
      step (mkWorld st K ts) (mkWorld st' (<[ns_id ns := ns]> K) (<[i := t']> ts))
  | step_setns st K ts i t ns single private t' :
      ts !! i = Some t → knows K ns → setns_user t ns single private = Ok t' →
      step (mkWorld st K ts) (mkWorld st K (<[i := t']> ts))
  | step_clone st K ts i t dump :
      ts !! i = Some t → step (mkWorld st K ts) (mkWorld st K (ts ++ [clone_child t dump]))
  | step_clone_user st K ts i t dump chrooted ns st' t' :
      ts !! i = Some t → clone_child_user st t dump chrooted = Ok (ns, st', t') →
      step (mkWorld st K ts) (mkWorld st' (<[ns_id ns := ns]> K) (ts ++ [t']))
  | step_uid_map st K ts i t ns entries :
      ts !! i = Some t → knows K ns → Forall entry_range entries →
      step (mkWorld st K ts) (mkWorld (SetUIDMap st (creds t) ns entries).1 K ts)
  | step_gid_map st K ts i t ns entries :
      ts !! i = Some t → knows K ns → Forall entry_range entries →
      step (mkWorld st K ts) (mkWorld (SetGIDMap st (creds t) ns entries).1 K ts)
  | step_setgroups st K ts i t ns allow :
      ts !! i = Some t → knows K ns →
      step (mkWorld st K ts) (mkWorld (SetSetgroupsAllowed st (creds t) ns allow).1 K ts).
End Privileges.
