(* ===== verification/CapFacts.v ===== *)
(** * Sets of capabilities

    Inclusion of capability sets, as 64-bit words, and what the operations on them do to it. *)

From stdpp Require Import base numbers decidable list.
From S2P Require Import Capability Prelude.

Local Open Scope Z_scope.
Local Open Scope bits_scope.

Definition subcaps (a b : Z) : Prop := ∀ i, Z.testbit a i = true → Z.testbit b i = true.

Infix "⊑c" := subcaps (at level 70) : bits_scope.

Create HintDb caps.

#[export] Instance subcaps_preorder : PreOrder subcaps.
Proof. split; [by intros a i|]. intros a b c H1 H2 i Hi. by apply H2, H1. Qed.

(** Goals on single bits. *)
Ltac bits :=
  let i := fresh "i" in
  unfold subcaps, and_not; intros i;
  repeat match goal with H : subcaps _ _ |- _ => specialize (H i) end;
  rewrite ?Z.land_spec, ?Z.lor_spec, ?Z.ldiff_spec, ?Z.bits_0, ?andb_true_iff, ?orb_true_iff in *;
  intuition congruence.

Lemma subcaps_refl a : a ⊑c a.
Proof. by intros i. Qed.

Lemma subcaps_0 a : 0 ⊑c a.
Proof. intros i. by rewrite Z.bits_0. Qed.

Lemma subcaps_land a b c : a ⊑c b → a ⊑c c → a ⊑c b .& c.
Proof. intros H1 H2. bits. Qed.

Lemma subcaps_land_l a b c : a ⊑c c → a .& b ⊑c c.
Proof. intros H1. bits. Qed.

Lemma subcaps_land_r a b c : b ⊑c c → a .& b ⊑c c.
Proof. intros H1. bits. Qed.

Lemma subcaps_lor a b c : a ⊑c c → b ⊑c c → a .| b ⊑c c.
Proof. intros H1 H2. bits. Qed.

Lemma subcaps_lor_l a b c : a ⊑c b → a ⊑c b .| c.
Proof. intros H1. bits. Qed.

Lemma subcaps_lor_r a b c : a ⊑c c → a ⊑c b .| c.
Proof. intros H1. bits. Qed.

Lemma subcaps_and_not a b c : a ⊑c c → and_not a b ⊑c c.
Proof. intros H1. bits. Qed.

Lemma land_subcaps_l a b c : a ⊑c b .& c → a ⊑c b.
Proof. intros H1 i Hi. specialize (H1 i Hi). rewrite Z.land_spec in H1. by apply andb_true_iff in H1 as []. Qed.

Lemma land_subcaps_r a b c : a ⊑c b .& c → a ⊑c c.
Proof. intros H1 i Hi. specialize (H1 i Hi). rewrite Z.land_spec in H1. by apply andb_true_iff in H1 as []. Qed.

Lemma subcaps_0_r a : a ⊑c 0 → a = 0.
Proof.
  intros H1. apply Z.bits_inj_0. intros i. specialize (H1 i). rewrite Z.bits_0 in H1. by destruct (Z.testbit a i); [specialize (H1 eq_refl)|].
Qed.

Lemma subcaps_antisymm a b : a ⊑c b → b ⊑c a → a = b.
Proof.
  intros H1 H2. apply Z.bits_inj. intros i. specialize (H1 i). specialize (H2 i).
  destruct (Z.testbit a i), (Z.testbit b i); intuition.
Qed.

(** Where one set includes another. *)
Lemma subcaps_lor_eq a b : a ⊑c b → a .| b = b.
Proof. intros. apply subcaps_antisymm; [by apply subcaps_lor|by apply subcaps_lor_r]. Qed.

Lemma subcaps_land_eq a b : a ⊑c b → a .& b = a.
Proof. intros. apply subcaps_antisymm; [by apply subcaps_land_l|by apply subcaps_land]. Qed.

Lemma and_not_0 a b : and_not a b = 0 ↔ a ⊑c b.
Proof.
  unfold and_not. split.
  - intros E i Hi. apply (f_equal (λ x, Z.testbit x i)) in E. rewrite Z.ldiff_spec, Hi, Z.bits_0 in E.
    by destruct (Z.testbit b i).
  - intros Hs. apply Z.bits_inj_0. intros i. rewrite Z.ldiff_spec. specialize (Hs i).
    destruct (Z.testbit a i), (Z.testbit b i); intuition.
Qed.

Lemma IsSubsetOf_spec a b : IsSubsetOf a b = true ↔ a ⊑c b.
Proof.
  unfold IsSubsetOf. rewrite Z.eqb_eq. split; [|apply subcaps_land_eq].
  intros <-. by apply subcaps_land_r.
Qed.

(** A set of one capability has one bit, if any. *)
Lemma CapabilitySetOf_bit cp i j :
  Z.testbit (CapabilitySetOf cp) i = true → Z.testbit (CapabilitySetOf cp) j = true → i = j.
Proof.
  unfold CapabilitySetOf, MaskOf. case_if; [|by rewrite Z.bits_0].
  pose proof (Z.mod_pos_bound cp (2 ^ 64) ltac:(lia)) as Hw. fold (wrap64 cp) in Hw.
  rewrite Z.shiftl_1_l. intros Hi Hj.
  destruct (Z.eq_dec (wrap64 cp) i) as [<-|Hn]; [|by rewrite Z.pow2_bits_false in Hi].
  destruct (Z.eq_dec (wrap64 cp) j) as [<-|Hn]; [done|by rewrite Z.pow2_bits_false in Hj].
Qed.

Lemma land_not_0 a b : a .& b ≠ 0 → ∃ i, Z.testbit a i = true ∧ Z.testbit b i = true.
Proof.
  intros Hn. assert (Hlog : Z.land a b = 0 ∨ ∃ i, Z.testbit (Z.land a b) i = true).
  { destruct (Z_lt_ge_dec (Z.land a b) 0) as [Hneg|Hpos].
    - right. apply Z.bits_iff_neg_ex in Hneg as [k Hk]. exists (k + 1). apply Hk. lia.
    - destruct (Z.eq_dec (Z.land a b) 0) as [|Hne]; [by left|right].
      exists (Z.log2 (Z.land a b)). apply Z.bit_log2. lia. }
  destruct Hlog as [|[i Hi]]; [done|]. exists i. rewrite Z.land_spec in Hi. by apply andb_true_iff in Hi.
Qed.

Lemma CapabilitySetOf_sub cp a : CapabilitySetOf cp .& a ≠ 0 → CapabilitySetOf cp ⊑c a.
Proof. intros (i & Hc & Ha)%land_not_0 j Hj. by rewrite (CapabilitySetOf_bit cp j i). Qed.

Lemma CapabilitySetOf_land_0 cp a b : a ⊑c b → CapabilitySetOf cp .& b = 0 → CapabilitySetOf cp .& a = 0.
Proof.
  intros Hs Hb. apply subcaps_0_r. rewrite <- Hb. apply subcaps_land; [by apply subcaps_land_l, subcaps_refl|by apply subcaps_land_r].
Qed.

#[export] Hint Resolve subcaps_refl subcaps_0 subcaps_land subcaps_lor subcaps_and_not : caps.
#[export] Hint Extern 2 (subcaps (Z.land _ _) _) => first [apply subcaps_land_l; by auto with caps | apply subcaps_land_r; by auto with caps] : caps.
#[export] Hint Extern 3 (subcaps _ (Z.lor _ _)) => first [apply subcaps_lor_l; by auto with caps | apply subcaps_lor_r; by auto with caps] : caps.
