(* ===== verification/CredFacts.v ===== *)
(** * Credentials under system calls

    What the system calls that change the identity of a task do to its IDs and capabilities:
    [caps_ok] is the invariant of capability sets, [kuids] and [kgids] say that all user or
    group IDs of credentials have a property. *)

From stdpp Require Import base numbers decidable gmap list.
From S2P Require Import IdMapSet Capability UserNs Credentials TaskIdentity NsFacts CapFacts IdentitySyscalls Prelude.

Local Open Scope Z_scope.
Local Open Scope bits_scope.

(** A chain of tests, one goal for each and one for the end. *)
Ltac else_cases H := case_if_in H; [|try else_cases H].

(** ** Invariants *)

Record caps_ok (c : Credentials) : Prop := mkCapsOk {
  effective_permitted : EffectiveCaps c ⊑c PermittedCaps c;
  permitted_all : PermittedCaps c ⊑c AllCapabilities;
  inheritable_all : InheritableCaps c ⊑c AllCapabilities;
  bounding_all : BoundingCaps c ⊑c AllCapabilities;
  ambient_permitted : AmbientCaps c ⊑c PermittedCaps c;
  ambient_inheritable : AmbientCaps c ⊑c InheritableCaps c
}.

Definition kuids (P : Z → Prop) (c : Credentials) : Prop := P (RealKUID c) ∧ P (EffectiveKUID c) ∧ P (SavedKUID c).

Definition kgids (P : Z → Prop) (c : Credentials) : Prop :=
  P (RealKGID c) ∧ P (EffectiveKGID c) ∧ P (SavedKGID c) ∧ Forall P (ExtraKGIDs c).

#[export] Hint Resolve effective_permitted permitted_all inheritable_all bounding_all ambient_permitted
  ambient_inheritable : caps.

(** The effect of a call other than execve(2) on capabilities: it keeps the invariant and the
    namespace, and adds nothing to the permitted set. *)
Record caps_step (t t' : task_identity) : Prop := mkCapsStep {
  cs_ok : caps_ok (creds t) → caps_ok (creds t');
  cs_ns : cred_ns (creds t') = cred_ns (creds t);
  cs_permitted : PermittedCaps (creds t') ⊑c PermittedCaps (creds t);
  cs_bounding : BoundingCaps (creds t') ⊑c BoundingCaps (creds t);
  cs_noNewPrivs : noNewPrivs t = true → noNewPrivs t' = true
}.

Lemma caps_step_same t t' :
  PermittedCaps (creds t') = PermittedCaps (creds t) → InheritableCaps (creds t') = InheritableCaps (creds t) →
  EffectiveCaps (creds t') = EffectiveCaps (creds t) → BoundingCaps (creds t') = BoundingCaps (creds t) →
  AmbientCaps (creds t') = AmbientCaps (creds t) → cred_ns (creds t') = cred_ns (creds t) →
  (noNewPrivs t = true → noNewPrivs t' = true) → caps_step t t'.
Proof.
  intros E1 E2 E3 E4 E5 E6 E7. split; rewrite ?E1, ?E4; try done.
  intros [H1 H2 H3 H4 H5 H6]. split; by rewrite ?E1, ?E2, ?E3, ?E4, ?E5.
Qed.

Section Calls.
Context `{IdMapSet}.

Implicit Types (st : ns_store) (t : task_identity).

(** ** User IDs *)

Lemma setKUIDsUnchecked_caps st t r e s : caps_step t (setKUIDsUnchecked st t r e s).
Proof.
  unfold setKUIDsUnchecked. set (root := MapToKUID _ _ _). set (b1 := _ && (negb (r =? root) && _ && _)).
  set (b2 := (EffectiveKUID (creds t) =? root) && negb (e =? root)).
  set (b3 := negb (EffectiveKUID (creds t) =? root) && (e =? root)).
  destruct b1, b2, b3, (KeepCaps (creds t)) eqn:Ek, (negb (EffectiveKUID (creds t) =? e));
    (split; simpl; rewrite ?Ek; simpl; [intros Hok; destruct Hok; split; simpl|..]; by auto with caps).
Qed.

Lemma setKUIDsUnchecked_ids st t r e s :
  let c := creds (setKUIDsUnchecked st t r e s) in
  RealKUID c = r ∧ EffectiveKUID c = e ∧ SavedKUID c = s ∧
  RealKGID c = RealKGID (creds t) ∧ EffectiveKGID c = EffectiveKGID (creds t) ∧ SavedKGID c = SavedKGID (creds t) ∧
  ExtraKGIDs c = ExtraKGIDs (creds t) ∧ cred_ns c = cred_ns (creds t).
Proof.
  unfold setKUIDsUnchecked. set (root := MapToKUID _ _ _). set (b1 := _ && (negb (r =? root) && _ && _)).
  set (b2 := (EffectiveKUID (creds t) =? root) && negb (e =? root)).
  set (b3 := negb (EffectiveKUID (creds t) =? root) && (e =? root)).
  destruct b1, b2, b3, (KeepCaps (creds t)) eqn:Ek, (negb (EffectiveKUID (creds t) =? e)); simpl; rewrite ?Ek; by simpl.
Qed.

(** The user IDs that credentials may change to. *)
Definition uids_allowed st (c : Credentials) (P : Z → Prop) : Prop :=
  HasSelfCapability c CAP_SETUID = true → ∀ uid, MapToKUID st (cred_ns c) uid ≠ NoID → P (MapToKUID st (cred_ns c) uid).

Lemma kuids_set P st t r e s : P r → P e → P s → kuids P (creds (setKUIDsUnchecked st t r e s)).
Proof.
  intros Hr He Hs. destruct (setKUIDsUnchecked_ids st t r e s) as (E1 & E2 & E3 & _).
  unfold kuids. by rewrite E1, E2, E3.
Qed.

Lemma kgids_set P st t r e s : kgids P (creds t) → kgids P (creds (setKUIDsUnchecked st t r e s)).
Proof.
  destruct (setKUIDsUnchecked_ids st t r e s) as (_ & _ & _ & E1 & E2 & E3 & E4 & _).
  unfold kgids. by rewrite E1, E2, E3, E4.
Qed.

(** What a change of user IDs does. *)
Record uid_step (P Q : Z → Prop) (t t' : task_identity) : Prop := mkUidStep {
  us_caps : caps_step t t';
  us_kuids : kuids P (creds t');
  us_kgids : kgids Q (creds t) → kgids Q (creds t')
}.

Lemma uid_step_set P Q st t r e s : P r → P e → P s → uid_step P Q t (setKUIDsUnchecked st t r e s).
Proof. split; [apply setKUIDsUnchecked_caps|by apply kuids_set|apply kgids_set]. Qed.

Lemma SetUID_step P Q st t uid t' :
  kuids P (creds t) → uids_allowed st (creds t) P → SetUID st t uid = Ok t' → uid_step P Q t t'.
Proof.
  intros (Hr & He & Hs) Hall E. unfold SetUID in E. case_if_in E; [done|]. case_if_in E; [done|].
  unfold id_Ok in *. to_prop. case_if_in E.
  - injection E as <-. apply uid_step_set; by apply Hall.
  - case_if_in E; [done|]. injection E as <-. apply uid_step_set; [done| |done].
    apply andb_false_iff in Heqb2 as [E%negb_false_iff%Z.eqb_eq|E%negb_false_iff%Z.eqb_eq]; by rewrite E.
Qed.

Lemma new_kuid_Ok st c id old k :
  new_kuid st c id old = Ok k → k = old ∨ (k = MapToKUID st (cred_ns c) id ∧ k ≠ NoID).
Proof.
  unfold new_kuid. case_if; [|intros [= <-]; by left]. case_if; [done|]. intros [= <-]. right.
  unfold id_Ok in *. by to_prop.
Qed.

Lemma SetREUID_step P Q st t r e t' :
  kuids P (creds t) → uids_allowed st (creds t) P → SetREUID st t r e = Ok t' → uid_step P Q t t'.
Proof.
  intros (Hr & He & Hs) Hall E. unfold SetREUID in E.
  apply bind_Ok in E as (newR & E1%new_kuid_Ok & E). apply bind_Ok in E as (newE & E2%new_kuid_Ok & E).
  case_if_in E; [done|]. case_if_in E; [done|]. injection E as <-.
  assert (P newR ∧ P newE) as [HR HE].
  { destruct (HasSelfCapability (creds t) CAP_SETUID) eqn:Ecap; simpl in *.
    - specialize (Hall Ecap). split.
      + destruct E1 as [-> |[-> ?]]; [done|by apply Hall].
      + destruct E2 as [-> |[-> ?]]; [done|by apply Hall].
    - clear E1 E2 Hall Ecap. rewrite !andb_false_iff, !negb_false_iff, !Z.eqb_eq in *.
      naive_solver congruence. }
  apply uid_step_set; [done|done|by case_if].
Qed.

Lemma use_kuid_Ok P st c id old k :
  kuids P c → uids_allowed st c P → P old → use_kuid st c id old = Ok k → P k.
Proof.
  intros (Hr & He & Hs) Hall Hold. unfold use_kuid, UseUID. case_if; [|by intros [= <-]].
  case_if; [done|]. unfold id_Ok in *. to_prop. case_if; [intros [= <-]; by apply Hall|].
  case_if; [|done]. intros [= <-]. to_prop. rewrite !orb_true_iff, !Z.eqb_eq in *. naive_solver congruence.
Qed.

Lemma SetRESUID_step P Q st t r e s t' :
  kuids P (creds t) → uids_allowed st (creds t) P → SetRESUID st t r e s = Ok t' → uid_step P Q t t'.
Proof.
  intros Hk Hall E. unfold SetRESUID in E. pose proof Hk as (Hr & He & Hs).
  apply bind_Ok in E as (newR & E1 & E). apply bind_Ok in E as (newE & E2 & E).
  apply bind_Ok in E as (newS & E3 & E). injection E as <-.
  apply (use_kuid_Ok P) in E1, E2, E3; [|done..]. by apply uid_step_set.
Qed.

(** ** Group IDs *)

Definition gids_allowed st (c : Credentials) (Q : Z → Prop) : Prop :=
  HasSelfCapability c CAP_SETGID = true → ∀ gid, MapToKGID st (cred_ns c) gid ≠ NoID → Q (MapToKGID st (cred_ns c) gid).

(** What a change of group IDs does. *)
Record gid_step (P Q : Z → Prop) (t t' : task_identity) : Prop := mkGidStep {
  gs_caps : caps_step t t';
  gs_kuids : kuids P (creds t) → kuids P (creds t');
  gs_kgids : kgids Q (creds t')
}.

Lemma gid_step_set P Q t r e s :
  kgids Q (creds t) → Q r → Q e → Q s → gid_step P Q t (setKGIDsUnchecked t r e s).
Proof.
  intros (_ & _ & _ & Hx) Hr He Hs. unfold setKGIDsUnchecked.
  destruct (negb (EffectiveKGID (creds t) =? e)); (split; [by apply caps_step_same|done|done]).
Qed.

Lemma SetGID_step P Q st t gid t' :
  kgids Q (creds t) → gids_allowed st (creds t) Q → SetGID st t gid = Ok t' → gid_step P Q t t'.
Proof.
  intros Hk Hall E. pose proof Hk as (Hr & He & Hs & _). unfold SetGID in E.
  case_if_in E; [done|]. case_if_in E; [done|]. unfold id_Ok in *. to_prop. case_if_in E.
  - injection E as <-. apply gid_step_set; [done|by apply Hall..].
  - case_if_in E; [done|]. injection E as <-. apply gid_step_set; [done|done| |done].
    apply andb_false_iff in Heqb2 as [E%negb_false_iff%Z.eqb_eq|E%negb_false_iff%Z.eqb_eq]; by rewrite E.
Qed.

Lemma new_kgid_Ok st c id old k :
  new_kgid st c id old = Ok k → k = old ∨ (k = MapToKGID st (cred_ns c) id ∧ k ≠ NoID).
Proof.
  unfold new_kgid. case_if; [|intros [= <-]; by left]. case_if; [done|]. intros [= <-]. right.
  unfold id_Ok in *. by to_prop.
Qed.

Lemma SetREGID_step P Q st t r e t' :
  kgids Q (creds t) → gids_allowed st (creds t) Q → SetREGID st t r e = Ok t' → gid_step P Q t t'.
Proof.
  intros Hk Hall E. pose proof Hk as (Hr & He & Hs & _). unfold SetREGID in E.
  apply bind_Ok in E as (newR & E1%new_kgid_Ok & E). apply bind_Ok in E as (newE & E2%new_kgid_Ok & E).
  case_if_in E; [done|]. case_if_in E; [done|]. injection E as <-.
  assert (Q newR ∧ Q newE) as [HR HE].
  { destruct (HasSelfCapability (creds t) CAP_SETGID) eqn:Ecap; simpl in *.
    - specialize (Hall Ecap). split.
      + destruct E1 as [-> |[-> ?]]; [done|by apply Hall].
      + destruct E2 as [-> |[-> ?]]; [done|by apply Hall].
    - clear E1 E2 Hall Ecap. rewrite !andb_false_iff, !negb_false_iff, !Z.eqb_eq in *.
      naive_solver congruence. }
  apply gid_step_set; [done|done|done|by case_if].
Qed.

Lemma use_kgid_Ok Q st c id old k :
  kgids Q c → gids_allowed st c Q → Q old → use_kgid st c id old = Ok k → Q k.
Proof.
  intros (Hr & He & Hs & _) Hall Hold. unfold use_kgid, UseGID. case_if; [|by intros [= <-]].
  case_if; [done|]. unfold id_Ok in *. to_prop. case_if; [intros [= <-]; by apply Hall|].
  case_if; [|done]. intros [= <-]. to_prop. rewrite !orb_true_iff, !Z.eqb_eq in *. naive_solver congruence.
Qed.

Lemma SetRESGID_step P Q st t r e s t' :
  kgids Q (creds t) → gids_allowed st (creds t) Q → SetRESGID st t r e s = Ok t' → gid_step P Q t t'.
Proof.
  intros Hk Hall E. unfold SetRESGID in E. pose proof Hk as (Hr & He & Hs & _).
  apply bind_Ok in E as (newR & E1 & E). apply bind_Ok in E as (newE & E2 & E).
  apply bind_Ok in E as (newS & E3 & E). injection E as <-.
  apply (use_kgid_Ok Q) in E1, E2, E3; [|done..]. by apply gid_step_set.
Qed.

Lemma map_kgids_Ok Q st ns gids ks :
  (∀ gid, MapToKGID st ns gid ≠ NoID → Q (MapToKGID st ns gid)) → map_kgids st ns gids = Ok ks → Forall Q ks.
Proof.
  intros Hall. revert ks. induction gids as [|g gids IH]; intros ks E; simpl in E; [by injection E as <-|].
  case_if_in E; [done|]. apply bind_Ok in E as (ks' & E' & [= <-]). constructor; [|by apply IH].
  apply Hall. unfold id_Ok in *. by to_prop.
Qed.

Lemma SetExtraGIDs_step P Q st t gids t' :
  kgids Q (creds t) → gids_allowed st (creds t) Q → SetExtraGIDs st t gids = Ok t' → gid_step P Q t t'.
Proof.
  intros (Hr & He & Hs & _) Hall E. unfold SetExtraGIDs in E. case_if_in E; [done|]. to_prop.
  apply bind_Ok in E as (ks & Ek & [= <-]). split; [by apply caps_step_same|done|].
  split_and!; [done|done|done|]. eapply map_kgids_Ok; [|done]. by apply Hall.
Qed.

(** ** Capabilities *)

(** A change of capabilities leaves all IDs as they are. *)
Record same_ids (c c' : Credentials) : Prop := mkSameIds {
  si_kuids P : kuids P c → kuids P c';
  si_kgids Q : kgids Q c → kgids Q c'
}.

Lemma SetCapabilitySets_step t p i e t' :
  SetCapabilitySets t p i e = Ok t' → caps_step t t' ∧ same_ids (creds t) (creds t').
Proof.
  unfold SetCapabilitySets. do 4 (case_if; [done|]). intros [= <-]. to_prop. rewrite and_not_0 in *.
  split; [|by split]. split; simpl; [|done|done|by auto with caps|done].
  set (mask := (weakCaps .& BoundingCaps (creds t)) .| and_not AllCapabilities weakCaps) in *.
  assert (Hmask : mask ⊑c AllCapabilities).
  { apply subcaps_lor; [|by auto with caps]. apply subcaps_land_l. by apply IsSubsetOf_spec. }
  intros Hok. split; simpl.
  - bits.
  - apply subcaps_land_r. done.
  - apply subcaps_land_r. done.
  - by auto with caps.
  - by apply subcaps_land_r, subcaps_land_l.
  - by apply subcaps_land_r, subcaps_land_r.
Qed.

Lemma Capset_step t tid fault hdr d1 d2 args t' :
  snd (Capset t tid fault hdr d1 d2 args) = Ok t' → caps_step t t' ∧ same_ids (creds t) (creds t').
Proof.
  unfold Capset. destruct hdr as [hdr|err|]; [|done|done]. case_if; [|case_if].
  - case_if; [done|]. simpl. intros E. apply bind_Ok in E as (d & _ & E). by eapply SetCapabilitySets_step.
  - case_if; [done|]. simpl. intros E. apply bind_Ok in E as ([d d'] & _ & E). by eapply SetCapabilitySets_step.
  - destruct (CopyOut _ _ _) as [w [u|err|]]; done.
Qed.

Lemma DropBoundingCapability_step t cp t' :
  DropBoundingCapability t cp = Ok t' → caps_step t t' ∧ same_ids (creds t) (creds t').
Proof.
  unfold DropBoundingCapability. case_if; [done|]. intros [= <-]. split; [|by split].
  split; simpl; [|done|done|by auto with caps|done]. intros []. by split; simpl; auto with caps.
Qed.

Lemma keep_step t k : caps_step t (SetKeepCaps t k) ∧ same_ids (creds t) (creds (SetKeepCaps t k)).
Proof. split; [by apply caps_step_same|by split]. Qed.

Lemma SetSecurebits_step t v t' : SetSecurebits t v = Ok t' → caps_step t t' ∧ same_ids (creds t) (creds t').
Proof. unfold SetSecurebits. do 2 (case_if; [done|]). intros [= <-]. apply keep_step. Qed.

Lemma RaiseAmbientCapability_step t cp t' :
  RaiseAmbientCapability t cp = Ok t' → caps_step t t' ∧ same_ids (creds t) (creds t').
Proof.
  unfold RaiseAmbientCapability. do 2 (case_if; [done|]). intros [= <-]. to_prop. split; [|by split].
  split; simpl; [|done..]. intros []. split; simpl; [done..| |]; apply subcaps_lor; by auto using CapabilitySetOf_sub.
Qed.

Lemma LowerAmbientCapability_step t cp t' :
  LowerAmbientCapability t cp = Ok t' → caps_step t t' ∧ same_ids (creds t) (creds t').
Proof.
  unfold LowerAmbientCapability. case_if; [done|]. intros [= <-]. split; [|by split].
  split; simpl; [|done..]. intros []. by split; simpl; auto with caps.
Qed.

Lemma prctl_ambient_step t args t' v :
  prctl_ambient t args = Ok (t', v) → caps_step t t' ∧ same_ids (creds t) (creds t').
Proof.
  intros E. unfold prctl_ambient in E.
  assert (Hid : caps_step t t ∧ same_ids (creds t) (creds t)) by (split; [by apply caps_step_same|by split]).
  repeat (case_if_in E; [try done|]); try done.
  - apply bind_Ok in E as (b & _ & [= <- _]). done.
  - apply bind_Ok in E as (t2 & E & [= <- _]). by eapply RaiseAmbientCapability_step.
  - apply bind_Ok in E as (t2 & E & [= <- _]). by eapply LowerAmbientCapability_step.
  - injection E as <- _. split; [|by split]. split; simpl; [|done..].
    intros []. by split; simpl; auto with caps.
Qed.

Lemma Prctl_step t args t' v :
  Prctl t args = Some (Ok (t', v)) → caps_step t t' ∧ same_ids (creds t) (creds t').
Proof.
  intros E. unfold Prctl in E.
  assert (Hid : ∀ t2, creds t2 = creds t → (noNewPrivs t = true → noNewPrivs t2 = true) →
    caps_step t t2 ∧ same_ids (creds t) (creds t2)).
  { intros t2 E2 En. split; [apply caps_step_same; by rewrite ?E2|split; by rewrite E2]. }
  else_cases E; (apply (inj Some) in E || done).
  - case_if_in E; [done|]. injection E as <- _. by apply Hid.
  - injection E as <- _. by apply Hid.
  - repeat (case_if_in E; [injection E as <- _; by apply Hid|]). done.
  - injection E as <- _. by apply Hid.
  - repeat (case_if_in E; [injection E as <- _; by apply keep_step|]). done.
  - injection E as <- _. by apply Hid.
  - apply bind_Ok in E as (t2 & E & [= <- _]). by eapply SetSecurebits_step.
  - case_if_in E; [done|]. injection E as <- _. by apply Hid.
  - case_if_in E; [done|]. injection E as <- _. by apply Hid.
  - case_if_in E; [done|]. injection E as <- _. by apply Hid.
  - case_if_in E; [done|]. apply bind_Ok in E as (t2 & E & [= <- _]). by eapply DropBoundingCapability_step.
  - by eapply prctl_ambient_step.
Qed.

Lemma Setgroups_step P Q st t copy_in args t' :
  kgids Q (creds t) → gids_allowed st (creds t) Q → Setgroups st t copy_in args = Ok t' → gid_step P Q t t'.
Proof.
  intros Hk Hall. unfold Setgroups. do 2 (case_if; [done|]). case_if; [by apply SetExtraGIDs_step|].
  intros E. apply bind_Ok in E as (gids & _ & E). by eapply SetExtraGIDs_step.
Qed.
End Calls.

(** ** Values that calls return *)

Section Views.
Context `{IML : IdMapSetLaws}.

Lemma arg_id_wrap args i : arg_id args i = wrap32 (arg args i).
Proof.
  unfold arg_id, arg_Int, wrap32. case_if; [apply Z.mod_mod; lia|].
  rewrite <- (Z.mod_mod (arg args i) (2 ^ 32)) at 2 by lia.
  replace (arg args i mod 2 ^ 32 - 2 ^ 32) with (arg args i mod 2 ^ 32 + (-1) * 2 ^ 32) by lia. apply Z_mod_plus_full.
Qed.

(** The view of an ID that is mapped. *)
Lemma view_uid_mapped st K c uid :
  world_ok st K → knows K (cred_ns c) → MapToKUID st (cred_ns c) uid ≠ NoID → uid ≠ NoID →
  view_uid st c (MapToKUID st (cred_ns c) uid) = uid.
Proof.
  intros Hw Hk Hm Hn. unfold view_uid, uid_OrOverflow, kuid_In, id_Ok.
  pose proof (map_to_from st K Users _ _ Hw Hk Hm) as E. unfold MapFromKUID, MapToKUID. cbn [from_of to_of] in E.
  rewrite E. by destruct (Z.eqb_spec uid NoID).
Qed.

Lemma view_gid_mapped st K c gid :
  world_ok st K → knows K (cred_ns c) → MapToKGID st (cred_ns c) gid ≠ NoID → gid ≠ NoID →
  view_gid st c (MapToKGID st (cred_ns c) gid) = gid.
Proof.
  intros Hw Hk Hm Hn. unfold view_gid, gid_OrOverflow, kgid_In, id_Ok.
  pose proof (map_to_from st K Groups _ _ Hw Hk Hm) as E. unfold MapFromKGID, MapToKGID. cbn [from_of to_of] in E.
  rewrite E. by destruct (Z.eqb_spec gid NoID).
Qed.

Lemma use_kuid_mapped st c id old k :
  id ≠ NoID → use_kuid st c id old = Ok k → k = MapToKUID st (cred_ns c) id ∧ k ≠ NoID.
Proof.
  intros Hid. unfold use_kuid, UseUID, id_Ok. destruct (Z.eqb_spec id NoID); [done|]. simpl.
  case_if; [done|]. to_prop. case_if; [by intros [= <-]|]. case_if; [by intros [= <-]|done].
Qed.

Lemma use_kgid_mapped st c id old k :
  id ≠ NoID → use_kgid st c id old = Ok k → k = MapToKGID st (cred_ns c) id ∧ k ≠ NoID.
Proof.
  intros Hid. unfold use_kgid, UseGID, id_Ok. destruct (Z.eqb_spec id NoID); [done|]. simpl.
  case_if; [done|]. to_prop. case_if; [by intros [= <-]|]. case_if; [by intros [= <-]|done].
Qed.

Lemma SetRESUID_views st K t r e s t' :
  world_ok st K → knows K (cred_ns (creds t)) → r ≠ NoID → e ≠ NoID → s ≠ NoID → SetRESUID st t r e s = Ok t' →
  let c := creds t' in
  view_uid st c (RealKUID c) = r ∧ view_uid st c (EffectiveKUID c) = e ∧ view_uid st c (SavedKUID c) = s.
Proof.
  intros Hw Hk Hr He Hs E. unfold SetRESUID in E.
  apply bind_Ok in E as (kr & [-> Hr']%use_kuid_mapped & E); [|done]. apply bind_Ok in E as (ke & [-> He']%use_kuid_mapped & E); [|done].
  apply bind_Ok in E as (ks & [-> Hs']%use_kuid_mapped & [= <-]); [|done].
  set (t' := setKUIDsUnchecked _ _ _ _ _).
  destruct (setKUIDsUnchecked_ids st t (MapToKUID st (cred_ns (creds t)) r) (MapToKUID st (cred_ns (creds t)) e)
    (MapToKUID st (cred_ns (creds t)) s)) as (E1 & E2 & E3 & _ & _ & _ & _ & E4). fold t' in E1, E2, E3, E4.
  cbv zeta. rewrite E1, E2, E3. rewrite <- E4 in *. split_and!; by apply (view_uid_mapped st K).
Qed.

Lemma SetRESGID_views st K t r e s t' :
  world_ok st K → knows K (cred_ns (creds t)) → r ≠ NoID → e ≠ NoID → s ≠ NoID → SetRESGID st t r e s = Ok t' →
  let c := creds t' in
  view_gid st c (RealKGID c) = r ∧ view_gid st c (EffectiveKGID c) = e ∧ view_gid st c (SavedKGID c) = s.
Proof.
  intros Hw Hk Hr He Hs E. unfold SetRESGID in E.
  apply bind_Ok in E as (kr & [-> Hr']%use_kgid_mapped & E); [|done]. apply bind_Ok in E as (ke & [-> He']%use_kgid_mapped & E); [|done].
  apply bind_Ok in E as (ks & [-> Hs']%use_kgid_mapped & [= <-]); [|done].
  pose proof (view_gid_mapped st K (creds t)) as Hv. unfold setKGIDsUnchecked. case_if; split_and!; by apply Hv.
Qed.
End Views.

(** The two words of a capability set. *)
Definition caps_of_words (lo hi : Z) : Z := lo .| wrap64 (Z.shiftl hi 32).

Lemma caps_words lo hi :
  in_u32 lo → in_u32 hi → wrap32 (caps_of_words lo hi) = lo ∧ wrap32 (Z.shiftr (caps_of_words lo hi) 32) = hi.
Proof.
  unfold in_u32, caps_of_words, wrap32, wrap64. intros Hl Hh.
  rewrite (Z.mod_small (Z.shiftl hi 32)) by (rewrite Z.shiftl_mul_pow2 by lia; lia).
  rewrite <- !Z.land_ones by lia. split; apply Z.bits_inj'; intros i Hi; rewrite ?Z.land_spec, ?Z.shiftr_spec, ?Z.lor_spec by lia;
    rewrite Z.testbit_ones_nonneg by lia.
  - rewrite Z.shiftl_spec by lia. destruct (Z.ltb_spec i 32).
    + rewrite (Z.testbit_neg_r hi) by lia. by rewrite orb_false_r, andb_true_r.
    + rewrite andb_false_r. symmetry. rewrite <- (Z.mod_small lo (2 ^ 32)) by lia. apply Z.mod_pow2_bits_high. lia.
  - rewrite Z.shiftl_spec by lia. replace (i + 32 - 32) with i by lia.
    rewrite <- (Z.mod_small lo (2 ^ 32)) by lia. rewrite Z.mod_pow2_bits_high by lia. simpl. destruct (Z.ltb_spec i 32).
    + by rewrite andb_true_r.
    + rewrite andb_false_r. symmetry. rewrite <- (Z.mod_small hi (2 ^ 32)) by lia. apply Z.mod_pow2_bits_high. lia.
Qed.

(** What [SetCapabilitySets] stores. *)
Lemma SetCapabilitySets_result t p i e t' :
  SetCapabilitySets t p i e = Ok t' →
  weakCaps ⊑c BoundingCaps (creds t) → p ⊑c AllCapabilities → i ⊑c AllCapabilities → e ⊑c AllCapabilities →
  PermittedCaps (creds t') = p ∧ InheritableCaps (creds t') = i ∧ EffectiveCaps (creds t') = e.
Proof.
  intros E Hw. unfold SetCapabilitySets in E. do 4 (case_if_in E; [done|]). injection E as <-. simpl.
  set (mask := (weakCaps .& BoundingCaps (creds t)) .| and_not AllCapabilities weakCaps).
  assert (Hmask : AllCapabilities ⊑c mask).
  { intros j Hj. unfold mask, and_not. rewrite Z.lor_spec, Z.land_spec, Z.ldiff_spec, Hj. specialize (Hw j).
    destruct (Z.testbit weakCaps j); [by rewrite Hw|done]. }
  intros Hp Hi He. split_and!; apply subcaps_land_eq; by etransitivity.
Qed.
