(* ===== verification/ExecFacts.v ===== *)
(** * Credentials across execve

    [ComputeCredsForExec] follows the rules of capabilities(7) ([exec_rule]), keeps the
    invariant of capability sets, and gives nothing to a task with no_new_privs. *)

From stdpp Require Import base numbers decidable gmap list.
From S2P Require Import IdMapSet Capability UserNs Credentials ExecCreds TaskIdentity NsFacts CapFacts CredFacts.
From S2P Require Import Prelude.

Local Open Scope Z_scope.
Local Open Scope bits_scope.

Section Exec.
Context `{IdMapSet}.

Implicit Types (st : ns_store) (c : Credentials) (f : FilePrivileges).

(** ** Privileges of the file *)

Lemma MapFromKUID_NoID st ns : kuid_In st NoID ns = NoID.
Proof. apply map_from_root_NoID. Qed.

Lemma MapFromKGID_NoID st ns : kgid_In st NoID ns = NoID.
Proof. apply map_from_root_NoID. Qed.

(** What is heeded of a file. *)
Record heeded st c (noNewPrivs allowSUID : bool) (f f' : FilePrivileges) : Prop := mkHeeded {
  hd_uid : SetUserID f' =
    if negb noNewPrivs && allowSUID && id_Ok (kuid_In st (SetUserID f) (cred_ns c)) then SetUserID f else NoID;
  hd_gid : SetGroupID f' =
    if negb noNewPrivs && allowSUID && id_Ok (kgid_In st (SetGroupID f) (cred_ns c)) then SetGroupID f else NoID;
  hd_caps : HasCaps f' = negb noNewPrivs && rootIDOwnsCurrentUserns st c (CapRootID f) && HasCaps f;
  hd_effective : f_Effective f' = negb noNewPrivs && rootIDOwnsCurrentUserns st c (CapRootID f) && f_Effective f;
  hd_permitted : f_PermittedCaps f' = f_PermittedCaps f;
  hd_inheritable : f_InheritableCaps f' = f_InheritableCaps f
}.

Lemma heeded_privs_spec st c f nnp allow : heeded st c nnp allow f (heeded_privs st c f nnp allow).
Proof.
  unfold heeded_privs. destruct f as [u g hc rid fp fi fe], nnp, allow; simpl;
    rewrite ?MapFromKUID_NoID, ?MapFromKGID_NoID; simpl;
    destruct (id_Ok (kuid_In st u (cred_ns c))) eqn:Eu, (id_Ok (kgid_In st g (cred_ns c))) eqn:Eg; simpl;
    rewrite ?Eg, ?Eu, ?MapFromKGID_NoID; simpl; rewrite ?Eg; simpl;
    destruct (rootIDOwnsCurrentUserns st c rid) eqn:Er; split; simpl; rewrite ?Eu, ?Eg, ?Er; done.
Qed.

(** ** The rules of capabilities(7)

    For a file whose privileges are all heeded.  [notional_root]: the sets of the file are
    taken to be full for root, unless a set-user-ID-root file has capabilities itself. *)

Definition exec_euid c f : Z := if id_Ok (SetUserID f) then SetUserID f else EffectiveKUID c.

Definition exec_egid c f : Z := if id_Ok (SetGroupID f) then SetGroupID f else EffectiveKGID c.

Definition suid_root_caps (root : Z) c f : bool :=
  HasCaps f && negb (RealKUID c =? root) && (exec_euid c f =? root).

Definition notional_root (root : Z) c f : bool :=
  negb (suid_root_caps root c f) && ((RealKUID c =? root) || (exec_euid c f =? root)).

Definition file_set (root : Z) c f (cs : Z) : Z :=
  if notional_root root c f then AllCapabilities else if HasCaps f then cs else 0.

Definition file_effective (root : Z) c f : bool :=
  (negb (suid_root_caps root c f) && (exec_euid c f =? root)) || f_Effective f.

Definition rule_ambient c f : Z := if fileIsPrivileged f then 0 else AmbientCaps c.

Definition rule_permitted (root : Z) c f : Z :=
  (InheritableCaps c .& file_set root c f (f_InheritableCaps f)) .|
  ((file_set root c f (f_PermittedCaps f) .& BoundingCaps c) .| rule_ambient c f).

Definition rule_effective (root : Z) c f (permitted : Z) : Z :=
  if file_effective root c f then permitted else rule_ambient c f.

(** Does the file fail to get the capabilities that it counts on? *)
Definition lacks_caps c f : bool :=
  HasCaps f && f_Effective f &&
  negb (IsSubsetOf (f_PermittedCaps f) ((InheritableCaps c .& f_InheritableCaps f) .| (f_PermittedCaps f .& BoundingCaps c))).

(** The rules with the restrictions for tasks with no_new_privs and tasks that are traced. *)
Definition exec_gains (root : Z) c f : bool :=
  negb (exec_euid c f =? RealKUID c) || negb (exec_egid c f =? RealKGID c) ||
  negb (IsSubsetOf (rule_permitted root c f) (PermittedCaps c)).

Definition exec_rule st c f (noNewPrivs stopPrivGain : bool) : option Credentials :=
  let root := MapToKUID st (cred_ns c) RootUID in
  if lacks_caps c f then None
  else
    let denied := exec_gains root c f && (noNewPrivs || stopPrivGain) in
    let keepID := denied && (noNewPrivs || negb (HasSelfCapability c CAP_SETUID)) in
    let euid := if keepID then RealKUID c else exec_euid c f in
    let egid := if keepID then RealKGID c else exec_egid c f in
    let permitted := if denied then rule_permitted root c f .& PermittedCaps c else rule_permitted root c f in
    Some (mkCredentials (RealKUID c) euid euid (RealKGID c) egid egid (ExtraKGIDs c) permitted
            (InheritableCaps c) (rule_effective root c f permitted) (BoundingCaps c) (rule_ambient c f) false (cred_ns c)).

Lemma apply_privs_euid c f a : EffectiveKUID (apply_privs c f a) = exec_euid c f.
Proof. unfold apply_privs, exec_euid. repeat case_if; done. Qed.

Lemma apply_privs_egid c f a : EffectiveKGID (apply_privs c f a) = exec_egid c f.
Proof. unfold apply_privs, exec_egid. repeat case_if; done. Qed.

(** What [apply_privs] leaves alone. *)
Lemma apply_privs_rest c f a :
  let c' := apply_privs c f a in
  RealKUID c' = RealKUID c ∧ RealKGID c' = RealKGID c ∧ ExtraKGIDs c' = ExtraKGIDs c ∧
  InheritableCaps c' = InheritableCaps c ∧ BoundingCaps c' = BoundingCaps c ∧ cred_ns c' = cred_ns c.
Proof. unfold apply_privs. repeat case_if; done. Qed.

Lemma apply_privs_permitted c f :
  PermittedCaps (apply_privs c f (rule_ambient c f)) =
  if HasCaps f then (InheritableCaps c .& f_InheritableCaps f) .| (f_PermittedCaps f .& BoundingCaps c)
  else rule_ambient c f.
Proof.
  unfold apply_privs, rule_ambient. destruct (HasCaps f) eqn:Eh; simpl.
  - unfold fileIsPrivileged. rewrite Eh, orb_true_r. simpl. repeat case_if; done.
  - repeat case_if; simpl in *; done.
Qed.

Lemma lacks_caps_spec c f :
  (HasCaps f && f_Effective f &&
   negb (PermittedCaps (apply_privs c f (rule_ambient c f)) .& f_PermittedCaps f =? f_PermittedCaps f)) = lacks_caps c f.
Proof.
  rewrite apply_privs_permitted. unfold lacks_caps, IsSubsetOf. destruct (HasCaps f); [|done].
  by rewrite (Z.land_comm (f_PermittedCaps f) (_ .| _)).
Qed.

(** The permitted set that is left after the special treatment of root. *)
Lemma handlePrivilegedRoot_rule st c f c1 f1 :
  caps_ok c → handlePrivilegedRoot st (apply_privs c f (rule_ambient c f)) f = (c1, f1) →
  let root := MapToKUID st (cred_ns c) RootUID in
  PermittedCaps c1 = rule_permitted root c f ∧ f_Effective f1 = file_effective root c f ∧
  c1 = set_PermittedCaps (apply_privs c f (rule_ambient c f)) (PermittedCaps c1).
Proof.
  intros Hok. destruct (apply_privs_rest c f (rule_ambient c f)) as (E1 & _ & _ & E4 & E5 & E6).
  pose proof (apply_privs_euid c f (rule_ambient c f)) as Ee. pose proof (apply_privs_permitted c f) as Ep.
  unfold handlePrivilegedRoot, rule_permitted, file_effective, file_set, notional_root, suid_root_caps.
  set (d := apply_privs c f (rule_ambient c f)) in *. rewrite E6. set (root := MapToKUID _ _ _).
  assert (Hself : d = set_PermittedCaps d (PermittedCaps d)) by (by destruct d).
  assert (Hamb : rule_ambient c f ⊑c InheritableCaps c) by (unfold rule_ambient; case_if; auto with caps).
  rewrite E1, Ee. destruct (HasCaps f && negb (RealKUID c =? root) && (exec_euid c f =? root)) eqn:Esuid; simpl.
  - intros [= <- <-]. to_prop. split; [|by split]. rewrite Ep.
    match goal with E : HasCaps f = true |- _ => rewrite E end.
    unfold rule_ambient, fileIsPrivileged. match goal with E : HasCaps f = true |- _ => rewrite E end.
    rewrite orb_true_r. by rewrite Z.lor_0_r.
  - destruct ((RealKUID c =? root) || (exec_euid c f =? root)) eqn:Eroot; intros [= <- <-]; simpl; rewrite ?Ee.
    + split; [|done]. rewrite E4, E5. rewrite subcaps_land_eq by auto with caps.
      rewrite (Z.land_comm AllCapabilities), subcaps_land_eq by auto with caps.
      apply subcaps_antisymm; auto 6 with caps.
    + split; [|done]. rewrite Ep. destruct (HasCaps f) eqn:Eh; [|by rewrite Z.land_0_r].
      unfold rule_ambient, fileIsPrivileged. rewrite Eh, orb_true_r. by rewrite Z.lor_0_r.
Qed.

(** Does the dynamic linker have to take care? *)
Definition exec_secure st c f (c' : Credentials) : bool :=
  let root := MapToKUID st (cred_ns c) RootUID in
  negb (exec_euid c f =? RealKUID c) || negb (exec_egid c f =? RealKGID c) ||
  (negb (RealKUID c =? root) &&
   (file_effective root c f || negb (IsSubsetOf (PermittedCaps c') (rule_ambient c f)))).

Lemma finish_creds_eq c a eff :
  finish_creds c a eff =
  mkCredentials (RealKUID c) (EffectiveKUID c) (EffectiveKUID c) (RealKGID c) (EffectiveKGID c) (EffectiveKGID c)
    (ExtraKGIDs c) (PermittedCaps c) (InheritableCaps c) (if eff then PermittedCaps c else a) (BoundingCaps c) a false
    (cred_ns c).
Proof. by destruct eff. Qed.

Lemma deny_gain_eq c c1 nnp :
  let keep := nnp || negb (HasSelfCapability c CAP_SETUID) in
  deny_gain c c1 nnp =
  mkCredentials (RealKUID c1) (if keep then RealKUID c else EffectiveKUID c1) (SavedKUID c1)
    (RealKGID c1) (if keep then RealKGID c else EffectiveKGID c1) (SavedKGID c1)
    (ExtraKGIDs c1) (PermittedCaps c1 .& PermittedCaps c) (InheritableCaps c1) (EffectiveCaps c1) (BoundingCaps c1)
    (AmbientCaps c1) (KeepCaps c1) (cred_ns c1).
Proof. unfold deny_gain. by destruct (nnp || _). Qed.

Lemma ComputeCredsForExec_rule st c f nnp stop allow :
  caps_ok c →
  let f' := heeded_privs st c f nnp allow in
  ComputeCredsForExec st c f nnp stop allow =
  match exec_rule st c f' nnp stop with
  | None => Err EPERM
  | Some c' => Ok (c', exec_secure st c f' c')
  end.
Proof.
  intros Hok f'. unfold ComputeCredsForExec, exec_rule. fold f'. fold (rule_ambient c f').
  rewrite lacks_caps_spec. destruct (lacks_caps c f'); [done|].
  destruct (handlePrivilegedRoot _ _ _) as [c1 f1] eqn:Eh.
  apply handlePrivilegedRoot_rule in Eh as (Ep & Ee & E1); [|done].
  destruct (apply_privs_rest c f' (rule_ambient c f')) as (R1 & R2 & R3 & R4 & R5 & R6).
  pose proof (apply_privs_euid c f' (rule_ambient c f')) as R7.
  pose proof (apply_privs_egid c f' (rule_ambient c f')) as R8.
  unfold exec_gains, rule_effective, exec_secure. set (root := MapToKUID st (cred_ns c) RootUID) in *.
  assert (EffectiveKUID c1 = exec_euid c f' ∧ EffectiveKGID c1 = exec_egid c f' ∧ RealKUID c1 = RealKUID c ∧
    RealKGID c1 = RealKGID c ∧ ExtraKGIDs c1 = ExtraKGIDs c ∧ InheritableCaps c1 = InheritableCaps c ∧
    BoundingCaps c1 = BoundingCaps c ∧ cred_ns c1 = cred_ns c) as (S1 & S2 & S3 & S4 & S5 & S6 & S7 & S8) by (by rewrite E1).
  rewrite Ee, Ep, S1, S2. clear E1 R1 R2 R3 R4 R5 R6 R7 R8 Ee.
  destruct ((_ || negb (IsSubsetOf _ _)) && (nnp || stop)) eqn:Eg; rewrite ?finish_creds_eq, ?deny_gain_eq;
    cbn [RealKUID EffectiveKUID RealKGID EffectiveKGID ExtraKGIDs PermittedCaps InheritableCaps BoundingCaps cred_ns andb];
    by rewrite Ep, S1, S2, S3, S4, S5, S6, S7, S8.
Qed.

(** ** Consequences *)

Lemma rule_ambient_sub c f : caps_ok c → rule_ambient c f ⊑c PermittedCaps c ∧ rule_ambient c f ⊑c InheritableCaps c.
Proof. intros. unfold rule_ambient. case_if; by auto with caps. Qed.

Lemma rule_permitted_all root c f : caps_ok c → rule_permitted root c f ⊑c AllCapabilities.
Proof.
  intros Hok. destruct (rule_ambient_sub c f Hok) as [_ Ha]. unfold rule_permitted.
  repeat apply subcaps_lor.
  - apply subcaps_land_l. by auto with caps.
  - apply subcaps_land_r. by auto with caps.
  - etransitivity; [done|]. by auto with caps.
Qed.

(** The permitted set that [exec_rule] comes to. *)
Definition final_permitted root c f (nnp stop : bool) : Z :=
  if exec_gains root c f && (nnp || stop) then rule_permitted root c f .& PermittedCaps c else rule_permitted root c f.

Lemma final_permitted_ambient root c f nnp stop : caps_ok c → rule_ambient c f ⊑c final_permitted root c f nnp stop.
Proof.
  intros Hok. destruct (rule_ambient_sub c f Hok) as [Ha _]. unfold final_permitted, rule_permitted.
  case_if; by auto with caps.
Qed.

Lemma exec_rule_caps st c f nnp stop c' :
  caps_ok c → exec_rule st c f nnp stop = Some c' → caps_ok c' ∧ cred_ns c' = cred_ns c.
Proof.
  intros Hok. unfold exec_rule. case_if; [done|]. intros [= <-]. split; [|done].
  set (root := MapToKUID _ _ _). fold (final_permitted root c f nnp stop).
  pose proof (final_permitted_ambient root c f nnp stop Hok) as Ha.
  destruct (rule_ambient_sub c f Hok) as [Ha1 Ha2]. split; cbn; try done.
  - unfold rule_effective. case_if; by auto with caps.
  - unfold final_permitted. pose proof (rule_permitted_all root c f Hok). case_if; by auto with caps.
  - by auto with caps.
  - by auto with caps.
Qed.

(** Without a gain, or with one that is denied, permitted capabilities are kept or lost. *)
Lemma exec_rule_nnp st c f stop c' :
  exec_rule st c f true stop = Some c' → PermittedCaps c' ⊑c PermittedCaps c.
Proof.
  unfold exec_rule. case_if; [done|]. intros [= <-]. cbn. rewrite andb_true_r. case_if; [by auto with caps|].
  unfold exec_gains in *. to_prop. by apply IsSubsetOf_spec.
Qed.

Lemma exec_rule_kuids P st c f nnp stop c' :
  kuids P c → (SetUserID f ≠ NoID → P (SetUserID f)) → exec_rule st c f nnp stop = Some c' → kuids P c'.
Proof.
  intros (Hr & He & Hs) Hf. unfold exec_rule. case_if; [done|]. intros [= <-]. unfold kuids. cbn.
  assert (P (exec_euid c f)) by (unfold exec_euid, id_Ok; case_if; to_prop; auto). by case_if.
Qed.

Lemma exec_rule_kgids Q st c f nnp stop c' :
  kgids Q c → (SetGroupID f ≠ NoID → Q (SetGroupID f)) → exec_rule st c f nnp stop = Some c' → kgids Q c'.
Proof.
  intros (Hr & He & Hs & Hx) Hf. unfold exec_rule. case_if; [done|]. intros [= <-]. unfold kgids. cbn.
  assert (Q (exec_egid c f)) by (unfold exec_egid, id_Ok; case_if; to_prop; auto). by case_if.
Qed.
End Exec.
