(* ===== verification/PrivFacts.v ===== *)
(** * Steps of privileges

    What a call does to the identity of its caller ([call_step]), and the invariant that the
    credentials of all tasks are well formed. *)

From stdpp Require Import base numbers decidable gmap relations list.
From S2P Require Import IdMapSet Capability UserNs Credentials ExecCreds TaskIdentity IdentitySyscalls NsFacts.
From S2P Require Import Privileges CapFacts CredFacts ExecFacts Prelude.

Local Open Scope Z_scope.
Local Open Scope bits_scope.

Section Steps.
Context `{IML : IdMapSetLaws}.

(** The IDs that a file can give to a task. *)
Definition exec_allowed (st : ns_store) (t : task_identity) (P Q : Z → Prop) : Prop :=
  ∀ f allow, let f' := heeded_privs st (creds t) f (noNewPrivs t) allow in
  (SetUserID f' ≠ NoID → P (SetUserID f')) ∧ (SetGroupID f' ≠ NoID → Q (SetGroupID f')).

Record call_step (P Q : Z → Prop) (t t' : task_identity) : Prop := mkCallStep {
  cl_kuids : kuids P (creds t');
  cl_kgids : kgids Q (creds t');
  cl_caps : caps_ok (creds t');
  cl_ns : cred_ns (creds t') = cred_ns (creds t);
  cl_noNewPrivs : noNewPrivs t = true → noNewPrivs t' = true ∧ PermittedCaps (creds t') ⊑c PermittedCaps (creds t)
}.

Lemma call_step_of P Q t t' :
  caps_ok (creds t) → caps_step t t' → kuids P (creds t') → kgids Q (creds t') → call_step P Q t t'.
Proof. intros Hok [H1 H2 H3 H4 H5] Hu Hg. split; auto. Qed.

Lemma uid_call_step P Q t t' :
  caps_ok (creds t) → kgids Q (creds t) → uid_step P Q t t' → call_step P Q t t'.
Proof. intros Hok Hg [H1 H2 H3]. apply call_step_of; auto. Qed.

Lemma gid_call_step P Q t t' :
  caps_ok (creds t) → kuids P (creds t) → gid_step P Q t t' → call_step P Q t t'.
Proof. intros Hok Hg [H1 H2 H3]. apply call_step_of; auto. Qed.

Lemma caps_call_step P Q t t' :
  caps_ok (creds t) → kuids P (creds t) → kgids Q (creds t) → caps_step t t' ∧ same_ids (creds t) (creds t') →
  call_step P Q t t'.
Proof. intros Hok Hu Hg [H1 [H2 H3]]. apply call_step_of; auto. Qed.

Lemma execve_step P Q st t f tracer shared allow t' :
  caps_ok (creds t) → kuids P (creds t) → kgids Q (creds t) → exec_allowed st t P Q →
  execve st t f tracer shared allow = Ok t' → call_step P Q t t'.
Proof.
  intros Hok Hu Hg Hf E. unfold execve in E. rewrite ComputeCredsForExec_rule in E by done.
  destruct (Hf f allow) as [Hfu Hfg]. set (f' := heeded_privs _ _ _ _ _) in *.
  destruct (exec_rule _ _ _ _ _) as [c'|] eqn:Er; [|done]. injection E as <-.
  destruct (exec_rule_caps _ _ _ _ _ _ Hok Er) as [Hok' Hns]. split; simpl.
  - by eapply exec_rule_kuids.
  - by eapply exec_rule_kgids.
  - done.
  - done.
  - intros Hn. rewrite Hn in Er. split; [done|by eapply exec_rule_nnp].
Qed.

Lemma run_call_step P Q st t call t' :
  caps_ok (creds t) → kuids P (creds t) → kgids Q (creds t) →
  uids_allowed st (creds t) P → gids_allowed st (creds t) Q → exec_allowed st t P Q →
  run_call st t call = Ok t' → call_step P Q t t'.
Proof.
  intros Hok Hu Hg Hau Hag Hf E. destruct call; simpl in E.
  - by eapply uid_call_step, SetUID_step.
  - by eapply uid_call_step, SetREUID_step.
  - by eapply uid_call_step, SetRESUID_step.
  - by eapply gid_call_step, SetGID_step.
  - by eapply gid_call_step, SetREGID_step.
  - by eapply gid_call_step, SetRESGID_step.
  - by eapply gid_call_step, Setgroups_step.
  - by eapply caps_call_step, Capset_step.
  - destruct (Prctl t args) as [r|] eqn:Ep; [|injection E as <-; by apply caps_call_step; [..|split; [apply caps_step_same|split]]].
    apply bind_Ok in E as ([t2 v] & -> & [= <-]). by eapply caps_call_step, Prctl_step.
  - by eapply execve_step.
Qed.

(** Credentials in a new namespace. *)
Lemma fork_caps_ok c ns : caps_ok (ForkIntoUserNamespace c ns).
Proof. split; simpl; by auto with caps. Qed.

(** ** Well-formed credentials *)

Record creds_ok (K : known) (c : Credentials) : Prop := mkCredsOk {
  co_uids : kuids (.≠ NoID) c;
  co_gids : kgids (.≠ NoID) c;
  co_caps : caps_ok c;
  co_ns : knows K (cred_ns c)
}.

Definition typed (w : world) : Prop :=
  reachable (w_store w) (w_known w) ∧ Forall (λ t, creds_ok (w_known w) (creds t)) (w_tasks w).

Lemma creds_ok_fork K c ns : creds_ok K c → knows K ns → creds_ok K (ForkIntoUserNamespace c ns).
Proof. intros [H1 H2 _ _] Hk. split; [done|done|apply fork_caps_ok|done]. Qed.

(** A new namespace leaves the known ones known. *)
Lemma NewChild_knows st K c ns st' :
  world_ok st K → NewChildUserNamespace st c = Ok (ns, st') →
  knows (<[ns_id ns := ns]> K) ns ∧ (∀ ns', knows K ns' → knows (<[ns_id ns := ns]> K) ns').
Proof.
  intros Hw E. split; [apply lookup_insert_eq|]. intros ns' Hk.
  assert (ns_id ns = next_ns st) as Hid.
  { unfold NewChildUserNamespace in E. do 3 (case_if_in E; [done|]). by injection E as <- _. }
  destruct (world_knows _ _ _ Hw Hk) as [Hlt _]. unfold knows. rewrite lookup_insert_ne by lia. done.
Qed.

Lemma creds_ok_mono K K' c : (∀ ns, knows K ns → knows K' ns) → creds_ok K c → creds_ok K' c.
Proof. intros Hm [H1 H2 H3 H4]. split; auto. Qed.

Lemma Forall_creds_mono K K' ts :
  (∀ ns, knows K ns → knows K' ns) → Forall (λ t, creds_ok K (creds t)) ts → Forall (λ t, creds_ok K' (creds t)) ts.
Proof. intros Hm Ht. eapply Forall_impl; [exact Ht|]. intros t. by apply creds_ok_mono. Qed.

(** The namespace that unshare(2) and clone(2) create. *)
Lemma unshare_user_Ok st t chrooted ns st' t' :
  unshare_user st t chrooted = Ok (ns, st', t') →
  NewChildUserNamespace st (creds t) = Ok (ns, st') ∧ t' = store_creds t (ForkIntoUserNamespace (creds t) ns).
Proof.
  unfold unshare_user. case_if; [done|]. intros E. apply bind_Ok in E as ([ns1 st1] & E1 & [= -> -> <-]). done.
Qed.

Lemma clone_child_user_Ok st t dump chrooted ns st' t' :
  clone_child_user st t dump chrooted = Ok (ns, st', t') →
  NewChildUserNamespace st (creds t) = Ok (ns, st') ∧
  t' = mkIdentity (ForkIntoUserNamespace (creds t) ns) (noNewPrivs t) dump 0.
Proof.
  unfold clone_child_user. case_if; [done|]. intros E. apply bind_Ok in E as ([ns1 st1] & E1 & [= -> -> <-]). done.
Qed.

Lemma setns_user_Ok t ns single private t' :
  setns_user t ns single private = Ok t' →
  HasCapabilityIn (creds t) CAP_SYS_ADMIN ns = true ∧ t' = store_creds t (ForkIntoUserNamespace (creds t) ns).
Proof. unfold setns_user. do 4 (case_if; [done|]). intros [= <-]. by to_prop. Qed.

(** A step keeps the known namespaces. *)
Lemma step_knows w w' ns :
  reachable (w_store w) (w_known w) → step w w' → knows (w_known w) ns → knows (w_known w') ns.
Proof.
  intros Hw%reachable_world Hs. destruct Hs as [| ?????? ns' ? t' ? E| | |??????? ns' ? t' ? E| | |]; simpl in *; try done.
  - apply unshare_user_Ok in E as [E _]. by eapply NewChild_knows.
  - apply clone_child_user_Ok in E as [E _]. by eapply NewChild_knows.
Qed.

Lemma typed_step w w' : typed w → step w w' → typed w'.
Proof.
  intros [Hr Ht] Hs. pose proof (reachable_world _ _ Hr) as Hw.
  assert (Hget : ∀ i t, w_tasks w !! i = Some t → creds_ok (w_known w) (creds t)).
  { intros i t Hi. by eapply Forall_lookup_1 in Ht. }
  destruct Hs as [st K ts i t call t' Hi E|st K ts i t ch ns st' t' Hi E|st K ts i t ns si pr t' Hi Hk E|
                  st K ts i t dump Hi|st K ts i t dump ch ns st' t' Hi E|st K ts i t ns entries Hi Hk He|
                  st K ts i t ns entries Hi Hk He|st K ts i t ns allow Hi Hk]; specialize (Hget i t Hi); simpl in *.
  - split; [done|]. apply Forall_insert; [done|]. destruct Hget as [Hu Hg Hc Hns].
    destruct (run_call_step (.≠ NoID) (.≠ NoID) st t call t') as [Hu' Hg' Hc' Hns' _]; [done..|intros _ ? ?; done|
      intros _ ? ?; done|by split|done|]. split; [done..|]. by rewrite Hns'.
  - apply unshare_user_Ok in E as [E ->]. destruct (NewChild_knows _ _ _ _ _ Hw E) as [Hn Hm].
    split; simpl; [eapply reach_child; [done|by destruct Hget|done]|].
    apply Forall_insert; [by eapply Forall_creds_mono|]. apply creds_ok_fork; [by eapply creds_ok_mono|done].
  - apply setns_user_Ok in E as [_ ->]. split; [done|]. apply Forall_insert; [done|]. by apply creds_ok_fork.
  - split; [done|]. apply Forall_app. split; [done|]. by apply Forall_singleton.
  - apply clone_child_user_Ok in E as [E ->]. destruct (NewChild_knows _ _ _ _ _ Hw E) as [Hn Hm].
    split; simpl; [eapply reach_child; [done|by destruct Hget|done]|].
    apply Forall_app. split; [by eapply Forall_creds_mono|]. apply Forall_singleton.
    apply creds_ok_fork; [by eapply creds_ok_mono|done].
  - split; [|done]. apply reach_uid_map; [done|by destruct Hget|done|done].
  - split; [|done]. apply reach_gid_map; [done|by destruct Hget|done|done].
  - split; [|done]. apply reach_setgroups; [done|by destruct Hget|done].
Qed.
End Steps.
