(* ===== verification/Confinement.v ===== *)
(** * Confinement of unprivileged tasks

    A group of tasks with no_new_privs, one user and no capabilities: whatever system calls
    they make, with as many user namespaces as they like, they stay that user, get no group,
    and have no capability in a namespace that was there before. *)

From stdpp Require Import base numbers decidable gmap relations list.
From S2P Require Import IdMapSet Capability UserNs Credentials ExecCreds TaskIdentity IdentitySyscalls NsFacts.
From S2P Require Import NsProps Privileges CapFacts CredFacts ExecFacts PrivFacts Prelude.

Local Open Scope Z_scope.
Local Open Scope bits_scope.

Section Confined.
Context `{IML : IdMapSetLaws}.

(** The user [u] in the namespace [ns0], with groups in [G]; namespaces from the number [n0] on
    are new. *)
Variables (n0 : nat) (ns0 : UserNamespace) (u : Z) (G : list Z).

Definition is_new (ns : UserNamespace) : Prop := (n0 <= ns_id ns)%nat.

(** What may come out of the translation of a user or group ID of a new namespace. *)
Definition own_uid (x : Z) : Prop := x = u ∨ x = NoID.
Definition own_gid (x : Z) : Prop := x ∈ G ∨ x = NoID.

(** New namespaces are below [ns0] and map only to [u] and [G]; old ones right below it belong to
    other users. *)
Record ns_confined (st : ns_store) (K : known) : Prop := mkNsConfined {
  nc_ns0 : knows K ns0;
  nc_old : (ns_id ns0 < n0)%nat;
  nc_parent ns : knows K ns → is_new ns → ∃ p, parent ns = Some p ∧ (p = ns0 ∨ is_new p);
  nc_owner ns : knows K ns → ¬ is_new ns → parent ns = Some ns0 → owner ns ≠ u;
  nc_uids ns id : knows K ns → is_new ns → own_uid (MapToKUID st ns id);
  nc_gids ns id : knows K ns → is_new ns → own_gid (MapToKGID st ns id)
}.

Record confined (t : task_identity) : Prop := mkConfined {
  cf_noNewPrivs : noNewPrivs t = true;
  cf_uids : kuids (.= u) (creds t);
  cf_gids : kgids (.∈ G) (creds t);
  cf_caps : caps_ok (creds t);
  cf_place : (cred_ns (creds t) = ns0 ∧ PermittedCaps (creds t) = 0) ∨ is_new (cred_ns (creds t))
}.

Record group_confined (w : world) : Prop := mkGroup {
  gc_reach : reachable (w_store w) (w_known w);
  gc_next : (n0 <= next_ns (w_store w))%nat;
  gc_ns : ns_confined (w_store w) (w_known w);
  gc_tasks : Forall (λ t, confined t ∧ knows (w_known w) (cred_ns (creds t))) (w_tasks w)
}.

(** ** No capability in old namespaces *)

Lemma knows_same K ns ns' : knows K ns → knows K ns' → same_ns ns ns' = true → ns = ns'.
Proof. unfold knows, same_ns. intros H1 H2 E%Nat.eqb_eq. rewrite E in H1. congruence. Qed.

Lemma new_not_same ns ns' : is_new ns → ¬ is_new ns' → same_ns ns ns' = false.
Proof. unfold is_new, same_ns. intros. apply Nat.eqb_neq. lia. Qed.

Lemma old_no_cap st K t cp ns :
  world_ok st K → ns_confined st K → confined t → knows K ns → ¬ is_new ns → HasCapabilityIn (creds t) cp ns = false.
Proof.
  intros Hw Hn [_ (_ & Hu & _) _ Hok Hp]. induction ns as [i o b|i p o b IH] using UserNamespace_parent_ind; intros Hk Hold.
  - cbn [HasCapabilityIn]. destruct (same_ns _ _) eqn:Es; [|done].
    destruct Hp as [[Ens Hperm]|Hnew]; [|by rewrite (new_not_same _ _ Hnew Hold) in Es].
    apply negb_false_iff, Z.eqb_eq. eapply CapabilitySetOf_land_0; [by apply effective_permitted|]. rewrite Hperm. apply Z.land_0_r.
  - destruct (world_knows _ _ _ Hw Hk) as [_ (Hkp & Hlt & _)]. cbn [parent] in *.
    assert (Holdp : ¬ is_new p) by (unfold is_new in *; simpl in *; lia).
    cbn [HasCapabilityIn]. rewrite (IH Hkp Holdp). destruct (same_ns (cred_ns (creds t)) (mkUserNamespace i (Some p) o b)) eqn:Es.
    + destruct Hp as [[Ens Hperm]|Hnew]; [|by rewrite (new_not_same _ _ Hnew Hold) in Es].
      apply negb_false_iff, Z.eqb_eq. eapply CapabilitySetOf_land_0; [by apply effective_permitted|]. rewrite Hperm. apply Z.land_0_r.
    + destruct (same_ns (cred_ns (creds t)) p) eqn:Esp; simpl; [|done].
      destruct Hp as [[Ens Hperm]|Hnew]; [|by rewrite (new_not_same _ _ Hnew Holdp) in Esp].
      rewrite Ens in Esp. apply (knows_same K) in Esp as <-; [|by apply Hn|done].
      rewrite Hu. destruct (Z.eqb_spec u o) as [->|]; [|done].
      by destruct (nc_owner _ _ Hn _ Hk Hold eq_refl).
Qed.

(** ** Maps of new namespaces *)

Lemma maps_confined (sel : ns_state → idMapSet) (P : Z → Prop) st K st' ns s :
  world_ok st' K → knows K ns0 → (ns_id ns0 < n0)%nat →
  (∀ ns', knows K ns' → is_new ns' → ∃ p, parent ns' = Some p ∧ (p = ns0 ∨ is_new p)) →
  (∀ ns', state_of st' ns' = if (ns_id ns =? ns_id ns')%nat then s else state_of st ns') →
  knows K ns → is_new ns → (parent ns = Some ns0 → ∀ id, P (map_to_root sel st ns0 (mapID (sel s) id))) →
  (∀ ns' id, knows K ns' → is_new ns' → ns_id ns' ≠ ns_id ns → P (map_to_root sel st ns' id)) →
  ∀ ns' id, knows K ns' → is_new ns' → P (map_to_root sel st' ns' id).
Proof.
  intros Hw Hk0 Hlt0 Hpar Hst Hk Hnew Hwrite Hother ns' id Hk' Hnew'. revert id Hk' Hnew'.
  assert (Hold : ∀ p id, knows K p → (ns_id p < n0)%nat → map_to_root sel st' p id = map_to_root sel st p id).
  { induction p as [|i p o b IH] using UserNamespace_parent_ind; intros id Hkp Hlt; [done|]. cbn [map_to_root].
    rewrite Hst. destruct (Nat.eqb_spec (ns_id ns) (ns_id (mkUserNamespace i (Some p) o b))); [unfold is_new in *; simpl in *; lia|].
    destruct (world_knows _ _ _ Hw Hkp) as [_ (Hkpp & Hltp & _)]. simpl in *. apply IH; [done|lia]. }
  induction ns' as [i o b|i p o b IH] using UserNamespace_parent_ind; intros id Hk' Hnew'.
  { by destruct (Hpar _ Hk' Hnew') as (p & E & _). }
  destruct (Hpar _ Hk' Hnew') as (p' & [= <-] & Hp). destruct (world_knows _ _ _ Hw Hk') as [_ (Hkp & _)].
  cbn [map_to_root parent] in *. destruct Hp as [->|Hp]; [|by apply IH].
  rewrite Hold, Hst by done. destruct (Nat.eqb_spec (ns_id ns) (ns_id (mkUserNamespace i (Some ns0) o b))) as [E|Hne].
  - assert (mkUserNamespace i (Some ns0) o b = ns) as <-; [|by apply Hwrite].
    apply (knows_same K); [done|done|]. unfold same_ns. by rewrite E, Nat.eqb_refl.
  - apply (Hother (mkUserNamespace i (Some ns0) o b)); [done|done|congruence].
Qed.

Lemma ns_confined_write st K ns s :
  ns_confined st K → knows K ns → is_new ns → world_ok (set_state st ns s) K →
  (parent ns = Some ns0 → ∀ id, own_uid (MapToKUID st ns0 (mapID (uidMapToParent s) id))) →
  (parent ns = Some ns0 → ∀ id, own_gid (MapToKGID st ns0 (mapID (gidMapToParent s) id))) →
  ns_confined (set_state st ns s) K.
Proof.
  intros [H1 H2 H3 H4 H5 H6] Hk Hnew Hw Hu Hg. split; [done..| |]; intros ns' id Hk' Hnew'.
  - apply (maps_confined uidMapToParent own_uid st K _ ns s); try done; [intros; apply state_of_set|].
    intros ns2 id2 Hk2 Hn2 _. by apply H5.
  - apply (maps_confined gidMapToParent own_gid st K _ ns s); try done; [intros; apply state_of_set|].
    intros ns2 id2 Hk2 Hn2 _. by apply H6.
Qed.

(** A map that is not written leads where it led. *)
Lemma same_map_own (sel : ns_state → idMapSet) (P : Z → Prop) st K ns s :
  knows K ns → is_new ns → (∀ ns id, knows K ns → is_new ns → P (map_to_root sel st ns id)) →
  sel s = sel (state_of st ns) → parent ns = Some ns0 → ∀ id, P (map_to_root sel st ns0 (mapID (sel s) id)).
Proof.
  intros Hk Hn Hall E Hp id. specialize (Hall ns id Hk Hn). destruct ns as [i [p|] o b]; [|done].
  injection Hp as ->. cbn [map_to_root] in Hall. by rewrite E.
Qed.

(** An entry for one own ID leads to that ID. *)
Lemma single_own_image to_root entries kid id pid :
  single_own_id to_root entries kid = true → entry_image entries id = Some pid → to_root pid = kid.
Proof.
  unfold single_own_id. destruct entries as [|e [|]]; [done| |done]. intros [E1 E2]%andb_true_iff.
  apply Z.eqb_eq in E1, E2. rewrite entry_image_cons. case_decide; [|done]. intros [= <-].
  rewrite <- E1. f_equal. lia.
Qed.

Lemma uid_map_confined st K t ns entries :
  reachable st K → ns_confined st K → confined t → knows K (cred_ns (creds t)) → knows K ns → Forall entry_range entries →
  ns_confined (SetUIDMap st (creds t) ns entries).1 K.
Proof.
  intros Hr Hn Ht Hc Hk He. pose proof (reachable_world _ _ Hr) as Hw.
  pose proof (reachable_world _ _ (reach_uid_map _ _ _ _ _ Hr Hc Hk He)) as Hw'.
  destruct (le_dec n0 (ns_id ns)) as [Hnew|Hold].
  2: { unfold SetUIDMap. rewrite (old_no_cap st K t CAP_SETUID ns) by done. simpl. repeat case_if; done. }
  pose proof (SetUIDMap_result st K (creds t) ns entries Hw Hk He) as Hres.
  destruct (SetUIDMap st (creds t) ns entries) as [st' [r|err|]]; simpl in *; [| |done].
  - destruct Hres as (p & from & to & Hp & [_ _ Hown] & -> & [_ Hto _ _] & _ & _ & _ & Himg).
    apply ns_confined_write; [done..| |].
    + intros E id. rewrite E in Hp. injection Hp as <-. cbn [uidMapToParent set_uid_maps].
      rewrite mapID_image, Himg by done. destruct (entry_image entries id) as [pid|] eqn:Ei; [|right; apply map_to_root_NoID].
      destruct Hown as [Hcap|[Hs _]].
      * rewrite (old_no_cap st K) in Hcap; [done|done..|apply Hn|]. destruct Hn. unfold is_new. lia.
      * left. etransitivity; [exact (single_own_image _ _ _ _ _ Hs Ei)|]. by destruct Ht as [_ (_ & ? & _) _ _ _].
    + apply (same_map_own _ _ _ K); [done|done|apply Hn|done].
  - destruct Hres as [->|(p & Hp & -> & _ & _)]; [done|]. apply ns_confined_write; [done..| |].
    + intros _ id. right. cbn [uidMapToParent set_uid_maps]. rewrite mapID_image, image_empty by apply empty_set_ok. apply map_to_root_NoID.
    + apply (same_map_own _ _ _ K); [done|done|apply Hn|done].
Qed.

Lemma gid_map_confined st K t ns entries :
  reachable st K → ns_confined st K → confined t → knows K (cred_ns (creds t)) → knows K ns → Forall entry_range entries →
  ns_confined (SetGIDMap st (creds t) ns entries).1 K.
Proof.
  intros Hr Hn Ht Hc Hk He. pose proof (reachable_world _ _ Hr) as Hw.
  pose proof (reachable_world _ _ (reach_gid_map _ _ _ _ _ Hr Hc Hk He)) as Hw'.
  destruct (le_dec n0 (ns_id ns)) as [Hnew|Hold].
  2: { unfold SetGIDMap. rewrite (old_no_cap st K t CAP_SETGID ns) by done. simpl. repeat case_if; done. }
  pose proof (SetGIDMap_result st K (creds t) ns entries Hw Hk He) as Hres.
  destruct (SetGIDMap st (creds t) ns entries) as [st' [r|err|]]; simpl in *; [| |done].
  - destruct Hres as (p & from & to & Hp & [_ _ Hown] & -> & [_ Hto _ _] & _ & _ & _ & Himg).
    apply ns_confined_write; [done..|apply (same_map_own _ _ _ K); [done|done|apply Hn|done]|].
    intros E id. rewrite E in Hp. injection Hp as <-. cbn [gidMapToParent set_gid_maps].
    rewrite mapID_image, Himg by done. destruct (entry_image entries id) as [pid|] eqn:Ei; [|right; apply map_to_root_NoID].
    destruct Hown as [Hcap|[Hs _]].
    + rewrite (old_no_cap st K) in Hcap; [done|done..|apply Hn|]. destruct Hn. unfold is_new. lia.
    + left. simpl. rewrite (single_own_image _ _ _ _ _ Hs Ei). by destruct Ht as [_ _ (_ & ? & _) _ _].
  - destruct Hres as [->|(p & Hp & -> & _ & _)]; [done|].
    apply ns_confined_write; [done..|apply (same_map_own _ _ _ K); [done|done|apply Hn|done]|].
    intros _ id. right. cbn [gidMapToParent set_gid_maps]. rewrite mapID_image, image_empty by apply empty_set_ok. apply map_to_root_NoID.
Qed.

Lemma setgroups_confined st K t ns allow :
  reachable st K → ns_confined st K → confined t → knows K (cred_ns (creds t)) → knows K ns →
  ns_confined (SetSetgroupsAllowed st (creds t) ns allow).1 K.
Proof.
  intros Hr Hn Ht Hc Hk. pose proof (reachable_world _ _ Hr) as Hw.
  pose proof (reachable_world _ _ (reach_setgroups _ _ _ _ allow Hr Hc Hk)) as Hw'.
  destruct (le_dec n0 (ns_id ns)) as [Hnew|Hold].
  2: { unfold SetSetgroupsAllowed. by rewrite (old_no_cap st K t CAP_SYS_ADMIN ns). }
  unfold SetSetgroupsAllowed in *. destruct (negb _); [done|]. destruct allow; [by destruct (negb _)|].
  destruct (negb _); [done|]. apply ns_confined_write; [done..| |].
  - apply (same_map_own _ _ _ K); [done|done|apply Hn|done].
  - apply (same_map_own _ _ _ K); [done|done|apply Hn|done].
Qed.

(** ** New namespaces *)

Lemma NewChild_Ok st c ns st' :
  NewChildUserNamespace st c = Ok (ns, st') →
  ns_id ns = next_ns st ∧ parent ns = Some (cred_ns c) ∧
  ∃ b, st' = set_state (mkStore (S (next_ns st)) (states st)) ns (set_setgroups ns_state0 b).
Proof. unfold NewChildUserNamespace. do 3 (case_if; [done|]). intros [= <- <-]. eauto. Qed.

Lemma child_confined st K t ns st' :
  reachable st K → (n0 <= next_ns st)%nat → ns_confined st K → confined t → knows K (cred_ns (creds t)) →
  NewChildUserNamespace st (creds t) = Ok (ns, st') →
  is_new ns ∧ ns_confined st' (<[ns_id ns := ns]> K) ∧ (n0 <= next_ns st')%nat.
Proof.
  intros Hr Hnext Hn Ht Hc E. pose proof (reachable_world _ _ Hr) as Hw.
  pose proof (reachable_world _ _ (reach_child _ _ _ _ _ Hr Hc E)) as Hw'.
  destruct (NewChild_knows _ _ _ _ _ Hw E) as [Hkn Hm].
  apply NewChild_Ok in E as (Hid & Hp & b & ->).
  assert (Hnew : is_new ns) by (unfold is_new; lia). split; [done|]. split; [|simpl; lia].
  assert (Hinv : ∀ ns', knows (<[ns_id ns := ns]> K) ns' → ns' = ns ∨ (knows K ns' ∧ ns_id ns' ≠ ns_id ns)).
  { intros ns' Hk'. unfold knows in Hk'. destruct (decide (ns_id ns = ns_id ns')) as [Ei|Hne].
    - left. rewrite Ei, lookup_insert_eq in Hk'. by injection Hk'.
    - right. rewrite lookup_insert_ne in Hk' by done. by split. }
  destruct Hn as [H1 H2 H3 H4 H5 H6].
  assert (Hpar : ∀ ns', knows (<[ns_id ns := ns]> K) ns' → is_new ns' → ∃ p, parent ns' = Some p ∧ (p = ns0 ∨ is_new p)).
  { intros ns' [->|[Hk' _]]%Hinv Hn'; [|by apply H3]. exists (cred_ns (creds t)). split; [done|].
    destruct Ht as [_ _ _ _ [[? _]|?]]; auto. }
  split; [by apply Hm|done|done| | |].
  - intros ns' [->|[Hk' _]]%Hinv Hold; [done|by apply H4].
  - intros ns' id Hk' Hn'. eapply (maps_confined uidMapToParent own_uid st); [exact Hw'|by apply Hm|done|done|
      intros ns2; exact (state_of_set (mkStore (S (next_ns st)) (states st)) ns _ ns2)|done|done| | |done|done].
    + intros _ id'. simpl. rewrite mapID_image, image_empty by apply empty_set_ok. right. apply map_to_root_NoID.
    + intros ns2 id2 [->|[Hk2 _]]%Hinv Hn2 Hne; [done|by apply H5].
  - intros ns' id Hk' Hn'. eapply (maps_confined gidMapToParent own_gid st); [exact Hw'|by apply Hm|done|done|
      intros ns2; exact (state_of_set (mkStore (S (next_ns st)) (states st)) ns _ ns2)|done|done| | |done|done].
    + intros _ id'. simpl. rewrite mapID_image, image_empty by apply empty_set_ok. right. apply map_to_root_NoID.
    + intros ns2 id2 [->|[Hk2 _]]%Hinv Hn2 Hne; [done|by apply H6].
Qed.

(** ** Steps *)

Lemma confined_fork t ns dump sig :
  confined t → is_new ns → confined (mkIdentity (ForkIntoUserNamespace (creds t) ns) (noNewPrivs t) dump sig).
Proof. intros [H1 H2 H3 H4 _] Hn. split; [done..|apply fork_caps_ok|by right]. Qed.

Lemma confined_call st K t call t' :
  ns_confined st K → confined t → knows K (cred_ns (creds t)) → run_call st t call = Ok t' →
  confined t' ∧ cred_ns (creds t') = cred_ns (creds t).
Proof.
  intros Hn [H1 H2 H3 H4 H5] Hk E.
  assert (Hself : HasSelfCapability (creds t) = λ cp, negb (CapabilitySetOf cp .& EffectiveCaps (creds t) =? 0)).
  { unfold HasSelfCapability. destruct (cred_ns (creds t)) as [i p o b] eqn:Ens. cbn [HasCapabilityIn].
    unfold same_ns. by rewrite Ens, Nat.eqb_refl. }
  assert (Hcap : ∀ cp, HasSelfCapability (creds t) cp = true → is_new (cred_ns (creds t))).
  { intros cp. rewrite Hself. destruct H5 as [[_ Hp]|?]; [|done].
    intros Hne%negb_true_iff%Z.eqb_neq. destruct Hne. eapply CapabilitySetOf_land_0; [by apply effective_permitted|].
    rewrite Hp. apply Z.land_0_r. }
  destruct (run_call_step (.= u) (.∈ G) st t call t') as [Hu Hg Hc Hns Hnn]; [done|done|done|..|done|].
  - intros Hs%Hcap uid Hid. by destruct (nc_uids _ _ Hn _ uid Hk Hs).
  - intros Hs%Hcap gid Hid. by destruct (nc_gids _ _ Hn _ gid Hk Hs).
  - intros f allow f'. destruct (heeded_privs_spec st (creds t) f (noNewPrivs t) allow) as [Eu Eg _ _ _ _].
    fold f' in Eu, Eg. rewrite H1 in Eu, Eg. by rewrite Eu, Eg.
  - destruct (Hnn H1) as [Hnn' Hperm]. split; [|done]. split; [done..|].
    rewrite Hns. destruct H5 as [[Ens Hp]|?]; [left|by right]. split; [done|]. apply subcaps_0_r. by rewrite <- Hp.
Qed.

Lemma group_confined_step w w' : group_confined w → step w w' → group_confined w'.
Proof.
  intros [Hr Hnext Hn Ht] Hs. pose proof (reachable_world _ _ Hr) as Hw.
  assert (Hget : ∀ i t, w_tasks w !! i = Some t → confined t ∧ knows (w_known w) (cred_ns (creds t))).
  { intros i t Hi. by eapply Forall_lookup_1 in Ht. }
  destruct Hs as [st K ts i t call t' Hi E|st K ts i t ch ns st' t' Hi E|st K ts i t ns si pr t' Hi Hk E|
                  st K ts i t dump Hi|st K ts i t dump ch ns st' t' Hi E|st K ts i t ns entries Hi Hk He|
                  st K ts i t ns entries Hi Hk He|st K ts i t ns allow Hi Hk]; destruct (Hget i t Hi) as [Hc Hkn]; simpl in *.
  - split; [done..|]. apply Forall_insert; [done|]. destruct (confined_call st K t call t') as [Hc' ->]; done.
  - apply unshare_user_Ok in E as [E ->]. destruct (child_confined _ _ _ _ _ Hr Hnext Hn Hc Hkn E) as (Hnew & Hn' & Hnx).
    destruct (NewChild_knows _ _ _ _ _ Hw E) as [Hkns Hm].
    split; [by eapply reach_child|done|done|]. apply Forall_insert.
    + eapply Forall_impl; [done|]. naive_solver.
    + split; [by apply confined_fork|done].
  - apply setns_user_Ok in E as [Hcap ->]. split; [done..|]. apply Forall_insert; [done|]. split; [|done].
    apply confined_fork; [done|]. destruct (le_dec n0 (ns_id ns)); [done|]. by rewrite (old_no_cap st K) in Hcap.
  - split; [done..|]. apply Forall_app. split; [done|]. apply Forall_singleton. split; [|done]. by destruct Hc.
  - apply clone_child_user_Ok in E as [E ->]. destruct (child_confined _ _ _ _ _ Hr Hnext Hn Hc Hkn E) as (Hnew & Hn' & Hnx).
    destruct (NewChild_knows _ _ _ _ _ Hw E) as [Hkns Hm].
    split; [by eapply reach_child|done|done|]. apply Forall_app. split.
    + eapply Forall_impl; [done|]. naive_solver.
    + apply Forall_singleton. split; [by apply confined_fork|done].
  - split; [by apply reach_uid_map| |by apply uid_map_confined|done].
    simpl. unfold SetUIDMap. repeat case_match; simpl; done.
  - split; [by apply reach_gid_map| |by apply gid_map_confined|done].
    simpl. unfold SetGIDMap. repeat case_match; simpl; done.
  - split; [by apply reach_setgroups| |by apply setgroups_confined|done].
    simpl. unfold SetSetgroupsAllowed. repeat case_match; simpl; done.
Qed.

Lemma group_confined_steps w w' :
  group_confined w → rtc step w w' → group_confined w' ∧ ∀ ns, knows (w_known w) ns → knows (w_known w') ns.
Proof.
  intros Hw Hs. induction Hs as [|w1 w2 w3 Hs _ IH]; [done|].
  destruct IH as [Hg Hk]; [by eapply group_confined_step|]. split; [done|]. intros ns Hns.
  apply Hk. eapply step_knows; [by apply Hw|done|done].
Qed.
End Confined.

(** ** Where it starts *)

(** Tasks of the user [u] in [ns0], with groups in [G] and without capabilities. *)
Definition unprivileged (ns0 : UserNamespace) (u : Z) (G : list Z) (t : task_identity) : Prop :=
  noNewPrivs t = true ∧ cred_ns (creds t) = ns0 ∧ kuids (.= u) (creds t) ∧ kgids (.∈ G) (creds t) ∧
  caps_ok (creds t) ∧ PermittedCaps (creds t) = 0.

Lemma group_confined_start `{IML : IdMapSetLaws} st K ns0 u G ts :
  reachable st K → knows K ns0 → (∀ ns, knows K ns → parent ns = Some ns0 → owner ns ≠ u) →
  Forall (unprivileged ns0 u G) ts →
  group_confined (next_ns st) ns0 u G (mkWorld st K ts) ∧ ∀ ns, knows K ns → ¬ is_new (next_ns st) ns.
Proof.
  intros Hr Hk Hown Hts. pose proof (reachable_world _ _ Hr) as Hw.
  assert (Hknown : ∀ ns, knows K ns → ¬ is_new (next_ns st) ns).
  { intros ns Hkn. destruct (world_knows _ _ _ Hw Hkn) as [Hlt _]. unfold is_new. lia. }
  split; [|done]. split; [done|done| |].
  - split; simpl; [done|by destruct (world_knows _ _ _ Hw Hk)| |by auto|..]; intros ns; intros; by destruct (Hknown ns).
  - eapply Forall_impl; [exact Hts|]. intros t (H1 & H2 & H3 & H4 & H5 & H6). split; [|by rewrite H2].
    split; [done..|by left].
Qed.
