(* ===== verification/FileCaps.v ===== *)
(** * File capabilities

    Capabilities of files that are set and read in a user namespace
    ([FixupVfsCapDataOnSet], [FixupVfsCapDataOnGet]). *)

From stdpp Require Import base numbers decidable gmap list.
From S2P Require Import IdMapSet Capability UserNs Credentials ExecCreds NsFacts NsProps CapFacts Prelude.

Local Open Scope Z_scope.
Local Open Scope bits_scope.

(** ** Headers *)

Lemma and_not_flag m r : and_not m VFS_CAP_FLAGS_EFFECTIVE = r → m = r ∨ m = r + 1.
Proof.
  unfold and_not. change 1 with (Z.ones 1).
  rewrite Z.ldiff_ones_r, Z.shiftl_mul_pow2, Z.shiftr_div_pow2 by lia. intros <-.
  pose proof (Z.div_mod m (2 ^ 1)). pose proof (Z.mod_pos_bound m (2 ^ 1)). change (Z.ones 1) with 1. lia.
Qed.

Lemma magic_v2 m : and_not m VFS_CAP_FLAGS_EFFECTIVE = VFS_CAP_REVISION_2 → m .& VFS_CAP_REVISION_MASK = VFS_CAP_REVISION_2.
Proof. by intros [->| ->]%and_not_flag. Qed.

Lemma magic_v3 m : and_not m VFS_CAP_FLAGS_EFFECTIVE = VFS_CAP_REVISION_3 → m .& VFS_CAP_REVISION_MASK ≠ VFS_CAP_REVISION_2.
Proof. by intros [->| ->]%and_not_flag. Qed.

Section Parse.
Context `{CML : CapMarshalLaws}.

(** Values of the extended attribute that the kernel accepts, and what they mean. *)
Inductive parses (value : list Z) (v : VfsNsCapData) : Prop :=
  | parses_v2 : length value = XATTR_CAPS_SZ_2 → v = mkVfsNsCap (unmarshal_v2 value) 0 →
      and_not (MagicEtc (VfsCap v)) VFS_CAP_FLAGS_EFFECTIVE = VFS_CAP_REVISION_2 → parses value v
  | parses_v3 : length value = XATTR_CAPS_SZ_3 → v = unmarshal_v3 value →
      and_not (MagicEtc (VfsCap v)) VFS_CAP_FLAGS_EFFECTIVE = VFS_CAP_REVISION_3 → parses value v.

Lemma VfsCapDataOf_spec value v : VfsCapDataOf value = Ok v ↔ parses value v.
Proof.
  unfold VfsCapDataOf. split.
  - destruct (Nat.eqb_spec (length value) XATTR_CAPS_SZ_2) as [E2|N2], (Nat.eqb_spec (length value) XATTR_CAPS_SZ_3) as [E3|N3];
      simpl; [lia|..|done].
    + rewrite orb_false_r. case_if; [done|]. intros [= <-]. to_prop. by apply parses_v2.
    + case_if; [done|]. intros [= <-]. to_prop. by apply parses_v3.
  - intros [E -> Hm|E -> Hm]; rewrite E; simpl in *; by rewrite Hm.
Qed.

Lemma parses_range value v : Forall in_u8 value → parses value v → vfs_range (VfsCap v) ∧ in_u32 (RootID v).
Proof.
  intros Hb [E -> _|E -> _].
  - destruct (marshal_unmarshal_v2 value Hb E) as [Hr _]. by split.
  - by destruct (marshal_unmarshal_v3 value Hb E) as (Hr & Hi & _).
Qed.

(** The two forms of capabilities, and reading them back. *)
Lemma set_magic_range c m : vfs_range c → in_u32 m → vfs_range (set_MagicEtc c m).
Proof. by intros (_ & ? & ? & ? & ?) Hm. Qed.

(** The header of a value that is accepted is one of four. *)
Lemma parses_magic value v :
  parses value v →
  (IsRevision2 (VfsCap v) = true ∧ RootID v = 0 ∧
   (MagicEtc (VfsCap v) = VFS_CAP_REVISION_2 ∨ MagicEtc (VfsCap v) = VFS_CAP_REVISION_2 + 1)) ∨
  (IsRevision2 (VfsCap v) = false ∧
   (MagicEtc (VfsCap v) = VFS_CAP_REVISION_3 ∨ MagicEtc (VfsCap v) = VFS_CAP_REVISION_3 + 1)).
Proof.
  unfold IsRevision2. intros [_ Ev Hm|_ Ev Hm]; [left|right]; apply and_not_flag in Hm as [Hm|Hm]; rewrite Hm; subst v; auto.
Qed.

Lemma ConvertToV3_parses value v rootID :
  Forall in_u8 value → parses value v → in_u32 rootID →
  let v' := ConvertToV3 v rootID in
  vfsns_ToString v' = marshal_v3 v' ∧ parses (marshal_v3 v') v'.
Proof.
  intros Hb Hp Hi. destruct (parses_range value v Hb Hp) as [Hr _].
  assert (Hsplit : ∀ m, m = VFS_CAP_REVISION_3 ∨ m = VFS_CAP_REVISION_3 + 1 →
    let v' := mkVfsNsCap (set_MagicEtc (VfsCap v) m) rootID in
    vfsns_ToString v' = marshal_v3 v' ∧ parses (marshal_v3 v') v').
  { intros m Hm v'. split; [unfold vfsns_ToString, IsRevision2; by destruct Hm as [-> | ->]|].
    apply parses_v3; [apply marshal_v3_length| |by destruct Hm as [-> | ->]].
    symmetry. apply unmarshal_marshal_v3; [|done]. apply set_magic_range; [done|]. unfold in_u32. destruct Hm; subst m; vm_compute; split; congruence. }
  unfold ConvertToV3. destruct (parses_magic value v Hp) as [(-> & _ & Hm)|[-> Hm]].
  - apply Hsplit. destruct Hm as [-> | ->]; auto.
  - specialize (Hsplit _ Hm). by destruct v as [[] ?].
Qed.

(** ** Values that are set and read *)

Context `{IML : IdMapSetLaws}.

Lemma Root_parent ns : parent (Root ns) = None.
Proof. induction ns using UserNamespace_parent_ind; done. Qed.

Lemma Root_knows st K ns : world_ok st K → knows K ns → knows K (Root ns).
Proof.
  intros Hw. induction ns as [|i p o b IH] using UserNamespace_parent_ind; intros Hk; [done|].
  apply IH. by destruct (world_knows _ _ _ Hw Hk) as [_ (? & _)].
Qed.

(** Capabilities in the root namespace are those of credentials in it. *)
Lemma root_capability st K c cp :
  world_ok st K → knows K (cred_ns c) → HasRootCapability c cp = true → parent (cred_ns c) = None.
Proof.
  intros Hw Hk Hr. pose proof (Root_parent (cred_ns c)) as Hp. pose proof (Root_knows _ _ _ Hw Hk) as Hkr.
  unfold HasRootCapability in Hr. destruct (Root (cred_ns c)) as [i [p|] o b] eqn:ER; [done|].
  cbn [HasCapabilityIn] in Hr. destruct (same_ns _ _) eqn:Es; [|done].
  unfold same_ns in Es. apply Nat.eqb_eq in Es. unfold knows in *. rewrite Es in Hk. rewrite Hkr in Hk.
  injection Hk as Hk. by rewrite <- Hk.
Qed.

Lemma root_owns_self st c rootID :
  rootID ≠ NoID → MapFromKUID st (cred_ns c) rootID = RootUID → rootIDOwnsCurrentUserns st c rootID = true.
Proof.
  intros Hn E. unfold rootIDOwnsCurrentUserns, id_Ok. apply Z.eqb_neq in Hn. rewrite Hn. simpl.
  destruct (cred_ns c) as [i [p|] o b]; cbn [root_owns]; by rewrite E.
Qed.

(** The form in which capabilities of the own root user are read: version 2. *)
Definition read_form (value : list Z) (v : VfsNsCapData) : list Z :=
  if negb (IsRevision2 (VfsCap v)) && (RootID v =? 0) then vfsns_ToString (ConvertToV2 v) else value.

Lemma to_string_v2 value v :
  Forall in_u8 value → parses value v → IsRevision2 (VfsCap v) = true → vfsns_ToString v = value.
Proof.
  intros Hb Hp Hr. unfold vfsns_ToString. rewrite Hr. destruct Hp as [E -> _|_ _ Hm].
  - by apply marshal_unmarshal_v2.
  - apply magic_v3 in Hm. unfold IsRevision2 in Hr. apply Z.eqb_eq in Hr. done.
Qed.

Lemma to_string_v3 value v :
  Forall in_u8 value → parses value v → IsRevision2 (VfsCap v) = false → vfsns_ToString v = value.
Proof.
  intros Hb Hp Hr. unfold vfsns_ToString. rewrite Hr. destruct Hp as [_ _ Hm|E -> _].
  - apply magic_v2 in Hm. unfold IsRevision2 in Hr. apply Z.eqb_neq in Hr. done.
  - by apply marshal_unmarshal_v3.
Qed.

(** Reading back what [ConvertToV3] made. *)
Lemma ConvertToV2_V3 value v rootID :
  Forall in_u8 value → parses value v → RootID v = 0 → vfsns_ToString (ConvertToV2 (ConvertToV3 v rootID)) = read_form value v.
Proof.
  intros Hb Hp Hz. unfold read_form. rewrite Hz. simpl. rewrite andb_true_r.
  destruct (parses_magic value v Hp) as [(Hr & _ & Hm)|[Hr Hm]]; rewrite Hr; simpl.
  - rewrite <- (to_string_v2 value v) by done. unfold ConvertToV3. rewrite Hr. f_equal. destruct v as [[m ? ? ? ?] r]; simpl in *.
    unfold ConvertToV2, IsRevision2, set_MagicEtc. subst r. destruct Hm as [-> | ->]; reflexivity.
  - unfold ConvertToV3. rewrite Hr. unfold ConvertToV2. simpl. by rewrite Hr.
Qed.

Lemma fixup_set_get st K c value v kuid kgid value' :
  world_ok st K → knows K (cred_ns c) → Forall in_u8 value → VfsCapDataOf value = Ok v →
  FixupVfsCapDataOnSet st c value kuid kgid = Ok value' →
  FixupVfsCapDataOnGet st c value' = Ok (read_form value v).
Proof.
  intros Hw Hk Hb Hv E. pose proof Hv as Hp%VfsCapDataOf_spec. unfold FixupVfsCapDataOnSet in E. rewrite Hv in E.
  simpl in E. case_if_in E; [done|]. case_if_in E.
  - injection E as <-. to_prop. assert (Hnone := root_capability _ _ _ _ Hw Hk ltac:(done)).
    destruct (parses_magic value v Hp) as [(Hr & Hz & Hm)|[Hr _]]; [|congruence].
    assert (Hmap : MapFromKUID st (cred_ns c) 0 = 0) by (by destruct (cred_ns c) as [? [?|] ? ?]).
    unfold FixupVfsCapDataOnGet. rewrite Hv. simpl. rewrite Hz, Hmap, (root_owns_self st c 0) by done. simpl.
    unfold read_form, ConvertToV2. rewrite Hr. simpl. rewrite <- (to_string_v2 value v) by done. by destruct v as [? ?]; simpl in *; subst.
  - case_if_in E; [done|]. injection E as <-. unfold id_Ok in *. to_prop.
    set (rootID := MapToKUID st (cred_ns c) (RootID v)) in *.
    assert (Hroot : MapFromKUID st (cred_ns c) rootID = RootID v) by (by apply (map_to_from st K Users)).
    destruct (parses_range value v Hb Hp) as [_ Hi].
    destruct (ConvertToV3_parses value v rootID Hb Hp) as [-> Hp']; [by apply map_to_root_range|].
    unfold FixupVfsCapDataOnGet. apply VfsCapDataOf_spec in Hp' as ->. simpl.
    replace (RootID (ConvertToV3 v rootID)) with rootID by (unfold ConvertToV3; by case_if).
    rewrite Hroot. unfold id_Ok. destruct (Z.eqb_spec (RootID v) RootUID) as [E0|N0].
    + rewrite andb_false_r, root_owns_self by (done || congruence). simpl. by rewrite (ConvertToV2_V3 value).
    + destruct (Z.eqb_spec (RootID v) NoID) as [En|_].
      { exfalso. match goal with Hn : rootID ≠ NoID |- _ => apply Hn end. unfold rootID. rewrite En. apply map_to_root_NoID. }
      simpl. unfold read_form. apply Z.eqb_neq in N0. rewrite N0, andb_false_r.
      destruct (parses_magic value v Hp) as [(_ & Hz & _)|[Hr _]]; [by apply Z.eqb_neq in N0|].
      unfold ConvertToV3. rewrite Hr. simpl. rewrite Hr. rewrite <- (to_string_v3 value v) by done. by destruct v.
Qed.
End Parse.

(** ** Little-endian structs *)

Lemma field_range b i : Forall in_u8 b → in_u32 (field b i).
Proof.
  intros Hb. unfold field. set (l := take 4 (drop (4 * i) b)).
  assert (Hl : Forall in_u8 l) by (by apply Forall_take, Forall_drop).
  rewrite <- (le_bytes_value l Hl), le_value_bytes.
  assert (Hlen : (length l <= 4)%nat) by (unfold l; rewrite length_take; lia).
  pose proof (Z.mod_pos_bound (le_value l) (2 ^ (8 * Z.of_nat (length l)))) as Hm.
  pose proof (Z.pow_le_mono_r 2 (8 * Z.of_nat (length l)) 32). unfold in_u32. lia.
Qed.

Lemma le_field b i : Forall in_u8 b → (4 * i + 4 <= length b)%nat → le_bytes 4 (field b i) = take 4 (drop (4 * i) b).
Proof.
  intros Hb Hl. unfold field. set (l := take 4 (drop (4 * i) b)).
  assert (Hlen : length l = 4%nat) by (unfold l; rewrite length_take, length_drop; lia).
  rewrite <- Hlen. apply le_bytes_value. by apply Forall_take, Forall_drop.
Qed.

Lemma le_value_u32 v : in_u32 v → le_value (le_bytes 4 v) = v.
Proof. intros Hv. rewrite le_value_bytes. by apply Z.mod_small. Qed.

Lemma vfs_of_range b : Forall in_u8 b → vfs_range (vfs_of b).
Proof. intros Hb. split_and!; by apply field_range. Qed.

Lemma vfs_of_le c rest : vfs_range c → vfs_of (le_vfs c ++ rest) = c.
Proof.
  intros (H1 & H2 & H3 & H4 & H5). destruct c as [m pl il ph ih]. unfold vfs_of.
  f_equal; [by apply (le_value_u32 m)|by apply (le_value_u32 pl)|by apply (le_value_u32 il)|
    by apply (le_value_u32 ph)|by apply (le_value_u32 ih)].
Qed.

Lemma le_vfs_of b rest : Forall in_u8 b → length b = XATTR_CAPS_SZ_2 → le_vfs (vfs_of (b ++ rest)) = b.
Proof.
  intros Hb Hl.
  replace (vfs_of (b ++ rest)) with (vfs_of b).
  2: { do 20 (destruct b as [|? b]; [done|]). by destruct b. }
  unfold le_vfs, vfs_of. cbn [MagicEtc PermittedLo InheritableLo PermittedHi InheritableHi].
  rewrite !le_field by (done || lia). do 20 (destruct b as [|? b]; [done|]). by destruct b.
Qed.

#[local] Existing Instance le_cap_marshal.

Lemma le_cap_laws : CapMarshalLaws.
Proof.
  split.
  - done.
  - done.
  - intros c Hc. simpl. rewrite <- (app_nil_r (le_vfs c)). by apply vfs_of_le.
  - intros [c r] Hc Hr. simpl in *. f_equal; [by apply vfs_of_le|]. by apply (le_value_u32 r).
  - intros b Hb Hl. split; [by apply vfs_of_range|]. simpl. rewrite <- (app_nil_r b) at 1. by apply le_vfs_of.
  - intros b Hb Hl. split; [by apply vfs_of_range|]. split; [by apply field_range|].
    cbn [marshal_v3 unmarshal_v3 le_cap_marshal VfsCap RootID]. rewrite le_field by (done || lia).
    rewrite <- (take_drop 20 b) at 1. rewrite le_vfs_of; [|by apply Forall_take|rewrite length_take; lia].
    rewrite <- (take_drop 20 b) at 3. f_equal. apply take_ge. rewrite length_drop. lia.
Qed.
