(* ===== verification/PrivProps.v ===== *)
(** * Properties of privileges

    The main theorems on credentials: they are well formed, exec follows the documented rules,
    tasks with no_new_privs are confined, and the system calls that set and get IDs and
    capabilities agree. *)

From stdpp Require Import base numbers decidable strings gmap relations list.
From S2P Require Import IdMapBtree IdMapSet Capability UserNs Credentials ExecCreds TaskIdentity IdentitySyscalls NsFacts.
From S2P Require Import NsProps Privileges CapFacts CredFacts ExecFacts PrivFacts Confinement FileCaps Prelude.

Local Open Scope Z_scope.
Local Open Scope bits_scope.

(** ** Samples *)

#[local] Existing Instance btree.
#[local] Existing Instance btree_laws.

(** An ordinary user of the root namespace, with no_new_privs. *)
Definition user_creds : Credentials := NewUserCredentials 1000 1000 [27] None root_ns.

Definition user_task : task_identity := mkIdentity user_creds true UserDumpable 0.

Definition user_world : world := mkWorld root_store (<[0%nat := root_ns]> ∅) [user_task].

(** It creates a namespace, maps its own ID to root there, and becomes root. *)
Definition user_ns : UserNamespace := mkUserNamespace 1 (Some root_ns) 1000 false.

Definition user_store : ns_store :=
  match NewChildUserNamespace root_store user_creds with Ok (_, st) => st | _ => root_store end.

Definition forked_task : task_identity := mkIdentity (ForkIntoUserNamespace user_creds user_ns) true UserDumpable 0.

Definition user_mapped : ns_store := (SetUIDMap user_store (creds forked_task) user_ns [mkIDMapEntry 0 1000 1]).1.

Definition user_known : gmap nat UserNamespace := <[1%nat := user_ns]> (<[0%nat := root_ns]> ∅).

Lemma user_caps_ok : caps_ok user_creds.
Proof. split; simpl; by auto with caps. Qed.

Lemma user_unshare : unshare_user root_store user_task false = Ok (user_ns, user_store, forked_task).
Proof. reflexivity. Qed.

Lemma user_run : rtc step user_world (mkWorld user_mapped user_known [forked_task]).
Proof.
  unfold user_world, user_mapped. apply (rtc_l _ _ (mkWorld user_store user_known [forked_task])).
  - exact (step_unshare _ _ [user_task] 0 _ _ _ _ _ eq_refl user_unshare).
  - apply rtc_once, (step_uid_map _ _ _ 0); [done|done|by repeat constructor].
Qed.

Lemma user_reachable : reachable user_mapped user_known.
Proof.
  apply reach_uid_map; [|done|done|by repeat constructor].
  apply (reach_child root_store _ user_creds user_ns); [apply root_reachable|done|reflexivity].
Qed.

Lemma user_unprivileged : unprivileged root_ns 1000 [1000; 27] user_task.
Proof.
  split_and!; [done|done|by split_and!| |apply user_caps_ok|done].
  split_and!; [set_solver..|]. apply Forall_singleton. set_solver.
Qed.

Lemma root_no_child ns : knows (<[0%nat := root_ns]> ∅) ns → parent ns = Some root_ns → owner ns ≠ 1000.
Proof.
  unfold knows. destruct (decide (ns_id ns = 0%nat)) as [E|Hne].
  - rewrite E, lookup_insert_eq. by intros [= <-].
  - by rewrite lookup_insert_ne.
Qed.

(** ** Claims *)

(** C2. A group of tasks with no_new_privs, the user [u], groups in [G] and no capabilities in
    the namespace [ns0], where no child of [ns0] belongs to [u] yet: after any system calls by
    any of them and their children in any order, among them execve of privileged files,
    creating and entering user namespaces and writing ID maps, each task still has
    no_new_privs, all its user IDs are [u], all its groups are in [G], and it has no capability
    in any namespace that there was before. *)
Theorem no_new_privs_confinement `{IML : IdMapSetLaws} st K ns0 u (G : list Z) ts w :
  reachable st K → knows K ns0 → (∀ ns, knows K ns → parent ns = Some ns0 → owner ns ≠ u) →
  Forall (unprivileged ns0 u G) ts →
  rtc step (mkWorld st K ts) w →
  Forall (λ t, noNewPrivs t = true ∧ kuids (.= u) (creds t) ∧ kgids (.∈ G) (creds t) ∧
               ∀ cp ns, knows K ns → HasCapabilityIn (creds t) cp ns = false) (w_tasks w).
Proof.
  intros Hr Hk Hown Hts Hrun. destruct (group_confined_start st K ns0 u G ts Hr Hk Hown Hts) as [Hg Hknown].
  destruct (group_confined_steps _ _ _ _ _ _ Hg Hrun) as [[Hr' _ Hn' Ht'] Hsub].
  eapply Forall_impl; [exact Ht'|]. intros t [Hc _]. pose proof Hc as [H1 H2 H3 _ _]. split; [done|].
  split; [done|]. split; [done|]. intros cp ns Hns.
  eapply old_no_cap; [by apply reachable_world|done|done|by apply Hsub|by apply Hknown].
Qed.

Lemma no_new_privs_confinement_witness :
  HasSelfCapability (creds forked_task) CAP_SYS_ADMIN = true ∧ Getuid user_mapped forked_task = 0 ∧
  RealKUID (creds forked_task) = 1000 ∧ HasCapabilityIn (creds forked_task) CAP_SYS_ADMIN root_ns = false.
Proof.
  split; [reflexivity|]. split; [reflexivity|].
  assert (H := no_new_privs_confinement root_store (<[0%nat := root_ns]> ∅) root_ns 1000 [1000; 27] [user_task]
    (mkWorld user_mapped user_known [forked_task]) root_reachable eq_refl).
  cbn [w_tasks] in H. rewrite (Forall_singleton _ forked_task) in H. destruct H as (_ & (Hr & _) & _ & Hcap).
  - exact root_no_child.
  - apply Forall_singleton, user_unprivileged.
  - exact user_run.
  - split; [exact Hr|]. by apply Hcap.
Defined.



(** C12. [ComputeCredsForExec] follows the rules of capabilities(7) on what is heeded of a file:
    set-user-ID and set-group-ID only if allowed and if the ID is mapped, capabilities only if
    their root user owns the namespace or an ancestor, and nothing with no_new_privs.  It fails
    with EPERM exactly where the file would lack capabilities that it counts on. *)
Theorem exec_follows_rules `{IML : IdMapSetLaws} st c f nnp stop allow :
  caps_ok c →
  ∃ f', heeded st c nnp allow f f' ∧
    ComputeCredsForExec st c f nnp stop allow =
    match exec_rule st c f' nnp stop with
    | None => Err EPERM
    | Some c' => Ok (c', exec_secure st c f' c')
    end.
Proof.
  intros Hok. exists (heeded_privs st c f nnp allow). split; [apply heeded_privs_spec|].
  by apply ComputeCredsForExec_rule.
Qed.

(** A set-user-ID-root program. *)
Definition suid_root : FilePrivileges := mkFilePrivs 0 NoID false 0 0 0 false.

Lemma exec_follows_rules_witness :
  ∃ c', ComputeCredsForExec root_store user_creds suid_root false false true = Ok (c', true) ∧
    EffectiveKUID c' = 0 ∧ RealKUID c' = 1000 ∧ PermittedCaps c' = AllCapabilities ∧ EffectiveCaps c' = AllCapabilities.
Proof.
  destruct (exec_follows_rules root_store user_creds suid_root false false true user_caps_ok) as (f' & [Eu Eg Eh Ee Ep Ei] & ->).
  destruct f' as [u g h r p i e]. cbn in Eu, Eg, Eh, Ee, Ep, Ei. subst. eexists. split; [reflexivity|]. split_and!; reflexivity.
Defined.

(** C40. The user and group IDs that setresuid(2) and setresgid(2) set are those that
    getresuid(2) and getresgid(2) return, in every user namespace. *)
Theorem set_get_ids_roundtrip `{IML : IdMapSetLaws} st K t args t' out :
  reachable st K → knows K (cred_ns (creds t)) →
  wrap32 (arg args 0) ≠ NoID → wrap32 (arg args 1) ≠ NoID → wrap32 (arg args 2) ≠ NoID →
  let ids := (λ i, (arg out i, [wrap32 (arg args i)])) <$> [0%nat; 1%nat; 2%nat] in
  (Setresuid st t args = Ok t' → Getresuid st t' (λ _, None) out = (ids, Ok ())) ∧
  (Setresgid st t args = Ok t' → Getresgid st t' (λ _, None) out = (ids, Ok ())).
Proof.
  intros Hr%reachable_world Hk H0 H1 H2 ids. unfold Setresuid, Setresgid. rewrite !arg_id_wrap. split; intros E.
  - destruct (SetRESUID_views _ _ _ _ _ _ _ Hr Hk H0 H1 H2 E) as (E0 & E1 & E2).
    unfold Getresuid. cbn. by rewrite E0, E1, E2.
  - destruct (SetRESGID_views _ _ _ _ _ _ _ Hr Hk H0 H1 H2 E) as (E0 & E1 & E2).
    unfold Getresgid. cbn. by rewrite E0, E1, E2.
Qed.

Definition became_root : task_identity :=
  match Setresuid user_mapped forked_task [0; 0; 0] with Ok t => t | _ => forked_task end.

Lemma set_get_ids_roundtrip_witness :
  Setresuid user_mapped forked_task [0; 0; 0] = Ok became_root ∧
  Getresuid user_mapped became_root (λ _, None) [16; 20; 24] = ([(16, [0]); (20, [0]); (24, [0])], Ok ()).
Proof.
  assert (E : Setresuid user_mapped forked_task [0; 0; 0] = Ok became_root) by reflexivity. split; [exact E|].
  destruct (set_get_ids_roundtrip user_mapped user_known forked_task [0; 0; 0] became_root [16; 20; 24] user_reachable)
    as [H _]; [done..|]. exact (H E).
Defined.

(** The capabilities that capset(2) sets, among those that exist, are those that capget(2)
    returns, if CAP_NET_RAW is in the bounding set (capset takes it off otherwise). *)
Theorem capset_capget_roundtrip t tid fault hdr d0 d1 args t' w out with_id data1 :
  (Version hdr = LINUX_CAPABILITY_VERSION_2 ∨ Version hdr = LINUX_CAPABILITY_VERSION_3) → Pid hdr = 0 →
  weakCaps ⊑c BoundingCaps (creds t) → arg out 1 ≠ 0 →
  Forall in_u32 (user_words d0 ++ user_words d1) →
  caps_of_words (cu_Permitted d0) (cu_Permitted d1) ⊑c AllCapabilities →
  caps_of_words (cu_Inheritable d0) (cu_Inheritable d1) ⊑c AllCapabilities →
  caps_of_words (cu_Effective d0) (cu_Effective d1) ⊑c AllCapabilities →
  Capset t tid fault (Ok hdr) data1 (Ok (d0, d1)) args = (w, Ok t') →
  Capget with_id t' (λ _, None) (Ok hdr) out = ([(arg out 1, user_words d0 ++ user_words d1)], Ok ()).
Proof.
  intros Hv Hpid Hbound Hout Hd Hp Hi He E. unfold Capset, Capget, lookupCaps in *. rewrite Hpid in *.
  apply Z.eqb_neq in Hout. rewrite Hout.
  assert (E1 : (Version hdr =? LINUX_CAPABILITY_VERSION_1) = false) by (by destruct Hv as [-> | ->]).
  assert (E2 : (Version hdr =? LINUX_CAPABILITY_VERSION_2) || (Version hdr =? LINUX_CAPABILITY_VERSION_3) = true)
    by (by destruct Hv as [-> | ->]).
  rewrite E1, E2 in *. cbn [andb negb Z.eqb mbind result_bind Z.ltb Z.gtb Z.compare] in E |- *. injection E as _ E.
  fold (caps_of_words (cu_Permitted d0) (cu_Permitted d1)) (caps_of_words (cu_Inheritable d0) (cu_Inheritable d1))
    (caps_of_words (cu_Effective d0) (cu_Effective d1)) in E.
  rewrite !(subcaps_land_eq (caps_of_words _ _)) in E by done.
  apply SetCapabilitySets_result in E as (-> & -> & ->); [|done..]. unfold user_words in Hd. simpl in Hd.
  rewrite !Forall_cons in Hd. destruct Hd as (H1 & H2 & H3 & H4 & H5 & H6 & _).
  unfold CopyOut, user_words. cbn [cu_Effective cu_Permitted cu_Inheritable].
  destruct (caps_words _ _ H1 H4) as [-> ->], (caps_words _ _ H2 H5) as [-> ->], (caps_words _ _ H3 H6) as [-> ->]. done.
Qed.

Lemma capset_capget_roundtrip_witness :
  Capget (λ _, None)
    (mkIdentity (set_caps root_creds 0x2000 0x2000 0 AllCapabilities 0) true UserDumpable 0) (λ _, None)
    (Ok (mkCapHdr LINUX_CAPABILITY_VERSION_3 0)) [8; 16] = ([(16, [0; 0x2000; 0x2000; 0; 0; 0])], Ok ()).
Proof.
  apply (capset_capget_roundtrip (mkIdentity root_creds true UserDumpable 0) 1 (λ _, None) (mkCapHdr LINUX_CAPABILITY_VERSION_3 0) (mkCapUser 0 0x2000 0x2000)
    (mkCapUser 0 0 0) [8; 16] _ [] [8; 16] (λ _, None) (Err EFAULT)); try done.
  - by right.
  - by apply IsSubsetOf_spec.
  - by repeat constructor.
  - by apply IsSubsetOf_spec.
  - by apply IsSubsetOf_spec.
  - by apply IsSubsetOf_spec.
Defined.

(** C34. File capabilities that a task in a user namespace sets are read by it as it set them,
    except that those of its own root user in version 3 are read in version 2. *)
Theorem file_capabilities_roundtrip `{IML : IdMapSetLaws} `{CML : CapMarshalLaws} st K c value v kuid kgid value' :
  reachable st K → knows K (cred_ns c) → Forall in_u8 value → VfsCapDataOf value = Ok v →
  FixupVfsCapDataOnSet st c value kuid kgid = Ok value' →
  FixupVfsCapDataOnGet st c value' =
  Ok (if negb (IsRevision2 (VfsCap v)) && (RootID v =? 0) then vfsns_ToString (ConvertToV2 v) else value).
Proof. intros Hr%reachable_world. by apply fixup_set_get. Qed.

(** Capabilities in version 2, set in a child namespace, are stored in version 3. *)
Definition sample_caps : VfsCapData := mkVfsCap (VFS_CAP_REVISION_2 + 1) 0x2000 0 0 0.

Definition stored_caps : VfsNsCapData := mkVfsNsCap (mkVfsCap (VFS_CAP_REVISION_3 + 1) 0x2000 0 0 0) 1000.

Definition both_store : ns_store := (SetGIDMap mapped_store root_creds child_ns [mkIDMapEntry 0 2000 10]).1.

Definition child_creds : Credentials := ForkIntoUserNamespace root_creds child_ns.

Lemma both_reachable : reachable both_store sample_known.
Proof. apply reach_gid_map; [exact mapped_reachable|done|done|by repeat constructor]. Qed.

#[local] Existing Instance le_cap_marshal.

Lemma file_capabilities_roundtrip_witness :
  FixupVfsCapDataOnSet both_store child_creds (marshal_v2 sample_caps) 1005 2005 = Ok (marshal_v3 stored_caps) ∧
  FixupVfsCapDataOnGet both_store child_creds (marshal_v3 stored_caps) = Ok (marshal_v2 sample_caps).
Proof.
  assert (E : FixupVfsCapDataOnSet both_store child_creds (marshal_v2 sample_caps) 1005 2005 = Ok (marshal_v3 stored_caps))
    by reflexivity.
  split; [exact E|].
  assert (Hb : Forall in_u8 (marshal_v2 sample_caps)) by (repeat apply Forall_app_2; apply le_bytes_range).
  assert (Hv : VfsCapDataOf (marshal_v2 sample_caps) = Ok (mkVfsNsCap sample_caps 0)) by reflexivity.
  pose proof (file_capabilities_roundtrip (CML := le_cap_laws) both_store sample_known child_creds _ _ _ _ _
    both_reachable eq_refl Hb Hv E) as H. exact H.
Defined.

(** ** Divergences from the documentation *)

(** A process of user 1000 that runs a set-user-ID-root program. *)
Definition suid_task : task_identity :=
  mkIdentity (set_caps (set_kuids user_creds 1000 0 0) AllCapabilities 0 AllCapabilities AllCapabilities 0) false
    NotDumpable 0.

(** setreuid(2) sets the saved ID if the effective one is set to other than the previous real ID.
    [SetREUID] compares with the previous effective ID instead: a set-user-ID-root program that
    goes back to its real user for a while loses root for good, and one that sets its effective
    ID to itself keeps the saved ID. *)
Theorem SetREUID_saved_id :
  (∃ t, SetREUID root_store suid_task NoID 1000 = Ok t ∧ SavedKUID (creds t) = 1000 ∧
        SetREUID root_store t NoID 0 = Err EPERM) ∧
  (∃ t, SetREUID root_store (store_creds suid_task (set_kuids (creds suid_task) 1000 0 1000)) NoID 0 = Ok t ∧
        SavedKUID (creds t) = 1000).
Proof. split; eexists; (split; [reflexivity|]); [split; reflexivity|reflexivity]. Qed.

(** With the flag to keep capabilities, effective ones are kept as well when all IDs become
    nonzero, if the effective ID was nonzero already. *)
Theorem setKUIDsUnchecked_keeps_effective :
  let t := store_creds suid_task (set_KeepCaps (set_kuids (creds suid_task) 0 1000 0) true) in
  let t' := setKUIDsUnchecked root_store t 1000 1000 1000 in
  EffectiveCaps (creds t') = AllCapabilities ∧ PermittedCaps (creds t') = AllCapabilities.
Proof. split; reflexivity. Qed.

(** The names of the three last capabilities are missing: none of them is found by its name, and
    a name that is none is found. *)
Theorem CapabilityFromString_missing :
  CapabilityFromString "CAP_PERFMON"%string = (-1, false) ∧ CapabilityFromString "CAP_BPF"%string = (-1, false) ∧
  CapabilityFromString "CAP_CHECKPOINT_RESTORE"%string = (-1, false) ∧ CapabilityFromString "UNKNOWN"%string = (CAP_PERFMON, true).
Proof. repeat split. Qed.
