(* ===== verification/PosixACL.v ===== *)
(** * POSIX access control lists (src/pkg/sentry/vfs/posix_acl.go, src/pkg/abi/linux/xattr.go)

    Access control lists, the access check they define, their representation in extended
    attributes, and the changes of chmod(2) and of the creation of files.  The bits of
    [AccessTypes] are from src/pkg/sentry/vfs/permissions.go. *)

From stdpp Require Import base numbers decidable strings gmap list.
From S2P Require Import IdMapSet Capability FileMode UserNs Credentials Prelude.

Local Open Scope Z_scope.
Local Open Scope bits_scope.

(** ** Access types *)

(** An [AccessTypes] is a [uint16]. *)
Abbreviation MayExec := (1)%Z (only parsing).
Abbreviation MayWrite := (2)%Z (only parsing).
Abbreviation MayRead := (4)%Z (only parsing).

Definition ats_OnlyRead (a : Z) : bool := a =? MayRead.

Definition ats_MayRead (a : Z) : bool := negb (a .& MayRead =? 0).

Definition ats_MayWrite (a : Z) : bool := negb (a .& MayWrite =? 0).

Definition ats_MayExec (a : Z) : bool := negb (a .& MayExec =? 0).

Definition checkPerms (a perms : Z) : bool := a .& perms =? a.

(** ** Lists *)

Record ACLUser : Type := mkACLUser { au_UID : Z; au_Perms : Z }.

Record ACLGroup : Type := mkACLGroup { ag_GID : Z; ag_Perms : Z }.

Record PosixACL : Type := mkACL {
  UGOPerms : Z;
  Mask : option Z;
  Users : list ACLUser;
  Groups : list ACLGroup
}.

Definition masked (a : PosixACL) (perms : Z) : Z :=
  match Mask a with None => perms | Some m => perms .& m end.

Definition UserPerms (a : PosixACL) : Z := Z.shiftr (UGOPerms a .& ModeUserAll) 6.

Definition GroupPerms (a : PosixACL) : Z := Z.shiftr (UGOPerms a .& ModeGroupAll) 3.

Definition OtherPerms (a : PosixACL) : Z := UGOPerms a .& ModeOtherAll.

Definition acl_Chmod (a : PosixACL) (mode : Z) : PosixACL :=
  let ugo := UGOPerms a in
  let ugo := Z.ldiff ugo ModeUserAll .| (mode .& ModeUserAll) in
  let ugo := Z.ldiff ugo ModeOtherAll .| (mode .& ModeOtherAll) in
  match Mask a with
  | Some _ => mkACL ugo (Some (Z.shiftr (mode .& ModeGroupAll) 3)) (Users a) (Groups a)
  | None => mkACL (Z.ldiff ugo ModeGroupAll .| (mode .& ModeGroupAll)) None (Users a) (Groups a)
  end.

Definition MaskNewFileMode (a : PosixACL) (mode : Z) : PosixACL :=
  let ugo := UGOPerms a in
  let ugo := ugo .& ((mode .& ModeUserAll) .| Z.ldiff ugo ModeUserAll) in
  let ugo := ugo .& ((mode .& ModeOtherAll) .| Z.ldiff ugo ModeOtherAll) in
  match Mask a with
  | Some m => mkACL ugo (Some (m .& Z.shiftr (mode .& ModeGroupAll) 3)) (Users a) (Groups a)
  | None => mkACL (ugo .& ((mode .& ModeGroupAll) .| Z.ldiff ugo ModeGroupAll)) None (Users a) (Groups a)
  end.

(** The permission bits, and whether they say all that the list says. *)
Definition acl_Mode (a : PosixACL) : Z * bool :=
  let mode :=
    match Mask a with
    | None => UGOPerms a
    | Some m => Z.ldiff (UGOPerms a) ModeGroupAll .| wrap16 (Z.shiftl m 3)
    end in
  let equiv :=
    (length (Users a) =? 0)%nat && (length (Groups a) =? 0)%nat && (match Mask a with None => true | Some _ => false end) in
  (mode, equiv).

(** ** The check *)

(** The two loops return whether an entry was found and whether the check passed. *)
Fixpoint checkUserWithMask (a : PosixACL) (users : list ACLUser) (creds : Credentials) (ats : Z) : bool * bool :=
  match users with
  | [] => (false, false)
  | user :: users' =>
      if au_UID user =? EffectiveKUID creds
      then (true, checkPerms ats (masked a (au_Perms user)))
      else checkUserWithMask a users' creds ats
  end.

Fixpoint checkGroupsWithMask (a : PosixACL) (groups : list ACLGroup) (creds : Credentials) (ats : Z) (found : bool)
    : bool * bool :=
  match groups with
  | [] => (found, false)
  | group :: groups' =>
      if InGroup creds (ag_GID group)
      then if checkPerms ats (masked a (ag_Perms group)) then (true, true)
           else checkGroupsWithMask a groups' creds ats true
      else checkGroupsWithMask a groups' creds ats found
  end.

Definition checkPermissions (a : PosixACL) (creds : Credentials) (ats kuid kgid : Z) : bool :=
  if EffectiveKUID creds =? kuid then checkPerms ats (UserPerms a)
  else
    let '(found, passes) := checkUserWithMask a (Users a) creds ats in
    if found then passes
    else
      let '(found, passes) := checkGroupsWithMask a (Groups a) creds ats false in
      if InGroup creds kgid || found then
        if InGroup creds kgid && checkPerms ats (masked a (GroupPerms a)) then true
        else if found && passes then true
        else false
      else checkPerms ats (OtherPerms a).

(** ** Extended attributes (src/pkg/abi/linux/xattr.go) *)

Abbreviation POSIX_ACL_XATTR_VERSION := (2)%Z (only parsing).
Abbreviation ACL_UNDEFINED_ID := (0xffffffff)%Z (only parsing).
Abbreviation ACL_USER_OBJ := (0x01)%Z (only parsing).
Abbreviation ACL_USER := (0x02)%Z (only parsing).
Abbreviation ACL_GROUP_OBJ := (0x04)%Z (only parsing).
Abbreviation ACL_GROUP := (0x08)%Z (only parsing).
Abbreviation ACL_MASK := (0x10)%Z (only parsing).
Abbreviation ACL_OTHER := (0x20)%Z (only parsing).
Abbreviation ACL_READ := (0x04)%Z (only parsing).
Abbreviation ACL_WRITE := (0x02)%Z (only parsing).
Abbreviation ACL_EXECUTE := (0x01)%Z (only parsing).

Record PosixACLXattrEntry : Type := mkXEntry { xe_Tag : Z; xe_Perm : Z; xe_ID : Z }.

Record PosixACLXattr : Type := mkXattr { xa_Version : Z; xa_Entries : list PosixACLXattrEntry }.

Definition entry_SizeBytes : nat := 8.

Definition posixACLXattrHeaderSize : nat := 4.

Definition xattr_SizeBytes (x : PosixACLXattr) : nat :=
  posixACLXattrHeaderSize + length (xa_Entries x) * entry_SizeBytes.

Definition entry_MarshalBytes (e : PosixACLXattrEntry) : list Z :=
  le_bytes 2 (xe_Tag e) ++ le_bytes 2 (xe_Perm e) ++ le_bytes 4 (xe_ID e).

(** The entry, and the rest of the bytes. *)
Definition entry_UnmarshalBytes (src : list Z) : PosixACLXattrEntry * list Z :=
  (mkXEntry (le_value (take 2 src)) (le_value (take 2 (drop 2 src))) (le_value (take 4 (drop 4 src))), drop 8 src).

Definition xattr_MarshalBytes (x : PosixACLXattr) : list Z :=
  le_bytes 4 (xa_Version x) ++ concat (entry_MarshalBytes <$> xa_Entries x).

(** The loop of [UnmarshalBytes]: the entries and the bytes that remain.  Each round takes 8
    bytes, so [length src] rounds are enough. *)
Fixpoint unmarshal_entries (fuel : nat) (src : list Z) : list PosixACLXattrEntry * list Z :=
  match fuel with
  | O => ([], src)
  | S fuel' =>
      if (entry_SizeBytes <=? length src)%nat then
        let '(entry, src') := entry_UnmarshalBytes src in
        let '(entries, rest) := unmarshal_entries fuel' src' in
        (entry :: entries, rest)
      else ([], src)
  end.

Definition xattr_UnmarshalBytes (src : list Z) : PosixACLXattr * list Z :=
  let '(entries, rest) := unmarshal_entries (length src) (drop posixACLXattrHeaderSize src) in
  (mkXattr (le_value (take posixACLXattrHeaderSize src)) entries, rest).

Section Xattr.
Context `{IdMapSet}.

Definition acl_entries (st : ns_store) (a : PosixACL) (userns : UserNamespace) : list PosixACLXattrEntry :=
  [mkXEntry ACL_USER_OBJ (UserPerms a) ACL_UNDEFINED_ID] ++
  ((λ user, mkXEntry ACL_USER (au_Perms user) (MapFromKUID st userns (au_UID user))) <$> Users a) ++
  [mkXEntry ACL_GROUP_OBJ (GroupPerms a) ACL_UNDEFINED_ID] ++
  ((λ group, mkXEntry ACL_GROUP (ag_Perms group) (MapFromKGID st userns (ag_GID group))) <$> Groups a) ++
  (match Mask a with Some m => [mkXEntry ACL_MASK m ACL_UNDEFINED_ID] | None => [] end) ++
  [mkXEntry ACL_OTHER (OtherPerms a) ACL_UNDEFINED_ID].

Definition Serialize (st : ns_store) (a : PosixACL) (userns : UserNamespace) : list Z :=
  xattr_MarshalBytes (mkXattr POSIX_ACL_XATTR_VERSION (acl_entries st a userns)).

(** The local variables of the loop of [ParsePosixACL]. *)
Record parse_state : Type := mkParse {
  p_userObj : option Z;
  p_groupObj : option Z;
  p_other : option Z;
  p_mask : option Z;
  p_users : list ACLUser;
  p_groups : list ACLGroup
}.

Definition parse_entry (st : ns_store) (userns : UserNamespace) (s : parse_state) (entry : PosixACLXattrEntry)
    : result Errno parse_state :=
  if negb (Z.ldiff (xe_Perm entry) (ACL_READ .| (ACL_WRITE .| ACL_EXECUTE)) =? 0) then Err EINVAL
  else if xe_Tag entry =? ACL_USER_OBJ then
    match p_userObj s with
    | Some _ => Err EINVAL
    | None => Ok (mkParse (Some (xe_Perm entry)) (p_groupObj s) (p_other s) (p_mask s) (p_users s) (p_groups s))
    end
  else if xe_Tag entry =? ACL_GROUP_OBJ then
    match p_groupObj s with
    | Some _ => Err EINVAL
    | None => Ok (mkParse (p_userObj s) (Some (xe_Perm entry)) (p_other s) (p_mask s) (p_users s) (p_groups s))
    end
  else if xe_Tag entry =? ACL_OTHER then
    match p_other s with
    | Some _ => Err EINVAL
    | None => Ok (mkParse (p_userObj s) (p_groupObj s) (Some (xe_Perm entry)) (p_mask s) (p_users s) (p_groups s))
    end
  else if xe_Tag entry =? ACL_USER then
    let kuid := MapToKUID st userns (xe_ID entry) in
    if negb (id_Ok kuid) then Err EINVAL
    else Ok (mkParse (p_userObj s) (p_groupObj s) (p_other s) (p_mask s)
               (p_users s ++ [mkACLUser kuid (xe_Perm entry)]) (p_groups s))
  else if xe_Tag entry =? ACL_GROUP then
    let kgid := MapToKGID st userns (xe_ID entry) in
    if negb (id_Ok kgid) then Err EINVAL
    else Ok (mkParse (p_userObj s) (p_groupObj s) (p_other s) (p_mask s)
               (p_users s) (p_groups s ++ [mkACLGroup kgid (xe_Perm entry)]))
  else if xe_Tag entry =? ACL_MASK then
    match p_mask s with
    | Some _ => Err EINVAL
    | None => Ok (mkParse (p_userObj s) (p_groupObj s) (p_other s) (Some (xe_Perm entry)) (p_users s) (p_groups s))
    end
  else Err EINVAL.

Fixpoint parse_entries (st : ns_store) (userns : UserNamespace) (s : parse_state) (entries : list PosixACLXattrEntry)
    : result Errno parse_state :=
  match entries with
  | [] => Ok s
  | entry :: entries' => s ← parse_entry st userns s entry; parse_entries st userns s entries'
  end.

Definition parse_state0 : parse_state := mkParse None None None None [] [].

(** What follows the loop. *)
Definition parse_result (s : parse_state) : result Errno PosixACL :=
  match p_userObj s, p_groupObj s, p_other s with
  | Some userObj, Some groupObj, Some other =>
      if (negb (length (p_users s) =? 0)%nat || negb (length (p_groups s) =? 0)%nat) &&
         (match p_mask s with None => true | Some _ => false end) then Err EINVAL
      else
        Ok (mkACL (wrap16 (Z.shiftl userObj 6) .| (wrap16 (Z.shiftl groupObj 3) .| other)) (p_mask s)
              (p_users s) (p_groups s))
  | _, _, _ => Err EINVAL
  end.

(** [None] is no list. *)
Definition ParsePosixACL (st : ns_store) (src : list Z) (userns : UserNamespace) : result Errno (option PosixACL) :=
  if (length src =? 0)%nat then Ok None
  else if (length src <? xattr_SizeBytes (mkXattr 0 []))%nat then Err EINVAL
  else
    let '(acl, remaining) := xattr_UnmarshalBytes src in
    if negb (length remaining =? 0)%nat then Err EINVAL
    else if negb (xa_Version acl =? POSIX_ACL_XATTR_VERSION) then Err EOPNOTSUPP
    else if (length (xa_Entries acl) =? 0)%nat then Ok None
    else
      s ← parse_entries st userns parse_state0 (xa_Entries acl);
      a ← parse_result s;
      Ok (Some a).
End Xattr.
