(* ===== verification/Permissions.v ===== *)
(** * Permission checks (src/pkg/sentry/vfs/permissions.go, posix_acl.go)

    The checks that file systems make before they read, change or remove files.  The limit on
    the size of files, which the code takes from the context, is an argument. *)

From stdpp Require Import base numbers decidable strings gmap list.
From S2P Require Import IdMapSet Capability FileMode UserNs Credentials PosixACL Prelude.

Local Open Scope Z_scope.
Local Open Scope bits_scope.

(** ** Open flags *)

(** The fields of [OpenOptions] that matter. *)
Definition AccessTypesForOpenFlags (FileExec : bool) (Flags : Z) : Z :=
  let ats := if FileExec then MayExec else 0 in
  let acc := Flags .& O_ACCMODE in
  if acc =? O_RDONLY then
    if negb (Flags .& O_TRUNC =? 0) then ats .| (MayRead .| MayWrite) else ats .| MayRead
  else if acc =? O_WRONLY then ats .| MayWrite
  else ats .| (MayRead .| MayWrite).

Definition MayReadFileWithOpenFlags (flags : Z) : bool :=
  let acc := flags .& O_ACCMODE in (acc =? O_RDONLY) || (acc =? O_RDWR).

Definition MayWriteFileWithOpenFlags (flags : Z) : bool :=
  let acc := flags .& O_ACCMODE in (acc =? O_WRONLY) || (acc =? O_RDWR).

(** ** Sizes *)

Abbreviation MaxInt64 := (2 ^ 63 - 1)%Z (only parsing).

(** The conversion of a [uint64] to [int64]. *)
Definition to_int64 (v : Z) : Z := if v <? 2 ^ 63 then v else v - 2 ^ 64.

(** [ErrExceedsFileSizeLimit] is EFBIG by the time it reaches the application. *)
Definition CheckLimit (fileSizeLimit offset size : Z) : result Errno Z :=
  if fileSizeLimit >? MaxInt64 then Ok size
  else if to_int64 fileSizeLimit <=? offset then Err EFBIG
  else
    let remaining := to_int64 (wrap64 (to_int64 fileSizeLimit - offset)) in
    if remaining <? size then Ok remaining else Ok size.

(** [ClearSUIDAndSGID], on a [uint32]. *)
Definition ClearSUIDAndSGID (mode : Z) : Z :=
  if mode .& ModeDirectory =? ModeDirectory then mode
  else
    let mode := Z.ldiff mode ModeSetUID in
    let sgid := ModeSetGID .| ModeGroupExec in
    if mode .& sgid =? sgid then Z.ldiff mode ModeSetGID else mode.

(** The fields of [linux.Statx] that [CheckSetStat] reads; of the times only the nanoseconds. *)
Record SetStatx : Type := mkSetStatx {
  sx_Mask : Z;
  sx_Mode : Z;
  sx_UID : Z;
  sx_GID : Z;
  sx_Size : Z;
  sx_AtimeNsec : Z;
  sx_MtimeNsec : Z;
  sx_CtimeNsec : Z
}.

Definition sx_set_Mode (s : SetStatx) (mode : Z) : SetStatx :=
  mkSetStatx (sx_Mask s) mode (sx_UID s) (sx_GID s) (sx_Size s) (sx_AtimeNsec s) (sx_MtimeNsec s) (sx_CtimeNsec s).

Definition has (mask bit : Z) : bool := negb (mask .& bit =? 0).

(** ** Constants *)

Abbreviation XATTR_SECURITY_PREFIX := ("security.")%string (only parsing).
Abbreviation XATTR_SECURITY_CAPABILITY := ("security.capability")%string (only parsing).
Abbreviation XATTR_TRUSTED_PREFIX := ("trusted.")%string (only parsing).
Abbreviation XATTR_USER_PREFIX := ("user.")%string (only parsing).
Abbreviation XATTR_NAME_POSIX_ACL_ACCESS := ("system.posix_acl_access")%string (only parsing).
Abbreviation XATTR_NAME_POSIX_ACL_DEFAULT := ("system.posix_acl_default")%string (only parsing).

Section Checks.
Context `{IdMapSet}.

(** ** Access *)

Definition GenericCheckPermissions (st : ns_store) (creds : Credentials) (ats mode : Z) (acl : option PosixACL)
    (kuid kgid : Z) : result Errno unit :=
  let granted :=
    match acl with
    | Some a => checkPermissions a creds ats kuid kgid
    | None =>
        let perms := Permissions mode in
        let perms :=
          if EffectiveKUID creds =? kuid then Z.shiftr perms 6
          else if InGroup creds kgid then Z.shiftr perms 3
          else perms in
        ats .& perms =? ats
    end in
  if granted then Ok ()
  else if ((IsDir mode && negb (ats_MayWrite ats)) || ats_OnlyRead ats) &&
          HasCapabilityOnFile st creds CAP_DAC_READ_SEARCH kuid kgid then Ok ()
  else if (IsDir mode || negb (ats_MayExec ats) || negb (Permissions mode .& 0x49 =? 0)) &&
          HasCapabilityOnFile st creds CAP_DAC_OVERRIDE kuid kgid then Ok ()
  else Err EACCES.

Definition CanActAsOwner (st : ns_store) (creds : Credentials) (kuid : Z) : bool :=
  if EffectiveKUID creds =? kuid then true
  else HasSelfCapability creds CAP_FOWNER && id_Ok (MapFromKUID st (cred_ns creds) kuid).

Definition MayLink (st : ns_store) (creds : Credentials) (mode : Z) (acl : option PosixACL) (kuid kgid : Z)
    : result Errno unit :=
  if CanActAsOwner st creds kuid then Ok ()
  else if negb (FileType mode =? S_IFREG) then Err EPERM
  else if negb (mode .& S_ISUID =? 0) then Err EPERM
  else
    match GenericCheckPermissions st creds (MayRead .| MayWrite) mode acl kuid kgid with
    | Err _ => Err EPERM
    | r => r
    end.

(** ** Changes *)

Definition ShouldClearSGID (st : ns_store) (creds : Credentials) (mode kuid kgid : Z) : bool :=
  negb (mode .& S_ISGID =? 0) && negb (HasCapabilityOnFile st creds CAP_FSETID kuid kgid) && negb (InGroup creds kgid).

(** The changes that may be made, with the mode that is to be set. *)
Definition CheckSetStat (st : ns_store) (fileSizeLimit : Z) (creds : Credentials) (stat : SetStatx) (NeedWritePerm : bool)
    (mode : Z) (acl : option PosixACL) (kuid kgid : Z) : result Errno SetStatx :=
  _ ← (if has (sx_Mask stat) STATX_SIZE then
         limit ← CheckLimit fileSizeLimit 0 (to_int64 (sx_Size stat));
         if limit <? to_int64 (sx_Size stat) then Err EFBIG else Ok ()
       else Ok ());
  stat ← (if has (sx_Mask stat) STATX_MODE then
            if negb (CanActAsOwner st creds kuid) then Err EPERM
            else if ShouldClearSGID st creds (sx_Mode stat) kuid kgid
            then Ok (sx_set_Mode stat (Z.ldiff (sx_Mode stat) S_ISGID)) else Ok stat
          else Ok stat);
  _ ← (if has (sx_Mask stat) STATX_UID &&
          negb (((EffectiveKUID creds =? kuid) && (sx_UID stat =? kuid)) || HasCapabilityOnFile st creds CAP_CHOWN kuid kgid)
       then Err EPERM else Ok ());
  _ ← (if has (sx_Mask stat) STATX_GID &&
          negb (((EffectiveKUID creds =? kuid) && InGroup creds (sx_GID stat)) || HasCapabilityOnFile st creds CAP_CHOWN kuid kgid)
       then Err EPERM else Ok ());
  _ ← (if NeedWritePerm then GenericCheckPermissions st creds MayWrite mode acl kuid kgid else Ok ());
  _ ← (if has (sx_Mask stat) (STATX_ATIME .| (STATX_MTIME .| STATX_CTIME)) && negb (CanActAsOwner st creds kuid) then
         if (has (sx_Mask stat) STATX_ATIME && negb (sx_AtimeNsec stat =? UTIME_NOW)) ||
            (has (sx_Mask stat) STATX_MTIME && negb (sx_MtimeNsec stat =? UTIME_NOW)) ||
            (has (sx_Mask stat) STATX_CTIME && negb (sx_CtimeNsec stat =? UTIME_NOW)) then Err EPERM
         else GenericCheckPermissions st creds MayWrite mode acl kuid kgid
       else Ok ());
  Ok stat.

Definition CheckDeleteSticky (st : ns_store) (creds : Credentials) (parentMode parentKUID childKUID childKGID : Z)
    : result Errno unit :=
  if parentMode .& ModeSticky =? 0 then Ok ()
  else if (EffectiveKUID creds =? childKUID) || (EffectiveKUID creds =? parentKUID) ||
          HasCapabilityOnFile st creds CAP_FOWNER childKUID childKGID then Ok ()
  else Err EPERM.

(** ** Extended attributes *)

Definition CheckXattrPermissions (st : ns_store) (creds : Credentials) (ats mode kuid : Z) (name : string)
    : result Errno unit :=
  if String.prefix XATTR_TRUSTED_PREFIX name then
    if HasRootCapability creds CAP_SYS_ADMIN then Ok ()
    else if ats_MayWrite ats then Err EPERM
    else Err ENODATA
  else if String.prefix XATTR_USER_PREFIX name then
    let filetype := FileType mode in
    if negb (filetype =? ModeRegular) && negb (filetype =? ModeDirectory) then
      if ats_MayWrite ats then Err EPERM else Err ENODATA
    else if (filetype =? ModeDirectory) && negb (mode .& ModeSticky =? 0) && ats_MayWrite ats &&
            negb (CanActAsOwner st creds kuid) then Err EPERM
    else Ok ()
  else if String.prefix XATTR_SECURITY_PREFIX name then
    if ats_MayRead ats then Ok ()
    else if String.eqb name XATTR_SECURITY_CAPABILITY then Ok ()
    else Err EOPNOTSUPP
  else Ok ().

Inductive ACLType : Type := AccessACL | DefaultACL.

(** The type of the list with a name. *)
Definition acl_type (name : string) : result Errno ACLType :=
  if String.eqb name XATTR_NAME_POSIX_ACL_ACCESS then Ok AccessACL
  else if String.eqb name XATTR_NAME_POSIX_ACL_DEFAULT then Ok DefaultACL
  else Err EOPNOTSUPP.

Definition is_default (ty : ACLType) : bool := match ty with AccessACL => false | DefaultACL => true end.

Definition ACLGetXattr (st : ns_store) (creds : Credentials) (name : string) (mode : Z)
    (accessACL defaultACL : option PosixACL) : result Errno (list Z) :=
  ty ← acl_type name;
  let acl := if is_default ty then defaultACL else accessACL in
  if FileType mode =? ModeSymlink then Err EOPNOTSUPP
  else
    match acl with
    | None => Err ENODATA
    | Some a => Ok (Serialize st a (cred_ns creds))
    end.

Definition ACLSetXattr (st : ns_store) (creds : Credentials) (name : string) (value : list Z) (mode kuid : Z)
    : result Errno (option PosixACL * ACLType) :=
  ty ← acl_type name;
  if FileType mode =? ModeSymlink then Err EOPNOTSUPP
  else
    acl ← ParsePosixACL st value (cred_ns creds);
    if is_default ty && negb (IsDir mode) then
      match acl with
      | Some _ => Err EACCES
      | None => Ok (None, ty)
      end
    else if negb (CanActAsOwner st creds kuid) then Err EPERM
    else Ok (acl, ty).

Definition ACLRemoveXattr (st : ns_store) (creds : Credentials) (name : string) (mode kuid : Z) : result Errno ACLType :=
  ty ← acl_type name;
  if FileType mode =? ModeSymlink then Err EOPNOTSUPP
  else if is_default ty && negb (FileType mode =? ModeDirectory) then Ok ty
  else if negb (CanActAsOwner st creds kuid) then Err EPERM
  else Ok ty.
End Checks.
