(* ===== verification/AclFacts.v ===== *)
(** * Facts about access control lists

    The check of lists does what acl(5) says ([acl_grants]), lists survive the way through
    extended attributes, and permission bits and lists agree. *)

From stdpp Require Import base numbers decidable strings gmap list.
From S2P Require Import IdMapSet Capability FileMode UserNs Credentials NsFacts CapFacts PosixACL Permissions Prelude.

Local Open Scope Z_scope.
Local Open Scope bits_scope.

(** ** The check *)

Lemma checkPerms_spec a perms : checkPerms a perms = true ↔ a ⊑c perms.
Proof. apply IsSubsetOf_spec. Qed.

(** The owning group and the named groups, with their permissions. *)
Definition group_entries (a : PosixACL) (kgid : Z) : list (Z * Z) :=
  (kgid, GroupPerms a) :: ((λ g, (ag_GID g, ag_Perms g)) <$> Groups a).

(** The algorithm of acl(5). *)
Definition acl_grants (a : PosixACL) (c : Credentials) (ats kuid kgid : Z) : Prop :=
  if decide (EffectiveKUID c = kuid) then ats ⊑c UserPerms a
  else match list_find (λ u, au_UID u = EffectiveKUID c) (Users a) with
       | Some (_, u) => ats ⊑c masked a (au_Perms u)
       | None =>
           if decide (Exists (λ e, InGroup c e.1 = true) (group_entries a kgid))
           then Exists (λ e, InGroup c e.1 = true ∧ ats ⊑c masked a e.2) (group_entries a kgid)
           else ats ⊑c OtherPerms a
       end.

Lemma checkUserWithMask_spec a us c ats :
  checkUserWithMask a us c ats =
  match list_find (λ u, au_UID u = EffectiveKUID c) us with
  | Some (_, u) => (true, checkPerms ats (masked a (au_Perms u)))
  | None => (false, false)
  end.
Proof.
  induction us as [|u us IH]; [done|]. cbn [checkUserWithMask list_find]. rewrite IH.
  destruct (Z.eqb_spec (au_UID u) (EffectiveKUID c)) as [E|Hn].
  - by rewrite decide_True.
  - rewrite decide_False by done. by destruct (list_find _ us) as [[i u']|].
Qed.

Definition named_group_in (c : Credentials) (g : ACLGroup) : Prop := InGroup c (ag_GID g) = true.

Definition named_group_grants (a : PosixACL) (c : Credentials) (ats : Z) (g : ACLGroup) : Prop :=
  InGroup c (ag_GID g) = true ∧ ats ⊑c masked a (ag_Perms g).

Lemma checkGroupsWithMask_spec a gs c ats found :
  let r := checkGroupsWithMask a gs c ats found in
  (r.1 = true ↔ found = true ∨ Exists (named_group_in c) gs) ∧
  (r.2 = true ↔ Exists (named_group_grants a c ats) gs).
Proof.
  revert found. induction gs as [|g gs IH]; intros found; cbn [checkGroupsWithMask].
  - rewrite !Exists_nil. simpl. intuition done.
  - unfold named_group_in, named_group_grants in *. rewrite !Exists_cons. destruct (InGroup c (ag_GID g)) eqn:Eg.
    + destruct (checkPerms ats (masked a (ag_Perms g))) eqn:Ep; simpl.
      * apply checkPerms_spec in Ep. intuition.
      * assert (¬ ats ⊑c masked a (ag_Perms g)) by (rewrite <- checkPerms_spec, Ep; done).
        destruct (IH true) as [H1 H2]. rewrite H1, H2. intuition.
    + destruct (IH found) as [H1 H2]. rewrite H1, H2. intuition congruence.
Qed.

Lemma checkPermissions_spec a c ats kuid kgid :
  checkPermissions a c ats kuid kgid = true ↔ acl_grants a c ats kuid kgid.
Proof.
  unfold checkPermissions, acl_grants. destruct (Z.eqb_spec (EffectiveKUID c) kuid) as [E|Hn].
  { rewrite decide_True by done. apply checkPerms_spec. }
  rewrite decide_False by done. rewrite checkUserWithMask_spec.
  destruct (list_find _ (Users a)) as [[i u]|]; [apply checkPerms_spec|].
  pose proof (checkGroupsWithMask_spec a (Groups a) c ats false) as [H1 H2].
  destruct (checkGroupsWithMask _ _ _ _ _) as [found passes]. simpl in H1, H2.
  assert (Hin : Exists (λ e, InGroup c e.1 = true) (group_entries a kgid) ↔ InGroup c kgid || found = true).
  { unfold group_entries. rewrite Exists_cons, Exists_fmap, orb_true_iff, H1. unfold named_group_in. simpl. intuition done. }
  assert (Hgr : Exists (λ e, InGroup c e.1 = true ∧ ats ⊑c masked a e.2) (group_entries a kgid) ↔
    (InGroup c kgid = true ∧ checkPerms ats (masked a (GroupPerms a)) = true) ∨ passes = true).
  { unfold group_entries. rewrite Exists_cons, Exists_fmap, H2, checkPerms_spec. unfold named_group_grants. done. }
  destruct (InGroup c kgid || found) eqn:Eo.
  - rewrite decide_True by (by apply Hin). rewrite Hgr, <- andb_true_iff.
    destruct (InGroup c kgid && _) eqn:Ek; [by intuition|].
    assert (passes = true → found = true).
    { intros Hp. apply H1. right. apply H2 in Hp. eapply Exists_impl; [exact Hp|]. by intros g []. }
    destruct found, passes; simpl; intuition congruence.
  - rewrite decide_False by (rewrite Hin; congruence). apply checkPerms_spec.
Qed.

(** ** Ranges *)

Lemma small_cases (P : Z → bool) n z : forallb P (seqZ 0 n) = true → 0 <= z < n → P z = true.
Proof. intros Hall Hz. rewrite forallb_forall in Hall. apply Hall, list_elem_of_In, elem_of_seqZ. lia. Qed.

Definition perm_ok (p : Z) : Prop := 0 <= p < 8.

Definition mode_ok (m : Z) : Prop := 0 <= m < 512.

Lemma perm_bits p : perm_ok p → Z.ldiff p (ACL_READ .| (ACL_WRITE .| ACL_EXECUTE)) = 0.
Proof. intros Hp. apply Z.eqb_eq. by apply (small_cases (λ p, Z.ldiff p _ =? 0) 8). Qed.

Lemma ldiff_perm_ok p : in_u16 p → Z.ldiff p (ACL_READ .| (ACL_WRITE .| ACL_EXECUTE)) = 0 → perm_ok p.
Proof.
  unfold in_u16, perm_ok. change (ACL_READ .| (ACL_WRITE .| ACL_EXECUTE)) with (Z.ones 3).
  rewrite Z.ldiff_ones_r, Z.shiftl_mul_pow2, Z.shiftr_div_pow2 by lia. intros Hp E.
  pose proof (Z.div_mod p (2 ^ 3)). pose proof (Z.mod_pos_bound p (2 ^ 3)). lia.
Qed.

(** Modes and their three parts. *)
Definition mode_of (u g o : Z) : Z := wrap16 (Z.shiftl u 6) .| (wrap16 (Z.shiftl g 3) .| o).

Lemma mode_parts m :
  mode_ok m → mode_of (Z.shiftr (m .& ModeUserAll) 6) (Z.shiftr (m .& ModeGroupAll) 3) (m .& ModeOtherAll) = m.
Proof.
  intros Hm. apply Z.eqb_eq.
  by apply (small_cases (λ m, mode_of (Z.shiftr (m .& ModeUserAll) 6) (Z.shiftr (m .& ModeGroupAll) 3) (m .& ModeOtherAll) =? m) 512).
Qed.

Lemma parts_range m : mode_ok m → perm_ok (Z.shiftr (m .& ModeUserAll) 6) ∧ perm_ok (Z.shiftr (m .& ModeGroupAll) 3) ∧ perm_ok (m .& ModeOtherAll).
Proof.
  intros Hm. unfold perm_ok.
  pose proof (small_cases (λ m, (0 <=? Z.shiftr (m .& ModeUserAll) 6) && (Z.shiftr (m .& ModeUserAll) 6 <? 8) &&
    ((0 <=? Z.shiftr (m .& ModeGroupAll) 3) && (Z.shiftr (m .& ModeGroupAll) 3 <? 8)) &&
    ((0 <=? m .& ModeOtherAll) && (m .& ModeOtherAll <? 8))) 512 m eq_refl Hm) as H. cbv beta in H. to_prop. lia.
Qed.

(** The parts of a mode that was put together. *)
Lemma mode_of_parts u g o :
  perm_ok u → perm_ok g → perm_ok o →
  mode_ok (mode_of u g o) ∧ Z.shiftr (mode_of u g o .& ModeUserAll) 6 = u ∧
  Z.shiftr (mode_of u g o .& ModeGroupAll) 3 = g ∧ mode_of u g o .& ModeOtherAll = o.
Proof.
  intros Hu Hg Ho. unfold mode_ok.
  pose proof (small_cases (λ u, forallb (λ g, forallb (λ o, (0 <=? mode_of u g o) && (mode_of u g o <? 512) &&
    (Z.shiftr (mode_of u g o .& ModeUserAll) 6 =? u) && (Z.shiftr (mode_of u g o .& ModeGroupAll) 3 =? g) &&
    (mode_of u g o .& ModeOtherAll =? o)) (seqZ 0 8)) (seqZ 0 8)) 8 u eq_refl Hu) as H1.
  pose proof (small_cases _ _ g H1 Hg) as H2. pose proof (small_cases _ _ o H2 Ho) as H3. cbv beta in H3. to_prop. lia.
Qed.

(** ** Extended attributes *)

Definition xentry_ok (e : PosixACLXattrEntry) : Prop := in_u16 (xe_Tag e) ∧ in_u16 (xe_Perm e) ∧ in_u32 (xe_ID e).

Lemma le_value_u n v : 0 <= v < 2 ^ (8 * Z.of_nat n) → le_value (le_bytes n v) = v.
Proof. intros Hv. rewrite le_value_bytes. by apply Z.mod_small. Qed.

Lemma entry_unmarshal e rest : xentry_ok e → entry_UnmarshalBytes (entry_MarshalBytes e ++ rest) = (e, rest).
Proof.
  intros (Ht & Hp & Hi). destruct e as [t p i]. unfold entry_UnmarshalBytes.
  f_equal. f_equal; [exact (le_value_u 2 t Ht)|exact (le_value_u 2 p Hp)|exact (le_value_u 4 i Hi)].
Qed.

Lemma entry_length e : length (entry_MarshalBytes e) = 8%nat.
Proof. done. Qed.

Lemma unmarshal_entries_marshal es fuel :
  Forall xentry_ok es → (length es <= fuel)%nat →
  unmarshal_entries fuel (concat (entry_MarshalBytes <$> es)) = (es, []).
Proof.
  intros He. revert fuel. induction He as [|e es He _ IH]; intros fuel Hf.
  - by destruct fuel.
  - destruct fuel as [|fuel]; [simpl in Hf; lia|]. cbn [fmap list_fmap concat unmarshal_entries].
    rewrite length_app, entry_length. destruct (entry_SizeBytes <=? _)%nat eqn:Hl.
    2: { apply Nat.leb_gt in Hl. unfold entry_SizeBytes in Hl. lia. }
    rewrite entry_unmarshal by done. simpl in Hf. by rewrite IH by lia.
Qed.

Lemma xattr_roundtrip x :
  in_u32 (xa_Version x) → Forall xentry_ok (xa_Entries x) → xattr_UnmarshalBytes (xattr_MarshalBytes x) = (x, []).
Proof.
  intros Hv He. unfold xattr_UnmarshalBytes, xattr_MarshalBytes.
  rewrite drop_app_length', take_app_length' by (by rewrite le_bytes_length).
  rewrite unmarshal_entries_marshal; [|done|].
  - f_equal. destruct x as [v es]. simpl in *. f_equal. exact (le_value_u 4 v Hv).
  - rewrite length_app. generalize (xa_Entries x). intros es. induction es as [|e es IH]; [simpl; lia|].
    rewrite fmap_cons. cbn [concat]. rewrite length_app, entry_length. cbn [length]. lia.
Qed.

(** Lists whose permissions are in range, with a mask if there are named users or groups. *)
Record acl_ok (a : PosixACL) : Prop := mkAclOk {
  ao_mode : mode_ok (UGOPerms a);
  ao_mask m : Mask a = Some m → perm_ok m;
  ao_users : Forall (λ u, perm_ok (au_Perms u)) (Users a);
  ao_groups : Forall (λ g, perm_ok (ag_Perms g)) (Groups a);
  ao_named : Mask a = None → Users a = [] ∧ Groups a = []
}.

Section Lists.
Context `{IML : IdMapSetLaws}.

Implicit Types (st : ns_store) (ns : UserNamespace).

(** The named users and groups are mapped in the namespace. *)
Definition acl_mapped st ns (a : PosixACL) : Prop :=
  Forall (λ u, in_u32 (au_UID u) ∧ MapFromKUID st ns (au_UID u) ≠ NoID) (Users a) ∧
  Forall (λ g, in_u32 (ag_GID g) ∧ MapFromKGID st ns (ag_GID g) ≠ NoID) (Groups a).

Lemma acl_entries_ok st ns a : acl_ok a → acl_mapped st ns a → Forall xentry_ok (acl_entries st a ns).
Proof.
  intros [Hm Hk Hu Hg _] [Hmu Hmg]. destruct (parts_range _ Hm) as (H1 & H2 & H3).
  assert (Hp : ∀ p, perm_ok p → in_u16 p) by (unfold perm_ok, in_u16; lia).
  unfold acl_entries. rewrite !Forall_app, !Forall_singleton, !Forall_fmap. split_and!.
  - split_and!; [done|by apply Hp|done].
  - rewrite Forall_forall in *. intros u Hin. destruct (Hmu u Hin).
    split_and!; [done|by apply Hp, Hu|by apply map_from_root_range].
  - split_and!; [done|by apply Hp|done].
  - rewrite Forall_forall in *. intros g Hin. destruct (Hmg g Hin).
    split_and!; [done|by apply Hp, Hg|by apply map_from_root_range].
  - destruct (Mask a) as [m|] eqn:Em; [|done]. apply Forall_singleton. split_and!; [done|by apply Hp, Hk|done].
  - split_and!; [done|by apply Hp|done].
Qed.

Lemma parse_entries_app st ns s es es' :
  parse_entries st ns s (es ++ es') = s' ← parse_entries st ns s es; parse_entries st ns s' es'.
Proof.
  revert s. induction es as [|e es IH]; intros s; [done|]. simpl. destruct (parse_entry st ns s e); [apply IH|done|done].
Qed.

Lemma parse_users st K ns s us :
  world_ok st K → knows K ns → Forall (λ u, perm_ok (au_Perms u)) us →
  Forall (λ u, in_u32 (au_UID u) ∧ MapFromKUID st ns (au_UID u) ≠ NoID) us →
  parse_entries st ns s ((λ user, mkXEntry ACL_USER (au_Perms user) (MapFromKUID st ns (au_UID user))) <$> us) =
  Ok (mkParse (p_userObj s) (p_groupObj s) (p_other s) (p_mask s) (p_users s ++ us) (p_groups s)).
Proof.
  intros Hw Hk Hp Hm. revert s. induction us as [|[u pu] us IH]; intros s; [by rewrite app_nil_r; destruct s|].
  apply Forall_cons in Hp as [Hp1 Hp], Hm as [[_ Hm1] Hm]. simpl in Hp1, Hm1. rewrite fmap_cons. cbn [parse_entries].
  unfold parse_entry. cbn [xe_Perm xe_Tag xe_ID au_Perms au_UID]. rewrite perm_bits by done. simpl.
  pose proof (map_from_to st K NsFacts.Users _ _ Hw Hk Hm1) as E. unfold MapToKUID, MapFromKUID in *. cbn [from_of to_of] in E. rewrite E.
  assert (Hu : id_Ok u = true).
  { unfold id_Ok. apply negb_true_iff, Z.eqb_neq. intros ->. by rewrite map_from_root_NoID in Hm1. }
  rewrite Hu. simpl. rewrite IH by done. simpl. by rewrite <- app_assoc.
Qed.

Lemma parse_groups st K ns s gs :
  world_ok st K → knows K ns → Forall (λ g, perm_ok (ag_Perms g)) gs →
  Forall (λ g, in_u32 (ag_GID g) ∧ MapFromKGID st ns (ag_GID g) ≠ NoID) gs →
  parse_entries st ns s ((λ group, mkXEntry ACL_GROUP (ag_Perms group) (MapFromKGID st ns (ag_GID group))) <$> gs) =
  Ok (mkParse (p_userObj s) (p_groupObj s) (p_other s) (p_mask s) (p_users s) (p_groups s ++ gs)).
Proof.
  intros Hw Hk Hp Hm. revert s. induction gs as [|[u pu] us IH]; intros s; [by rewrite app_nil_r; destruct s|].
  apply Forall_cons in Hp as [Hp1 Hp], Hm as [[_ Hm1] Hm]. simpl in Hp1, Hm1. rewrite fmap_cons. cbn [parse_entries].
  unfold parse_entry. cbn [xe_Perm xe_Tag xe_ID ag_Perms ag_GID]. rewrite perm_bits by done. simpl.
  pose proof (map_from_to st K NsFacts.Groups _ _ Hw Hk Hm1) as E. unfold MapToKGID, MapFromKGID in *. cbn [from_of to_of] in E. rewrite E.
  assert (Hu : id_Ok u = true).
  { unfold id_Ok. apply negb_true_iff, Z.eqb_neq. intros ->. by rewrite map_from_root_NoID in Hm1. }
  rewrite Hu. simpl. rewrite IH by done. simpl. by rewrite <- app_assoc.
Qed.

Lemma parse_entries_step st ns s es es' s' :
  parse_entries st ns s es = Ok s' → parse_entries st ns s (es ++ es') = parse_entries st ns s' es'.
Proof. intros E. by rewrite parse_entries_app, E. Qed.

Lemma parse_single st ns s e s' : parse_entry st ns s e = Ok s' → parse_entries st ns s [e] = Ok s'.
Proof. intros E. simpl. by rewrite E. Qed.

(** One of the entries without a name. *)
Ltac parse_obj := apply parse_single; unfold parse_entry; cbn [xe_Perm]; rewrite perm_bits by auto; reflexivity.

Lemma parse_acl_entries st K ns a :
  world_ok st K → knows K ns → acl_ok a → acl_mapped st ns a →
  parse_entries st ns parse_state0 (acl_entries st a ns) =
  Ok (mkParse (Some (UserPerms a)) (Some (GroupPerms a)) (Some (OtherPerms a)) (Mask a) (Users a) (Groups a)).
Proof.
  intros Hw Hk [Hm Hmask Hu Hg _] [Hmu Hmg]. destruct (parts_range _ Hm) as (H1 & H2 & H3).
  fold (UserPerms a) in H1. fold (GroupPerms a) in H2. fold (OtherPerms a) in H3. unfold acl_entries.
  erewrite parse_entries_step by parse_obj. erewrite parse_entries_step by (by apply (parse_users st K)).
  erewrite parse_entries_step by parse_obj. erewrite parse_entries_step by (by apply (parse_groups st K)).
  destruct (Mask a) as [m|].
  - erewrite parse_entries_step by parse_obj. parse_obj.
  - rewrite app_nil_l. parse_obj.
Qed.

Lemma parse_result_ok a :
  acl_ok a →
  parse_result (mkParse (Some (UserPerms a)) (Some (GroupPerms a)) (Some (OtherPerms a)) (Mask a) (Users a) (Groups a)) = Ok a.
Proof.
  intros [Hm _ _ _ Hn]. unfold parse_result. simpl. pose proof (mode_parts _ Hm) as E. unfold mode_of in E.
  fold (UserPerms a) (GroupPerms a) (OtherPerms a) in E. destruct a as [ugo mask us gs]; simpl in *.
  destruct mask as [m|]; [rewrite andb_false_r; by rewrite E|]. destruct Hn as [-> ->]; [done|]. simpl. by rewrite E.
Qed.

Lemma Serialize_Parse st K ns a :
  world_ok st K → knows K ns → acl_ok a → acl_mapped st ns a → ParsePosixACL st (Serialize st a ns) ns = Ok (Some a).
Proof.
  intros Hw Hk Ha Hm. unfold ParsePosixACL, Serialize. rewrite xattr_roundtrip by (done || by apply acl_entries_ok).
  assert (Hlen : (4 <= length (xattr_MarshalBytes (mkXattr POSIX_ACL_XATTR_VERSION (acl_entries st a ns))))%nat).
  { unfold xattr_MarshalBytes. rewrite length_app, le_bytes_length. lia. }
  destruct (Nat.eqb_spec (length (xattr_MarshalBytes (mkXattr POSIX_ACL_XATTR_VERSION (acl_entries st a ns)))) 0) as [E|_]; [lia|].
  destruct (Nat.ltb_spec (length (xattr_MarshalBytes (mkXattr POSIX_ACL_XATTR_VERSION (acl_entries st a ns))))
    (xattr_SizeBytes (mkXattr 0 []))) as [E|_]; [unfold xattr_SizeBytes, posixACLXattrHeaderSize in E; simpl in E; lia|].
  cbn [length Nat.eqb negb xa_Version xa_Entries]. change (negb (POSIX_ACL_XATTR_VERSION =? POSIX_ACL_XATTR_VERSION)) with false.
  cbn match. change (length (acl_entries st a ns) =? 0)%nat with false. cbn match.
  rewrite (parse_acl_entries st K) by done. cbn [mbind result_bind]. by rewrite parse_result_ok.
Qed.

(** ** What the parser accepts *)

Lemma le_value_range n l : Forall in_u8 l → (length l <= n)%nat → 0 <= le_value l < 2 ^ (8 * Z.of_nat n).
Proof.
  intros Hl Hn. rewrite <- (le_bytes_value l Hl), le_value_bytes.
  pose proof (Z.mod_pos_bound (le_value l) (2 ^ (8 * Z.of_nat (length l)))).
  pose proof (Z.pow_le_mono_r 2 (8 * Z.of_nat (length l)) (8 * Z.of_nat n)). lia.
Qed.

Lemma entry_unmarshal_ok src : Forall in_u8 src → xentry_ok (entry_UnmarshalBytes src).1.
Proof.
  intros Hs. split_and!; simpl.
  - apply (le_value_range 2); [by apply Forall_take|rewrite length_take; lia].
  - apply (le_value_range 2); [by apply Forall_take, Forall_drop|rewrite length_take; lia].
  - apply (le_value_range 4); [by apply Forall_take, Forall_drop|rewrite length_take; lia].
Qed.

Lemma unmarshal_entries_ok fuel src : Forall in_u8 src → Forall xentry_ok (unmarshal_entries fuel src).1.
Proof.
  revert src. induction fuel as [|fuel IH]; intros src Hs; [done|]. cbn [unmarshal_entries].
  destruct (_ <=? _)%nat; [|done]. pose proof (entry_unmarshal_ok src Hs) as He. unfold entry_UnmarshalBytes in *.
  specialize (IH (drop 8 src) ltac:(by apply Forall_drop)). destruct (unmarshal_entries _ _) as [es rest]. by constructor.
Qed.

Definition opt_ok (o : option Z) : Prop := ∀ p, o = Some p → perm_ok p.

Record parse_ok st ns (s : parse_state) : Prop := mkParseOk {
  po_userObj : opt_ok (p_userObj s);
  po_groupObj : opt_ok (p_groupObj s);
  po_other : opt_ok (p_other s);
  po_mask : opt_ok (p_mask s);
  po_users : Forall (λ u, perm_ok (au_Perms u) ∧ in_u32 (au_UID u) ∧ MapFromKUID st ns (au_UID u) ≠ NoID) (p_users s);
  po_groups : Forall (λ g, perm_ok (ag_Perms g) ∧ in_u32 (ag_GID g) ∧ MapFromKGID st ns (ag_GID g) ≠ NoID) (p_groups s)
}.

(** An ID that is mapped to the root is mapped back. *)
Lemma mapped_back st K k ns id :
  world_ok st K → knows K ns → map_to_root (to_of k) st ns id ≠ NoID →
  map_from_root (from_of k) st ns (map_to_root (to_of k) st ns id) ≠ NoID.
Proof.
  intros Hw Hk Hn. rewrite (map_to_from st K k) by done. intros ->. by rewrite map_to_root_NoID in Hn.
Qed.

Lemma parse_entry_ok st K ns s e s' :
  world_ok st K → knows K ns → parse_ok st ns s → xentry_ok e → parse_entry st ns s e = Ok s' → parse_ok st ns s'.
Proof.
  intros Hw Hk [H1 H2 H3 H4 H5 H6] (_ & Hp & Hi) E. unfold parse_entry in E.
  case_if_in E; [done|]. to_prop. assert (Hperm : perm_ok (xe_Perm e)) by (by apply ldiff_perm_ok).
  assert (Hsome : opt_ok (Some (xe_Perm e))) by (by intros p [= <-]).
  case_if_in E; [destruct (p_userObj s); [done|injection E as <-; by split]|].
  case_if_in E; [destruct (p_groupObj s); [done|injection E as <-; by split]|].
  case_if_in E; [destruct (p_other s); [done|injection E as <-; by split]|].
  case_if_in E.
  { case_if_in E; [done|]. injection E as <-. unfold id_Ok in *. to_prop. split; try done.
    apply Forall_app. split; [done|]. apply Forall_singleton. split; [done|].
    split; [by apply map_to_root_range|by apply (mapped_back st K NsFacts.Users)]. }
  case_if_in E.
  { case_if_in E; [done|]. injection E as <-. unfold id_Ok in *. to_prop. split; try done.
    apply Forall_app. split; [done|]. apply Forall_singleton. split; [done|].
    split; [by apply map_to_root_range|by apply (mapped_back st K NsFacts.Groups)]. }
  case_if_in E; [|done]. destruct (p_mask s); [done|injection E as <-; by split].
Qed.

Lemma parse_entries_ok st K ns s es s' :
  world_ok st K → knows K ns → parse_ok st ns s → Forall xentry_ok es → parse_entries st ns s es = Ok s' → parse_ok st ns s'.
Proof.
  intros Hw Hk Hs He. revert s Hs. induction He as [|e es He _ IH]; intros s Hs E; [by injection E as <-|].
  simpl in E. apply bind_Ok in E as (s1 & E1 & E). eapply IH; [|done]. by eapply parse_entry_ok.
Qed.

Lemma parse_result_acl st ns s a : parse_ok st ns s → parse_result s = Ok a → acl_ok a ∧ acl_mapped st ns a.
Proof.
  intros [H1 H2 H3 H4 H5 H6] E. unfold parse_result in E.
  destruct (p_userObj s) as [pu|], (p_groupObj s) as [pg|], (p_other s) as [po|]; try done.
  case_if_in E; [done|]. injection E as <-. specialize (H1 _ eq_refl). specialize (H2 _ eq_refl). specialize (H3 _ eq_refl).
  destruct (mode_of_parts pu pg po H1 H2 H3) as [Hm _]. split; [split; simpl|split; simpl].
  - done.
  - apply H4.
  - eapply Forall_impl; [exact H5|]. by intros u (? & _).
  - eapply Forall_impl; [exact H6|]. by intros u (? & _).
  - intros Hn. rewrite Hn, andb_true_r in *. to_prop. by destruct (p_users s), (p_groups s).
  - eapply Forall_impl; [exact H5|]. by intros u (_ & ?).
  - eapply Forall_impl; [exact H6|]. by intros u (_ & ?).
Qed.

Lemma ParsePosixACL_ok st K ns src a :
  world_ok st K → knows K ns → Forall in_u8 src → ParsePosixACL st src ns = Ok (Some a) → acl_ok a ∧ acl_mapped st ns a.
Proof.
  intros Hw Hk Hs E. unfold ParsePosixACL in E. do 2 (case_if_in E; [done|]). unfold xattr_UnmarshalBytes in E.
  pose proof (unmarshal_entries_ok (length src) (drop posixACLXattrHeaderSize src) ltac:(by apply Forall_drop)) as He.
  destruct (unmarshal_entries _ _) as [es rest]. do 3 (case_if_in E; [done|]).
  apply bind_Ok in E as (s & E1 & E). apply bind_Ok in E as (a' & E2 & [= <-]).
  apply (parse_result_acl st ns s); [|done]. eapply parse_entries_ok; [done|done| |exact He|exact E1]. by split.
Qed.
End Lists.

(** ** Lists and permission bits *)

Lemma mode_ok_high m i : mode_ok m → 9 <= i → Z.testbit m i = false.
Proof. unfold mode_ok. intros Hm Hi. rewrite <- (Z.mod_small m (2 ^ 9)) by lia. apply Z.mod_pow2_bits_high. lia. Qed.

Lemma perm_ok_high p i : perm_ok p → 3 <= i → Z.testbit p i = false.
Proof. unfold perm_ok. intros Hm Hi. rewrite <- (Z.mod_small p (2 ^ 3)) by lia. apply Z.mod_pow2_bits_high. lia. Qed.

Lemma mode_ok_bits m : (∀ i, 9 <= i → Z.testbit m i = false) → mode_ok m.
Proof.
  intros Hh. unfold mode_ok. replace m with (m mod 2 ^ 9); [apply Z.mod_pos_bound; lia|].
  apply Z.bits_inj'. intros i Hi. destruct (Z.lt_ge_cases i 9).
  - by apply Z.mod_pow2_bits_low.
  - rewrite Z.mod_pow2_bits_high by lia. by rewrite Hh.
Qed.

Lemma wrap16_perm p : perm_ok p → wrap16 (Z.shiftl p 3) = Z.shiftl p 3.
Proof. unfold perm_ok, wrap16. intros. rewrite Z.shiftl_mul_pow2 by lia. apply Z.mod_small. lia. Qed.

(** Bit by bit, on the nine bits of modes. *)
Ltac mode_cases i :=
  let H := fresh in
  assert (H : i = 0 ∨ i = 1 ∨ i = 2 ∨ i = 3 ∨ i = 4 ∨ i = 5 ∨ i = 6 ∨ i = 7 ∨ i = 8 ∨ 9 <= i) by lia;
  destruct H as [->|[->|[->|[->|[->|[->|[->|[->|[->|H]]]]]]]]].

(** The bits of the constants. *)
Lemma ModeUserAll_bit i : 0 <= i → Z.testbit ModeUserAll i = bool_decide (6 <= i < 9).
Proof. intros Hi. mode_cases i; try done. rewrite bool_decide_false by lia. by apply mode_ok_high. Qed.

Lemma ModeGroupAll_bit i : 0 <= i → Z.testbit ModeGroupAll i = bool_decide (3 <= i < 6).
Proof. intros Hi. mode_cases i; try done. rewrite bool_decide_false by lia. by apply mode_ok_high. Qed.

Lemma ModeOtherAll_bit i : 0 <= i → Z.testbit ModeOtherAll i = bool_decide (0 <= i < 3).
Proof. intros Hi. mode_cases i; try done. rewrite bool_decide_false by lia. by apply mode_ok_high. Qed.

Lemma PermissionsMask_bit i : 0 <= i → Z.testbit PermissionsMask i = bool_decide (0 <= i < 9).
Proof. intros Hi. mode_cases i; try done. rewrite bool_decide_false by lia. by apply mode_ok_high. Qed.

(** The bits of an expression over modes, and a case for each part of the mode. *)
Ltac bit_ops :=
  repeat first [rewrite Z.lor_spec | rewrite Z.land_spec | rewrite Z.ldiff_spec];
  rewrite ?ModeUserAll_bit, ?ModeGroupAll_bit, ?ModeOtherAll_bit, ?PermissionsMask_bit by lia.

Ltac mode_solve := repeat case_bool_decide; repeat case_decide; try lia; simpl; rewrite ?andb_true_r, ?andb_false_r, ?orb_false_r, ?orb_false_l; try done.

Lemma acl_mode_bits a i :
  acl_ok a → 0 <= i →
  Z.testbit (acl_Mode a).1 i =
  match Mask a with
  | Some m => if decide (3 <= i < 6) then Z.testbit m (i - 3) else Z.testbit (UGOPerms a) i
  | None => Z.testbit (UGOPerms a) i
  end.
Proof.
  intros [Hm Hk _ _ _] Hi. unfold acl_Mode. cbn [fst]. destruct (Mask a) as [m|]; [|done].
  rewrite wrap16_perm by (by apply Hk). specialize (Hk m eq_refl).
  rewrite Z.lor_spec, Z.ldiff_spec, Z.shiftl_spec, ModeGroupAll_bit by lia. mode_solve.
  destruct (Z.lt_ge_cases i 3); [rewrite (Z.testbit_neg_r m) by lia|rewrite (perm_ok_high m) by (done || lia)]; by rewrite orb_false_r.
Qed.

Lemma perm_ok_bits p : (∀ i, 3 <= i → Z.testbit p i = false) → perm_ok p.
Proof.
  intros Hh. unfold perm_ok. replace p with (p mod 2 ^ 3); [apply Z.mod_pos_bound; lia|].
  apply Z.bits_inj'. intros i Hi. destruct (Z.lt_ge_cases i 3).
  - by apply Z.mod_pow2_bits_low.
  - rewrite Z.mod_pow2_bits_high by lia. by rewrite Hh.
Qed.

Lemma group_part_ok m : perm_ok (Z.shiftr (m .& ModeGroupAll) 3).
Proof.
  apply perm_ok_bits. intros i Hi. rewrite Z.shiftr_spec, Z.land_spec, ModeGroupAll_bit by lia.
  rewrite bool_decide_false by lia. apply andb_false_r.
Qed.

(** Masks restrict. *)
Lemma land_perm_ok p q : perm_ok p → perm_ok (p .& q).
Proof. intros Hp. apply perm_ok_bits. intros i Hi. rewrite Z.land_spec, (perm_ok_high p) by done. done. Qed.

Lemma acl_Chmod_ok a mode : acl_ok a → acl_ok (acl_Chmod a mode).
Proof.
  intros [Hm Hk Hu Hg Hn]. unfold acl_Chmod. destruct (Mask a) as [m|] eqn:Em; split; simpl; try done; try naive_solver.
  - apply mode_ok_bits. intros i Hi. bit_ops.
    rewrite (mode_ok_high (UGOPerms a)) by done. mode_solve.
  - intros m' [= <-]. apply group_part_ok.
  - apply mode_ok_bits. intros i Hi. bit_ops.
    rewrite (mode_ok_high (UGOPerms a)) by done. mode_solve.
Qed.

Lemma acl_Chmod_mode a mode : acl_ok a → (acl_Mode (acl_Chmod a mode)).1 = Permissions mode.
Proof.
  intros Ha. apply Z.bits_inj'. intros i Hi. rewrite acl_mode_bits by (done || by apply acl_Chmod_ok).
  pose proof (mode_ok_high (UGOPerms a) i (ao_mode _ Ha)) as Hh.
  unfold Permissions. rewrite Z.land_spec, PermissionsMask_bit by done.
  unfold acl_Chmod. destruct (Mask a) as [m|]; simpl.
  - destruct (decide (3 <= i < 6)) as [Hd|Hd]; [rewrite Z.shiftr_spec by lia; replace (i - 3 + 3) with i by lia|]; bit_ops;
      mode_solve; by apply Hh; lia.
  - bit_ops.
    mode_solve; by apply Hh; lia.
Qed.

Lemma MaskNewFileMode_ok a mode : acl_ok a → acl_ok (MaskNewFileMode a mode).
Proof.
  intros [Hm Hk Hu Hg Hn]. unfold MaskNewFileMode. destruct (Mask a) as [m|] eqn:Em; split; simpl; try done; try naive_solver.
  - apply mode_ok_bits. intros i Hi. bit_ops. by rewrite (mode_ok_high (UGOPerms a)) by done.
  - intros m' [= <-]. apply land_perm_ok. by apply Hk.
  - apply mode_ok_bits. intros i Hi. bit_ops. by rewrite (mode_ok_high (UGOPerms a)) by done.
Qed.

Lemma MaskNewFileMode_mode a mode : acl_ok a → (acl_Mode (MaskNewFileMode a mode)).1 = (acl_Mode a).1 .& mode.
Proof.
  intros Ha. apply Z.bits_inj'. intros i Hi. rewrite acl_mode_bits by (done || by apply MaskNewFileMode_ok).
  pose proof (mode_ok_high (UGOPerms a) i (ao_mode _ Ha)) as Hh.
  rewrite Z.land_spec, acl_mode_bits by done. unfold MaskNewFileMode. destruct (Mask a) as [m|]; simpl.
  - destruct (decide (3 <= i < 6)) as [Hd|Hd].
    + rewrite Z.land_spec, Z.shiftr_spec by lia. replace (i - 3 + 3) with i by lia. bit_ops. mode_solve.
    + bit_ops. destruct (Z.testbit (UGOPerms a) i); [|done].
      mode_solve; first [by destruct (Z.testbit mode i) | by specialize (Hh ltac:(lia))].
  - bit_ops. destruct (Z.testbit (UGOPerms a) i); [|done].
      mode_solve; first [by destruct (Z.testbit mode i) | by specialize (Hh ltac:(lia))].
Qed.

(** ** Lists that grant less *)

Record acl_le (a' a : PosixACL) : Prop := mkAclLe {
  al_mode : UGOPerms a' ⊑c UGOPerms a;
  al_users : Users a' = Users a;
  al_groups : Groups a' = Groups a;
  al_mask p : masked a' p ⊑c masked a p
}.

Lemma MaskNewFileMode_le a mode : acl_le (MaskNewFileMode a mode) a.
Proof.
  unfold MaskNewFileMode. destruct (Mask a) as [m|] eqn:Em; split; try done; simpl.
  - by auto with caps.
  - intros p. unfold masked. simpl. rewrite Em. bits.
  - by auto with caps.
  - intros p. unfold masked. simpl. by rewrite Em.
Qed.

Lemma shift_part_mono a b c n : 0 <= n → a ⊑c b → Z.shiftr (a .& c) n ⊑c Z.shiftr (b .& c) n.
Proof.
  intros Hn Hs i Hi. destruct (Z.lt_ge_cases i 0); [by rewrite Z.testbit_neg_r in Hi|].
  rewrite Z.shiftr_spec, Z.land_spec in * by lia. apply andb_true_iff in Hi as [Hi1 Hi2]. by rewrite (Hs _ Hi1), Hi2.
Qed.

Lemma masked_mono a p q : p ⊑c q → masked a p ⊑c masked a q.
Proof. intros Hs. unfold masked. destruct (Mask a); [bits|done]. Qed.

Lemma acl_grants_mono a' a c ats kuid kgid :
  acl_le a' a → acl_grants a' c ats kuid kgid → acl_grants a c ats kuid kgid.
Proof.
  intros [Hm Hu Hg Hk]. unfold acl_grants, group_entries. rewrite Hu, Hg. case_decide.
  { intros Hs. etransitivity; [exact Hs|]. by apply shift_part_mono. }
  destruct (list_find _ (Users a)) as [[i u]|]; [intros Hs; etransitivity; [exact Hs|apply Hk]|].
  case_decide as Hd'; case_decide as Hd; rewrite Exists_cons in Hd', Hd; [|done|done|].
  - rewrite !Exists_cons. intros [[Hi Hs]|Hs]; [left|right].
    + split; [done|]. etransitivity; [exact Hs|]. etransitivity; [apply Hk|]. by apply masked_mono, shift_part_mono.
    + eapply Exists_impl; [exact Hs|]. intros [g p] [? Hp]. split; [done|]. etransitivity; [exact Hp|apply Hk].
  - intros Hs. etransitivity; [exact Hs|]. unfold OtherPerms. bits.
Qed.

(** Named users and groups and the owning group get no more than the group bits of the mode. *)
Lemma acl_Chmod_group a mode p : acl_ok a → Mask a ≠ None → masked (acl_Chmod a mode) p ⊑c Z.shiftr (mode .& ModeGroupAll) 3.
Proof.
  intros Ha Hn. unfold acl_Chmod, masked. destruct (Mask a) as [m|]; [|done]. simpl. by apply subcaps_land_r.
Qed.
