(* ===== verification/PermProps.v ===== *)
(** * Properties of permission checks

    The check of permissions follows acl(5) and the rules for capabilities; access control
    lists survive extended attributes and agree with permission bits; and tasks that are
    confined get no access to the files of others by their capabilities. *)

From stdpp Require Import base numbers decidable strings gmap relations list.
From S2P Require Import IdMapBtree IdMapSet Capability FileMode UserNs Credentials TaskIdentity Privileges NsFacts NsProps.
From S2P Require Import CapFacts CredFacts Confinement PrivProps PosixACL Permissions AclFacts Prelude.

Local Open Scope Z_scope.
Local Open Scope bits_scope.

(** ** Permission bits as a list *)

(** The list that says what permission bits say. *)
Definition minimal_acl (mode : Z) : PosixACL := mkACL (Permissions mode) None [] [].

(** The list of a file, or that of its permission bits. *)
Definition file_acl (mode : Z) (acl : option PosixACL) : PosixACL := default (minimal_acl mode) acl.

Lemma Permissions_high mode i : 9 <= i → Z.testbit (Permissions mode) i = false.
Proof. intros Hi. unfold Permissions. rewrite Z.land_spec, PermissionsMask_bit, bool_decide_false by lia. apply andb_false_r. Qed.

(** Only three bits of a part of the mode matter. *)
Lemma part_sub ats m c n :
  perm_ok ats → 0 <= n → (∀ i, 0 <= i < 3 → Z.testbit c (i + n) = true) →
  ats ⊑c Z.shiftr m n ↔ ats ⊑c Z.shiftr (m .& c) n.
Proof.
  intros Ha Hn Hc. split; intros Hs i Hi; specialize (Hs i Hi);
    (destruct (Z.lt_ge_cases i 0); [by rewrite Z.testbit_neg_r in Hi|]);
    (destruct (Z.lt_ge_cases i 3); [|by rewrite (perm_ok_high ats) in Hi]);
    rewrite Z.shiftr_spec, ?Z.land_spec in * by lia.
  - by rewrite Hs, Hc by lia.
  - by apply andb_true_iff in Hs as [].
Qed.

Lemma bits_grant mode c ats kuid kgid :
  perm_ok ats →
  ((ats .& (if EffectiveKUID c =? kuid then Z.shiftr (Permissions mode) 6
            else if InGroup c kgid then Z.shiftr (Permissions mode) 3
            else Permissions mode) =? ats) = true ↔ acl_grants (minimal_acl mode) c ats kuid kgid).
Proof.
  intros Ha. unfold acl_grants. cbn [Users minimal_acl list_find].
  match goal with |- (_ .& ?p =? _) = true ↔ _ => change ((ats .& p =? ats)) with (IsSubsetOf ats p) end.
  rewrite IsSubsetOf_spec. destruct (Z.eqb_spec (EffectiveKUID c) kuid) as [E|Hn].
  - rewrite decide_True by done. apply part_sub; [done|lia|]. intros i Hi. rewrite ModeUserAll_bit by lia. by rewrite bool_decide_true by lia.
  - rewrite decide_False by done. unfold group_entries. simpl. destruct (InGroup c kgid) eqn:Eg.
    + rewrite decide_True by (by apply Exists_cons_hd). rewrite Exists_cons, Exists_nil. simpl.
      assert (Hp : ats ⊑c Z.shiftr (Permissions mode) 3 ↔ ats ⊑c masked (minimal_acl mode) (GroupPerms (minimal_acl mode))).
      { apply part_sub; [done|lia|]. intros i Hi. rewrite ModeGroupAll_bit by lia. by rewrite bool_decide_true by lia. }
      rewrite Hp. intuition.
    + rewrite decide_False by (rewrite Exists_cons, Exists_nil; simpl; intuition congruence).
      pose proof (part_sub ats (Permissions mode) ModeOtherAll 0 Ha) as Hp. rewrite !Z.shiftr_0_r in Hp. apply Hp; [done|].
      intros i Hi. rewrite ModeOtherAll_bit by lia. by rewrite bool_decide_true by lia.
Qed.

Section Checks.
Context `{IdMapSet}.

(** What capabilities allow: CAP_DAC_READ_SEARCH to read and search, CAP_DAC_OVERRIDE everything
    but to execute a file that nobody may execute; on files whose owner and group are mapped. *)
Definition dac_privileged (st : ns_store) (c : Credentials) (ats mode kuid kgid : Z) : Prop :=
  (HasCapabilityOnFile st c CAP_DAC_READ_SEARCH kuid kgid = true ∧
   ((IsDir mode = true ∧ ats_MayWrite ats = false) ∨ ats = MayRead)) ∨
  (HasCapabilityOnFile st c CAP_DAC_OVERRIDE kuid kgid = true ∧
   (IsDir mode = true ∨ ats_MayExec ats = false ∨ Permissions mode .& 0x49 ≠ 0)).

Lemma GenericCheckPermissions_spec st c ats mode acl kuid kgid :
  perm_ok ats →
  (GenericCheckPermissions st c ats mode acl kuid kgid = Ok () ↔
   acl_grants (file_acl mode acl) c ats kuid kgid ∨ dac_privileged st c ats mode kuid kgid) ∧
  (GenericCheckPermissions st c ats mode acl kuid kgid = Ok () ∨
   GenericCheckPermissions st c ats mode acl kuid kgid = Err EACCES).
Proof.
  intros Ha. unfold GenericCheckPermissions.
  match goal with |- context [if ?b then Ok () else _] => set (granted := b) end.
  assert (Hg : granted = true ↔ acl_grants (file_acl mode acl) c ats kuid kgid).
  { unfold granted. destruct acl as [a|]; [apply checkPermissions_spec|by apply bits_grant]. }
  unfold dac_privileged, ats_OnlyRead. rewrite <- Hg, <- Z.eqb_eq, <- Z.eqb_neq. clearbody granted.
  destruct granted, (HasCapabilityOnFile st c CAP_DAC_READ_SEARCH kuid kgid), (HasCapabilityOnFile st c CAP_DAC_OVERRIDE kuid kgid),
    (IsDir mode), (ats_MayWrite ats), (ats_MayExec ats), (ats =? MayRead), (Permissions mode .& 0x49 =? 0); simpl; intuition done.
Qed.
End Checks.

(** ** Files and confined tasks *)

Section Files.
Context `{IML : IdMapSetLaws}.
Variables (n0 : nat) (ns0 : UserNamespace) (u : Z) (G : list Z) (st : ns_store) (K : known) (t : task_identity).
Hypotheses (Hw : world_ok st K) (Hn : ns_confined n0 ns0 u G st K) (Ht : confined n0 ns0 u G t)
  (Hk : knows K (cred_ns (creds t))).

Lemma self_cap_new cp : HasSelfCapability (creds t) cp = true → is_new n0 (cred_ns (creds t)).
Proof.
  intros Hc. destruct (le_dec n0 (ns_id (cred_ns (creds t)))); [done|].
  unfold HasSelfCapability in Hc. by rewrite (old_no_cap n0 ns0 u G st K) in Hc.
Qed.

Lemma mapped_uid_own kuid : is_new n0 (cred_ns (creds t)) → MapFromKUID st (cred_ns (creds t)) kuid ≠ NoID → kuid = u.
Proof.
  intros Hnew Hm. pose proof (map_from_to st K NsFacts.Users (cred_ns (creds t)) kuid Hw Hk Hm) as E.
  destruct (nc_uids _ _ _ _ _ _ Hn _ (MapFromKUID st (cred_ns (creds t)) kuid) Hk Hnew) as [Eu|Eu];
    unfold MapToKUID, MapFromKUID in *; cbn [from_of to_of] in E; rewrite E in Eu; [done|].
  subst kuid. by rewrite map_from_root_NoID in Hm.
Qed.

Lemma mapped_gid_own kgid : is_new n0 (cred_ns (creds t)) → MapFromKGID st (cred_ns (creds t)) kgid ≠ NoID → kgid ∈ G.
Proof.
  intros Hnew Hm. pose proof (map_from_to st K NsFacts.Groups (cred_ns (creds t)) kgid Hw Hk Hm) as E.
  destruct (nc_gids _ _ _ _ _ _ Hn _ (MapFromKGID st (cred_ns (creds t)) kgid) Hk Hnew) as [Eu|Eu];
    unfold MapToKGID, MapFromKGID in *; cbn [from_of to_of] in E; rewrite E in Eu; [done|].
  subst kgid. by rewrite map_from_root_NoID in Hm.
Qed.

(** A confined task has capabilities only on its own files. *)
Lemma confined_on_file cp kuid kgid : HasCapabilityOnFile st (creds t) cp kuid kgid = true → kuid = u ∧ kgid ∈ G.
Proof.
  intros Hf. unfold HasCapabilityOnFile, id_Ok in Hf. to_prop.
  split; [apply mapped_uid_own|apply mapped_gid_own]; eauto using self_cap_new.
Qed.

(** Nor can it act as the owner of other files. *)
Lemma confined_owner kuid : CanActAsOwner st (creds t) kuid = true → kuid = u.
Proof.
  intros Hf. unfold CanActAsOwner, id_Ok in Hf. pose proof Ht as [_ (_ & Hu & _) _ _ _].
  destruct (Z.eqb_spec (EffectiveKUID (creds t)) kuid) as [E|_]; [congruence|]. to_prop.
  apply mapped_uid_own; eauto using self_cap_new.
Qed.
End Files.

(** ** Claims *)

#[local] Existing Instance btree.
#[local] Existing Instance btree_laws.

(** C4. [GenericCheckPermissions] grants access exactly if the algorithm of acl(5) does, on the
    list of the file or on the list that corresponds to its permission bits, or if the
    credentials have CAP_DAC_READ_SEARCH or CAP_DAC_OVERRIDE on the file and the access is of a
    kind that the capability allows; otherwise it fails with EACCES. *)
Theorem GenericCheckPermissions_correct `{IdMapSet} st c ats mode acl kuid kgid :
  perm_ok ats →
  (GenericCheckPermissions st c ats mode acl kuid kgid = Ok () ↔
   acl_grants (file_acl mode acl) c ats kuid kgid ∨ dac_privileged st c ats mode kuid kgid) ∧
  (GenericCheckPermissions st c ats mode acl kuid kgid = Ok () ∨
   GenericCheckPermissions st c ats mode acl kuid kgid = Err EACCES).
Proof. apply GenericCheckPermissions_spec. Qed.

(** A list by which a named user may write, but not the owning group. *)
Definition sample_acl : PosixACL := mkACL 0x1A0 (Some 7) [mkACLUser 1000 6] [].

Lemma GenericCheckPermissions_correct_witness :
  GenericCheckPermissions root_store user_creds MayWrite 0x81B8 (Some sample_acl) 0 0 = Ok () ∧
  GenericCheckPermissions root_store user_creds MayWrite 0x81A0 None 0 0 = Err EACCES.
Proof.
  split.
  - apply (GenericCheckPermissions_correct root_store user_creds MayWrite 0x81B8 (Some sample_acl) 0 0); [done|].
    left. unfold acl_grants. simpl. by apply IsSubsetOf_spec.
  - destruct (GenericCheckPermissions_correct root_store user_creds MayWrite 0x81A0 None 0 0) as [_ [E|E]]; [done| |exact E].
    vm_compute in E. discriminate E.
Defined.

(** C24. The lists that setxattr(2) accepts are well formed: permissions are in range, named users
    and groups are mapped and there is a mask if there are any.  What getxattr(2) returns for
    such a list, in the same namespace, is accepted as the same list. *)
Theorem acl_xattr_roundtrip `{IML : IdMapSetLaws} st K c name value mode kuid a ty :
  reachable st K → knows K (cred_ns c) → Forall in_u8 value →
  ACLSetXattr st c name value mode kuid = Ok (Some a, ty) →
  acl_ok a ∧ acl_mapped st (cred_ns c) a ∧
  ∃ value', ACLGetXattr st c name mode (Some a) (Some a) = Ok value' ∧
    ACLSetXattr st c name value' mode kuid = Ok (Some a, ty).
Proof.
  intros Hr%reachable_world Hk Hv E. unfold ACLSetXattr, ACLGetXattr in *. destruct (acl_type name) as [ty'|err|]; [|done|done].
  simpl in *. case_if_in E; [done|]. apply bind_Ok in E as (acl & Ep & E).
  assert (acl = Some a ∧ ty' = ty ∧ (is_default ty' && negb (IsDir mode) = false) ∧ CanActAsOwner st c kuid = true) as (-> & <- & Ed & Eo).
  { destruct (is_default ty' && negb (IsDir mode)) eqn:Ed; [by destruct acl|]. case_if_in E; [done|].
    injection E as -> ->. by to_prop. }
  destruct (ParsePosixACL_ok st K _ _ _ Hr Hk Hv Ep) as [Ha Hm]. split; [done|]. split; [done|].
  exists (Serialize st a (cred_ns c)). split; [by destruct (is_default ty')|].
  rewrite (Serialize_Parse st K) by done. simpl. by rewrite Ed, Eo.
Qed.

(** The list above in the representation of extended attributes. *)
Definition sample_value : list Z := Serialize root_store sample_acl root_ns.

Lemma acl_xattr_roundtrip_witness :
  ∃ value', ACLGetXattr root_store root_creds XATTR_NAME_POSIX_ACL_ACCESS 0x81A0 (Some sample_acl) (Some sample_acl) = Ok value' ∧
    ACLSetXattr root_store root_creds XATTR_NAME_POSIX_ACL_ACCESS value' 0x81A0 0 = Ok (Some sample_acl, AccessACL).
Proof.
  apply (acl_xattr_roundtrip root_store (<[0%nat := root_ns]> ∅) root_creds XATTR_NAME_POSIX_ACL_ACCESS sample_value 0x81A0 0
    sample_acl AccessACL root_reachable); [reflexivity| |reflexivity].
  unfold sample_value, Serialize, xattr_MarshalBytes. repeat apply Forall_app_2; apply le_bytes_range || constructor.
Defined.

(** C28. Lists and permission bits stay together: after chmod(2) the list shows exactly the new
    permission bits, and with a mask nobody but the owner and others gets more than the group
    bits; the list of a new file shows the bits of the default list that the mode of its
    creation has, and grants nothing that the default list does not. *)
Theorem acl_mode_changes a mode :
  acl_ok a →
  (let a' := acl_Chmod a mode in
   acl_ok a' ∧ (acl_Mode a').1 = Permissions mode ∧
   (Mask a ≠ None → ∀ p, masked a' p ⊑c Z.shiftr (mode .& ModeGroupAll) 3)) ∧
  (let a' := MaskNewFileMode a mode in
   acl_ok a' ∧ (acl_Mode a').1 = (acl_Mode a).1 .& mode ∧
   ∀ c ats kuid kgid, checkPermissions a' c ats kuid kgid = true → checkPermissions a c ats kuid kgid = true).
Proof.
  intros Ha. split.
  - split; [by apply acl_Chmod_ok|]. split; [by apply acl_Chmod_mode|]. intros Hn p. by apply acl_Chmod_group.
  - split; [by apply MaskNewFileMode_ok|]. split; [by apply MaskNewFileMode_mode|].
    intros c ats kuid kgid. rewrite !checkPermissions_spec. apply acl_grants_mono, MaskNewFileMode_le.
Qed.

Lemma sample_acl_ok : acl_ok sample_acl.
Proof.
  split; simpl; [done|by intros m [= <-]| |done|done]. by apply Forall_singleton.
Qed.

Lemma acl_mode_changes_witness : (acl_Mode (acl_Chmod sample_acl 0x1E8)).1 = 0x1E8.
Proof. destruct (acl_mode_changes sample_acl 0x1E8 sample_acl_ok) as [(_ & E & _) _]. exact E. Defined.

(** C11. Tasks that start with no_new_privs, as the user [u] with groups in [G] and without
    capabilities, whatever they do, get access to a file that is not owned by [u] and a group
    of [G] only as its permissions allow to [u]: capabilities in namespaces of their own
    do not help.  And they cannot act as the owner of files of others. *)
Theorem confined_file_access `{IML : IdMapSetLaws} st K ns0 u (G : list Z) ts w :
  reachable st K → knows K ns0 → (∀ ns, knows K ns → parent ns = Some ns0 → owner ns ≠ u) →
  Forall (unprivileged ns0 u G) ts → rtc step (mkWorld st K ts) w →
  Forall (λ t, ∀ ats mode acl kuid kgid,
    (perm_ok ats → ¬ (kuid = u ∧ kgid ∈ G) → GenericCheckPermissions (w_store w) (creds t) ats mode acl kuid kgid = Ok () →
     acl_grants (file_acl mode acl) (creds t) ats kuid kgid) ∧
    (kuid ≠ u → CanActAsOwner (w_store w) (creds t) kuid = false)) (w_tasks w).
Proof.
  intros Hr Hk Hown Hts Hrun. destruct (group_confined_start st K ns0 u G ts Hr Hk Hown Hts) as [Hg _].
  destruct (group_confined_steps _ _ _ _ _ _ Hg Hrun) as [[Hr'%reachable_world _ Hn' Ht'] _].
  eapply Forall_impl; [exact Ht'|]. intros t [Hc Hkn] ats mode acl kuid kgid. split.
  - intros Ha Hother [Hg'|Hp]%GenericCheckPermissions_spec; [done| |done]. destruct Hother.
    destruct Hp as [[Hp _]|[Hp _]]; by eapply confined_on_file.
  - intros Hne. apply not_true_is_false. intros Ho. apply Hne. by eapply confined_owner.
Qed.

Lemma confined_file_access_witness :
  HasSelfCapability (creds forked_task) CAP_DAC_OVERRIDE = true ∧
  GenericCheckPermissions user_mapped (creds forked_task) MayRead 0x8180 None 0 0 ≠ Ok () ∧
  CanActAsOwner user_mapped (creds forked_task) 0 = false.
Proof.
  split; [reflexivity|]. assert (Hn : ¬ (0 = 1000 ∧ 0 ∈ [1000; 27])) by (by intros []). assert (Hp : perm_ok 4) by done.
  assert (H := confined_file_access root_store (<[0%nat := root_ns]> ∅) root_ns 1000 [1000; 27] [user_task]
    (mkWorld user_mapped user_known [forked_task]) root_reachable eq_refl root_no_child
    ltac:(apply Forall_singleton, user_unprivileged) user_run).
  cbn [w_tasks w_store] in H. rewrite (Forall_singleton _ forked_task) in H.
  destruct (H MayRead 0x8180 None 0 0) as [Hg Ho]. split; [|exact (Ho ltac:(lia))].
  intros E. specialize (Hg Hp Hn E). unfold acl_grants in Hg. simpl in Hg.
  apply IsSubsetOf_spec in Hg. vm_compute in Hg. discriminate Hg.
Defined.

(** ** Divergences from the documentation *)

(** [ClearSUIDAndSGID] takes block devices and sockets for directories: the set-user-ID bit of
    both is kept. *)
Theorem ClearSUIDAndSGID_not_directories :
  IsDir 0x69ED = false ∧ ClearSUIDAndSGID 0x69ED = 0x69ED ∧ IsDir 0xC9ED = false ∧ ClearSUIDAndSGID 0xC9ED = 0xC9ED ∧
  ClearSUIDAndSGID 0x89ED = 0x81ED.
Proof. repeat split. Qed.
